(* ===== verification/_CoqProject ===== *)
-Q . S2P
Prelude.v
GoStd.v
GoHeap.v
GoFloat.v
GoTime.v
GoJson.v
Domain.v
GoHttp.v
RequestQueue.v
Cache.v
MemoryCache.v
RateLimit.v
RateLimitSafety.v
RateLimitSpec.v
Router.v
Override.v
Stream.v
Proxy.v
ChainLogger.v
WorkerPool.v
Console.v
RequestLines.v
Auth.v
Dispatch.v
Metrics.v
Middleware.v
OpenAI.v
AsyncLog.v
LogStore.v
LogPipeline.v
Retention.v
Store.v
Schema.v
Config.v
Startup.v
Shutdown.v
Server.v
RedisCache.v
RedisQueue.v
RabbitMQ.v
MessageQueue.v
Queues.v
Admin.v
