(* ===== verification/Prelude.v ===== *)
(** * ProxyLLM: a verified model of the rate-limited LLM gateway

    ProxyLLM is an HTTP gateway in front of OpenAI-compatible model servers.
    The Go code is under [src/src/]; paths below are relative to
    [src/src/internal/].

    ** How a request travels

    [api/server.go] wraps each handler in a middleware stack
    ([api/middleware.go]): CORS, request and session IDs, access log,
    authentication.  A handler of [api/openai.go] checks the body, the model
    and the key's permissions, and puts a [PendingRequest] in the priority queue
    ([queue/priority_queue.go]).  Workers ([worker/pool.go]) take requests from
    the queue, ask the three-layer limiter ([ratelimit/limiter.go]) and either
    hand the request to a goroutine that enqueues it again after a delay, or try
    the nodes that the router ([router/]) offers, one after the other, through
    [proxy/proxy.go] and [proxy/stream.go].  The handler waits for the result,
    records metrics ([metrics/metrics.go]), charges the tokens to the limiter,
    whose counters live in a cache ([storage/memory/cache.go]), and offers two
    log entries to the asynchronous logger ([logging/logger.go]).  The
    management API ([api/admin.go]) reads the store and the logs.

    ** Files

    The language and its library:
    - [Prelude]: results of fallible calls, the tactics and hint databases, and
      the lemmas on lists and options that several components share;
    - [GoStd]: [strings], [strconv], [time] and wrap-around of 64-bit integers;
    - [GoTime]: the calendar, RFC 3339 text and its order;
    - [GoHeap]: [container/heap] over any strict weak order, with its invariant;
    - [GoFloat]: [float64] as IEEE 754 binary64, rounding included;
    - [GoJson], [GoHttp]: dynamic JSON values; headers, the response writer, the
      line scanner, runes.

    The program, one file per component:
    - [Domain] (domain/): nodes, limits, keys, log records;
    - [RequestQueue] (queue/priority_queue.go), module [Queue]: the heap with its
      capacity, positions, lazy deletion of cancelled requests, closing;
    - [Cache] (storage/interfaces.go): the class [Cache] of operations, the
      class [CounterCache] of laws the limiter relies on, and programs over
      cache events;
    - [MemoryCache] (storage/memory/cache.go), module [Mem]: the cache in memory,
      an instance of both classes;
    - [RateLimit] (ratelimit/limiter.go), module [Limit]: [AllowRequest],
      [RecordTokens], [Check] as programs over cache events;
      [RateLimitSafety]: any number of interleaved callers; [RateLimitSpec]: the
      abstract limiter and the refinement;
    - [Router] (router/router.go, router/balancer.go), module [Routing];
    - [Override], [Stream], [Proxy] (proxy/): the merge of a node's override into
      the body, the relay of server-sent events, the forwarding of a request;
    - [ChainLogger] (logging/chain_logger.go), module [Chain]: error classes and
      throttled warnings; [Console] (logging/handler.go, the rest of
      logging/chain_logger.go): the lines on the console; [RequestLines]: those
      of the retry loop, with module [Lines];
    - [WorkerPool] (worker/pool.go), module [Pool]: the buffering recorder and
      [forwardWithRetry];
    - [Dispatch] (worker/pool.go, api/openai.go): the worker loop and the
      requests in flight as a step system;
    - [Auth] (auth/): tokens, keys, identifiers;
    - [Metrics] (metrics/metrics.go): the Prometheus registry;
    - [Middleware] (api/middleware.go, api/context.go, the stacks of
      api/server.go), module [Api]; [OpenAI] (api/openai.go); [Admin]
      (api/admin.go); [Server] (api/server.go and the route tables): the
      multiplexer and what stands in front of every route;
    - [AsyncLog] (logging/logger.go and the bulk inserts of
      storage/sqlite/logger.go); [LogPipeline] (storage/interfaces.go), module
      [Pipeline]: the class [Logger], of which the asynchronous logger over the
      tables is the instance;
    - [LogStore] (storage/sqlite/logger.go): log rows, the filter's SQL, queries
      and statistics; [Retention] (logging/retention.go and the pruning
      statements of storage/sqlite/logger.go);
    - [Store] (storage/sqlite/storage.go): the node and key tables; [Schema]:
      [Open] and [migrate] of the same file;
    - [Config] (config/config.go), module [Configuration]; [Startup]
      (cmd/proxyllm/main.go): the database and the router after a start, the
      limits per model and per key; [Shutdown]: the construction of the
      components and what [main] does after a signal, with the pool, the two
      log tiers, the handlers and the cleaner running beside it;
    - [RedisCache] (storage/redis/cache.go), module [Redis]: the shared cache over
      a server given by its documented laws;
    - [MessageQueue] (storage/memory/queue.go), module [MQ]: topics, dispatchers
      and subscribers as a step system; [RedisQueue] (storage/redis/queue.go),
      module [RQ], and [RabbitMQ] (storage/rabbitmq/queue.go), module [Rabbit]:
      the queues on a server, with lost replies, lost connections and the
      watchdog; [Queues] (storage/interfaces.go): the class [DrainingQueue] that
      the three implement.

    ** How code becomes definitions

    A struct is a [Record] whose fields keep their Go names behind a prefix.  A
    method that runs under one mutex is a function from the state to the state
    and the result.  Where goroutines interleave between operations (the
    limiter's cache events, the atomics of the warning throttle, handlers,
    workers and sleepers, the logger's channel, the cached key limits, the
    message queues, the shutdown) a component is a step function
    over explicit actions, and theorems are about every sequence of actions.
    What the program does not decide is an argument: the clock, random draws,
    the order in which a map is iterated, what the upstream answers, whether a
    write or a transaction fails, how often a command reaches a server, and the
    functions of third-party or reflective code such as [json.Marshal] into a
    struct.  Integers are [Z] with
    the 64-bit wrap-around written where the code can reach it; strings are
    byte strings.

    ** What the theorems show

    - Limiter: under any interleaving a window never admits more requests than
      a layer's limit ([admission_bound]); a call that runs alone admits,
      charges and rolls back exactly as the abstract limiter does
      ([allow_refines], [record_tokens]); what happens when the cache is down
      ([cache_down]); that the sliding window does not prevent a burst at the
      boundary ([window_burst]).
    - Queue: the invariant of every history ([queue_reachable_ok]), service in
      order of priority and age ([drain_sorted], [dequeue_best]), when a dequeue
      returns ([dequeue_outcome]), refusal and position ([enqueue_spec]).
    - Dispatch: no accepted request is duplicated or answered twice, and none is
      lost ([requests_conserved], [answered_once]) except when it is put back in
      a full or closed queue ([requeue_can_lose]).
    - Retry: the client sees only the answer of the node that succeeded, unless
      a failed attempt had already begun to relay a response
      ([retry_transparent]), attempts are bounded and distinct
      ([retry_attempts]), when an answer is sent at all ([request_answered],
      [unanswered]), and the mixture of two answers after a broken stream
      ([retry_after_partial_answer]).  The console shows of a request exactly
      what its result records ([lines_match_result]).
    - Router: the index is the last-writer-wins table seen through [Resolve]
      ([resolve_refines]); round robin visits every candidate
      ([round_robin_fair]).
    - Proxy: the body and request sent upstream ([override_wins],
      [merge_any_order], [upstream_request]) and the relay of a stream
      ([stream_complete]).
    - API: no path reaches a protected handler without its credential, and the
      public ones change nothing but the probe key of the health check
      ([server_protected], over [openai_protected] and [admin_protected]); what
      is enqueued and what is accounted for ([submit_spec], [complete_spec],
      [list_models_spec]); the listing hides keys ([keys_masked]).
    - Storage: the tables implement a pair of finite maps ([store_refines]); log
      entries survive the round trip through text ([log_roundtrip]); pages
      partition what a filter asks for ([query_pages], over [selected], which is
      stated on log entries and not on SQL), up to the seconds in which its
      window starts and ends ([filter_edge]); no text of a client becomes SQL
      ([sql_text_closed]); the statistics agree with each
      other ([stats_agree]) and fail on fractional averages
      ([stats_top_fails]); a cleaning cycle ends and enforces its limits
      ([retention_enforced]); a migration keeps every row, provides every column
      the program names and can be repeated ([migrate_upgrades]).
    - Start-up: environment over file over default ([load_precedence]); when no
      key value is in two places, the database, the router and the limits mirror
      the configuration ([start_mirrors_config]) and exactly the configured keys
      authenticate, except that a key configured without a value keeps its old
      one ([start_accepts_configured]); a renamed key ends the start
      ([renamed_key_blocks_start]); key limits are fresh ([key_limits_fresh]).
    - Logs: every entry is accounted for ([log_conserved],
      [flush_misses_batch]), what is committed can be queried and nothing else,
      until the cleaner runs ([logged_is_queryable]); after a graceful shutdown no entry is left in a
      channel or a batch ([shutdown_settles_logs]), after a timeout one can be
      ([timeout_can_lose]).
    - Message queues: subscribers in memory get subsequences that lack only what
      found their buffer full, and closing can panic ([mq_delivery],
      [close_panics]); on Redis every message is handled,
      on hand or in its list, in order, unless a reply or the process is lost
      ([redis_queue_conserved]), and closing ends ([redis_close_ends]); on
      RabbitMQ every delivery is settled by its handler's verdict
      ([rabbit_settles]) and no connection but the current one stays open
      ([rabbit_no_leak]); no handler runs once the call that closed any of them
      has returned ([close_is_final]), but for a subscription in memory that was
      being set up ([late_handler]) and a second call, which does not wait
      ([second_close_early]).
    - The rest: expiry cannot be observed through cleanup
      ([cleanup_unobservable], [incr_sum]), nor the cache that is used
      ([redis_drop_in]); error classes and warnings ([retryable_iff],
      [warnings_spaced]); keys ([authenticate_iff], [generated_distinct]);
      metrics ([metrics_exact]); a record is one line of the console, whose
      columns are aligned behind messages of at most sixteen columns
      ([console_line]) and whose attributes a client can forge
      ([attributes_forged]).

    ** Bounds and fuel

    The loops of [container/heap] take one more than the index they start from
    (up) or than the length of the heap (down) as fuel, which
    [up_loop_ok] and [down_loop_ok] show to be enough; the dequeue loop pops one
    request per round and takes the heap's length; the retry loop takes
    [MaxRetryAttempts], its own bound; the loop that prunes by size deletes a row
    per round or stops, and takes one more than the number of rows.  All other
    recursions are structural; the step systems have no fuel, since a theorem is
    about all finite sequences of actions, and where a component has to come to
    an end ([redis_close_ends]) the number of its steps is bounded and one of
    them can always be taken.
    [admission_bound] assumes that the number of calls and the limits are below
    2^53, where [float64] counts exactly, and that a call ends within one second
    of reading the clock, so that a counter (61 s) outlives the calls of its
    minute.  The memory cache's [Get] is one step, as in executions without the
    data race on an entry's value; the connection that [connect] of the RabbitMQ
    queue dials becomes current or is closed in the step that dials it.

    ** What is not modelled

    [ListenAndServe] of api/server.go and the embedded pages (static assets);
    constructors that only store their arguments; the pool and timeout settings
    passed to the Redis, SQLite and HTTP client libraries, whose behaviour is
    that of the environment's answers; the access-log line of api/middleware.go
    and the other log lines outside the request chain, which nothing reads. *)
From stdpp Require Export base gmap strings list sorting pretty.
From Stdlib Require Export ZArith Lia.

#[global] Open Scope Z_scope.

(** ** Notations *)

Declare Scope go_scope.
Delimit Scope go_scope with go.

(** The two values of a Go call [v, err]: [Ok v] when [err == nil]. *)
Inductive result (E A : Type) : Type :=
| Ok (a : A)
| Err (e : E).
Arguments Ok {E A} _.
Arguments Err {E A} _.

Notation "x <-? c ;; k" :=
  (match c with Ok x => k | Err e => Err e end)
  (at level 100, c at next level, right associativity) : go_scope.
(** ** Hint databases *)

Create HintDb go_db.
Create Rewrite HintDb go_rw.

(** ** Tactics *)

(** Split a conjunction of boolean tests in the hypotheses. *)
Ltac bools :=
  repeat match goal with
  | H : (_ && _) = true |- _ => apply andb_true_iff in H as [? ?]
  | H : (_ || _) = false |- _ => apply orb_false_iff in H as [? ?]
  | H : negb _ = true |- _ => apply negb_true_iff in H
  | H : negb _ = false |- _ => apply negb_false_iff in H
  | H : (_ <=? _) = true |- _ => apply Z.leb_le in H
  | H : (_ <=? _) = false |- _ => apply Z.leb_gt in H
  | H : (_ <? _) = true |- _ => apply Z.ltb_lt in H
  | H : (_ <? _) = false |- _ => apply Z.ltb_ge in H
  | H : (_ =? _) = true |- _ => apply Z.eqb_eq in H
  | H : (_ =? _) = false |- _ => apply Z.eqb_neq in H
  | H : (_ >? _) = true |- _ => rewrite Z.gtb_ltb in H
  | H : (_ >? _) = false |- _ => rewrite Z.gtb_ltb in H
  | H : (_ >=? _) = true |- _ => rewrite Z.geb_leb in H
  | H : (_ >=? _) = false |- _ => rewrite Z.geb_leb in H
  | H : bool_decide _ = true |- _ => apply bool_decide_eq_true in H
  | H : bool_decide _ = false |- _ => apply bool_decide_eq_false in H
  end.

(** Case analysis on every conditional and match of the goal. *)
Ltac splits := repeat case_match; bools; simplify_eq/=.

(** ** Machine integers *)

(** Go's [int] and [int64] on a 64-bit platform: two's complement wrap-around. *)
Definition wrap64 (z : Z) : Z := (z + 2 ^ 63) mod 2 ^ 64 - 2 ^ 63.
Definition wrapu64 (z : Z) : Z := z mod 2 ^ 64.
Definition in_int64 (z : Z) : Prop := - 2 ^ 63 <= z < 2 ^ 63.

#[global] Instance in_int64_dec z : Decision (in_int64 z).
Proof. unfold in_int64. apply _. Defined.

Lemma wrap64_id z : in_int64 z → wrap64 z = z.
Proof. unfold in_int64, wrap64. intros. rewrite Z.mod_small; lia. Qed.

Lemma wrap64_range z : in_int64 (wrap64 z).
Proof.
  unfold in_int64, wrap64.
  pose proof (Z.mod_pos_bound (z + 2 ^ 63) (2 ^ 64) ltac:(lia)). lia.
Qed.

Lemma wrap64_add_l x y : wrap64 (wrap64 x + y) = wrap64 (x + y).
Proof.
  unfold wrap64. f_equal.
  replace ((x + 2 ^ 63) mod 2 ^ 64 - 2 ^ 63 + y + 2 ^ 63)
    with ((x + 2 ^ 63) mod 2 ^ 64 + y) by lia.
  rewrite Zplus_mod_idemp_l. f_equal. lia.
Qed.

#[export] Hint Resolve wrap64_range : go_db.
#[export] Hint Rewrite wrap64_add_l : go_rw.

(** ** Strings *)

Lemma str_app_nil_r s : s +:+ "" = s.
Proof. induction s as [|c s IH]; [done|]. exact (f_equal (String c) IH). Qed.

Lemma str_app_assoc s1 s2 s3 : (s1 +:+ s2) +:+ s3 = s1 +:+ (s2 +:+ s3).
Proof. induction s1 as [|c s1 IH]; [done|]. exact (f_equal (String c) IH). Qed.

(** ** Lists *)

Section lists.
  Context {A : Type}.
  Implicit Types l : list A.

(** [h[i], h[j] = h[j], h[i]] on a slice; out of range indices do not occur
    at the call sites (they would panic in Go) and leave the list as it is. *)
Definition swap (i j : nat) (l : list A) : list A :=
  match l !! i, l !! j with
  | Some x, Some y => <[j := x]> (<[i := y]> l)
  | _, _ => l
  end.

Lemma length_swap i j l : length (swap i j l) = length l.
Proof. unfold swap. repeat case_match; by rewrite ?length_insert. Qed.

Lemma lookup_swap i j k l :
  (i < length l)%nat → (j < length l)%nat →
  swap i j l !! k =
    if decide (k = i) then l !! j else if decide (k = j) then l !! i else l !! k.
Proof.
  intros [x Hi]%lookup_lt_is_Some [y Hj]%lookup_lt_is_Some.
  unfold swap. rewrite Hi, Hj.
  pose proof (lookup_lt_Some _ _ _ Hi). pose proof (lookup_lt_Some _ _ _ Hj).
  rewrite !list_lookup_insert, length_insert.
  repeat case_decide; naive_solver congruence.
Qed.

Lemma swap_Permutation i j l : swap i j l ≡ₚ l.
Proof.
  unfold swap. destruct (l !! i) as [x|] eqn:Hi; [|done].
  destruct (l !! j) as [y|] eqn:Hj; [|done].
  by apply Permutation_insert_swap.
Qed.

Lemma Forall_filter_keep (P Q : A → Prop) `{∀ x, Decision (Q x)} l :
  Forall P l → Forall P (filter Q l).
Proof. rewrite !Forall_forall. intros HP x [_ Hx]%list_elem_of_filter. auto. Qed.

Lemma filter_none (f : A → bool) l :
  Forall (λ x, f x = false) l → filter (λ x, f x = true) l = [].
Proof. induction 1; [done|]. rewrite filter_cons, decide_False; congruence. Qed.

Lemma filter_nothing (P : A → Prop) `{∀ x, Decision (P x)} l : Forall (λ x, ¬ P x) l → filter P l = [].
Proof. induction 1; [done|]. by rewrite filter_cons_False. Qed.

Lemma filter_everything (P : A → Prop) `{∀ x, Decision (P x)} l : Forall P l → filter P l = l.
Proof. induction 1; [done|]. rewrite filter_cons_True by done. by f_equal. Qed.

Lemma Forall2_elem_r {B} (P : A → B → Prop) l k y :
  Forall2 P l k → y ∈ k → ∃ x, x ∈ l ∧ P x y.
Proof.
  induction 1 as [|x z l k Hp _ IH]; [set_solver|]. intros [->|Hy]%elem_of_cons; [set_solver|].
  destruct (IH Hy) as (x' & Hx & Hp'). set_solver.
Qed.

Lemma Forall2_fmap_eq {B C} (P : A → B → Prop) (f : A → C) (g : B → C) l k :
  (∀ x y, P x y → f x = g y) → Forall2 P l k → f <$> l = g <$> k.
Proof. intros Hfg. induction 1 as [|x y l k Hp _ IH]; [done|]. simpl. f_equal; auto. Qed.

(** A list sorted by a function, seen through a pointwise relation. *)
Lemma StronglySorted_Forall2 {B} (R : relation A) (R' : relation B) (P : A → B → Prop) l k :
  (∀ x x' y y', R x x' → P x y → P x' y' → R' y y') →
  Forall2 P l k → StronglySorted R l → StronglySorted R' k.
Proof.
  intros HR. induction 1 as [|x y l k Hp Hf IH]; intros Hs; [constructor|].
  apply StronglySorted_inv in Hs as [Hs Ha]. constructor; [auto|].
  apply Forall_forall. intros y' Hy'. destruct (Forall2_elem_r _ _ _ _ Hf Hy') as (x' & Hx & Hp').
  rewrite Forall_forall in Ha. eauto.
Qed.

Lemma StronglySorted_take (R : relation A) n l : StronglySorted R l → StronglySorted R (take n l).
Proof. rewrite <-(take_drop n l) at 1. apply StronglySorted_app_1_l. Qed.

(** The sum of a function over a list. *)
Definition sumZ (f : A → Z) (l : list A) : Z := foldr Z.add 0 (f <$> l).

Lemma sumZ_cons f x l : sumZ f (x :: l) = f x + sumZ f l.
Proof. done. Qed.

Lemma sumZ_app f l l' : sumZ f (l ++ l') = sumZ f l + sumZ f l'.
Proof. induction l as [|x l IH]; [done|]. simpl. rewrite !sumZ_cons, IH. lia. Qed.

#[global] Instance sumZ_Permutation f : Proper ((≡ₚ) ==> (=)) (sumZ f).
Proof. intros l l' Hl. induction Hl; rewrite ?sumZ_cons; try lia. Qed.

Lemma sumZ_nonneg f l : Forall (λ x, 0 ≤ f x) l → 0 ≤ sumZ f l.
Proof. induction 1; [done|]. rewrite sumZ_cons. lia. Qed.

Lemma sumZ_insert f l i x y : l !! i = Some x → sumZ f (<[i := y]> l) = sumZ f l - f x + f y.
Proof.
  revert i. induction l as [|z l IH]; intros [|i] Hi; simplify_eq/=; rewrite !sumZ_cons; [lia|].
  rewrite (IH i) by done. lia.
Qed.

Lemma sumZ_bounded f n l : (∀ x, f x ≤ n) → sumZ f l ≤ n * Z.of_nat (length l).
Proof.
  intros Hf. induction l as [|x l IH]; [rewrite Z.mul_0_r; done|]. rewrite sumZ_cons. specialize (Hf x). simpl length. lia.
Qed.

Lemma sumZ_ones l : sumZ (λ _, 1) l = Z.of_nat (length l).
Proof. induction l as [|x l IH]; [done|]. rewrite sumZ_cons, IH. simpl. lia. Qed.

Lemma sumZ_join f (ls : list (list A)) : sumZ f (mjoin ls) = foldr Z.add 0 (sumZ f <$> ls).
Proof. induction ls as [|l ls IH]; [done|]. simpl. by rewrite sumZ_app, IH. Qed.

(** Consecutive pages of [n] elements. *)
Lemma pages_join n k l : mjoin ((λ i, take n (drop (i * n) l)) <$> seq 0 k) = take (k * n) l.
Proof.
  induction k as [|k IH]; [done|]. rewrite seq_S, fmap_app, join_app, IH. simpl.
  rewrite app_nil_r, take_take_drop. f_equal. lia.
Qed.

Lemma fmap_join {B} (f : A → B) (ls : list (list A)) : mjoin (fmap f <$> ls) = f <$> mjoin ls.
Proof. induction ls as [|l ls IH]; [done|]. simpl. by rewrite fmap_app, <-IH. Qed.

(** Replacing one holder of a list of holders exchanges what they hold. *)
Lemma bind_insert {B} (held : A → list B) l i x y :
  l !! i = Some x → held x ++ (<[i := y]> l ≫= held) ≡ₚ held y ++ (l ≫= held).
Proof.
  revert i. induction l as [|z l IH]; intros [|i] Hi; simplify_eq/=; [solve_Permutation|].
  specialize (IH i Hi).
  trans (held z ++ held x ++ (<[i := y]> l ≫= held)); [solve_Permutation|].
  rewrite IH. solve_Permutation.
Qed.

(** The number of elements that satisfy a test. *)
Fixpoint countb (f : A → bool) (l : list A) : Z :=
  match l with
  | [] => 0
  | x :: l => Z.b2z (f x) + countb f l
  end.

Lemma countb_nonneg f l : 0 ≤ countb f l.
Proof. induction l as [|x l IH]; simpl; [done|]. destruct (f x); simpl; lia. Qed.

Lemma countb_le f l : countb f l ≤ Z.of_nat (length l).
Proof. induction l as [|x l IH]; simpl; [done|]. destruct (f x); simpl; lia. Qed.

Lemma countb_app f l1 l2 : countb f (l1 ++ l2) = countb f l1 + countb f l2.
Proof. induction l1 as [|x l1 IH]; simpl; lia. Qed.

Lemma countb_insert f l i x y :
  l !! i = Some x → countb f (<[i := y]> l) = countb f l - Z.b2z (f x) + Z.b2z (f y).
Proof.
  revert i. induction l as [|z l IH]; intros [|i] Hi; simplify_eq/=; [lia|].
  rewrite (IH i) by done. lia.
Qed.

Lemma countb_ge1 f l i x : l !! i = Some x → f x = true → 1 ≤ countb f l.
Proof.
  revert i. induction l as [|z l IH]; intros [|i] Hi Hf; simplify_eq/=.
  - rewrite Hf. simpl. pose proof (countb_nonneg f l). lia.
  - specialize (IH i Hi Hf). destruct (f z); simpl; lia.
Qed.

End lists.

(** Counting along a correspondence. *)
Lemma countb_Forall2 {A B} (R : A → B → Prop) (f : A → bool) (g : B → bool) l k :
  Forall2 R l k → (∀ x y, R x y → f x = true → g y = true) → countb f l ≤ countb g k.
Proof.
  intros H Hfg. induction H as [|x y l k Hxy _ IH]; simpl; [done|].
  specialize (Hfg x y Hxy). destruct (f x), (g y); simpl;
    try lia; by discriminate Hfg.
Qed.

Lemma countb_impl {A} (f g : A → bool) l :
  (∀ x, f x = true → g x = true) → countb f l ≤ countb g l.
Proof.
  intros Hfg. induction l as [|x l IH]; simpl; [done|].
  specialize (Hfg x). destruct (f x), (g x); simpl;
    try lia; by discriminate Hfg.
Qed.

(** ** Reachability *)

(** An invariant that every step keeps holds in every reachable state. *)
Lemma rtc_invariant {A} (R : relation A) (P : A → Prop) x y :
  (∀ a b, P a → R a b → P b) → P x → rtc R x y → P y.
Proof. intros HR Hx Hr. induction Hr; eauto. Qed.
