(* ===== verification/GoStd.v ===== *)
(** * The parts of Go's standard library the program uses

    [strings] (on byte strings), [strconv] (base 10, 64 bits) and [time]
    (instants as nanoseconds since the Unix epoch).  A Go [string] is a byte
    sequence: [string] here, one [ascii] per byte. *)
From S2P Require Import Prelude.
From Stdlib Require Import Ascii.

(** ** strings *)

Fixpoint strdrop (n : nat) (s : string) : string :=
  match n, s with
  | S n, String _ s => strdrop n s
  | _, _ => s
  end.

Fixpoint strtake (n : nat) (s : string) : string :=
  match n, s with
  | S n, String c s => String c (strtake n s)
  | _, _ => ""
  end.

Definition HasPrefix (s prefix : string) : bool := String.prefix prefix s.

Definition TrimPrefix (s prefix : string) : string :=
  if HasPrefix s prefix then strdrop (String.length prefix) s else s.

Definition Contains (s substr : string) : bool :=
  match String.index 0 substr s with Some _ => true | None => false end.

(** [strings.Split(s, sep)] for a separator of one byte: never empty. *)
Fixpoint Split (s : string) (sep : ascii) : list string :=
  match s with
  | "" => [""]
  | String c s' =>
      if Ascii.eqb c sep then "" :: Split s' sep
      else match Split s' sep with
           | w :: ws => String c w :: ws
           | [] => [String c ""]
           end
  end.

(** [strings.Join(ws, sep)]. *)
Fixpoint Join (ws : list string) (sep : string) : string :=
  match ws with
  | [] => ""
  | [w] => w
  | w :: ws => w +:+ sep +:+ Join ws sep
  end.

(** The UTF-8 encodings of the characters [unicode.IsSpace] accepts. *)
Definition bytes (l : list nat) : string :=
  String.string_of_list_ascii (ascii_of_nat <$> l).

Definition spaces : list string :=
  (bytes ∘ (λ b, [b])) <$> [9; 10; 11; 12; 13; 32]%nat ++ [].

Definition wide_spaces : list string :=
  bytes <$> ([[194; 133]; [194; 160]; [225; 154; 128]; [226; 128; 168]; [226; 128; 169];
              [226; 128; 175]; [226; 129; 159]; [227; 128; 128]] ++
             ((λ b, [226; 128; b]) <$> seq 128 11))%nat.

Fixpoint strip_one (ws : list string) (s : string) : option string :=
  match ws with
  | [] => None
  | w :: ws => if HasPrefix s w then Some (strdrop (String.length w) s) else strip_one ws s
  end.

Fixpoint strip_left (fuel : nat) (ws : list string) (s : string) : string :=
  match fuel with
  | O => s
  | S fuel => match strip_one ws s with Some s' => strip_left fuel ws s' | None => s end
  end.

(** [strings.TrimSpace]: leading, then trailing white space. *)
Definition TrimSpace (s : string) : string :=
  let ws := spaces ++ wide_spaces in
  let s1 := strip_left (String.length s) ws s in
  String.rev (strip_left (String.length s1) (String.rev <$> ws) (String.rev s1)).

(** ** Fields separated by a byte *)

Fixpoint free_of (c : ascii) (s : string) : bool :=
  match s with
  | "" => true
  | String a s => negb (Ascii.eqb a c) && free_of c s
  end.

Lemma free_of_app c s1 s2 : free_of c (s1 +:+ s2) = free_of c s1 && free_of c s2.
Proof. induction s1 as [|a s1 IH]; [done|]. simpl. change (String.append s1 s2) with (s1 +:+ s2). by rewrite IH, andb_assoc. Qed.

Lemma append_cons c s1 s2 : String c s1 +:+ s2 = String c (s1 +:+ s2).
Proof. done. Qed.

Lemma free_of_sep c s : free_of c (String c s) = false.
Proof. simpl. by rewrite Ascii.eqb_refl. Qed.

(** Splitting at the first separator. *)
Lemma first_field_inj c a b x y :
  free_of c a = true → free_of c b = true →
  a +:+ String c x = b +:+ String c y → a = b ∧ x = y.
Proof.
  revert b. induction a as [|ch a IH]; intros [|ch' b] Ha Hb E; rewrite ?append_cons in E.
  - by simplify_eq.
  - change ("" +:+ String c x) with (String c x) in E. injection E as <- _.
    by rewrite free_of_sep in Hb.
  - change ("" +:+ String c y) with (String c y) in E. injection E as -> _.
    by rewrite free_of_sep in Ha.
  - injection E as -> E. simpl in *. bools. destruct (IH b) as [-> ->]; auto.
Qed.

(** Splitting at the last separator. *)
Lemma last_field_inj c a b x y :
  free_of c a = true → free_of c b = true →
  x +:+ String c a = y +:+ String c b → x = y ∧ a = b.
Proof.
  intros Ha Hb. revert y. induction x as [|ch x IH]; intros [|ch' y] E; rewrite ?append_cons in E.
  - by simplify_eq.
  - change ("" +:+ String c a) with (String c a) in E. injection E as _ ->.
    rewrite free_of_app, free_of_sep, andb_false_r in Ha. done.
  - change ("" +:+ String c b) with (String c b) in E. injection E as _ <-.
    rewrite free_of_app, free_of_sep, andb_false_r in Hb. done.
  - injection E as -> E. destruct (IH y E) as [-> ->]. done.
Qed.

(** ** The order of byte strings *)

(** [s] does not come before [s']. *)
Definition notBefore (s s' : string) : Prop := String.ltb s s' = false.
#[global] Instance notBefore_dec : RelDecision notBefore.
Proof. intros s s'. unfold notBefore. apply _. Defined.

#[global] Instance notBefore_trans : Transitive notBefore.
Proof.
  unfold notBefore, String.ltb. intros s. induction s as [|c s IH]; intros [|c' s'] [|c'' s'']; try done.
  cbn [String.compare]. unfold Ascii.compare.
  destruct (N.compare_spec (N_of_ascii c) (N_of_ascii c')) as [E|E|E]; try done;
    destruct (N.compare_spec (N_of_ascii c') (N_of_ascii c'')) as [E'|E'|E']; try done; intros H1 H2.
  - rewrite (proj2 (N.compare_eq_iff _ _)) by congruence. by apply (IH s').
  - by rewrite (proj2 (N.compare_gt_iff _ _)) by lia.
  - by rewrite (proj2 (N.compare_gt_iff _ _)) by lia.
  - by rewrite (proj2 (N.compare_gt_iff _ _)) by lia.
Qed.

#[global] Instance notBefore_total : Total notBefore.
Proof.
  intros s s'. unfold notBefore, String.ltb. rewrite (String.compare_antisym s' s).
  destruct (String.compare s s'); simpl; auto.
Qed.

(** [ORDER BY] a text column. *)
Definition ascending {A} (f : A → string) (x y : A) : Prop := notBefore (f y) (f x).
Definition descending {A} (f : A → string) (x y : A) : Prop := notBefore (f x) (f y).
#[global] Instance ascending_dec {A} (f : A → string) : RelDecision (ascending f).
Proof. intros x y. unfold ascending. apply _. Defined.
#[global] Instance descending_dec {A} (f : A → string) : RelDecision (descending f).
Proof. intros x y. unfold descending. apply _. Defined.
#[global] Instance ascending_trans {A} (f : A → string) : Transitive (ascending f).
Proof. intros x y z Hxy Hyz. unfold ascending in *. by trans (f y). Qed.
#[global] Instance descending_trans {A} (f : A → string) : Transitive (descending f).
Proof. intros x y z Hxy Hyz. unfold descending in *. by trans (f y). Qed.
#[global] Instance ascending_total {A} (f : A → string) : Total (ascending f).
Proof. intros x y. apply (total notBefore). Qed.
#[global] Instance descending_total {A} (f : A → string) : Total (descending f).
Proof. intros x y. apply (total notBefore). Qed.

Lemma merge_sort_sorts {A} (R : relation A) `{!RelDecision R, !Transitive R, !Total R} l :
  merge_sort R l ≡ₚ l ∧ StronglySorted R (merge_sort R l).
Proof. split; [apply merge_sort_Permutation|by apply StronglySorted_merge_sort]. Qed.

(** ** strconv *)

Inductive numErr := ErrSyntax | ErrRange.

(** [strconv.FormatInt(z, 10)] and the verb [%d]. *)
Definition FormatInt (z : Z) : string := pretty z.

Definition digit (c : ascii) : option Z :=
  let n := Z.of_nat (nat_of_ascii c) in
  if (48 <=? n) && (n <=? 57) then Some (n - 48) else None.

(** The digit loop of [ParseUint(s, 10, 64)]: overflow is noticed as soon as it
    happens, before the rest of the string is looked at. *)
Definition maxUint64 : Z := 2 ^ 64 - 1.
Definition uintCutoff : Z := maxUint64 / 10 + 1.

Fixpoint parseUint_loop (n : Z) (s : string) : Z * option numErr :=
  match s with
  | "" => (n, None)
  | String c s =>
      match digit c with
      | None => (0, Some ErrSyntax)
      | Some d =>
          if uintCutoff <=? n then (maxUint64, Some ErrRange)
          else if maxUint64 <? n * 10 + d then (maxUint64, Some ErrRange)
          else parseUint_loop (n * 10 + d) s
      end
  end.

Definition ParseUint (s : string) : Z * option numErr :=
  match s with
  | "" => (0, Some ErrSyntax)
  | _ => parseUint_loop 0 s
  end.

(** The sign and range part of [ParseInt(s, 10, 64)]. *)
Definition signedInt (neg : bool) (r : Z * option numErr) : Z * option numErr :=
  match r with
  | (_, Some ErrSyntax) => (0, Some ErrSyntax)
  | (un, e) =>
      if negb neg && (2 ^ 63 <=? un) then (2 ^ 63 - 1, Some ErrRange)
      else if neg && (2 ^ 63 <? un) then (- 2 ^ 63, Some ErrRange)
      else (if neg then - un else un, e)
  end.

Definition ParseInt (s : string) : Z * option numErr :=
  match s with
  | String "+" r => signedInt false (ParseUint r)
  | String "-" r => signedInt true (ParseUint r)
  | _ => signedInt false (ParseUint s)
  end.

(** [strconv.Atoi] agrees with [ParseInt(s, 10, 0)] where [int] has 64 bits. *)
Definition Atoi (s : string) : Z * option numErr := ParseInt s.

Fixpoint all_digits (s : string) : bool :=
  match s with
  | "" => true
  | String c s => match digit c with Some _ => all_digits s | None => false end
  end.

Lemma digit_char n : (n < 10)%N → digit (pretty_N_char n) = Some (Z.of_N n).
Proof.
  intros Hn.
  assert (n = 0 ∨ n = 1 ∨ n = 2 ∨ n = 3 ∨ n = 4 ∨ n = 5 ∨ n = 6 ∨ n = 7 ∨ n = 8 ∨ n = 9)%N
    by lia.
  by destruct_or!; subst.
Qed.

Lemma all_digits_go n s : all_digits s = true → all_digits (pretty_N_go n s) = true.
Proof.
  revert s. induction (N.lt_wf_0 n) as [n _ IH]. intros s Hs.
  destruct (decide (n = 0)%N) as [->|]; [by rewrite pretty_N_go_0|].
  rewrite pretty_N_go_step by lia. apply IH; [apply N.div_lt; lia|].
  simpl. rewrite digit_char; [done|]. apply N.mod_lt. lia.
Qed.

Lemma parseUint_go n s :
  (Z.of_N n ≤ maxUint64) → parseUint_loop 0 (pretty_N_go n s) = parseUint_loop (Z.of_N n) s.
Proof.
  revert s. induction (N.lt_wf_0 n) as [n _ IH]. intros s Hn.
  destruct (decide (n = 0)%N) as [->|]; [by rewrite pretty_N_go_0|].
  rewrite pretty_N_go_step by lia.
  rewrite IH; [|apply N.div_lt; lia|
    etrans; [|exact Hn]; apply N2Z.inj_le, N.Div0.div_le_upper_bound; lia].
  pose proof (N.mod_lt n 10 ltac:(done)) as Hm.
  cbn [parseUint_loop]. rewrite digit_char by done.
  rewrite N2Z.inj_div, N2Z.inj_mod. change (Z.of_N 10) with 10.
  pose proof (Z.div_mod (Z.of_N n) 10 ltac:(lia)) as Hdm.
  replace (Z.of_N n / 10 * 10 + Z.of_N n mod 10) with (Z.of_N n) by lia.
  pose proof (Z.mod_pos_bound (Z.of_N n) 10 ltac:(lia)).
  change uintCutoff with 1844674407370955162. change maxUint64 with 18446744073709551615 in *.
  rewrite (proj2 (Z.leb_gt _ _)) by lia.
  rewrite (proj2 (Z.ltb_ge _ _)) by lia. done.
Qed.

Lemma pretty_N_head (n : N) : ∃ c s, pretty n = String c s ∧ digit c ≠ None.
Proof.
  assert (all_digits (pretty n) = true) as Hd.
  { unfold pretty, pretty_N. case_decide; [done|]. by apply all_digits_go. }
  destruct (pretty n) as [|c s] eqn:E.
  - exfalso. unfold pretty, pretty_N in E. case_decide; [done|].
    pose proof (parseUint_go n "") as Hp.
    assert (∀ m t, String.length t ≤ String.length (pretty_N_go m t))%nat as Hlen.
    { intros m. induction (N.lt_wf_0 m) as [m _ IH]. intros t.
      destruct (decide (m = 0)%N) as [->|]; [by rewrite pretty_N_go_0|].
      rewrite pretty_N_go_step by lia.
      etrans; [|apply IH; apply N.div_lt; lia]. simpl. lia. }
    rewrite pretty_N_go_step in E by lia.
    specialize (Hlen (n `div` 10)%N (String (pretty_N_char (n `mod` 10)) "")).
    rewrite E in Hlen. simpl in Hlen. lia.
  - exists c, s. split; [done|]. simpl in Hd. by destruct (digit c).
Qed.

Lemma ParseUint_pretty (n : N) :
  Z.of_N n ≤ maxUint64 → ParseUint (pretty n) = (Z.of_N n, None).
Proof.
  intros Hn. destruct (pretty_N_head n) as (c & s & E & _).
  unfold ParseUint. rewrite E, <-E.
  unfold pretty, pretty_N. case_decide; [by subst|]. by rewrite parseUint_go.
Qed.

(** Printing and reading back. *)
Lemma ParseInt_FormatInt z : in_int64 z → ParseInt (FormatInt z) = (z, None).
Proof.
  unfold in_int64, FormatInt. intros Hz. destruct z as [|p|p]; [done|..].
  - change (pretty (Z.pos p)) with (pretty (N.pos p)).
    pose proof (ParseUint_pretty (N.pos p)) as Hp.
    destruct (pretty_N_head (N.pos p)) as (c & s & E & Hc).
    assert (ParseInt (pretty (N.pos p)) = signedInt false (ParseUint (pretty (N.pos p)))) as ->.
    { rewrite E. unfold ParseInt.
      destruct c as [[] [] [] [] [] [] [] []]; done. }
    rewrite Hp by (unfold maxUint64; lia). unfold signedInt.
    rewrite (proj2 (Z.leb_gt _ _)) by lia. done.
  - change (pretty (Z.neg p)) with ("-" +:+ pretty (N.pos p)).
    change (ParseInt ("-" +:+ pretty (N.pos p)))
      with (signedInt true (ParseUint (pretty (N.pos p)))).
    rewrite ParseUint_pretty by (unfold maxUint64; lia).
    unfold signedInt. cbn [negb andb].
    rewrite (proj2 (Z.ltb_ge _ _)) by lia. done.
Qed.

Lemma parseUint_loop_range n s : 0 ≤ n ≤ maxUint64 → 0 ≤ (parseUint_loop n s).1 ≤ maxUint64.
Proof.
  revert n. induction s as [|c s IH]; intros n Hn; simpl; [done|].
  unfold digit. repeat case_match; bools; simplify_eq; simpl; unfold maxUint64 in *; try lia.
  apply IH. lia.
Qed.

(** Whatever the text, the value read is a 64-bit integer. *)
Lemma ParseInt_range s : in_int64 (ParseInt s).1.
Proof.
  assert (∀ neg u, 0 <= (ParseUint u).1 → in_int64 (signedInt neg (ParseUint u)).1) as H.
  { intros neg u Hu. unfold signedInt, in_int64. destruct (ParseUint u) as [un [[]|]];
      simpl in *; repeat case_match; bools; simpl; try lia; destruct neg; bools; simpl in *; lia. }
  assert (∀ u, 0 <= (ParseUint u).1) as Hpos.
  { intros [|c u]; [done|]. apply parseUint_loop_range. unfold maxUint64. lia. }
  unfold ParseInt. repeat case_match; auto.
Qed.

(** A printed integer contains no other byte than digits and a sign. *)
Lemma all_digits_free c s : digit c = None → all_digits s = true → free_of c s = true.
Proof.
  intros Hc. induction s as [|a s IH]; [done|]. simpl.
  destruct (digit a) eqn:E; [|done]. intros Hs. rewrite IH, andb_true_r by done.
  apply negb_true_iff, Ascii.eqb_neq. intros ->. congruence.
Qed.

Lemma FormatInt_free c z :
  digit c = None → Ascii.eqb "-" c = false → free_of c (FormatInt z) = true.
Proof.
  intros Hc Hm. assert (∀ n : N, free_of c (pretty n) = true) as Hn.
  { intros n. apply all_digits_free; [done|]. unfold pretty, pretty_N.
    case_decide; [done|]. by apply all_digits_go. }
  unfold FormatInt. destruct z as [|p|p]; [by apply (Hn 0%N)|by apply (Hn (N.pos p))|].
  change (pretty (Z.neg p)) with (String "-" (pretty (N.pos p))). cbn [free_of]. by rewrite Hm, Hn.
Qed.

#[global] Instance FormatInt_inj : Inj (=) (=) FormatInt.
Proof. intros z z' E. by apply (inj pretty). Qed.

(** ** time *)

(** Durations and instants in nanoseconds. *)
Definition Millisecond : Z := 1000000.
Definition Second : Z := 1000 * Millisecond.

(** The zero [time.Time]: January 1 of year 1, UTC. *)
Definition zeroTime : Z := - 62135596800 * Second.
Definition IsZero (t : Z) : bool := t =? zeroTime.
Definition Before (t u : Z) : bool := t <? u.
Definition After (t u : Z) : bool := u <? t.

(** [t.Unix()] and [t.Second()] (UTC offsets are whole minutes). *)
Definition Unix (t : Z) : Z := t / Second.
Definition SecondOf (t : Z) : Z := Unix t mod 60.

(** [d.Milliseconds()] truncates towards zero. *)
Definition Milliseconds (d : Z) : Z := Z.quot d Millisecond.
