(* ===== verification/GoHeap.v ===== *)
(** * container/heap

    The binary heap of Go's standard library, as [queue.RequestQueue] uses it:
    [Init], [Push], [Pop], [Remove] and their helpers [up] and [down], over an
    arbitrary [Less].  A heap is a slice; the functions below are the library's
    loops with the index as a natural number and an explicit bound on the
    number of iterations (the index shrinks or grows towards the length at each
    round; [up_loop_ok] and [down_loop_ok] need no more). *)
From S2P Require Import Prelude.

(** What [Less] must satisfy for [container/heap] to be meaningful. *)
Class StrictWeakOrder {A : Type} (less : A → A → bool) : Prop := {
  swo_irrefl : ∀ x, less x x = false;
  swo_trans : ∀ x y z, less x y = true → less y z = true → less x z = true;
  swo_split : ∀ x y z, less x z = true → less x y = true ∨ less y z = true;
}.

Section heap.
Context {A : Type} (less : A → A → bool).

(** [h.Less(i, j)]. *)
Definition lessAt (l : list A) (i j : nat) : bool :=
  match l !! i, l !! j with
  | Some x, Some y => less x y
  | _, _ => false
  end.

(** [up(h, j)]: the parent of [j] is [(j - 1) / 2]. *)
Fixpoint up_loop (fuel : nat) (l : list A) (j : nat) : list A :=
  match fuel with
  | O => l
  | S fuel =>
      let i := ((j - 1) / 2)%nat in
      if bool_decide (i = j) || negb (lessAt l j i) then l
      else up_loop fuel (swap i j l) i
  end.

Definition up (l : list A) (j : nat) : list A := up_loop (S j) l j.

(** [down(h, i0, n)]: also returns whether the element moved. *)
Fixpoint down_loop (fuel : nat) (l : list A) (i n : nat) : list A * nat :=
  match fuel with
  | O => (l, i)
  | S fuel =>
      let j1 := (2 * i + 1)%nat in
      if bool_decide (n ≤ j1)%nat then (l, i)
      else
        let j := if bool_decide (j1 + 1 < n)%nat && lessAt l (j1 + 1) j1
                 then (j1 + 1)%nat else j1 in
        if negb (lessAt l j i) then (l, i)
        else down_loop fuel (swap i j l) j n
  end.

Definition down (l : list A) (i0 n : nat) : list A * bool :=
  let '(l', i) := down_loop (S n) l i0 n in (l', bool_decide (i0 < i)%nat).

(** [Init(h)]: [for i := n/2 - 1; i >= 0; i-- { down(h, i, n) }]. *)
Fixpoint init_loop (k : nat) (l : list A) : list A :=
  match k with
  | O => l
  | S i => init_loop i (fst (down l i (length l)))
  end.

Definition Init (l : list A) : list A := init_loop (length l / 2) l.

(** [Push(h, x)], with [h.Push] appending to the slice. *)
Definition Push (l : list A) (x : A) : list A := up (l ++ [x]) (length l).

(** The last element and the slice without it: [priorityHeap.Pop]. *)
Definition pop_last (l : list A) : option (A * list A) :=
  match last l with
  | Some x => Some (x, take (length l - 1) l)
  | None => None
  end.

(** [Pop(h)]; [None] where Go panics on an empty heap. *)
Definition Pop (l : list A) : option (A * list A) :=
  let n := (length l - 1)%nat in
  pop_last (fst (down (swap 0 n l) 0 n)).

(** [Remove(h, i)]. *)
Definition Remove (l : list A) (i : nat) : option (A * list A) :=
  let n := (length l - 1)%nat in
  if bool_decide (n = i) then pop_last l
  else
    let l1 := swap i n l in
    let '(l2, moved) := down l1 i n in
    pop_last (if moved then l2 else up l2 i).

(** ** The heap order *)

(** [x] may stand above [y]. *)
Definition before (x y : A) : Prop := less y x = false.

Definition child (p c : nat) : Prop := c = (2 * p + 1)%nat ∨ c = (2 * p + 2)%nat.

(** [x] at [p] and [y] at [c] are in order. *)
Definition edge_ok (l : list A) (p c : nat) : Prop :=
  ∀ x y, l !! p = Some x → l !! c = Some y → before x y.

Definition heap_ok (n : nat) (l : list A) : Prop :=
  ∀ p c, child p c → (c < n)%nat → edge_ok l p c.

(** Every path that goes through [i] stays ordered when [i] is left out. *)
Definition bridge (i n : nat) (l : list A) : Prop :=
  ∀ p c, child p i → child i c → (c < n)%nat → edge_ok l p c.

(** Only the edges that leave [i], only the edge that enters it, or both, may
    be out of order. *)
Definition heap_but_below (i n : nat) (l : list A) : Prop :=
  (∀ p c, child p c → (c < n)%nat → p ≠ i → edge_ok l p c) ∧ bridge i n l.
Definition heap_but_above (i n : nat) (l : list A) : Prop :=
  (∀ p c, child p c → (c < n)%nat → c ≠ i → edge_ok l p c) ∧ bridge i n l.
Definition heap_but_at (i n : nat) (l : list A) : Prop :=
  (∀ p c, child p c → (c < n)%nat → p ≠ i → c ≠ i → edge_ok l p c) ∧ bridge i n l.

Context `{!StrictWeakOrder less}.

Lemma before_refl x : before x x.
Proof. apply swo_irrefl. Qed.

Lemma before_trans x y z : before x y → before y z → before x z.
Proof.
  unfold before. intros Hxy Hyz. destruct (less z x) eqn:E; [|done].
  destruct (swo_split z y x E); congruence.
Qed.

Lemma less_before x y : less x y = true → before x y.
Proof.
  unfold before. intros Hxy. destruct (less y x) eqn:E; [|done].
  pose proof (swo_trans _ _ _ Hxy E). pose proof (swo_irrefl x). congruence.
Qed.

(** ** [down] *)

Ltac swap_cases :=
  repeat match goal with
  | H : context [swap _ _ _ !! _] |- _ => rewrite lookup_swap in H by lia
  end;
  repeat case_decide; subst; try lia.

Lemma swap_down i j n l x y :
  heap_but_at i n l → child i j → (j < n)%nat → (n ≤ length l)%nat →
  l !! i = Some x → l !! j = Some y → less y x = true →
  (∀ k, child i k → (k < n)%nat → edge_ok l j k ∨ k = j) →
  heap_but_below j n (swap i j l).
Proof.
  intros [Hedge Hbr] Hij Hjn Hn Hx Hy Hyx Hsib.
  unfold heap_but_below, bridge, child in *. split.
  - intros p c Hpc Hcn Hpj u v Hu Hv. swap_cases; simplify_eq.
    + by eapply Hbr.
    + by apply less_before.
    + by destruct (Hsib c Hpc Hcn) as [He|?]; [eapply He|].
    + by eapply Hedge.
  - intros p c Hpj Hjc Hcn u v Hu Hv. swap_cases; simplify_eq.
    eapply (Hedge j c); eauto; lia.
Qed.

(** The child [down] compares with. *)
Lemma min_child l i n :
  let j1 := (2 * i + 1)%nat in
  let j := if bool_decide (j1 + 1 < n)%nat && lessAt l (j1 + 1) j1
           then (j1 + 1)%nat else j1 in
  (j1 < n)%nat → child i j ∧ (j < n)%nat ∧ ∀ k, child i k → (k < n)%nat → edge_ok l j k ∨ k = j.
Proof.
  intros j1 j Hj1. unfold child. destruct (bool_decide _ && _) eqn:E; subst j.
  - bools. split_and!; [lia..|]. intros k [-> | ->] Hk; [left|right; lia].
    intros u v Hu Hv. apply less_before.
    unfold lessAt in *. subst j1. by rewrite Hu, Hv in *.
  - apply andb_false_iff in E. split_and!; [lia..|].
    intros k [-> | ->] Hk; [by right|left]. intros u v Hu Hv.
    destruct E as [E|E]; bools; [lia|].
    unfold lessAt in E. replace (j1 + 1)%nat with (2 * i + 2)%nat in E by lia.
    by rewrite Hu, Hv in E.
Qed.

Lemma not_less_edge l i n j :
  (i < length l)%nat → child i j → (j < n)%nat →
  (∀ k, child i k → (k < n)%nat → edge_ok l j k ∨ k = j) →
  (n ≤ length l)%nat → lessAt l j i = false →
  ∀ k, child i k → (k < n)%nat → edge_ok l i k.
Proof.
  intros Hi Hij Hj Hsib Hn Hl k Hik Hk u v Hu Hv.
  destruct (lookup_lt_is_Some_2 l j) as [w Hw]; [lia|].
  unfold lessAt in Hl. rewrite Hw, Hu in Hl.
  destruct (Hsib k Hik Hk) as [He| ->].
  - eapply before_trans; [exact Hl|]. by eapply He.
  - by simplify_eq.
Qed.

Lemma lessAt_true l i j :
  lessAt l i j = true → ∃ x y, l !! i = Some x ∧ l !! j = Some y ∧ less x y = true.
Proof. unfold lessAt. repeat case_match; naive_solver. Qed.

(** One run of [down_loop]: from a heap broken around [i], either the element
    stays and only the edge above it may be broken, or it moves and the first
    [n] positions are a heap. *)
Lemma down_loop_ok fuel l i n :
  (n ≤ length l)%nat → (i < n)%nat → (n - i ≤ fuel)%nat → heap_but_at i n l →
  let '(l', i') := down_loop fuel l i n in
  (i ≤ i')%nat ∧
  (i' = i → l' = l ∧ heap_but_above i n l') ∧
  (i' ≠ i ∨ heap_but_below i n l → heap_ok n l').
Proof.
  revert l i. induction fuel as [|fuel IH]; intros l i Hn Hi Hf Hat; [lia|].
  cbn [down_loop]. destruct (bool_decide (n ≤ _)%nat) eqn:E1; bools.
  { assert (∀ p c, child p c → (c < n)%nat → p ≠ i) by (unfold child; lia).
    destruct Hat as [Hedge Hbr]. split_and!; [done|..].
    - intros _. split; [done|]. split; eauto.
    - intros [?|[Hb _]]; [done|]. intros p c Hpc Hc. eauto. }
  destruct (min_child l i n) as (Hij & Hjn & Hsib); [lia|].
  match type of Hij with child _ ?e => set (j := e) in *; clearbody j end.
  destruct (lessAt l j i) eqn:E2; cbn [negb].
  - apply lessAt_true in E2 as (y & x & Hy & Hx & Hyx).
    pose proof (swap_down i j n l x y Hat Hij Hjn Hn Hx Hy Hyx Hsib) as Hbelow.
    assert (heap_but_at j n (swap i j l)) as Hat' by (destruct Hbelow; split; eauto).
    specialize (IH (swap i j l) j). rewrite length_swap in IH.
    assert (i < j)%nat by (unfold child in *; lia).
    specialize (IH Hn Hjn ltac:(lia) Hat').
    destruct (down_loop fuel (swap i j l) j n) as [l' i'].
    destruct IH as (Hle & _ & Hok). split_and!; [lia|lia|]. auto.
  - assert (∀ k, child i k → (k < n)%nat → edge_ok l i k) as Hbel.
    { eapply not_less_edge; eauto. lia. }
    destruct Hat as [Hedge Hbr]. split_and!; [done|..].
    + intros _. split; [done|]. split; [|done]. intros p c Hpc Hc Hci.
      destruct (decide (p = i)) as [->|]; eauto.
    + intros [?|[Hb _]]; [done|]. intros p c Hpc Hc.
      destruct (decide (p = i)) as [->|]; eauto.
Qed.

(** ** [up] *)

Lemma swap_up i j n l x y :
  heap_but_above j n l → child i j → (j < n)%nat → (n ≤ length l)%nat →
  l !! i = Some x → l !! j = Some y → less y x = true →
  heap_but_above i n (swap i j l).
Proof.
  intros [Hedge Hbr] Hij Hjn Hn Hx Hy Hyx%less_before.
  assert (∀ k v, child i k → (k < n)%nat → k ≠ j → l !! k = Some v → before x v) as Hik
    by (intros; eapply Hedge; eauto).
  unfold heap_but_above, bridge, child in *. split.
  - intros p c Hpc Hcn Hci u v Hu Hv. swap_cases; simplify_eq.
    + done.
    + eapply before_trans; eauto.
    + by eapply (Hbr i).
    + eapply (Hedge p c); eauto.
  - intros p c Hpi Hic Hcn u v Hu Hv. swap_cases; simplify_eq.
    + eapply (Hedge p i); eauto; lia.
    + eapply (before_trans u x); [|eauto]. eapply (Hedge p i); eauto; lia.
Qed.

Lemma parent_child j : (0 < j)%nat → child ((j - 1) / 2) j.
Proof.
  intros. unfold child. pose proof (Nat.div_mod_eq (j - 1) 2).
  pose proof (Nat.mod_upper_bound (j - 1) 2). lia.
Qed.

Lemma child_parent p c : child p c → p = ((c - 1) / 2)%nat.
Proof.
  unfold child. intros H. pose proof (Nat.div_mod_eq (c - 1) 2).
  pose proof (Nat.mod_upper_bound (c - 1) 2). lia.
Qed.

Lemma up_loop_ok fuel l j n :
  (n ≤ length l)%nat → (j < n)%nat → (j < fuel)%nat → heap_but_above j n l →
  heap_ok n (up_loop fuel l j).
Proof.
  revert l j. induction fuel as [|fuel IH]; intros l j Hn Hj Hf Hab; [lia|].
  cbn [up_loop]. set (i := ((j - 1) / 2)%nat).
  destruct (decide (j = 0)%nat) as [->|Hj0].
  { destruct Hab as [Hedge _]. intros p c Hpc Hc. apply Hedge; [done..|].
    unfold child in Hpc. lia. }
  pose proof (parent_child j ltac:(lia)) as Hij. fold i in Hij.
  rewrite bool_decide_eq_false_2 by (unfold child in Hij; lia). cbn [orb].
  destruct (lessAt l j i) eqn:E; cbn [negb].
  - apply lessAt_true in E as (y & x & Hy & Hx & Hyx).
    apply IH; rewrite ?length_swap; [done|unfold child in Hij; lia..|].
    eapply swap_up; eauto.
  - destruct Hab as [Hedge _]. intros p c Hpc Hc.
    destruct (decide (c = j)) as [->|]; [|by apply Hedge].
    apply child_parent in Hpc as ->. fold i. intros u v Hu Hv.
    unfold lessAt in E. by rewrite Hu, Hv in E.
Qed.

Lemma up_ok l j n :
  (n ≤ length l)%nat → (j < n)%nat → heap_but_above j n l → heap_ok n (up l j).
Proof. intros. apply up_loop_ok; auto with lia. Qed.

(** ** What the loops leave alone *)

Lemma up_loop_Permutation fuel l j : up_loop fuel l j ≡ₚ l.
Proof.
  revert l j. induction fuel as [|fuel IH]; intros l j; simpl; [done|].
  case_match; [done|]. by rewrite IH, swap_Permutation.
Qed.

Lemma down_loop_Permutation fuel l i n : (down_loop fuel l i n).1 ≡ₚ l.
Proof.
  revert l i. induction fuel as [|fuel IH]; intros l i; [done|].
  cbn [down_loop]. case_match; [done|].
  destruct (lessAt _ _ i); cbn [negb]; [|done]. by rewrite IH, swap_Permutation.
Qed.

Lemma down_Permutation l i n : (down l i n).1 ≡ₚ l.
Proof.
  unfold down. pose proof (down_loop_Permutation (S n) l i n).
  by destruct (down_loop _ _ _ _).
Qed.

Lemma down_loop_above fuel l i n k :
  (n ≤ length l)%nat → (i < n)%nat → (n ≤ k)%nat →
  (down_loop fuel l i n).1 !! k = l !! k.
Proof.
  revert l i. induction fuel as [|fuel IH]; intros l i Hn Hi Hk; [done|].
  cbn [down_loop]. case_match eqn:E; [done|]. bools.
  destruct (min_child l i n) as (Hij & Hjn & _); [lia|].
  match type of Hij with child _ ?e => set (j := e) in *; clearbody j end.
  destruct (lessAt l j i); cbn [negb]; [|done].
  rewrite IH by (rewrite ?length_swap; lia). rewrite lookup_swap by lia.
  by repeat case_decide; [lia..|].
Qed.

Lemma down_above l i n k :
  (n ≤ length l)%nat → (i < n)%nat → (n ≤ k)%nat → (down l i n).1 !! k = l !! k.
Proof.
  intros. unfold down. pose proof (down_loop_above (S n) l i n k).
  destruct (down_loop _ _ _ _); auto.
Qed.

Lemma length_down l i n : length (down l i n).1 = length l.
Proof. by rewrite down_Permutation. Qed.

Lemma length_up l j : length (up l j) = length l.
Proof. unfold up. by rewrite up_loop_Permutation. Qed.

(** ** The root of a heap comes before everything else *)

Lemma heap_root n l x :
  heap_ok n l → l !! 0%nat = Some x →
  ∀ k y, (k < n)%nat → l !! k = Some y → before x y.
Proof.
  intros Hok Hx k. induction k as [k IH] using lt_wf_ind. intros y Hk Hy.
  destruct (decide (k = 0)%nat) as [->|]; [simplify_eq; apply before_refl|].
  pose proof (parent_child k ltac:(lia)) as Hpc.
  assert ((k - 1) / 2 < k)%nat as Hlt by (unfold child in Hpc; lia).
  destruct (lookup_lt_is_Some_2 l ((k - 1) / 2)) as [z Hz].
  { apply lookup_lt_Some in Hy. lia. }
  eapply before_trans; [by eapply (IH _ Hlt); [lia|]|].
  eapply (Hok _ _ Hpc); eauto.
Qed.

Lemma heap_ok_take n l : heap_ok n l → heap_ok (length (take n l)) (take n l).
Proof.
  intros Hok p c Hpc Hc x y Hx Hy.
  rewrite length_take in Hc. rewrite !lookup_take in *.
  repeat case_decide; simplify_eq. by eapply Hok.
Qed.

(** ** The operations *)

Definition is_heap (l : list A) : Prop := heap_ok (length l) l.

Lemma is_heap_nil : is_heap [].
Proof. intros p c Hpc Hc. simpl in Hc. lia. Qed.

Lemma Push_ok l x : is_heap l → is_heap (Push l x).
Proof.
  intros Hok. unfold is_heap, Push. rewrite length_up, length_app. simpl.
  apply up_ok; rewrite ?length_app; simpl; [lia..|].
  unfold heap_but_above, bridge, child. split; [|intros; lia].
  intros p c Hpc Hc Hne u v Hu Hv.
  rewrite lookup_app_l in Hu, Hv by lia. eapply Hok; eauto. lia.
Qed.

Lemma Push_Permutation l x : Push l x ≡ₚ x :: l.
Proof. unfold Push, up. rewrite up_loop_Permutation. solve_Permutation. Qed.

Lemma pop_last_spec l x l' :
  pop_last l = Some (x, l') → l = l' ++ [x].
Proof.
  unfold pop_last. destruct (last l) as [y|] eqn:E; [|done]. intros [= -> <-].
  apply last_Some in E as [k ->]. rewrite length_app. simpl.
  by rewrite Nat.add_sub, take_app_length.
Qed.

Lemma pop_last_is_Some l : l ≠ [] → is_Some (pop_last l).
Proof.
  intros Hl. unfold pop_last. destruct (last l) eqn:E; [eauto|].
  by apply last_None in E.
Qed.

(** [down] as the two callers meet it. *)
Lemma down_ok l i n :
  (n ≤ length l)%nat → (i < n)%nat → heap_but_at i n l →
  ((down l i n).2 = true → heap_ok n (down l i n).1) ∧
  ((down l i n).2 = false → heap_but_above i n (down l i n).1) ∧
  (heap_but_below i n l → heap_ok n (down l i n).1).
Proof.
  intros Hn Hi Hat. unfold down.
  pose proof (down_loop_ok (S n) l i n Hn Hi ltac:(lia) Hat) as H.
  destruct (down_loop _ _ _ _) as [l' i']; simpl in *.
  destruct H as (Hle & Hstay & Hok). split_and!; intros ?; bools; auto with lia.
  apply Hstay. lia.
Qed.

(** A heap whose position [i] was overwritten. *)
Lemma swap_but_at l i n :
  is_heap l → n = (length l - 1)%nat → (i < n)%nat → heap_but_at i n (swap i n l).
Proof.
  intros Hok -> Hi. unfold is_heap, heap_ok, heap_but_at, bridge, child in *. split.
  - intros p c Hpc Hc Hpi Hci u v Hu Hv. swap_cases; simplify_eq.
    eapply (Hok p c); eauto; lia.
  - intros p c Hpi Hic Hc u v Hu Hv. swap_cases; simplify_eq.
    destruct (lookup_lt_is_Some_2 l i) as [w Hw]; [lia|].
    eapply (before_trans _ w); [eapply (Hok p i)|eapply (Hok i c)]; eauto; lia.
Qed.

(** Cutting the last position off once the others are in order. *)
Lemma pop_last_heap n l r :
  length l = S n → l !! n = Some r → heap_ok n l →
  pop_last l = Some (r, take n l) ∧ l ≡ₚ r :: take n l ∧ is_heap (take n l).
Proof.
  intros Hlen Hr Hok.
  assert (last l = Some r) as Hlast by (by rewrite last_lookup, Hlen).
  split_and!; [|apply last_Some in Hlast as [k ->]|by apply heap_ok_take].
  - unfold pop_last. rewrite Hlast, Hlen. simpl. by rewrite Nat.sub_0_r.
  - rewrite length_app in Hlen. simpl in Hlen.
    rewrite take_app_length' by lia. solve_Permutation.
Qed.

Lemma up_loop_above fuel l j k :
  (j < length l)%nat → (j < k)%nat → up_loop fuel l j !! k = l !! k.
Proof.
  revert l j. induction fuel as [|fuel IH]; intros l j Hj Hk; [done|].
  cbn [up_loop]. set (i := ((j - 1) / 2)%nat).
  destruct (bool_decide (i = j)) eqn:Eij; [done|]. destruct (lessAt l j i); [|done].
  bools. assert (i ≤ j)%nat by (unfold i; apply Nat.Div0.div_le_upper_bound; lia).
  cbn [orb negb]. rewrite IH by (rewrite ?length_swap; lia).
  rewrite lookup_swap by lia. by repeat case_decide; [lia..|].
Qed.

(** The first [length l - 1] positions after [Pop]'s and [Remove]'s sifting. *)
Lemma sift_down_ok l n r :
  is_heap l → length l = S n → l !! 0%nat = Some r →
  let l2 := (down (swap 0 n l) 0 n).1 in heap_ok n l2 ∧ l2 !! n = Some r.
Proof.
  intros Hok Hlen Hr l2. subst l2. destruct (decide (n = 0)%nat) as [->|Hn0].
  - split; [intros p c ??; lia|]. unfold swap. rewrite Hr. simpl.
    rewrite list_lookup_insert_eq; [done|]. rewrite length_insert. lia.
  - destruct (swap_but_at l 0 n) as [H1 H2]; auto with lia. split.
    + apply down_ok; rewrite ?length_swap; [lia..|by split|]. split; [|done].
      intros p c Hpc Hc Hp. apply H1; auto. unfold child in Hpc. lia.
    + rewrite down_above, lookup_swap by (rewrite ?length_swap; lia).
      by case_decide; [lia|case_decide].
Qed.

Lemma sift_ok l n i x :
  is_heap l → length l = S n → (i < n)%nat → l !! i = Some x →
  let d := down (swap i n l) i n in
  let l3 := if d.2 then d.1 else up d.1 i in
  heap_ok n l3 ∧ l3 !! n = Some x ∧ l3 ≡ₚ l.
Proof.
  intros Hok Hlen Hi Hx d l3. subst d l3.
  assert (length (swap i n l) = S n) as Hlen1 by (by rewrite length_swap).
  pose proof (swap_but_at l i n Hok ltac:(lia) Hi) as Hat.
  destruct (down_ok (swap i n l) i n) as (Hmv & Hst & _); [lia..|done|].
  pose proof (down_above (swap i n l) i n n ltac:(lia) Hi ltac:(lia)) as Hab.
  rewrite (lookup_swap i n n l) in Hab by lia.
  rewrite decide_False, decide_True in Hab by lia.
  assert ((down (swap i n l) i n).1 ≡ₚ l) as Hperm
    by (by rewrite down_Permutation, swap_Permutation).
  pose proof (length_down (swap i n l) i n) as Hlen2.
  destruct (down (swap i n l) i n) as [l2 []]; simpl in *.
  - split_and!; [by apply Hmv|congruence|done].
  - split_and!; [apply up_ok; auto with lia| |unfold up; by rewrite up_loop_Permutation].
    unfold up. rewrite up_loop_above by lia. congruence.
Qed.

(** [Pop] returns an element that comes before all others, and leaves a heap
    of the others. *)
Lemma Pop_spec l :
  is_heap l → l ≠ [] →
  ∃ x l', Pop l = Some (x, l') ∧ l ≡ₚ x :: l' ∧ is_heap l' ∧ Forall (before x) l'.
Proof.
  intros Hok Hne. unfold Pop. set (n := (length l - 1)%nat).
  assert (length l = S n) as Hlen by (destruct l; [done|simpl in *; lia]).
  destruct (lookup_lt_is_Some_2 l 0) as [r Hr]; [lia|].
  destruct (sift_down_ok l n r Hok Hlen Hr) as [Hok2 Hn2].
  assert ((down (swap 0 n l) 0 n).1 ≡ₚ l) as Hperm
    by (by rewrite down_Permutation, swap_Permutation).
  generalize dependent (down (swap 0 n l) 0 n).1. intros l2 Hok2 Hn2 Hperm.
  destruct (pop_last_heap n l2 r) as (-> & Hp & Hh); [by rewrite Hperm|done..|].
  eexists _, _. split_and!; [done|by rewrite <-Hperm|done|].
  apply Forall_forall. intros y Hy.
  assert (y ∈ l) as Hyl by (rewrite <-Hperm, Hp; set_solver).
  apply list_elem_of_lookup in Hyl as [k Hk].
  apply (heap_root (length l) l r Hok Hr k); eauto using lookup_lt_Some.
Qed.

Lemma Pop_nil : Pop [] = None.
Proof. done. Qed.

(** [Remove(h, i)] takes out the element at [i] and leaves a heap. *)
Lemma Remove_spec l i x :
  is_heap l → l !! i = Some x →
  ∃ l', Remove l i = Some (x, l') ∧ l ≡ₚ x :: l' ∧ is_heap l'.
Proof.
  intros Hok Hx. unfold Remove. set (n := (length l - 1)%nat).
  pose proof (lookup_lt_Some _ _ _ Hx) as Hi.
  assert (length l = S n) as Hlen by lia.
  destruct (bool_decide (n = i)) eqn:E; bools.
  - subst i. destruct (pop_last_heap n l x) as (-> & Hp & Hh); [done..| |eauto].
    intros p c Hpc Hc. apply Hok; auto with lia.
  - destruct (sift_ok l n i x Hok Hlen ltac:(lia) Hx) as (Hok3 & Hn3 & Hperm).
    destruct (down (swap i n l) i n) as [l2 mv]; simpl in *.
    generalize dependent (if mv then l2 else up l2 i). intros l3 Hok3 Hn3 Hperm.
    destruct (pop_last_heap n l3 x) as (-> & Hp & Hh); [by rewrite Hperm|done..|].
    eexists. split_and!; [done|by rewrite <-Hperm|done].
Qed.

Lemma Init_nil : Init [] = [].
Proof. done. Qed.

End heap.

#[export] Hint Resolve is_heap_nil Push_ok : go_db.
