(* ===== verification/GoFloat.v ===== *)
(** * float64

    Go's [float64] is IEEE 754 binary64 with round-to-nearest-even; the
    executable specification of the Standard Library ([SpecFloat], precision 53
    and exponent bound 1024) is used as its model, so that the rate limiter's
    estimate is computed with the roundings the program has.  The lemmas bound
    what those roundings can do to a count. *)
From S2P Require Import Prelude.
From Stdlib Require Import SpecFloat.

Abbreviation float64 := spec_float.

Definition fprec : Z := 53.
Definition femax : Z := 1024.

(** [float64(z)] of an integer. *)
Definition of_int (z : Z) : float64 := binary_normalize fprec femax z 0 false.
Definition fadd : float64 → float64 → float64 := SFadd fprec femax.
Definition fsub : float64 → float64 → float64 := SFsub fprec femax.
Definition fmul : float64 → float64 → float64 := SFmul fprec femax.
Definition fdiv : float64 → float64 → float64 := SFdiv fprec femax.
(** [x > y] and [x >= y]. *)
Definition fgt (x y : float64) : bool := SFltb y x.
Definition fge (x y : float64) : bool := SFleb y x.

(** [int(f)]: truncation.  Outside the range of [int] the result of the
    conversion is implementation-defined in Go; this is the value of amd64. *)
Definition to_int (f : float64) : Z :=
  let minInt := - 2 ^ 63 in
  match f with
  | S754_zero _ => 0
  | S754_finite s m e =>
      let v := Z.shiftl (Z.pos m) e in
      let v := if s then - v else v in
      if bool_decide (in_int64 v) then v else minInt
  | _ => minInt
  end.

Example to_int_ex : to_int (fdiv (of_int 7) (of_int 2)) = 3.
Proof. reflexivity. Qed.

(** ** Digits and shifts *)

Lemma digits2_pos_bounds p :
  2 ^ (Z.pos (digits2_pos p) - 1) ≤ Z.pos p < 2 ^ Z.pos (digits2_pos p).
Proof.
  induction p as [p IH|p IH|]; cbn [digits2_pos]; [..|done].
  all: rewrite Pos2Z.inj_succ;
    replace (Z.succ (Z.pos (digits2_pos p)) - 1) with (Z.succ (Z.pos (digits2_pos p) - 1)) by lia;
    rewrite !Z.pow_succ_r by lia; lia.
Qed.

Lemma Zdigits2_upper m : 0 ≤ m → m < 2 ^ Zdigits2 m.
Proof.
  intros. destruct m as [|p|]; [done| |lia]. apply digits2_pos_bounds.
Qed.

Lemma Zdigits2_lower m : 0 < m → 2 ^ (Zdigits2 m - 1) ≤ m ∧ 0 < Zdigits2 m.
Proof.
  intros. destruct m as [|p|]; [lia| |lia]. split; [apply digits2_pos_bounds|simpl; lia].
Qed.

Lemma shr_1_m mrs : 0 ≤ shr_m mrs → shr_m (shr_1 mrs) = shr_m mrs / 2.
Proof.
  destruct mrs as [[|p|p] r s]; simpl; intros; [done| |lia].
  destruct p as [p|p|]; simpl; rewrite <-Z.div2_div; done.
Qed.

Lemma iter_shr_1 p mrs :
  0 ≤ shr_m mrs → shr_m (iter_pos shr_1 p mrs) = shr_m mrs / 2 ^ Z.pos p.
Proof.
  assert (∀ x k, 0 ≤ x → 0 ≤ x / 2 ^ k) as Hnn.
  { intros x k Hx. destruct (Z.le_gt_cases 0 k); [apply Z.div_pos; lia|].
    rewrite Z.pow_neg_r by done. by rewrite Z.div_0_r. }
  revert mrs. induction p as [p IH|p IH|]; intros mrs H; cbn [iter_pos].
  - rewrite !IH; rewrite ?shr_1_m by done; [|apply Z.div_pos; lia|].
    2:{ rewrite IH, shr_1_m; [apply Hnn|done|rewrite shr_1_m by done]; apply Z.div_pos; lia. }
    rewrite !Z.div_div by lia. f_equal.
    replace (Z.pos p~1) with (1 + Z.pos p + Z.pos p) by lia.
    rewrite !Z.pow_add_r by lia. lia.
  - rewrite !IH; [|done|rewrite IH by done; by apply Hnn].
    rewrite !Z.div_div by lia. f_equal.
    replace (Z.pos p~0) with (Z.pos p + Z.pos p) by lia.
    by rewrite Z.pow_add_r by lia.
  - by rewrite shr_1_m.
Qed.

(** Truncation to the format's precision: the exponent after [shr_fexp], and
    the mantissa as a quotient. *)
Definition fexp64 : Z → Z := fexp fprec femax.

Definition trunc_exp (m e : Z) : Z := Z.max e (fexp64 (Zdigits2 m + e)).

Lemma shr_fexp_spec m e l :
  0 ≤ m →
  shr_m (shr_fexp fprec femax m e l).1 = m / 2 ^ (trunc_exp m e - e) ∧
  (shr_fexp fprec femax m e l).2 = trunc_exp m e.
Proof.
  intros Hm. unfold shr_fexp, shr, trunc_exp. fold (fexp64 (Zdigits2 m + e)).
  assert (shr_m (shr_record_of_loc m l) = m) as Hr by (destruct l as [|[]]; done).
  destruct (fexp64 (Zdigits2 m + e) - e) as [|p|p] eqn:E; cbn [fst snd].
  - rewrite Hr, Z.max_l, Z.sub_diag by lia. by rewrite Z.div_1_r.
  - rewrite iter_shr_1 by lia. rewrite Hr, Z.max_r by lia. rewrite <-E. split; [done|lia].
  - rewrite Hr, Z.max_l, Z.sub_diag by lia. by rewrite Z.div_1_r.
Qed.

Lemma trunc_bound m e : 0 ≤ m → 0 ≤ m / 2 ^ (trunc_exp m e - e) < 2 ^ 53.
Proof.
  intros Hm. assert (e ≤ trunc_exp m e) by (unfold trunc_exp; lia).
  split; [apply Z.div_pos; lia|]. apply Z.div_lt_upper_bound; [lia|].
  rewrite <-Z.pow_add_r by lia.
  eapply Z.lt_le_trans; [by apply Zdigits2_upper|]. apply Z.pow_le_mono_r; [lia|].
  unfold trunc_exp, fexp64, fexp, fprec. lia.
Qed.

(** ** Values against integers *)

(** [m * 2^e >= c], written over the integers. *)
Definition vge (m e c : Z) : Prop := c * 2 ^ Z.max 0 (- e) ≤ m * 2 ^ Z.max 0 e.

Lemma vge_nonpos m e c : 0 ≤ m → c ≤ 0 → vge m e c.
Proof.
  unfold vge. intros Hm Hc.
  pose proof (Z.pow_pos_nonneg 2 (Z.max 0 (- e)) ltac:(lia) ltac:(lia)).
  pose proof (Z.pow_pos_nonneg 2 (Z.max 0 e) ltac:(lia) ltac:(lia)). nia.
Qed.

(** Scaling the mantissa does not change the value. *)
Lemma vge_shift m e k c : 0 ≤ k → vge m e c ↔ vge (m * 2 ^ k) (e - k) c.
Proof.
  intros Hk. unfold vge. destruct (Z.le_gt_cases e 0) as [He|He].
  - rewrite !(Z.max_l 0 e), !(Z.max_l 0 (e - k)), !Z.max_r, !Z.mul_1_r by lia.
    replace (- (e - k)) with (- e + k) by lia. rewrite Z.pow_add_r by lia.
    pose proof (Z.pow_pos_nonneg 2 k ltac:(lia) ltac:(lia)). nia.
  - rewrite (Z.max_l 0 (- e)), (Z.max_r 0 e) by lia.
    destruct (Z.le_gt_cases k e).
    + rewrite Z.max_l, Z.max_r by lia. rewrite !Z.mul_1_r, <-Z.mul_assoc.
      rewrite <-(Z.pow_add_r 2 k (e - k)) by lia. by replace (k + (e - k)) with e by lia.
    + rewrite Z.max_r, Z.max_l by lia. rewrite !Z.mul_1_r.
      replace (2 ^ k) with (2 ^ e * 2 ^ (- (e - k)))
        by (rewrite <-Z.pow_add_r by lia; f_equal; lia).
      rewrite Z.mul_assoc.
      pose proof (Z.pow_pos_nonneg 2 (- (e - k)) ltac:(lia) ltac:(lia)). nia.
Qed.

(** Dropping low bits to fit the precision never goes below an integer that
    the format represents exactly. *)
Lemma trunc_vge m e c :
  0 ≤ m → c ≤ 2 ^ 53 → vge m e c →
  vge (m / 2 ^ (trunc_exp m e - e)) (trunc_exp m e) c.
Proof.
  intros Hm Hc Hv. pose proof (trunc_bound m e Hm) as [Hq _].
  destruct (Z.le_gt_cases c 0); [by apply vge_nonpos|].
  set (e' := trunc_exp m e) in *. assert (e ≤ e') as He by (unfold e', trunc_exp; lia).
  destruct (Z.le_gt_cases e' 0) as [He'|He'].
  - unfold vge in *. rewrite !(Z.max_l 0 e), !Z.max_r, ?(Z.max_l 0 e'), !Z.mul_1_r in * by lia.
    apply Z.div_le_lower_bound; [lia|].
    replace (2 ^ (- e)) with (2 ^ (e' - e) * 2 ^ (- e')) in Hv
      by (rewrite <-Z.pow_add_r by lia; f_equal; lia). lia.
  - destruct (Z.eq_dec e e') as [Heq|Hne].
    { rewrite <-Heq, Z.sub_diag, Z.div_1_r. done. }
    assert (e' = Zdigits2 m + e - 53) as Hexp
      by (unfold e', trunc_exp, fexp64, fexp, emin, fprec, femax in *; lia).
    assert (0 < m) as Hmpos.
    { destruct (Z.eq_dec m 0) as [->|]; [|lia]. simpl in Hexp. lia. }
    destruct (Zdigits2_lower m Hmpos) as [Hlow Hd].
    unfold vge. rewrite Z.max_l, Z.max_r, Z.mul_1_r by lia.
    assert (2 ^ 52 ≤ m / 2 ^ (e' - e)) as Hquo.
    { apply Z.div_le_lower_bound; [lia|]. rewrite <-Z.pow_add_r by lia.
      by replace (e' - e + 52) with (Zdigits2 m - 1) by lia. }
    assert (2 ≤ 2 ^ e') by (apply (Z.pow_le_mono_r 2 1 e'); lia). nia.
Qed.

Lemma round_nearest_even_ge m l :
  0 ≤ m → m ≤ round_nearest_even m l.
Proof. intros. destruct l as [|[]]; simpl; try case_match; lia. Qed.

Lemma vge_mono m m' e c : m ≤ m' → vge m e c → vge m' e c.
Proof.
  unfold vge. intros. pose proof (Z.pow_pos_nonneg 2 (Z.max 0 e) ltac:(lia) ltac:(lia)). nia.
Qed.

(** A float that is a (signed-positive) number at least [c], infinity included. *)
Definition at_least (f : float64) (c : Z) : Prop :=
  match f with
  | S754_finite false m e => vge (Z.pos m) e c ∧ Z.pos m < 2 ^ 53
  | S754_zero false => c ≤ 0
  | S754_infinity false => True
  | _ => False
  end.

Lemma round_aux_at_least m e l c :
  0 ≤ m → c ≤ 2 ^ 53 → vge m e c →
  at_least (binary_round_aux fprec femax false m e l) c.
Proof.
  intros Hm Hc Hv. unfold binary_round_aux.
  destruct (shr_fexp_spec m e l Hm) as [H1 H2].
  destruct (shr_fexp fprec femax m e l) as [mrs1 e1]; simpl in H1, H2. subst e1.
  pose proof (trunc_vge m e c Hm Hc Hv) as Hv1. pose proof (trunc_bound m e Hm) as Hb1.
  set (m2 := round_nearest_even (shr_m mrs1) (loc_of_shr_record mrs1)).
  assert (m / 2 ^ (trunc_exp m e - e) ≤ m2) as Hm2
    by (unfold m2; rewrite H1; apply round_nearest_even_ge; lia).
  apply (vge_mono _ m2) in Hv1; [|done].
  destruct (shr_fexp_spec m2 (trunc_exp m e) loc_Exact ltac:(lia)) as [H3 H4].
  destruct (shr_fexp fprec femax m2 (trunc_exp m e) loc_Exact) as [mrs3 e3]; simpl in H3, H4.
  subst e3. apply trunc_vge in Hv1; [|lia|done].
  pose proof (trunc_bound m2 (trunc_exp m e) ltac:(lia)) as Hb3.
  rewrite <-H3 in Hv1, Hb3. destruct (shr_m mrs3) as [|p|p]; [|case_match; [|done]|lia].
  - unfold vge in Hv1. simpl in *.
    pose proof (Z.pow_pos_nonneg 2 (Z.max 0 (- trunc_exp m2 (trunc_exp m e))) ltac:(lia) ltac:(lia)).
    nia.
  - split; [done|lia].
Qed.

(** ** Integers below 2^53 are exact *)

Lemma iter_xO m d : Z.pos (Pos.iter xO m d) = Z.pos m * 2 ^ Z.pos d.
Proof.
  induction d as [|d IH] using Pos.peano_ind; [simpl; lia|].
  rewrite Pos.iter_succ, Pos2Z.inj_succ, Z.pow_succ_r, (Pos2Z.inj_xO (Pos.iter _ _ _)) by lia.
  lia.
Qed.

Lemma shl_align_spec m e e' :
  ∃ k, 0 ≤ k ∧ Z.pos (shl_align m e e').1 = Z.pos m * 2 ^ k ∧
       (shl_align m e e').2 = e - k ∧ k = Z.max 0 (e - e').
Proof.
  unfold shl_align. destruct (e' - e) as [|d|d] eqn:E; cbn [fst snd].
  - exists 0. rewrite Z.mul_1_r. lia.
  - exists 0. rewrite Z.mul_1_r. lia.
  - exists (Z.pos d). rewrite iter_xO. lia.
Qed.

Lemma digits2_eq p k : 0 < k → 2 ^ (k - 1) ≤ Z.pos p < 2 ^ k → Z.pos (digits2_pos p) = k.
Proof.
  intros Hk [H1 H2]. destruct (digits2_pos_bounds p) as [H3 H4].
  assert (k - 1 < Z.pos (digits2_pos p)) by (apply (Z.pow_lt_mono_r_iff 2); lia).
  assert (Z.pos (digits2_pos p) - 1 < k) by (apply (Z.pow_lt_mono_r_iff 2); lia). lia.
Qed.

Lemma round_aux_exact p e :
  2 ^ 52 ≤ Z.pos p < 2 ^ 53 → -1074 ≤ e ≤ 971 →
  binary_round_aux fprec femax false (Z.pos p) e loc_Exact = S754_finite false p e.
Proof.
  intros Hp He. pose proof (digits2_eq p 53 ltac:(lia) Hp) as Hd.
  assert (shr_fexp fprec femax (Z.pos p) e loc_Exact =
          (Build_shr_record (Z.pos p) false false, e)) as Hshr.
  { unfold shr_fexp, shr, Zdigits2. rewrite Hd.
    replace (fexp fprec femax (53 + e) - e) with 0
      by (unfold fexp, emin, fprec, femax; lia). done. }
  unfold binary_round_aux. rewrite Hshr. cbn. rewrite Hshr. cbn.
  by rewrite (proj2 (Z.leb_le _ _)) by (unfold femax, fprec; lia).
Qed.

(** The representation of a positive integer below 2^53. *)
Lemma of_int_pos a :
  0 < a < 2 ^ 53 →
  ∃ m e, of_int a = S754_finite false m e ∧ 2 ^ 52 ≤ Z.pos m < 2 ^ 53 ∧
         -52 ≤ e ≤ 0 ∧ Z.pos m = a * 2 ^ (- e).
Proof.
  intros Ha. destruct a as [|p|]; [lia| |lia].
  unfold of_int, binary_normalize, binary_round. rewrite Z.add_0_r.
  destruct (digits2_pos_bounds p) as [Hl Hu].
  set (d := Z.pos (digits2_pos p)) in *. assert (1 ≤ d) by (unfold d; lia).
  assert (d ≤ 53).
  { enough (d - 1 < 53) by lia. apply (Z.pow_lt_mono_r_iff 2); lia. }
  replace (fexp fprec femax d) with (d - 53) by (unfold fexp, emin, fprec, femax; lia).
  destruct (shl_align_spec p 0 (d - 53)) as (k & Hk & Hm & He & Hkd).
  destruct (shl_align p 0 (d - 53)) as [m e]; cbn [fst snd] in *.
  assert (2 ^ 52 = 2 ^ (d - 1) * 2 ^ k) as H52 by (rewrite <-Z.pow_add_r by lia; f_equal; lia).
  assert (2 ^ 53 = 2 ^ d * 2 ^ k) as H53 by (rewrite <-Z.pow_add_r by lia; f_equal; lia).
  pose proof (Z.pow_pos_nonneg 2 k ltac:(lia) Hk).
  assert (2 ^ 52 ≤ Z.pos m < 2 ^ 53) as Hb by nia.
  exists m, e. rewrite round_aux_exact by lia. split_and!; [done|lia..|].
  rewrite Hm. do 2 f_equal. lia.
Qed.

Lemma of_int_0 : of_int 0 = S754_zero false.
Proof. done. Qed.

Lemma of_int_at_least a : 0 ≤ a < 2 ^ 53 → at_least (of_int a) a.
Proof.
  intros Ha. destruct (Z.eq_dec a 0) as [->|]; [done|].
  destruct (of_int_pos a) as (m & e & -> & Hb & He & Hm); [lia|]. split; [|lia].
  unfold vge. rewrite Z.max_r, Z.max_l by lia. lia.
Qed.

(** A float that reaches [c] compares above every smaller integer. *)
Lemma fgt_at_least f c b : at_least f c → 0 ≤ b < 2 ^ 53 → b < c → fgt f (of_int b) = true.
Proof.
  intros Hf Hb Hbc. unfold fgt, SFltb.
  destruct (Z.eq_dec b 0) as [->|].
  { rewrite of_int_0. destruct f as [[]|[]| |[] m e]; simpl in *; try done; lia. }
  destruct (of_int_pos b) as (mb & eb & -> & Hmb & Heb & Hvb); [lia|].
  destruct f as [[]|[]| |[] m e]; simpl in *; try done; [lia|].
  destruct Hf as [Hv Hm]. destruct (Z.compare_spec eb e) as [->|Hlt|Hgt]; [|done|].
  - unfold vge in Hv. rewrite Z.max_r, Z.max_l, Z.mul_1_r in Hv by lia.
    assert (Z.pos mb < Z.pos m) as Hlt.
    { rewrite Hvb. pose proof (Z.pow_pos_nonneg 2 (- e) ltac:(lia) ltac:(lia)). nia. }
    change (Pos.compare_cont Eq mb m) with (Pos.compare mb m).
    by rewrite (proj2 (Pos.compare_lt_iff mb m)).
  - exfalso. unfold vge in Hv. rewrite Z.max_r, Z.max_l, Z.mul_1_r in Hv by lia.
    replace (- e) with (- eb + (eb - e)) in Hv by lia. rewrite Z.pow_add_r in Hv by lia.
    pose proof (Z.pow_pos_nonneg 2 (- eb) ltac:(lia) ltac:(lia)).
    assert (2 ≤ 2 ^ (eb - e)) by (apply (Z.pow_le_mono_r 2 1); lia).
    generalize dependent (2 ^ (eb - e)). intros u Hv Hu.
    generalize dependent (2 ^ (- eb)). intros w Hvb Hv Hw.
    assert (b * w ≤ c * w) by nia. assert (c * w * 2 ≤ c * w * u) by nia. lia.
Qed.

Lemma SFcompare_of_int a b :
  0 ≤ a < 2 ^ 53 → 0 ≤ b < 2 ^ 53 → SFcompare (of_int a) (of_int b) = Some (a ?= b).
Proof.
  intros Ha Hb. destruct (Z.compare_spec a b) as [->|Hlt|Hgt].
  - destruct (Z.eq_dec b 0) as [->|]; [done|].
    destruct (of_int_pos b) as (m & e & -> & _); [lia|]. simpl.
    rewrite Z.compare_refl. f_equal. apply Pos.compare_refl.
  - pose proof (fgt_at_least _ b a (of_int_at_least b Hb) Ha Hlt) as H.
    unfold fgt, SFltb in H. by destruct (SFcompare _ _) as [[]|].
  - pose proof (fgt_at_least _ a b (of_int_at_least a Ha) Hb Hgt) as H.
    unfold fgt, SFltb in H.
    destruct (Z.eq_dec b 0) as [->|]; [destruct (of_int_pos a) as (m & e & -> & _); [lia|done]|].
    destruct (of_int_pos a) as (m & e & Ea & _); [lia|]. rewrite Ea in *.
    destruct (of_int_pos b) as (m' & e' & E & _); [lia|]. rewrite E in *. simpl in *.
    rewrite Z.compare_antisym in H. destruct (e ?= e'); try done.
    simpl in H. change (Pos.compare_cont Eq) with Pos.compare in *.
    rewrite Pos.compare_antisym in H. by destruct (m ?= m')%positive.
Qed.

(** Comparisons of exactly represented counts are those of the integers. *)
Lemma fgt_of_int a b :
  0 ≤ a < 2 ^ 53 → 0 ≤ b < 2 ^ 53 → fgt (of_int a) (of_int b) = (b <? a).
Proof.
  intros. unfold fgt, SFltb. rewrite SFcompare_of_int by done.
  unfold Z.ltb. by destruct (b ?= a).
Qed.

Lemma fge_of_int a b :
  0 ≤ a < 2 ^ 53 → 0 ≤ b < 2 ^ 53 → fge (of_int a) (of_int b) = (b <=? a).
Proof.
  intros. unfold fge, SFleb. rewrite SFcompare_of_int by done.
  unfold Z.leb. by destruct (b ?= a).
Qed.

(** ** Sums and products of non-negative numbers *)

(** A float with a positive sign: zero, finite or infinite. *)
Definition nonneg (f : float64) : Prop := at_least f 0.

Lemma at_least_nonneg f c : at_least f c → 0 ≤ c → nonneg f.
Proof.
  unfold nonneg. destruct f as [[]|[]| |[] m e]; simpl; try done. intros [? ?] ?.
  split; [apply vge_nonpos|]; lia.
Qed.

Lemma fmul_nonneg f g :
  nonneg f → nonneg g → (match g with S754_finite _ _ _ => True | _ => False end) →
  nonneg (fmul f g).
Proof.
  unfold nonneg, fmul. destruct f as [[]|[]| |[] m e]; try done;
    destruct g as [[]|[]| |[] m' e']; try done; intros _ _ _.
  cbn [SFmul xorb]. apply round_aux_at_least; [lia..|]. apply vge_nonpos; lia.
Qed.

(** Adding a non-negative number to a count never rounds below the count. *)
Lemma fadd_at_least c x : 0 ≤ c < 2 ^ 53 → nonneg x → at_least (fadd (of_int c) x) c.
Proof.
  intros Hc Hx. pose proof (of_int_at_least c Hc) as Hat.
  destruct (Z.eq_dec c 0) as [->|Hc0].
  { rewrite of_int_0. by destruct x as [[]|[]| |[] m e]. }
  destruct (of_int_pos c) as (m & e & E & Hm & He & Hv); [lia|]. rewrite E in *.
  unfold nonneg in Hx. destruct x as [[]|[]| |[] mx ex]; try done.
  unfold fadd. cbn [SFadd]. cbn [cond_Zopp].
  destruct (shl_align_spec m e (Z.min e ex)) as (k & Hk & Hsm & _ & Hke).
  destruct (shl_align_spec mx ex (Z.min e ex)) as (k' & Hk' & Hsx & _ & _).
  set (s := Z.pos (shl_align m e (Z.min e ex)).1 + Z.pos (shl_align mx ex (Z.min e ex)).1).
  assert (vge s (Z.min e ex) c) as Hs.
  { destruct Hat as [Hat _]. rewrite (vge_shift _ _ k) in Hat by done.
    replace (e - k) with (Z.min e ex) in Hat by lia.
    eapply vge_mono; [|exact Hat]. unfold s. lia. }
  assert (0 < s) by (unfold s; lia). destruct s as [|p|]; [lia| |lia].
  unfold binary_normalize, binary_round.
  set (fe := fexp fprec femax _).
  destruct (shl_align_spec p (Z.min e ex) fe) as (j & Hj & Hsp & Hje & _).
  destruct (shl_align p (Z.min e ex) fe) as [mz ez]; cbn [fst snd] in *.
  apply round_aux_at_least; [lia..|]. subst ez. rewrite Hsp. by apply vge_shift.
Qed.

(** Adding zero is exact. *)
Lemma fadd_zero_r c : 0 ≤ c < 2 ^ 53 → fadd (of_int c) (S754_zero false) = of_int c.
Proof.
  intros. destruct (Z.eq_dec c 0) as [->|]; [done|].
  destruct (of_int_pos c) as (m & e & -> & _); [lia|done].
Qed.

Lemma of_int_nonneg z : 0 ≤ z → nonneg (of_int z).
Proof.
  intros Hz. destruct z as [|p|]; [done| |lia].
  unfold of_int, binary_normalize, binary_round. rewrite Z.add_0_r.
  set (fe := fexp fprec femax _).
  destruct (shl_align p 0 fe) as [mz ez]. unfold nonneg.
  apply round_aux_at_least; [lia..|]. apply vge_nonpos; lia.
Qed.

Definition finite (f : float64) : bool :=
  match f with S754_finite _ _ _ => true | _ => false end.
