(* ===== verification/GoTime.v ===== *)
(** * time: calendar dates and the RFC 3339 text form

    The program stores instants as text: [t.UTC().Format(time.RFC3339Nano)],
    read back with [time.Parse].  An instant is its number of nanoseconds since
    the Unix epoch ([GoStd]); the Gregorian date is computed from the number of
    days since January 1 of year 0.  [parseRFC3339] is the parser of package
    [time] for this layout; what it rejects goes to the general layout parser
    ([slow], an argument of [Parse]). *)
From S2P Require Import Prelude GoStd.
From Stdlib Require Import Ascii.

#[local] Ltac Zify.zify_post_hook ::= Z.to_euclidean_division_equations.

(** ** Days and dates *)

Definition daySeconds : Z := 86400.
(** Days from January 1 of year 0 to the Unix epoch. *)
Definition epochDays : Z := 719528.

Definition isLeap (y : Z) : bool :=
  (y mod 4 =? 0) && (negb (y mod 100 =? 0) || (y mod 400 =? 0)).

(** The day on which year [y] starts. *)
Definition yearStart (y : Z) : Z := 365 * y + (y + 3) / 4 - (y + 99) / 100 + (y + 399) / 400.

Definition yearOf (d : Z) : Z :=
  let y := 400 * d / 146097 in
  if d <? yearStart y then y - 1 else if yearStart (y + 1) <=? d then y + 1 else y.

Definition monthLengths (leap : bool) : list Z :=
  [31; if leap then 29 else 28; 31; 30; 31; 30; 31; 31; 30; 31; 30; 31].

(** The month and day of a day of the year, months numbered from [m]. *)
Fixpoint monthDay (m : Z) (lens : list Z) (yd : Z) : Z * Z :=
  match lens with
  | [] => (m, yd + 1)
  | l :: lens => if yd <? l then (m, yd + 1) else monthDay (m + 1) lens (yd - l)
  end.

(** The days before month [m]. *)
Fixpoint monthStart (n : nat) (lens : list Z) : Z :=
  match n, lens with
  | S n, l :: lens => l + monthStart n lens
  | _, _ => 0
  end.

Record civil := mkCivil { cv_year : Z; cv_month : Z; cv_day : Z; cv_sec : Z; cv_nsec : Z }.

(** [t.UTC()] as a date, the second of the day and the nanosecond. *)
Definition civilOf (t : Z) : civil :=
  let s := Unix t in
  let d := s / daySeconds + epochDays in
  let y := yearOf d in
  let '(m, md) := monthDay 1 (monthLengths (isLeap y)) (d - yearStart y) in
  mkCivil y m md (s mod daySeconds) (t mod Second).

(** [time.Date(y, m, d, 0, 0, sec, nsec, time.UTC)]. *)
Definition instantOf (c : civil) : Z :=
  let d := yearStart (cv_year c) +
           monthStart (Z.to_nat (cv_month c - 1)) (monthLengths (isLeap (cv_year c))) + cv_day c - 1 in
  ((d - epochDays) * daySeconds + cv_sec c) * Second + cv_nsec c.

(** ** Format *)

Definition digitChar (z : Z) : ascii := ascii_of_nat (Z.to_nat (48 + z)).

(** The last [w] decimal digits of [n]. *)
Fixpoint digits (w : nat) (n : Z) : string :=
  match w with
  | O => ""
  | S w => String (digitChar (n / 10 ^ Z.of_nat w mod 10)) (digits w n)
  end.

Definition padInt (w : nat) (x : Z) : string :=
  if x <? 10 ^ Z.of_nat w then digits w x else FormatInt x.

(** [appendInt(x, width)]. *)
Definition appendInt (w : nat) (x : Z) : string :=
  if x <? 0 then String "-" (padInt w (- x)) else padInt w x.

Fixpoint trimZeros (s : string) : string :=
  match s with
  | "" => ""
  | String c s =>
      match c, trimZeros s with
      | "0"%char, "" => ""
      | _, s' => String c s'
      end
  end.

(** The fraction [.999999999]: nothing for whole seconds, no trailing zeros. *)
Definition fraction (nsec : Z) : string :=
  if nsec =? 0 then "" else String "." (trimZeros (digits 9 nsec)).

(** [Format(time.RFC3339Nano)] of an instant in UTC. *)
Definition FormatTime (t : Z) : string :=
  let c := civilOf t in
  appendInt 4 (cv_year c) +:+ String "-" (appendInt 2 (cv_month c) +:+
  String "-" (appendInt 2 (cv_day c) +:+ String "T" (appendInt 2 (cv_sec c / 3600) +:+
  String ":" (appendInt 2 (cv_sec c / 60 mod 60) +:+ String ":" (appendInt 2 (cv_sec c mod 60) +:+
  (fraction (cv_nsec c) +:+ "Z")))))).

(** ** Parse *)

Fixpoint number (n : Z) (s : string) : option Z :=
  match s with
  | "" => Some n
  | String c s => d ← digit c; number (10 * n + d) s
  end.

(** [parseUint(s[:w], min, max)]: the number and the rest of the text. *)
Definition parseField (w : nat) (min max : Z) (s : string) : option (Z * string) :=
  if (String.length s <? w)%nat then None
  else
    v ← number 0 (strtake w s);
    if (min <=? v) && (v <=? max) then Some (v, strdrop w s) else None.

Definition parseChar (c : ascii) (s : string) : option string :=
  match s with
  | String c' s => if Ascii.eqb c c' then Some s else None
  | "" => None
  end.

Fixpoint takeDigits (s : string) : string * string :=
  match s with
  | String c s' =>
      match digit c with
      | Some _ => let '(ds, r) := takeDigits s' in (String c ds, r)
      | None => ("", s)
      end
  | "" => ("", "")
  end.

(** The digits after the point, cut or filled to nine. *)
Definition nanos (ds : string) : Z :=
  let ds := strtake 9 ds in
  default 0 (number 0 ds) * 10 ^ (9 - Z.of_nat (String.length ds)).

Definition parseFraction (s : string) : Z * string :=
  match s with
  | String "." r =>
      match takeDigits r with
      | ("", _) => (0, s)
      | (ds, rest) => (nanos ds, rest)
      end
  | _ => (0, s)
  end.

(** The offset of the zone, in seconds. *)
Definition parseZone (s : string) : option Z :=
  match s with
  | "Z" => Some 0
  | String sign r =>
      ' (h, r) ← parseField 2 0 23 r;
      r ← parseChar ":" r;
      ' (m, r) ← parseField 2 0 59 r;
      if bool_decide (r = "") then
        if Ascii.eqb sign "+" then Some ((h * 60 + m) * 60)
        else if Ascii.eqb sign "-" then Some (- ((h * 60 + m) * 60)) else None
      else None
  | "" => None
  end.

Definition daysIn (m y : Z) : Z := default 0 (monthLengths (isLeap y) !! Z.to_nat (m - 1)).

Definition parseRFC3339 (s : string) : option Z :=
  ' (y, s) ← parseField 4 0 9999 s; s ← parseChar "-" s;
  ' (m, s) ← parseField 2 1 12 s; s ← parseChar "-" s;
  ' (d, s) ← parseField 2 1 (daysIn m y) s; s ← parseChar "T" s;
  ' (hh, s) ← parseField 2 0 23 s; s ← parseChar ":" s;
  ' (mm, s) ← parseField 2 0 59 s; s ← parseChar ":" s;
  ' (ss, s) ← parseField 2 0 59 s;
  let '(ns, s) := parseFraction s in
  offset ← parseZone s;
  Some (instantOf (mkCivil y m d (hh * 3600 + mm * 60 + ss) ns) - offset * Second).

(** [time.Parse(time.RFC3339Nano, s)]; the error leaves the zero time. *)
Definition Parse (slow : string → option Z) (s : string) : option Z :=
  match parseRFC3339 s with Some t => Some t | None => slow s end.
Definition ParseOrZero (slow : string → option Z) (s : string) : Z := default zeroTime (Parse slow s).

(** The instants of the years 0 to 9999, whose text has its fixed width. *)
Definition rfcRange (t : Z) : Prop := 0 ≤ cv_year (civilOf t) ≤ 9999.
#[global] Instance rfcRange_dec t : Decision (rfcRange t).
Proof. unfold rfcRange. apply _. Defined.

(** ** The calendar *)

Lemma yearStart_mono y y' : y ≤ y' → yearStart y ≤ yearStart y'.
Proof. unfold yearStart. lia. Qed.

Lemma yearStart_next y : yearStart (y + 1) = yearStart y + (if isLeap y then 366 else 365).
Proof. unfold yearStart, isLeap. repeat case_match; bools; lia. Qed.

Lemma yearOf_spec d : yearStart (yearOf d) ≤ d < yearStart (yearOf d + 1).
Proof.
  unfold yearOf. set (y := 400 * d / 146097).
  assert (yearStart (y - 1) ≤ d < yearStart (y + 2)) as Hy by (subst y; unfold yearStart; lia).
  destruct (d <? yearStart y) eqn:E1; bools; [replace (y - 1 + 1) with y by lia; lia|].
  destruct (yearStart (y + 1) <=? d) eqn:E2; bools; [|lia].
  replace (y + 1 + 1) with (y + 2) by lia. lia.
Qed.

Lemma yearOf_unique d y : yearStart y ≤ d < yearStart (y + 1) → yearOf d = y.
Proof.
  intros Hy. pose proof (yearOf_spec d) as Hd.
  destruct (Z.lt_trichotomy (yearOf d) y) as [H|[H|H]]; [|done|].
  - pose proof (yearStart_mono (yearOf d + 1) y). lia.
  - pose proof (yearStart_mono (y + 1) (yearOf d)). lia.
Qed.

Lemma yearOf_mono d d' : d ≤ d' → yearOf d ≤ yearOf d'.
Proof.
  intros H. pose proof (yearOf_spec d). pose proof (yearOf_spec d').
  destruct (Z.le_gt_cases (yearOf d) (yearOf d')) as [|Hlt]; [done|].
  pose proof (yearStart_mono (yearOf d' + 1) (yearOf d)). lia.
Qed.

Lemma monthDay_spec m lens yd :
  0 ≤ yd < foldr Z.add 0 lens →
  let '(m', d) := monthDay m lens yd in
  m ≤ m' < m + Z.of_nat (length lens) ∧ monthStart (Z.to_nat (m' - m)) lens + d - 1 = yd ∧
  ∃ l, lens !! Z.to_nat (m' - m) = Some l ∧ 1 ≤ d ≤ l.
Proof.
  revert m yd. induction lens as [|l lens IH]; intros m yd Hyd; simpl in Hyd; [lia|]. simpl.
  destruct (yd <? l) eqn:E; bools.
  - replace (Z.to_nat (m - m)) with 0%nat by lia. simpl. split_and!; [lia..|]. exists l. split; [done|lia].
  - specialize (IH (m + 1) (yd - l) ltac:(lia)). destruct (monthDay (m + 1) lens (yd - l)) as [m' d].
    destruct IH as (Hm & Hs & l' & Hl & Hd).
    replace (Z.to_nat (m' - m)) with (S (Z.to_nat (m' - (m + 1)))) by lia. simpl.
    split_and!; [lia..|]. by exists l'.
Qed.

(** Later days of a year have later dates. *)
Lemma monthDay_lt m lens yd yd' :
  yd < yd' →
  let '(m1, d1) := monthDay m lens yd in let '(m2, d2) := monthDay m lens yd' in
  m1 < m2 ∨ (m1 = m2 ∧ d1 < d2).
Proof.
  assert (∀ lens m yd, m ≤ (monthDay m lens yd).1) as Hge.
  { clear. induction lens as [|l lens IH]; intros m yd; simpl; [lia|].
    destruct (yd <? l); simpl; [lia|]. specialize (IH (m + 1) (yd - l)). lia. }
  revert m yd yd'. induction lens as [|l lens IH]; intros m yd yd' Hlt; simpl; [lia|].
  destruct (yd <? l) eqn:E1, (yd' <? l) eqn:E2; bools; try lia.
  - specialize (Hge lens (m + 1) (yd' - l)). destruct (monthDay _ _ _) as [m2 d2]. simpl in Hge. lia.
  - apply IH. lia.
Qed.

Lemma monthLengths_sum leap : foldr Z.add 0 (monthLengths leap) = if leap then 366 else 365.
Proof. by destruct leap. Qed.

(** The parts of a date and time are in range, and determine the instant. *)
Lemma civilOf_spec t :
  let c := civilOf t in
  instantOf c = t ∧ 1 ≤ cv_month c ≤ 12 ∧ 1 ≤ cv_day c ≤ daysIn (cv_month c) (cv_year c) ∧
  0 ≤ cv_sec c < daySeconds ∧ 0 ≤ cv_nsec c < Second.
Proof.
  unfold civilOf, instantOf, daysIn. set (d := Unix t / daySeconds + epochDays).
  pose proof (yearOf_spec d) as Hy. rewrite yearStart_next in Hy.
  pose proof (monthDay_spec 1 (monthLengths (isLeap (yearOf d))) (d - yearStart (yearOf d))) as Hm.
  rewrite monthLengths_sum in Hm. specialize (Hm ltac:(destruct (isLeap _); lia)).
  destruct (monthDay 1 _ _) as [m md]. simpl in Hm |- *. destruct Hm as (Hm & Hs & l & Hl & Hd).
  rewrite Hl. simpl. split_and!; try lia.
  - replace (yearStart (yearOf d) + monthStart (Z.to_nat (m - 1)) (monthLengths (isLeap (yearOf d))) + md - 1)
      with d by lia. subst d. unfold Unix, daySeconds, Second, Millisecond. lia.
  - unfold daySeconds. lia.
  - unfold daySeconds. lia.
  - unfold Second, Millisecond. lia.
  - unfold Second, Millisecond. lia.
Qed.

(** ** Digits *)

Lemma digit_digitChar z : 0 ≤ z < 10 → digit (digitChar z) = Some z.
Proof.
  intros Hz. assert (z = 0 ∨ z = 1 ∨ z = 2 ∨ z = 3 ∨ z = 4 ∨ z = 5 ∨ z = 6 ∨ z = 7 ∨ z = 8 ∨ z = 9)
    by lia. by destruct_or!; subst.
Qed.

Lemma length_digits w n : String.length (digits w n) = w.
Proof. induction w as [|w IH]; simpl; congruence. Qed.

Lemma number_digits w n a r :
  number a (digits w n +:+ r) = number (a * 10 ^ Z.of_nat w + n mod 10 ^ Z.of_nat w) r.
Proof.
  revert a. induction w as [|w IH]; intros a.
  - change (digits 0 n +:+ r) with r. f_equal. change (10 ^ Z.of_nat 0) with 1. lia.
  - change (digits (S w) n +:+ r)
      with (String (digitChar (n / 10 ^ Z.of_nat w mod 10)) (digits w n +:+ r)).
    cbn [number]. rewrite digit_digitChar by lia. simpl. rewrite IH. f_equal.
    replace (10 ^ Z.of_nat (S w)) with (10 ^ Z.of_nat w * 10)
      by (rewrite Nat2Z.inj_succ, Z.pow_succ_r; lia).
    rewrite Z.rem_mul_r by lia. lia.
Qed.

Lemma strtake_app s r : strtake (String.length s) (s +:+ r) = s.
Proof. induction s as [|c s IH]; [by destruct r|]. exact (f_equal (String c) IH). Qed.

Lemma strdrop_app s r : strdrop (String.length s) (s +:+ r) = r.
Proof. induction s as [|c s IH]; [by destruct r|]. exact IH. Qed.

Lemma length_str_app s r : String.length (s +:+ r) = (String.length s + String.length r)%nat.
Proof. induction s as [|c s IH]; [done|]. simpl. by rewrite <-IH. Qed.

(** A field that was printed is read back. *)
Lemma parseField_appendInt w min max v r :
  min ≤ v ≤ max → 0 ≤ v < 10 ^ Z.of_nat w → parseField w min max (appendInt w v +:+ r) = Some (v, r).
Proof.
  intros Hv Hw. unfold appendInt, padInt.
  rewrite (proj2 (Z.ltb_ge _ _)), (proj2 (Z.ltb_lt _ _)) by lia.
  unfold parseField. rewrite length_str_app, length_digits.
  rewrite (proj2 (Nat.ltb_ge _ _)) by lia.
  pose proof (strtake_app (digits w v) r) as Ht. pose proof (strdrop_app (digits w v) r) as Hd.
  rewrite length_digits in Ht, Hd. rewrite Ht, Hd.
  rewrite <-(str_app_nil_r (digits w v)), number_digits. simpl.
  rewrite Z.mod_small, Z.add_0_l by lia.
  rewrite (proj2 (Z.leb_le _ _)), (proj2 (Z.leb_le _ _)) by lia. done.
Qed.

Lemma parseChar_same c s : parseChar c (String c s) = Some s.
Proof. simpl. by rewrite Ascii.eqb_refl. Qed.

(** ** Fractions *)

Lemma trimZeros_cons c s :
  trimZeros (String c s) = if Ascii.eqb c "0" && bool_decide (trimZeros s = "") then ""
                           else String c (trimZeros s).
Proof.
  cbn [trimZeros]. destruct (trimZeros s) as [|c' s'];
    destruct c as [[] [] [] [] [] [] [] []]; done.
Qed.

Lemma length_trimZeros s : (String.length (trimZeros s) ≤ String.length s)%nat.
Proof.
  induction s as [|c s IH]; [done|]. rewrite trimZeros_cons.
  case_match; cbn [String.length]; lia.
Qed.

Lemma trimZeros_all_digits s : all_digits s = true → all_digits (trimZeros s) = true.
Proof.
  induction s as [|c s IH]; [done|]. rewrite trimZeros_cons. simpl.
  destruct (digit c) eqn:E; [|done]. intros Hs. case_match; [done|]. simpl. rewrite E. auto.
Qed.

(** Dropping trailing zeros divides by a power of ten. *)
Lemma number_trimZeros s n :
  all_digits s = true →
  ∃ v, number n (trimZeros s) = Some v ∧
       number n s = Some (v * 10 ^ Z.of_nat (String.length s - String.length (trimZeros s))).
Proof.
  revert n. induction s as [|c s IH]; intros n Hs.
  { exists n. split; [done|]. simpl. f_equal. lia. }
  simpl in Hs. destruct (digit c) as [d|] eqn:Ec; [|done].
  destruct (IH (10 * n + d) Hs) as (v & H1 & H2). rewrite trimZeros_cons.
  cbn [number]. rewrite Ec. simpl.
  destruct (Ascii.eqb c "0" && bool_decide (trimZeros s = "")) eqn:Ez.
  - bools. apply Ascii.eqb_eq in H as ->. simplify_eq/=.
    match goal with H : trimZeros s = "" |- _ => rewrite H in * end. simpl in *.
    injection H1 as <-. exists n. split; [done|]. rewrite H2. f_equal.
    rewrite Nat.sub_0_r, Nat2Z.inj_succ, Z.pow_succ_r by lia. change (digit "0") with (Some 0) in Ec. injection Ec as <-. ring.
  - exists v. cbn [number String.length]. rewrite Ec. simpl. done.
Qed.

Lemma takeDigits_app ds r :
  all_digits ds = true → (∀ c s, r = String c s → digit c = None) → takeDigits (ds +:+ r) = (ds, r).
Proof.
  intros Hds Hr. induction ds as [|c ds IH].
  - change ("" +:+ r) with r. destruct r as [|c r]; [done|]. cbn [takeDigits].
    by rewrite (Hr c r eq_refl).
  - change (String c ds +:+ r) with (String c (ds +:+ r)). cbn [takeDigits]. simpl in Hds.
    destruct (digit c); [|done]. by rewrite IH.
Qed.

Lemma all_digits_digits w n : all_digits (digits w n) = true.
Proof. induction w as [|w IH]; simpl; [done|]. rewrite digit_digitChar by lia. done. Qed.

Lemma strtake_short n s : (String.length s ≤ n)%nat → strtake n s = s.
Proof.
  revert n. induction s as [|c s IH]; intros [|n] Hl; try done; cbn [String.length] in Hl; [lia|].
  cbn [strtake]. rewrite IH; [done|lia].
Qed.

Lemma nanos_trimZeros ns :
  0 ≤ ns < Second → nanos (trimZeros (digits 9 ns)) = ns.
Proof.
  intros Hns. unfold nanos.
  pose proof (length_trimZeros (digits 9 ns)) as Hl. rewrite length_digits in Hl.
  rewrite strtake_short by done.
  destruct (number_trimZeros (digits 9 ns) 0 (all_digits_digits _ _)) as (v & H1 & H2).
  pose proof (number_digits 9 ns 0 "") as H3. rewrite str_app_nil_r in H3. rewrite H2 in H3.
  cbn [number] in H3. apply (inj Some) in H3. rewrite length_digits in H3. rewrite H1. simpl default.
  rewrite Z.mod_small in H3 by (unfold Second, Millisecond in Hns; lia).
  rewrite Nat2Z.inj_sub in H3 by done. change (Z.of_nat 9) with 9 in H3. lia.
Qed.

Lemma parseFraction_fraction ns r :
  0 ≤ ns < Second → (∀ c s, r = String c s → digit c = None ∧ c ≠ "."%char) →
  parseFraction (fraction ns +:+ r) = (ns, r).
Proof.
  intros Hns Hr. unfold fraction. destruct (ns =? 0) eqn:E0; bools.
  - subst. change ("" +:+ r) with r. destruct r as [|c r]; [done|].
    destruct (Hr c r eq_refl) as [_ Hc]. unfold parseFraction.
    destruct c as [[] [] [] [] [] [] [] []]; done.
  - pose proof (nanos_trimZeros ns Hns) as Hn.
    pose proof (trimZeros_all_digits _ (all_digits_digits 9 ns)) as Hds.
    generalize dependent (trimZeros (digits 9 ns)). intros ds Hn Hds.
    rewrite append_cons. unfold parseFraction.
    rewrite takeDigits_app; [|done|intros c s Hcs; by apply (Hr c s)].
    destruct ds as [|c ds]; [|by rewrite Hn]. change (nanos "") with 0 in Hn. lia.
Qed.

Lemma daysIn_le m y : daysIn m y ≤ 31.
Proof.
  unfold daysIn. destruct (monthLengths (isLeap y) !! Z.to_nat (m - 1)) as [l|] eqn:El; [|simpl; lia].
  simpl. apply list_elem_of_lookup_2 in El. unfold monthLengths in El.
  destruct (isLeap _); set_unfold in El; lia.
Qed.

(** Printing an instant and reading it back. *)
Lemma parseRFC3339_FormatTime t : rfcRange t → parseRFC3339 (FormatTime t) = Some t.
Proof.
  unfold rfcRange. intros Hy. pose proof (civilOf_spec t) as (Ht & Hm & Hd & Hs & Hn).
  unfold FormatTime, parseRFC3339. set (c := civilOf t) in *.
  pose proof (daysIn_le (cv_month c) (cv_year c)).
  unfold daySeconds in Hs.
  repeat (rewrite parseField_appendInt by (try change (10 ^ Z.of_nat 4) with 10000;
                                           try change (10 ^ Z.of_nat 2) with 100; lia);
          cbn [mbind option_bind]; rewrite ?parseChar_same; cbn [mbind option_bind]).
  rewrite parseFraction_fraction; [|done|by intros ch s [= <- <-]]. simpl.
  f_equal. replace (cv_sec c / 3600 * 3600 + cv_sec c / 60 mod 60 * 60 + cv_sec c mod 60)
    with (cv_sec c) by lia.
  destruct c; simpl in *. lia.
Qed.

Lemma Parse_FormatTime slow t : rfcRange t → Parse slow (FormatTime t) = Some t.
Proof. intros Ht. unfold Parse. by rewrite parseRFC3339_FormatTime. Qed.

Lemma ParseOrZero_FormatTime slow t : rfcRange t → ParseOrZero slow (FormatTime t) = t.
Proof. intros Ht. unfold ParseOrZero. by rewrite Parse_FormatTime. Qed.

(** ** The order of the texts

    SQLite compares text byte by byte. *)

Lemma compare_digitChar x y :
  0 ≤ x < 10 → 0 ≤ y < 10 → Ascii.compare (digitChar x) (digitChar y) = (x ?= y).
Proof.
  intros Hx Hy.
  assert (∀ z, 0 ≤ z < 10 →
    z = 0 ∨ z = 1 ∨ z = 2 ∨ z = 3 ∨ z = 4 ∨ z = 5 ∨ z = 6 ∨ z = 7 ∨ z = 8 ∨ z = 9) as Hz by lia.
  destruct (Hz x Hx) as [->|[->|[->|[->|[->|[->|[->|[->|[->| ->]]]]]]]]];
    destruct (Hz y Hy) as [->|[->|[->|[->|[->|[->|[->|[->|[->| ->]]]]]]]]]; reflexivity.
Qed.

Lemma compare_cons c s s' : String.compare (String c s) (String c s') = String.compare s s'.
Proof. cbn [String.compare]. unfold Ascii.compare. by rewrite N.compare_refl. Qed.

Lemma compare_lex p a b x y :
  0 ≤ a < p → 0 ≤ b < p →
  (a + p * x ?= b + p * y) = match x ?= y with Eq => a ?= b | c => c end.
Proof.
  intros Ha Hb. destruct (Z.compare_spec x y) as [E|E|E].
  - subst x. destruct (Z.compare_spec a b) as [E|E|E].
    + subst a. apply Z.compare_refl.
    + apply Z.compare_lt_iff. lia.
    + apply Z.compare_gt_iff. lia.
  - apply Z.compare_lt_iff. nia.
  - apply Z.compare_gt_iff. nia.
Qed.

(** Numbers of the same width compare like their texts. *)
Lemma compare_digits w a b r r' :
  String.compare (digits w a +:+ r) (digits w b +:+ r') =
  match a mod 10 ^ Z.of_nat w ?= b mod 10 ^ Z.of_nat w with
  | Eq => String.compare r r'
  | c => c
  end.
Proof.
  induction w as [|w IH].
  { change (10 ^ Z.of_nat 0) with 1. by rewrite !Z.mod_1_r. }
  cbn [digits]. rewrite !append_cons. cbn [String.compare].
  rewrite compare_digitChar, IH by lia.
  replace (10 ^ Z.of_nat (S w)) with (10 ^ Z.of_nat w * 10)
    by (rewrite Nat2Z.inj_succ, Z.pow_succ_r; lia).
  rewrite !Z.rem_mul_r by lia.
  pose proof (Z.mod_pos_bound a (10 ^ Z.of_nat w) ltac:(lia)) as Ha.
  pose proof (Z.mod_pos_bound b (10 ^ Z.of_nat w) ltac:(lia)) as Hb.
  rewrite compare_lex by lia. by destruct ((a / 10 ^ Z.of_nat w) mod 10 ?= (b / 10 ^ Z.of_nat w) mod 10).
Qed.

Lemma compare_appendInt w a b r r' :
  0 ≤ a < 10 ^ Z.of_nat w → 0 ≤ b < 10 ^ Z.of_nat w →
  String.compare (appendInt w a +:+ r) (appendInt w b +:+ r') =
  match a ?= b with Eq => String.compare r r' | c => c end.
Proof.
  intros Ha Hb. unfold appendInt, padInt.
  rewrite !(proj2 (Z.ltb_ge _ 0)), !(proj2 (Z.ltb_lt _ (10 ^ _))) by lia.
  by rewrite compare_digits, !Z.mod_small.
Qed.

(** A later second has a later date and time, field by field. *)
Lemma civilOf_lt t u :
  Unix t < Unix u →
  let c := civilOf t in let c' := civilOf u in
  cv_year c < cv_year c' ∨ cv_year c = cv_year c' ∧
  (cv_month c < cv_month c' ∨ cv_month c = cv_month c' ∧
   (cv_day c < cv_day c' ∨ cv_day c = cv_day c' ∧ cv_sec c < cv_sec c')).
Proof.
  intros Hlt. unfold civilOf.
  set (d := Unix t / daySeconds + epochDays). set (d' := Unix u / daySeconds + epochDays).
  assert (d < d' ∨ d = d' ∧ Unix t mod daySeconds < Unix u mod daySeconds) as Hd
    by (subst d d'; unfold daySeconds; lia).
  pose proof (yearOf_mono d d' ltac:(lia)) as Hy.
  destruct (Z.lt_ge_cases (yearOf d) (yearOf d')) as [Hlty|Hge].
  { destruct (monthDay _ _ _), (monthDay _ _ _). simpl. lia. }
  assert (yearOf d' = yearOf d) as Ey by lia. rewrite Ey.
  destruct Hd as [Hd|[<- Hs]].
  - pose proof (monthDay_lt 1 (monthLengths (isLeap (yearOf d))) (d - yearStart (yearOf d))
      (d' - yearStart (yearOf d)) ltac:(lia)) as Hm.
    destruct (monthDay _ _ _), (monthDay _ _ _). simpl. lia.
  - destruct (monthDay _ _ _). simpl. lia.
Qed.

(** The texts of instants in different seconds compare like the instants. *)
Lemma FormatTime_lt t u :
  rfcRange t → rfcRange u → Unix t < Unix u → String.compare (FormatTime t) (FormatTime u) = Lt.
Proof.
  unfold rfcRange. intros Ht Hu Hlt.
  pose proof (civilOf_spec t) as (_ & Hm & Hd & Hs & _).
  pose proof (civilOf_spec u) as (_ & Hm' & Hd' & Hs' & _).
  pose proof (daysIn_le (cv_month (civilOf t)) (cv_year (civilOf t))).
  pose proof (daysIn_le (cv_month (civilOf u)) (cv_year (civilOf u))).
  pose proof (civilOf_lt t u Hlt) as Hc. unfold FormatTime. unfold daySeconds in *.
  destruct (civilOf t) as [y m d s ns], (civilOf u) as [y' m' d' s' ns']. simpl in *.
  rewrite !compare_appendInt, !compare_cons, !compare_appendInt, !compare_cons, !compare_appendInt,
    !compare_cons, !compare_appendInt, !compare_cons, !compare_appendInt, !compare_cons,
    !compare_appendInt by (try change (10 ^ Z.of_nat 4) with 10000;
                           try change (10 ^ Z.of_nat 2) with 100; lia).
  destruct Hc as [Hc|[<- [Hc|[<- [Hc|[<- Hc]]]]]]; rewrite ?Z.compare_refl;
    try by rewrite (proj2 (Z.compare_lt_iff _ _) Hc).
  destruct (Z.compare_spec (s / 3600) (s' / 3600)); [|done|lia].
  destruct (Z.compare_spec (s / 60 mod 60) (s' / 60 mod 60)); [|done|lia].
  destruct (Z.compare_spec (s mod 60) (s' mod 60)); [lia|done|lia].
Qed.

Lemma FormatTime_ltb t u :
  rfcRange t → rfcRange u → Unix t < Unix u → String.ltb (FormatTime t) (FormatTime u) = true.
Proof. intros Ht Hu Hlt. unfold String.ltb. by rewrite FormatTime_lt. Qed.

Lemma FormatTime_ltb_false t u :
  rfcRange t → rfcRange u → String.ltb (FormatTime t) (FormatTime u) = false → Unix u ≤ Unix t.
Proof.
  intros Ht Hu Hf. destruct (Z.le_gt_cases (Unix u) (Unix t)) as [|Hlt]; [done|].
  by rewrite (FormatTime_ltb t u) in Hf.
Qed.

#[export] Hint Rewrite Parse_FormatTime using done : go_rw.
