(* ===== verification/GoJson.v ===== *)
(** * encoding/json values

    What [json.Unmarshal] puts in an [any]: [nil], [bool], [float64], [string],
    [[]any] and [map[string]any].  Objects are finite maps, as in Go. *)
From S2P Require Import Prelude GoFloat.

#[warnings="-register-all"]
Inductive json : Type :=
| JNull
| JBool (b : bool)
| JNum (f : float64)
| JStr (s : string)
| JArr (l : list json)
| JObj (m : gmap string json).

(** [v, _ := j.(string)], [j.(bool)] on a map access: the zero value when the
    key is missing or the dynamic type differs. *)
Definition as_string (j : option json) : string :=
  match j with Some (JStr s) => s | _ => "" end.
Definition as_bool (j : option json) : bool :=
  match j with Some (JBool b) => b | _ => false end.

(** An object literal, for examples. *)
Definition obj (l : list (string * json)) : json := JObj (list_to_map l).

(** ** Induction on nested objects *)

Fixpoint json_depth (j : json) : nat :=
  match j with
  | JObj m => S (map_fold (λ _ v n, (json_depth v `max` n)%nat) O m)
  | _ => O
  end.

Lemma json_depth_member m k v : m !! k = Some v → (json_depth v < json_depth (JObj m))%nat.
Proof.
  cbn [json_depth]. intros Hk. apply Nat.lt_succ_r. revert k v Hk.
  apply (map_fold_weak_ind (λ n m, ∀ k v, m !! k = Some v → (json_depth v ≤ n)%nat)).
  - intros k v Hk. by rewrite lookup_empty in Hk.
  - intros i x m' r _ IH k v Hk.
    destruct (decide (i = k)) as [->|]; simplify_map_eq; [lia|].
    specialize (IH _ _ Hk). lia.
Qed.

(** Structural induction that reaches the members of an object. *)
Lemma json_obj_ind (P : json → Prop) :
  (∀ m, (∀ k v, m !! k = Some v → P v) → P (JObj m)) →
  (∀ j, (∀ m, j ≠ JObj m) → P j) →
  ∀ j, P j.
Proof.
  intros Hobj Hother j. induction j as [j IH] using (induction_ltof1 _ json_depth).
  destruct j as [| | | | |m]; try (apply Hother; discriminate).
  apply Hobj. intros k v Hk. apply IH. by eapply json_depth_member.
Qed.
