(* ===== verification/Domain.v ===== *)
(** * package domain

    The data types shared by the components ([src/internal/domain]).  Fields
    keep their Go names behind a prefix for the type.  A [time.Time] is its
    instant in nanoseconds, a pointer that may be [nil] an [option]. *)
From S2P Require Import Prelude GoFloat GoJson.

(** [http.Header]: canonical header names to their values. *)
Abbreviation Header := (gmap string (list string)).

(** [type EndpointType string]. *)
Definition EndpointType : Type := string.
Definition EndpointChat : EndpointType := "chat".
Definition EndpointEmbedding : EndpointType := "embedding".
Definition EndpointResponses : EndpointType := "responses".
Definition EndpointAll : EndpointType := "all".

Record ModelNode := {
  node_ID : string;
  node_Name : string;
  node_Aliases : list string;
  node_BaseURL : string;
  node_APIKey : string;
  node_ModelName : string;
  node_EndpointType : EndpointType;
  node_TPM : Z;
  node_RPM : Z;
  node_Override : gmap string json;
  node_TimeoutSec : Z;
  node_Enabled : bool;
  node_CreatedAt : Z;
  node_UpdatedAt : Z;
}.

Record RateLimitConfig := {
  rl_TPM : Z;
  rl_RPM : Z;
  rl_MaxRetries : Z;
}.

Record APIKey := {
  key_ID : string;
  key_Key : string;
  key_Name : string;
  key_Enabled : bool;
  key_TPM : Z;
  key_RPM : Z;
  key_AllowModels : list string;
  key_CreatedAt : Z;
  key_ExpiresAt : option Z;
}.

Record RateLimitStatus := {
  st_RPMCurrent : Z;
  st_RPMLimit : Z;
  st_TPMCurrent : Z;
  st_TPMLimit : Z;
  st_BlockReason : string;
}.

(** A Go [error]: what [errors.Is] finds in its chain, and [Error()]. *)
Inductive errKind := DeadlineExceeded | Canceled | OtherError.
Record error := mkError { err_Kind : errKind; err_Msg : string }.

Record AttemptLog := {
  at_Attempt : Z;
  at_NodeID : string;
  at_NodeName : string;
  at_DurationMs : Z;
  at_StatusCode : Z;
  at_ErrorType : string;
  at_Error : option error;
  at_PromptTokens : Z;
  at_CompletionTokens : Z;
}.

Record ExecutionResult := {
  ex_StatusCode : Z;
  ex_Body : string;
  ex_Headers : Header;
  ex_PromptTokens : Z;
  ex_CompletionTokens : Z;
  ex_TotalTokens : Z;
  ex_FinalNodeID : string;
  ex_Attempts : list AttemptLog;
  ex_ExecutionMs : Z;
  ex_Error : string;
  ex_ErrorType : string;
}.

Record RequestLog := {
  log_ID : string;
  log_SessionID : string;
  log_Timestamp : Z;
  log_APIKeyID : string;
  log_ModelAlias : string;
  log_NodeID : string;
  log_ActualModel : string;
  log_PromptTokens : Z;
  log_CompletionTokens : Z;
  log_TotalTokens : Z;
  log_DurationMs : Z;
  log_StatusCode : Z;
  log_Stream : bool;
  log_ErrorMsg : string;
  log_HasDetail : bool;
}.

Record DetailLog := {
  dl_TraceID : string;
  dl_SessionID : string;
  dl_Timestamp : Z;
  dl_RequestBody : string;
  dl_ResponseBody : string;
}.

Record LogFilter := {
  lf_APIKeyID : string;
  lf_ModelAlias : string;
  lf_NodeID : string;
  lf_SessionID : string;
  lf_StatusCode : Z;
  lf_ErrorOnly : bool;
  lf_Keyword : string;
  lf_StartTime : option Z;
  lf_EndTime : option Z;
  lf_Page : Z;
  lf_PageSize : Z;
}.

Record LogStats := {
  ls_TotalRequests : Z;
  ls_PromptTokens : Z;
  ls_CompletionTokens : Z;
  ls_TotalTokens : Z;
}.

Record TimeSeriesPoint := {
  tp_Timestamp : Z;
  tp_Requests : Z;
  tp_PromptTokens : Z;
  tp_CompletionTokens : Z;
  tp_TotalTokens : Z;
}.

Record TopEntity := {
  te_Name : string;
  te_Requests : Z;
  te_TotalTokens : Z;
  te_PromptTokens : Z;
  te_CompletionTokens : Z;
  te_AvgDurationMs : Z;
  te_AvgTokens : Z;
}.

(** ** Configuration *)

Record RedisConfig := { rd_Addr : string; rd_Password : string; rd_DB : Z }.
Record RabbitMQConfig := { rq_URL : string }.
Record CacheConfig := { cc_Type : string; cc_Redis : RedisConfig }.
Record MQConfig := { mq_Type : string; mq_Redis : RedisConfig; mq_RabbitMQ : RabbitMQConfig }.

Record ServerConfig := {
  sv_Addr : string;
  sv_CORSOrigins : list string;
  sv_AdminToken : string;
  sv_MaxMemoryMB : Z;
}.

Record LoggingConfig := {
  lg_BasicMaxRows : Z;
  lg_BasicMaxDays : Z;
  lg_BasicMaxSizeMB : Z;
  lg_DetailMaxRows : Z;
  lg_DetailMaxDays : Z;
  lg_DetailMaxSizeMB : Z;
  lg_BufferSize : Z;
  lg_FlushIntervalMs : Z;
}.

Record QueueConfig := { qc_DefaultPriority : Z; qc_MaxQueueSize : Z }.

Record WorkerConfig := {
  wk_PoolSize : Z;
  wk_MaxRetryAttempts : Z;
  wk_RetryDelayMs : Z;
  wk_MaxWaitTimeSec : Z;
}.

Record AppConfig := {
  ac_Server : ServerConfig;
  ac_RateLimit : RateLimitConfig;
  ac_Logging : LoggingConfig;
  ac_Cache : CacheConfig;
  ac_MQ : MQConfig;
  ac_Queue : QueueConfig;
  ac_Worker : WorkerConfig;
  ac_Providers : gmap string ModelNode;
  ac_APIKeys : gmap string APIKey;
}.

#[global] Instance errKind_eq_dec : EqDecision errKind.
Proof. solve_decision. Defined.
#[global] Instance error_eq_dec : EqDecision error.
Proof. solve_decision. Defined.
#[global] Instance RateLimitConfig_eq_dec : EqDecision RateLimitConfig.
Proof. solve_decision. Defined.
#[global] Instance RateLimitStatus_eq_dec : EqDecision RateLimitStatus.
Proof. solve_decision. Defined.
