(* ===== verification/GoHttp.v ===== *)
(** * net/http, bufio and unicode/utf8 as the program uses them

    Header maps with canonical keys, the server's [ResponseWriter], the line
    scanner, and counting the runes of a byte string. *)
From S2P Require Import Prelude GoStd GoFloat GoJson Domain.
From Stdlib Require Import Ascii.

(** ** Header *)

Definition isLower (c : ascii) : bool := (97 <=? nat_of_ascii c)%nat && (nat_of_ascii c <=? 122)%nat.
Definition isUpper (c : ascii) : bool := (65 <=? nat_of_ascii c)%nat && (nat_of_ascii c <=? 90)%nat.
Definition isDigit (c : ascii) : bool := (48 <=? nat_of_ascii c)%nat && (nat_of_ascii c <=? 57)%nat.
Definition toLower (c : ascii) : ascii := if isUpper c then ascii_of_nat (nat_of_ascii c + 32) else c.
Definition toUpper (c : ascii) : ascii := if isLower c then ascii_of_nat (nat_of_ascii c - 32) else c.

(** The bytes of a header field name (RFC 7230 token). *)
Definition isToken (c : ascii) : bool :=
  isLower c || isUpper c || isDigit c ||
  existsb (Ascii.eqb c) (String.list_ascii_of_string "!#$%&'*+-.^_`|~").

Fixpoint canonLoop (upper : bool) (s : string) : string :=
  match s with
  | "" => ""
  | String c s => String (if upper then toUpper c else toLower c) (canonLoop (Ascii.eqb c "-") s)
  end.

(** [CanonicalHeaderKey]: unchanged when a byte is not a token byte. *)
Definition CanonicalHeaderKey (s : string) : string :=
  if forallb isToken (String.list_ascii_of_string s) then canonLoop true s else s.

Definition hdrGet (h : Header) (key : string) : string :=
  match h !! CanonicalHeaderKey key with Some (v :: _) => v | _ => "" end.
Definition hdrSet (key v : string) (h : Header) : Header := <[CanonicalHeaderKey key := [v]]> h.
Definition hdrAdd (key v : string) (h : Header) : Header :=
  <[CanonicalHeaderKey key := default [] (h !! CanonicalHeaderKey key) ++ [v]]> h.

(** [for key, vals := range src { for _, v := range vals { dst.Add(key, v) } }]. *)
Definition hdrAddAll (src dst : Header) : Header :=
  map_fold (λ key vals dst, fold_left (λ dst v, hdrAdd key v dst) vals dst) dst src.

(** The headers of a request the server has read: canonical names, each with a
    value. *)
Definition headerOk (h : Header) : Prop := map_Forall (λ k vals, CanonicalHeaderKey k = k ∧ vals ≠ []) h.

Lemma hdrAdd_all key vals h :
  CanonicalHeaderKey key = key → vals ≠ [] →
  fold_left (λ dst v, hdrAdd key v dst) vals h = <[key := default [] (h !! key) ++ vals]> h.
Proof.
  intros Hk. revert h. induction vals as [|v vals IH]; intros h Hne; [done|]. simpl.
  unfold hdrAdd at 2. rewrite Hk. destruct vals as [|v' vals]; [done|].
  rewrite IH by done. rewrite lookup_insert_eq, insert_insert_eq. simpl. by rewrite <-app_assoc.
Qed.

(** Copying all headers of a request into an empty header copies it. *)
Lemma hdrAddAll_empty h : headerOk h → hdrAddAll h ∅ = h.
Proof.
  unfold hdrAddAll. apply (map_fold_weak_ind (λ r m, headerOk m → r = m)); [done|].
  intros key vals m r Hm IH Hok. apply map_Forall_insert in Hok as [[Hk Hv] Hok]; [|done].
  rewrite hdrAdd_all by done. rewrite (IH Hok), Hm. done.
Qed.

(** [for k, v := range src { dst[k] = v }]. *)
Definition hdrCopy (src dst : Header) : Header := src ∪ dst.

(** ** ResponseWriter *)

(** What [http.ResponseWriter] offers.  [Write] reports an error when the
    connection is gone. *)
Class Writer (W : Type) := {
  wHeader : W → Header;
  wSetHeader : Header → W → W;
  wWriteHeader : Z → W → W;
  wWrite : string → W → W * option error;
}.

(** The writer of the server: the live header map, the status line and headers
    once sent, the body sent so far, and the number of [Write] calls that still
    succeed before the connection breaks ([None]: it does not). *)
Record ResponseWriter := mkRW {
  rw_header : Header;
  rw_sent : option (Z * Header);
  rw_body : string;
  rw_quota : option nat;
}.

Definition newRW : ResponseWriter := mkRW ∅ None "" None.

(** A second [WriteHeader] is ignored ("superfluous response.WriteHeader call"). *)
Definition rwWriteHeader (code : Z) (w : ResponseWriter) : ResponseWriter :=
  match rw_sent w with
  | Some _ => w
  | None => mkRW (rw_header w) (Some (code, rw_header w)) (rw_body w) (rw_quota w)
  end.

Definition brokenPipe : error := mkError OtherError "write: broken pipe".

Definition rwWrite (b : string) (w : ResponseWriter) : ResponseWriter * option error :=
  let w := rwWriteHeader 200 w in
  match rw_quota w with
  | None => (mkRW (rw_header w) (rw_sent w) (rw_body w +:+ b) None, None)
  | Some (S n) => (mkRW (rw_header w) (rw_sent w) (rw_body w +:+ b) (Some n), None)
  | Some O => (w, Some brokenPipe)
  end.

#[global] Instance rw_Writer : Writer ResponseWriter := {|
  wHeader := rw_header;
  wSetHeader h w := mkRW h (rw_sent w) (rw_body w) (rw_quota w);
  wWriteHeader := rwWriteHeader;
  wWrite := rwWrite;
|}.

(** A predicate that every operation of a writer preserves. *)
Definition writer_stable {W} `{Writer W} (P : W → Prop) : Prop :=
  (∀ h w, P w → P (wSetHeader h w)) ∧ (∀ c w, P w → P (wWriteHeader c w)) ∧
  (∀ b w, P w → P (wWrite b w).1).

(** What the client of a server response sees. *)
Definition response (w : ResponseWriter) : option (Z * Header) * string := (rw_sent w, rw_body w).

Lemma rwWriteHeader_sent code w : is_Some (rw_sent (rwWriteHeader code w)).
Proof. unfold rwWriteHeader. destruct (rw_sent w) eqn:E; simpl; rewrite ?E; eauto. Qed.

Lemma rwWriteHeader_keep code w x : rw_sent w = Some x → rwWriteHeader code w = w.
Proof. unfold rwWriteHeader. by intros ->. Qed.

Lemma sent_stable x : writer_stable (λ w, rw_sent w = Some x).
Proof.
  split_and!; simpl.
  - done.
  - intros c w E. by rewrite (rwWriteHeader_keep c w x).
  - intros b w E. unfold rwWrite. rewrite (rwWriteHeader_keep 200 w x) by done.
    destruct (rw_quota w) as [[|n]|]; done.
Qed.

(** ** bufio.Scanner with ScanLines *)

Definition newline : ascii := "010"%char.
Definition nl : string := String newline "".
Definition errTooLong : error := mkError OtherError "bufio.Scanner: token too long".

(** A carriage return at the end of a line is dropped. *)
Fixpoint dropCR (s : string) : string :=
  match s with
  | "" => ""
  | String "013"%char "" => ""
  | String c s => String c (dropCR s)
  end.

(** The raw lines of a text: the last one is missing when it is empty. *)
Definition rawLines (s : string) : list string :=
  let pieces := Split s newline in
  match last pieces with
  | Some "" => removelast pieces
  | _ => pieces
  end.

(** The tokens [Scan] delivers and what [Err] reports at the end: a line of
    [max] bytes or more stops the scan; a read error is reported after the
    data read before it has been delivered. *)
Fixpoint scanTokens (max : Z) (lines : list string) (readErr : option error)
    : list string * option error :=
  match lines with
  | [] => ([], readErr)
  | l :: lines =>
      if Z.of_nat (String.length l) <? max
      then let '(toks, e) := scanTokens max lines readErr in (dropCR l :: toks, e)
      else ([], Some errTooLong)
  end.

Definition scanLines (max : Z) (body : string) (readErr : option error)
    : list string * option error :=
  scanTokens max (rawLines body) readErr.

(** *** What a relay of the lines makes of a text *)

Definition unlines (ls : list string) : string := foldr String.app "" ((λ l, l +:+ nl) <$> ls).

(** The text with a newline at its end, unless it is empty or has one. *)
Fixpoint terminated (s : string) : string :=
  match s with
  | "" => ""
  | String c "" => if Ascii.eqb c newline then nl else String c nl
  | String c s => String c (terminated s)
  end.

Definition carriageReturn : ascii := "013"%char.

Lemma Split_cons s sep : ∃ w ws, Split s sep = w :: ws.
Proof.
  destruct s as [|c s]; simpl; [by eexists _, _|]. destruct (Ascii.eqb c sep); [by eexists _, _|].
  destruct (Split s sep); by eexists _, _.
Qed.

Lemma rawLines_newline s : rawLines (String newline s) = "" :: rawLines s.
Proof.
  unfold rawLines. simpl. destruct (Split_cons s newline) as (w & ws & ->). rewrite last_cons_cons.
  destruct (last (w :: ws)) as [[|c l]|] eqn:E; [done..|]. by apply last_None in E.
Qed.

Lemma rawLines_char c s :
  Ascii.eqb c newline = false →
  rawLines (String c s) = match rawLines s with [] => [String c ""] | w :: ws => String c w :: ws end.
Proof.
  intros Hc. unfold rawLines. simpl. rewrite Hc. destruct (Split_cons s newline) as (w & ws & ->).
  destruct ws as [|w' ws]; [by destruct w|]. rewrite !last_cons_cons.
  destruct (last (w' :: ws)) as [[|a l]|]; done.
Qed.

Lemma rawLines_nonempty s : s ≠ "" → rawLines s ≠ [].
Proof.
  destruct s as [|c s]; [done|]. intros _. destruct (Ascii.eqb c newline) eqn:E.
  - apply Ascii.eqb_eq in E as ->. by rewrite rawLines_newline.
  - rewrite (rawLines_char _ _ E). by destruct (rawLines s).
Qed.

Lemma unlines_rawLines s : unlines (rawLines s) = terminated s.
Proof.
  induction s as [|c s IH]; [done|]. destruct (Ascii.eqb c newline) eqn:E.
  - apply Ascii.eqb_eq in E as ->. rewrite rawLines_newline. destruct s as [|c' s]; [done|].
    exact (f_equal (String newline) IH).
  - rewrite (rawLines_char _ _ E). destruct s as [|c' s]; [cbn; by rewrite E|].
    pose proof (rawLines_nonempty (String c' s) ltac:(done)) as Hne. destruct (rawLines (String c' s)) as [|w ws]; [done|].
    exact (f_equal (String c) IH).
Qed.

Lemma rawLines_free c s : free_of c s = true → Forall (λ l, free_of c l = true) (rawLines s).
Proof.
  induction s as [|a s IH]; [constructor|]. cbn [free_of]. intros [Ha Hs]%andb_true_iff. specialize (IH Hs).
  destruct (Ascii.eqb a newline) eqn:E.
  - apply Ascii.eqb_eq in E as ->. rewrite rawLines_newline. by constructor.
  - rewrite (rawLines_char _ _ E). destruct (rawLines s) as [|w ws].
    + apply Forall_singleton. cbn [free_of]. by rewrite Ha.
    + apply Forall_cons in IH as [Hw Hws]. apply Forall_cons. split; [|done]. cbn [free_of]. by rewrite Ha.
Qed.

Lemma dropCR_free s : free_of carriageReturn s = true → dropCR s = s.
Proof.
  induction s as [|c s IH]; [done|]. cbn [free_of]. intros [Hc Hs]%andb_true_iff. specialize (IH Hs).
  assert (c ≠ carriageReturn) as Hne by (intros ->; by rewrite Ascii.eqb_refl in Hc).
  transitivity (String c (dropCR s)); [|by rewrite IH].
  destruct c as [[] [] [] [] [] [] [] []]; try done; by destruct s.
Qed.

Lemma scanTokens_all max ls toks : scanTokens max ls None = (toks, None) → toks = dropCR <$> ls.
Proof.
  revert toks. induction ls as [|l ls IH]; intros toks; simpl; [by intros [= <-]|].
  destruct (_ <? max); [|done]. destruct (scanTokens max ls None) as [ts e].
  intros [= <- ->]. by rewrite (IH ts eq_refl).
Qed.

(** Without carriage returns the relayed lines are the text, up to a newline at
    its end. *)
Lemma unlines_scanLines max body ls :
  scanLines max body None = (ls, None) → free_of carriageReturn body = true → unlines ls = terminated body.
Proof.
  intros ->%scanTokens_all Hf. rewrite <-unlines_rawLines. f_equal.
  pose proof (rawLines_free _ _ Hf) as Hl. induction Hl as [|l ls Hl _ IH]; [done|].
  by rewrite fmap_cons, IH, (dropCR_free _ Hl).
Qed.

(** ** Runes *)

Definition byte_in (lo hi : nat) (c : ascii) : bool :=
  (lo <=? nat_of_ascii c)%nat && (nat_of_ascii c <=? hi)%nat.
Definition cont : ascii → bool := byte_in 128 191.

(** The continuation bytes a first byte asks for. *)
Definition follow (c : ascii) : list (ascii → bool) :=
  let n := nat_of_ascii c in
  if byte_in 194 223 c then [cont]
  else if (n =? 224)%nat then [byte_in 160 191; cont]
  else if (n =? 237)%nat then [byte_in 128 159; cont]
  else if byte_in 225 239 c then [cont; cont]
  else if (n =? 240)%nat then [byte_in 144 191; cont; cont]
  else if byte_in 241 243 c then [cont; cont; cont]
  else if (n =? 244)%nat then [byte_in 128 143; cont; cont]
  else [].

Fixpoint matches (fs : list (ascii → bool)) (s : string) : bool :=
  match fs, s with
  | [], _ => true
  | f :: fs, String c s => f c && matches fs s
  | _ :: _, "" => false
  end.

(** [len([]rune(s))]: [skip] counts the bytes of the current rune still to
    pass; a byte that starts no valid encoding is a rune of its own. *)
Fixpoint runeLoop (skip : nat) (s : string) : Z :=
  match s with
  | "" => 0
  | String c s =>
      match skip with
      | S skip => runeLoop skip s
      | O => 1 + runeLoop (if matches (follow c) s then length (follow c) else 0) s
      end
  end.

Definition RuneCount (s : string) : Z := runeLoop 0 s.

(** ** JSON strings *)

Definition hexDigit (n : nat) : ascii := ascii_of_nat (if (n <? 10)%nat then 48 + n else 87 + n).

(** A byte below 128 in a string that [encoding/json] writes (with HTML
    escaping, the default of [json.Encoder]). *)
Definition jsonByte (c : ascii) : string :=
  let n := nat_of_ascii c in
  let u := "\u00" +:+ String (hexDigit (n / 16)) (String (hexDigit (n mod 16)) "") in
  if (n =? 34)%nat || (n =? 92)%nat then "\" +:+ String c ""
  else if (n =? 8)%nat then "\b" else if (n =? 9)%nat then "\t" else if (n =? 10)%nat then "\n"
  else if (n =? 12)%nat then "\f" else if (n =? 13)%nat then "\r"
  else if (n <? 32)%nat || (n =? 60)%nat || (n =? 62)%nat || (n =? 38)%nat then u
  else String c "".

(** The body of a JSON string: a valid multi-byte rune is copied ([copy] bytes
    are still to come) unless it is U+2028 or U+2029, an invalid byte becomes
    the replacement character. *)
Fixpoint jsonEscape (copy : nat) (s : string) : string :=
  match s with
  | "" => ""
  | String c s =>
      match copy with
      | S copy => String c (jsonEscape copy s)
      | O =>
          if (nat_of_ascii c <? 128)%nat then jsonByte c +:+ jsonEscape 0 s
          else if match follow c with [] => true | _ => false end || negb (matches (follow c) s)
          then "\ufffd" +:+ jsonEscape 0 s
          else match c, s with
               | "226"%char, String "128"%char (String "168"%char s) => "\u2028" +:+ jsonEscape 0 s
               | "226"%char, String "128"%char (String "169"%char s) => "\u2029" +:+ jsonEscape 0 s
               | _, _ => String c (jsonEscape (length (follow c)) s)
               end
      end
  end.

Definition jsonString (s : string) : string :=
  String "034"%char (jsonEscape 0 s +:+ String "034"%char "").

Lemma runeLoop_bounds skip s : 0 ≤ runeLoop skip s ≤ Z.of_nat (String.length s).
Proof.
  revert skip. induction s as [|c s IH]; intros skip; cbn [runeLoop String.length]; [lia|].
  destruct skip as [|skip]; [|specialize (IH skip); lia].
  specialize (IH (if matches (follow c) s then length (follow c) else 0%nat)). lia.
Qed.

Lemma RuneCount_zero s : RuneCount s = 0 ↔ s = "".
Proof.
  split; [|by intros ->]. destruct s as [|c s]; [done|]. unfold RuneCount. cbn [runeLoop].
  pose proof (runeLoop_bounds (if matches (follow c) s then length (follow c) else 0%nat) s). lia.
Qed.
