(* ===== verification/RequestQueue.v ===== *)
(** * package queue: the priority queue of pending requests

    [src/internal/queue/priority_queue.go].  Every method of [RequestQueue]
    runs under one mutex, so a history of the queue is a sequence of method
    calls; [DequeueBlocking] releases the mutex only while it waits on the
    condition variable, which happens with an empty heap: the call is then
    [Blocked] and starts over when it is woken.

    A request's [Context], [ResponseWriter] and [ResultChan] are handles; which
    contexts are done is an argument ([ctxErr]) of the operations that look. *)
From S2P Require Import Prelude GoStd GoFloat GoJson GoHeap Domain.

Module Queue.

Record PendingRequest := {
  req_ID : string;
  req_SessionID : string;
  req_RequestID : string;
  req_Priority : Z;
  req_APIKeyID : string;
  req_ModelAlias : string;
  req_EndpointType : EndpointType;
  req_Timestamp : Z;
  req_BodyBytes : string;
  req_Headers : Header;
  req_Method : string;
  req_Path : string;
  req_RemoteAddr : string;
  req_ResponseWriter : nat;
  req_ResultChan : nat;
  req_Context : nat;
  req_QueueWaitMs : Z;
  req_ExecutionMs : Z;
  req_RatelimitRetries : Z;
}.

(** [priorityHeap.Less] on two elements. *)
Definition Less (a b : PendingRequest) : bool :=
  if req_Priority a =? req_Priority b
  then Before (req_Timestamp a) (req_Timestamp b)
  else req_Priority b <? req_Priority a.

Record RequestQueue := mkQueue {
  q_heap : list PendingRequest;
  q_max : Z;
  q_closed : bool;
}.

Definition NewRequestQueue (maxSize : Z) : RequestQueue :=
  mkQueue (Init Less []) maxSize false.

Definition Close (q : RequestQueue) : RequestQueue :=
  mkQueue (q_heap q) (q_max q) true.

Definition Length (q : RequestQueue) : Z := Z.of_nat (length (q_heap q)).

(** The test of the position loop in [Enqueue]. *)
Definition aheadOf (req r : PendingRequest) : bool :=
  (req_Priority req <? req_Priority r) ||
  ((req_Priority r =? req_Priority req) && Before (req_Timestamp r) (req_Timestamp req)).

Fixpoint positionLoop (req : PendingRequest) (h : list PendingRequest) (position : Z) : Z :=
  match h with
  | [] => position
  | r :: h => positionLoop req h (if aheadOf req r then position + 1 else position)
  end.

Definition Enqueue (q : RequestQueue) (req : PendingRequest) : RequestQueue * (Z * Z) :=
  if q_closed q || ((0 <? q_max q) && (q_max q <=? Length q)) then (q, (-1, -1))
  else
    let h := Push Less (q_heap q) req in
    let q' := mkQueue h (q_max q) (q_closed q) in
    (q', (positionLoop req h 0, Length q')).

(** What a call of [DequeueBlocking] does next. *)
Inductive DequeueOutcome :=
| Blocked
| Returned (item : option PendingRequest).

(** The outer loop: [fuel] bounds the number of cancelled requests skipped. *)
Fixpoint dequeueLoop (ctxErr : nat → bool) (closed : bool) (fuel : nat)
    (h : list PendingRequest) : list PendingRequest * DequeueOutcome :=
  match h with
  | [] => ([], if closed then Returned None else Blocked)
  | _ =>
      match fuel, Pop Less h with
      | S fuel, Some (item, h') =>
          if ctxErr (req_Context item) then dequeueLoop ctxErr closed fuel h'
          else (h', Returned (Some item))
      | _, _ => (h, Blocked)
      end
  end.

Definition DequeueBlocking (ctxErr : nat → bool) (q : RequestQueue)
    : RequestQueue * DequeueOutcome :=
  let '(h, o) := dequeueLoop ctxErr (q_closed q) (length (q_heap q)) (q_heap q) in
  (mkQueue h (q_max q) (q_closed q), o).

(** The index of the first request with the given ID. *)
Fixpoint findID (requestID : string) (h : list PendingRequest) (i : nat) : option nat :=
  match h with
  | [] => None
  | r :: h => if bool_decide (req_ID r = requestID) then Some i else findID requestID h (S i)
  end.

Definition Remove (q : RequestQueue) (requestID modelAlias : string) : RequestQueue * Z :=
  match findID requestID (q_heap q) 0 with
  | Some i =>
      match GoHeap.Remove Less (q_heap q) i with
      | Some (_, h) => (mkQueue h (q_max q) (q_closed q), Z.of_nat i)
      | None => (q, -1)
      end
  | None => (q, -1)
  end.

(** ** Order *)

#[global] Instance Less_swo : StrictWeakOrder Less.
Proof.
  unfold Less, Before. split; intros *;
    repeat match goal with |- context [?a =? ?b] => destruct (Z.eqb_spec a b) end;
    rewrite ?Z.ltb_lt, ?Z.ltb_ge, ?Z.ltb_irrefl; try done; lia.
Qed.

Lemma aheadOf_Less req r : aheadOf req r = Less r req.
Proof.
  unfold aheadOf, Less. destruct (Z.eqb_spec (req_Priority r) (req_Priority req)) as [E|E].
  - rewrite E, Z.ltb_irrefl. done.
  - by rewrite andb_false_l, orb_false_r.
Qed.

(** ** Invariant *)

Definition queue_ok (q : RequestQueue) : Prop :=
  is_heap Less (q_heap q) ∧ (0 < q_max q → Length q ≤ q_max q).

Definition live (ctxErr : nat → bool) (r : PendingRequest) : bool :=
  negb (ctxErr (req_Context r)).

Lemma dequeueLoop_spec ctxErr closed fuel h :
  is_heap Less h → (length h ≤ fuel)%nat →
  ∃ dropped,
    let '(h', o) := dequeueLoop ctxErr closed fuel h in
    is_heap Less h' ∧ Forall (λ r, live ctxErr r = false) dropped ∧
    match o with
    | Returned (Some r) =>
        h ≡ₚ r :: dropped ++ h' ∧ live ctxErr r = true ∧ Forall (before Less r) h'
    | Returned None => h ≡ₚ dropped ∧ h' = [] ∧ closed = true
    | Blocked => h ≡ₚ dropped ∧ h' = [] ∧ closed = false
    end.
Proof.
  revert h. induction fuel as [|fuel IH]; intros h Hh Hlen.
  { destruct h; [|simpl in Hlen; lia]. exists []. simpl. by destruct closed. }
  destruct (decide (h = [])) as [->|Hne].
  { exists []. simpl. by destruct closed. }
  destruct (Pop_spec Less h Hh Hne) as (x & h' & HPop & Hp & Hh' & Hbest).
  assert (length h = S (length h')) as Hl by (by rewrite Hp).
  assert (dequeueLoop ctxErr closed (S fuel) h =
    if ctxErr (req_Context x) then dequeueLoop ctxErr closed fuel h'
    else (h', Returned (Some x))) as ->.
  { destruct h as [|y t]; [done|]. cbn [dequeueLoop]. by rewrite HPop. }
  destruct (ctxErr (req_Context x)) eqn:Ec.
  - destruct (IH h' Hh' ltac:(lia)) as (dr & Hrec). exists (x :: dr).
    destruct (dequeueLoop ctxErr closed fuel h') as [h'' o].
    destruct Hrec as (Hh'' & Hdr & Ho). split_and!; [done| |].
    { constructor; [|done]. unfold live. by rewrite Ec. }
    destruct o as [|[r|]].
    + destruct Ho as (Hperm & ? & ?). split_and!; [by rewrite Hp, Hperm|done..].
    + destruct Ho as (Hperm & ? & ?). split_and!; [|done..].
      rewrite Hp, Hperm. solve_Permutation.
    + destruct Ho as (Hperm & ? & ?). split_and!; [by rewrite Hp, Hperm|done..].
  - exists []. split_and!; [done|constructor|done| |done]. unfold live. by rewrite Ec.
Qed.

Lemma positionLoop_count req h p :
  positionLoop req h p = p + Z.of_nat (length (filter (λ r, Less r req = true) h)).
Proof.
  revert p. induction h as [|r h IH]; intros p; simpl; [lia|].
  rewrite IH, aheadOf_Less, filter_cons. destruct (Less r req); case_decide; simpl; try done; lia.
Qed.

Lemma findID_spec id h i j :
  findID id h i = Some j →
  ∃ r, (i ≤ j)%nat ∧ h !! (j - i)%nat = Some r ∧ req_ID r = id ∧
       ∀ k r', (k < j - i)%nat → h !! k = Some r' → req_ID r' ≠ id.
Proof.
  revert i. induction h as [|r h IH]; intros i; simpl; [done|].
  destruct (bool_decide (req_ID r = id)) eqn:E; bools.
  - intros [= <-]. exists r. rewrite Nat.sub_diag. split_and!; [done..|lia].
  - intros (r0 & Hle & Hl & Hid & Hmin)%IH. exists r0.
    replace (j - i)%nat with (S (j - S i)) by lia. split_and!; [lia|done..|].
    intros [|k] r' Hk Hr'; simplify_eq/=; [done|]. eapply (Hmin k); [lia|done].
Qed.

Lemma findID_None id h i : findID id h i = None → Forall (λ r, req_ID r ≠ id) h.
Proof.
  revert i. induction h as [|r h IH]; intros i; simpl; [constructor|].
  destruct (bool_decide (req_ID r = id)) eqn:E; bools; [done|]. constructor; eauto.
Qed.

(** ** Behaviour of the calls *)

(** [r] is served no later than [x]: higher priority, or the same priority and
    not enqueued after it. *)
Definition served_before (r x : PendingRequest) : Prop :=
  req_Priority x < req_Priority r ∨
  (req_Priority x = req_Priority r ∧ req_Timestamp r ≤ req_Timestamp x).

#[global] Instance served_before_dec : RelDecision served_before.
Proof. intros r x. unfold served_before. apply _. Defined.

Lemma before_served r x : before Less r x ↔ served_before r x.
Proof.
  unfold before, Less, served_before, Before.
  destruct (Z.eqb_spec (req_Priority x) (req_Priority r));
    rewrite ?Z.ltb_ge; lia.
Qed.

Lemma Enqueue_spec q req :
  let '(q', (pos, len)) := Enqueue q req in
  q_max q' = q_max q ∧ q_closed q' = q_closed q ∧
  if q_closed q || ((0 <? q_max q) && (q_max q <=? Length q))
  then q' = q ∧ pos = -1 ∧ len = -1
  else q_heap q' ≡ₚ req :: q_heap q ∧ len = Length q + 1 ∧
       pos = Z.of_nat (length (filter (λ r, Less r req = true) (q_heap q))).
Proof.
  unfold Enqueue. destruct (q_closed q || _) eqn:E; [done|]. simpl.
  pose proof (Push_Permutation Less (q_heap q) req) as Hp.
  split_and!; [done|done|done| |].
  - unfold Length. simpl. rewrite Hp. simpl. lia.
  - rewrite positionLoop_count, Hp, filter_cons, decide_False; [done|].
    by rewrite swo_irrefl.
Qed.

Lemma Enqueue_ok q req : queue_ok q → queue_ok (Enqueue q req).1.
Proof.
  intros [Hh Hlen]. pose proof (Enqueue_spec q req) as H. unfold Enqueue in *.
  destruct (q_closed q || _) eqn:E; [done|]. simpl in *.
  destruct H as (_ & _ & Hp & Hl & _). split; [by apply (Push_ok Less)|].
  simpl. intros Hm. apply orb_false_iff in E as [_ E].
  apply andb_false_iff in E as [E|E]; bools; [lia|].
  unfold Length in *. simpl in *. lia.
Qed.

Lemma Dequeue_ok ctxErr q : queue_ok q → queue_ok (DequeueBlocking ctxErr q).1.
Proof.
  intros [Hh Hlen]. unfold DequeueBlocking.
  destruct (dequeueLoop_spec ctxErr (q_closed q) (length (q_heap q)) (q_heap q) Hh)
    as (dr & H); [done|].
  destruct (dequeueLoop _ _ _ _) as [h' o]. destruct H as (Hh' & _ & Ho).
  split; [done|]. unfold Length in *; simpl. intros Hm. specialize (Hlen Hm).
  enough (length h' ≤ length (q_heap q))%nat by lia.
  destruct o as [|[r|]]; destruct Ho as (Hp & Hrest & _); try (subst h'; simpl; lia).
  rewrite Hp. simpl. rewrite length_app. lia.
Qed.

Lemma Remove_ok q id alias : queue_ok q → queue_ok (Remove q id alias).1.
Proof.
  intros [Hh Hlen]. unfold Remove. destruct (findID id (q_heap q) 0) as [i|] eqn:E; [|done].
  apply findID_spec in E as (r & _ & Hr & _ & _). rewrite Nat.sub_0_r in Hr.
  destruct (Remove_spec Less (q_heap q) i r Hh Hr) as (h' & -> & Hp & Hh').
  split; [done|]. unfold Length in *; simpl. rewrite Hp in Hlen. simpl in Hlen.
  intros Hm. specialize (Hlen Hm). lia.
Qed.

(** A history of the queue: calls from any goroutine, in the order in which
    they took the mutex. *)
Inductive qcall :=
| CallEnqueue (req : PendingRequest)
| CallDequeue (ctxErr : nat → bool)
| CallRemove (id alias : string)
| CallClose.

Definition qexec (q : RequestQueue) (c : qcall) : RequestQueue :=
  match c with
  | CallEnqueue req => (Enqueue q req).1
  | CallDequeue ctxErr => (DequeueBlocking ctxErr q).1
  | CallRemove id alias => (Remove q id alias).1
  | CallClose => Close q
  end.

Definition qstep (q q' : RequestQueue) : Prop := ∃ c, q' = qexec q c.

Lemma qexec_ok q c : queue_ok q → queue_ok (qexec q c).
Proof.
  destruct c; simpl; auto using Enqueue_ok, Dequeue_ok, Remove_ok.
Qed.

Lemma NewRequestQueue_ok n : queue_ok (NewRequestQueue n).
Proof. split; [apply is_heap_nil|]. unfold Length. simpl. lia. Qed.

#[export] Hint Resolve Enqueue_ok Dequeue_ok Remove_ok qexec_ok NewRequestQueue_ok : go_db.

(** The results of [n] successive dequeues, up to the first that finds nothing. *)
Fixpoint drain (ctxErr : nat → bool) (n : nat) (q : RequestQueue) : list PendingRequest :=
  match n with
  | O => []
  | S n =>
      match DequeueBlocking ctxErr q with
      | (q', Returned (Some r)) => r :: drain ctxErr n q'
      | _ => []
      end
  end.

Lemma Dequeue_live ctxErr q :
  queue_ok q →
  let L := filter (λ r, live ctxErr r = true) in
  match DequeueBlocking ctxErr q with
  | (q', Returned (Some r)) =>
      L (q_heap q) ≡ₚ r :: L (q_heap q') ∧ Forall (before Less r) (L (q_heap q')) ∧
      queue_ok q' ∧ q_closed q' = q_closed q
  | (q', o) => L (q_heap q) = [] ∧ q_heap q' = [] ∧
      o = (if q_closed q then Returned None else Blocked)
  end.
Proof.
  intros Hok L. pose proof (Dequeue_ok ctxErr q Hok) as Hok'. destruct Hok as [Hh _].
  unfold DequeueBlocking in *.
  destruct (dequeueLoop_spec ctxErr (q_closed q) (length (q_heap q)) (q_heap q) Hh)
    as (dr & H); [done|].
  destruct (dequeueLoop _ _ _ _) as [h' o]. destruct H as (_ & Hdr & Ho).
  apply filter_none in Hdr.
  destruct o as [|[r|]]; destruct Ho as (Hp & H1 & H2); simpl in *.
  - split_and!; [|done|by rewrite H2]. apply Permutation_nil_r. unfold L. by rewrite Hp, Hdr.
  - split_and!; [|by apply Forall_filter_keep|done|done].
    unfold L. rewrite Hp, filter_cons, decide_True, filter_app, Hdr by done. done.
  - split_and!; [|done|by rewrite H2]. apply Permutation_nil_r. unfold L. by rewrite Hp, Hdr.
Qed.

Lemma drain_spec ctxErr n q :
  queue_ok q → (length (filter (λ r, live ctxErr r = true) (q_heap q)) ≤ n)%nat →
  drain ctxErr n q ≡ₚ filter (λ r, live ctxErr r = true) (q_heap q) ∧
  StronglySorted served_before (drain ctxErr n q).
Proof.
  revert q. induction n as [|n IH]; intros q Hok Hn; cbn [drain].
  { destruct (filter _ (q_heap q)); [|simpl in Hn; lia]. split; constructor. }
  pose proof (Dequeue_live ctxErr q Hok) as H.
  destruct (DequeueBlocking ctxErr q) as [q' [|[r|]]].
  1,3: destruct H as (-> & _); split; constructor.
  destruct H as (Hp & Hbest & Hok' & _). rewrite Hp in Hn. simpl in Hn.
  destruct (IH q' Hok' ltac:(lia)) as [Hd Hs]. split; [by rewrite Hd, Hp|].
  constructor; [done|]. rewrite Hd.
  eapply Forall_impl; [exact Hbest|]. intros x. apply before_served.
Qed.

(** ** Properties *)

(** C9. In every history of calls from an empty queue, by any goroutines and in
    any order, the slice stays a heap for the priority order and, when a
    maximum is configured, never holds more requests than that. *)
Theorem queue_reachable_ok (maxSize : Z) (q : RequestQueue) :
  rtc qstep (NewRequestQueue maxSize) q → queue_ok q.
Proof.
  intros H. assert (queue_ok (NewRequestQueue maxSize)) as H0 by auto with go_db.
  revert H0. induction H as [|q1 q2 q3 [c ->] _ IH]; auto with go_db.
Qed.

(** [DequeueBlocking] returns a request whose context is not done and that
    is served before every request left in the queue (higher priority, oldest
    first within a priority); it removes only that request and requests whose
    context is done. *)
Theorem dequeue_best (ctxErr : nat → bool) (q q' : RequestQueue) (r : PendingRequest) :
  queue_ok q → DequeueBlocking ctxErr q = (q', Returned (Some r)) →
  live ctxErr r = true ∧ Forall (served_before r) (q_heap q') ∧ queue_ok q' ∧
  ∃ dropped, q_heap q ≡ₚ r :: dropped ++ q_heap q' ∧
             Forall (λ d, live ctxErr d = false) dropped.
Proof.
  intros Hok Hd. pose proof (Dequeue_ok ctxErr q Hok) as Hok'. rewrite Hd in Hok'.
  destruct Hok as [Hh _]. unfold DequeueBlocking in Hd.
  destruct (dequeueLoop_spec ctxErr (q_closed q) _ (q_heap q) Hh (le_n _)) as (dr & H).
  destruct (dequeueLoop _ _ _ _) as [h' o]. simplify_eq.
  destruct H as (_ & Hdr & Hp & Hlive & Hbest). split_and!; [done| |done|eauto].
  eapply Forall_impl; [exact Hbest|]. intros x. apply before_served.
Qed.

(** [DequeueBlocking] always comes to one of its three outcomes for the
    right reason: it returns a request exactly when some queued request is
    live, otherwise it empties the heap and returns [nil] if the queue is
    closed, or waits if it is not. *)
Theorem dequeue_outcome (ctxErr : nat → bool) (q : RequestQueue) :
  queue_ok q →
  (∃ q' r, DequeueBlocking ctxErr q = (q', Returned (Some r)) ∧
           Exists (λ x, live ctxErr x = true) (q_heap q)) ∨
  (DequeueBlocking ctxErr q =
     (mkQueue [] (q_max q) (q_closed q), if q_closed q then Returned None else Blocked) ∧
   Forall (λ x, live ctxErr x = false) (q_heap q)).
Proof.
  intros Hok. pose proof (Dequeue_live ctxErr q Hok) as H.
  destruct (DequeueBlocking ctxErr q) as [q' [|[r|]]] eqn:E.
  2:{ left. exists q', r. split; [done|]. destruct H as (Hp & _).
      assert (r ∈ filter (λ r, live ctxErr r = true) (q_heap q)) as [Hl Hr]%list_elem_of_filter
        by (rewrite Hp; set_solver).
      apply Exists_exists. eauto. }
  all: right; destruct H as (Hnone & Hh & Ho);
    unfold DequeueBlocking in E; destruct (dequeueLoop _ _ _ _) as [h o]; simplify_eq/=;
    (split; [by rewrite Ho at 1|]);
    apply Forall_forall; intros x Hx; destruct (live ctxErr x) eqn:El; [|done];
    assert (x ∈ filter (λ r, live ctxErr r = true) (q_heap q)) as Hin
      by (apply list_elem_of_filter; done);
    rewrite Hnone in Hin; set_solver.
Qed.

(** C8. Draining the queue serves exactly the requests whose context is not
    done, by decreasing priority and, within a priority, in the order of their
    timestamps. *)
Theorem drain_sorted (ctxErr : nat → bool) (q : RequestQueue) :
  queue_ok q →
  drain ctxErr (length (q_heap q)) q ≡ₚ filter (λ r, live ctxErr r = true) (q_heap q) ∧
  StronglySorted served_before (drain ctxErr (length (q_heap q)) q).
Proof.
  intros Hok. apply drain_spec; [done|]. apply length_filter.
Qed.

(** [Enqueue] refuses, with [(-1, -1)] and no change, exactly when the queue
    is closed or a configured maximum is reached; otherwise it adds the request
    and nothing else, reports the new length, and the position it reports is the
    number of queued requests that are ahead of the new one in the serving
    order. *)
Theorem enqueue_spec (q : RequestQueue) (req : PendingRequest) :
  let full := q_closed q = true ∨ (0 < q_max q ∧ q_max q ≤ Length q) in
  (full → Enqueue q req = (q, (-1, -1))) ∧
  (¬ full → ∃ q' pos,
     Enqueue q req = (q', (pos, Length q + 1)) ∧
     q_heap q' ≡ₚ req :: q_heap q ∧ q_max q' = q_max q ∧ q_closed q' = false ∧
     pos = Z.of_nat (length (filter (λ r, ¬ served_before req r) (q_heap q))) ∧
     0 ≤ pos < Length q').
Proof.
  intros full. pose proof (Enqueue_spec q req) as H.
  destruct (Enqueue q req) as [q' [pos len]]. destruct H as (Hmax & Hcl & H).
  assert (full ↔ q_closed q || ((0 <? q_max q) && (q_max q <=? Length q)) = true) as ->.
  { unfold full. by rewrite orb_true_iff, andb_true_iff, Z.ltb_lt, Z.leb_le. }
  destruct (q_closed q || _) eqn:E; (split; [intros Hf|intros Hf]); try done.
  - by destruct H as (-> & -> & ->).
  - destruct H as (Hp & -> & ->). bools. exists q'. eexists. split_and!; [done..|congruence| |lia|].
    + do 2 f_equal. apply list_filter_iff. intros r. rewrite <-before_served.
      unfold before. by rewrite not_false_iff_true.
    + unfold Length. rewrite Hp. simpl.
      pose proof (length_filter (λ r, Less r req = true) (q_heap q)). lia.
Qed.

(** [Remove] takes out exactly the first queued request with the given ID
    and returns its index in the slice; with no such request it returns [-1]
    and changes nothing. *)
Lemma remove_spec (q : RequestQueue) (id alias : string) :
  queue_ok q →
  (∃ i r q', Remove q id alias = (q', Z.of_nat i) ∧ q_heap q !! i = Some r ∧ req_ID r = id ∧
     (∀ k x, (k < i)%nat → q_heap q !! k = Some x → req_ID x ≠ id) ∧
     q_heap q ≡ₚ r :: q_heap q' ∧ queue_ok q') ∨
  (Remove q id alias = (q, -1) ∧ Forall (λ x, req_ID x ≠ id) (q_heap q)).
Proof.
  intros Hok. pose proof (Remove_ok q id alias Hok) as Hok'. unfold Remove in *.
  destruct (findID id (q_heap q) 0) as [i|] eqn:E.
  - apply findID_spec in E as (r & _ & Hr & Hid & Hmin). rewrite Nat.sub_0_r in *.
    destruct Hok as [Hh _].
    destruct (Remove_spec Less (q_heap q) i r Hh Hr) as (h' & HR & Hp & _).
    rewrite HR in *. left. do 3 eexists. eauto 10.
  - right. eauto using findID_None.
Qed.

(** ** Examples and witnesses *)

Definition mkReq (id : string) (prio ts : Z) (ctx : nat) : PendingRequest :=
  {| req_ID := id; req_SessionID := ""; req_RequestID := id; req_Priority := prio;
     req_APIKeyID := "k"; req_ModelAlias := "m"; req_EndpointType := EndpointChat;
     req_Timestamp := ts; req_BodyBytes := ""; req_Headers := ∅; req_Method := "POST";
     req_Path := "/"; req_RemoteAddr := ""; req_ResponseWriter := ctx;
     req_ResultChan := ctx; req_Context := ctx; req_QueueWaitMs := 0;
     req_ExecutionMs := 0; req_RatelimitRetries := 0 |}.

Definition demo_queue : RequestQueue :=
  fold_left (λ q r, (Enqueue q r).1)
    [mkReq "a" 0 10 0; mkReq "b" 5 11 1; mkReq "c" 5 9 2; mkReq "d" 1 1 3]
    (NewRequestQueue 4).

Definition ctx2_done (c : nat) : bool := bool_decide (c = 2)%nat.

Lemma demo_queue_reachable : rtc qstep (NewRequestQueue 4) demo_queue.
Proof.
  unfold demo_queue. cbn [fold_left].
  do 4 (eapply rtc_l; [by eexists (CallEnqueue _)|]). apply rtc_refl.
Qed.

Lemma demo_queue_ok : queue_ok demo_queue.
Proof.
  unfold demo_queue. cbn [fold_left]. auto 10 with go_db.
Qed.

Lemma queue_reachable_ok_witness : queue_ok demo_queue ∧ Length demo_queue = 4.
Proof.
  split; [apply (queue_reachable_ok 4); apply demo_queue_reachable|reflexivity].
Defined.

Lemma dequeue_best_witness :
  ∃ q', DequeueBlocking ctx2_done demo_queue = (q', Returned (Some (mkReq "b" 5 11 1))) ∧
        Forall (served_before (mkReq "b" 5 11 1)) (q_heap q').
Proof.
  eexists. split; [vm_compute; reflexivity|].
  apply (dequeue_best ctx2_done demo_queue); [apply demo_queue_ok|vm_compute; reflexivity].
Defined.

Lemma dequeue_outcome_witness :
  (∃ q' r, DequeueBlocking (λ _, true) demo_queue = (q', Returned (Some r)) ∧
           Exists (λ x, live (λ _, true) x = true) (q_heap demo_queue)) ∨
  (DequeueBlocking (λ _, true) demo_queue = (mkQueue [] 4 false, Blocked) ∧
   Forall (λ x, live (λ _, true) x = false) (q_heap demo_queue)).
Proof. apply (dequeue_outcome (λ _, true) demo_queue). apply demo_queue_ok. Defined.

Lemma drain_sorted_witness :
  req_ID <$> drain (λ _, false) 4 demo_queue = ["c"; "b"; "d"; "a"] ∧
  StronglySorted served_before (drain (λ _, false) 4 demo_queue).
Proof.
  split; [vm_compute; reflexivity|].
  apply (drain_sorted (λ _, false) demo_queue). apply demo_queue_ok.
Defined.

Lemma enqueue_spec_witness :
  Enqueue demo_queue (mkReq "e" 9 0 4) = (demo_queue, (-1, -1)).
Proof. apply (enqueue_spec demo_queue). right. by vm_compute. Defined.

End Queue.
