(* ===== verification/Cache.v ===== *)
(** * storage.Cache: the interface between the rate limiter and its counters

    [src/internal/storage/interfaces.go].  A cache is a state with the four
    operations of the Go interface; each takes the instant at which it runs.
    [CounterCache] is what the rate limiter relies on: a view of the state as
    expiring 64-bit counters, and how the operations act on it.

    Code that uses a cache is a program over cache events ([prog]), so that the
    calls of concurrent goroutines can be interleaved event by event: the Go
    implementations make each operation atomic, not the limiter's sequences of
    operations. *)
From S2P Require Import Prelude GoStd GoFloat GoJson Domain.

(** The operations of [storage.Cache]. *)
Class Cache (S : Type) := {
  cGet : Z → string → S → option string;
  cSet : Z → string → string → Z → S → S * option error;
  cDelete : Z → string → S → S * option error;
  cIncrBy : Z → string → Z → Z → S → S * result error Z;
}.

(** [strconv.ParseInt] of a value read from the cache, [0] for a missing one. *)
Definition countOf (v : option string) : Z :=
  match v with Some s => (ParseInt s).1 | None => 0 end.

(** The contract of [IncrBy] and [Get] on counters: [counter t k s] is the value
    of the counter [k] at instant [t], [None] when there is none or it expired.
    "If the key does not exist it is created with value=delta and the given TTL.
    TTL is only applied on key creation." *)
Class CounterCache (S : Type) `{Cache S} := {
  counter : Z → string → S → option Z;
  counter_get t k s : countOf (cGet t k s) = default 0 (counter t k s);
  counter_expired t t' k s : t ≤ t' → counter t k s = None → counter t' k s = None;
  counter_incr_live t k d ttl s v s' r :
    counter t k s = Some v → cIncrBy t k d ttl s = (s', Ok r) →
    r = wrap64 (v + d) ∧
    ∀ t', counter t' k s' = (λ u, wrap64 (u + d)) <$> counter t' k s;
  counter_incr_new t k d ttl s s' r :
    0 < ttl → 0 ≤ t → in_int64 d →
    counter t k s = None → cIncrBy t k d ttl s = (s', Ok r) →
    r = d ∧ ∀ t', t ≤ t' → counter t' k s' = if t' <=? t + ttl then Some d else None;
  counter_incr_other t k d ttl s s' r k' t' :
    k ≠ k' → cIncrBy t k d ttl s = (s', Ok r) → counter t' k' s' = counter t' k' s;
  counter_incr_err t k d ttl s s' e k' t' :
    cIncrBy t k d ttl s = (s', Err e) → counter t' k' s' = counter t' k' s;
}.

(** ** Programs over cache events *)

Variant cacheE : Type → Type :=
| TimeNow : cacheE Z
| EvGet (key : string) : cacheE (option string)
| EvSet (key value : string) (ttl : Z) : cacheE (option error)
| EvIncrBy (key : string) (delta ttl : Z) : cacheE (result error Z).

Inductive prog (R : Type) : Type :=
| Ret (r : R)
| Vis {X : Type} (e : cacheE X) (k : X → prog R).
Arguments Ret {R} r.
Arguments Vis {R X} e k.

Fixpoint pbind {A B} (p : prog A) (f : A → prog B) : prog B :=
  match p with
  | Ret a => f a
  | Vis e k => Vis e (λ x, pbind (k x) f)
  end.

Notation "x <-- e ;; k" := (Vis e (λ x, k))
  (at level 100, e at next level, right associativity) : go_scope.

Section semantics.
Context {S : Type} `{Cache S}.

(** One event at instant [t]. *)
Definition handle {X} (t : Z) (e : cacheE X) : S → X * S :=
  match e in cacheE X return S → X * S with
  | TimeNow => λ s, (t, s)
  | EvGet k => λ s, (cGet t k s, s)
  | EvSet k v ttl => λ s, let '(s', r) := cSet t k v ttl s in (r, s')
  | EvIncrBy k d ttl => λ s, let '(s', r) := cIncrBy t k d ttl s in (r, s')
  end.

(** A call that runs alone: its [i]-th event happens at [clk i]. *)
Fixpoint run {R} (clk : nat → Z) (i : nat) (p : prog R) (s : S) : R * S :=
  match p with
  | Ret r => (r, s)
  | Vis e k => let '(x, s') := handle (clk i) e s in run clk (1 + i)%nat (k x) s'
  end.

(** The events a call used. *)
Fixpoint run_length {R} (clk : nat → Z) (i : nat) (p : prog R) (s : S) : nat :=
  match p with
  | Ret _ => i
  | Vis e k => let '(x, s') := handle (clk i) e s in run_length clk (1 + i)%nat (k x) s'
  end.

Lemma run_bind {A B} clk i (p : prog A) (f : A → prog B) s :
  run clk i (pbind p f) s =
  let '(a, s') := run clk i p s in run clk (run_length clk i p s) (f a) s'.
Proof.
  revert i s. induction p as [a|X e k IH]; intros i s; simpl; [done|].
  destruct (handle (clk i) e s) as [x s']. apply IH.
Qed.

End semantics.
