(* ===== verification/MemoryCache.v ===== *)
(** * package memory: the in-process cache

    [src/internal/storage/memory/cache.go].  The map is guarded by a mutex and
    each method is one critical section; the instant at which a method calls
    [time.Now] is its argument.  [Get] in fact releases the lock with the entry
    in hand and then reads the clock and the entry's value, which an [IncrBy] in
    between replaces in place: that is a data race, to which Go gives no
    meaning, and the model is of executions without it, where a [Get] that
    overlaps an increment of the same entry counts as before or after it.  The cleanup goroutine is the step [cleanup]. *)
From S2P Require Import Prelude GoStd GoFloat GoJson Domain Cache.

Module Mem.

Record cacheEntry := mkEntry { value : string; expireAt : Z }.

Definition expired (e : cacheEntry) (now : Z) : bool :=
  negb (IsZero (expireAt e)) && After now (expireAt e).

Record MemoryCache := mkCache { entries : gmap string cacheEntry; done_closed : bool }.

Definition NewMemoryCache : MemoryCache := mkCache ∅ false.

(** One tick of [cleanup]: delete the expired entries. *)
Definition cleanup (now : Z) (c : MemoryCache) : MemoryCache :=
  mkCache (filter (λ kv, expired kv.2 now = false) (entries c)) (done_closed c).

Definition Get (now : Z) (key : string) (c : MemoryCache) : option string :=
  match entries c !! key with
  | Some e => if expired e now then None else Some (value e)
  | None => None
  end.

Definition Set_ (now : Z) (key val : string) (ttl : Z) (c : MemoryCache)
    : MemoryCache * option error :=
  let entry := mkEntry val (if 0 <? ttl then now + ttl else zeroTime) in
  (mkCache (<[key := entry]> (entries c)) (done_closed c), None).

Definition Delete (now : Z) (key : string) (c : MemoryCache) : MemoryCache * option error :=
  (mkCache (delete key (entries c)) (done_closed c), None).

Definition IncrBy (now : Z) (key : string) (delta ttl : Z) (c : MemoryCache)
    : MemoryCache * result error Z :=
  let fresh :=
    let newEntry := mkEntry (FormatInt delta) (if 0 <? ttl then now + ttl else zeroTime) in
    (mkCache (<[key := newEntry]> (entries c)) (done_closed c), Ok delta) in
  match entries c !! key with
  | None => fresh
  | Some e =>
      if expired e now then fresh
      else
        let current := if (0 <? Z.of_nat (String.length (value e)))
                       then (ParseInt (value e)).1 else 0 in
        let current := wrap64 (current + delta) in
        (mkCache (<[key := mkEntry (FormatInt current) (expireAt e)]> (entries c))
           (done_closed c), Ok current)
  end.

(** [Close]: [close(c.done)] panics on the second call ([None]). *)
Definition Close (c : MemoryCache) : option MemoryCache :=
  if done_closed c then None else Some (mkCache (entries c) true).

#[global] Instance mem_Cache : Cache MemoryCache :=
  {| cGet := Get; cSet := Set_; cDelete := Delete; cIncrBy := IncrBy |}.

(** ** The counters of a memory cache *)

Definition mem_counter (t : Z) (k : string) (c : MemoryCache) : option Z :=
  match entries c !! k with
  | Some e => if expired e t then None else Some (ParseInt (value e)).1
  | None => None
  end.

Lemma expired_mono e t t' : t ≤ t' → expired e t = true → expired e t' = true.
Proof.
  unfold expired, After. intros Ht [Hz Ha]%andb_true_iff. rewrite Hz. simpl.
  apply Z.ltb_lt in Ha. apply Z.ltb_lt. lia.
Qed.

Lemma current_value s :
  (if 0 <? Z.of_nat (String.length s) then (ParseInt s).1 else 0) = (ParseInt s).1.
Proof. by destruct s. Qed.

Lemma fresh_expired v t ttl t' :
  0 < ttl → 0 ≤ t →
  expired (mkEntry v (if 0 <? ttl then t + ttl else zeroTime)) t' = negb (t' <=? t + ttl).
Proof.
  intros Httl Ht. rewrite (proj2 (Z.ltb_lt 0 ttl)) by done.
  unfold expired, IsZero, After. simpl.
  rewrite (proj2 (Z.eqb_neq _ _)) by (unfold zeroTime, Second, Millisecond; lia). simpl.
  by rewrite Z.leb_antisym, negb_involutive.
Qed.

#[global] Program Instance mem_CounterCache : CounterCache MemoryCache :=
  {| counter := mem_counter |}.
Next Obligation.
  intros t k s. unfold mem_counter, cGet, mem_Cache, Get.
  destruct (entries s !! k); [case_match|]; done.
Qed.
Next Obligation.
  intros t t' k s Ht. unfold mem_counter. destruct (entries s !! k) as [e|]; [|done].
  destruct (expired e t) eqn:E; [|done]. by rewrite (expired_mono _ _ _ Ht E).
Qed.
Next Obligation.
  intros t k d ttl s v s' r Hv Hi. unfold mem_counter, cIncrBy, mem_Cache, IncrBy in *.
  destruct (entries s !! k) as [e|] eqn:E; [|done]. destruct (expired e t) eqn:Ex; [done|].
  rewrite current_value in Hi. simplify_eq/=. split; [done|]. intros t'.
  rewrite lookup_insert_eq. change (expired (mkEntry _ (expireAt e)) t') with (expired e t').
  destruct (expired e t'); [done|]. simpl. f_equal.
  by rewrite ParseInt_FormatInt by auto with go_db.
Qed.
Next Obligation.
  intros t k d ttl s s' r Httl Ht Hd Hv Hi. unfold mem_counter, cIncrBy, mem_Cache, IncrBy in *.
  assert (s' = mkCache (<[k := mkEntry (FormatInt d) (if 0 <? ttl then t + ttl else zeroTime)]>
             (entries s)) (done_closed s) ∧ r = d) as [-> ->].
  { destruct (entries s !! k) as [e|]; [destruct (expired e t)|]; by simplify_eq. }
  split; [done|]. intros t' Ht'. simpl. rewrite lookup_insert_eq, fresh_expired by done.
  destruct (t' <=? t + ttl); [|done]. simpl. by rewrite ParseInt_FormatInt.
Qed.
Next Obligation.
  intros t k d ttl s s' r k' t' Hne Hi. unfold mem_counter, cIncrBy, mem_Cache, IncrBy in *.
  destruct (entries s !! k) as [e|]; [destruct (expired e t)|]; simplify_eq/=;
    by rewrite lookup_insert_ne.
Qed.
Next Obligation.
  intros t k d ttl s s' e k' t' Hi. unfold cIncrBy, mem_Cache, IncrBy in Hi.
  destruct (entries s !! k) as [e'|]; [destruct (expired e' t)|]; done.
Qed.

(** ** Caches that no later call can tell apart *)

Definition live_entry (t : Z) (k : string) (c : MemoryCache) : option cacheEntry :=
  match entries c !! k with
  | Some e => if expired e t then None else Some e
  | None => None
  end.

(** The same unexpired entries from instant [now] on. *)
Definition same_from (now : Z) (c1 c2 : MemoryCache) : Prop :=
  ∀ t k, now ≤ t → live_entry t k c1 = live_entry t k c2.

#[global] Instance same_from_equiv now : Equivalence (same_from now).
Proof.
  split.
  - by intros c t k Ht.
  - intros c1 c2 Hc t k Ht. by rewrite Hc.
  - intros c1 c2 c3 H1 H2 t k Ht. by rewrite H1, H2.
Qed.

Lemma same_from_later now now' c1 c2 : now ≤ now' → same_from now c1 c2 → same_from now' c1 c2.
Proof. intros Hn Hc t k Ht. apply Hc. lia. Qed.

(** The operations in terms of unexpired entries. *)
Lemma Get_live t k c : Get t k c = value <$> live_entry t k c.
Proof. unfold Get, live_entry. by repeat case_match. Qed.

Definition incr_entry (t delta ttl : Z) (e : option cacheEntry) : cacheEntry * Z :=
  match e with
  | None => (mkEntry (FormatInt delta) (if 0 <? ttl then t + ttl else zeroTime), delta)
  | Some e => let v := wrap64 ((ParseInt (value e)).1 + delta) in
              (mkEntry (FormatInt v) (expireAt e), v)
  end.

Lemma IncrBy_live t k d ttl c :
  IncrBy t k d ttl c =
  let '(e, v) := incr_entry t d ttl (live_entry t k c) in
  (mkCache (<[k := e]> (entries c)) (done_closed c), Ok v).
Proof.
  unfold IncrBy, incr_entry, live_entry. destruct (entries c !! k) as [e|]; [|done].
  destruct (expired e t); [done|]. by rewrite current_value.
Qed.

Lemma live_entry_insert t k k' e c b :
  live_entry t k' (mkCache (<[k := e]> (entries c)) b) =
  if decide (k = k') then (if expired e t then None else Some e) else live_entry t k' c.
Proof. unfold live_entry. simpl. rewrite lookup_insert. by case_decide. Qed.

Lemma live_entry_delete t k k' c b :
  live_entry t k' (mkCache (delete k (entries c)) b) =
  if decide (k = k') then None else live_entry t k' c.
Proof. unfold live_entry. simpl. rewrite lookup_delete. by case_decide. Qed.

#[global] Instance Get_proper t : Proper ((=) ==> same_from t ==> (=)) (Get t).
Proof. intros k ? <- c1 c2 Hc. rewrite !Get_live. by rewrite (Hc t k). Qed.

Lemma insert_same_from t k e c1 c2 b1 b2 :
  same_from t c1 c2 →
  same_from t (mkCache (<[k := e]> (entries c1)) b1) (mkCache (<[k := e]> (entries c2)) b2).
Proof. intros Hc u k' Hu. rewrite !live_entry_insert. case_decide; [done|]. by apply Hc. Qed.

(** The expired entries that [cleanup] deletes were already invisible. *)
Lemma cleanup_same now c : same_from now (cleanup now c) c.
Proof.
  intros t k Ht. unfold live_entry, cleanup. simpl.
  rewrite map_lookup_filter. destruct (entries c !! k) as [e|]; simpl; [|done].
  destruct (expired e now) eqn:E.
  - rewrite option_guard_False by (simpl; congruence).
    by rewrite (expired_mono e now t).
  - by rewrite option_guard_True.
Qed.

(** A history of calls on one cache, with the ticks of the cleanup goroutine. *)
Inductive mcall :=
| MGet (k : string)
| MSet (k v : string) (ttl : Z)
| MDelete (k : string)
| MIncrBy (k : string) (delta ttl : Z)
| MTick.

Inductive mresult :=
| RGet (v : option string)
| RUnit
| RIncr (r : result error Z).

Definition mexec (t : Z) (o : mcall) (c : MemoryCache) : MemoryCache * option mresult :=
  match o with
  | MGet k => (c, Some (RGet (Get t k c)))
  | MSet k v ttl => ((Set_ t k v ttl c).1, Some RUnit)
  | MDelete k => ((Delete t k c).1, Some RUnit)
  | MIncrBy k d ttl => let '(c', r) := IncrBy t k d ttl c in (c', Some (RIncr r))
  | MTick => (cleanup t c, None)
  end.

(** What the callers see. *)
Fixpoint mtrace (h : list (Z * mcall)) (c : MemoryCache) : list mresult :=
  match h with
  | [] => []
  | (t, o) :: h => let '(c', r) := mexec t o c in option_list r ++ mtrace h c'
  end.

Definition is_tick (o : mcall) : bool := match o with MTick => true | _ => false end.

Definition without_ticks (h : list (Z * mcall)) : list (Z * mcall) :=
  filter (λ to, is_tick to.2 = false) h.

Fixpoint nondecreasing (now : Z) (h : list (Z * mcall)) : Prop :=
  match h with
  | [] => True
  | (t, _) :: h => now ≤ t ∧ nondecreasing t h
  end.

Lemma mexec_same now t o c1 c2 :
  now ≤ t → same_from now c1 c2 → is_tick o = false →
  same_from t (mexec t o c1).1 (mexec t o c2).1 ∧ (mexec t o c1).2 = (mexec t o c2).2.
Proof.
  intros Ht Hc%(same_from_later _ _ _ _ Ht) Ho. destruct o as [k|k v ttl|k|k d ttl|]; simpl; [..|done].
  - split; [done|]. by rewrite Hc.
  - split; [by apply insert_same_from|done].
  - split; [|done]. intros u k' Hu. unfold Delete. simpl. rewrite !live_entry_delete.
    case_decide; [done|]. by apply Hc.
  - rewrite !IncrBy_live, (Hc t k) by lia. destruct (incr_entry _ _ _ _) as [e v].
    split; [by apply insert_same_from|done].
Qed.

Lemma mtrace_same now h c1 c2 :
  same_from now c1 c2 → nondecreasing now h → mtrace h c1 = mtrace (without_ticks h) c2.
Proof.
  revert now c1 c2. induction h as [|[t o] h IH]; intros now c1 c2 Hc Hn; [done|].
  destruct Hn as [Ht Hn]. unfold without_ticks. rewrite filter_cons. simpl.
  destruct (is_tick o) eqn:Eo.
  - rewrite decide_False by done. destruct o; try done. simpl.
    apply (IH t); [|done]. rewrite cleanup_same. by eapply same_from_later.
  - rewrite decide_True by done. simpl.
    destruct (mexec_same now t o c1 c2 Ht Hc Eo) as [Hc' Hr].
    destruct (mexec t o c1) as [c1' r1], (mexec t o c2) as [c2' r2]. simpl in *. subst.
    f_equal. by apply (IH t).
Qed.

(** A run of increments of one key. *)
Definition incr_all (k : string) (ttl : Z) (l : list (Z * Z)) (c : MemoryCache) : MemoryCache :=
  fold_left (λ c td, (IncrBy td.1 k td.2 ttl c).1) l c.

Definition sum_deltas (l : list (Z * Z)) : Z := foldr Z.add 0 (snd <$> l).

Lemma incr_all_live k ttl l c v x :
  entries c !! k = Some (mkEntry (FormatInt (wrap64 v)) x) →
  Forall (λ td, expired (mkEntry "" x) td.1 = false) l →
  entries (incr_all k ttl l c) !! k =
    Some (mkEntry (FormatInt (wrap64 (v + sum_deltas l))) x).
Proof.
  revert c v. induction l as [|[t d] l IH]; intros c v Hk Hl; simpl.
  { by rewrite Z.add_0_r. }
  apply Forall_cons in Hl as [Ht Hl].
  unfold sum_deltas. simpl. rewrite Z.add_assoc. apply IH; [|done].
  rewrite IncrBy_live. unfold live_entry. rewrite Hk.
  change (expired (mkEntry (FormatInt (wrap64 v)) x) t) with (expired (mkEntry "" x) t).
  simpl in Ht. rewrite Ht. simpl. rewrite lookup_insert_eq.
  rewrite ParseInt_FormatInt by auto with go_db. simpl. by rewrite wrap64_add_l.
Qed.

(** ** Properties *)

(** Counting: the increments of a key that was absent or expired add up
    (modulo 2^64, signed) as long as they fall within the TTL of the first one,
    and the counter then disappears at the instant the first increment fixed:
    later increments do not extend its life. *)
Theorem incr_sum (k : string) (ttl t0 d0 : Z) (l : list (Z * Z)) (c : MemoryCache) (t : Z) :
  0 < ttl → 0 ≤ t0 → in_int64 d0 → live_entry t0 k c = None →
  Forall (λ td, t0 ≤ td.1 ≤ t0 + ttl) l → t0 ≤ t →
  Get t k (incr_all k ttl ((t0, d0) :: l) c) =
    if t <=? t0 + ttl then Some (FormatInt (wrap64 (d0 + sum_deltas l))) else None.
Proof.
  intros Httl Ht0 Hd Hnone Hl Ht. unfold Get. simpl.
  rewrite (incr_all_live k ttl l _ d0 (if 0 <? ttl then t0 + ttl else zeroTime)).
  - rewrite fresh_expired by done. by destruct (t <=? t0 + ttl).
  - rewrite IncrBy_live, Hnone. simpl. by rewrite lookup_insert_eq, wrap64_id.
  - eapply Forall_impl; [exact Hl|]. intros [u d] Hu. simpl in *.
    rewrite fresh_expired by done. by rewrite (proj2 (Z.leb_le u _)) by lia.
Qed.

(** [Set] then [Get]: the value is there until the TTL has elapsed (for
    ever when the TTL is not positive), and the other keys are not affected. *)
Lemma set_get (t ttl t' : Z) (k v k' : string) (c : MemoryCache) :
  0 ≤ t → t ≤ t' →
  Get t' k' (Set_ t k v ttl c).1 =
    if decide (k = k')
    then (if (ttl <=? 0) || (t' <=? t + ttl) then Some v else None)
    else Get t' k' c.
Proof.
  intros Ht Ht'. rewrite !Get_live. unfold Set_. simpl. rewrite live_entry_insert.
  case_decide; [|done]. destruct (Z.leb_spec ttl 0) as [Hl|Hl]; simpl.
  - rewrite (proj2 (Z.ltb_ge 0 ttl)) by lia. done.
  - rewrite fresh_expired by lia. by destruct (t' <=? t + ttl).
Qed.

(** C39. The cleanup goroutine is unobservable: whenever its ticks happen, every
    [Get], [Set], [Delete] and [IncrBy] of a history returns what it would
    return in the same history without cleanup. *)
Theorem cleanup_unobservable (h : list (Z * mcall)) (c : MemoryCache) (now : Z) :
  nondecreasing now h → mtrace h c = mtrace (without_ticks h) c.
Proof. intros Hn. by apply (mtrace_same now). Qed.

(** ** Witnesses *)

Lemma incr_sum_witness :
  Get 30 "k" (incr_all "k" 61 [(10, 1); (20, 5); (71, -2)] NewMemoryCache) = Some "4" ∧
  Get 72 "k" (incr_all "k" 61 [(10, 1); (20, 5); (71, -2)] NewMemoryCache) = None.
Proof.
  split; (etrans; [apply (incr_sum "k" 61 10 1 [(20, 5); (71, -2)] NewMemoryCache);
    [lia|lia|unfold in_int64; lia|reflexivity|repeat constructor; simpl; lia|lia]
    |vm_compute; reflexivity]).
Defined.

Definition demo_history : list (Z * mcall) :=
  [(0, MIncrBy "k" 1 5); (1, MTick); (2, MIncrBy "k" 1 5); (9, MTick); (9, MGet "k")].

Lemma cleanup_unobservable_witness :
  mtrace demo_history NewMemoryCache = [RIncr (Ok 1); RIncr (Ok 2); RGet None] ∧
  mtrace demo_history NewMemoryCache = mtrace (without_ticks demo_history) NewMemoryCache.
Proof.
  split; [vm_compute; reflexivity|].
  apply (cleanup_unobservable demo_history NewMemoryCache 0). simpl. lia.
Defined.

End Mem.
