(* ===== verification/RateLimit.v ===== *)
(** * package ratelimit: the three-layer rate limiter

    [src/internal/ratelimit/limiter.go].  The methods are programs over the
    events of the cache they are given ([Cache.v]); [AllowRequest] reads the
    clock once and then talks to the cache, each call of [Get] and [IncrBy]
    being one event.  The limits a call reads ([l.global], the [modelLimits]
    map, the [keyLimits] callback) are those of the [Limiter] value it runs
    with: [UpdateModelLimits] and a callback that changes its answer give the
    next calls another value.  The [loggedLimits] set only silences a log line
    and is left out, with that line. *)
From S2P Require Import Prelude GoStd GoFloat GoJson Domain Cache.
From Stdlib Require Import Ascii.
#[local] Open Scope go_scope.
#[local] Open Scope Z_scope.

Module Limit.

Record Limiter := {
  l_global : RateLimitConfig;
  l_modelLimits : gmap string RateLimitConfig;
  l_keyLimits : option (string → option RateLimitConfig);
}.

(** [New]: a nil map becomes an empty one, which [∅] is here. *)
Definition New (global : RateLimitConfig) (modelLimits : option (gmap string RateLimitConfig))
    (keyLimits : option (string → option RateLimitConfig)) : Limiter :=
  {| l_global := global; l_modelLimits := default ∅ modelLimits; l_keyLimits := keyLimits |}.

Definition UpdateModelLimits (l : Limiter) (limits : gmap string RateLimitConfig) : Limiter :=
  {| l_global := l_global l; l_modelLimits := limits; l_keyLimits := l_keyLimits l |}.

Definition modelRPM (l : Limiter) (alias : string) : Z :=
  match l_modelLimits l !! alias with Some cfg => rl_RPM cfg | None => 0 end.
Definition modelTPM (l : Limiter) (alias : string) : Z :=
  match l_modelLimits l !! alias with Some cfg => rl_TPM cfg | None => 0 end.

Definition keyRPM (l : Limiter) (keyID : string) : Z :=
  match l_keyLimits l with
  | None => 0
  | Some f => match f keyID with None => 0 | Some cfg => rl_RPM cfg end
  end.
Definition keyTPM (l : Limiter) (keyID : string) : Z :=
  match l_keyLimits l with
  | None => 0
  | Some f => match f keyID with None => 0 | Some cfg => rl_TPM cfg end
  end.

Definition rpmKey (scope id : string) (ts : Z) : string :=
  if bool_decide (id = "") then "rl:rpm:" +:+ scope +:+ ":" +:+ FormatInt ts
  else "rl:rpm:" +:+ scope +:+ ":" +:+ id +:+ ":" +:+ FormatInt ts.

Definition tpmKey (scope id : string) (ts : Z) : string :=
  if bool_decide (id = "") then "rl:tpm:" +:+ scope +:+ ":" +:+ FormatInt ts
  else "rl:tpm:" +:+ scope +:+ ":" +:+ id +:+ ":" +:+ FormatInt ts.

(** [now.Unix() / 60]. *)
Definition window (now : Z) : Z := Z.quot (Unix now) 60.

Definition counterTTL : Z := 61 * Second.

(** A layer of the checks: scope, id, limit. *)
Definition layer : Type := string * string * Z.

Definition rpmLayers (l : Limiter) (keyID modelAlias : string) : list layer :=
  [("global", "", rl_RPM (l_global l));
   ("model", modelAlias, modelRPM l modelAlias);
   ("key", keyID, keyRPM l keyID)].

Definition tpmLayers (l : Limiter) (keyID modelAlias : string) : list layer :=
  [("global", "", rl_TPM (l_global l));
   ("model", modelAlias, modelTPM l modelAlias);
   ("key", keyID, keyTPM l keyID)].

Definition noStatus : RateLimitStatus :=
  {| st_RPMCurrent := 0; st_RPMLimit := 0; st_TPMCurrent := 0; st_TPMLimit := 0;
     st_BlockReason := "" |}.

(** The three values [AllowRequest] returns. *)
Definition Verdict : Type := bool * RateLimitStatus * option error.

Definition rpmBlocked (estimated : float64) (limit : Z) : Verdict :=
  (false, {| st_RPMCurrent := to_int estimated; st_RPMLimit := limit; st_TPMCurrent := 0;
             st_TPMLimit := 0; st_BlockReason := "limit_exceeded" |}, None).

Definition tpmBlocked (estimated : float64) (limit : Z) : Verdict :=
  (false, {| st_RPMCurrent := 0; st_RPMLimit := 0; st_TPMCurrent := to_int estimated;
             st_TPMLimit := limit; st_BlockReason := "limit_exceeded" |}, None).

Definition cacheError (e : error) : Verdict :=
  (false, {| st_RPMCurrent := 0; st_RPMLimit := 0; st_TPMCurrent := 0; st_TPMLimit := 0;
             st_BlockReason := "cache_error" |},
   Some (mkError (err_Kind e) ("ratelimit: rpm cache error: " +:+ err_Msg e))).

(** [float64(currCount) + float64(prevCount)*(1.0-weight)]. *)
Definition weightOf (now : Z) : float64 := fdiv (of_int (SecondOf now)) (of_int 60).
Definition estimate (weight : float64) (currCount prevCount : Z) : float64 :=
  fadd (of_int currCount) (fmul (of_int prevCount) (fsub (of_int 1) weight)).

(** [l.undo(ctx, keys)], then return [v]. *)
Fixpoint undo (keys : list string) (v : Verdict) : prog Verdict :=
  match keys with
  | [] => Ret v
  | k :: keys => _ <-- EvIncrBy k (-1) counterTTL ;; undo keys v
  end.

(** The TPM loop; [incremented] are the keys to undo. *)
Fixpoint checkTPM (layers : list layer) (ts : Z) (weight : float64)
    (incremented : list string) : prog Verdict :=
  match layers with
  | [] => Ret (true, noStatus, None)
  | (scope, id, limit) :: layers =>
      if limit <=? 0 then checkTPM layers ts weight incremented
      else
        curr <-- EvGet (tpmKey scope id ts) ;;
        prev <-- EvGet (tpmKey scope id (ts - 1)) ;;
        let estimated := estimate weight (countOf curr) (countOf prev) in
        if fge estimated (of_int limit)
        then undo incremented (tpmBlocked estimated limit)
        else checkTPM layers ts weight incremented
  end.

(** The RPM loop, followed by [k] with the keys it incremented. *)
Fixpoint checkRPM (layers : list layer) (ts : Z) (weight : float64)
    (incremented : list string) (k : list string → prog Verdict) : prog Verdict :=
  match layers with
  | [] => k incremented
  | (scope, id, limit) :: layers =>
      if limit <=? 0 then checkRPM layers ts weight incremented k
      else
        prev <-- EvGet (rpmKey scope id (ts - 1)) ;;
        r <-- EvIncrBy (rpmKey scope id ts) 1 counterTTL ;;
        match r with
        | Err e => undo incremented (cacheError e)
        | Ok currCount =>
            let incremented := incremented ++ [rpmKey scope id ts] in
            let estimated := estimate weight currCount (countOf prev) in
            if fgt estimated (of_int limit)
            then undo incremented (rpmBlocked estimated limit)
            else checkRPM layers ts weight incremented k
        end
  end.

Definition unlimited (l : Limiter) (keyID modelAlias : string) : bool :=
  (rl_RPM (l_global l) <=? 0) && (rl_TPM (l_global l) <=? 0) &&
  (modelRPM l modelAlias <=? 0) && (modelTPM l modelAlias <=? 0) &&
  (keyRPM l keyID <=? 0) && (keyTPM l keyID <=? 0).

Definition AllowRequest (l : Limiter) (keyID modelAlias : string) : prog Verdict :=
  if unlimited l keyID modelAlias then Ret (true, noStatus, None)
  else
    now <-- TimeNow ;;
    let ts := window now in
    let weight := weightOf now in
    checkRPM (rpmLayers l keyID modelAlias) ts weight []
      (λ incremented, checkTPM (tpmLayers l keyID modelAlias) ts weight incremented).

(** The counters [RecordTokens] adds to. *)
Definition tokenKeys (keyID modelAlias : string) (ts : Z) : list string :=
  [tpmKey "global" "" ts; tpmKey "model" modelAlias ts; tpmKey "key" keyID ts].

Fixpoint recordLoop (keys : list string) (delta : Z) : prog (option error) :=
  match keys with
  | [] => Ret None
  | k :: keys =>
      r <-- EvIncrBy k delta counterTTL ;;
      match r with
      | Err e => Ret (Some (mkError (err_Kind e) ("ratelimit: record tokens: " +:+ err_Msg e)))
      | Ok _ => recordLoop keys delta
      end
  end.

Definition RecordTokens (keyID modelAlias : string) (actualTokens : Z) : prog (option error) :=
  if actualTokens <=? 0 then Ret None
  else
    now <-- TimeNow ;;
    recordLoop (tokenKeys keyID modelAlias (window now)) actualTokens.

(** [Check]: a write, then a read of the probe key. *)
Definition Check (tt : unit) : prog (option error) :=
  r <-- EvSet "health:probe" "1" (10 * Second) ;;
  match r with
  | Some e => Ret (Some (mkError (err_Kind e) ("cache write: " +:+ err_Msg e)))
  | None =>
      v <-- EvGet "health:probe" ;;
      match v with
      | None => Ret (Some (mkError OtherError "cache read: wrote but could not read back"))
      | Some _ => Ret None
      end
  end.

(** ** Counter names *)

Definition scopes : list string := ["global"; "model"; "key"].

(** The part of a key after the scope. *)
Definition keyTail (id : string) (ts : Z) : string :=
  if bool_decide (id = "") then FormatInt ts else id +:+ String ":" (FormatInt ts).

Lemma rpmKey_tail scope id ts :
  rpmKey scope id ts = "rl:rpm:" +:+ scope +:+ String ":" (keyTail id ts).
Proof. unfold rpmKey, keyTail. by case_bool_decide. Qed.

Lemma tpmKey_tail scope id ts :
  tpmKey scope id ts = "rl:tpm:" +:+ scope +:+ String ":" (keyTail id ts).
Proof. unfold tpmKey, keyTail. by case_bool_decide. Qed.

Lemma keyTail_inj id id' ts ts' : keyTail id ts = keyTail id' ts' → id = id' ∧ ts = ts'.
Proof.
  assert (∀ z, free_of ":" (FormatInt z) = true) as Hf by (intros; by apply FormatInt_free).
  unfold keyTail. intros E. repeat case_bool_decide; subst.
  - by apply (inj FormatInt) in E.
  - exfalso. specialize (Hf ts). rewrite E, free_of_app, free_of_sep, andb_false_r in Hf. done.
  - exfalso. specialize (Hf ts'). rewrite <-E, free_of_app, free_of_sep, andb_false_r in Hf. done.
  - apply last_field_inj in E as [-> E%(inj FormatInt)]; auto.
Qed.

Lemma scope_tail_inj pre scope scope' id id' ts ts' :
  scope ∈ scopes → scope' ∈ scopes →
  pre +:+ scope +:+ String ":" (keyTail id ts) = pre +:+ scope' +:+ String ":" (keyTail id' ts') →
  scope = scope' ∧ id = id' ∧ ts = ts'.
Proof.
  intros Hs Hs' E%(inj (String.app pre)).
  assert (∀ sc, sc ∈ scopes → free_of ":" sc = true) as Hf.
  { unfold scopes. intros sc Hsc. set_unfold in Hsc. by destruct_or!; subst. }
  apply first_field_inj in E as [-> [-> ->]%keyTail_inj]; auto.
Qed.

Lemma rpmKey_inj scope scope' id id' ts ts' :
  scope ∈ scopes → scope' ∈ scopes → rpmKey scope id ts = rpmKey scope' id' ts' →
  scope = scope' ∧ id = id' ∧ ts = ts'.
Proof. rewrite !rpmKey_tail. apply scope_tail_inj. Qed.

Lemma tpmKey_inj scope scope' id id' ts ts' :
  scope ∈ scopes → scope' ∈ scopes → tpmKey scope id ts = tpmKey scope' id' ts' →
  scope = scope' ∧ id = id' ∧ ts = ts'.
Proof. rewrite !tpmKey_tail. apply scope_tail_inj. Qed.

Lemma rpmKey_tpmKey scope scope' id id' ts ts' : rpmKey scope id ts ≠ tpmKey scope' id' ts'.
Proof. rewrite rpmKey_tail, tpmKey_tail. discriminate. Qed.

(** ** The estimate *)

Definition positive64 (f : float64) : bool :=
  match f with SpecFloat.S754_finite false m _ => Z.pos m <? 2 ^ 53 | _ => false end.

(** [1.0 - weight] is a positive number for each of the 60 seconds. *)
Lemma weights_positive :
  forallb (λ n, positive64 (fsub (of_int 1) (fdiv (of_int (Z.of_nat n)) (of_int 60))))
    (seq 0 60) = true.
Proof. vm_compute. reflexivity. Qed.

Lemma weight_positive now : positive64 (fsub (of_int 1) (weightOf now)) = true.
Proof.
  pose proof (Z.mod_pos_bound (Unix now) 60 ltac:(lia)) as Hs.
  pose proof weights_positive as Hall. rewrite forallb_forall in Hall.
  unfold weightOf, SecondOf.
  specialize (Hall (Z.to_nat (Unix now mod 60))). rewrite Z2Nat.id in Hall by lia.
  apply Hall. apply in_seq. lia.
Qed.

Lemma positive64_nonneg f : positive64 f = true → nonneg f ∧ finite f = true.
Proof.
  destruct f as [| | |[] m e]; try done. simpl. intros Hm%Z.ltb_lt.
  split; [|done]. split; [by apply vge_nonpos|lia].
Qed.

(** Rounding included, the estimate is never below the current count. *)
Lemma estimate_at_least now curr prev :
  0 ≤ curr < 2 ^ 53 → 0 ≤ prev → at_least (estimate (weightOf now) curr prev) curr.
Proof.
  intros Hc Hp. apply fadd_at_least; [done|].
  destruct (positive64_nonneg _ (weight_positive now)) as [H1 H2].
  apply fmul_nonneg; [by apply of_int_nonneg|done|]. by destruct (fsub _ _).
Qed.

Lemma estimate_over now curr prev limit :
  0 ≤ curr < 2 ^ 53 → 0 ≤ prev → 0 ≤ limit < 2 ^ 53 → limit < curr →
  fgt (estimate (weightOf now) curr prev) (of_int limit) = true.
Proof. intros. eapply fgt_at_least; eauto using estimate_at_least. Qed.

(** With nothing in the previous window the estimate is the exact count. *)
Lemma estimate_zero now curr : 0 ≤ curr < 2 ^ 53 → estimate (weightOf now) curr 0 = of_int curr.
Proof.
  intros Hc. unfold estimate. rewrite of_int_0.
  destruct (positive64_nonneg _ (weight_positive now)) as [H1 H2].
  destruct (fsub (of_int 1) (weightOf now)) as [| | |[] m e] eqn:E; try done.
  by apply fadd_zero_r.
Qed.

End Limit.
