(* ===== verification/RateLimitSafety.v ===== *)
(** * Concurrent callers of the rate limiter

    Any number of goroutines call [AllowRequest] on one limiter; their cache
    events interleave in any order, at instants that do not go back, together
    with whatever else touches the cache without changing the RPM counters
    ([RecordTokens], [Check], the cleanup goroutine).  A call is assumed to be
    over within one second of reading the clock, so that a counter created in a
    window (61 s of TTL) outlives every call of that window.

    The development follows the ghost state of each call: the counters it has
    incremented and not undone, and whether every check so far succeeded. *)
From S2P Require Import Prelude GoStd GoFloat GoJson Domain Cache MemoryCache RateLimit.
Import Limit.

(** The limit that applies to a scope and an id. *)
Definition rpmLimit (l : Limiter) (scope id : string) : Z :=
  if bool_decide (scope = "global") then rl_RPM (l_global l)
  else if bool_decide (scope = "model") then modelRPM l id
  else keyRPM l id.

Definition is_rpm (k : string) : Prop :=
  ∃ scope id ts, scope ∈ scopes ∧ k = rpmKey scope id ts.

(** ** One call *)

Section call.
Context (l : Limiter) (keyID modelAlias : string) (w : Z).

(** Every limited layer of the request has been counted. *)
Definition all_counted (H : list string) : Prop :=
  ∀ scope id limit, (scope, id, limit) ∈ rpmLayers l keyID modelAlias → 0 < limit →
    rpmKey scope id w ∈ H.

(** What an event of a call may do, given the counters [H] it holds and
    whether its checks have all succeeded; [rec] describes the rest. *)
Definition conf_event (H : list string) (ok : bool) {X} (e : cacheE X)
    : (X → list string → bool → Prop) → Prop :=
  match e in cacheE X return (X → list string → bool → Prop) → Prop with
  | TimeNow => λ _, False
  | EvSet _ _ _ => λ _, False
  | EvGet key => λ rec,
      ∀ o, (is_rpm key → 0 ≤ countOf o) → ∃ ok', (ok' = true → ok = true) ∧ rec o H ok'
  | EvIncrBy key d ttl => λ rec,
      ttl = counterTTL ∧ (∀ e, rec (Err e) H false) ∧
      ((d = 1 ∧ ok = true ∧ (key ∉ H) ∧
        (∃ scope id, scope ∈ scopes ∧ key = rpmKey scope id w ∧
          (∀ v, 0 ≤ v < 2 ^ 53 →
             ∃ ok', (ok' = true → v ≤ rpmLimit l scope id) ∧ rec (Ok v) (key :: H) ok'))) ∨
       (d = -1 ∧ ok = false ∧ key ∈ H ∧
        ∀ v, rec (Ok v) (filter (λ x, x ≠ key) H) false))
  end.

Fixpoint conf (p : prog Verdict) (H : list string) (ok : bool) {struct p} : Prop :=
  match p with
  | Ret (allowed, _, _) => allowed = true → ok = true ∧ all_counted H
  | Vis e k => conf_event H ok e (λ x, conf (k x))
  end.

Lemma conf_undo keys H st err :
  NoDup keys → (∀ k, k ∈ keys → k ∈ H) → conf (undo keys (false, st, err)) H false.
Proof.
  revert H. induction keys as [|k keys IH]; intros H Hnd Hin; [done|].
  apply NoDup_cons in Hnd as [Hk Hnd]. simpl. split_and!; [done| |right; split_and!].
  - intros e. apply IH; set_solver.
  - done.
  - done.
  - set_solver.
  - intros v. apply IH; [done|]. intros k' Hk'. apply list_elem_of_filter. set_solver.
Qed.

Lemma conf_checkTPM layers now ts inc H :
  NoDup inc → (∀ k, k ∈ inc → k ∈ H) → all_counted H →
  conf (checkTPM layers ts (weightOf now) inc) H true.
Proof.
  intros Hnd Hin Hall. induction layers as [|[[scope id] limit] layers IH]; [done|].
  cbn [checkTPM]. destruct (limit <=? 0); [done|]. simpl.
  intros curr _. exists true. split; [done|]. intros prev _.
  destruct (fge _ _); [|by exists true].
  exists false. split; [done|]. by apply conf_undo.
Qed.

(** The layers [done_] have been dealt with: [inc] lists the counters held. *)
Definition layers_done (done_ : list layer) (inc H : list string) : Prop :=
  NoDup inc ∧ (∀ x, x ∈ inc ↔ x ∈ H) ∧
  (∀ x, x ∈ H → ∃ scope id limit, (scope, id, limit) ∈ done_ ∧ x = rpmKey scope id w) ∧
  (∀ scope id limit, (scope, id, limit) ∈ done_ → 0 < limit → rpmKey scope id w ∈ H).

Lemma layers_done_skip done_ inc H scope id limit :
  layers_done done_ inc H → limit ≤ 0 → layers_done (done_ ++ [(scope, id, limit)]) inc H.
Proof.
  intros (Hnd & Hin & Hsrc & Hcov) Hle. split_and!; [done..| |].
  - intros x (sc & i & lm & ? & ->)%Hsrc. exists sc, i, lm. set_solver.
  - intros sc i lm [?|Heq%list_elem_of_singleton]%elem_of_app ?; [by eapply Hcov|].
    simplify_eq. lia.
Qed.

Lemma layers_done_count done_ inc H scope id limit :
  layers_done done_ inc H → rpmKey scope id w ∉ H →
  layers_done (done_ ++ [(scope, id, limit)]) (inc ++ [rpmKey scope id w])
    (rpmKey scope id w :: H).
Proof.
  intros (Hnd & Hin & Hsrc & Hcov) Hnew. split_and!.
  - apply NoDup_app. split_and!; [done| |apply NoDup_singleton].
    intros x Hx. rewrite Hin in Hx. set_solver.
  - intros x. rewrite elem_of_app, Hin. set_solver.
  - intros x [->|(sc & i & lm & ? & ->)%Hsrc]%elem_of_cons.
    + exists scope, id, limit. set_solver.
    + exists sc, i, lm. set_solver.
  - intros sc i lm [?|Heq%list_elem_of_singleton]%elem_of_app ?.
    + apply elem_of_cons. right. by eapply Hcov.
    + simplify_eq. set_solver.
Qed.

(** The limits of the layers, and that their scopes are distinct. *)
Definition layers_ok : Prop :=
  NoDup (fst ∘ fst <$> rpmLayers l keyID modelAlias) ∧
  ∀ scope id limit, (scope, id, limit) ∈ rpmLayers l keyID modelAlias →
     scope ∈ scopes ∧ limit = rpmLimit l scope id ∧ limit < 2 ^ 53.

Lemma layers_done_fresh done_ inc H scope id limit layers :
  layers_ok → rpmLayers l keyID modelAlias = done_ ++ (scope, id, limit) :: layers →
  layers_done done_ inc H → rpmKey scope id w ∉ H.
Proof.
  intros [Hnd Hlay] Hsplit (_ & _ & Hsrc & _) (sc & i & lm & Hd & E)%Hsrc.
  apply rpmKey_inj in E as (-> & _ & _).
  - rewrite Hsplit, fmap_app in Hnd. apply NoDup_app in Hnd as (_ & Hdis & _).
    apply (Hdis sc); [|simpl; set_solver].
    apply list_elem_of_fmap. by exists (sc, i, lm).
  - apply (Hlay scope id limit). rewrite Hsplit. set_solver.
  - apply (Hlay sc i lm). rewrite Hsplit. set_solver.
Qed.

Lemma conf_checkRPM done_ layers now inc H k :
  layers_ok → rpmLayers l keyID modelAlias = done_ ++ layers → layers_done done_ inc H →
  (∀ inc' H', layers_done (rpmLayers l keyID modelAlias) inc' H' → conf (k inc') H' true) →
  conf (checkRPM layers w (weightOf now) inc k) H true.
Proof.
  intros Hok Hsplit Hd Hk. revert done_ inc H Hsplit Hd.
  induction layers as [|[[scope id] limit] layers IH]; intros done_ inc H Hsplit Hd.
  { simpl. apply Hk. by rewrite Hsplit, app_nil_r. }
  assert (rpmLayers l keyID modelAlias = (done_ ++ [(scope, id, limit)]) ++ layers) as Hsplit'
    by by rewrite Hsplit, <-app_assoc.
  destruct (proj2 Hok scope id limit) as (Hsc & Hlim & Hlt); [rewrite Hsplit; set_solver|].
  pose proof (layers_done_fresh _ _ _ _ _ _ _ Hok Hsplit Hd) as Hnew.
  cbn [checkRPM]. destruct (Z.leb_spec limit 0) as [Hle|Hpos].
  { eapply IH; [done|]. by apply layers_done_skip. }
  pose proof (layers_done_count _ _ _ _ _ limit Hd Hnew) as Hd'.
  simpl. intros prev Hprev. exists true. split; [done|].
  split_and!; [done| |left; split_and!; [done..|]].
  { intros e. apply conf_undo; [apply Hd|]. intros x. apply Hd. }
  exists scope, id. split_and!; [done..|]. intros v Hv.
  assert (0 ≤ countOf prev) as Hp by (apply Hprev; by exists scope, id, (w - 1)).
  destruct (fgt _ _) eqn:Efgt.
  - exists false. split; [done|]. apply conf_undo; [apply Hd'|]. intros x. apply Hd'.
  - exists true. split; [|by eapply IH].
    intros _. rewrite <-Hlim. apply Z.le_ngt. intros Hgt.
    rewrite (estimate_over now v (countOf prev) limit) in Efgt by lia. done.
Qed.

End call.

(** ** The pool of callers *)

Record thread := mkThread {
  th_key : string;
  th_model : string;
  th_now : option Z;
  th_prog : prog Verdict;
}.

Record pool (S : Type) := mkPool { p_time : Z; p_cache : S; p_threads : list thread }.
Arguments mkPool {S} p_time p_cache p_threads.
Arguments p_time {S} p.
Arguments p_cache {S} p.
Arguments p_threads {S} p.

(** A thread performs its next event at an instant, or a request arrives. *)
Variant action :=
| Event (i : nat) (t : Z)
| Spawn (keyID modelAlias : string).

Definition reads_clock {X} (e : cacheE X) : bool :=
  match e with TimeNow => true | _ => false end.

(** The call has been running for at most a second. *)
Definition in_time (th : thread) (t : Z) : bool :=
  match th_now th with Some t0 => t <=? t0 + Second | None => true end.

Section pool.
Context {S : Type} `{CounterCache S}.
Context (l : Limiter).

Definition act (a : action) (p : pool S) : option (pool S) :=
  match a with
  | Spawn keyID modelAlias =>
      Some (mkPool (p_time p) (p_cache p)
        (p_threads p ++ [mkThread keyID modelAlias None (AllowRequest l keyID modelAlias)]))
  | Event i t =>
      th ← p_threads p !! i;
      match th_prog th with
      | Ret _ => None
      | Vis e k =>
          if (p_time p <=? t) && in_time th t then
            let '(x, s') := handle t e (p_cache p) in
            Some (mkPool t s'
              (<[i := mkThread (th_key th) (th_model th)
                        (if reads_clock e then Some t else th_now th) (k x)]> (p_threads p)))
          else None
      end
  end.

Inductive pstep (p : pool S) : pool S → Prop :=
| step_act a p' : act a p = Some p' → pstep p p'
| step_env t s' :
    p_time p ≤ t →
    (∀ k t', is_rpm k → t ≤ t' → counter t' k s' = counter t' k (p_cache p)) →
    pstep p (mkPool t s' (p_threads p)).

(** Did the thread return [true] for the window [w], with the scope and id
    among its layers? *)
Definition concerns (scope id : string) (th : thread) : bool :=
  existsb (λ '(sc, i, _), bool_decide (sc = scope) && bool_decide (i = id))
    (rpmLayers l (th_key th) (th_model th)).

Definition admitted (scope id : string) (w : Z) (th : thread) : bool :=
  concerns scope id th &&
  match th_now th with Some t0 => window t0 =? w | None => false end &&
  match th_prog th with Ret (allowed, _, _) => allowed | Vis _ _ => false end.

(** *** The invariant *)

(** The ghost state of a thread: the counters it holds, its checks so far. *)
Definition ghost : Type := list string * bool.
Definition holds (K : string) (g : ghost) : bool := bool_decide (K ∈ g.1).
Definition good (K : string) (g : ghost) : bool := g.2 && bool_decide (K ∈ g.1).

Definition conf_start (th : thread) : Prop :=
  match th_prog th with
  | Ret _ => True
  | Vis e k =>
      match e in cacheE X return (X → prog Verdict) → Prop with
      | TimeNow => λ k, ∀ t0, conf l (th_key th) (th_model th) (window t0) (k t0) [] true
      | _ => λ _, False
      end k
  end.

Definition thread_ok (time : Z) (th : thread) (g : ghost) : Prop :=
  match th_now th with
  | None => g = ([], true) ∧ conf_start th
  | Some t0 =>
      0 ≤ t0 ≤ time ∧ conf l (th_key th) (th_model th) (window t0) (th_prog th) g.1 g.2 ∧
      (∀ K, K ∈ g.1 → ∃ scope id, scope ∈ scopes ∧ K = rpmKey scope id (window t0))
  end.

(** The end of the calls of window [w]. *)
Definition wend (w : Z) : Z := (w * 60 + 61) * Second.

Definition key_ok (time : Z) (s : S) (gs : list ghost) (scope id : string) (w : Z) : Prop :=
  let K := rpmKey scope id w in
  (∀ t', time ≤ t' → counter t' K s = None ∨ counter t' K s = Some (countb (holds K) gs)) ∧
  (time ≤ wend w →
   (∀ t', time ≤ t' ≤ wend w → counter t' K s = Some (countb (holds K) gs)) ∨
   (countb (holds K) gs = 0 ∧ counter time K s = None)) ∧
  (0 < rpmLimit l scope id → countb (good K) gs ≤ rpmLimit l scope id).

Definition pool_inv (p : pool S) : Prop :=
  0 ≤ p_time p ∧
  ∃ gs, Forall2 (thread_ok (p_time p)) (p_threads p) gs ∧
    ∀ scope id w, scope ∈ scopes → key_ok (p_time p) (p_cache p) gs scope id w.

Lemma window_bounds t0 :
  0 ≤ t0 → (window t0 * 60) * Second ≤ t0 ∧ t0 + Second ≤ wend (window t0).
Proof.
  intros Ht. unfold wend, window, Unix.
  assert (0 ≤ t0 / Second) by (apply Z.div_pos; unfold Second, Millisecond; lia).
  rewrite Z.quot_div_nonneg by lia.
  pose proof (Z.div_mod t0 Second) as E1. pose proof (Z.mod_pos_bound t0 Second) as B1.
  pose proof (Z.div_mod (t0 / Second) 60) as E2.
  pose proof (Z.mod_pos_bound (t0 / Second) 60) as B2.
  unfold Second, Millisecond in *. lia.
Qed.

Lemma thread_ok_later t t' th g : t ≤ t' → thread_ok t th g → thread_ok t' th g.
Proof. unfold thread_ok. destruct (th_now th); intuition lia. Qed.

Lemma key_ok_later t t' s gs scope id w :
  t ≤ t' → key_ok t s gs scope id w → key_ok t' s gs scope id w.
Proof.
  intros Ht (HA & HB & HC). split_and!; [intros; apply HA; lia| |done].
  intros Hw. destruct HB as [HB|[HB1 HB2]]; [lia|left; intros; apply HB; lia|right].
  split; [done|]. by eapply counter_expired.
Qed.

(** Nothing happened to the counter itself. *)
Lemma key_ok_same t s s' gs gs' scope id w :
  let K := rpmKey scope id w in
  (∀ t', t ≤ t' → counter t' K s' = counter t' K s) →
  countb (holds K) gs' = countb (holds K) gs → countb (good K) gs' ≤ countb (good K) gs →
  key_ok t s gs scope id w → key_ok t s' gs' scope id w.
Proof.
  intros K Hs Hh Hg (HA & HB & HC). unfold key_ok. fold K in HA, HB, HC |- *. rewrite Hh.
  split_and!.
  - intros t' Ht. rewrite Hs by done. auto.
  - intros Hw. destruct HB as [HB|[HB1 HB2]]; [done|left|right].
    + intros t' Ht. rewrite Hs by lia. auto.
    + rewrite Hs by lia. auto.
  - intros Hl. specialize (HC Hl). lia.
Qed.

Lemma good_holds K gs : countb (good K) gs ≤ countb (holds K) gs.
Proof. apply countb_impl. intros [h ok]. unfold good, holds. simpl. by destruct ok. Qed.

Lemma in_int64_small v : -1 ≤ v < 2 ^ 53 → in_int64 v.
Proof. unfold in_int64. lia. Qed.

(** The counter is incremented: it exists, or it is created and outlives the
    calls of its window. *)
Lemma counter_plus t s s' r gs scope id w :
  let K := rpmKey scope id w in let h := countb (holds K) gs in
  0 ≤ t → (w * 60) * Second ≤ t ≤ wend w → h + 1 < 2 ^ 53 →
  key_ok t s gs scope id w → cIncrBy t K 1 counterTTL s = (s', Ok r) →
  r = h + 1 ∧ (∀ t', t ≤ t' → counter t' K s' = None ∨ counter t' K s' = Some (h + 1)) ∧
  (∀ t', t ≤ t' ≤ wend w → counter t' K s' = Some (h + 1)).
Proof.
  intros K h Ht Hw Hh (HA & HB & _) Hi. fold K h in HA, HB.
  pose proof (countb_nonneg (holds K) gs) as Hpos. fold h in Hpos.
  destruct (HB ltac:(lia)) as [Hlive|[Hz Hnone]].
  - eapply counter_incr_live in Hi as [-> Hc]; [|apply (Hlive t); lia].
    rewrite wrap64_id by (apply in_int64_small; lia). split_and!; [done| |].
    + intros t' Ht'. rewrite Hc. destruct (HA t' Ht') as [-> | ->]; simpl; [auto|].
      rewrite wrap64_id by (apply in_int64_small; lia). auto.
    + intros t' Ht'. rewrite Hc, Hlive by done. simpl.
      by rewrite wrap64_id by (apply in_int64_small; lia).
  - eapply counter_incr_new in Hi as [-> Hc];
      [|unfold counterTTL, Second, Millisecond; lia|done|apply in_int64_small; lia|done].
    rewrite Hz. split_and!; [done| |].
    + intros t' Ht'. rewrite Hc by done. destruct (_ <=? _); auto.
    + intros t' Ht'. rewrite Hc by lia. destruct (Z.leb_spec t' (t + counterTTL)); [done|].
      unfold wend, counterTTL in *. lia.
Qed.

(** A counter somebody holds is decremented. *)
Lemma counter_minus t s s' r gs scope id w :
  let K := rpmKey scope id w in let h := countb (holds K) gs in
  t ≤ wend w → 1 ≤ h < 2 ^ 53 →
  key_ok t s gs scope id w → cIncrBy t K (-1) counterTTL s = (s', Ok r) →
  (∀ t', t ≤ t' → counter t' K s' = None ∨ counter t' K s' = Some (h - 1)) ∧
  (∀ t', t ≤ t' ≤ wend w → counter t' K s' = Some (h - 1)).
Proof.
  intros K h Hw Hh (HA & HB & _) Hi. fold K h in HA, HB.
  destruct (HB Hw) as [Hlive|[Hz _]]; [|lia].
  eapply counter_incr_live in Hi as [_ Hc]; [|apply (Hlive t); lia].
  split.
  - intros t' Ht'. rewrite Hc. destruct (HA t' Ht') as [-> | ->]; simpl; [auto|].
    rewrite wrap64_id by (apply in_int64_small; lia). auto.
  - intros t' Ht'. rewrite Hc, Hlive by done. simpl.
    by rewrite wrap64_id by (apply in_int64_small; lia).
Qed.

(** *** One event of a running call *)

Section event.
Context (t t0 : Z) (s : S) (gs : list ghost) (i : nat) (g : ghost).
Context (Ht : 0 ≤ t0 ≤ t) (Hsec : t ≤ t0 + Second).
Context (Hg : gs !! i = Some g) (Hmany : Z.of_nat (length gs) < 2 ^ 53).
Context (Hkeys : ∀ scope id w, scope ∈ scopes → key_ok t s gs scope id w).

Definition window_keys (h : list string) : Prop :=
  ∀ K, K ∈ h → ∃ scope id, scope ∈ scopes ∧ K = rpmKey scope id (window t0).

Lemma ghost_kept s' g' scope id w :
  let K := rpmKey scope id w in
  scope ∈ scopes → (∀ t', t ≤ t' → counter t' K s' = counter t' K s) →
  holds K g' = holds K g → (g'.2 = true → g.2 = true) →
  key_ok t s' (<[i := g']> gs) scope id w.
Proof.
  intros K Hsc Hs Hh Hok. eapply key_ok_same; [done| | |by apply Hkeys].
  - rewrite (countb_insert _ _ _ _ _ Hg). fold K. rewrite Hh. lia.
  - rewrite (countb_insert _ _ _ _ _ Hg). fold K. unfold good. unfold holds in Hh.
    rewrite Hh. destruct (g'.2), (g.2), (bool_decide (K ∈ g.1)); simpl; try lia;
      by discriminate Hok.
Qed.

(** The ghost and the counter of one key move together. *)
Lemma ghost_moves s' g' scope id w n :
  let K := rpmKey scope id w in
  (∀ t', t ≤ t' → counter t' K s' = None ∨ counter t' K s' = Some n) →
  (∀ t', t ≤ t' ≤ wend w → counter t' K s' = Some n) →
  n = countb (holds K) (<[i := g']> gs) → (g'.2 = true → n ≤ rpmLimit l scope id) →
  (g'.2 = false → scope ∈ scopes) →
  key_ok t s' (<[i := g']> gs) scope id w.
Proof.
  intros K Hn Hlive -> Hlim Hsc. split_and!; [done|auto|]. intros Hpos. fold K.
  destruct (g'.2) eqn:E.
  - specialize (Hlim eq_refl). pose proof (good_holds K (<[i := g']> gs)). lia.
  - destruct (Hkeys scope id w (Hsc eq_refl)) as (_ & _ & HC). specialize (HC Hpos). fold K in HC.
    rewrite (countb_insert _ _ _ _ _ Hg). unfold good at 3. rewrite E. simpl.
    destruct (good K g); simpl; lia.
Qed.

Lemma is_rpm_count t' key : is_rpm key → t ≤ t' → 0 ≤ countOf (cGet t' key s).
Proof.
  intros (scope & id & w & Hsc & ->) Ht'. rewrite counter_get.
  destruct (Hkeys scope id w Hsc) as (HA & _).
  pose proof (countb_nonneg (holds (rpmKey scope id w)) gs).
  destruct (HA t' Ht') as [-> | ->]; simpl; lia.
Qed.

Lemma plus_room K : K ∉ g.1 → countb (holds K) gs + 1 < 2 ^ 53.
Proof.
  intros HK. pose proof (countb_le (holds K) (<[i := (K :: g.1, true)]> gs)) as Hc.
  rewrite (countb_insert _ _ _ _ _ Hg), length_insert in Hc. unfold holds at 2 3 in Hc.
  rewrite bool_decide_false, bool_decide_true in Hc by (simpl; set_solver).
  simpl in Hc. lia.
Qed.

(** [IncrBy key 1] of a counter the call does not hold yet. *)
Lemma plus_event scope id s' v ok' :
  let K := rpmKey scope id (window t0) in let h := countb (holds K) gs in
  scope ∈ scopes → K ∉ g.1 → g.2 = true →
  cIncrBy t K 1 counterTTL s = (s', Ok v) → (ok' = true → v ≤ rpmLimit l scope id) →
  ∀ scope' id' w', scope' ∈ scopes → key_ok t s' (<[i := (K :: g.1, ok')]> gs) scope' id' w'.
Proof.
  intros K h Hsc HK Hgok Hi Hlim scope' id' w' Hsc'.
  pose proof (window_bounds t0 ltac:(lia)) as Hw.
  destruct (decide (rpmKey scope' id' w' = K)) as [E|Hne].
  - apply rpmKey_inj in E as (-> & -> & ->); [|done..].
    pose proof (plus_room K HK) as Hroom.
    destruct (counter_plus t s s' v gs scope id (window t0)) as (-> & HA & HB);
      [lia|lia|fold K h; lia|by apply Hkeys|done|].
    eapply ghost_moves; [done..| |done|done].
    rewrite (countb_insert _ _ _ _ _ Hg). unfold holds at 3 4. fold K.
    rewrite bool_decide_false, bool_decide_true by (simpl; set_solver). simpl. lia.
  - apply ghost_kept; [done| | |done].
    + intros t' _. by eapply counter_incr_other.
    + unfold holds. apply bool_decide_ext. simpl. set_solver.
Qed.

(** [IncrBy key -1] of a counter the call holds. *)
Lemma minus_event K s' v :
  K ∈ g.1 → window_keys g.1 → cIncrBy t K (-1) counterTTL s = (s', Ok v) →
  ∀ scope id w, scope ∈ scopes →
    key_ok t s' (<[i := (filter (λ x, x ≠ K) g.1, false)]> gs) scope id w.
Proof.
  intros HK Hwk Hi scope' id' w' Hsc'. destruct (Hwk K HK) as (scope & id & Hsc & ->).
  set (K := rpmKey scope id (window t0)) in *.
  pose proof (window_bounds t0 ltac:(lia)) as Hw.
  destruct (decide (rpmKey scope' id' w' = K)) as [E|Hne].
  - apply rpmKey_inj in E as (-> & -> & ->); [|done..].
    pose proof (countb_le (holds K) gs) as Hle.
    assert (1 ≤ countb (holds K) gs) as Hge.
    { eapply countb_ge1; [done|]. unfold holds. by apply bool_decide_true. }
    destruct (counter_minus t s s' v gs scope id (window t0)) as (HA & HB);
      [lia|fold K; lia|by apply Hkeys|done|].
    eapply ghost_moves; [done..| |done|done].
    fold K. rewrite (countb_insert _ _ _ _ _ Hg). unfold holds at 3 4.
    rewrite bool_decide_true by done. rewrite bool_decide_false; [simpl; lia|].
    simpl. rewrite list_elem_of_filter. naive_solver.
  - apply ghost_kept; [done| | |done].
    + intros t' _. by eapply counter_incr_other.
    + unfold holds. apply bool_decide_ext. simpl. rewrite list_elem_of_filter. naive_solver.
Qed.

Lemma event_ok keyID modelAlias {X} (e : cacheE X) (k : X → prog Verdict) x s' :
  window_keys g.1 →
  conf l keyID modelAlias (window t0) (Vis e k) g.1 g.2 → handle t e s = (x, s') →
  ∃ g', conf l keyID modelAlias (window t0) (k x) g'.1 g'.2 ∧ window_keys g'.1 ∧
    ∀ scope id w, scope ∈ scopes → key_ok t s' (<[i := g']> gs) scope id w.
Proof.
  intros Hwk Hc Hh. simpl in Hc. destruct e as [|key|key v ttl|key d ttl];
    simpl in Hc, Hh; [done| |done|].
  - injection Hh as <- <-. destruct (Hc (cGet t key s)) as (ok' & Hok & Hrec).
    { intros Hr. by apply is_rpm_count. }
    exists (g.1, ok'). split_and!; [done..|]. intros. by apply ghost_kept.
  - destruct (cIncrBy t key d ttl s) as [s1 r] eqn:Hi. injection Hh as -> ->.
    destruct Hc as (-> & Herr & Hcase). destruct x as [v|err].
    2: { exists (g.1, false). split_and!; [by apply Herr|done|]. intros.
         apply ghost_kept; [done| |done|done]. intros. by eapply counter_incr_err. }
    destruct Hcase as [(-> & Hok & HK & scope & id & Hsc & -> & Hv)|(-> & Hok & HK & Hv)].
    + assert (v = countb (holds (rpmKey scope id (window t0))) gs + 1) as Ev.
      { eapply (counter_plus t s s' v gs scope id (window t0)); eauto; try lia.
        - pose proof (window_bounds t0 ltac:(lia)). lia.
        - by apply plus_room. }
      destruct (Hv v) as (ok' & Hlim & Hrec).
      { pose proof (countb_nonneg (holds (rpmKey scope id (window t0))) gs).
        pose proof (plus_room _ HK). lia. }
      exists (rpmKey scope id (window t0) :: g.1, ok'). split_and!; [done| |by eapply plus_event].
      intros K [-> | ?]%elem_of_cons; eauto.
    + exists (filter (λ x, x ≠ key) g.1, false). split_and!; [done| |by eapply minus_event].
      intros K [_ HK']%list_elem_of_filter. auto.
Qed.

End event.

(** *** Every step keeps the invariant *)

Lemma layers_ok_request keyID modelAlias :
  (∀ scope id, rpmLimit l scope id < 2 ^ 53) → layers_ok l keyID modelAlias.
Proof.
  intros Hl. split.
  - simpl. repeat constructor; set_solver.
  - intros scope id limit Hin. unfold rpmLayers in Hin. set_unfold in Hin.
    assert (limit = rpmLimit l scope id) as ->.
    { destruct Hin as [?|[?|[?|[]]]]; simplify_eq; done. }
    split_and!; [|done|done]. unfold scopes. set_unfold. naive_solver.
Qed.

Lemma conf_start_request keyID modelAlias :
  (∀ scope id, rpmLimit l scope id < 2 ^ 53) →
  conf_start (mkThread keyID modelAlias None (AllowRequest l keyID modelAlias)).
Proof.
  intros Hl. unfold conf_start, AllowRequest. cbn [th_prog th_key th_model].
  destruct (unlimited _ _ _); [done|].
  intros t0. eapply (conf_checkRPM _ _ _ _ []); [by apply layers_ok_request|done| |].
  - split_and!; [constructor|done|set_solver|set_solver].
  - intros inc' H' (Hnd & Hin & _ & Hcov). apply conf_checkTPM; [done|intros ?; apply Hin|].
    exact Hcov.
Qed.

Lemma countb_spawn (f : ghost → bool) gs : f ([], true) = false → countb f (gs ++ [([], true)]) = countb f gs.
Proof. intros Hf. rewrite countb_app. simpl. rewrite Hf. simpl. lia. Qed.

Lemma spawn_inv p keyID modelAlias :
  (∀ scope id, rpmLimit l scope id < 2 ^ 53) → pool_inv p →
  pool_inv (mkPool (p_time p) (p_cache p)
    (p_threads p ++ [mkThread keyID modelAlias None (AllowRequest l keyID modelAlias)])).
Proof.
  intros Hl (Ht & gs & Hths & Hkeys). split; [done|]. exists (gs ++ [([], true)]). split.
  - apply Forall2_app; [done|]. repeat constructor. by apply conf_start_request.
  - intros scope id w Hsc. eapply key_ok_same; [done| | |by apply Hkeys]; simpl.
    + by rewrite countb_spawn.
    + by rewrite countb_spawn.
Qed.

Lemma env_inv p t s' :
  p_time p ≤ t →
  (∀ k t', is_rpm k → t ≤ t' → counter t' k s' = counter t' k (p_cache p)) →
  pool_inv p → pool_inv (mkPool t s' (p_threads p)).
Proof.
  intros Hle Henv (Ht & gs & Hths & Hkeys). split; [simpl; lia|]. exists gs. split.
  - eapply Forall2_impl; [done|]. intros th g. by apply thread_ok_later.
  - intros scope id w Hsc.
    eapply key_ok_same; [|done|done|eapply key_ok_later; [done|by apply Hkeys]].
    intros t' Ht'. apply Henv; [by exists scope, id, w|done].
Qed.

Lemma event_inv p i t th {X} (e : cacheE X) k x s' :
  Z.of_nat (length (p_threads p)) < 2 ^ 53 → pool_inv p → p_threads p !! i = Some th →
  th_prog th = Vis e k → p_time p ≤ t → in_time th t = true →
  handle t e (p_cache p) = (x, s') →
  pool_inv (mkPool t s' (<[i := mkThread (th_key th) (th_model th)
     (if reads_clock e then Some t else th_now th) (k x)]> (p_threads p))).
Proof.
  intros Hmany Hinv Hth Hprog Hle Hin Hh.
  destruct (env_inv p t (p_cache p) Hle ltac:(done) Hinv) as (Ht & gs & Hths & Hkeys).
  simpl in *. destruct (Forall2_lookup_l _ _ _ _ _ Hths Hth) as (g & Hg & Hok).
  unfold thread_ok in Hok. unfold in_time in Hin. destruct (th_now th) as [t0|] eqn:Enow.
  - destruct Hok as (Ht0 & Hconf & Hwk). rewrite Hprog in Hconf. apply Z.leb_le in Hin.
    destruct (event_ok t t0 (p_cache p) gs i g Ht0 Hin Hg ltac:(rewrite <-(Forall2_length _ _ _ Hths); lia)
      Hkeys _ _ _ _ _ _ Hwk Hconf Hh) as (g' & Hc' & Hwk' & Hk').
    split; [done|]. exists (<[i := g']> gs). split; [|done]. apply Forall2_insert; [done|].
    assert (reads_clock e = false) as -> by (by destruct e; simpl in Hconf).
    done.
  - destruct Hok as (-> & Hstart). unfold conf_start in Hstart. rewrite Hprog in Hstart.
    destruct e; try done. simpl in Hh. simplify_eq. split; [done|]. exists gs.
    split; [|done]. rewrite <-(list_insert_id gs i _ Hg) by done. apply Forall2_insert; [done|].
    unfold thread_ok. simpl. split_and!; [lia..|done|set_solver].
Qed.

Lemma pstep_inv p p' :
  (∀ scope id, rpmLimit l scope id < 2 ^ 53) → Z.of_nat (length (p_threads p)) < 2 ^ 53 →
  pool_inv p → pstep p p' → pool_inv p'.
Proof.
  intros Hl Hmany Hinv [[i t|keyID modelAlias] p1 Ha|t s' Hle Henv].
  - simpl in Ha. destruct (p_threads p !! i) as [th|] eqn:Hth; [|done]. simpl in Ha.
    destruct (th_prog th) as [r|X e k] eqn:Hprog; [done|].
    destruct (Z.leb_spec (p_time p) t) as [Hle|]; [|done].
    destruct (in_time th t) eqn:Hin; [|done]. simpl in Ha.
    destruct (handle t e (p_cache p)) as [x s'] eqn:Hh. simplify_eq. by eapply event_inv.
  - simpl in Ha. simplify_eq. by apply spawn_inv.
  - by apply env_inv.
Qed.

Lemma pstep_grows p p' : pstep p p' → (length (p_threads p) ≤ length (p_threads p'))%nat.
Proof.
  intros [[i t|keyID modelAlias] p1 Ha|t s' _ _]; [..|done]; simpl in Ha.
  - destruct (p_threads p !! i) as [th|]; [|done]. simpl in Ha.
    destruct (th_prog th); [done|]. destruct (_ && _); [|done].
    destruct (handle _ _ _) as [x s']. simplify_eq. simpl. by rewrite length_insert.
  - simplify_eq. simpl. rewrite length_app. lia.
Qed.

Lemma pool_inv_start t s :
  0 ≤ t → (∀ k t', is_rpm k → t ≤ t' → counter t' k s = None) → pool_inv (mkPool t s []).
Proof.
  intros Ht Hs. split; [done|]. exists []. split; [constructor|]. intros scope id w Hsc.
  assert (is_rpm (rpmKey scope id w)) by by exists scope, id, w.
  split_and!; simpl.
  - intros t' Ht'. left. by apply Hs.
  - intros _. right. split; [done|]. by apply Hs.
  - lia.
Qed.

(** An admitted call still holds its counters. *)
Lemma admitted_good t th g scope id w :
  0 < rpmLimit l scope id → thread_ok t th g → admitted scope id w th = true →
  good (rpmKey scope id w) g = true.
Proof.
  unfold thread_ok, admitted, good. intros Hpos Hok Ha. destruct (th_now th) as [t0|]; [|by bools].
  destruct (th_prog th) as [[[allowed ?] ?]|]; [|by rewrite andb_false_r in Ha].
  apply andb_true_iff in Ha as [[Hc Hw]%andb_true_iff ->].
  destruct Hok as (_ & Hconf & _). destruct Hconf as [-> Hall]; [done|].
  apply Z.eqb_eq in Hw as <-. simpl. apply bool_decide_true.
  unfold concerns in Hc. apply existsb_exists in Hc as ([[sc i] limit] & Hin & Heq).
  apply andb_true_iff in Heq as [->%bool_decide_eq_true ->%bool_decide_eq_true].
  apply list_elem_of_In in Hin. eapply Hall; [done|].
  unfold rpmLayers in Hin. set_unfold in Hin. destruct_or!; simplify_eq; done.
Qed.

(** The executable counterpart of a sequence of steps. *)
Fixpoint schedule (acts : list action) (p : pool S) : option (pool S) :=
  match acts with
  | [] => Some p
  | a :: acts => p' ← act a p; schedule acts p'
  end.

Lemma schedule_rtc acts p p' : schedule acts p = Some p' → rtc pstep p p'.
Proof.
  revert p. induction acts as [|a acts IH]; intros p Hs; simpl in Hs; [by simplify_eq|].
  destruct (act a p) as [p1|] eqn:Ha; [|done]. simpl in Hs.
  eapply rtc_l; [by eapply step_act|]. by apply IH.
Qed.

Lemma reachable_inv p0 p :
  (∀ scope id, rpmLimit l scope id < 2 ^ 53) → pool_inv p0 → rtc pstep p0 p →
  Z.of_nat (length (p_threads p)) < 2 ^ 53 → pool_inv p.
Proof.
  intros Hl Hinv. revert p. apply (rtc_ind_r (λ p, Z.of_nat (length (p_threads p)) < 2 ^ 53 → pool_inv p)); [done|].
  intros p1 p2 _ Hs IH Hmany. pose proof (pstep_grows _ _ Hs).
  eapply pstep_inv; [done| |apply IH|done]; lia.
Qed.

(** C1. The RPM limit holds under any concurrency: whatever the interleaving of
    the cache events of concurrent [AllowRequest] calls (each over within a
    second of reading the clock), among the calls that read the clock in one
    minute window at most [limit] return [true] for each limited scope: the
    whole proxy, a model alias, an API key.  Neither the increments of other
    callers nor their rollbacks let one more request through. *)
Theorem admission_bound (t0 : Z) (s0 : S) (p : pool S) (scope id : string) (w : Z) :
  0 ≤ t0 → (∀ k t, is_rpm k → t0 ≤ t → counter t k s0 = None) →
  (∀ scope id, rpmLimit l scope id < 2 ^ 53) →
  rtc pstep (mkPool t0 s0 []) p → Z.of_nat (length (p_threads p)) < 2 ^ 53 →
  scope ∈ scopes → 0 < rpmLimit l scope id →
  countb (admitted scope id w) (p_threads p) ≤ rpmLimit l scope id.
Proof.
  intros Ht0 Hs0 Hl Hr Hmany Hsc Hpos.
  destruct (reachable_inv _ _ Hl (pool_inv_start _ _ Ht0 Hs0) Hr Hmany) as (_ & gs & Hths & Hkeys).
  destruct (Hkeys scope id w Hsc) as (_ & _ & HC). specialize (HC Hpos).
  etrans; [|exact HC]. eapply countb_Forall2; [exact Hths|].
  intros th g Hok. by apply (admitted_good (p_time p)).
Qed.

End pool.

(** ** Witness: three concurrent callers, a global limit of two *)

Definition demo_limiter : Limiter :=
  New {| rl_RPM := 2; rl_TPM := 0; rl_MaxRetries := 0 |} None None.

Definition demo_acts : list action :=
  [Spawn "a" "m"; Spawn "b" "m"; Spawn "c" "m"; Event 0 5; Event 1 5; Event 2 6;
   Event 2 6; Event 0 7; Event 1 7; Event 1 8; Event 2 8; Event 0 9; Event 0 9].

Definition demo_start : pool Mem.MemoryCache := mkPool 0 Mem.NewMemoryCache [].

Lemma admission_bound_witness :
  ∃ p, schedule demo_limiter demo_acts demo_start = Some p ∧
    (countb (admitted demo_limiter "global" "" 0) (p_threads p) =? 2) = true ∧
    countb (admitted demo_limiter "global" "" 0) (p_threads p) ≤ 2.
Proof.
  destruct (schedule demo_limiter demo_acts demo_start) as [p|] eqn:Hs; [|by vm_compute in Hs].
  exists p. split; [done|].
  assert (Z.of_nat (length (p_threads p)) = 3 ∧
    (countb (admitted demo_limiter "global" "" 0) (p_threads p) =? 2) = true) as [Hlen H2].
  { vm_compute in Hs. injection Hs as <-. vm_compute. done. }
  split; [exact H2|].
  apply (admission_bound demo_limiter 0 Mem.NewMemoryCache p "global" "" 0).
  - lia.
  - reflexivity.
  - intros scope id. unfold rpmLimit. repeat case_bool_decide; reflexivity.
  - by apply (schedule_rtc _ demo_acts).
  - lia.
  - set_solver.
  - reflexivity.
Defined.
