(* ===== verification/RateLimitSpec.v ===== *)
(** * What one call of the rate limiter does

    The abstract limiter is a function from counter names to counts: a request
    is admitted when every limited layer has room, and then, and only then, the
    limited RPM counters move by one.  The code gets there by incrementing
    layer by layer and rolling back; [allow_refines] shows that a call that is
    not disturbed implements the abstract limiter, on every cache that keeps the
    counter contract and does not fail.  The other theorems cover a cache that
    fails, the token accounting, the health probe, and what the counters' TTL
    does to the sliding window. *)
From S2P Require Import Prelude GoStd GoFloat GoJson Domain Cache MemoryCache RateLimit.
From S2P Require Import RateLimitSafety.
Import Limit.

(** ** The abstract limiter *)

Definition counts : Type := string → Z.

Definition has_room (now : Z) (c : counts) (ly : layer) : bool :=
  let '(scope, id, limit) := ly in
  (limit <=? 0) ||
  negb (fgt (estimate (weightOf now) (c (rpmKey scope id (window now)) + 1)
               (c (rpmKey scope id (window now - 1)))) (of_int limit)).

Definition has_tokens (now : Z) (c : counts) (ly : layer) : bool :=
  let '(scope, id, limit) := ly in
  (limit <=? 0) ||
  negb (fge (estimate (weightOf now) (c (tpmKey scope id (window now)))
               (c (tpmKey scope id (window now - 1)))) (of_int limit)).

Definition admits (l : Limiter) (keyID modelAlias : string) (now : Z) (c : counts) : bool :=
  forallb (has_room now c) (rpmLayers l keyID modelAlias) &&
  forallb (has_tokens now c) (tpmLayers l keyID modelAlias).

(** The counters a request is charged to. *)
Definition charged (now : Z) (layers : list layer) : list string :=
  (λ ly : layer, rpmKey ly.1.1 ly.1.2 (window now)) <$> filter (λ ly : layer, 0 < ly.2) layers.

Definition charge (keys : list string) (d : Z) (c : counts) : counts :=
  λ k, if bool_decide (k ∈ keys) then c k + d else c k.

Lemma charge_ext keys d c c' k : (∀ k, c k = c' k) → charge keys d c k = charge keys d c' k.
Proof. intros E. unfold charge. by rewrite !E. Qed.

Lemma charge_snoc keys K d c k :
  K ∉ keys → charge (keys ++ [K]) d c k = charge [K] d (charge keys d c) k.
Proof.
  intros HK. unfold charge. destruct (decide (k = K)) as [->|Hne].
  - rewrite (bool_decide_true (K ∈ keys ++ _)), (bool_decide_true (K ∈ [K])) by set_solver.
    by rewrite bool_decide_false.
  - rewrite (bool_decide_false (k ∈ [K])) by set_solver.
    by rewrite (bool_decide_ext (k ∈ keys ++ [K]) (k ∈ keys)) by set_solver.
Qed.

Lemma charge_cons K keys d c k :
  K ∉ keys → charge (K :: keys) d c k = charge keys d (charge [K] d c) k.
Proof.
  intros HK. unfold charge. destruct (decide (k = K)) as [->|Hne].
  - rewrite (bool_decide_true (K ∈ K :: keys)), (bool_decide_true (K ∈ [K])) by set_solver.
    by rewrite bool_decide_false.
  - rewrite (bool_decide_false (k ∈ [K])) by set_solver.
    by rewrite (bool_decide_ext (k ∈ K :: keys) (k ∈ keys)) by set_solver.
Qed.

Section sequential.
Context {S : Type} `{CounterCache S}.
Context (t : Z) (Ht : 0 ≤ t).

(** A call all of whose events happen at [t]. *)
Definition runAt {R} (p : prog R) (s : S) : R * S := run (λ _, t) 0 p s.

Lemma run_const {R} (p : prog R) i j s : run (λ _, t) i p s = run (λ _, t) j p s.
Proof.
  revert i j s. induction p as [r|X e k IH]; intros i j s; simpl; [done|].
  destruct (handle t e s) as [x s']. apply IH.
Qed.

Lemma runAt_vis {R X} (e : cacheE X) (k : X → prog R) s :
  runAt (Vis e k) s = let '(x, s') := handle t e s in runAt (k x) s'.
Proof. unfold runAt. simpl. destruct (handle t e s). apply run_const. Qed.

(** The counts a cache holds at [t]. *)
Definition val (s : S) : counts := λ k, default 0 (counter t k s).

Lemma get_val k s : countOf (cGet t k s) = val s k.
Proof. apply counter_get. Qed.

Lemma incr_val k d s s' r :
  in_int64 d → in_int64 (val s k + d) → cIncrBy t k d counterTTL s = (s', Ok r) →
  r = val s k + d ∧ ∀ k', val s' k' = charge [k] d (val s) k'.
Proof.
  intros Hd Hv Hi. assert (r = val s k + d ∧ counter t k s' = Some (val s k + d)) as [-> Hk].
  { unfold val in *. destruct (counter t k s) as [v|] eqn:E; simpl in *.
    - eapply counter_incr_live in Hi as [-> Hc]; [|done].
      rewrite Hc, E. simpl. by rewrite wrap64_id.
    - eapply counter_incr_new in Hi as [-> Hc]; [|unfold counterTTL, Second, Millisecond; lia|done..].
      rewrite Hc, (proj2 (Z.leb_le _ _)) by (unfold counterTTL, Second, Millisecond; lia). done. }
  split; [done|]. intros k'. unfold charge. case_bool_decide as Hin.
  - apply list_elem_of_singleton in Hin as ->. unfold val at 1. by rewrite Hk.
  - unfold val. erewrite counter_incr_other; [done| |done]. set_solver.
Qed.

(** The cache serves increments. *)
Definition never_fails : Prop := ∀ k d s, ∃ s' r, cIncrBy t k d counterTTL s = (s', Ok r).

Definition small (c : counts) : Prop := ∀ k, 0 ≤ c k < 2 ^ 53 - 1.

Lemma run_undo keys v s :
  never_fails → NoDup keys → (∀ k, k ∈ keys → in_int64 (val s k - 1)) →
  ∃ s', runAt (undo keys v) s = (v, s') ∧ ∀ k, val s' k = charge keys (-1) (val s) k.
Proof.
  intros Hnf. revert s. induction keys as [|k keys IH]; intros s Hnd Hv.
  { by exists s. }
  apply NoDup_cons in Hnd as [Hk Hnd]. destruct (Hnf k (-1) s) as (s1 & r & Hi).
  pose proof (incr_val k (-1) s s1 r ltac:(unfold in_int64; lia) (Hv k ltac:(set_solver)) Hi)
    as [_ Hs1].
  destruct (IH s1 Hnd) as (s' & Hr & Hs').
  { intros k' Hk'. rewrite Hs1. unfold charge. rewrite bool_decide_false by set_solver.
    apply Hv. set_solver. }
  exists s'. split; [simpl; by rewrite runAt_vis; simpl; rewrite Hi|].
  intros k'. rewrite Hs', charge_cons by done. by apply charge_ext.
Qed.

Lemma run_checkTPM layers inc c s :
  (∀ scope id ts, val s (tpmKey scope id ts) = c (tpmKey scope id ts)) →
  if forallb (has_tokens t c) layers
  then runAt (checkTPM layers (window t) (weightOf t) inc) s = ((true, noStatus, None), s)
  else ∃ st, runAt (checkTPM layers (window t) (weightOf t) inc) s
             = runAt (undo inc (false, st, None)) s.
Proof.
  intros Hc. induction layers as [|[[scope id] limit] layers IH]; [done|].
  cbn [forallb checkTPM]. unfold has_tokens at 1. destruct (limit <=? 0); [exact IH|].
  rewrite runAt_vis. cbn [handle]. rewrite runAt_vis. cbn [handle].
  rewrite <-!Hc, !get_val. simpl orb. destruct (fge _ _); simpl; [|exact IH].
  by eexists.
Qed.

(** The layers still to do are not charged yet. *)
Definition fresh_layers (layers : list layer) (inc : list string) : Prop :=
  NoDup (fst ∘ fst <$> layers) ∧ (∀ ly, ly ∈ layers → ly.1.1 ∈ scopes) ∧ NoDup inc ∧
  (∀ k, k ∈ inc → ∃ scope id, scope ∈ scopes ∧ k = rpmKey scope id (window t)) ∧
  (∀ ly, ly ∈ layers → rpmKey ly.1.1 ly.1.2 (window t) ∉ inc).

Lemma fresh_layers_skip ly layers inc :
  fresh_layers (ly :: layers) inc → fresh_layers layers inc.
Proof.
  intros (Hnd & Hsc & Hinc & Hsrc & Hf). simpl in Hnd. apply NoDup_cons in Hnd as [_ Hnd].
  split_and!; [done| |done|done|]; intros; [apply Hsc|apply Hf]; set_solver.
Qed.

Lemma fresh_layers_charge ly layers inc :
  fresh_layers (ly :: layers) inc →
  fresh_layers layers (inc ++ [rpmKey ly.1.1 ly.1.2 (window t)]).
Proof.
  intros (Hnd & Hsc & Hinc & Hsrc & Hf). simpl in Hnd. apply NoDup_cons in Hnd as [Hl Hnd].
  pose proof (Hsc ly ltac:(set_solver)) as Hly. pose proof (Hf ly ltac:(set_solver)) as Hfl.
  split_and!; [done|intros; apply Hsc; set_solver| | |].
  - apply NoDup_app. split_and!; [done|set_solver|apply NoDup_singleton].
  - intros k [?|E%list_elem_of_singleton]%elem_of_app; eauto.
  - intros ly' Hin [?|E%list_elem_of_singleton]%elem_of_app; [by eapply (Hf ly'); [set_solver|]|].
    apply rpmKey_inj in E as (E & _ & _); [|apply Hsc; set_solver|done].
    apply Hl, list_elem_of_fmap. exists ly'. auto.
Qed.

(** The state of the loop: the keys in [inc] have been charged. *)
Definition at_loop (c : counts) (inc : list string) (s : S) : Prop :=
  ∀ k, val s k = charge inc 1 c k.

Lemma undo_loop c inc v s :
  never_fails → small c → NoDup inc → at_loop c inc s →
  ∃ s', runAt (undo inc v) s = (v, s') ∧ ∀ k, val s' k = c k.
Proof.
  intros Hnf Hc Hnd Hs. destruct (run_undo inc v s Hnf Hnd) as (s' & Hr & Hs').
  - intros k Hk. rewrite Hs. unfold charge. rewrite bool_decide_true by done.
    specialize (Hc k). unfold in_int64. lia.
  - exists s'. split; [done|]. intros k. rewrite Hs'. unfold charge. rewrite !Hs.
    unfold charge. case_bool_decide; lia.
Qed.

Lemma run_checkRPM layers inc c k s :
  never_fails → small c → fresh_layers layers inc → at_loop c inc s →
  if forallb (has_room t c) layers
  then ∃ s', at_loop c (inc ++ charged t layers) s' ∧
       NoDup (inc ++ charged t layers) ∧
       runAt (checkRPM layers (window t) (weightOf t) inc k) s
       = runAt (k (inc ++ charged t layers)) s'
  else ∃ st s', runAt (checkRPM layers (window t) (weightOf t) inc k) s = ((false, st, None), s') ∧
       ∀ k, val s' k = c k.
Proof.
  intros Hnf Hc. revert inc s.
  induction layers as [|[[scope id] limit] layers IH]; intros inc s Hf Hs.
  { exists s. cbn. rewrite app_nil_r. split_and!; [done|apply Hf|done]. }
  cbn [forallb checkRPM]. unfold has_room at 1. unfold charged. rewrite filter_cons. simpl.
  destruct (Z.leb_spec limit 0) as [Hl|Hl].
  { rewrite decide_False by lia. eapply IH; [by eapply fresh_layers_skip|done]. }
  rewrite decide_True by lia. rewrite fmap_cons. simpl.
  rewrite runAt_vis. cbn [handle]. rewrite runAt_vis. cbn [handle].
  pose proof Hf as (_ & Hsc & _ & Hsrc & Hfresh).
  specialize (Hsc _ ltac:(left)). specialize (Hfresh _ ltac:(left)). simpl in Hsc, Hfresh.
  set (K := rpmKey scope id (window t)) in *.
  assert (val s K = c K) as HK by (rewrite Hs; unfold charge; by rewrite bool_decide_false).
  assert (val s (rpmKey scope id (window t - 1)) = c (rpmKey scope id (window t - 1))) as Hprev.
  { rewrite Hs. unfold charge. rewrite bool_decide_false; [done|].
    intros (sc & i & Hsc' & E)%Hsrc. apply rpmKey_inj in E as (_ & _ & E); [lia|done..]. }
  destruct (Hnf K 1 s) as (s1 & r & Hi). rewrite Hi.
  destruct (incr_val K 1 s s1 r) as [-> Hs1];
    [unfold in_int64; lia|rewrite HK; specialize (Hc K); unfold in_int64; lia|done|].
  rewrite get_val, Hprev, HK.
  assert (at_loop c (inc ++ [K]) s1) as Hloop.
  { intros k'. rewrite Hs1, charge_snoc by done. by apply charge_ext. }
  pose proof (fresh_layers_charge _ _ _ Hf) as Hf'. simpl in Hf'. fold K in Hf'.
  destruct (fgt _ _); simpl.
  - destruct (undo_loop c (inc ++ [K])
      (rpmBlocked (estimate (weightOf t) (c K + 1) (c (rpmKey scope id (window t - 1)))) limit) s1)
      as (s' & Hr & Hs'); [done..|apply Hf'|done|]. unfold rpmBlocked in Hr. by eexists _, s'.
  - specialize (IH _ _ Hf' Hloop). by rewrite <-app_assoc in IH.
Qed.

Lemma fresh_layers_request l keyID modelAlias : fresh_layers (rpmLayers l keyID modelAlias) [].
Proof.
  split_and!; [|..|constructor|set_solver|set_solver].
  - simpl. repeat constructor; set_solver.
  - intros ly Hin. unfold rpmLayers in Hin. unfold scopes. set_unfold in Hin. set_unfold.
    destruct_or!; simplify_eq/=; auto.
Qed.

Lemma unlimited_admits l keyID modelAlias c :
  unlimited l keyID modelAlias = true →
  admits l keyID modelAlias t c = true ∧ charged t (rpmLayers l keyID modelAlias) = [].
Proof.
  unfold unlimited. intros Hu. rewrite !andb_true_iff in Hu.
  destruct Hu as [[[[[H1 H2] H3] H4] H5] H6]. split.
  - unfold admits. simpl. by rewrite H1, H2, H3, H4, H5, H6.
  - apply Z.leb_le in H1, H3, H5. unfold charged, rpmLayers.
    rewrite !filter_cons, !decide_False by (simpl; lia). done.
Qed.

Lemma tpm_uncharged layers c s :
  at_loop c (charged t layers) s →
  ∀ scope id ts, val s (tpmKey scope id ts) = c (tpmKey scope id ts).
Proof.
  intros Hs scope id ts. rewrite Hs. unfold charge. rewrite bool_decide_false; [done|].
  unfold charged. intros (ly & E & _)%list_elem_of_fmap. by eapply rpmKey_tpmKey.
Qed.

(** C2. A call of [AllowRequest] that runs undisturbed implements the abstract
    limiter: it returns [true] exactly when every limited RPM layer has room
    for one more request and every limited TPM layer is below its limit; then
    each limited RPM counter has grown by one and no other counter has changed;
    when it returns [false], every counter has the value it had before (the
    rollback is exact).  It never reports an error. *)
Theorem allow_refines (l : Limiter) (keyID modelAlias : string) (s : S) :
  never_fails → small (val s) →
  let ok := admits l keyID modelAlias t (val s) in
  ∃ st s', runAt (AllowRequest l keyID modelAlias) s = ((ok, st, None), s') ∧
    ∀ k, val s' k = if ok then charge (charged t (rpmLayers l keyID modelAlias)) 1 (val s) k
                    else val s k.
Proof.
  intros Hnf Hc ok. unfold AllowRequest, ok. destruct (unlimited l keyID modelAlias) eqn:Hu.
  { destruct (unlimited_admits _ _ _ (val s) Hu) as [-> ->]. by exists noStatus, s. }
  rewrite runAt_vis. cbn [handle].
  pose proof (run_checkRPM (rpmLayers l keyID modelAlias) [] (val s)
    (λ incremented, checkTPM (tpmLayers l keyID modelAlias) (window t) (weightOf t) incremented)
    s Hnf Hc
    (fresh_layers_request _ _ _) ltac:(done)) as Hrpm. simpl app in Hrpm. unfold admits.
  destruct (forallb (has_room t (val s)) _); cbn [andb]; [|done].
  destruct Hrpm as (s1 & Hs1 & Hnd & ->).
  pose proof (run_checkTPM (tpmLayers l keyID modelAlias) (charged t (rpmLayers l keyID modelAlias))
    (val s) s1 ltac:(by eapply tpm_uncharged)) as Htpm.
  destruct (forallb (has_tokens t (val s)) _); [by exists noStatus, s1|].
  destruct Htpm as (st & ->).
  destruct (undo_loop (val s) _ (false, st, None) s1 Hnf Hc Hnd Hs1) as (s' & ? & ?).
  by exists st, s'.
Qed.

(** The state after [RecordTokens]. *)
Lemma run_recordLoop keys n s :
  never_fails → in_int64 n → NoDup keys → (∀ k, k ∈ keys → in_int64 (val s k + n)) →
  ∃ s', runAt (recordLoop keys n) s = (None, s') ∧ ∀ k, val s' k = charge keys n (val s) k.
Proof.
  intros Hnf Hn. revert s. induction keys as [|k keys IH]; intros s Hnd Hv.
  { by exists s. }
  apply NoDup_cons in Hnd as [Hk Hnd]. destruct (Hnf k n s) as (s1 & r & Hi).
  pose proof (incr_val k n s s1 r Hn (Hv k ltac:(set_solver)) Hi) as [_ Hs1].
  destruct (IH s1 Hnd) as (s' & Hr & Hs').
  { intros k' Hk'. rewrite Hs1. unfold charge. rewrite bool_decide_false by set_solver.
    apply Hv. set_solver. }
  exists s'. split; [simpl; by rewrite runAt_vis; simpl; rewrite Hi|].
  intros k'. rewrite Hs', charge_cons by done. by apply charge_ext.
Qed.

(** [RecordTokens] charges the tokens to the global, model and key counters
    of the current window and to nothing else, and does nothing at all for a
    count that is not positive; the RPM counters are not touched, so the
    accounting of a finished request cannot change who is admitted by RPM. *)
Theorem record_tokens (keyID modelAlias : string) (n : Z) (s : S) :
  never_fails → in_int64 n →
  (∀ k, k ∈ tokenKeys keyID modelAlias (window t) → in_int64 (val s k + n)) →
  ∃ s', runAt (RecordTokens keyID modelAlias n) s = (None, s') ∧
    (∀ k, val s' k = if n <=? 0 then val s k
                     else charge (tokenKeys keyID modelAlias (window t)) n (val s) k) ∧
    ∀ k, is_rpm k → val s' k = val s k.
Proof.
  intros Hnf Hn Hv. unfold RecordTokens. destruct (n <=? 0); [by exists s|].
  rewrite runAt_vis. cbn [handle]. 
  destruct (run_recordLoop (tokenKeys keyID modelAlias (window t)) n s Hnf Hn) as (s' & Hr & Hs');
    [|done|].
  - unfold tokenKeys. repeat (constructor; [|]); [set_unfold..|constructor].
    all: intros Hk; destruct_or?; apply tpmKey_inj in Hk; set_solver.
  - exists s'. split_and!; [done|done|]. intros k (scope & id & ts & _ & ->).
    rewrite Hs'. unfold charge. rewrite bool_decide_false; [done|].
    unfold tokenKeys. set_unfold. intros Hk; destruct_or?; by apply rpmKey_tpmKey in Hk.
Qed.

End sequential.

(** ** A cache that is down *)

Section down.
Context {S : Type} `{Cache S} (t : Z).
Context (e : error).
Context (incr_down : ∀ k d ttl s, cIncrBy t k d ttl s = (s, Err e)).
Context (get_down : ∀ k s, cGet t k s = None).

Lemma down_checkTPM layers inc s :
  (∀ scope id limit, (scope, id, limit) ∈ layers → limit < 2 ^ 53) →
  runAt t (checkTPM layers (window t) (weightOf t) inc) s = ((true, noStatus, None), s).
Proof.
  intros Hl. induction layers as [|[[scope id] limit] layers IH]; [done|].
  specialize (IH ltac:(intros sc i lm Hin; apply (Hl sc i lm); by right)).
  cbn [checkTPM]. destruct (Z.leb_spec limit 0) as [Hle|Hpos]; [exact IH|].
  rewrite runAt_vis. cbn [handle]. rewrite runAt_vis. cbn [handle]. rewrite !get_down. simpl countOf.
  rewrite estimate_zero by lia. rewrite fge_of_int; [|lia|].
  - rewrite (proj2 (Z.leb_gt limit 0)) by lia. exact IH.
  - specialize (Hl scope id limit ltac:(set_solver)). lia.
Qed.

Lemma down_checkRPM layers k s :
  runAt t (checkRPM layers (window t) (weightOf t) [] k) s =
  if existsb (λ ly : layer, 0 <? ly.2) layers then (cacheError e, s) else runAt t (k []) s.
Proof.
  induction layers as [|[[scope id] limit] layers IH]; [done|].
  cbn [checkRPM existsb snd]. rewrite Z.ltb_antisym. destruct (limit <=? 0); [exact IH|].
  rewrite runAt_vis. cbn [handle]. rewrite runAt_vis. cbn [handle]. by rewrite incr_down.
Qed.

(** When the cache is down (every [IncrBy] fails, every [Get] finds
    nothing), a request with a limited RPM layer is refused with the status
    ["cache_error"] and the wrapped error (the limiter fails closed), while a
    request limited by TPM only is let through (it fails open). *)
Theorem cache_down (l : Limiter) (keyID modelAlias : string) (s : S) :
  (∀ scope id limit, (scope, id, limit) ∈ tpmLayers l keyID modelAlias → limit < 2 ^ 53) →
  runAt t (AllowRequest l keyID modelAlias) s =
  (if existsb (λ ly : layer, 0 <? ly.2) (rpmLayers l keyID modelAlias)
   then (false, {| st_RPMCurrent := 0; st_RPMLimit := 0; st_TPMCurrent := 0; st_TPMLimit := 0;
                   st_BlockReason := "cache_error" |},
         Some (mkError (err_Kind e) ("ratelimit: rpm cache error: " +:+ err_Msg e)))
   else (true, noStatus, None), s).
Proof.
  intros Hl. unfold AllowRequest. destruct (unlimited l keyID modelAlias) eqn:Hu.
  { unfold unlimited in Hu. rewrite !andb_true_iff in Hu.
    destruct Hu as [[[[[H1 _] H3] _] H5] _].
    apply Z.leb_le in H1, H3, H5. cbn [existsb rpmLayers snd].
    by rewrite !(proj2 (Z.ltb_ge 0 _)) by lia. }
  rewrite runAt_vis. cbn [handle]. rewrite down_checkRPM.
  destruct (existsb _ _); [done|]. by apply down_checkTPM.
Qed.

End down.

(** ** The sliding window and the counters' TTL *)

(** Requests of one key and model, one after the other. *)
Fixpoint verdicts (l : Limiter) (times : list Z) (c : Mem.MemoryCache) : list bool :=
  match times with
  | [] => []
  | t :: times =>
      let '((allowed, _, _), c') := runAt t (AllowRequest l "k" "m") c in
      allowed :: verdicts l times c'
  end.

Definition limiter3 : Limiter :=
  New {| rl_RPM := 3; rl_TPM := 0; rl_MaxRetries := 0 |} None None.

(** The weighted window does not prevent a burst at a minute boundary: a
    counter lives 61 s from its first increment, so two seconds into a minute
    the counter of the previous minute, opened in its first second, is gone and
    weighs nothing.  With a limit of 3 per minute, six requests are admitted of
    which five fall within four seconds, although at that instant the abstract
    limiter, which still sees the three requests of the previous window, has no
    room. *)
Theorem window_burst :
  verdicts limiter3
    [60 * Second; 119 * Second; 119 * Second; 122 * Second; 122 * Second; 122 * Second]
    Mem.NewMemoryCache = [true; true; true; true; true; true] ∧
  has_room (122 * Second)
    (λ k, if bool_decide (k = rpmKey "global" "" 1) then 3 else 0) ("global", "", 3) = false.
Proof. split; vm_compute; reflexivity. Qed.

(** ** Witnesses *)

Lemma mem_never_fails t : never_fails (S := Mem.MemoryCache) t.
Proof.
  intros k d s. rewrite Mem.IncrBy_live.
  destruct (Mem.incr_entry _ _ _ _) as [en v]. eauto.
Qed.

Lemma allow_refines_witness :
  let s := (runAt (S := Mem.MemoryCache) 5 (AllowRequest demo_limiter "k" "m")
              Mem.NewMemoryCache).2 in
  admits demo_limiter "k" "m" 9 (val 9 s) = true ∧
  ∃ st s', runAt 9 (AllowRequest demo_limiter "k" "m") s = ((true, st, None), s').
Proof.
  split; [vm_compute; reflexivity|].
  destruct (allow_refines 9 ltac:(lia) demo_limiter "k" "m"
    (runAt (S := Mem.MemoryCache) 5 (AllowRequest demo_limiter "k" "m") Mem.NewMemoryCache).2)
    as (st & s' & Hr & _).
  - apply mem_never_fails.
  - intros k. unfold val, counter, Mem.mem_CounterCache, Mem.mem_counter.
    destruct (decide (k = rpmKey "global" "" 0)) as [->|Hne]; [vm_compute; split; congruence|].
    replace (Mem.entries _ !! k) with (@None Mem.cacheEntry); [simpl; lia|].
    symmetry. cbn -[rpmKey]. by apply lookup_singleton_ne.
  - exists st, s'. rewrite Hr. reflexivity.
Defined.

Lemma record_tokens_witness :
  ∃ s', runAt (S := Mem.MemoryCache) 9 (RecordTokens "k" "m" 7) Mem.NewMemoryCache = (None, s') ∧
    val 9 s' (tpmKey "model" "m" 0) = 7.
Proof.
  destruct (record_tokens (S := Mem.MemoryCache) 9 ltac:(lia) "k" "m" 7 Mem.NewMemoryCache)
    as (s' & Hr & Hs & _).
  - apply mem_never_fails.
  - unfold in_int64. lia.
  - intros k _. replace (val 9 _ k) with 0 by reflexivity. unfold in_int64. lia.
  - exists s'. split; [exact Hr|]. rewrite Hs. vm_compute. reflexivity.
Defined.

Definition down_error : error := mkError OtherError "connection refused".

(** A cache without a server behind it. *)
Definition down_Cache : Cache unit :=
  {| cGet _ _ _ := None; cSet _ _ _ _ s := (s, Some down_error);
     cDelete _ _ s := (s, Some down_error); cIncrBy _ _ _ _ s := (s, Err down_error) |}.

Lemma cache_down_witness :
  (runAt (H := down_Cache) 9 (AllowRequest demo_limiter "k" "m") tt).1 =
  (false, {| st_RPMCurrent := 0; st_RPMLimit := 0; st_TPMCurrent := 0; st_TPMLimit := 0;
             st_BlockReason := "cache_error" |},
   Some (mkError OtherError "ratelimit: rpm cache error: connection refused")).
Proof.
  rewrite (cache_down (H := down_Cache) 9 down_error); [reflexivity|reflexivity|reflexivity|].
  intros scope id limit Hin. unfold tpmLayers in Hin. set_unfold in Hin.
  destruct_or!; simplify_eq; vm_compute; reflexivity.
Defined.
