(* ===== verification/Router.v ===== *)
(** * package router: the node table and the balancer

    [src/internal/router].  The table is a map of nodes by ID with an index from
    alias to nodes, rebuilt by every change.  Go iterates over a map in an order
    of its own choosing: each operation that ranges over [r.nodes] takes that
    order as an argument, [ord], a listing of the entries of the map
    ([map_order]).  Each method holds the lock for its whole body, so a history
    of calls is a sequence of these functions. *)
From S2P Require Import Prelude GoStd GoFloat GoJson Domain.

Module Routing.

Abbreviation NodeMap := (gmap string ModelNode).

Record Router := mkRouter {
  r_nodes : NodeMap;
  r_aliasIdx : gmap string (list ModelNode);
}.

Definition New : Router := mkRouter ∅ ∅.

(** An order in which [range] may visit a map. *)
Definition map_order (ord : NodeMap → list ModelNode) : Prop :=
  ∀ m, ord m ≡ₚ (map_to_list m).*2.

(** The inner loop of [rebuildAliasIdx]: [idx[alias] = append(idx[alias], n)]. *)
Definition indexNode (idx : gmap string (list ModelNode)) (n : ModelNode)
    : gmap string (list ModelNode) :=
  fold_left (λ idx alias, <[alias := default [] (idx !! alias) ++ [n]]> idx) (node_Aliases n) idx.

Definition rebuildAliasIdx (ord : NodeMap → list ModelNode) (nodes : NodeMap) : Router :=
  mkRouter nodes (fold_left indexNode (ord nodes) ∅).

Definition Sync (ord : NodeMap → list ModelNode) (nodes : list ModelNode) (r : Router) : Router :=
  rebuildAliasIdx ord (fold_left (λ m n, <[node_ID n := n]> m) nodes ∅).

Definition AddOrUpdate (ord : NodeMap → list ModelNode) (node : ModelNode) (r : Router) : Router :=
  rebuildAliasIdx ord (<[node_ID node := node]> (r_nodes r)).

Definition Remove (ord : NodeMap → list ModelNode) (id : string) (r : Router) : Router :=
  rebuildAliasIdx ord (delete id (r_nodes r)).

Definition endpointMatches (nodeType requested : EndpointType) : bool :=
  if bool_decide (nodeType = EndpointAll) || bool_decide (requested = EndpointAll) then true
  else bool_decide (nodeType = requested).

Fixpoint filterCandidates (et : EndpointType) (all : list ModelNode) : list ModelNode :=
  match all with
  | [] => []
  | n :: all =>
      if negb (node_Enabled n) then filterCandidates et all
      else if negb (endpointMatches (node_EndpointType n) et) then filterCandidates et all
      else n :: filterCandidates et all
  end.

Definition Resolve (alias : string) (et : EndpointType) (r : Router) : list ModelNode :=
  filterCandidates et (default [] (r_aliasIdx r !! alias)).

Definition ListEnabled (ord : NodeMap → list ModelNode) (r : Router) : list ModelNode :=
  filter (λ n, node_Enabled n = true) (ord (r_nodes r)).

(** [Pick]: [rnd] is the draw of [rand.Intn], [rnd n] in [[0, n)]. *)
Definition Pick (rnd : Z → Z) (candidates : list ModelNode) : option ModelNode :=
  if bool_decide (length candidates = 0%nat) then None
  else if bool_decide (length candidates = 1%nat) then candidates !! 0%nat
  else candidates !! Z.to_nat (rnd (Z.of_nat (length candidates))).

(** [PickRoundRobin]: the atomic [globalCounter] before and after. *)
Definition PickRoundRobin (globalCounter : Z) (candidates : list ModelNode)
    : Z * option ModelNode :=
  if bool_decide (length candidates = 0%nat) then (globalCounter, None)
  else
    let globalCounter := wrapu64 (globalCounter + 1) in
    (globalCounter, candidates !! Z.to_nat (globalCounter mod Z.of_nat (length candidates))).

(** ** The index *)

(** The entries a node has under an alias: one per occurrence of the alias. *)
Definition hits (alias : string) (n : ModelNode) : list ModelNode :=
  (λ _, n) <$> filter (λ a, a = alias) (node_Aliases n).

Lemma elem_of_hits alias n x : x ∈ hits alias n ↔ x = n ∧ alias ∈ node_Aliases n.
Proof.
  unfold hits. rewrite list_elem_of_fmap. setoid_rewrite list_elem_of_filter. naive_solver.
Qed.

Lemma indexNode_lookup idx n alias :
  default [] (indexNode idx n !! alias) = default [] (idx !! alias) ++ hits alias n.
Proof.
  unfold indexNode, hits. revert idx.
  induction (node_Aliases n) as [|a l IH]; intros idx; simpl; [by rewrite app_nil_r|].
  rewrite IH, filter_cons. destruct (decide (a = alias)) as [->|Hne].
  - rewrite lookup_insert_eq. simpl. by rewrite <-app_assoc.
  - by rewrite lookup_insert_ne.
Qed.

Lemma index_lookup ns idx alias :
  default [] (fold_left indexNode ns idx !! alias) = default [] (idx !! alias) ++ (ns ≫= hits alias).
Proof.
  revert idx. induction ns as [|n ns IH]; intros idx; simpl; [by rewrite app_nil_r|].
  by rewrite IH, indexNode_lookup, <-app_assoc.
Qed.

(** Every node is stored under its ID, and the index lists the nodes. *)
Definition router_ok (r : Router) : Prop :=
  map_Forall (λ id n, node_ID n = id) (r_nodes r) ∧
  ∀ alias, default [] (r_aliasIdx r !! alias) ≡ₚ ((map_to_list (r_nodes r)).*2 ≫= hits alias).

Lemma rebuild_ok ord nodes :
  map_order ord → map_Forall (λ id n, node_ID n = id) nodes →
  router_ok (rebuildAliasIdx ord nodes).
Proof.
  intros Hord Hids. split; [done|]. intros alias. simpl. rewrite index_lookup.
  rewrite lookup_empty. simpl. by rewrite (Hord nodes).
Qed.

(** *** Histories of calls *)

Inductive rcall :=
| CSync (nodes : list ModelNode)
| CAddOrUpdate (node : ModelNode)
| CRemove (id : string).

Definition rexec (ord : NodeMap → list ModelNode) (c : rcall) (r : Router) : Router :=
  match c with
  | CSync nodes => Sync ord nodes r
  | CAddOrUpdate node => AddOrUpdate ord node r
  | CRemove id => Remove ord id r
  end.

(** Each call iterates in an order of its own. *)
Fixpoint rhistory (h : list ((NodeMap → list ModelNode) * rcall)) (r : Router) : Router :=
  match h with
  | [] => r
  | (ord, c) :: h => rhistory h (rexec ord c r)
  end.

(** The abstract table: the last writer of an ID wins. *)
Definition tableStep (m : NodeMap) (c : rcall) : NodeMap :=
  match c with
  | CSync nodes => fold_left (λ m n, <[node_ID n := n]> m) nodes ∅
  | CAddOrUpdate node => <[node_ID node := node]> m
  | CRemove id => delete id m
  end.

Definition table (h : list ((NodeMap → list ModelNode) * rcall)) (m : NodeMap) : NodeMap :=
  fold_left tableStep (h.*2) m.

Lemma sync_ids nodes (m : NodeMap) :
  map_Forall (λ id n, node_ID n = id) m →
  map_Forall (λ id n, node_ID n = id) (fold_left (λ (m : NodeMap) n, <[node_ID n := n]> m) nodes m).
Proof.
  revert m. induction nodes as [|n nodes IH]; intros m Hm; simpl; [done|].
  apply IH. by apply map_Forall_insert_2.
Qed.

Lemma tableStep_ids m c :
  map_Forall (λ id n, node_ID n = id) m → map_Forall (λ id n, node_ID n = id) (tableStep m c).
Proof.
  intros Hm. destruct c as [nodes|node|id]; simpl.
  - apply sync_ids, map_Forall_empty.
  - by apply map_Forall_insert_2.
  - by apply map_Forall_delete.
Qed.

Lemma rexec_rebuild ord c r : rexec ord c r = rebuildAliasIdx ord (tableStep (r_nodes r) c).
Proof. by destruct c. Qed.

Lemma rhistory_ok h r :
  Forall (λ oc, map_order oc.1) h → router_ok r →
  router_ok (rhistory h r) ∧ r_nodes (rhistory h r) = table h (r_nodes r).
Proof.
  revert r. induction h as [|[ord c] h IH]; intros r Hh Hr; [done|].
  apply Forall_cons in Hh as [Hord Hh]. simpl. destruct (IH (rexec ord c r) Hh) as [H1 H2].
  { rewrite rexec_rebuild. apply rebuild_ok; [done|]. apply tableStep_ids, Hr. }
  split; [done|]. rewrite H2, rexec_rebuild. done.
Qed.

Lemma New_ok : router_ok New.
Proof. split; [apply map_Forall_empty|]. intros alias. by vm_compute. Qed.

Lemma filterCandidates_filter et all :
  filterCandidates et all =
  filter (λ n, node_Enabled n && endpointMatches (node_EndpointType n) et = true) all.
Proof.
  induction all as [|n all IH]; [done|]. rewrite filter_cons. simpl. rewrite IH.
  destruct (node_Enabled n), (endpointMatches _ _); simpl; by rewrite ?decide_True, ?decide_False.
Qed.

(** ** Properties *)

(** The candidates the table promises for an alias and an endpoint. *)
Definition serves (alias : string) (et : EndpointType) (n : ModelNode) : Prop :=
  alias ∈ node_Aliases n ∧ node_Enabled n = true ∧
  (node_EndpointType n = EndpointAll ∨ et = EndpointAll ∨ node_EndpointType n = et).

Lemma endpointMatches_spec a b :
  endpointMatches a b = true ↔ a = EndpointAll ∨ b = EndpointAll ∨ a = b.
Proof.
  unfold endpointMatches. rewrite <-!bool_decide_or. case_bool_decide.
  - tauto.
  - rewrite bool_decide_eq_true. tauto.
Qed.

Lemma elem_of_Resolve r alias et n :
  router_ok r → n ∈ Resolve alias et r ↔ r_nodes r !! node_ID n = Some n ∧ serves alias et n.
Proof.
  intros [Hids Hidx]. unfold Resolve. rewrite filterCandidates_filter, list_elem_of_filter, Hidx.
  rewrite list_elem_of_bind, andb_true_iff, endpointMatches_spec.
  setoid_rewrite elem_of_hits. setoid_rewrite list_elem_of_fmap. unfold serves. split.
  - intros [[He Ht] (y & [-> Ha] & [id n'] & -> & Hin%elem_of_map_to_list)]. simpl in *.
    pose proof (Hids _ _ Hin) as <-. auto.
  - intros (Hin & Ha & He & Ht). split; [done|]. exists n. split; [done|].
    exists (node_ID n, n). split; [done|]. by apply elem_of_map_to_list.
Qed.

(** C7. Refinement of the routing table: after any history of [Sync],
    [AddOrUpdate] and [Remove], whatever order Go's map iterations take,
    [Resolve] returns exactly the nodes of the last-writer-wins table that are
    enabled, carry the alias and match the endpoint type, each as often as its
    alias list names the alias; no node of an overwritten or removed entry is
    ever returned. *)
Theorem resolve_refines (h : list ((NodeMap → list ModelNode) * rcall)) (alias : string)
    (et : EndpointType) :
  Forall (λ oc, map_order oc.1) h →
  let r := rhistory h New in let m := table h ∅ in
  r_nodes r = m ∧
  (∀ n, n ∈ Resolve alias et r ↔ m !! node_ID n = Some n ∧ serves alias et n) ∧
  Resolve alias et r ≡ₚ
    filter (λ n, node_Enabled n && endpointMatches (node_EndpointType n) et = true)
      ((map_to_list m).*2 ≫= hits alias).
Proof.
  intros Hh r m. destruct (rhistory_ok h New Hh New_ok) as [Hok Hm]. fold r in Hok, Hm.
  split_and!; [exact Hm| |].
  - intros n. rewrite elem_of_Resolve by done. by rewrite Hm.
  - unfold Resolve. rewrite filterCandidates_filter. apply filter_Permutation.
    destruct Hok as [_ Hidx]. by rewrite Hidx, Hm.
Qed.

(** The nodes [n] consecutive calls pick. *)
Fixpoint rotation (n : nat) (globalCounter : Z) (candidates : list ModelNode)
    : list (option ModelNode) :=
  match n with
  | O => []
  | S n => let '(c, o) := PickRoundRobin globalCounter candidates in o :: rotation n c candidates
  end.

Lemma rotation_lookup n c cands k :
  0 ≤ c → c + Z.of_nat n < 2 ^ 64 → cands ≠ [] → (k < n)%nat →
  rotation n c cands !! k =
    Some (cands !! Z.to_nat ((c + 1 + Z.of_nat k) mod Z.of_nat (length cands))).
Proof.
  revert c k. induction n as [|n IH]; intros c k Hc Hw Hne Hk; [lia|].
  simpl. unfold PickRoundRobin. rewrite bool_decide_false by (by destruct cands).
  unfold wrapu64. rewrite (Z.mod_small (c + 1)) by lia. destruct k as [|k]; simpl.
  - by rewrite Z.add_0_r.
  - rewrite IH by (done || lia).
    replace (c + 1 + 1 + Z.of_nat k) with (c + 1 + Z.of_nat (S k)) by lia. done.
Qed.

Lemma rotation_length n c cands : length (rotation n c cands) = n.
Proof.
  revert c. induction n as [|n IH]; intros c; simpl; [done|].
  destruct (PickRoundRobin c cands). simpl. by rewrite IH.
Qed.

Lemma rotation_rotate c cands :
  0 ≤ c → c + Z.of_nat (length cands) < 2 ^ 64 → cands ≠ [] →
  rotation (length cands) c cands = Some <$> rotate (Z.to_nat (c + 1)) cands.
Proof.
  intros Hc Hw Hne. apply list_eq_same_length with (length cands).
  - by rewrite length_fmap, length_rotate.
  - by rewrite rotation_length.
  - intros k x y Hk. rewrite rotation_lookup by done. rewrite list_lookup_fmap, lookup_rotate_r by done.
    unfold rotate_nat_add. rewrite Z2Nat.id by lia. intros [= <-].
    destruct (cands !! _); simpl; congruence.
Qed.

(** Fairness of the round robin: as many consecutive calls of
    [PickRoundRobin] as there are candidates pick every candidate exactly once,
    whatever the counter, short of its wrap-around at 2^64. *)
Theorem round_robin_fair (globalCounter : Z) (candidates : list ModelNode) :
  0 ≤ globalCounter → globalCounter + Z.of_nat (length candidates) < 2 ^ 64 →
  ∃ picks, rotation (length candidates) globalCounter candidates = Some <$> picks ∧
    picks ≡ₚ candidates.
Proof.
  intros Hc Hw. destruct (decide (candidates = [])) as [->|Hne]; [by exists []|].
  exists (rotate (Z.to_nat (globalCounter + 1)) candidates).
  split; [by apply rotation_rotate|].
  unfold rotate. rewrite Permutation_app_comm, take_drop. done.
Qed.

(** [Pick] returns a candidate whenever there is one, whatever
    [rand.Intn] draws, and [nil] only for an empty list. *)
Lemma pick_candidate (rnd : Z → Z) (candidates : list ModelNode) :
  (∀ n, 0 < n → 0 ≤ rnd n < n) →
  (candidates = [] ∧ Pick rnd candidates = None) ∨
  ∃ n, Pick rnd candidates = Some n ∧ n ∈ candidates.
Proof.
  intros Hr. unfold Pick. destruct candidates as [|n [|n' l]]; [by left| |].
  - right. exists n. split; [done|]. left.
  - right. repeat (rewrite bool_decide_false by (simpl; lia)).
    destruct (lookup_lt_is_Some_2 (n :: n' :: l)
      (Z.to_nat (rnd (Z.of_nat (length (n :: n' :: l)))))) as [x Hx].
    + specialize (Hr (Z.of_nat (length (n :: n' :: l))) ltac:(simpl; lia)). lia.
    + exists x. split; [done|]. by eapply list_elem_of_lookup_2.
Qed.

(** ** Witnesses *)

Definition demo_node (id : string) (aliases : list string) (et : EndpointType) (on : bool)
    : ModelNode :=
  {| node_ID := id; node_Name := id; node_Aliases := aliases; node_BaseURL := "http://" +:+ id;
     node_APIKey := ""; node_ModelName := "m"; node_EndpointType := et; node_TPM := 0;
     node_RPM := 0; node_Override := ∅; node_TimeoutSec := 0; node_Enabled := on;
     node_CreatedAt := 0; node_UpdatedAt := 0 |}.

Definition list_order (m : NodeMap) : list ModelNode := (map_to_list m).*2.

Lemma list_order_ok : map_order list_order.
Proof. by intros m. Qed.

Definition demo_calls : list ((NodeMap → list ModelNode) * rcall) :=
  [(list_order, CSync [demo_node "a" ["gpt"] EndpointChat true;
                       demo_node "b" ["gpt"] EndpointAll true;
                       demo_node "c" ["gpt"] EndpointEmbedding true]);
   (list_order, CAddOrUpdate (demo_node "a" ["gpt"] EndpointChat false));
   (list_order, CAddOrUpdate (demo_node "d" ["gpt"; "x"] EndpointChat true))].

Lemma resolve_refines_witness :
  node_ID <$> Resolve "gpt" EndpointChat (rhistory demo_calls New) = ["b"; "d"] ∧
  demo_node "d" ["gpt"; "x"] EndpointChat true ∈ Resolve "gpt" EndpointChat (rhistory demo_calls New).
Proof.
  split; [vm_compute; reflexivity|].
  apply (resolve_refines demo_calls "gpt" EndpointChat).
  - repeat (constructor; [apply list_order_ok|]). constructor.
  - split; [vm_compute; reflexivity|]. unfold serves. simpl. split_and!; [left|done|auto].
Defined.

Definition demo_candidates : list ModelNode :=
  (λ id, demo_node id [] EndpointAll true) <$> ["a"; "b"; "c"].

Lemma round_robin_fair_witness :
  fmap node_ID <$> rotation 3 7 demo_candidates = Some <$> ["c"; "a"; "b"] ∧
  ∃ picks, rotation 3 7 demo_candidates = Some <$> picks ∧ picks ≡ₚ demo_candidates.
Proof.
  split; [vm_compute; reflexivity|].
  apply (round_robin_fair 7 demo_candidates); [lia|reflexivity].
Defined.

End Routing.
