(* ===== verification/Override.v ===== *)
(** * proxy/override.go: merging a node's override into the request body

    [DeepMerge] updates [dst] in place; the nested maps of [dst] it descends
    into are reachable from [dst] only, so the map after the call is a function
    of the two maps before it.  Go visits [src] in an order of its own: the
    definition takes one, [merge_any_order] shows that none matters. *)
From S2P Require Import Prelude GoStd GoFloat GoJson Domain.

Module Override.

(** What [DeepMerge] leaves under a key whose source value is [s], [d] being
    the destination's value: the body of the loop. *)
Fixpoint mergeVal (d : option json) (s : json) : json :=
  match d, s with
  | Some (JObj dm), JObj sm =>
      JObj (map_fold (λ k sv dm, <[k := mergeVal (dm !! k) sv]> dm) dm sm)
  | _, _ => s
  end.

Definition DeepMerge (dst src : gmap string json) : gmap string json :=
  map_fold (λ k sv dst, <[k := mergeVal (dst !! k) sv]> dst) dst src.

Definition ApplyOverride (body override : gmap string json) : gmap string json :=
  if bool_decide (size override = 0%nat) then body else DeepMerge body override.

(** ** The merge, key by key *)

(** The loop over the entries of [src] in a given order. *)
Definition mergeLoop (dst : gmap string json) (entries : list (string * json)) : gmap string json :=
  fold_left (λ dst kv, <[kv.1 := mergeVal (dst !! kv.1) kv.2]> dst) entries dst.

Lemma mergeLoop_lookup entries dst k :
  NoDup (entries.*1) →
  mergeLoop dst entries !! k =
    match (list_to_map entries : gmap string json) !! k with
    | Some sv => Some (mergeVal (dst !! k) sv)
    | None => dst !! k
    end.
Proof.
  revert dst. induction entries as [|[k' sv] entries IH]; intros dst Hnd; [done|].
  simpl in Hnd. apply NoDup_cons in Hnd as [Hk Hnd]. unfold mergeLoop in *. simpl.
  rewrite IH by done. destruct (decide (k' = k)) as [->|Hne].
  - rewrite lookup_insert_eq, (not_elem_of_list_to_map_1 entries) by done.
    by rewrite lookup_insert_eq.
  - by rewrite !lookup_insert_ne by done.
Qed.

Lemma DeepMerge_loop dst src : DeepMerge dst src = mergeLoop dst (reverse (map_to_list src)).
Proof.
  unfold DeepMerge, mergeLoop. rewrite map_fold_foldr.
  rewrite <-(reverse_involutive (map_to_list src)) at 1.
  generalize (reverse (map_to_list src)). intros l. revert dst.
  induction l as [|[k v] l IH]; intros dst; [done|].
  rewrite reverse_cons, foldr_app. simpl. apply IH.
Qed.

Lemma DeepMerge_lookup dst src k :
  DeepMerge dst src !! k =
    match src !! k with
    | Some sv => Some (mergeVal (dst !! k) sv)
    | None => dst !! k
    end.
Proof.
  assert (NoDup (reverse (map_to_list src)).*1) as Hnd
    by (rewrite reverse_Permutation; apply NoDup_fst_map_to_list).
  rewrite DeepMerge_loop, mergeLoop_lookup by done.
  rewrite (list_to_map_proper _ (map_to_list src)), list_to_map_to_list;
    [done|done|apply reverse_Permutation].
Qed.

Lemma mergeVal_obj dm sm : mergeVal (Some (JObj dm)) (JObj sm) = JObj (DeepMerge dm sm).
Proof. done. Qed.

Lemma mergeVal_leaf d s : (∀ sm, s ≠ JObj sm) → mergeVal d s = s.
Proof. destruct s; try done; destruct d as [[]|]; try done. intros H. by destruct (H m). Qed.

(** ** Paths *)

(** The value at a path of keys. *)
Fixpoint at_path (p : list string) (j : json) : option json :=
  match p with
  | [] => Some j
  | k :: p => match j with JObj m => v ← m !! k; at_path p v | _ => None end
  end.

Definition is_obj (j : json) : bool := match j with JObj _ => true | _ => false end.

(** Does the source say anything about the path: a value on it that is not an
    object, or the path itself? *)
Fixpoint touches (s : json) (p : list string) : bool :=
  match s, p with
  | JObj m, k :: p => match m !! k with Some v => touches v p | None => false end
  | JObj _, [] => true
  | _, _ => true
  end.

Lemma merge_sets_aux s p d v :
  at_path p s = Some v → is_obj v = false → at_path p (mergeVal d s) = Some v.
Proof.
  revert p d. induction s as [m IH|s Hs] using json_obj_ind; intros p d Hp Hv.
  - destruct p as [|k p]; [by simplify_eq/=|]. simpl in Hp.
    destruct (m !! k) as [sv|] eqn:Hk; [|done]. simpl in Hp.
    destruct d as [[| | | | |dm]|]; try (simpl; rewrite Hk; simpl; done).
    rewrite mergeVal_obj. simpl. rewrite DeepMerge_lookup, Hk. simpl. by eapply IH.
  - rewrite mergeVal_leaf by done. done.
Qed.

Lemma untouched_none s p : touches s p = false → at_path p s = None.
Proof.
  revert p. induction s as [m IH|s Hs] using json_obj_ind; intros p Ht.
  - destruct p as [|k p]; [done|]. simpl in *. destruct (m !! k) eqn:Hk; [|done]. eauto.
  - by destruct s as [| | | | |m], p; try done; destruct (Hs m).
Qed.

Lemma merge_keeps_aux s p d :
  touches s p = false → at_path p (mergeVal d s) = d ≫= at_path p.
Proof.
  revert p d. induction s as [m IH|s Hs] using json_obj_ind; intros p d Ht.
  - destruct p as [|k p]; [done|]. pose proof (untouched_none _ _ Ht) as Hnone.
    destruct d as [[| | | | |dm]|]; try exact Hnone.
    rewrite mergeVal_obj. simpl. rewrite DeepMerge_lookup. simpl in Ht.
    destruct (m !! k) as [sv|] eqn:Hk; [|done]. simpl. by apply (IH k).
  - by destruct s as [| | | | |m], p; try done; destruct (Hs m).
Qed.

Lemma mergeVal_idem s d : mergeVal (Some (mergeVal d s)) s = mergeVal d s.
Proof.
  revert d. induction s as [m IH|s Hs] using json_obj_ind; intros d.
  2: by rewrite !mergeVal_leaf.
  assert (∃ dm, mergeVal d (JObj m) = JObj dm ∧ ∀ k sv, m !! k = Some sv →
            ∃ d', dm !! k = Some (mergeVal d' sv) ∨ (dm !! k = Some sv)) as (dm & -> & Hdm).
  { destruct d as [[| | | | |dm]|]; try (exists m; split; [done|]; intros k sv Hk; exists None; auto).
    exists (DeepMerge dm m). split; [done|]. intros k sv Hk. rewrite DeepMerge_lookup, Hk. eauto. }
  rewrite mergeVal_obj. f_equal. apply map_eq. intros k. rewrite DeepMerge_lookup.
  destruct (m !! k) as [sv|] eqn:Hk; [|done]. destruct (Hdm k sv Hk) as (d' & [-> | ->]).
  - f_equal. eauto.
  - f_equal. specialize (IH k sv Hk None). destruct sv; done.
Qed.

(** ** Properties *)

(** C18. What the override says, the merged body says: every scalar or array the
    override sets, at any depth, is at the same path of the result; every path
    the override is silent about keeps the value of the request. *)
Theorem override_wins (body override : gmap string json) (p : list string) :
  (∀ v, at_path p (JObj override) = Some v → is_obj v = false →
     at_path p (JObj (ApplyOverride body override)) = Some v) ∧
  (touches (JObj override) p = false →
     at_path p (JObj (ApplyOverride body override)) = at_path p (JObj body)).
Proof.
  assert (JObj (ApplyOverride body override) = mergeVal (Some (JObj body)) (JObj override)) as ->.
  { unfold ApplyOverride. case_bool_decide as Hs; [|done].
    apply map_size_empty_inv in Hs as ->. done. }
  split; [apply merge_sets_aux|apply merge_keeps_aux].
Qed.

(** [DeepMerge] is idempotent and does not depend on the order in which Go
    visits the source map: applying an override twice changes nothing, and any
    order of the loop gives the same body. *)
Theorem merge_any_order (dst src : gmap string json) (entries : list (string * json)) :
  entries ≡ₚ map_to_list src →
  mergeLoop dst entries = DeepMerge dst src ∧
  DeepMerge (DeepMerge dst src) src = DeepMerge dst src.
Proof.
  intros Hp. assert (NoDup (entries.*1)) as Hnd
    by (rewrite Hp; apply NoDup_fst_map_to_list).
  split; apply map_eq; intros k; rewrite !DeepMerge_lookup.
  - rewrite mergeLoop_lookup by done.
    by rewrite (list_to_map_proper _ _ Hnd Hp), list_to_map_to_list.
  - destruct (src !! k) as [sv|]; [|done]. by rewrite mergeVal_idem.
Qed.

(** ** Witnesses *)

Definition demo_body : gmap string json :=
  list_to_map [("model", JStr "gpt"); ("opts", obj [("a", JBool true); ("b", JBool true)])].
Definition demo_override : gmap string json :=
  list_to_map [("opts", obj [("b", JStr "x")]); ("stream", JBool false)].

Lemma override_wins_witness :
  at_path ["opts"; "b"] (JObj (ApplyOverride demo_body demo_override)) = Some (JStr "x") ∧
  at_path ["opts"; "a"] (JObj (ApplyOverride demo_body demo_override)) = Some (JBool true).
Proof.
  split.
  - apply (override_wins demo_body demo_override ["opts"; "b"]); vm_compute; reflexivity.
  - etrans; [apply (override_wins demo_body demo_override ["opts"; "a"])|]; vm_compute; reflexivity.
Defined.

Lemma merge_any_order_witness :
  mergeLoop demo_body [("stream", JBool false); ("opts", obj [("b", JStr "x")])]
    = DeepMerge demo_body demo_override.
Proof.
  apply (merge_any_order demo_body demo_override). vm_compute. apply perm_swap.
Defined.

End Override.
