(* ===== verification/Stream.v ===== *)
(** * proxy/stream.go: relaying server-sent events

    [ForwardStream] copies the lines of the upstream response to the client and
    counts tokens on the way.  The two uses of [json.Unmarshal] (into an OpenAI
    chunk, into an SGLang chunk) are the arguments [parseChunk] and
    [parseSgChunk]: [None] stands for an error.  [ctxErr i] is the error of the
    context when line [i] has been read. *)
From S2P Require Import Prelude GoStd GoFloat GoJson Domain GoHttp.

Module Stream.

Record StreamResult := mkStream {
  sr_PromptTokens : Z;
  sr_CompletionTokens : Z;
  sr_FullContent : string;
  sr_RawLines : list string;
}.

(** [chunk]: the contents of the deltas, the usage if present. *)
Record Chunk := { ch_Contents : list string; ch_Usage : option (Z * Z) }.

Definition maxTokenSize : Z := 10 * 1024 * 1024.

Section forward.
Context (parseChunk : string → option Chunk).
Context (parseSgChunk : string → option (Z * Z)).

(** The local variables of the loop: the result, [accumulatedContent] and
    [usageFound]. *)
Record acct := mkAcct { ac_res : StreamResult; ac_content : string; ac_found : bool }.

Definition emptyAcct : acct := mkAcct (mkStream 0 0 "" []) "" false.

Definition addRaw (line : string) (a : acct) : acct :=
  let r := ac_res a in
  mkAcct (mkStream (sr_PromptTokens r) (sr_CompletionTokens r) (sr_FullContent r)
            (sr_RawLines r ++ [line])) (ac_content a) (ac_found a).

Definition setUsage (u : Z * Z) (a : acct) : acct :=
  let r := ac_res a in
  mkAcct (mkStream u.1 u.2 (sr_FullContent r) (sr_RawLines r)) (ac_content a) true.

Definition addContent (c : string) (a : acct) : acct :=
  if bool_decide (c = "") then a
  else
    let r := ac_res a in
    mkAcct (mkStream (sr_PromptTokens r) (sr_CompletionTokens r) (sr_FullContent r +:+ c)
              (sr_RawLines r)) (ac_content a +:+ c) (ac_found a).

Definition isData (line : string) : bool :=
  HasPrefix line "data: " &&
  negb (bool_decide (TrimSpace (TrimPrefix line "data: ") = "[DONE]")).

(** The token accounting of one line. *)
Definition accountLine (line : string) (a : acct) : acct :=
  if negb (isData line) then a
  else
    let payload := TrimPrefix line "data: " in
    let a :=
      match parseChunk payload with
      | Some chunk =>
          let a := match ch_Usage chunk with Some u => setUsage u a | None => a end in
          fold_left (λ a c, addContent c a) (ch_Contents chunk) a
      | None => a
      end in
    if ac_found a then a
    else
      match parseSgChunk payload with
      | Some (input, output) => if 0 <? input then setUsage (input, output) a else a
      | None => a
      end.

(** The estimate when no usage was sent. *)
Definition fallback (a : acct) : StreamResult :=
  let r := ac_res a in
  if ac_found a then r
  else
    let runes := RuneCount (ac_content a) in
    mkStream (sr_PromptTokens r)
      (if runes =? 0 then 0 else Z.max 1 (Z.quot runes 2))
      (sr_FullContent r) (sr_RawLines r).

Context {W : Type} `{Writer W}.
Context (ctxErr : nat → option error).

Fixpoint streamLoop (i : nat) (toks : list string) (scanErr : option error) (a : acct) (w : W)
    : W * (StreamResult * option error) :=
  match toks with
  | [] =>
      match scanErr with
      | Some e => (w, (ac_res a, Some e))
      | None => (w, (fallback a, None))
      end
  | line :: toks =>
      match ctxErr i with
      | Some e => (w, (ac_res a, Some e))
      | None =>
          let a := addRaw line a in
          match wWrite (line +:+ nl) w with
          | (w, Some e) => (w, (ac_res a, Some e))
          | (w, None) => streamLoop (1 + i)%nat toks scanErr (accountLine line a) w
          end
      end
  end.

Definition ForwardStream (body : string) (readErr : option error) (w : W)
    : W * (StreamResult * option error) :=
  let '(toks, scanErr) := scanLines maxTokenSize body readErr in
  streamLoop 0 toks scanErr emptyAcct w.

(** ** What the loop does to the writer *)

Lemma streamLoop_stable (P : W → Prop) i toks scanErr a w :
  writer_stable P → P w → P (streamLoop i toks scanErr a w).1.
Proof.
  intros HP. revert i a w. induction toks as [|line toks IH]; intros i a w Hw; simpl.
  - by destruct scanErr.
  - destruct (ctxErr i); [done|]. destruct HP as (_ & _ & HPw).
    pose proof (HPw (line +:+ nl) w Hw) as Hw'.
    destruct (wWrite (line +:+ nl) w) as [w' [e|]]; [done|]. by apply IH.
Qed.

(** The writes of the lines, one after the other. *)
Fixpoint writeAll (lines : list string) (w : W) : W * option error :=
  match lines with
  | [] => (w, None)
  | line :: lines =>
      match wWrite (line +:+ nl) w with
      | (w, Some e) => (w, Some e)
      | (w, None) => writeAll lines w
      end
  end.

(** The accounting of a list of lines. *)
Definition account (toks : list string) (a : acct) : acct :=
  fold_left (λ a line, accountLine line (addRaw line a)) toks a.

Lemma streamLoop_complete i toks a w w' :
  (∀ j, ctxErr j = None) → writeAll toks w = (w', None) →
  streamLoop i toks None a w = (w', (fallback (account toks a), None)).
Proof.
  intros Hctx. revert i a w. induction toks as [|line toks IH]; intros i a w Hw; simpl in *.
  - by simplify_eq.
  - rewrite Hctx. destruct (wWrite (line +:+ nl) w) as [w1 [e|]]; [done|]. by rewrite IH.
Qed.

End forward.

(** ** The accounting *)

Section accounting.
Context (parseChunk : string → option Chunk).
Context (parseSgChunk : string → option (Z * Z)).

(** The OpenAI usage a line carries. *)
Definition usageIn (line : string) : option (Z * Z) :=
  if isData line then c ← parseChunk (TrimPrefix line "data: "); ch_Usage c else None.

Definition sgUsageIn (line : string) : option (Z * Z) :=
  if isData line then
    u ← parseSgChunk (TrimPrefix line "data: "); if 0 <? u.1 then Some u else None
  else None.

Definition contentIn (line : string) : string :=
  if isData line then
    match parseChunk (TrimPrefix line "data: ") with
    | Some c => foldr String.app "" (ch_Contents c)
    | None => ""
    end
  else "".

(** The usage of the last line that carries one. *)
Definition lastUsage (lines : list string) : option (Z * Z) :=
  last (omap usageIn lines).

Definition tokens (r : StreamResult) : Z * Z := (sr_PromptTokens r, sr_CompletionTokens r).

Lemma addContents_spec cs a :
  let a' := fold_left (λ a c, addContent c a) cs a in
  ac_found a' = ac_found a ∧ tokens (ac_res a') = tokens (ac_res a) ∧
  ac_content a' = ac_content a +:+ foldr String.app "" cs ∧
  sr_FullContent (ac_res a') = sr_FullContent (ac_res a) +:+ foldr String.app "" cs ∧
  sr_RawLines (ac_res a') = sr_RawLines (ac_res a).
Proof.
  revert a. induction cs as [|c cs IH]; intros a; simpl.
  { by rewrite !str_app_nil_r. }
  destruct (IH (addContent c a)) as (-> & -> & -> & -> & ->).
  unfold addContent. case_bool_decide; subst; simpl; [done|].
  by rewrite !str_app_assoc.
Qed.

(** One line: usage, content, raw line. *)
Lemma accountLine_spec line a :
  let a' := accountLine parseChunk parseSgChunk line (addRaw line a) in
  (ac_found a', tokens (ac_res a')) =
    match usageIn line with
    | Some u => (true, u)
    | None =>
        if ac_found a then (true, tokens (ac_res a))
        else match sgUsageIn line with
             | Some u => (true, u)
             | None => (false, tokens (ac_res a))
             end
    end ∧
  ac_content a' = ac_content a +:+ contentIn line ∧
  sr_FullContent (ac_res a') = sr_FullContent (ac_res a) +:+ contentIn line ∧
  sr_RawLines (ac_res a') = sr_RawLines (ac_res a) ++ [line].
Proof.
  unfold accountLine, usageIn, sgUsageIn, contentIn. destruct (isData line); simpl.
  2: { rewrite !str_app_nil_r. by destruct (ac_found a). }
  set (b := match parseChunk _ with Some _ => _ | None => _ end).
  assert ((ac_found b, tokens (ac_res b)) =
            match parseChunk (TrimPrefix line "data: ") ≫= ch_Usage with
            | Some u => (true, u) | None => (ac_found a, tokens (ac_res a)) end ∧
          ac_content b = ac_content a +:+
            match parseChunk (TrimPrefix line "data: ") with
            | Some c => foldr String.app "" (ch_Contents c) | None => "" end ∧
          sr_FullContent (ac_res b) = sr_FullContent (ac_res a) +:+
            match parseChunk (TrimPrefix line "data: ") with
            | Some c => foldr String.app "" (ch_Contents c) | None => "" end ∧
          sr_RawLines (ac_res b) = sr_RawLines (ac_res a) ++ [line]) as (Hb1 & Hb2 & Hb3 & Hb4).
  { unfold b. destruct (parseChunk _) as [[cs u]|]; simpl.
    - destruct u as [[u1 u2]|];
        match goal with |- context [fold_left _ cs ?x] =>
          destruct (addContents_spec cs x) as (-> & -> & -> & -> & ->) end; done.
    - by rewrite !str_app_nil_r. }
  clearbody b. destruct (parseChunk _ ≫= ch_Usage) as [u|]; apply pair_eq in Hb1 as [Hf Ht].
  { rewrite Hf. split_and!; [congruence|done..]. }
  rewrite Hf. destruct (ac_found a) eqn:E; [split_and!; [congruence|done..]|].
  destruct (parseSgChunk _) as [[p q]|]; simpl; [|split_and!; [congruence|done..]].
  destruct (0 <? p); simpl; split_and!; try done. congruence.
Qed.

(** A whole list of lines. *)
Lemma account_text lines a :
  let a' := account parseChunk parseSgChunk lines a in
  ac_content a' = ac_content a +:+ foldr String.app "" (contentIn <$> lines) ∧
  sr_FullContent (ac_res a') = sr_FullContent (ac_res a) +:+ foldr String.app "" (contentIn <$> lines) ∧
  sr_RawLines (ac_res a') = sr_RawLines (ac_res a) ++ lines.
Proof.
  unfold account. revert a. induction lines as [|line lines IH]; intros a; simpl.
  { by rewrite !str_app_nil_r, app_nil_r. }
  destruct (IH (accountLine parseChunk parseSgChunk line (addRaw line a))) as (-> & -> & ->).
  destruct (accountLine_spec line a) as (_ & -> & -> & ->).
  by rewrite !str_app_assoc, <-app_assoc.
Qed.

Lemma account_usage lines a :
  let a' := account parseChunk parseSgChunk lines a in
  (ac_found a', tokens (ac_res a')) =
    match lastUsage lines with
    | Some u => (true, u)
    | None =>
        if ac_found a then (true, tokens (ac_res a))
        else match head (omap sgUsageIn lines) with
             | Some u => (true, u)
             | None => (false, tokens (ac_res a))
             end
    end.
Proof.
  unfold account, lastUsage. revert a. induction lines as [|line lines IH]; intros a; simpl.
  { by destruct (ac_found a). }
  rewrite IH. destruct (accountLine_spec line a) as (Hline & _).
  destruct (usageIn line) as [u|]; simpl.
  - rewrite last_cons.
    change (list_omap string (Z * Z)%type usageIn lines) with (omap usageIn lines). apply pair_eq in Hline as [-> ->]. by destruct (last (omap usageIn lines)).
  - change (list_omap string (Z * Z)%type usageIn lines) with (omap usageIn lines).
    destruct (last (omap usageIn lines)); [done|].
    destruct (ac_found a); [by apply pair_eq in Hline as [-> ->]|].
    destruct (sgUsageIn line); by apply pair_eq in Hline as [-> ->].
Qed.

(** ** Properties *)

Context (ctxErr : nat → option error).

(** C16. A stream that is not interrupted is relayed line by line and completely:
    the client gets every line of the upstream, with a newline at the end of the
    last one too and without a carriage return at the end of a line; a stream
    without carriage returns arrives as it was sent, but for a final newline that
    is added when missing.  Its tokens are those of the last chunk with a usage,
    else those of the first SGLang-style chunk, else half the runes of the
    deltas' contents (at least 1, unless there are none); the result also holds
    the concatenated contents and every line. *)
Theorem stream_complete (body : string) (lines : list string) (w : ResponseWriter) :
  (∀ i, ctxErr i = None) → scanLines maxTokenSize body None = (lines, None) →
  rw_quota w = None → is_Some (rw_sent w) →
  let content := foldr String.app "" (contentIn <$> lines) in
  lines = dropCR <$> rawLines body ∧
  (free_of carriageReturn body = true → unlines lines = terminated body) ∧
  ForwardStream parseChunk parseSgChunk ctxErr body None w =
    (mkRW (rw_header w) (rw_sent w) (rw_body w +:+ unlines lines) None,
     (match lastUsage lines, head (omap sgUsageIn lines) with
      | Some u, _ | None, Some u => mkStream u.1 u.2 content lines
      | None, None =>
          mkStream 0 (if bool_decide (content = "") then 0
                      else Z.max 1 (RuneCount content / 2)) content lines
      end, None)).
Proof.
  intros Hctx Hscan Hq Hsent content. split; [by eapply scanTokens_all|]. split; [by eapply unlines_scanLines|].
  unfold ForwardStream, unlines. rewrite Hscan.
  erewrite streamLoop_complete; [|done|].
  - f_equal. f_equal. pose proof (account_usage lines emptyAcct) as Hu.
    destruct (account_text lines emptyAcct) as (Hc & Hf & Hl).
    destruct (account parseChunk parseSgChunk lines emptyAcct) as [[p q f r] c b].
    unfold fallback, tokens in *. simpl in *. subst c f r.
    change ("" +:+ foldr String.app "" (contentIn <$> lines)) with content.
    destruct (lastUsage lines) as [[u1 u2]|]; [by simplify_eq|].
    destruct (head (omap sgUsageIn lines)) as [[u1 u2]|]; [by simplify_eq|]. simplify_eq/=.
    f_equal. pose proof (RuneCount_zero content) as Hz.
    pose proof (runeLoop_bounds 0 content) as [Hb _]. fold (RuneCount content) in Hb.
    rewrite Z.quot_div_nonneg by lia. case_bool_decide; destruct (Z.eqb_spec (RuneCount content) 0); tauto.
  - clear -Hq Hsent. revert w Hq Hsent.
    induction lines as [|line lines IH]; intros w Hq Hsent; simpl.
    { destruct w. simpl in *. subst. by rewrite str_app_nil_r. }
    unfold rwWrite. destruct Hsent as [x Hx]. rewrite (rwWriteHeader_keep _ _ x Hx), Hq.
    rewrite IH; [|done|by rewrite Hx]. simpl. by rewrite str_app_assoc.
Qed.

End accounting.

(** ** Witness *)

Definition demo_parse (payload : string) : option Chunk :=
  if bool_decide (payload = "A") then Some {| ch_Contents := ["Hel"; "lo"]; ch_Usage := None |}
  else if bool_decide (payload = "B") then Some {| ch_Contents := []; ch_Usage := Some (3, 4) |}
  else None.

Definition sentRW : ResponseWriter := rwWriteHeader 200 newRW.

Lemma stream_complete_witness :
  (ForwardStream demo_parse (λ _, None) (λ _, None)
     ("data: A" +:+ nl +:+ nl +:+ "data: B" +:+ nl +:+ "data: [DONE]") None sentRW).2 =
  (mkStream 3 4 "Hello" ["data: A"; ""; "data: B"; "data: [DONE]"], None) ∧
  unlines ["data: A"; ""; "data: B"; "data: [DONE]"] =
    terminated ("data: A" +:+ nl +:+ nl +:+ "data: B" +:+ nl +:+ "data: [DONE]") ∧
  terminated ("data: A" +:+ nl +:+ nl +:+ "data: B" +:+ nl +:+ "data: [DONE]") =
    "data: A" +:+ nl +:+ nl +:+ "data: B" +:+ nl +:+ "data: [DONE]" +:+ nl.
Proof.
  destruct (stream_complete demo_parse (λ _, None) (λ _, None)
    ("data: A" +:+ nl +:+ nl +:+ "data: B" +:+ nl +:+ "data: [DONE]")
    ["data: A"; ""; "data: B"; "data: [DONE]"] sentRW) as (_ & Hv & ->);
    [done|vm_compute; reflexivity|reflexivity|by eexists|]. split; [vm_compute; reflexivity|].
  split; [by apply Hv; vm_compute|by vm_compute].
Defined.

End Stream.
