(* ===== verification/Proxy.v ===== *)
(** * proxy/proxy.go: forwarding one request to one node

    [Forward] rewrites the body, sends it and copies the answer to the writer.
    What lies outside the program is an argument: [json.Unmarshal] and
    [json.Marshal] of the body ([Unmarshal], [Marshal]; a JSON [null] gives a nil
    map, [None]), [http.NewRequestWithContext] (it fails, or gives the URL's
    host), and the exchange with the upstream ([upstream]: the answer of
    [client.Do], the error of the context before each line of a stream, and the
    elapsed time).  The result [None] of [Forward] is a panic: an assignment to
    a nil map. *)
From S2P Require Import Prelude GoStd GoFloat GoJson Domain GoHttp Override Stream.
Import Override Stream.

Module Proxy.

Definition defaultTimeoutSec : Z := 120.

Record ForwardResult := mkFwd {
  fr_StatusCode : Z;
  fr_Body : string;
  fr_Stream : option StreamResult;
  fr_DurationMs : Z;
}.

(** The incoming request as [Forward] reads it: [r.Method],
    [r.URL.RequestURI()], [r.Header], and [io.ReadAll(r.Body)]. *)
Record Request := {
  r_Method : string;
  r_RequestURI : string;
  r_Header : Header;
  r_Body : result error string;
}.

(** The request that leaves the proxy. *)
Record UpstreamReq := {
  up_Method : string;
  up_URL : string;
  up_Host : string;
  up_Header : Header;
  up_Body : string;
  up_TimeoutSec : Z;
}.

Record Response := {
  rs_StatusCode : Z;
  rs_Header : Header;
  rs_Body : string;
  rs_ReadErr : option error;
}.

Record Exchange := {
  x_Do : result error Response;
  x_ctxErr : nat → option error;
  x_Ms : Z;
}.

(** [fmt.Errorf(prefix + "%w", err)] keeps the error chain. *)
Definition wrapErr (prefix : string) (e : error) : error :=
  mkError (err_Kind e) (prefix +:+ err_Msg e).

Section forward.
Context (Unmarshal : string → result error (option (gmap string json))).
Context (Marshal : option (gmap string json) → result error string).
Context (NewRequest : string → string → result error string).
Context (parseChunk : string → option Chunk) (parseSgChunk : string → option (Z * Z)).

(** The body after the model name and the override; [None] is a panic. *)
Definition rewriteBody (node : ModelNode) (bodyMap : option (gmap string json))
    : option (option (gmap string json)) :=
  match bodyMap with
  | Some m =>
      let m := if bool_decide (node_ModelName node = "") then m
               else <["model" := JStr (node_ModelName node)]> m in
      Some (Some (ApplyOverride m (node_Override node)))
  | None =>
      if bool_decide (node_ModelName node = "") && bool_decide (size (node_Override node) = 0%nat)
      then Some None else None
  end.

Definition parseBody (rawBody : string) : result error (option (gmap string json)) :=
  if (0 <? Z.of_nat (String.length rawBody)) then Unmarshal rawBody else Ok (Some ∅).

Definition upstreamHeader (node : ModelNode) (h : Header) : Header :=
  let h := hdrSet "Content-Type" "application/json" (hdrAddAll h ∅) in
  if bool_decide (node_APIKey node = "") then h
  else hdrSet "Authorization" ("Bearer " +:+ node_APIKey node) h.

(** The first half of [Forward]: read, rewrite, serialise, address. *)
Definition buildUpstream (node : ModelNode) (r : Request)
    : option (result error (UpstreamReq * bool)) :=
  let timeoutSec := if node_TimeoutSec node <=? 0 then defaultTimeoutSec else node_TimeoutSec node in
  match r_Body r with
  | Err e => Some (Err (wrapErr "proxy: read request body: " e))
  | Ok rawBody =>
    match parseBody rawBody with
    | Err e => Some (Err (wrapErr "proxy: parse request body: " e))
    | Ok bodyMap =>
      bodyMap ← rewriteBody node bodyMap;
      let isStream := as_bool (bodyMap ≫= λ m, m !! "stream") in
      match Marshal bodyMap with
      | Err e => Some (Err (wrapErr "proxy: marshal modified body: " e))
      | Ok modifiedBody =>
        let upstreamURL := node_BaseURL node +:+ r_RequestURI r in
        match NewRequest (r_Method r) upstreamURL with
        | Err e => Some (Err (wrapErr "proxy: build upstream request: " e))
        | Ok host =>
          Some (Ok ({| up_Method := r_Method r; up_URL := upstreamURL; up_Host := host;
                       up_Header := upstreamHeader node (r_Header r);
                       up_Body := modifiedBody; up_TimeoutSec := timeoutSec |}, isStream))
        end
      end
    end
  end.

Context {W : Type} `{Writer W}.

Definition streamHeaders (h : Header) : Header :=
  hdrSet "X-Accel-Buffering" "no" (hdrSet "Cache-Control" "no-cache"
    (hdrSet "Content-Type" "text/event-stream" (hdrSet "Transfer-Encoding" "chunked" h))).

(** The streaming branch: headers, status, then [ForwardStream]. *)
Definition relayStream (x : Exchange) (resp : Response) (w : W)
    : W * (option ForwardResult * option error) :=
  let w := wSetHeader (streamHeaders (hdrAddAll (rs_Header resp) (wHeader w))) w in
  let w := wWriteHeader (rs_StatusCode resp) w in
  let '(w, (sr, err)) :=
    ForwardStream parseChunk parseSgChunk (x_ctxErr x) (rs_Body resp) (rs_ReadErr resp) w in
  (w, (Some (mkFwd (rs_StatusCode resp) "" (Some sr) (x_Ms x)),
       wrapErr "proxy: stream forward: " <$> err)).

(** The other branch: the whole body, then headers, status and body. *)
Definition relayBody (x : Exchange) (resp : Response) (w : W)
    : W * (option ForwardResult * option error) :=
  match rs_ReadErr resp with
  | Some e => (w, (None, Some (wrapErr "proxy: read upstream response: " e)))
  | None =>
      let w := wSetHeader (hdrAddAll (rs_Header resp) (wHeader w)) w in
      let w := wWriteHeader (rs_StatusCode resp) w in
      let '(w, err) := wWrite (rs_Body resp) w in
      (w, (Some (mkFwd (rs_StatusCode resp) (rs_Body resp) None (x_Ms x)),
           wrapErr "proxy: write response to client: " <$> err))
  end.

Definition Forward (upstream : UpstreamReq → Exchange) (node : ModelNode) (r : Request) (w : W)
    : option (W * (option ForwardResult * option error)) :=
  match buildUpstream node r with
  | None => None
  | Some (Err e) => Some (w, (None, Some e))
  | Some (Ok (req, isStream)) =>
      let x := upstream req in
      match x_Do x with
      | Err e => Some (w, (None, Some (wrapErr "proxy: upstream request: " e)))
      | Ok resp => Some (if isStream then relayStream x resp w else relayBody x resp w)
      end
  end.

(** ** Forward touches the writer through its operations only *)

Lemma relayStream_stable (P : W → Prop) x resp w :
  writer_stable P → P w → P (relayStream x resp w).1.
Proof.
  intros HP Hw. pose proof HP as (Hset & Hhdr & _). unfold relayStream, ForwardStream.
  set (w1 := wWriteHeader _ _). assert (P w1) as Hw1 by (unfold w1; auto).
  destruct (scanLines _ _ _) as [toks e].
  pose proof (streamLoop_stable parseChunk parseSgChunk (x_ctxErr x) P 0 toks e emptyAcct w1 HP Hw1).
  by destruct (streamLoop _ _ _ _ _ _ _ _) as [w2 [sr err]].
Qed.

Lemma relayBody_stable (P : W → Prop) x resp w :
  writer_stable P → P w → P (relayBody x resp w).1.
Proof.
  intros (Hset & Hhdr & Hwr) Hw. unfold relayBody. destruct (rs_ReadErr resp); [done|].
  set (w1 := wWriteHeader _ _). assert (P w1) as Hw1 by (unfold w1; auto).
  pose proof (Hwr (rs_Body resp) w1 Hw1). by destruct (wWrite (rs_Body resp) w1).
Qed.

Lemma Forward_stable (P : W → Prop) upstream node r w w' res :
  writer_stable P → P w → Forward upstream node r w = Some (w', res) → P w'.
Proof.
  intros HP Hw HF. unfold Forward in HF.
  destruct (buildUpstream node r) as [[[req isStream]|e]|]; simplify_eq/=; [|done].
  destruct (x_Do (upstream req)) as [resp|e]; [|by simplify_eq].
  pose proof (relayStream_stable P (upstream req) resp w HP Hw) as H1.
  pose proof (relayBody_stable P (upstream req) resp w HP Hw) as H2.
  injection HF as HF. destruct isStream; rewrite HF in *; done.
Qed.

(** ** Properties *)

(** C17. What reaches the upstream: the request body with the node's model name
    and overrides merged in (the override wins over both the client and the
    model name), sent with the client's method to the node's base URL with the
    client's path, under the node's timeout (120 s when none is set).  Its
    headers are exactly the client's, with the content type set to JSON and, when
    the node has a key, the node's credentials in place of the client's. *)
Theorem upstream_request (node : ModelNode) (r : Request) (raw : string) (m : gmap string json)
    (req : UpstreamReq) (isStream : bool) :
  r_Body r = Ok raw → raw ≠ "" → Unmarshal raw = Ok (Some m) → headerOk (r_Header r) →
  buildUpstream node r = Some (Ok (req, isStream)) →
  let m' := ApplyOverride (if bool_decide (node_ModelName node = "") then m
                           else <["model" := JStr (node_ModelName node)]> m) (node_Override node) in
  Marshal (Some m') = Ok (up_Body req) ∧
  isStream = as_bool (m' !! "stream") ∧
  up_URL req = node_BaseURL node +:+ r_RequestURI r ∧ up_Method req = r_Method r ∧
  NewRequest (r_Method r) (up_URL req) = Ok (up_Host req) ∧
  (0 < node_TimeoutSec node → up_TimeoutSec req = node_TimeoutSec node) ∧
  (node_TimeoutSec node ≤ 0 → up_TimeoutSec req = 120) ∧
  up_Header req !! "Content-Type" = Some ["application/json"] ∧
  up_Header req !! "Authorization" =
    (if decide (node_APIKey node = "") then r_Header r !! "Authorization" else Some ["Bearer " +:+ node_APIKey node]) ∧
  (∀ key, key ≠ "Content-Type" → key ≠ "Authorization" → up_Header req !! key = r_Header r !! key) ∧
  (node_ModelName node ≠ "" → node_Override node !! "model" = None →
     m' !! "model" = Some (JStr (node_ModelName node))).
Proof.
  intros Hb Hraw Hu Hh HB m'. unfold buildUpstream, parseBody in HB. rewrite Hb in HB.
  assert ((0 <? Z.of_nat (String.length raw)) = true) as Hlen by (by destruct raw).
  rewrite Hlen, Hu in HB. cbn [rewriteBody mbind option_bind] in HB. fold m' in HB.
  destruct (Marshal (Some m')) as [mb|e] eqn:HM; [|done].
  destruct (NewRequest _ _) as [host|e] eqn:HN; [|done]. simplify_eq. simpl.
  assert (upstreamHeader node (r_Header r) =
    (if decide (node_APIKey node = "") then id else <["Authorization" := ["Bearer " +:+ node_APIKey node]]>)
      (<["Content-Type" := ["application/json"]]> (r_Header r))) as Hhdr.
  { unfold upstreamHeader. rewrite (hdrAddAll_empty _ Hh).
    case_bool_decide; [rewrite decide_True by done|rewrite decide_False by done]; done. }
  rewrite Hhdr. unfold defaultTimeoutSec. split_and!; try done.
  - destruct (Z.leb_spec (node_TimeoutSec node) 0); lia.
  - destruct (Z.leb_spec (node_TimeoutSec node) 0); lia.
  - case_decide; [apply lookup_insert_eq|]. by rewrite lookup_insert_ne, lookup_insert_eq by done.
  - case_decide; unfold id; [by rewrite lookup_insert_ne by done|apply lookup_insert_eq].
  - intros key H1 H2. case_decide; unfold id; by rewrite ?lookup_insert_ne by done.
  - intros Hn Ho. unfold m'. rewrite bool_decide_false by done. unfold ApplyOverride.
    case_bool_decide; [by rewrite lookup_insert_eq|].
    by rewrite DeepMerge_lookup, Ho, lookup_insert_eq.
Qed.

End forward.

(** ** Witness *)

Definition demo_node : ModelNode :=
  {| node_ID := "n"; node_Name := "n"; node_Aliases := ["gpt"]; node_BaseURL := "http://up";
     node_APIKey := "sk"; node_ModelName := "real"; node_EndpointType := EndpointAll; node_TPM := 0;
     node_RPM := 0; node_Override := {["stream" := JBool true]}; node_TimeoutSec := 0;
     node_Enabled := true; node_CreatedAt := 0; node_UpdatedAt := 0 |}.

Definition demo_request : Request :=
  {| r_Method := "POST"; r_RequestURI := "/v1/chat/completions";
     r_Header := <["X-Trace" := ["1"; "2"]]> {["Authorization" := ["Bearer client"]]}; r_Body := Ok "BODY" |}.

Lemma upstream_request_witness :
  ∃ req, buildUpstream (λ _, Ok (Some {["model" := JStr "gpt"]})) (λ m, Ok "OUT") (λ _ _, Ok "up")
           demo_node demo_request = Some (Ok (req, true)) ∧
    up_URL req = "http://up/v1/chat/completions" ∧ up_TimeoutSec req = 120 ∧
    up_Header req !! "X-Trace" = Some ["1"; "2"] ∧ up_Header req !! "Authorization" = Some ["Bearer sk"].
Proof.
  eexists. split; [vm_compute; reflexivity|].
  assert (headerOk (r_Header demo_request)) as Hh
    by (apply map_Forall_insert_2; [by vm_compute|apply map_Forall_singleton; by vm_compute]).
  pose proof (upstream_request (λ _, Ok (Some {["model" := JStr "gpt"]})) (λ m, Ok "OUT")
    (λ _ _, Ok "up") demo_node demo_request "BODY" {["model" := JStr "gpt"]} _ true eq_refl
    ltac:(done) eq_refl Hh eq_refl) as (_ & _ & H1 & _ & _ & _ & H2 & _ & H3 & H4 & _).
  split_and!; [exact H1|by apply H2|by rewrite H4|exact H3].
Defined.

End Proxy.
