(* ===== verification/ChainLogger.v ===== *)
(** * logging/chain_logger.go: error classes, client address, throttled warnings

    [ClassifyError] and [IsRetryable] decide whether the worker pool may try
    another node.  The throttling of the rate-limit warning is modelled with the
    atomic operations of concurrent callers interleaved.  The lines that the
    other methods write are in [Console]. *)
From S2P Require Import Prelude GoStd GoFloat GoJson Domain GoHttp.
From Stdlib Require Import Ascii.

Module Chain.

Definition ClassifyError (err : option error) (statusCode : Z) : string :=
  match err with
  | None =>
      if 500 <=? statusCode then "upstream_5xx"
      else if statusCode =? 429 then "upstream_429"
      else if 400 <=? statusCode then "upstream_4xx"
      else "unknown"
  | Some e =>
      match err_Kind e with
      | DeadlineExceeded => "upstream_timeout"
      | Canceled => "client_cancelled"
      | OtherError =>
          if Contains (err_Msg e) "connection refused" then "connection_refused"
          else if Contains (err_Msg e) "connection reset" then "connection_reset"
          else if Contains (err_Msg e) "no such host" then "dns_error"
          else "unknown_error"
      end
  end.

Definition retryableErrors : gmap string bool := list_to_map
  [("upstream_timeout", true); ("upstream_5xx", true); ("upstream_429", true);
   ("connection_refused", true); ("connection_reset", true); ("dns_error", true)].

Definition IsRetryable (errorType : string) : bool := default false (retryableErrors !! errorType).

(** [net.SplitHostPort] on success: the last colon separates the port; a host
    with a colon must be bracketed; no stray brackets. *)
Fixpoint lastColon (s : string) : option (string * string) :=
  match s with
  | "" => None
  | String c s' =>
      match lastColon s' with
      | Some (h, p) => Some (String c h, p)
      | None => if Ascii.eqb c ":" then Some ("", s') else None
      end
  end.

Fixpoint splitAt (c : ascii) (s : string) : option (string * string) :=
  match s with
  | "" => None
  | String a s' =>
      if Ascii.eqb a c then Some ("", s')
      else match splitAt c s' with Some (x, y) => Some (String a x, y) | None => None end
  end.

Definition SplitHost (hostport : string) : option string :=
  match lastColon hostport with
  | None => None
  | Some (before, port) =>
      if negb (free_of "[" port && free_of "]" port) then None
      else if HasPrefix hostport "[" then
        match splitAt "]" (strdrop 1 hostport) with
        | Some (host, rest) =>
            if bool_decide (rest = String ":" port) && free_of "[" host then Some host else None
        | None => None
        end
      else if free_of ":" before && free_of "[" before && free_of "]" before then Some before
      else None
  end.

Definition extractClientIP (headers : Header) (remoteAddr : string) : string :=
  let xff := hdrGet headers "X-Forwarded-For" in
  if negb (bool_decide (xff = "")) then hd "" (Split xff ",")
  else
    let xri := hdrGet headers "X-Real-IP" in
    if negb (bool_decide (xri = "")) then xri
    else match SplitHost remoteAddr with Some host => host | None => remoteAddr end.

Definition short (id : string) : string :=
  if 8 <? Z.of_nat (String.length id) then strtake 8 id else id.

(** ** Retryable errors *)

Lemma retryable_status code :
  IsRetryable (ClassifyError None code) = (500 <=? code) || (code =? 429).
Proof.
  unfold ClassifyError. destruct (500 <=? code); [reflexivity|].
  destruct (code =? 429); [reflexivity|]. destruct (400 <=? code); reflexivity.
Qed.

(** The error classes that allow a retry are the documented ones: an
    upstream status of 429 or at least 500, a timeout, a refused or reset
    connection and an unknown host; a client that went away, another status or
    another error is never classified as retryable. *)
Theorem retryable_iff (err : option error) (statusCode : Z) :
  IsRetryable (ClassifyError err statusCode) = true ↔
  match err with
  | None => 500 ≤ statusCode ∨ statusCode = 429
  | Some e =>
      err_Kind e = DeadlineExceeded ∨
      (err_Kind e = OtherError ∧
       (Contains (err_Msg e) "connection refused" = true ∨
        Contains (err_Msg e) "connection reset" = true ∨
        Contains (err_Msg e) "no such host" = true))
  end.
Proof.
  destruct err as [[k msg]|].
  - unfold ClassifyError. destruct k; simpl; [naive_solver|split; [done|naive_solver]|].
    destruct (Contains msg "connection refused"), (Contains msg "connection reset"),
      (Contains msg "no such host"); vm_compute; naive_solver.
  - rewrite retryable_status, orb_true_iff, Z.leb_le, Z.eqb_eq. done.
Qed.

(** ** The throttled warning *)

(** The atomics [rlBlockedCount] and [rlLastLogTime], and the warnings logged
    so far, newest first: the time and the count each reports. *)
Record ChainLogger := mkChain {
  cl_blocked : Z;
  cl_last : Z;
  cl_warnings : list (Z * Z);
}.

(** A call of [LogRateLimitCheck] between its atomic operations. *)
Inductive caller :=
| Counting (allowed : bool)
| Loading (count now : Z)
| Swapping (count now last : Z)
| Resetting
| Returned.

(** The next atomic step of a call, the clock reading [clock]. *)
Definition callStep (clock : Z) (c : caller) (l : ChainLogger) : caller * ChainLogger :=
  match c with
  | Counting allowed =>
      if allowed then (Returned, l)
      else let count := wrap64 (cl_blocked l + 1) in
           (Loading count clock, mkChain count (cl_last l) (cl_warnings l))
  | Loading count now =>
      if now - cl_last l <? 5 then (Returned, l) else (Swapping count now (cl_last l), l)
  | Swapping count now last =>
      if cl_last l =? last
      then (Resetting, mkChain (cl_blocked l) now ((now, count) :: cl_warnings l))
      else (Returned, l)
  | Resetting => (Returned, mkChain 0 (cl_last l) (cl_warnings l))
  | Returned => (Returned, l)
  end.

Inductive lstep : list caller * ChainLogger → list caller * ChainLogger → Prop :=
| lstep_call cs l allowed : lstep (cs, l) (Counting allowed :: cs, l)
| lstep_run cs l i c c' l' clock :
    cs !! i = Some c → callStep clock c l = (c', l') → lstep (cs, l) (<[i := c']> cs, l').

(** Warnings at least five seconds apart, newest first. *)
Fixpoint spaced (ws : list (Z * Z)) : Prop :=
  match ws with
  | w1 :: ((w2 :: _) as ws) => w2.1 + 5 ≤ w1.1 ∧ spaced ws
  | _ => True
  end.

Definition caller_ok (c : caller) : Prop :=
  match c with Swapping _ now last => last + 5 ≤ now | _ => True end.

Definition throttle_inv (s : list caller * ChainLogger) : Prop :=
  Forall caller_ok s.1 ∧ spaced (cl_warnings s.2) ∧
  match cl_warnings s.2 with w :: _ => cl_last s.2 = w.1 | [] => True end.

Lemma lstep_inv s s' : throttle_inv s → lstep s s' → throttle_inv s'.
Proof.
  intros Hinv Hs. destruct Hs as [cs l allowed|cs l i c c' l' clock Hi Hstep];
    destruct Hinv as (Hcs & Hsp & Hlast); simpl in *.
  { split_and!; [|done|done]. apply Forall_cons. by split; [exact I|]. }
  pose proof (Forall_lookup_1 _ _ _ _ Hcs Hi) as Hc.
  destruct c as [allowed|count now|count now last| |]; simpl in *.
  - destruct allowed; simplify_eq; (split_and!; [apply Forall_insert|..]; done).
  - destruct (Z.ltb_spec (now - cl_last l) 5); simplify_eq;
      (split_and!; [apply Forall_insert; [done|simpl; first [done|lia]]|done|done]).
  - destruct (Z.eqb_spec (cl_last l) last) as [<-|]; simplify_eq.
    + split_and!; [by apply Forall_insert| |done]. simpl.
      destruct (cl_warnings l); [done|]. simplify_eq/=. split; [lia|done].
    + split_and!; [by apply Forall_insert|done|done].
  - simplify_eq. split_and!; [by apply Forall_insert|done|done].
  - simplify_eq. split_and!; [by apply Forall_insert|done|done].
Qed.

(** However many callers race in [LogRateLimitCheck], two successive
    warnings are at least five seconds apart: of the callers that saw the same
    last warning only one wins the compare-and-swap. *)
Theorem warnings_spaced (t0 : Z) (cs : list caller) (l : ChainLogger) :
  rtc lstep ([], mkChain 0 t0 []) (cs, l) → spaced (cl_warnings l).
Proof.
  intros Hr. apply (rtc_invariant lstep throttle_inv) in Hr; [apply Hr|apply lstep_inv|].
  by split_and!.
Qed.

(** ** Witnesses *)

(** Two callers race: both load the same time, one logs. *)
Definition race : list caller * ChainLogger :=
  ([Resetting; Returned], mkChain 2 10 [(10, 2)]).

Lemma warnings_spaced_witness :
  rtc lstep ([], mkChain 0 0 []) race ∧ spaced (cl_warnings race.2).
Proof.
  assert (rtc lstep ([], mkChain 0 0 []) race) as Hr.
  { eapply rtc_l; [apply (lstep_call _ _ false)|]. eapply rtc_l; [apply (lstep_call _ _ false)|].
    eapply rtc_l; [eapply (lstep_run _ _ 1 (Counting false) _ _ 10); reflexivity|].
    eapply rtc_l; [eapply (lstep_run _ _ 0 (Counting false) _ _ 10); reflexivity|].
    eapply rtc_l; [eapply (lstep_run _ _ 0 (Loading 2 10) _ _ 10); reflexivity|].
    eapply rtc_l; [eapply (lstep_run _ _ 1 (Loading 1 10) _ _ 10); reflexivity|].
    eapply rtc_l; [eapply (lstep_run _ _ 0 (Swapping 2 10 0) _ _ 10); reflexivity|].
    eapply rtc_l; [eapply (lstep_run _ _ 1 (Swapping 1 10 0) _ _ 11); reflexivity|].
    apply rtc_refl. }
  split; [exact Hr|]. apply (warnings_spaced 0 _ _ Hr).
Defined.

End Chain.
