(* ===== verification/WorkerPool.v ===== *)
(** * worker/pool.go: the retrying forwarder

    [retryableRecorder] buffers an answer that may still be retried;
    [forwardWithRetry] tries candidate nodes until one answers.  What the
    outside world does during the call is an argument, [World]: for each attempt
    the exchange with the upstream, whether the request's context is done,
    the draws of [rand.Intn], and the clock's answers. *)
From S2P Require Import Prelude GoStd GoFloat GoJson GoHeap Domain GoHttp Override Stream Proxy.
From S2P Require Import ChainLogger Router RequestQueue.
Import Stream Proxy.

Module Pool.

(** ** retryableRecorder *)

Record retryableRecorder := mkRec {
  rec_w : ResponseWriter;
  rec_header : Header;
  rec_statusCode : Z;
  rec_wroteHeader : bool;
  rec_body : string;
  rec_commit : bool;
}.

Definition newRetryableRecorder (w : ResponseWriter) : retryableRecorder :=
  mkRec w ∅ 0 false "" false.

Definition Commit (r : retryableRecorder) : retryableRecorder :=
  if rec_commit r then r
  else
    let w := wSetHeader (hdrCopy (rec_header r) (wHeader (rec_w r))) (rec_w r) in
    let statusCode := if rec_statusCode r =? 0 then 200 else rec_statusCode r in
    mkRec (wWriteHeader statusCode w) (rec_header r) statusCode (rec_wroteHeader r)
      (rec_body r) true.

Definition WriteHeader (statusCode : Z) (r : retryableRecorder) : retryableRecorder :=
  if rec_wroteHeader r then r
  else
    let r := mkRec (rec_w r) (rec_header r) statusCode true (rec_body r) (rec_commit r) in
    if negb (Chain.IsRetryable (Chain.ClassifyError None statusCode)) then Commit r else r.

Definition Write (b : string) (r : retryableRecorder) : retryableRecorder * option error :=
  let r := if rec_wroteHeader r then r else WriteHeader 200 r in
  if rec_commit r then
    let '(w, err) := wWrite b (rec_w r) in
    (mkRec w (rec_header r) (rec_statusCode r) (rec_wroteHeader r) (rec_body r) (rec_commit r), err)
  else
    (mkRec (rec_w r) (rec_header r) (rec_statusCode r) (rec_wroteHeader r) (rec_body r +:+ b)
       (rec_commit r), None).

#[global] Instance rec_Writer : Writer retryableRecorder := {|
  wHeader := rec_header;
  wSetHeader h r := mkRec (rec_w r) h (rec_statusCode r) (rec_wroteHeader r) (rec_body r) (rec_commit r);
  wWriteHeader := WriteHeader;
  wWrite := Write;
|}.

(** ** forwardWithRetry *)

Record WorkerConfig := {
  wc_WorkerCount : Z;
  wc_MaxRetryAttempts : Z;
  wc_RetryDelayMs : Z;
  wc_MaxWaitTime : Z;
}.

Definition writeWorkerError (w : ResponseWriter) (status : Z) (errorType : string) : ResponseWriter :=
  let msg :=
    if bool_decide (errorType = "dns_error") || bool_decide (errorType = "connection_refused")
       || bool_decide (errorType = "connection_reset") then "model service unreachable"
    else if bool_decide (errorType = "upstream_timeout") then "model service timeout"
    else if bool_decide (errorType = "upstream_5xx") then "model service internal error"
    else if bool_decide (errorType = "upstream_429")
      then "model service rate limited, please retry later"
    else "service unavailable" in
  let q := bytes [34%nat] in
  let w := wSetHeader (hdrSet "Content-Type" "application/json" (wHeader w)) w in
  (wWrite ("{" +:+ q +:+ "error" +:+ q +:+ ":{" +:+ q +:+ "message" +:+ q +:+ ":" +:+ q +:+ msg
           +:+ q +:+ "," +:+ q +:+ "type" +:+ q +:+ ":" +:+ q +:+ "proxy_error" +:+ q +:+ ","
           +:+ q +:+ "code" +:+ q +:+ ":" +:+ FormatInt status +:+ "}}")
     (wWriteHeader status w)).1.

Definition pickNode (rnd : Z → Z) (candidates : list ModelNode) (excluded : gset string)
    : option ModelNode :=
  let available := filter (λ n, node_ID n ∉ excluded ∧ node_Enabled n = true) candidates in
  if bool_decide (length available = 0%nat) then None else Routing.Pick rnd available.

Record World := {
  wd_upstream : nat → UpstreamReq → Exchange;
  wd_cancelled : nat → bool;
  wd_rand : nat → Z → Z;
  wd_attemptMs : nat → Z;
  wd_elapsedMs : nat → Z;
}.

Definition emptyResult (statusCode : Z) (err errorType : string) (attempts : list AttemptLog)
    (ms : Z) : ExecutionResult :=
  {| ex_StatusCode := statusCode; ex_Body := ""; ex_Headers := ∅; ex_PromptTokens := 0;
     ex_CompletionTokens := 0; ex_TotalTokens := 0; ex_FinalNodeID := ""; ex_Attempts := attempts;
     ex_ExecutionMs := ms; ex_Error := err; ex_ErrorType := errorType |}.

Definition attemptStatus (fwdRes : option ForwardResult) (rec : retryableRecorder) : Z :=
  match fwdRes with Some fr => fr_StatusCode fr | None => rec_statusCode rec end.

Definition attemptLog (attempt : nat) (node : ModelNode) (ms statusCode : Z) (errorType : string)
    (fwdErr : option error) (fwdRes : option ForwardResult) : AttemptLog :=
  let tokens := fr ← fwdRes; fr_Stream fr in
  {| at_Attempt := Z.of_nat attempt; at_NodeID := node_ID node; at_NodeName := node_Name node;
     at_DurationMs := ms; at_StatusCode := statusCode; at_ErrorType := errorType;
     at_Error := fwdErr;
     at_PromptTokens := match tokens with Some s => sr_PromptTokens s | None => 0 end;
     at_CompletionTokens := match tokens with Some s => sr_CompletionTokens s | None => 0 end |}.

Definition successResult (statusCode : Z) (node : ModelNode) (attempts : list AttemptLog) (ms : Z)
    (fwdRes : option ForwardResult) : ExecutionResult :=
  let '(body, p, c) :=
    match fwdRes with
    | None => ("", 0, 0)
    | Some fr => match fr_Stream fr with
                 | Some s => ("", sr_PromptTokens s, sr_CompletionTokens s)
                 | None => (fr_Body fr, 0, 0)
                 end
    end in
  {| ex_StatusCode := statusCode; ex_Body := body; ex_Headers := ∅; ex_PromptTokens := p;
     ex_CompletionTokens := c; ex_TotalTokens := p + c; ex_FinalNodeID := node_ID node;
     ex_Attempts := attempts; ex_ExecutionMs := ms; ex_Error := ""; ex_ErrorType := "" |}.

(** The answer to the client when the last attempt failed. *)
Definition flushFailure (rec : retryableRecorder) (statusCode : Z) (errorType : string)
    : ResponseWriter :=
  if rec_commit rec then rec_w rec
  else if rec_wroteHeader rec then (wWrite (rec_body rec) (rec_w (Commit rec))).1
  else writeWorkerError (rec_w rec) (if statusCode =? 0 then 502 else statusCode) errorType.

Definition is_Some_b {A} (o : option A) : bool := match o with Some _ => true | None => false end.

Section pool.
Context (Unmarshal : string → result error (option (gmap string json))).
Context (Marshal : option (gmap string json) → result error string).
Context (NewRequest : string → string → result error string).
Context (parseChunk : string → option Chunk) (parseSgChunk : string → option (Z * Z)).
(** [http.NewRequestWithContext] on the path: the [RequestURI] of the parsed
    URL, or an error. *)
Context (parsePath : string → string → option string).

(** The error is dropped: [r.Header] is then a nil dereference ([None]). *)
Definition buildHTTPRequest (req : Queue.PendingRequest) : option Request :=
  uri ← parsePath (Queue.req_Method req) (Queue.req_Path req);
  Some {| r_Method := Queue.req_Method req; r_RequestURI := uri;
          r_Header := Queue.req_Headers req; r_Body := Ok (Queue.req_BodyBytes req) |}.

(** One call of [p.proxy.Forward] with a fresh recorder. *)
Definition forwardOne (wd : World) (req : Queue.PendingRequest) (attempt : nat) (node : ModelNode)
    (w : ResponseWriter) : option (retryableRecorder * (option ForwardResult * option error)) :=
  httpReq ← buildHTTPRequest req;
  Forward Unmarshal Marshal NewRequest parseChunk parseSgChunk (wd_upstream wd attempt) node
    httpReq (newRetryableRecorder w).

(** The loop: [todo] attempts may still be made, [attempt] is the next. *)
Fixpoint retryLoop (wd : World) (req : Queue.PendingRequest) (candidates : list ModelNode)
    (todo attempt : nat) (excluded : gset string) (attempts : list AttemptLog) (w : ResponseWriter)
    : option (ResponseWriter * ExecutionResult) :=
  let allFailed := Some (w, emptyResult 502 "all failed" "" attempts (wd_elapsedMs wd attempt)) in
  match todo with
  | O => allFailed
  | S todo =>
      if wd_cancelled wd attempt
      then Some (w, emptyResult 499 "cancelled" "" attempts (wd_elapsedMs wd attempt))
      else
        match pickNode (wd_rand wd (2 * attempt)) candidates excluded with
        | None => allFailed
        | Some node =>
            match forwardOne wd req attempt node w with
            | None => None
            | Some (rec, (fwdRes, fwdErr)) =>
                let statusCode := attemptStatus fwdRes rec in
                let errorType := Chain.ClassifyError fwdErr statusCode in
                let retryable := Chain.IsRetryable errorType in
                let attempts := attempts ++
                  [attemptLog attempt node (wd_attemptMs wd attempt) statusCode errorType
                     fwdErr fwdRes] in
                let ms := wd_elapsedMs wd attempt in
                if bool_decide (fwdErr = None) && negb retryable
                then Some (rec_w rec, successResult statusCode node attempts ms fwdRes)
                else
                  let excluded := {[node_ID node]} ∪ excluded in
                  let willRetry := bool_decide (todo ≠ 0%nat) &&
                    is_Some_b (pickNode (wd_rand wd (2 * attempt + 1)) candidates excluded) in
                  if willRetry
                  then retryLoop wd req candidates todo (1 + attempt) excluded attempts (rec_w rec)
                  else Some (flushFailure rec statusCode errorType,
                             emptyResult statusCode errorType errorType attempts ms)
            end
        end
  end.

Definition forwardWithRetry (cfg : WorkerConfig) (wd : World) (r : Routing.Router)
    (req : Queue.PendingRequest) (w : ResponseWriter) : option (ResponseWriter * ExecutionResult) :=
  let candidates := Routing.Resolve (Queue.req_ModelAlias req) (Queue.req_EndpointType req) r in
  if bool_decide (length candidates = 0%nat)
  then Some (w, emptyResult 502 "no nodes" "" [] (wd_elapsedMs wd 0))
  else retryLoop wd req candidates (Z.to_nat (wc_MaxRetryAttempts cfg)) 1 ∅ [] w.

(** ** The recorder *)

Lemma Commit_commit r : rec_commit (Commit r) = true.
Proof. unfold Commit. by destruct (rec_commit r) eqn:E. Qed.

(** Until it commits, the recorder leaves the client's writer alone. *)
Lemma buffered_stable w : writer_stable (λ r, rec_commit r = false → rec_w r = w).
Proof.
  assert (∀ c r, (rec_commit r = false → rec_w r = w) →
    rec_commit (WriteHeader c r) = false → rec_w (WriteHeader c r) = w) as HWH.
  { intros c r Hr. unfold WriteHeader. destruct (rec_wroteHeader r); [done|].
    destruct (negb _); [by rewrite Commit_commit|done]. }
  split_and!; [done|exact HWH|]. intros b r Hr. simpl. unfold Write.
  set (r1 := if rec_wroteHeader r then r else WriteHeader 200 r).
  assert (rec_commit r1 = false → rec_w r1 = w) as Hr1
    by (unfold r1; destruct (rec_wroteHeader r); auto).
  destruct (rec_commit r1) eqn:E; [|by auto]. by destruct (wWrite b (rec_w r1)).
Qed.

(** Once the header is written, the decision to buffer stands. *)
Lemma decided_buffer_stable c :
  writer_stable (λ r, rec_wroteHeader r = true ∧ rec_commit r = false ∧ rec_statusCode r = c).
Proof.
  split_and!; simpl.
  - done.
  - intros c' r (Hw & Hc & Hs). unfold WriteHeader. by rewrite Hw.
  - intros b r (Hw & Hc & Hs). unfold Write. by rewrite Hw, Hc.
Qed.

Lemma decided_commit_stable x :
  writer_stable (λ r, rec_wroteHeader r = true ∧ rec_commit r = true ∧ rw_sent (rec_w r) = Some x).
Proof.
  split_and!; simpl.
  - done.
  - intros c r (Hw & Hc & Hs). unfold WriteHeader. by rewrite Hw.
  - intros b r (Hw & Hc & Hs). unfold Write. rewrite Hw, Hc. simpl.
    destruct (sent_stable x) as (_ & _ & Hst). specialize (Hst b (rec_w r) Hs). simpl in Hst.
    by destruct (rwWrite b (rec_w r)).
Qed.

Lemma Commit_sent r :
  rec_commit r = false → rw_sent (rec_w r) = None →
  ∃ h, rw_sent (rec_w (Commit r)) =
         Some (if rec_statusCode r =? 0 then 200 else rec_statusCode r, h).
Proof.
  intros Hc Hs. unfold Commit. rewrite Hc. simpl. unfold rwWriteHeader. simpl. rewrite Hs. eauto.
Qed.

Lemma Commit_is_sent r : rec_commit r = false → is_Some (rw_sent (rec_w (Commit r))).
Proof. intros Hc. unfold Commit. rewrite Hc. apply rwWriteHeader_sent. Qed.

Definition is_retryable_status (code : Z) : bool :=
  Chain.IsRetryable (Chain.ClassifyError None code).

(** What a recorder looks like after [Forward], given [rec0] with the
    response headers set, when the upstream answered [code]. *)
Lemma WriteHeader_decides code r :
  rec_wroteHeader r = false → rec_commit r = false →
  let r' := WriteHeader code r in
  (is_retryable_status code = true ∧
   rec_wroteHeader r' = true ∧ rec_commit r' = false ∧ rec_statusCode r' = code) ∨
  (is_retryable_status code = false ∧
   ∃ x, (rec_wroteHeader r' = true ∧ rec_commit r' = true ∧ rw_sent (rec_w r') = Some x) ∧
     (rw_sent (rec_w r) = None → code ≠ 0 → x.1 = code)).
Proof.
  intros Hw Hc. unfold WriteHeader, is_retryable_status. rewrite Hw.
  destruct (Chain.IsRetryable _); simpl; [by left|]. right. split; [done|].
  set (r1 := mkRec _ _ _ _ _ _). destruct (Commit_is_sent r1 Hc) as [x Hx]. exists x.
  split_and!; [|apply Commit_commit|done|].
  - unfold Commit. simpl. by rewrite Hc.
  - intros Hs Hcode. destruct (Commit_sent r1 Hc Hs) as [h Hh]. rewrite Hx in Hh.
    simplify_eq. simpl. by rewrite (proj2 (Z.eqb_neq code 0)).
Qed.

(** The outcome of one attempt, as far as the client's writer goes. *)
Definition attempt_ok (w : ResponseWriter) (rec : retryableRecorder) (fwdRes : option ForwardResult)
    (fwdErr : option error) : Prop :=
  (rec_commit rec = false → rec_w rec = w) ∧
  match fwdRes with
  | None => rec = newRetryableRecorder w ∧ fwdErr ≠ None
  | Some fr =>
      rec_wroteHeader rec = true ∧
      rec_commit rec = negb (is_retryable_status (fr_StatusCode fr)) ∧
      (rec_commit rec = false → rec_statusCode rec = fr_StatusCode fr) ∧
      (rec_commit rec = true → ∃ x, rw_sent (rec_w rec) = Some x ∧
         (rw_sent w = None → fr_StatusCode fr ≠ 0 → x.1 = fr_StatusCode fr))
  end.

(** [P] holds after the header is written, and operations keep it. *)
Lemma relay_decided wd i node req w rec fr err :
  forwardOne wd req i node w = Some (rec, (Some fr, err)) →
  ∃ r0, rec_wroteHeader r0 = false ∧ rec_commit r0 = false ∧ rec_w r0 = w ∧
    ∀ P : retryableRecorder → Prop, writer_stable P →
      P (WriteHeader (fr_StatusCode fr) r0) → P rec.
Proof.
  unfold forwardOne, Forward. destruct (buildHTTPRequest req) as [hr|]; [|done]. simpl.
  destruct (buildUpstream _ _ _ _ _) as [[[ur isStream]|e]|]; [|done..].
  destruct (x_Do _) as [resp|e]; [|done]. intros HF. injection HF as HF.
  destruct isStream.
  - unfold relayStream, ForwardStream in HF. cbn [wHeader wSetHeader wWriteHeader rec_Writer] in HF.
    match type of HF with context [WriteHeader _ ?r] => exists r end.
    split_and!; [done..|]. intros P HP Hr. revert Hr. destruct (scanLines _ _ _) as [toks e].
    match type of HF with context [streamLoop ?a ?b ?c ?d ?e ?f ?g ?h] =>
      pose proof (streamLoop_stable a b c P d e f g h HP) as Hs;
      destruct (streamLoop a b c d e f g h) as [rec' [sr er]] end.
    injection HF as <- <- <-. exact Hs.
  - unfold relayBody in HF. destruct (rs_ReadErr resp); [done|].
    cbn [wHeader wSetHeader wWriteHeader wWrite rec_Writer] in HF.
    match type of HF with context [WriteHeader _ ?r] => exists r end.
    split_and!; [done..|]. intros P (_ & _ & HP) Hr.
    match type of HF with context [Write ?b ?r] => pose proof (HP b r) as Hs;
      cbn [wWrite rec_Writer] in Hs;
      destruct (Write b r) as [rec' er] end.
    injection HF as <- <- <-. by apply Hs.
Qed.

Lemma forwardOne_ok wd req i node w rec fwdRes fwdErr :
  forwardOne wd req i node w = Some (rec, (fwdRes, fwdErr)) → attempt_ok w rec fwdRes fwdErr.
Proof.
  intros HF. split.
  - unfold forwardOne in HF. destruct (buildHTTPRequest req) as [hr|]; [|done]. simpl in HF.
    revert HF. by apply (Forward_stable _ _ _ _ _ (λ r, rec_commit r = false → rec_w r = w));
      [apply buffered_stable|].
  - destruct fwdRes as [fr|].
    + destruct (relay_decided _ _ _ _ _ _ _ _ HF) as (r0 & Hw0 & Hc0 & <- & HP).
      destruct (WriteHeader_decides (fr_StatusCode fr) r0 Hw0 Hc0) as [(H3 & H1)|(H3 & x & H1 & Hx)].
      * destruct (HP _ (decided_buffer_stable _) H1) as (-> & -> & ->). by rewrite H3.
      * destruct (HP _ (decided_commit_stable x) H1) as (-> & -> & Hs). rewrite H3.
        split_and!; [done..|]. intros _. by exists x.
    + unfold forwardOne, Forward in HF. destruct (buildHTTPRequest req) as [hr|]; [|done].
      simpl in HF. destruct (buildUpstream _ _ _ _ _) as [[[ur isStream]|e]|]; [|by simplify_eq|done].
      destruct (x_Do _) as [resp|e]; [|by simplify_eq]. injection HF as HF. destruct isStream.
      * unfold relayStream in HF. by destruct (ForwardStream _ _ _ _ _ _) as [? [? ?]].
      * unfold relayBody in HF. destruct (rs_ReadErr resp); [by simplify_eq|].
        by destruct (wWrite _ _).
Qed.

(** A failure is answered. *)
Lemma flushFailure_sent w rec fwdRes fwdErr errorType :
  attempt_ok w rec fwdRes fwdErr →
  is_Some (rw_sent (flushFailure rec (attemptStatus fwdRes rec) errorType)).
Proof.
  intros [_ Hok]. unfold flushFailure. destruct fwdRes as [fr|].
  - destruct Hok as (-> & Hc & _ & Hs). destruct (rec_commit rec) eqn:E.
    + destruct (Hs eq_refl) as (x & -> & _). eauto.
    + destruct (Commit_is_sent rec E) as [x Hx].
      rewrite (proj2 (proj2 (sent_stable x)) (rec_body rec) _ Hx). eauto.
  - destruct Hok as [-> _]. simpl. unfold writeWorkerError.
    match goal with |- context [wWriteHeader ?c ?w] =>
      destruct (rwWriteHeader_sent c w) as [x Hx] end.
    erewrite (proj2 (proj2 (sent_stable x))); [eauto|exact Hx].
Qed.

(** ** The loop *)

(** [rand.Intn n] is in [[0, n)]. *)
Definition rand_ok (wd : World) : Prop := ∀ i n, 0 < n → 0 ≤ wd_rand wd i n < n.

Lemma pickNode_Some rnd candidates excluded n :
  pickNode rnd candidates excluded = Some n →
  n ∈ candidates ∧ node_ID n ∉ excluded ∧ node_Enabled n = true.
Proof.
  unfold pickNode. case_bool_decide; [done|]. unfold Routing.Pick. intros HP.
  assert (n ∈ filter (λ n, node_ID n ∉ excluded ∧ node_Enabled n = true) candidates) as Hn.
  { repeat case_bool_decide; try done; by eapply list_elem_of_lookup_2. }
  apply list_elem_of_filter in Hn. tauto.
Qed.

Lemma pickNode_None rnd candidates excluded :
  (∀ n, 0 < n → 0 ≤ rnd n < n) → pickNode rnd candidates excluded = None →
  ∀ n, n ∈ candidates → node_Enabled n = true → node_ID n ∈ excluded.
Proof.
  intros Hr. unfold pickNode. set (av := filter _ _). intros HP n Hn He.
  destruct (decide (node_ID n ∈ excluded)) as [?|Hx]; [done|]. exfalso.
  assert (n ∈ av) as Hav by (apply list_elem_of_filter; auto).
  case_bool_decide as Hlen; [by apply nil_length_inv in Hlen; rewrite Hlen in Hav; set_solver|].
  unfold Routing.Pick in HP. rewrite bool_decide_false in HP by done.
  case_bool_decide.
  - apply lookup_ge_None in HP. lia.
  - apply lookup_ge_None in HP. specialize (Hr (Z.of_nat (length av)) ltac:(lia)). lia.
Qed.

Lemma pick_again rnd rnd' candidates excluded :
  (∀ n, 0 < n → 0 ≤ rnd' n < n) →
  is_Some_b (pickNode rnd candidates excluded) = true →
  is_Some_b (pickNode rnd' candidates excluded) = true.
Proof.
  intros Hr H1. destruct (pickNode rnd candidates excluded) as [n|] eqn:E; [|done].
  apply pickNode_Some in E as (Hin & Hex & He).
  destruct (pickNode rnd' candidates excluded) eqn:E'; [done|].
  by destruct (Hex (pickNode_None rnd' _ _ Hr E' n Hin He)).
Qed.

Definition failedAttempt (a : AttemptLog) : Prop :=
  at_Error a ≠ None ∨ Chain.IsRetryable (at_ErrorType a) = true.

Definition node_ids (atts : list AttemptLog) : list string := at_NodeID <$> atts.

(** What the attempts made so far look like. *)
Record attempts_ok (candidates : list ModelNode) (atts : list AttemptLog) : Prop := {
  ao_nodup : NoDup (node_ids atts);
  ao_nodes : ∀ id, id ∈ node_ids atts → ∃ n, n ∈ candidates ∧ node_ID n = id ∧ node_Enabled n = true;
  ao_number : ∀ i a, atts !! i = Some a → at_Attempt a = Z.of_nat i + 1;
}.

Lemma attempts_ok_snoc candidates atts node ms sc et fe fr :
  attempts_ok candidates atts → node ∈ candidates → node_Enabled node = true →
  node_ID node ∉ node_ids atts →
  attempts_ok candidates (atts ++ [attemptLog (1 + length atts) node ms sc et fe fr]).
Proof.
  intros [Hnd Hn Hnum] Hin He Hnew. split; unfold node_ids in *.
  - rewrite fmap_app. apply NoDup_app. split_and!; [done| |apply NoDup_singleton].
    intros x Hx. simpl. set_solver.
  - intros id. rewrite fmap_app. intros [?|Hid]%elem_of_app; [by apply Hn|].
    apply list_elem_of_singleton in Hid as ->. by exists node.
  - intros i a [Hi|[Hi Ha]]%lookup_app_Some; [by apply Hnum|].
    apply list_lookup_singleton_Some in Ha as [Hz <-]. simpl. lia.
Qed.

(** How a result relates to its attempts. *)
Definition result_ok (res : ExecutionResult) : Prop :=
  (ex_Error res ≠ "" ∧ Forall failedAttempt (ex_Attempts res)) ∨
  (ex_Error res = "" ∧ ∃ pre a, ex_Attempts res = pre ++ [a] ∧ Forall failedAttempt pre ∧
     ¬ failedAttempt a ∧ ex_FinalNodeID res = at_NodeID a ∧ ex_StatusCode res = at_StatusCode a).

Lemma ClassifyError_nonempty err code : Chain.ClassifyError err code ≠ "".
Proof. unfold Chain.ClassifyError. repeat case_match; done. Qed.

Lemma failed_or_success fwdErr errorType node i ms sc fr :
  if bool_decide (fwdErr = None) && negb (Chain.IsRetryable errorType)
  then ¬ failedAttempt (attemptLog i node ms sc errorType fwdErr fr)
  else failedAttempt (attemptLog i node ms sc errorType fwdErr fr).
Proof.
  unfold failedAttempt. simpl. case_bool_decide; destruct (Chain.IsRetryable errorType); simpl;
    naive_solver.
Qed.

Lemma successResult_fields sc node atts ms fr :
  let res := successResult sc node atts ms fr in
  ex_Error res = "" ∧ ex_Attempts res = atts ∧ ex_FinalNodeID res = node_ID node ∧
  ex_StatusCode res = sc.
Proof. unfold successResult. destruct fr as [fr|]; [destruct (fr_Stream fr)|]; done. Qed.

Lemma retryLoop_attempts wd req cands todo excluded atts w w' res :
  retryLoop wd req cands todo (1 + length atts) excluded atts w = Some (w', res) →
  attempts_ok cands atts → Forall failedAttempt atts →
  (∀ id, id ∈ node_ids atts → id ∈ excluded) →
  attempts_ok cands (ex_Attempts res) ∧ result_ok res ∧
  (length (ex_Attempts res) ≤ length atts + todo)%nat.
Proof.
  revert excluded atts w. induction todo as [|todo IH]; intros excluded atts w HL Hok Hf Hex.
  { simpl in HL. simplify_eq. simpl. split_and!; [done| |lia]. by left. }
  cbn [retryLoop] in HL. destruct (wd_cancelled wd _).
  { simplify_eq. simpl. split_and!; [done| |lia]. by left. }
  destruct (pickNode _ _ _) as [node|] eqn:Hp.
  2: { simplify_eq. simpl. split_and!; [done| |lia]. by left. }
  apply pickNode_Some in Hp as (Hin & Hnew & He).
  destruct (forwardOne _ _ _ _ _) as [[rec [fwdRes fwdErr]]|]; [|done].
  set (et := Chain.ClassifyError _ _) in *. set (sc := attemptStatus _ _) in *.
  pose proof (failed_or_success fwdErr et node (1 + length atts)
    (wd_attemptMs wd (1 + length atts)) sc fwdRes) as Hfs.
  pose proof (attempts_ok_snoc cands atts node (wd_attemptMs wd (1 + length atts)) sc et fwdErr
    fwdRes Hok Hin He ltac:(auto)) as Hok'.
  set (a := attemptLog _ _ _ _ _ _ _) in *. destruct (bool_decide _ && _).
  { apply (inj Some), pair_eq in HL as [<- <-]. unfold result_ok.
    destruct (successResult_fields sc node (atts ++ [a]) (wd_elapsedMs wd (1 + length atts)) fwdRes)
      as (-> & -> & -> & ->).
    rewrite length_app. split_and!; [done| |simpl; lia]. right. split; [done|].
    by exists atts, a. }
  assert (Forall failedAttempt (atts ++ [a])) as Hf'.
  { apply Forall_app. split; [done|]. by constructor. }
  destruct (_ && _).
  - replace (1 + (1 + length atts))%nat with (1 + length (atts ++ [a]))%nat in HL
      by (rewrite length_app; simpl; lia).
    destruct (IH _ _ _ HL Hok' Hf') as (H1 & H2 & H3).
    + intros id. unfold node_ids. rewrite fmap_app. set_solver.
    + split_and!; [done..|]. rewrite length_app in H3. simpl in H3. lia.
  - simplify_eq. simpl. rewrite length_app. split_and!; [done| |simpl; lia]. left. simpl.
    split; [apply ClassifyError_nonempty|done].
Qed.

(** C5. The retry loop terminates within its budget and uses each node once:
    a request makes at most [MaxRetryAttempts] attempts, numbered from 1, each
    on a different enabled candidate of its model; the result is a success
    exactly when the last attempt succeeded and all earlier ones failed, and
    then it carries that node and status. *)
Theorem retry_attempts (cfg : WorkerConfig) (wd : World) (r : Routing.Router)
    (req : Queue.PendingRequest) (w w' : ResponseWriter) (res : ExecutionResult) :
  forwardWithRetry cfg wd r req w = Some (w', res) →
  attempts_ok (Routing.Resolve (Queue.req_ModelAlias req) (Queue.req_EndpointType req) r)
    (ex_Attempts res) ∧
  result_ok res ∧ Z.of_nat (length (ex_Attempts res)) ≤ Z.max 0 (wc_MaxRetryAttempts cfg).
Proof.
  unfold forwardWithRetry. case_bool_decide.
  { intros [= <- <-]. simpl. split_and!; [|by left|lia].
    split; [constructor|set_solver|done]. }
  intros HL. apply (retryLoop_attempts _ _ _ _ ∅ []) in HL as (H1 & H2 & H3);
    [|split; [constructor|set_solver|done]|done|set_solver].
  split_and!; [done..|]. simpl in H3. lia.
Qed.

(** Statuses after which another node is tried. *)
Definition transient (code : Z) : Prop := 500 ≤ code ∨ code = 429.

Lemma transient_retryable code : is_retryable_status code = true ↔ transient code.
Proof. unfold is_retryable_status. rewrite Chain.retryable_status, orb_true_iff, Z.leb_le, Z.eqb_eq. done. Qed.

(** Attempts that failed, one after the other, by the upstream response each got:
    the client's writer before the first and after the last. *)
Inductive failed_on (wd : World) (req : Queue.PendingRequest) (cands : list ModelNode)
    : ResponseWriter → list (option ForwardResult) → ResponseWriter → Prop :=
| failed_none w : failed_on wd req cands w [] w
| failed_next w i node rec fwdRes fwdErr rest w' :
    node ∈ cands → forwardOne wd req i node w = Some (rec, (fwdRes, fwdErr)) →
    fwdErr ≠ None ∨ (∃ fr, fwdRes = Some fr ∧ transient (fr_StatusCode fr)) →
    failed_on wd req cands (rec_w rec) rest w' → failed_on wd req cands w (fwdRes :: rest) w'.

(** The response, if there is one, was kept from the client. *)
Definition withheld (fwdRes : option ForwardResult) : Prop :=
  ∀ fr, fwdRes = Some fr → transient (fr_StatusCode fr).

(** An attempt whose response is withheld leaves the client's writer alone. *)
Lemma failed_buffered wd req cands w fails w' :
  failed_on wd req cands w fails w' → Forall withheld fails → w' = w.
Proof.
  induction 1 as [|w i node rec fwdRes fwdErr rest w' _ HF _ _ IH]; [done|].
  intros [Hc Hcs]%Forall_cons. rewrite (IH Hcs).
  pose proof (forwardOne_ok _ _ _ _ _ _ _ _ HF) as [Hw Hok]. apply Hw.
  destruct fwdRes as [fr|]; [|by destruct Hok as [-> _]]. destruct Hok as (_ & -> & _).
  by rewrite (proj2 (transient_retryable _) (Hc fr eq_refl)).
Qed.

(** An attempt is a success when its response is no transient failure and was
    relayed to its end, and then it has committed. *)
Lemma success_committed wd req w i node rec fwdRes :
  forwardOne wd req i node w = Some (rec, (fwdRes, None)) →
  negb (Chain.IsRetryable (Chain.ClassifyError None (attemptStatus fwdRes rec))) = true →
  ∃ fr, fwdRes = Some fr ∧ ¬ transient (fr_StatusCode fr) ∧ rec_commit rec = true.
Proof.
  intros HF Hn. pose proof (forwardOne_ok _ _ _ _ _ _ _ _ HF) as [_ Hok].
  destruct fwdRes as [fr|]; [|by destruct Hok]. exists fr. split; [done|].
  destruct Hok as (_ & -> & _). split; [|exact Hn].
  rewrite <-transient_retryable. apply negb_true_iff in Hn. by intros Ht%(eq_trans (eq_sym Hn)).
Qed.

Lemma failure_cause wd req w i node rec fwdRes fwdErr :
  forwardOne wd req i node w = Some (rec, (fwdRes, fwdErr)) →
  bool_decide (fwdErr = None) &&
    negb (Chain.IsRetryable (Chain.ClassifyError fwdErr (attemptStatus fwdRes rec))) = false →
  fwdErr ≠ None ∨ (∃ fr, fwdRes = Some fr ∧ transient (fr_StatusCode fr)).
Proof.
  intros HF Hb. pose proof (forwardOne_ok _ _ _ _ _ _ _ _ HF) as [_ Hok].
  destruct fwdErr as [e|]; [by left|]. right. rewrite bool_decide_eq_true_2 in Hb by done. simpl in Hb.
  destruct fwdRes as [fr|]; [|by destruct Hok]. exists fr. split; [done|].
  apply transient_retryable. by apply negb_false_iff in Hb.
Qed.

Lemma retryLoop_transparent wd req cands todo attempt excluded atts w w' res :
  retryLoop wd req cands todo attempt excluded atts w = Some (w', res) → ex_Error res = "" →
  ∃ fails w1 i node rec fr, failed_on wd req cands w fails w1 ∧
    length (ex_Attempts res) = (length atts + S (length fails))%nat ∧
    forwardOne wd req i node w1 = Some (rec, (Some fr, None)) ∧
    ¬ transient (fr_StatusCode fr) ∧ rec_commit rec = true ∧ w' = rec_w rec ∧ node ∈ cands ∧
    ex_FinalNodeID res = node_ID node ∧ ex_StatusCode res = fr_StatusCode fr.
Proof.
  revert attempt excluded atts w.
  induction todo as [|todo IH]; intros attempt excluded atts w HL He.
  { simpl in HL. by simplify_eq. }
  cbn [retryLoop] in HL. destruct (wd_cancelled wd _); [by simplify_eq|].
  destruct (pickNode _ _ _) as [node|] eqn:Hp; [|by simplify_eq].
  apply pickNode_Some in Hp as (Hin & _ & _).
  destruct (forwardOne _ _ _ _ _) as [[rec [fwdRes fwdErr]]|] eqn:HF; [|done].
  destruct (bool_decide (fwdErr = None) && _) eqn:Hb.
  - apply (inj Some), pair_eq in HL as [<- <-].
    apply andb_true_iff in Hb as [->%bool_decide_eq_true Hn].
    destruct (success_committed _ _ _ _ _ _ _ HF Hn) as (fr & -> & Htr & Hc).
    exists [], w, attempt, node, rec, fr. split; [constructor|].
    destruct (successResult_fields (attemptStatus (Some fr) rec) node (atts ++ [attemptLog attempt node
      (wd_attemptMs wd attempt) (attemptStatus (Some fr) rec) (Chain.ClassifyError None
      (attemptStatus (Some fr) rec)) None (Some fr)]) (wd_elapsedMs wd attempt) (Some fr))
      as (_ & Hatt & Hn1 & Hn2). split_and!; try done. by rewrite Hatt, length_app.
  - pose proof (failure_cause _ _ _ _ _ _ _ _ HF Hb) as Hfail. clear Hb. destruct (_ && _).
    + destruct (IH _ _ _ _ HL He) as (fails & w1 & i & node' & rec' & fr & Hf & Hl & Hrest).
      exists (fwdRes :: fails), w1, i, node', rec', fr. split; [by eapply failed_next|]. split; [|done].
      rewrite Hl, length_app. simpl. lia.
    + simplify_eq. simpl in He. by apply ClassifyError_nonempty in He.
Qed.

(** C4. Retries are invisible: a request that succeeds is answered by its last
    attempt, on the writer that the failed attempts before it have left.  When
    each of these got no response, or one with a status of 429 or at least 500,
    the client receives exactly what it would have received had the successful
    node been the only one called: nothing of the failed attempts (status,
    headers, body) leaks.  Only a failed attempt that had begun to relay another
    response is seen by the client, and the second answer follows it
    ([retry_after_partial_answer]). *)
Theorem retry_transparent (cfg : WorkerConfig) (wd : World) (r : Routing.Router)
    (req : Queue.PendingRequest) (w w' : ResponseWriter) (res : ExecutionResult) :
  let cands := Routing.Resolve (Queue.req_ModelAlias req) (Queue.req_EndpointType req) r in
  forwardWithRetry cfg wd r req w = Some (w', res) → ex_Error res = "" →
  ∃ fails w1 i node rec fr, failed_on wd req cands w fails w1 ∧
    length (ex_Attempts res) = S (length fails) ∧
    forwardOne wd req i node w1 = Some (rec, (Some fr, None)) ∧ ¬ transient (fr_StatusCode fr) ∧
    rec_commit rec = true ∧ response w' = response (rec_w rec) ∧ node ∈ cands ∧
    ex_FinalNodeID res = node_ID node ∧ ex_StatusCode res = fr_StatusCode fr ∧
    (Forall withheld fails → w1 = w).
Proof.
  intros cands HF He. unfold forwardWithRetry in HF. case_bool_decide; [by simplify_eq|].
  destruct (retryLoop_transparent _ _ _ _ _ _ _ _ _ _ HF He)
    as (fails & w1 & i & node & rec & fr & Hf & Hl & H1 & Ht & H2 & -> & H3 & H4 & H5).
  exists fails, w1, i, node, rec, fr. split_and!; try done. by apply (failed_buffered _ _ _ _ _ _ Hf).
Qed.

Lemma retryLoop_answers wd req cands todo attempt excluded atts w w' res :
  rand_ok wd → (∀ i, wd_cancelled wd i = false) →
  retryLoop wd req cands todo attempt excluded atts w = Some (w', res) →
  todo ≠ 0%nat → is_Some_b (pickNode (wd_rand wd (2 * attempt)) cands excluded) = true →
  is_Some (rw_sent w').
Proof.
  intros Hr Hc. revert attempt excluded atts w.
  induction todo as [|todo IH]; intros attempt excluded atts w HL Ht Hp; [done|].
  cbn [retryLoop] in HL. rewrite Hc in HL.
  destruct (pickNode (wd_rand wd (2 * attempt)) cands excluded) as [node|]; [|done].
  destruct (forwardOne _ _ _ _ _) as [[rec [fwdRes fwdErr]]|] eqn:HF; [|done].
  pose proof (forwardOne_ok _ _ _ _ _ _ _ _ HF) as Hok.
  destruct (bool_decide (fwdErr = None) && _) eqn:Hb.
  - apply (inj Some), pair_eq in HL as [<- _].
    apply andb_true_iff in Hb as [->%bool_decide_eq_true Hn].
    destruct (success_committed _ _ _ _ _ _ _ HF Hn) as (fr & -> & _ & Hcm).
    destruct Hok as (_ & _ & _ & _ & Hs). destruct (Hs Hcm) as (x & -> & _). eauto.
  - destruct (bool_decide (todo ≠ 0%nat) && _) eqn:Hw.
    + apply andb_true_iff in Hw as [Ht'%bool_decide_eq_true Hw].
      eapply IH; [exact HL|done|]. eapply pick_again; [apply Hr|exact Hw].
    + apply (inj Some), pair_eq in HL as [<- _]. by eapply flushFailure_sent.
Qed.

(** The first pick finds a node. *)
Lemma pickNode_resolve rnd alias et r :
  (∀ n, 0 < n → 0 ≤ rnd n < n) → Routing.Resolve alias et r ≠ [] →
  is_Some_b (pickNode rnd (Routing.Resolve alias et r) ∅) = true.
Proof.
  intros Hr Hne. destruct (pickNode _ _ _) eqn:E; [done|]. exfalso.
  destruct (Routing.Resolve alias et r) as [|n l] eqn:Hl; [done|].
  assert (node_Enabled n = true) as He.
  { unfold Routing.Resolve in Hl. rewrite Routing.filterCandidates_filter in Hl.
    assert (n ∈ n :: l) as Hin by left. rewrite <-Hl in Hin.
    apply list_elem_of_filter in Hin as [Hin _]. by apply andb_true_iff in Hin as [? _]. }
  pose proof (pickNode_None rnd _ _ Hr E n ltac:(left) He). set_solver.
Qed.

(** C6. Every forwarded request is answered: when the model has a candidate, at
    least one attempt is allowed and the client does not go away, a status line
    has been sent to the client by the time [forwardWithRetry] returns, be it a
    node's answer, the last node's buffered error or the proxy's own error. *)
Theorem request_answered (cfg : WorkerConfig) (wd : World) (r : Routing.Router)
    (req : Queue.PendingRequest) (w w' : ResponseWriter) (res : ExecutionResult) :
  rand_ok wd → (∀ i, wd_cancelled wd i = false) → 1 ≤ wc_MaxRetryAttempts cfg →
  Routing.Resolve (Queue.req_ModelAlias req) (Queue.req_EndpointType req) r ≠ [] →
  forwardWithRetry cfg wd r req w = Some (w', res) →
  is_Some (rw_sent w').
Proof.
  intros Hr Hc Hmax Hne HF. unfold forwardWithRetry in HF.
  rewrite bool_decide_false in HF by (by intros ?%nil_length_inv).
  eapply retryLoop_answers; [done|done|exact HF|lia|]. apply pickNode_resolve; [apply Hr|done].
Qed.

(** A request without a candidate node, or with no attempt allowed, is not
    answered at all: the result says 502, but nothing is written to the client,
    for which the server then sends an empty 200. *)
Theorem unanswered (cfg : WorkerConfig) (wd : World) (r : Routing.Router)
    (req : Queue.PendingRequest) (w : ResponseWriter) :
  Routing.Resolve (Queue.req_ModelAlias req) (Queue.req_EndpointType req) r = [] ∨
  wc_MaxRetryAttempts cfg ≤ 0 →
  ∃ res, forwardWithRetry cfg wd r req w = Some (w, res) ∧
    ex_StatusCode res = 502 ∧ ex_Error res ≠ "" ∧ ex_Attempts res = [].
Proof.
  intros Hcase. unfold forwardWithRetry. case_bool_decide as Hl; [by eexists|].
  destruct Hcase as [Hn|Hm]; [by rewrite Hn in Hl|].
  replace (Z.to_nat (wc_MaxRetryAttempts cfg)) with 0%nat by lia. by eexists.
Qed.

End pool.

(** ** Concrete runs *)

Definition demo_request : Queue.PendingRequest :=
  {| Queue.req_ID := "r1"; Queue.req_SessionID := ""; Queue.req_RequestID := "r1";
     Queue.req_Priority := 0; Queue.req_APIKeyID := "k"; Queue.req_ModelAlias := "gpt";
     Queue.req_EndpointType := EndpointChat; Queue.req_Timestamp := 0;
     Queue.req_BodyBytes := "BODY"; Queue.req_Headers := ∅; Queue.req_Method := "POST";
     Queue.req_Path := "/v1/chat/completions"; Queue.req_RemoteAddr := "";
     Queue.req_ResponseWriter := 0; Queue.req_ResultChan := 0; Queue.req_Context := 0;
     Queue.req_QueueWaitMs := 0; Queue.req_ExecutionMs := 0; Queue.req_RatelimitRetries := 0 |}.

Definition demo_router : Routing.Router :=
  Routing.rhistory [(Routing.list_order, Routing.CSync
    [Routing.demo_node "a" ["gpt"] EndpointChat true;
     Routing.demo_node "b" ["gpt"] EndpointAll true])] Routing.New.

Definition demo_config : WorkerConfig :=
  {| wc_WorkerCount := 1; wc_MaxRetryAttempts := 3; wc_RetryDelayMs := 0; wc_MaxWaitTime := 0 |}.

Definition demo_answer (code : Z) (body : string) (readErr : option error) : Exchange :=
  {| x_Do := Ok {| rs_StatusCode := code; rs_Header := ∅; rs_Body := body; rs_ReadErr := readErr |};
     x_ctxErr := λ _, None; x_Ms := 0 |}.

Definition demo_refused : Exchange :=
  {| x_Do := Err (mkError OtherError "dial: connection refused"); x_ctxErr := λ _, None; x_Ms := 0 |}.

Definition demo_world (first second : Exchange) : World :=
  {| wd_upstream i _ := match i with 1%nat => first | _ => second end;
     wd_cancelled _ := false; wd_rand _ _ := 0; wd_attemptMs _ := 0; wd_elapsedMs _ := 0 |}.

(** The body is an object with the given [stream] flag. *)
Definition demo_forward (stream : bool) :=
  forwardWithRetry (λ _, Ok (Some {["stream" := JBool stream]})) (λ _, Ok "OUT") (λ _ _, Ok "host")
    (λ _, None) (λ _, None) (λ _ p, Some p).

(** Failing in the middle of a stream is retried: a node that answered 200
    and broke off after its first line is followed by another node, whose whole
    answer is appended to what the client has already received; only the
    results of the second node are reported. *)
Theorem retry_after_partial_answer :
  match demo_forward true demo_config
          (demo_world (demo_answer 200 ("data: one" +:+ nl) (Some (mkError OtherError "EOF")))
                      (demo_answer 200 ("data: uno" +:+ nl +:+ "data: due" +:+ nl) None))
          demo_router demo_request newRW with
  | Some (w, res) =>
      rw_body w = "data: one" +:+ nl +:+ "data: uno" +:+ nl +:+ "data: due" +:+ nl ∧
      ex_Error res = "" ∧ node_ids (ex_Attempts res) = ["a"; "b"] ∧
      Chain.IsRetryable (default "" (at_ErrorType <$> (ex_Attempts res !! 0%nat))) = false
  | None => False
  end.
Proof. vm_compute. done. Qed.

Definition demo_run : option (ResponseWriter * ExecutionResult) :=
  demo_forward false demo_config (demo_world demo_refused (demo_answer 200 "hello" None))
    demo_router demo_request newRW.

Lemma retry_attempts_witness :
  ∃ w' res, demo_run = Some (w', res) ∧ node_ids (ex_Attempts res) = ["a"; "b"] ∧ result_ok res.
Proof.
  destruct demo_run as [[w' res]|] eqn:E; [|by vm_compute in E]. exists w', res.
  split; [done|]. split.
  - vm_compute in E. injection E as <- <-. reflexivity.
  - unfold demo_run, demo_forward in E. apply (retry_attempts _ _ _ _ _ _ _ _ _ _ _ _ _ E).
Defined.

Lemma retry_transparent_witness :
  ∃ w' res, demo_run = Some (w', res) ∧ rw_body w' = "hello" ∧ ex_FinalNodeID res = "b" ∧
    ∃ fails w1 i node rec fr, length fails = 1%nat ∧ forwardOne (λ _, Ok (Some {["stream" := JBool false]})) (λ _, Ok "OUT")
      (λ _ _, Ok "host") (λ _, None) (λ _, None) (λ _ p, Some p)
      (demo_world demo_refused (demo_answer 200 "hello" None)) demo_request i node w1
      = Some (rec, (Some fr, None)) ∧ response w' = response (rec_w rec) ∧
      (Forall withheld fails → w1 = newRW).
Proof.
  destruct demo_run as [[w' res]|] eqn:E; [|by vm_compute in E]. exists w', res.
  split; [done|].
  assert (rw_body w' = "hello" ∧ ex_FinalNodeID res = "b" ∧ ex_Error res = "" ∧ length (ex_Attempts res) = 2%nat)
    as (H1 & H2 & H3 & H4).
  { vm_compute in E. injection E as <- <-. done. }
  split_and!; [done..|]. unfold demo_run, demo_forward in E.
  destruct (retry_transparent _ _ _ _ _ _ _ _ _ _ _ _ _ E H3)
    as (fails & w1 & i & node & rec & fr & _ & Hl & ? & _ & _ & ? & _ & _ & _ & ?). exists fails, w1, i, node, rec, fr.
  split_and!; [lia|done..].
Defined.

Lemma request_answered_witness :
  ∃ w' res, demo_forward false demo_config (demo_world demo_refused demo_refused)
    demo_router demo_request newRW = Some (w', res) ∧ is_Some (rw_sent w') ∧
    ex_Error res = "connection_refused".
Proof.
  destruct (demo_forward false demo_config (demo_world demo_refused demo_refused)
    demo_router demo_request newRW) as [[w' res]|] eqn:E; [|by vm_compute in E].
  exists w', res. split_and!; [done| |].
  - unfold demo_forward in E. eapply request_answered; [..|exact E].
    + intros i n Hn. simpl. lia.
    + done.
    + simpl. lia.
    + vm_compute. done.
  - vm_compute in E. by injection E as <- <-.
Defined.

Lemma unanswered_witness :
  ∃ res, demo_forward false demo_config (demo_world demo_refused demo_refused)
    Routing.New demo_request newRW = Some (newRW, res) ∧ ex_StatusCode res = 502 ∧
    rw_sent newRW = None.
Proof.
  destruct (unanswered (λ _, Ok (Some {["stream" := JBool false]})) (λ _, Ok "OUT")
    (λ _ _, Ok "host") (λ _, None) (λ _, None) (λ _ p, Some p) demo_config
    (demo_world demo_refused demo_refused) Routing.New demo_request newRW)
    as (res & H1 & H2 & _); [left; reflexivity|].
  exists res. split_and!; [exact H1|exact H2|reflexivity].
Defined.

End Pool.
