(* ===== verification/Console.v ===== *)
(** * package logging: the console

    [src/internal/logging/handler.go], the handler behind [slog], and the lines
    that [src/internal/logging/chain_logger.go] writes for each stage of a
    request.  [log/slog] and [fmt] are standard library: a record carries its
    level, message and attributes; an attribute value is a string, an integer,
    or whatever else [%v] prints.  What the writer does with a line and the
    offset of the local time zone are arguments. *)
From S2P Require Import Prelude GoStd GoFloat GoTime GoJson Domain GoHttp RequestQueue ChainLogger.
From Stdlib Require Import Ascii SpecFloat.

Module Console.

(** ** Runes and display width *)

(** The value of a rune from its first byte and the continuation bytes. *)
Fixpoint contBits (n : nat) (acc : Z) (s : string) : Z :=
  match n, s with
  | S n, String c s => contBits n (acc * 64 + Z.of_nat (nat_of_ascii c) mod 64) s
  | _, _ => acc
  end.

Definition leadBits (c : ascii) (n : nat) : Z :=
  let z := Z.of_nat (nat_of_ascii c) in
  match n with O => z | 1%nat => z mod 32 | 2%nat => z mod 16 | _ => z mod 8 end.

(** [for _, r := range s]: a byte that starts no valid encoding yields the
    replacement character. *)
Fixpoint rangeRunes (skip : nat) (s : string) : list Z :=
  match s with
  | "" => []
  | String c s =>
      match skip with
      | S skip => rangeRunes skip s
      | O =>
          let n := length (follow c) in
          if (nat_of_ascii c <? 128)%nat then Z.of_nat (nat_of_ascii c) :: rangeRunes 0 s
          else if bool_decide (n ≠ O) && matches (follow c) s
          then contBits n (leadBits c n) s :: rangeRunes n s
          else 65533 :: rangeRunes 0 s
      end
  end.

Definition runeWidth (r : Z) : Z := if 8192 <? r then 2 else 1.

Definition displayWidth (s : string) : Z := sumZ runeWidth (rangeRunes 0 s).

Fixpoint blanks (n : nat) : string := match n with O => "" | S n => String " " (blanks n) end.

(** ** log/slog *)

Definition LevelDebug : Z := -4.
Definition LevelInfo : Z := 0.
Definition LevelWarn : Z := 4.
Definition LevelError : Z := 8.

(** [Level.String]: the base name and the signed distance from it. *)
Definition levelStr (base : string) (val : Z) : string :=
  if val =? 0 then base else base +:+ (if 0 <? val then "+" else "") +:+ FormatInt val.

Definition levelString (l : Z) : string :=
  if l <? LevelInfo then levelStr "DEBUG" (l - LevelDebug)
  else if l <? LevelWarn then levelStr "INFO" (l - LevelInfo)
  else if l <? LevelError then levelStr "WARN" (l - LevelWarn)
  else levelStr "ERROR" (l - LevelError).

Inductive value := StringValue (s : string) | IntValue (z : Z) | AnyValue (printed : string).

(** [fmt.Sprintf("%v", a.Value.Any())]. *)
Definition printValue (v : value) : string :=
  match v with StringValue s => s | IntValue z => FormatInt z | AnyValue p => p end.

Record slogRecord := mkRecord {
  sr_Time : Z;
  sr_Level : Z;
  sr_Message : string;
  sr_Attrs : list (string * value);
}.

(** ** PrettyHandler *)

Record PrettyHandler := { ph_level : Z }.

Definition Enabled (h : PrettyHandler) (level : Z) : bool := ph_level h <=? level.

(** [time.TimeOnly], [offset] seconds east of UTC. *)
Definition timeOnly (offset : Z) (t : Z) : string :=
  let sec := (Unix t + offset) mod daySeconds in
  digits 2 (sec / 3600) +:+ ":" +:+ digits 2 (sec / 60 mod 60) +:+ ":" +:+ digits 2 (sec mod 60).

Definition levelColumn (l : Z) : string :=
  if l =? LevelInfo then "INFO " else if l =? LevelWarn then "WARN "
  else if l =? LevelError then "ERROR" else if l =? LevelDebug then "DEBUG" else levelString l.

Definition padMessage (msg : string) : string :=
  let msgWidth := displayWidth msg in
  if msgWidth <? 16 then msg +:+ blanks (Z.to_nat (16 - msgWidth)) else msg.

Definition attrText (a : string * value) : string := a.1 +:+ "=" +:+ printValue a.2.

(** The callback of [r.Attrs]. *)
Definition addAttr (attrs : string) (a : string * value) : string :=
  (if bool_decide (attrs = "") then attrs else attrs +:+ " ") +:+ attrText a.

Definition newline : ascii := "010".

Definition prefix (offset : Z) (r : slogRecord) : string :=
  timeOnly offset (sr_Time r) +:+ " " +:+ levelColumn (sr_Level r) +:+ " | " +:+ padMessage (sr_Message r).

Definition line (offset : Z) (r : slogRecord) : string :=
  prefix offset r +:+ " | " +:+ foldl addAttr "" (sr_Attrs r) +:+ String newline "".

(** The handler keeps no attributes and no groups. *)
Definition WithAttrs (attrs : list (string * value)) (h : PrettyHandler) : PrettyHandler := h.
Definition WithGroup (name : string) (h : PrettyHandler) : PrettyHandler := h.

Section writer.
Context {W : Type} (write : string → W → W * option error) (offset : Z).

Definition Handle (r : slogRecord) (w : W) : W * option error := write (line offset r) w.

(** [slog.Info] and the like: nothing below the level; the error is dropped. *)
Definition slogLog (h : PrettyHandler) (r : slogRecord) (w : W) : W :=
  if Enabled h (sr_Level r) then (Handle r w).1 else w.
End writer.

(** ** The lines of a request *)

(** [%.1f] of a finite number: the exact value to one decimal, ties to even. *)
Definition tenths (m : positive) (e : Z) : Z :=
  if 0 <=? e then Z.pos m * 2 ^ e * 10
  else
    let d := 2 ^ (- e) in
    let n := Z.pos m * 10 in
    let q := n / d in
    let r := n mod d in
    if (d <? 2 * r) || ((d =? 2 * r) && Z.odd q) then q + 1 else q.

Definition format1 (f : float64) : string :=
  let dec (n : Z) := FormatInt (n / 10) +:+ "." +:+ FormatInt (n mod 10) in
  match f with
  | S754_zero s => (if s then "-" else "") +:+ "0.0"
  | S754_finite s m e => (if s then "-" else "") +:+ dec (tenths m e)
  | S754_infinity s => if s then "-Inf" else "+Inf"
  | S754_nan => "NaN"
  end.

Definition fmtMs (ms : Z) : string :=
  if ms <? 1000 then FormatInt ms +:+ "ms" else format1 (fdiv (of_int ms) (of_int 1000)) +:+ "s".

Definition sinceMs (now : Z) (req : Queue.PendingRequest) : Z := Milliseconds (now - Queue.req_Timestamp req).

Section chain.
Context (now : Z) (req : Queue.PendingRequest).

Definition idAttr : string * value := ("id", StringValue (Chain.short (Queue.req_ID req))).
Definition modelAttr : string * value := ("model", StringValue (Queue.req_ModelAlias req)).

Definition LogRequestReceived : slogRecord :=
  mkRecord now LevelInfo "→ REQ"
    [idAttr; modelAttr; ("key", StringValue (Chain.short (Queue.req_APIKeyID req)));
     ("ip", StringValue (Chain.extractClientIP (Queue.req_Headers req) (Queue.req_RemoteAddr req)))].

Definition LogEnqueued (position length : Z) : option slogRecord :=
  if 1 <? length
  then Some (mkRecord now LevelInfo "⇢ QUEUE" [idAttr; ("pos", IntValue position); ("len", IntValue length)])
  else None.

Definition LogDequeued (workerID : string) : option slogRecord :=
  let waitMs := sinceMs now req in
  if 500 <? waitMs
  then Some (mkRecord now LevelInfo "⇠ DEQUEUE"
               [idAttr; ("worker", StringValue workerID); ("wait", StringValue (fmtMs waitMs))])
  else None.

(** The line of a warning that is not throttled ([Chain.callStep]). *)
Definition rateLimitLine (count : Z) (status : RateLimitStatus) : slogRecord :=
  mkRecord now LevelWarn "⚠ RATELIMIT"
    [("blocked", IntValue count); ("reason", StringValue (st_BlockReason status));
     ("rpm", StringValue (FormatInt (st_RPMCurrent status) +:+ "/" +:+ FormatInt (st_RPMLimit status)));
     ("tpm", StringValue (FormatInt (st_TPMCurrent status) +:+ "/" +:+ FormatInt (st_TPMLimit status)))].

Definition LogNodeAttemptStart (attempt : Z) (node : ModelNode) : option slogRecord :=
  if 1 <? attempt
  then Some (mkRecord now LevelInfo "↻ RETRY"
               [idAttr; ("attempt", IntValue attempt); ("node", StringValue (node_Name node))])
  else None.

Definition LogNodeAttemptFailed (node : ModelNode) (err : option error) (statusCode durationMs : Z)
    (willRetry : bool) : slogRecord :=
  let errorType := Chain.ClassifyError err statusCode in
  let detail := match err with Some e => err_Msg e | None => errorType end in
  mkRecord now LevelError "✗ NODE FAIL"
    [idAttr; ("node", StringValue (node_Name node)); ("status", IntValue statusCode); ("error", StringValue detail);
     ("time", StringValue (fmtMs durationMs)); ("retry", StringValue (if willRetry then "yes" else "no"))].

(** [LogNodeAttemptSuccess] writes nothing. *)
Definition LogNodeAttemptSuccess (result : ExecutionResult) : option slogRecord := None.

Definition LogRequestCompleted (result : ExecutionResult) : slogRecord :=
  mkRecord now LevelInfo "✓ DONE"
    [idAttr; modelAttr; ("node", StringValue (ex_FinalNodeID result));
     ("tokens", StringValue (FormatInt (ex_PromptTokens result) +:+ "/" +:+ FormatInt (ex_CompletionTokens result)
                             +:+ "/" +:+ FormatInt (ex_TotalTokens result)));
     ("time", StringValue (fmtMs (sinceMs now req))); ("attempts", IntValue (Z.of_nat (length (ex_Attempts result))))].

Definition LogRequestFailed (attempts : list AttemptLog) : slogRecord :=
  let nodes := (λ a, at_NodeID a +:+ "(" +:+ at_ErrorType a +:+ ")") <$> attempts in
  mkRecord now LevelError "✗ FAILED"
    [idAttr; modelAttr; ("attempts", IntValue (Z.of_nat (length attempts))); ("nodes", StringValue (Join nodes " → "));
     ("time", StringValue (fmtMs (sinceMs now req)))].

Definition LogRequestTimeout (maxWaitSec : Z) : slogRecord :=
  mkRecord now LevelError "⏱ TIMEOUT"
    [idAttr; modelAttr; ("waited", StringValue (fmtMs (sinceMs now req)));
     ("limit", StringValue (FormatInt maxWaitSec +:+ "s"))].

Definition LogRequestCancelled (currentAttempt : Z) : slogRecord :=
  mkRecord now LevelWarn "⊘ CANCELLED"
    [idAttr; modelAttr; ("time", StringValue (fmtMs (sinceMs now req))); ("at_attempt", IntValue currentAttempt)].
End chain.

(** The line of the pool's monitor, every ten seconds; it resets the number of
    blocked requests. *)
Definition monitorTick (now qLen active blocked : Z) : Z * option slogRecord :=
  (0, if (0 <? qLen) || (0 <? blocked)
      then Some (mkRecord now LevelInfo "⚙ POOL"
                   [("queue", IntValue qLen); ("active", IntValue active); ("blocked", IntValue blocked)])
      else None).

(** [logActiveLimit] of the rate limiter: the first request of a model and key
    that a limit applies to; [logged] is the map of those seen. *)
Definition logActiveLimit (now : Z) (keyID model : string) (gRPM gTPM mRPM mTPM kRPM kTPM : Z) (logged : gset string)
    : gset string * option slogRecord :=
  let key := model +:+ ":" +:+ keyID in
  let limits (rpm tpm : Z) := StringValue ("rpm=" +:+ FormatInt rpm +:+ " tpm=" +:+ FormatInt tpm) in
  if decide (key ∈ logged) then (logged, None)
  else ({[key]} ∪ logged,
        Some (mkRecord now LevelWarn "⚠ LIMIT ACTIVE"
                [("key", StringValue keyID); ("model", StringValue model); ("global", limits gRPM gTPM);
                 ("model", limits mRPM mTPM); ("key_limit", limits kRPM kTPM)])).

Example fmtMs_ex : fmtMs 999 = "999ms" ∧ fmtMs 1050 = "1.1s" ∧ fmtMs 6600 = "6.6s" ∧ fmtMs 1250 = "1.2s".
Proof. by vm_compute. Qed.

(** ** Lines *)

(** *** UTF-8 *)

(** The characters: the code points that are no surrogates. *)
Definition scalar (r : Z) : Prop := 0 ≤ r < 1114112 ∧ ¬ 55296 ≤ r < 57344.

Definition byte (z : Z) : ascii := ascii_of_nat (Z.to_nat z).

Definition encodeRune (r : Z) : string :=
  let low (k : Z) := byte (128 + r / 64 ^ k mod 64) in
  if r <? 128 then String (byte r) ""
  else if r <? 2048 then String (byte (192 + r / 64)) (String (low 0) "")
  else if r <? 65536 then String (byte (224 + r / 4096)) (String (low 1) (String (low 0) ""))
  else String (byte (240 + r / 262144)) (String (low 2) (String (low 1) (String (low 0) ""))).

Definition utf8 (rs : list Z) : string := foldr (λ r s, encodeRune r +:+ s) "" rs.

Lemma byte_value z : 0 ≤ z < 256 → nat_of_ascii (byte z) = Z.to_nat z.
Proof. intros Hz. unfold byte. apply nat_ascii_embedding. lia. Qed.

Lemma byte_in_byte lo hi z :
  0 ≤ z < 256 → byte_in lo hi (byte z) = (Z.of_nat lo <=? z) && (z <=? Z.of_nat hi).
Proof.
  intros Hz. unfold byte_in. rewrite byte_value by done.
  f_equal; apply eq_true_iff_eq; rewrite Nat.leb_le, Z.leb_le; lia.
Qed.

Ltac in_range := rewrite byte_in_byte by lia; apply andb_true_iff; rewrite !Z.leb_le; lia.

(** What the first byte of each length asks of the second. *)
Lemma follow_byte z : 194 ≤ z < 245 →
  ∃ lo hi, follow (byte z) = byte_in lo hi :: replicate (if z <? 224 then 0 else if z <? 240 then 1 else 2) cont ∧
    ∀ y, 128 ≤ y < 192 → (z = 224 → 160 ≤ y) → (z = 237 → y < 160) → (z = 240 → 144 ≤ y) → (z = 244 → y < 144) →
      byte_in lo hi (byte y) = true.
Proof.
  intros Hz. unfold follow. rewrite !byte_in_byte, !byte_value by lia.
  repeat match goal with
  | |- context [(?a <=? ?b) && (?b <=? ?c)] =>
      destruct (Z.leb_spec a b); destruct (Z.leb_spec b c); try lia; cbn [andb]
  | |- context [(Z.to_nat z =? ?n)%nat] => destruct (Nat.eqb_spec (Z.to_nat z) n); try lia
  | |- context [z <? ?n] => destruct (Z.ltb_spec z n); try lia
  end; do 2 eexists; (split; [reflexivity|]); intros; in_range.
Qed.

Lemma low_mod z : 0 ≤ z < 64 → Z.of_nat (nat_of_ascii (byte (128 + z))) mod 64 = z.
Proof.
  intros Hz. rewrite byte_value, Z2Nat.id by lia. replace (128 + z) with (z + 2 * 64) by lia.
  rewrite Z_mod_plus_full. by apply Z.mod_small.
Qed.

Lemma cont_low z : 0 ≤ z < 64 → cont (byte (128 + z)) = true.
Proof. intros Hz. unfold cont. in_range. Qed.

(** One character of more than one byte. *)
Lemma rangeRunes_lead z s lo hi n :
  194 ≤ z < 245 → follow (byte z) = byte_in lo hi :: replicate n cont →
  matches (byte_in lo hi :: replicate n cont) s = true →
  rangeRunes 0 (String (byte z) s) = contBits (S n) (leadBits (byte z) (S n)) s :: rangeRunes (S n) s.
Proof.
  intros Hz E Hm. cbn [rangeRunes]. rewrite E, byte_value, (proj2 (Nat.ltb_ge _ _)) by lia.
  cbn [length]. rewrite length_replicate. by rewrite Hm.
Qed.

Lemma rune2 z a s :
  194 ≤ z < 224 → 0 ≤ a < 64 →
  rangeRunes 0 (String (byte z) (String (byte (128 + a)) s)) = (z - 192) * 64 + a :: rangeRunes 0 s.
Proof.
  intros Hz Ha. destruct (follow_byte z ltac:(lia)) as (lo & hi & E & Hy).
  rewrite (proj2 (Z.ltb_lt _ _)) in E by lia. rewrite (rangeRunes_lead z _ lo hi _ ltac:(lia) E).
  - cbn [contBits leadBits rangeRunes]. rewrite low_mod, byte_value, Z2Nat.id by lia. by assert (z mod 32 = z - 192) as -> by (symmetry; apply (Z.mod_unique_pos _ _ 6); lia).
  - cbn [matches replicate]. rewrite Hy by lia. by destruct s.
Qed.

Lemma rune3 z b a s :
  224 ≤ z < 240 → 0 ≤ b < 64 → 0 ≤ a < 64 → (z = 224 → 32 ≤ b) → (z = 237 → b < 32) →
  rangeRunes 0 (String (byte z) (String (byte (128 + b)) (String (byte (128 + a)) s)))
  = ((z - 224) * 64 + b) * 64 + a :: rangeRunes 0 s.
Proof.
  intros Hz Hb Ha H1 H2. destruct (follow_byte z ltac:(lia)) as (lo & hi & E & Hy).
  rewrite (proj2 (Z.ltb_ge _ 224)), (proj2 (Z.ltb_lt _ 240)) in E by lia.
  rewrite (rangeRunes_lead z _ lo hi _ ltac:(lia) E).
  - cbn [contBits leadBits rangeRunes]. rewrite !low_mod, byte_value, Z2Nat.id by lia. by assert (z mod 16 = z - 224) as -> by (symmetry; apply (Z.mod_unique_pos _ _ 14); lia).
  - cbn [matches replicate]. rewrite Hy, cont_low by lia. by destruct s.
Qed.

Lemma rune4 z d b a s :
  240 ≤ z < 245 → 0 ≤ d < 64 → 0 ≤ b < 64 → 0 ≤ a < 64 → (z = 240 → 16 ≤ d) → (z = 244 → d < 16) →
  rangeRunes 0 (String (byte z) (String (byte (128 + d)) (String (byte (128 + b)) (String (byte (128 + a)) s))))
  = (((z - 240) * 64 + d) * 64 + b) * 64 + a :: rangeRunes 0 s.
Proof.
  intros Hz Hd Hb Ha H1 H2. destruct (follow_byte z ltac:(lia)) as (lo & hi & E & Hy).
  rewrite (proj2 (Z.ltb_ge _ 224)), (proj2 (Z.ltb_ge _ 240)) in E by lia.
  rewrite (rangeRunes_lead z _ lo hi _ ltac:(lia) E).
  - cbn [contBits leadBits rangeRunes]. rewrite !low_mod, byte_value, Z2Nat.id by lia. by assert (z mod 8 = z - 240) as -> by (symmetry; apply (Z.mod_unique_pos _ _ 30); lia).
  - cbn [matches replicate]. rewrite Hy, !cont_low by lia. by destruct s.
Qed.

#[local] Ltac Zify.zify_post_hook ::= Z.to_euclidean_division_equations.
(** Reading a text yields its characters. *)
Lemma rangeRunes_rune r s : scalar r → rangeRunes 0 (encodeRune r +:+ s) = r :: rangeRunes 0 s.
Proof.
  intros [Hr Hs]. unfold encodeRune. cbv zeta. change (64 ^ 0) with 1. change (64 ^ 1) with 64. change (64 ^ 2) with 4096.
  rewrite Z.div_1_r. destruct (Z.ltb_spec r 128) as [H1|H1].
  { rewrite append_cons. cbn [rangeRunes String.append]. rewrite byte_value by lia.
    rewrite (proj2 (Nat.ltb_lt _ _)) by lia. f_equal. lia. }
  destruct (Z.ltb_spec r 2048) as [H2|H2]; [|destruct (Z.ltb_spec r 65536) as [H3|H3]];
    rewrite !append_cons; cbn [String.append].
  - rewrite rune2 by lia. f_equal. lia.
  - rewrite rune3 by lia. f_equal. lia.
  - rewrite rune4 by lia. f_equal. lia.
Qed.

Lemma rangeRunes_utf8 rs : Forall scalar rs → rangeRunes 0 (utf8 rs) = rs.
Proof. induction 1 as [|r rs Hr _ IH]; [done|]. simpl. by rewrite rangeRunes_rune, IH. Qed.

(** The columns that characters take on the console: those above U+2000 are
    taken to be two wide. *)
Definition columns (rs : list Z) : nat := length rs + length (filter (λ r, 8192 < r) rs).

Lemma columns_cons r rs : Z.of_nat (columns (r :: rs)) = runeWidth r + Z.of_nat (columns rs).
Proof.
  unfold columns, runeWidth. rewrite filter_cons. destruct (Z.ltb_spec 8192 r).
  - rewrite decide_True by done. cbn [length]. lia.
  - rewrite decide_False by lia. cbn [length]. lia.
Qed.

Lemma columns_app rs rs' : columns (rs ++ rs') = (columns rs + columns rs')%nat.
Proof. unfold columns. rewrite filter_app, !length_app. lia. Qed.

Lemma utf8_app rs rs' : utf8 (rs ++ rs') = utf8 rs +:+ utf8 rs'.
Proof. induction rs as [|r rs IH]; [done|]. simpl. by rewrite IH, str_app_assoc. Qed.

(** The width that the handler computes. *)
Lemma displayWidth_utf8 rs : Forall scalar rs → displayWidth (utf8 rs) = Z.of_nat (columns rs).
Proof.
  intros Hr. unfold displayWidth. rewrite rangeRunes_utf8 by done. clear Hr.
  induction rs as [|r rs IH]; [done|]. by rewrite sumZ_cons, columns_cons, IH.
Qed.

(** *** Texts of bytes below 128 *)

Definition isAscii (c : ascii) : bool := (nat_of_ascii c <? 128)%nat.

Fixpoint allAscii (s : string) : bool := match s with "" => true | String c s => isAscii c && allAscii s end.

Fixpoint codes (s : string) : list Z :=
  match s with "" => [] | String c s => Z.of_nat (nat_of_ascii c) :: codes s end.

Lemma codes_ascii s :
  allAscii s = true → utf8 (codes s) = s ∧ Forall scalar (codes s) ∧ columns (codes s) = String.length s.
Proof.
  induction s as [|c s IH]; [done|]. simpl. intros [Hc Hs]%andb_true_iff.
  destruct (IH Hs) as (-> & Hf & Hl). unfold isAscii in Hc. apply Nat.ltb_lt in Hc. split_and!.
  - unfold encodeRune. rewrite (proj2 (Z.ltb_lt _ _)) by lia. unfold byte. by rewrite Nat2Z.id, ascii_nat_embedding.
  - constructor; [|done]. unfold scalar. lia.
  - apply Nat2Z.inj. rewrite columns_cons, Hl. unfold runeWidth. rewrite (proj2 (Z.ltb_ge _ _)) by lia. lia.
Qed.

Lemma blanks_ascii n : allAscii (blanks n) = true.
Proof. by induction n. Qed.
Lemma blanks_length n : String.length (blanks n) = n.
Proof. induction n; simpl; auto. Qed.

(** A message is followed by as many blanks as its column has room for. *)
Lemma padMessage_utf8 rs : Forall scalar rs → padMessage (utf8 rs) = utf8 rs +:+ blanks (16 - columns rs).
Proof.
  intros Hr. unfold padMessage. rewrite displayWidth_utf8 by done.
  destruct (Z.ltb_spec (Z.of_nat (columns rs)) 16); [do 2 f_equal; lia|].
  replace (16 - columns rs)%nat with 0%nat by lia. by rewrite str_app_nil_r.
Qed.

Lemma attrText_nonempty a : attrText a ≠ "".
Proof. unfold attrText. by destruct (a.1). Qed.

Lemma addAttr_fold s attrs :
  s ≠ "" → foldl addAttr s attrs = s +:+ foldr (λ a t, " " +:+ attrText a +:+ t) "" attrs.
Proof.
  revert s. induction attrs as [|a attrs IH]; intros s Hs; simpl; [by rewrite str_app_nil_r|].
  unfold addAttr at 2. rewrite bool_decide_eq_false_2 by done. rewrite IH by (by destruct s).
  by rewrite !str_app_assoc.
Qed.

Lemma Join_fold a attrs :
  Join (attrText <$> a :: attrs) " " = attrText a +:+ foldr (λ a t, " " +:+ attrText a +:+ t) "" attrs.
Proof.
  revert a. induction attrs as [|b attrs IH]; intros a; [simpl; by rewrite str_app_nil_r|].
  change (Join (attrText <$> a :: b :: attrs) " ") with (attrText a +:+ " " +:+ Join (attrText <$> b :: attrs) " ").
  by rewrite IH.
Qed.

(** The attributes are separated by single spaces. *)
Lemma attrs_join attrs : foldl addAttr "" attrs = Join (attrText <$> attrs) " ".
Proof.
  destruct attrs as [|a attrs]; [done|]. rewrite Join_fold. simpl. unfold addAttr at 2. simpl.
  by apply addAttr_fold, attrText_nonempty.
Qed.

Definition plain (s : string) : Prop := free_of newline s = true.

Lemma plain_app s t : plain s → plain t → plain (s +:+ t).
Proof. unfold plain. intros Hs Ht. by rewrite free_of_app, Hs, Ht. Qed.

Lemma plain_Join ws : Forall plain ws → plain (Join ws " ").
Proof.
  induction 1 as [|w [|v ws] Hw Hws IH]; [done|done|]. simpl. apply plain_app; [done|]. by apply plain_app.
Qed.

Lemma digitChar_range z : 0 ≤ z < 10 → isAscii (digitChar z) = true ∧ digitChar z ≠ newline.
Proof.
  intros Hz. assert (∃ n, (n < 10)%nat ∧ z = Z.of_nat n) as (n & Hn & ->) by (exists (Z.to_nat z); lia).
  do 10 (destruct n as [|n]; [by split|]). lia.
Qed.

Lemma digits_plain w n : allAscii (digits w n) = true ∧ plain (digits w n) ∧ String.length (digits w n) = w.
Proof.
  unfold plain. induction w as [|w (Ha & Hp & Hl)]; [done|]. simpl.
  destruct (digitChar_range (n / 10 ^ Z.of_nat w mod 10)) as [Hd Hn]; [apply Z.mod_pos_bound; lia|].
  rewrite Hd, Ha, Hp, Hl, (proj2 (Ascii.eqb_neq _ _)) by done. done.
Qed.

Lemma timeOnly_ok offset t :
  allAscii (timeOnly offset t) = true ∧ plain (timeOnly offset t) ∧ String.length (timeOnly offset t) = 8%nat.
Proof.
  unfold timeOnly. cbv zeta.
  set (h := _ / 3600). set (m := _ / 60 mod 60). set (sec := _ mod 60).
  destruct (digits_plain 2 h) as (Ha & Hp & _), (digits_plain 2 m) as (Ha' & Hp' & _),
    (digits_plain 2 sec) as (Ha'' & Hp'' & _).
  split_and!; [|by repeat apply plain_app|done]. revert Ha Ha' Ha''. simpl. intros Ha Ha' Ha''. bools.
  repeat match goal with H : isAscii _ = true |- _ => rewrite H; clear H end. done.
Qed.

(** The clock: hour, minute and second of the local day. *)
Lemma timeOnly_hms offset t :
  ∃ h m sec, timeOnly offset t = digits 2 h +:+ ":" +:+ digits 2 m +:+ ":" +:+ digits 2 sec ∧
    0 ≤ h < 24 ∧ 0 ≤ m < 60 ∧ 0 ≤ sec < 60 ∧ h * 3600 + m * 60 + sec = (Unix t + offset) mod 86400.
Proof.
  unfold timeOnly. cbv zeta. do 3 eexists. split; [reflexivity|]. change daySeconds with 86400.
  set (x := (Unix t + offset) mod 86400). assert (0 ≤ x < 86400) by (apply Z.mod_pos_bound; lia).
  clearbody x. lia.
Qed.

(** The four levels of [slog] and their column. *)
Definition levelNames : list (Z * string) :=
  [(LevelDebug, "DEBUG"); (LevelInfo, "INFO "); (LevelWarn, "WARN "); (LevelError, "ERROR")].

Lemma levelColumn_ok l name :
  (l, name) ∈ levelNames → levelColumn l = name ∧ allAscii name = true ∧ plain name ∧ String.length name = 5%nat.
Proof.
  unfold levelNames. rewrite !elem_of_cons. intros Hl.
  repeat destruct Hl as [[= -> ->]|Hl]; [done..|]. by apply elem_of_nil in Hl.
Qed.

Lemma plain_blanks n : plain (blanks n).
Proof. by induction n. Qed.

(** What stands before the attributes. *)
Definition lineHead (time level message : string) (room : nat) : string :=
  time +:+ " " +:+ level +:+ " | " +:+ message +:+ blanks room +:+ " | ".

Lemma lineHead_columns time level rs room :
  allAscii time = true → String.length time = 8%nat → allAscii level = true → String.length level = 5%nat →
  Forall scalar rs →
  ∃ before, lineHead time level (utf8 rs) room = utf8 before ∧ Forall scalar before ∧
    columns before = (20 + columns rs + room)%nat.
Proof.
  intros Ht Htl Hv Hvl Hr.
  destruct (codes_ascii time Ht) as (Et & Ft & Ct), (codes_ascii level Hv) as (Ev & Fv & Cv),
    (codes_ascii (blanks room) (blanks_ascii room)) as (Eb & Fb & Cb),
    (codes_ascii " " eq_refl) as (E1 & F1 & C1), (codes_ascii " | " eq_refl) as (E3 & F3 & C3).
  exists (codes time ++ codes " " ++ codes level ++ codes " | " ++ rs ++ codes (blanks room) ++ codes " | ").
  split_and!.
  - unfold lineHead. by rewrite !utf8_app, Et, Ev, Eb, E1, E3.
  - by repeat apply Forall_app_2.
  - rewrite !columns_app, Ct, Cv, Cb, C1, C3, blanks_length, Htl, Hvl. simpl. lia.
Qed.

(** C33. A record whose message is UTF-8 text becomes one line: the local time,
    the level padded to five characters, the message with blanks up to sixteen
    columns, and the attributes joined by spaces, each as key and value.  As long
    as message and attributes have no line break, the line ends at its only one.
    A character above U+2000 counts as two columns, any other as one: the
    attributes start in column 36 behind every message that takes at most
    sixteen, and right behind one that takes more. *)
Theorem console_line (offset : Z) (r : slogRecord) (name : string) (rs : list Z) :
  (sr_Level r, name) ∈ levelNames → Forall scalar rs → sr_Message r = utf8 rs →
  let attrs := (λ a, a.1 +:+ "=" +:+ printValue a.2) <$> sr_Attrs r in
  plain (sr_Message r) → Forall plain attrs →
  ∃ h m sec before body,
    (0 ≤ h < 24 ∧ 0 ≤ m < 60 ∧ 0 ≤ sec < 60 ∧ h * 3600 + m * 60 + sec = (Unix (sr_Time r) + offset) mod 86400) ∧
    line offset r = body +:+ String newline "" ∧ plain body ∧ body = utf8 before +:+ Join attrs " " ∧
    utf8 before =
      lineHead (digits 2 h +:+ ":" +:+ digits 2 m +:+ ":" +:+ digits 2 sec) name (sr_Message r) (16 - columns rs) ∧
    Forall scalar before ∧ columns before = (20 + Nat.max 16 (columns rs))%nat.
Proof.
  intros Hl Hr Hm attrs Hmp Hat.
  destruct (timeOnly_hms offset (sr_Time r)) as (h & m & sec & Et & Hh & Hmi & Hse & Hsum).
  destruct (timeOnly_ok offset (sr_Time r)) as (Hta & Htp & Htl), (levelColumn_ok _ _ Hl) as (Ev & Hva & Hvp & Hvl).
  rewrite Et in Hta, Htp, Htl. set (time := digits 2 h +:+ _) in *.
  destruct (lineHead_columns time name rs (16 - columns rs) Hta Htl Hva Hvl Hr) as (before & Eh & Hs & Hc).
  exists h, m, sec, before, (lineHead time name (sr_Message r) (16 - columns rs) +:+ Join attrs " ").
  rewrite <-Eh, <-Hm. split; [done|]. split_and!; [| |done|done|done|lia].
  - unfold line, prefix, lineHead. rewrite attrs_join, Et, Ev, Hm, padMessage_utf8 by done. by rewrite !str_app_assoc.
  - clearbody time. unfold lineHead. repeat apply plain_app; try done; [apply plain_blanks|by apply plain_Join].
Qed.

(** The messages of the chain logger fit their column. *)
Lemma chain_messages_fit :
  Forall (λ m, displayWidth m ≤ 16 ∧ plain m)
    ["→ REQ"; "⇢ QUEUE"; "⇠ DEQUEUE"; "⚠ RATELIMIT"; "↻ RETRY"; "✗ NODE FAIL"; "✓ DONE"; "✗ FAILED"; "⏱ TIMEOUT";
     "⊘ CANCELLED"].
Proof. repeat constructor; by vm_compute. Qed.

Definition demo_request : Queue.PendingRequest :=
  {| Queue.req_ID := "5ced794200"; Queue.req_SessionID := ""; Queue.req_RequestID := ""; Queue.req_Priority := 0;
     Queue.req_APIKeyID := "dev"; Queue.req_ModelAlias := "Qwen3-32B"; Queue.req_EndpointType := "chat";
     Queue.req_Timestamp := 0; Queue.req_BodyBytes := ""; Queue.req_Headers := ∅; Queue.req_Method := "POST";
     Queue.req_Path := "/"; Queue.req_RemoteAddr := "10.0.0.1:80"; Queue.req_ResponseWriter := 0;
     Queue.req_ResultChan := 0; Queue.req_Context := 0; Queue.req_QueueWaitMs := 0; Queue.req_ExecutionMs := 0;
     Queue.req_RatelimitRetries := 0 |}.

Lemma console_line_witness :
  let r := LogRequestReceived (34950 * Second) demo_request in
  line 0 r = "09:42:30 INFO  | → REQ           | id=5ced7942 model=Qwen3-32B key=dev ip=10.0.0.1" +:+ String newline "" ∧
  ∃ before, line 0 r = utf8 before +:+ "id=5ced7942 model=Qwen3-32B key=dev ip=10.0.0.1" +:+ String newline "" ∧
    columns before = 36%nat.
Proof.
  intros r. split; [by vm_compute|].
  destruct (console_line 0 r "INFO " [8594; 32; 82; 69; 81]) as (h & m & sec & before & body & _ & E & _ & -> & _ & _ & Hc).
  - by right; left.
  - by repeat (constructor; [unfold scalar; lia|]).
  - by vm_compute.
  - by vm_compute.
  - repeat constructor; by vm_compute.
  - exists before. split; [by rewrite E, str_app_assoc|]. by rewrite Hc.
Defined.

(** Nothing is escaped: a client address taken from [X-Forwarded-For] can look
    like further attributes. *)
Lemma attributes_forged ip :
  attrText ("key", StringValue ip) +:+ " " +:+ attrText ("ip", StringValue "10.0.0.1 x=y")
  = Join (attrText <$> [("key", StringValue ip); ("ip", StringValue "10.0.0.1"); ("x", StringValue "y")]) " ".
Proof. reflexivity. Qed.

End Console.
