(* ===== verification/RequestLines.v ===== *)
(** * The lines of the retry loop

    [forwardWithRetry] of [src/internal/worker/pool.go] with its calls of the
    chain logger: what the console shows of a request while it is tried on one
    node after the other, and that these lines can be read back from the
    attempts in its result. *)
From S2P Require Import Prelude GoStd GoFloat GoTime GoJson GoHeap Domain GoHttp RequestQueue Router Override Stream Proxy.
From S2P Require Import ChainLogger WorkerPool Console.

Module Lines.
Import Stream Proxy Console.

Section pool.
Context (Unmarshal : string → result error (option (gmap string json))).
Context (Marshal : option (gmap string json) → result error string).
Context (NewRequest : string → string → result error string).
Context (parseChunk : string → option Chunk) (parseSgChunk : string → option (Z * Z)).
Context (parsePath : string → string → option string).
(** When an attempt starts (or finds the client gone), and when it has failed. *)
Context (started failed : nat → Z).
Context (req : Queue.PendingRequest).

Abbreviation forwardOne := (Pool.forwardOne Unmarshal Marshal NewRequest parseChunk parseSgChunk parsePath).
Abbreviation retryLoop := (Pool.retryLoop Unmarshal Marshal NewRequest parseChunk parseSgChunk parsePath).
Abbreviation forwardWithRetry := (Pool.forwardWithRetry Unmarshal Marshal NewRequest parseChunk parseSgChunk parsePath).

(** The calls of the logger along [Pool.retryLoop]; [None] when that panics. *)
Fixpoint loopLines (wd : Pool.World) (candidates : list ModelNode) (todo attempt : nat) (excluded : gset string)
    (w : ResponseWriter) : option (list slogRecord) :=
  match todo with
  | O => Some []
  | S todo =>
      if Pool.wd_cancelled wd attempt
      then Some [LogRequestCancelled (started attempt) req (Z.of_nat attempt)]
      else
        match Pool.pickNode (Pool.wd_rand wd (2 * attempt)) candidates excluded with
        | None => Some []
        | Some node =>
            let start := option_list (LogNodeAttemptStart (started attempt) req (Z.of_nat attempt) node) in
            match forwardOne wd req attempt node w with
            | None => None
            | Some (rec, (fwdRes, fwdErr)) =>
                let statusCode := Pool.attemptStatus fwdRes rec in
                let errorType := Chain.ClassifyError fwdErr statusCode in
                let retryable := Chain.IsRetryable errorType in
                if bool_decide (fwdErr = None) && negb retryable
                then Some start
                else
                  let excluded := {[node_ID node]} ∪ excluded in
                  let willRetry := bool_decide (todo ≠ 0%nat) &&
                    Pool.is_Some_b (Pool.pickNode (Pool.wd_rand wd (2 * attempt + 1)) candidates excluded) in
                  let fail := LogNodeAttemptFailed (failed attempt) req node fwdErr statusCode
                                (Pool.wd_attemptMs wd attempt) willRetry in
                  if willRetry
                  then rest ← loopLines wd candidates todo (1 + attempt) excluded (Pool.rec_w rec);
                       Some (start ++ fail :: rest)
                  else Some (start ++ [fail])
            end
        end
  end.

Definition requestLines (cfg : Pool.WorkerConfig) (wd : Pool.World) (r : Routing.Router) (w : ResponseWriter)
    : option (list slogRecord) :=
  let candidates := Routing.Resolve (Queue.req_ModelAlias req) (Queue.req_EndpointType req) r in
  if bool_decide (length candidates = 0%nat) then Some []
  else loopLines wd candidates (Z.to_nat (Pool.wc_MaxRetryAttempts cfg)) 1 ∅ w.

(** ** The lines, read from the result *)

Definition startLines (a : AttemptLog) : list slogRecord :=
  if 1 <? at_Attempt a
  then [mkRecord (started (Z.to_nat (at_Attempt a))) LevelInfo "↻ RETRY"
          [idAttr req; ("attempt", IntValue (at_Attempt a)); ("node", StringValue (at_NodeName a))]]
  else [].

Definition failLine (a : AttemptLog) (willRetry : bool) : slogRecord :=
  mkRecord (failed (Z.to_nat (at_Attempt a))) LevelError "✗ NODE FAIL"
    [idAttr req; ("node", StringValue (at_NodeName a)); ("status", IntValue (at_StatusCode a));
     ("error", StringValue (match at_Error a with Some e => err_Msg e | None => at_ErrorType a end));
     ("time", StringValue (fmtMs (at_DurationMs a))); ("retry", StringValue (if willRetry then "yes" else "no"))].

Inductive ending := Succeeded | ClientGone | NoAttempt | GaveUp.

Definition endingOf (err : string) : ending :=
  if bool_decide (err = "") then Succeeded
  else if bool_decide (err = "cancelled") then ClientGone
  else if bool_decide (err = "all failed") || bool_decide (err = "no nodes") then NoAttempt
  else GaveUp.

(** After a failed attempt another one follows, unless the request ended there. *)
Definition outcomeLines (a : AttemptLog) (last : bool) (e : ending) : list slogRecord :=
  match e with
  | Succeeded => if last then [] else [failLine a true]
  | GaveUp => [failLine a (negb last)]
  | ClientGone | NoAttempt => [failLine a true]
  end.

Fixpoint attemptsLines (e : ending) (n : nat) (attempts : list AttemptLog) : list slogRecord :=
  match attempts with
  | [] => match e with
          | ClientGone => [LogRequestCancelled (started (S n)) req (Z.of_nat (S n))]
          | _ => []
          end
  | a :: attempts =>
      startLines a ++ outcomeLines a (match attempts with [] => true | _ => false end) e
      ++ attemptsLines e n attempts
  end.

Lemma endingOf_class err code : endingOf (Chain.ClassifyError err code) = GaveUp.
Proof. unfold Chain.ClassifyError. repeat case_match; by vm_compute. Qed.

Lemma start_lines attempt node ms sc et fe fr :
  option_list (LogNodeAttemptStart (started attempt) req (Z.of_nat attempt) node) =
  startLines (Pool.attemptLog attempt node ms sc et fe fr).
Proof. unfold LogNodeAttemptStart, startLines. simpl. rewrite Nat2Z.id. by destruct (1 <? Z.of_nat attempt). Qed.

Lemma fail_line attempt node ms sc fe fr b :
  LogNodeAttemptFailed (failed attempt) req node fe sc ms b =
  failLine (Pool.attemptLog attempt node ms sc (Chain.ClassifyError fe sc) fe fr) b.
Proof. unfold LogNodeAttemptFailed, failLine. simpl. by rewrite Nat2Z.id. Qed.

(** A node is there for every attempt after a promised retry. *)
Lemma loop_lines wd cands todo excluded atts w w' res :
  (∀ i n, 0 < n → 0 ≤ Pool.wd_rand wd i n < n) →
  (atts ≠ [] → todo ≠ 0%nat ∧
     Pool.is_Some_b (Pool.pickNode (Pool.wd_rand wd (2 * S (length atts))) cands excluded) = true) →
  retryLoop wd req cands todo (S (length atts)) excluded atts w = Some (w', res) →
  ∃ new, ex_Attempts res = atts ++ new ∧ (new = [] → atts ≠ [] → endingOf (ex_Error res) = ClientGone) ∧
    loopLines wd cands todo (S (length atts)) excluded w
      = Some (attemptsLines (endingOf (ex_Error res)) (length (ex_Attempts res)) new).
Proof.
  intros Hrnd. revert excluded atts w. induction todo as [|todo IH]; intros excluded atts w Hmore HL.
  { simpl in HL. simplify_eq. exists []. rewrite app_nil_r. split_and!; [done| |done]. intros _ Hne.
    by destruct (Hmore Hne). }
  cbn [Pool.retryLoop loopLines] in *. destruct (Pool.wd_cancelled wd _).
  { simplify_eq. exists []. by rewrite app_nil_r. }
  destruct (Pool.pickNode (Pool.wd_rand wd (2 * S (length atts))) cands excluded) as [node|] eqn:Hp.
  2: { simplify_eq. exists []. rewrite app_nil_r. split_and!; [done| |done]. intros _ Hne.
       by destruct (Hmore Hne). }
  destruct (forwardOne _ _ _ _ _) as [[rec [fwdRes fwdErr]]|]; [|done].
  set (sc := Pool.attemptStatus _ _) in *. set (et := Chain.ClassifyError _ _) in *.
  rewrite (start_lines _ _ (Pool.wd_attemptMs wd (S (length atts))) sc et fwdErr fwdRes).
  rewrite (fail_line _ _ (Pool.wd_attemptMs wd (S (length atts))) sc fwdErr fwdRes).
  fold et. set (a := Pool.attemptLog _ _ _ _ _ _ _) in *.
  destruct (bool_decide (fwdErr = None) && negb (Chain.IsRetryable et)).
  { apply (inj Some), pair_eq in HL as [<- <-].
    destruct (Pool.successResult_fields sc node (atts ++ [a]) (Pool.wd_elapsedMs wd (S (length atts))) fwdRes)
      as (-> & -> & _ & _).
    exists [a]. split_and!; [done..|]. cbn. by rewrite !app_nil_r. }
  set (ex' := {[node_ID node]} ∪ excluded) in *.
  destruct (bool_decide (todo ≠ 0%nat) && _) eqn:Hretry.
  - bools. replace (1 + S (length atts))%nat with (S (length (atts ++ [a]))) in * by (rewrite length_app; simpl; lia).
    destruct (IH ex' (atts ++ [a]) (Pool.rec_w rec)) as (new & Hnew & Hend & Hlines); [|done|].
    { intros _. split; [done|]. by eapply Pool.pick_again; [intros; apply Hrnd|]. }
    exists (a :: new). split_and!; [by rewrite Hnew, <-app_assoc|done|].
    rewrite Hlines. cbn [attemptsLines mbind option_bind]. f_equal. f_equal.
    destruct new as [|b new]; [|by destruct (endingOf (ex_Error res))].
    rewrite Hend by (done || by destruct atts). done.
  - simplify_eq. simpl. exists [a]. split_and!; [done..|]. unfold et. rewrite endingOf_class. done.
Qed.

(** C32. The console tells a request's story as its result does: the lines
    written while a request is tried are one per attempt after the first, one
    per failed attempt, in order, with the node, status, error and duration that
    the result records, and "retry=yes" exactly when another attempt followed or
    the client was gone before it; a last line says that the client went
    away. *)
Theorem lines_match_result (cfg : Pool.WorkerConfig) (wd : Pool.World) (r : Routing.Router) (w w' : ResponseWriter)
    (res : ExecutionResult) :
  (∀ i n, 0 < n → 0 ≤ Pool.wd_rand wd i n < n) →
  forwardWithRetry cfg wd r req w = Some (w', res) →
  requestLines cfg wd r w
    = Some (attemptsLines (endingOf (ex_Error res)) (length (ex_Attempts res)) (ex_Attempts res)).
Proof.
  intros Hrnd. unfold Pool.forwardWithRetry, requestLines. case_bool_decide; [by intros [= <- <-]|]. intros HL.
  destruct (loop_lines wd _ _ ∅ [] w w' res Hrnd ltac:(done) HL) as (new & Hnew & _ & Hlines).
  simpl in Hnew. subst new. exact Hlines.
Qed.
End pool.

Lemma lines_match_result_witness :
  requestLines (λ _, Ok (Some {["stream" := JBool false]})) (λ _, Ok "OUT") (λ _ _, Ok "host") (λ _, None) (λ _, None)
    (λ _ p, Some p) (λ _, 0) (λ _, 0) Pool.demo_request Pool.demo_config
    (Pool.demo_world Pool.demo_refused (Pool.demo_answer 200 "hello" None)) Pool.demo_router newRW
  = Some [mkRecord 0 LevelError "✗ NODE FAIL"
            [("id", StringValue "r1"); ("node", StringValue "a"); ("status", IntValue 0);
             ("error", StringValue "proxy: upstream request: dial: connection refused"); ("time", StringValue "0ms"); ("retry", StringValue "yes")];
          mkRecord 0 LevelInfo "↻ RETRY" [("id", StringValue "r1"); ("attempt", IntValue 2); ("node", StringValue "b")]].
Proof.
  destruct Pool.demo_run as [[w' res]|] eqn:E; [|by vm_compute in E].
  unfold Pool.demo_run, Pool.demo_forward in E.
  refine (eq_trans (lines_match_result _ _ _ _ _ _ _ _ _ _ _ _ _ _ _ _ E) _); [intros i n Hn; simpl; lia|].
  vm_compute in E. injection E as <- <-. by vm_compute.
Defined.

End Lines.
