(* ===== verification/Auth.v ===== *)
(** * package auth: tokens, keys and identifiers

    [src/internal/auth].  The store is the argument [GetAPIKeyByValue]; the
    random sources of [keygen.go] are arguments too, one draw per character or
    byte. *)
From S2P Require Import Prelude GoStd GoFloat GoJson Domain GoHttp.
From Stdlib Require Import Ascii.

Module Auth.

Inductive authError := ErrUnauthorized | ErrExpired.

#[global] Instance authError_eq_dec : EqDecision authError.
Proof. solve_decision. Defined.

Definition ExtractToken (h : Header) : option string :=
  let header := hdrGet h "Authorization" in
  if bool_decide (header = "") then None
  else if negb (HasPrefix header "Bearer ") then None
  else
    let token := TrimPrefix header "Bearer " in
    if bool_decide (token = "") then None else Some token.

(** [now] is [time.Now()]. *)
Definition Authenticate (GetAPIKeyByValue : string → result error (option APIKey)) (now : Z)
    (token : string) : result authError APIKey :=
  match GetAPIKeyByValue token with
  | Err _ => Err ErrUnauthorized
  | Ok None => Err ErrUnauthorized
  | Ok (Some key) =>
      if negb (key_Enabled key) then Err ErrUnauthorized
      else match key_ExpiresAt key with
           | Some exp => if After now exp then Err ErrExpired else Ok key
           | None => Ok key
           end
  end.

Fixpoint modelListed (models : list string) (modelAlias : string) : bool :=
  match models with
  | [] => false
  | allowed :: models => if bool_decide (allowed = modelAlias) then true else modelListed models modelAlias
  end.

Definition CheckModelAllowed (key : APIKey) (modelAlias : string) : bool :=
  if bool_decide (length (key_AllowModels key) = 0%nat) then true
  else modelListed (key_AllowModels key) modelAlias.

Definition base62Chars : string := "0123456789ABCDEFGHIJKLMNOPQRSTUVWXYZabcdefghijklmnopqrstuvwxyz".

Definition charAt (s : string) (i : Z) : ascii := default "?"%char (String.get (Z.to_nat i) s).

(** The characters of a key: for each position the draw of [crypto/rand] in
    [[0, 62)], or, when that fails, the draw of [math/rand]. *)
Definition keyChars (draws : nat → option Z) (fallback : nat → Z) (n : nat) : list ascii :=
  (λ i, charAt base62Chars (match draws i with Some n => n | None => fallback i end)) <$> seq 0 n.

Definition GenerateKey (draws : nat → option Z) (fallback : nat → Z) : string :=
  "pk-" +:+ String.string_of_list_ascii (keyChars draws fallback 48).

Definition hexChars : string := "0123456789abcdef".

(** [hex.EncodeToString]. *)
Fixpoint hexEncode (b : list Z) : string :=
  match b with
  | [] => ""
  | x :: b => String (charAt hexChars (x / 16)) (String (charAt hexChars (x mod 16)) (hexEncode b))
  end.

(** [GenerateID]: 8 bytes of [crypto/rand], or of [math/rand] when it fails. *)
Definition GenerateID (read : option (list Z)) (fallback : list Z) : string :=
  hexEncode (match read with Some b => b | None => fallback end).

(** ** Lemmas *)

Lemma modelListed_elem models m : modelListed models m = true ↔ m ∈ models.
Proof.
  induction models as [|a models IH]; simpl; [set_solver|].
  case_bool_decide; set_solver.
Qed.

(** The model list of a key is an allow list; the empty list allows every model. *)
Lemma CheckModelAllowed_iff key modelAlias :
  CheckModelAllowed key modelAlias = true ↔
  key_AllowModels key = [] ∨ modelAlias ∈ key_AllowModels key.
Proof.
  unfold CheckModelAllowed. case_bool_decide as Hl.
  - apply nil_length_inv in Hl. naive_solver.
  - rewrite modelListed_elem. split; [auto|]. intros [Hn|?]; [by rewrite Hn in Hl|done].
Qed.

Lemma base62_inj : ∀ i j, 0 ≤ i < 62 → 0 ≤ j < 62 →
  charAt base62Chars i = charAt base62Chars j → i = j.
Proof.
  assert (forallb (λ i, forallb (λ j, implb (Ascii.eqb (charAt base62Chars (Z.of_nat i))
    (charAt base62Chars (Z.of_nat j))) (i =? j)%nat) (seq 0 62)) (seq 0 62) = true) as Hall
    by (vm_compute; reflexivity).
  intros i j Hi Hj E. rewrite forallb_forall in Hall.
  specialize (Hall (Z.to_nat i) ltac:(apply in_seq; lia)). rewrite forallb_forall in Hall.
  specialize (Hall (Z.to_nat j) ltac:(apply in_seq; lia)).
  rewrite !Z2Nat.id, E, Ascii.eqb_refl in Hall by lia. simpl in Hall.
  apply Nat.eqb_eq in Hall. lia.
Qed.

Lemma hex_inj : ∀ i j, 0 ≤ i < 16 → 0 ≤ j < 16 → charAt hexChars i = charAt hexChars j → i = j.
Proof.
  assert (forallb (λ i, forallb (λ j, implb (Ascii.eqb (charAt hexChars (Z.of_nat i))
    (charAt hexChars (Z.of_nat j))) (i =? j)%nat) (seq 0 16)) (seq 0 16) = true) as Hall
    by (vm_compute; reflexivity).
  intros i j Hi Hj E. rewrite forallb_forall in Hall.
  specialize (Hall (Z.to_nat i) ltac:(apply in_seq; lia)). rewrite forallb_forall in Hall.
  specialize (Hall (Z.to_nat j) ltac:(apply in_seq; lia)).
  rewrite !Z2Nat.id, E, Ascii.eqb_refl in Hall by lia. simpl in Hall.
  apply Nat.eqb_eq in Hall. lia.
Qed.

Definition byte_range (x : Z) : Prop := 0 ≤ x < 256.

Lemma hexEncode_inj b b' :
  Forall byte_range b → Forall byte_range b' → hexEncode b = hexEncode b' → b = b'.
Proof.
  intros Hb. revert b'. induction Hb as [|x b Hx Hb IH]; intros b' Hb' E.
  - destruct b'; [done|]. done.
  - destruct Hb' as [|y b' Hy Hb']; [done|]. cbn [hexEncode] in E. injection E as E1 E2 E.
    unfold byte_range in *.
    apply hex_inj in E1; [|split; [apply Z.div_pos; lia|apply Z.div_lt_upper_bound; lia]..].
    apply hex_inj in E2; [|apply Z.mod_pos_bound; lia..].
    f_equal; [|by apply IH]. rewrite (Z.div_mod x 16), (Z.div_mod y 16) by lia. lia.
Qed.

Lemma hexEncode_length b : String.length (hexEncode b) = (2 * length b)%nat.
Proof. induction b as [|x b IH]; simpl; [done|]. rewrite IH. lia. Qed.

Lemma Authenticate_Ok store now token key :
  Authenticate store now token = Ok key ↔
  store token = Ok (Some key) ∧ key_Enabled key = true ∧
  (∀ exp, key_ExpiresAt key = Some exp → now ≤ exp).
Proof.
  unfold Authenticate, After. destruct (store token) as [[k|]|e]; [|naive_solver..].
  destruct (key_Enabled k) eqn:He; simpl;
    [|split; [done|]; intros (E & E' & _); simplify_eq; congruence].
  destruct (key_ExpiresAt k) as [exp|] eqn:Hx; [destruct (Z.ltb_spec exp now) as [Hl|Hl]|].
  - split; [done|]. intros (E & _ & Hex). simplify_eq. specialize (Hex _ Hx). lia.
  - split; [intros E; simplify_eq|by intros [E _]; simplify_eq].
    split_and!; [done..|]. intros exp' E'. by simplify_eq.
  - split; [intros E; simplify_eq|by intros [E _]; simplify_eq].
    split_and!; [done..|]. intros exp' E'. by rewrite Hx in E'.
Qed.

(** ** Properties *)

(** Authentication is exact: a token yields a key if and only if the store
    has that key for the token, it is enabled and it has not expired; a store
    failure, an unknown token and a disabled key are all [ErrUnauthorized],
    and [ErrExpired] is reported only for an enabled, known, expired key. *)
Theorem authenticate_iff (store : string → result error (option APIKey)) (now : Z)
    (token : string) :
  (∀ key, Authenticate store now token = Ok key ↔
     store token = Ok (Some key) ∧ key_Enabled key = true ∧
     (∀ exp, key_ExpiresAt key = Some exp → now ≤ exp)) ∧
  (Authenticate store now token = Err ErrExpired ↔
     ∃ key exp, store token = Ok (Some key) ∧ key_Enabled key = true ∧
       key_ExpiresAt key = Some exp ∧ exp < now).
Proof.
  split; [intros key; apply Authenticate_Ok|]. unfold Authenticate, After.
  destruct (store token) as [[key|]|e]; [|naive_solver..].
  destruct (key_Enabled key) eqn:He; simpl;
    [|split; [done|]; intros (key' & exp & E & E' & _); simplify_eq; congruence].
  split.
  - destruct (key_ExpiresAt key) as [exp|] eqn:Hx; [|done].
    destruct (Z.ltb_spec exp now); [by exists key, exp|done].
  - intros (key' & exp' & E & _ & Hx & Hl). simplify_eq. rewrite Hx.
    by rewrite (proj2 (Z.ltb_lt _ _)).
Qed.

(** Generated identifiers do not collide unless the random source does: two
    request IDs are equal only if their eight random bytes are, and two API
    keys only if all 48 draws are; an ID has 16 characters, a key 51. *)
Theorem generated_distinct (b b' : list Z) (draws draws' : nat → Z) :
  Forall byte_range b → Forall byte_range b' → length b = 8%nat →
  (∀ i, 0 ≤ draws i < 62) → (∀ i, 0 ≤ draws' i < 62) →
  let key d := GenerateKey (λ i, Some (d i)) (λ _, 0) in
  String.length (GenerateID (Some b) []) = 16%nat ∧
  (GenerateID (Some b) [] = GenerateID (Some b') [] → b = b') ∧
  String.length (key draws) = 51%nat ∧
  (key draws = key draws' → ∀ i, (i < 48)%nat → draws i = draws' i).
Proof.
  intros Hb Hb' Hlen Hd Hd' key. split_and!.
  - unfold GenerateID. by rewrite hexEncode_length, Hlen.
  - unfold GenerateID. by apply hexEncode_inj.
  - reflexivity.
  - unfold key, GenerateKey. intros E%(inj (String.app "pk-")) i Hi.
    apply (f_equal String.list_ascii_of_string) in E.
    rewrite !String.list_ascii_of_string_of_list_ascii in E. unfold keyChars in E.
    apply (f_equal (λ l, l !! i)) in E. rewrite !list_lookup_fmap in E.
    rewrite (lookup_seq_lt 0 48 i) in E by done. simpl in E. injection E as E.
    by apply base62_inj in E.
Qed.

(** ** Witness *)

Lemma generated_distinct_witness :
  GenerateID (Some [1; 2; 3; 4; 5; 6; 7; 8]) [] = "0102030405060708" ∧
  String.length (GenerateKey (λ i, Some (Z.of_nat i `mod` 62)) (λ _, 0)) = 51%nat.
Proof.
  split; [vm_compute; reflexivity|].
  apply (generated_distinct [1; 2; 3; 4; 5; 6; 7; 8] [] (λ i, Z.of_nat i `mod` 62) (λ _, 0));
    [|constructor|reflexivity|intros; apply Z.mod_pos_bound; lia|lia].
  repeat constructor; unfold byte_range; lia.
Defined.

End Auth.
