(* ===== verification/Dispatch.v ===== *)
(** * The worker loop and the requests in flight

    [worker], [Start], [Stop] and [monitor] of [src/internal/worker/pool.go]
    together with the handlers that enqueue ([src/internal/api/openai.go]).  A
    worker dequeues a request, asks the limiter, forwards it or hands it to a
    goroutine that sleeps and enqueues it again.  The step relation interleaves
    any number of handlers, workers and sleeping goroutines; an action is what
    one of them does between two accesses to shared state: an atomic counter, a
    gauge, a channel, the queue's critical section.  The limiter's verdict and
    the moment a context is cancelled are choices of the environment.  The last
    four fields of the state record what became of each accepted request. *)
From S2P Require Import Prelude GoStd GoFloat GoJson GoHeap Domain RequestQueue.
Import Queue.

Module Dispatch.

(** Where a worker is in its loop: before the [select], in [DequeueBlocking],
    before [activeWorker.Add(1)], in [AllowRequest]; refused: before
    [blockedCount.Add(1)], before [activeWorker.Add(-1)], before the [go]
    statement; allowed: before [IncWorkerBusy], in [forwardWithRetry], before
    [activeWorker.Add(-1)], in the [select] that sends the result. *)
Inductive worker :=
| Idle
| Dequeuing
| Taken (req : PendingRequest)
| Checking (req : PendingRequest)
| Refused (req : PendingRequest)
| Counted (req : PendingRequest)
| Handing (req : PendingRequest)
| Allowed (req : PendingRequest)
| Serving (req : PendingRequest)
| Released (req : PendingRequest)
| Answering (req : PendingRequest)
| Exited.

(** [s_delayed]: the goroutines that requeue; [true] when [r.Context.Err()] was
    found to be nil. *)
Record Sys := mkSys {
  s_queue : RequestQueue;
  s_stopCh : bool;
  s_workers : list worker;
  s_delayed : list (PendingRequest * bool);
  s_cancelled : gset nat;
  s_activeWorker : Z;
  s_workerBusy : Z;
  s_blockedCount : Z;
  (** history *)
  s_accepted : list PendingRequest;
  s_answered : list PendingRequest;
  s_dropped : list PendingRequest;
  s_lost : list PendingRequest;
}.

Definition Start (workerCount maxSize : Z) : Sys :=
  mkSys (NewRequestQueue maxSize) false (replicate (Z.to_nat workerCount) Idle) [] ∅ 0 0 0 [] [] [] [].

Definition ctxErr (s : Sys) (c : nat) : bool := bool_decide (c ∈ s_cancelled s).

Definition with_queue (q : RequestQueue) (s : Sys) : Sys :=
  mkSys q (s_stopCh s) (s_workers s) (s_delayed s) (s_cancelled s) (s_activeWorker s)
    (s_workerBusy s) (s_blockedCount s) (s_accepted s) (s_answered s) (s_dropped s) (s_lost s).

Definition set_worker (i : nat) (x : worker) (s : Sys) : Sys :=
  mkSys (s_queue s) (s_stopCh s) (<[i := x]> (s_workers s)) (s_delayed s) (s_cancelled s)
    (s_activeWorker s) (s_workerBusy s) (s_blockedCount s) (s_accepted s) (s_answered s)
    (s_dropped s) (s_lost s).

Definition add_counters (active busy blocked : Z) (s : Sys) : Sys :=
  mkSys (s_queue s) (s_stopCh s) (s_workers s) (s_delayed s) (s_cancelled s)
    (s_activeWorker s + active) (s_workerBusy s + busy) (s_blockedCount s + blocked)
    (s_accepted s) (s_answered s) (s_dropped s) (s_lost s).

Definition close_stopCh (s : Sys) : Sys :=
  mkSys (s_queue s) true (s_workers s) (s_delayed s) (s_cancelled s) (s_activeWorker s)
    (s_workerBusy s) (s_blockedCount s) (s_accepted s) (s_answered s) (s_dropped s) (s_lost s).

Definition cancel (c : nat) (s : Sys) : Sys :=
  mkSys (s_queue s) (s_stopCh s) (s_workers s) (s_delayed s) ({[c]} ∪ s_cancelled s) (s_activeWorker s)
    (s_workerBusy s) (s_blockedCount s) (s_accepted s) (s_answered s) (s_dropped s) (s_lost s).

Definition add_history (accepted answered dropped lost : list PendingRequest) (s : Sys) : Sys :=
  mkSys (s_queue s) (s_stopCh s) (s_workers s) (s_delayed s) (s_cancelled s) (s_activeWorker s)
    (s_workerBusy s) (s_blockedCount s) (accepted ++ s_accepted s) (answered ++ s_answered s)
    (dropped ++ s_dropped s) (lost ++ s_lost s).

Definition set_delayed (l : list (PendingRequest * bool)) (s : Sys) : Sys :=
  mkSys (s_queue s) (s_stopCh s) (s_workers s) l (s_cancelled s) (s_activeWorker s)
    (s_workerBusy s) (s_blockedCount s) (s_accepted s) (s_answered s) (s_dropped s) (s_lost s).

(** The requests [DequeueBlocking] skipped: those its heap no longer holds. *)
Fixpoint skipped (ctxErr : nat → bool) (fuel : nat) (h : list PendingRequest) : list PendingRequest :=
  match fuel, Pop Less h with
  | S fuel, Some (item, h') => if ctxErr (req_Context item) then item :: skipped ctxErr fuel h' else []
  | _, _ => []
  end.

Inductive action :=
| Submit (req : PendingRequest)           (* a handler enqueues *)
| Check (i : nat)                         (* the select on stopCh *)
| Take (i : nat)                          (* a round of DequeueBlocking *)
| Verdict (i : nat) (allowed : bool)      (* AllowRequest returns *)
| Advance (i : nat)                       (* the next counter, gauge or go statement *)
| Answer (i : nat) (send : bool)          (* the select on ResultChan *)
| Wake (j : nat)                          (* r.Context.Err() after the sleep *)
| Requeue (j : nat)                       (* p.queue.Enqueue(r) *)
| Cancel (c : nat)
| Tick                                    (* blockedCount.Swap(0) of the monitor *)
| CloseStop                               (* Stop: close(p.stopCh) *)
| CloseQueue.                             (* Stop: p.queue.Close() *)

(** The next step of a worker that depends on nothing else: where it is then, how
    the counters change, and the request it hands to a goroutine. *)
Definition advance (x : worker) : option (worker * (Z * Z * Z) * list PendingRequest) :=
  match x with
  | Taken req => Some (Checking req, (1, 0, 0), [])
  | Refused req => Some (Counted req, (0, 0, 1), [])
  | Counted req => Some (Handing req, (-1, 0, 0), [])
  | Handing req => Some (Idle, (0, 0, 0), [req])
  | Allowed req => Some (Serving req, (0, 1, 0), [])
  | Serving req => Some (Released req, (0, -1, 0), [])
  | Released req => Some (Answering req, (-1, 0, 0), [])
  | _ => None
  end.

Definition act (a : action) (s : Sys) : option Sys :=
  match a with
  | Submit req =>
      let '(q, (position, _)) := Enqueue (s_queue s) req in
      if position =? -1 then Some s
      else Some (add_history [req] [] [] [] (with_queue q s))
  | Check i =>
      match s_workers s !! i with
      | Some Idle => Some (set_worker i (if s_stopCh s then Exited else Dequeuing) s)
      | _ => None
      end
  | Take i =>
      match s_workers s !! i with
      | Some Dequeuing =>
          let dropped := skipped (ctxErr s) (length (q_heap (s_queue s))) (q_heap (s_queue s)) in
          match DequeueBlocking (ctxErr s) (s_queue s) with
          | (q, Returned (Some req)) =>
              Some (add_history [] [] dropped [] (set_worker i (Taken req) (with_queue q s)))
          | (q, Returned None) =>
              Some (add_history [] [] dropped [] (set_worker i Exited (with_queue q s)))
          | (q, Blocked) => Some (add_history [] [] dropped [] (with_queue q s))
          end
      | _ => None
      end
  | Verdict i allowed =>
      match s_workers s !! i with
      | Some (Checking req) => Some (set_worker i (if allowed then Allowed req else Refused req) s)
      | _ => None
      end
  | Advance i =>
      x ← s_workers s !! i;
      '(y, (active, busy, blocked), handed) ← advance x;
      Some (set_delayed (((λ r, (r, false)) <$> handed) ++ s_delayed s)
              (add_counters active busy blocked (set_worker i y s)))
  | Answer i send =>
      match s_workers s !! i with
      | Some (Answering req) =>
          let s := set_worker i Idle s in
          if send then Some (add_history [] [req] [] [] s)
          else if ctxErr s (req_Context req) then Some (add_history [] [] [req] [] s)
          else None
      | _ => None
      end
  | Wake j =>
      match s_delayed s !! j with
      | Some (req, false) =>
          if ctxErr s (req_Context req)
          then Some (add_history [] [] [req] [] (set_delayed (delete j (s_delayed s)) s))
          else Some (set_delayed (<[j := (req, true)]> (s_delayed s)) s)
      | _ => None
      end
  | Requeue j =>
      match s_delayed s !! j with
      | Some (req, true) =>
          let s := set_delayed (delete j (s_delayed s)) s in
          let '(q, (position, _)) := Enqueue (s_queue s) req in
          if position =? -1 then Some (add_history [] [] [] [req] s) else Some (with_queue q s)
      | _ => None
      end
  | Cancel c => Some (cancel c s)
  | Tick => Some (add_counters 0 0 (- s_blockedCount s) s)
  | CloseStop => if s_stopCh s then None else Some (close_stopCh s)
  | CloseQueue => if s_stopCh s then Some (with_queue (Close (s_queue s)) s) else None
  end.

Definition step (s s' : Sys) : Prop := ∃ a, act a s = Some s'.

(** ** The invariant *)

Definition held (x : worker) : list PendingRequest :=
  match x with
  | Taken r | Checking r | Refused r | Counted r | Handing r | Allowed r | Serving r | Released r | Answering r => [r]
  | Idle | Dequeuing | Exited => []
  end.
(** Between [activeWorker.Add(1)] and [activeWorker.Add(-1)]. *)
Definition active (x : worker) : bool :=
  match x with Checking _ | Refused _ | Counted _ | Allowed _ | Serving _ | Released _ => true | _ => false end.
(** Between [IncWorkerBusy] and [DecWorkerBusy]. *)
Definition busy (x : worker) : bool := match x with Serving _ => true | _ => false end.

(** Every request the system knows about, by place. *)
Definition everywhere (s : Sys) : list PendingRequest :=
  q_heap (s_queue s) ++ (s_workers s ≫= held) ++ (s_delayed s).*1 ++ s_answered s ++ s_dropped s ++ s_lost s.

Record sys_ok (workers maxSize : Z) (s : Sys) : Prop := {
  ok_queue : queue_ok (s_queue s);
  ok_max : q_max (s_queue s) = maxSize;
  ok_stop : q_closed (s_queue s) = true → s_stopCh s = true;
  ok_workers : length (s_workers s) = Z.to_nat workers;
  ok_conserved : s_accepted s ≡ₚ everywhere s;
  ok_active : s_activeWorker s = countb active (s_workers s);
  ok_busy : s_workerBusy s = countb busy (s_workers s);
  ok_dropped : Forall (λ r, req_Context r ∈ s_cancelled s) (s_dropped s);
  ok_lost : s_lost s = [] ∨ 0 < maxSize ∨ s_stopCh s = true;
}.

Lemma skipped_spec ctx closed fuel h :
  (length h ≤ fuel)%nat → is_heap Less h →
  let '(h', o) := dequeueLoop ctx closed fuel h in
  Forall (λ r, ctx (req_Context r) = true) (skipped ctx fuel h) ∧
  h ≡ₚ (match o with Returned (Some r) => [r] | _ => [] end) ++ skipped ctx fuel h ++ h'.
Proof.
  revert h. induction fuel as [|fuel IH]; intros h Hl Hh.
  { destruct h; [|simpl in Hl; lia]. simpl. by destruct closed. }
  destruct (decide (h = [])) as [->|Hne]; [simpl; by destruct closed|].
  destruct (Pop_spec Less h Hh Hne) as (x & h' & HPop & Hp & Hh' & _).
  assert (length h = S (length h')) as Hlen by (by rewrite Hp).
  assert (dequeueLoop ctx closed (S fuel) h =
    if ctx (req_Context x) then dequeueLoop ctx closed fuel h'
    else (h', Returned (Some x))) as ->.
  { destruct h as [|y t]; [done|]. cbn [dequeueLoop]. by rewrite HPop. }
  cbn [skipped]. rewrite HPop. destruct (ctx (req_Context x)) eqn:Ec; [|by simpl].
  specialize (IH h' ltac:(lia) Hh'). destruct (dequeueLoop ctx closed fuel h') as [h'' o].
  destruct IH as [HF HP]. split; [by constructor|].
  revert HP. generalize (skipped ctx fuel h'). intros sk HP. rewrite Hp, HP. solve_Permutation.
Qed.

(** Counting the workers after one of them moves. *)
Lemma count_move f (l : list worker) i x y n :
  l !! i = Some x → n = countb f l →
  n - Z.b2z (f x) + Z.b2z (f y) = countb f (<[i := y]> l).
Proof. intros Hi ->. by rewrite (countb_insert _ _ _ _ _ Hi). Qed.

Lemma Enqueue_accepts q req q' pos len :
  Enqueue q req = (q', (pos, len)) → queue_ok q →
  queue_ok q' ∧ q_max q' = q_max q ∧ q_closed q' = q_closed q ∧
  if pos =? -1 then q' = q ∧ (0 < q_max q ∨ q_closed q = true)
  else q_heap q' ≡ₚ req :: q_heap q.
Proof.
  intros HE Hok. pose proof (Enqueue_ok q req Hok) as Hok'.
  pose proof (Enqueue_spec q req) as Hs. rewrite HE in Hs, Hok'.
  destruct Hs as (Hm & Hc & Hs). split_and!; [done..|].
  destruct (q_closed q) eqn:Ec; simpl in Hs.
  { destruct Hs as (-> & -> & _). simpl. auto. }
  destruct (Z.ltb_spec 0 (q_max q)) as [Hpos|Hpos]; simpl in Hs.
  - destruct (q_max q <=? Length q).
    + destruct Hs as (-> & -> & _). simpl. auto.
    + destruct Hs as (Hp & _ & ->). destruct (Z.eqb_spec (Z.of_nat (length (filter
        (λ r, Less r req = true) (q_heap q)))) (-1)); [lia|done].
  - destruct Hs as (Hp & _ & ->). destruct (Z.eqb_spec (Z.of_nat (length (filter
      (λ r, Less r req = true) (q_heap q)))) (-1)); [lia|done].
Qed.

(** What a worker's move does to its counters and to the requests held. *)
Lemma move_counts k n s i x y :
  sys_ok k n s → s_workers s !! i = Some x →
  length (<[i := y]> (s_workers s)) = Z.to_nat k ∧
  s_activeWorker s - Z.b2z (active x) + Z.b2z (active y) = countb active (<[i := y]> (s_workers s)) ∧
  s_workerBusy s - Z.b2z (busy x) + Z.b2z (busy y) = countb busy (<[i := y]> (s_workers s)) ∧
  held x ++ (<[i := y]> (s_workers s) ≫= held) ≡ₚ held y ++ (s_workers s ≫= held).
Proof.
  intros Hok Hi. destruct Hok. split_and!; [by rewrite length_insert|by apply count_move..|].
  by apply (bind_insert held).
Qed.

(** The worker keeps its request. *)
Lemma walk_ok k n s i x y :
  sys_ok k n s → s_workers s !! i = Some x → held x = held y → active x = active y → busy x = busy y →
  sys_ok k n (set_worker i y s).
Proof.
  intros Hok Hi Hh Ha Hb. destruct (move_counts k n s i x y Hok Hi) as (Hw & Ha' & Hb' & Hp).
  destruct Hok as [Hq Hm Hst Hlen Hcon Hac Hbu Hd Hl]. rewrite Ha in Ha'. rewrite Hb in Hb'.
  split; simpl; try done; try lia. unfold everywhere in *. simpl. rewrite Hh in Hp.
  apply (Permutation_app_inv_l (held y)) in Hp. by rewrite Hp.
Qed.

Lemma take_ok k n s s' i : sys_ok k n s → act (Take i) s = Some s' → sys_ok k n s'.
Proof.
  intros Hok HA. simpl in HA. destruct (s_workers s !! i) as [[| | | | | | | | | | |]|] eqn:Hi; try done.
  pose proof (λ y, move_counts k n s i _ y Hok Hi) as Hmove. destruct Hok as [Hq Hm Hst Hlen Hcon Ha Hb Hd Hl].
  pose proof (Dequeue_ok (ctxErr s) (s_queue s) Hq) as Hq'. destruct Hq as [Hh _].
  pose proof (skipped_spec (ctxErr s) (q_closed (s_queue s)) _ _ (le_n _) Hh) as Hsk.
  unfold DequeueBlocking in *. destruct (dequeueLoop _ _ _ _) as [h' o].
  destruct Hsk as [Hdrop Hperm]. simpl in Hq'.
  set (dr := skipped _ _ _) in *. clearbody dr.
  assert (Forall (λ r, req_Context r ∈ s_cancelled s) (dr ++ s_dropped s)) as Hd'.
  { apply Forall_app. split; [|done]. eapply Forall_impl; [exact Hdrop|].
    intros r. unfold ctxErr. apply bool_decide_eq_true. }
  destruct o as [|[r|]]; simplify_eq; [|destruct (Hmove (Taken r)) as (Hw & Ha' & Hb' & Hp)
    |destruct (Hmove Exited) as (Hw & Ha' & Hb' & Hp)]; split; simpl in *; try done; try lia;
    unfold everywhere in *; simpl in *; rewrite ?Hp, Hcon, Hperm; solve_Permutation.
Qed.

Lemma submit_ok k n s s' req : sys_ok k n s → act (Submit req) s = Some s' → sys_ok k n s'.
Proof.
  intros [Hq Hm Hst Hlen Hcon Ha Hb Hd Hl] HA. simpl in HA.
  destruct (Enqueue (s_queue s) req) as [q [pos len]] eqn:E.
  destruct (Enqueue_accepts _ _ _ _ _ E Hq) as (Hq' & Hm' & Hc' & Hp).
  destruct (pos =? -1); simplify_eq; [done|]. split; simpl; rewrite ?Hc'; try done.
  unfold everywhere in *. simpl. rewrite Hp, Hcon. simpl. solve_Permutation.
Qed.

Lemma advance_ok k n s s' i : sys_ok k n s → act (Advance i) s = Some s' → sys_ok k n s'.
Proof.
  intros Hok HA. simpl in HA. apply bind_Some in HA as (x & Hi & HA).
  apply bind_Some in HA as ([[y [[da db] dl]] handed] & Hadv & [= <-]).
  destruct (move_counts k n s i x y Hok Hi) as (Hw & Ha' & Hb' & Hp).
  assert (da = Z.b2z (active y) - Z.b2z (active x) ∧ db = Z.b2z (busy y) - Z.b2z (busy x) ∧ held x = held y ++ handed)
    as (-> & -> & Hh) by (destruct x; by simplify_eq/=).
  destruct Hok as [Hq Hm Hst Hlen Hcon Ha Hb Hd Hl]. split; simpl; try done; try lia.
  unfold everywhere in *. simpl. rewrite Hh, <-app_assoc in Hp. apply (Permutation_app_inv_l (held y)) in Hp.
  rewrite Hcon, <-Hp, fmap_app, <-list_fmap_compose. replace (fst ∘ (λ r, (r, false))) with (@id PendingRequest) by done.
  rewrite list_fmap_id. solve_Permutation.
Qed.

Lemma answer_ok k n s s' i send : sys_ok k n s → act (Answer i send) s = Some s' → sys_ok k n s'.
Proof.
  intros Hok HA. simpl in HA. destruct (s_workers s !! i) as [[| | | | | | | | | |req|]|] eqn:Hi; try done.
  destruct (move_counts k n s i _ Idle Hok Hi) as (Hw & Ha' & Hb' & Hp). simpl in *.
  destruct Hok as [Hq Hm Hst Hlen Hcon Ha Hb Hd Hl].
  destruct send; [|destruct (ctxErr _ _) eqn:Ec; [|done]]; simplify_eq; split; simpl; try done; try lia;
    unfold everywhere in *; simpl.
  - rewrite Hcon, <-Hp. solve_Permutation.
  - rewrite Hcon, <-Hp. solve_Permutation.
  - constructor; [|done]. by apply bool_decide_eq_true in Ec.
Qed.

Lemma wake_ok k n s s' j : sys_ok k n s → act (Wake j) s = Some s' → sys_ok k n s'.
Proof.
  intros [Hq Hm Hst Hlen Hcon Ha Hb Hd Hl] HA. simpl in HA.
  destruct (s_delayed s !! j) as [[req []]|] eqn:Hj; try done. unfold everywhere in *.
  destruct (ctxErr _ _) eqn:Ec; simplify_eq; split; simpl; try done; unfold everywhere; simpl.
  - pose proof (delete_Permutation _ _ _ Hj) as Hdel. rewrite Hdel in Hcon. rewrite Hcon. simpl. solve_Permutation.
  - constructor; [|done]. by apply bool_decide_eq_true in Ec.
  - rewrite list_fmap_insert. simpl. rewrite list_insert_id; [done|]. by rewrite list_lookup_fmap, Hj.
Qed.

Lemma requeue_ok k n s s' j : sys_ok k n s → act (Requeue j) s = Some s' → sys_ok k n s'.
Proof.
  intros [Hq Hm Hst Hlen Hcon Ha Hb Hd Hl] HA. simpl in HA.
  destruct (s_delayed s !! j) as [[req []]|] eqn:Hj; try done. unfold everywhere in *.
  pose proof (delete_Permutation _ _ _ Hj) as Hdel. rewrite Hdel in Hcon. simpl in Hcon.
  destruct (Enqueue (s_queue s) req) as [q [pos len]] eqn:E.
  destruct (Enqueue_accepts _ _ _ _ _ E Hq) as (Hq' & Hm' & Hc' & Hp).
  destruct (pos =? -1); simplify_eq; split; simpl; rewrite ?Hc'; try done; unfold everywhere; simpl.
  - rewrite Hcon. solve_Permutation.
  - destruct Hp as [_ [?|?]]; auto.
  - rewrite Hcon, Hp. solve_Permutation.
Qed.

Lemma step_ok k n s s' : sys_ok k n s → step s s' → sys_ok k n s'.
Proof.
  intros Hok [a HA]. destruct a as [req|i|i|i al|i|i sd|j|j|c| | |].
  - by eapply submit_ok.
  - simpl in HA. destruct (s_workers s !! i) as [[| | | | | | | | | | |]|] eqn:Hi; try done. simplify_eq.
    eapply walk_ok; [done..| | |]; by destruct (s_stopCh s).
  - by eapply take_ok.
  - simpl in HA. destruct (s_workers s !! i) as [[| | |req| | | | | | | |]|] eqn:Hi; try done. simplify_eq.
    eapply walk_ok; [done..| | |]; by destruct al.
  - by eapply advance_ok.
  - by eapply answer_ok.
  - by eapply wake_ok.
  - by eapply requeue_ok.
  - destruct Hok. simpl in HA. simplify_eq. split; simpl; try done.
    eapply Forall_impl; [done|]. set_solver.
  - destruct Hok. simpl in HA. simplify_eq. split; simpl; try done; lia.
  - destruct Hok. simpl in HA. destruct (s_stopCh s); simplify_eq. split; simpl; auto.
  - destruct Hok as [[Hh Hlen] ? ? ? ? ? ? ? Hl]. simpl in HA. destruct (s_stopCh s) eqn:E; simplify_eq.
    split; simpl; try done; auto.
Qed.

Lemma start_ok workers n : sys_ok workers n (Start workers n).
Proof.
  assert (∀ f k, f Idle = false → countb f (replicate k Idle) = 0) as Hc.
  { intros f k Hf. induction k as [|k IH]; simpl; [done|]. by rewrite Hf, IH. }
  assert (replicate (Z.to_nat workers) Idle ≫= held = []) as Hheld
    by (induction (Z.to_nat workers); done).
  split; simpl; try done; rewrite ?Hc by done; auto using NewRequestQueue_ok, length_replicate.
  unfold everywhere. simpl. by rewrite Hheld.
Qed.

(** ** Properties *)

(** What a loss needs. *)
Lemma lost_when_full s s' :
  step s s' → s_lost s' = s_lost s ∨ q_closed (s_queue s) = true ∨
    (0 < q_max (s_queue s) ∧ q_max (s_queue s) ≤ Length (s_queue s)).
Proof.
  intros [a Ha]. destruct a; simpl in Ha; try (repeat case_match; by simplify_eq; left).
  - destruct (s_workers s !! i) as [x|]; [|done]. simpl in Ha. destruct (advance x) as [[[y [[? ?] ?]] l]|]; [|done].
    simpl in Ha. simplify_eq. by left.
  - destruct (s_delayed s !! j) as [[req []]|]; [|done..].
    pose proof (Enqueue_spec (s_queue s) req) as H. simpl in Ha.
    destruct (Enqueue (s_queue s) req) as [q' [pos len]]. destruct H as (_ & _ & H).
    destruct (q_closed (s_queue s) || _) eqn:E.
    + right. rewrite orb_true_iff, andb_true_iff, Z.ltb_lt, Z.leb_le in E. done.
    + destruct H as (_ & _ & ->). left. rewrite (proj2 (Z.eqb_neq _ _)) in Ha by lia. by simplify_eq.
Qed.

(** C3. Where a request can be: in every interleaving of handlers, workers,
    requeueing goroutines, the monitor and [Stop], the accepted requests are
    exactly, with their multiplicity, those that are queued, held by a worker,
    waiting to be requeued, answered, dropped because their context was done, or
    lost.  A request is lost only in a step that finds the queue closed or full
    (by its being put back), so not as long as the queue has no maximum size and
    the pool is not stopped ([requeue_can_lose] is a loss).  [activeWorker] is the number of
    workers between its two updates, the busy gauge the number of those between
    theirs, and both stay between 0 and the number of workers. *)
Theorem requests_conserved (workers maxSize : Z) (s : Sys) :
  rtc step (Start workers maxSize) s →
  s_accepted s ≡ₚ everywhere s ∧
  s_activeWorker s = countb active (s_workers s) ∧ s_workerBusy s = countb busy (s_workers s) ∧
  0 ≤ s_workerBusy s ≤ s_activeWorker s ∧ s_activeWorker s ≤ Z.max 0 workers ∧
  Forall (λ r, req_Context r ∈ s_cancelled s) (s_dropped s) ∧
  (∀ s', step s s' → s_lost s' ≠ s_lost s →
     q_closed (s_queue s) = true ∨ (0 < maxSize ∧ Length (s_queue s) = maxSize)) ∧
  (maxSize ≤ 0 → s_stopCh s = false → s_lost s = []) ∧
  (0 < maxSize → Length (s_queue s) ≤ maxSize).
Proof.
  intros Hr. apply (rtc_invariant step (sys_ok workers maxSize)) in Hr; [|apply step_ok|apply start_ok].
  destruct Hr as [[_ Hlen] Hm Hst Hw Hcon Ha Hb Hd Hl].
  assert (countb busy (s_workers s) ≤ countb active (s_workers s)) as Hle
    by (apply countb_impl; intros x; by destruct x).
  pose proof (countb_nonneg busy (s_workers s)). pose proof (countb_le active (s_workers s)).
  split_and!; try done; try lia.
  - intros s' Hs Hne. destruct (lost_when_full s s' Hs) as [?|[?|[? ?]]]; [done|by left|]. rewrite Hm in *. right. lia.
  - intros Hmax Hs. destruct Hl as [?|[?|?]]; [done|lia|congruence].
Qed.

(** At most one answer per request: when the accepted requests are
    distinct, no request is answered twice and an answered request is nowhere
    else in the system. *)
Theorem answered_once (workers maxSize : Z) (s : Sys) :
  rtc step (Start workers maxSize) s → NoDup (s_accepted s) →
  NoDup (s_answered s) ∧
  ∀ r, r ∈ s_answered s →
    r ∉ q_heap (s_queue s) ∧ (r ∉ s_workers s ≫= held) ∧ (r ∉ (s_delayed s).*1) ∧
    (r ∉ s_dropped s) ∧ r ∉ s_lost s.
Proof.
  intros Hr Hnd. apply (rtc_invariant step (sys_ok workers maxSize)) in Hr; [|apply step_ok|apply start_ok].
  rewrite (ok_conserved _ _ _ Hr) in Hnd. unfold everywhere in Hnd.
  rewrite !NoDup_app in Hnd. destruct Hnd as (_ & H1 & _ & H2 & _ & H3 & H4 & H5 & _ & H6 & _).
  split; [done|]. intros r Hin. specialize (H5 r Hin).
  split_and!; [intros Hx; apply (H1 _ Hx); set_solver|intros Hx; apply (H2 _ Hx); set_solver
    |intros Hx; apply (H3 _ Hx); set_solver|set_solver|set_solver].
Qed.

(** ** Concrete runs *)

Fixpoint runActs (acts : list action) (s : Sys) : option Sys :=
  match acts with
  | [] => Some s
  | a :: acts => s' ← act a s; runActs acts s'
  end.

Lemma runActs_rtc acts s s' : runActs acts s = Some s' → rtc step s s'.
Proof.
  revert s. induction acts as [|a acts IH]; intros s HR; simpl in HR; [by simplify_eq|].
  destruct (act a s) as [s1|] eqn:Ha; [|done]. simpl in HR.
  eapply rtc_l; [by exists a|]. by apply IH.
Qed.

Definition reqA : PendingRequest := mkReq "a" 0 1 1.
Definition reqB : PendingRequest := mkReq "b" 0 2 2.

(** A rate-limited request can be lost for good: it is enqueued again after
    100 ms, the result of that [Enqueue] is ignored, and if the queue has
    filled up meanwhile the request is in no place of the system although its
    client is still waiting and its context is not done. *)
Theorem requeue_can_lose :
  option_map (λ s, (s_lost s, everywhere s, s_cancelled s))
    (runActs [Submit reqA; Check 0; Take 0; Submit reqB; Advance 0; Verdict 0 false; Advance 0; Advance 0; Advance 0;
              Wake 0; Requeue 0] (Start 1 1)) =
  Some ([reqA], [reqB; reqA], ∅).
Proof. vm_compute. reflexivity. Qed.

Definition demo_acts : list action :=
  [Submit reqA; Submit reqB; Check 0; Take 0; Advance 0; Verdict 0 true; Check 1; Take 1; Advance 1; Advance 0;
   Verdict 1 false; Advance 1; Advance 0; Advance 1; Advance 1; Advance 0; Answer 0 true; Wake 0; Requeue 0].

Lemma requests_conserved_witness :
  ∃ s, runActs demo_acts (Start 2 0) = Some s ∧ s_answered s = [reqA] ∧
    s_accepted s ≡ₚ everywhere s.
Proof.
  destruct (runActs demo_acts (Start 2 0)) as [s|] eqn:E; [|by vm_compute in E].
  exists s. split_and!; [done| |].
  - vm_compute in E. by injection E as <-.
  - apply (requests_conserved 2 0). by apply (runActs_rtc demo_acts).
Defined.

Lemma answered_once_witness :
  ∃ s, runActs demo_acts (Start 2 0) = Some s ∧ reqA ∈ s_answered s ∧ NoDup (s_answered s).
Proof.
  destruct (runActs demo_acts (Start 2 0)) as [s|] eqn:E; [|by vm_compute in E].
  exists s. split_and!; [done| |].
  - vm_compute in E. injection E as <-. left.
  - apply (answered_once 2 0); [by apply (runActs_rtc demo_acts)|].
    vm_compute in E. injection E as <-. simpl.
    repeat constructor; set_unfold; intros Hx; destruct_or?; discriminate.
Defined.

End Dispatch.
