(* ===== verification/Metrics.v ===== *)
(** * package metrics: the Prometheus registry

    [src/internal/metrics/metrics.go].  Each [sync.Map] from a label to an
    atomic is a finite map; each operation is one [LoadOrStore] and one atomic
    update, so a history is a sequence of these functions.  [Range] visits the
    labels in an order of its own, an argument of [WritePrometheus]. *)
From S2P Require Import Prelude GoStd GoFloat GoJson Domain GoHttp.
From Stdlib Require Import Ascii.

Module Metrics.

Record Registry := mkRegistry {
  requestsTotal : gmap string Z;
  tokensTotal : gmap string Z;
  queueLength : gmap string Z;
  workerBusyCount : Z;
}.

Definition NewRegistry : Registry := mkRegistry ∅ ∅ ∅ 0.

Definition quote : ascii := "034"%char.
Definition quoted (s : string) : string := String quote (s +:+ String quote "").

(** [fmt.Sprintf("model=%q,status=%q")] without escaping. *)
Definition requestLabel (model status : string) : string :=
  "model=" +:+ quoted model +:+ ",status=" +:+ quoted status.
Definition tokenLabel (model tokenType : string) : string :=
  "model=" +:+ quoted model +:+ ",type=" +:+ quoted tokenType.

(** [getCounter(m, label).Add(n)] on an [atomic.Uint64]. *)
Definition addCounter (label : string) (n : Z) (m : gmap string Z) : gmap string Z :=
  <[label := wrapu64 (default 0 (m !! label) + n)]> m.

Definition IncRequests (model status : string) (r : Registry) : Registry :=
  mkRegistry (addCounter (requestLabel model status) 1 (requestsTotal r))
    (tokensTotal r) (queueLength r) (workerBusyCount r).

Definition AddTokens (model tokenType : string) (count : Z) (r : Registry) : Registry :=
  if count <=? 0 then r
  else mkRegistry (requestsTotal r)
         (addCounter (tokenLabel model tokenType) (wrapu64 count) (tokensTotal r))
         (queueLength r) (workerBusyCount r).

Definition SetQueueLength (model : string) (length : Z) (r : Registry) : Registry :=
  mkRegistry (requestsTotal r) (tokensTotal r) (<[model := length]> (queueLength r))
    (workerBusyCount r).

Definition IncWorkerBusy (r : Registry) : Registry :=
  mkRegistry (requestsTotal r) (tokensTotal r) (queueLength r) (wrap64 (workerBusyCount r + 1)).
Definition DecWorkerBusy (r : Registry) : Registry :=
  mkRegistry (requestsTotal r) (tokensTotal r) (queueLength r) (wrap64 (workerBusyCount r - 1)).

Definition series (name : string) (entries : list (string * Z)) : string :=
  foldr String.app "" ((λ kv : string * Z,
    name +:+ "{" +:+ kv.1 +:+ "} " +:+ FormatInt kv.2 +:+ nl) <$> entries).

Definition header (name help kind : string) : string :=
  "# HELP " +:+ name +:+ " " +:+ help +:+ nl +:+ "# TYPE " +:+ name +:+ " " +:+ kind +:+ nl.

Definition WritePrometheus (order : gmap string Z → list (string * Z)) (r : Registry) : string :=
  header "proxyllm_requests_total" "Total number of requests processed." "counter" +:+
  series "proxyllm_requests_total" (order (requestsTotal r)) +:+
  header "proxyllm_tokens_total" "Total number of tokens processed." "counter" +:+
  series "proxyllm_tokens_total" (order (tokensTotal r)) +:+
  header "proxyllm_queue_length" "Current number of requests in queue." "gauge" +:+
  series "proxyllm_queue_length"
    ((λ kv : string * Z, ("model=" +:+ quoted kv.1, kv.2)) <$> order (queueLength r)) +:+
  header "proxyllm_worker_busy_count" "Current number of busy worker goroutines." "gauge" +:+
  "proxyllm_worker_busy_count " +:+ FormatInt (workerBusyCount r) +:+ nl.

(** ** Histories *)

Inductive mcall :=
| CIncRequests (model status : string)
| CAddTokens (model tokenType : string) (count : Z)
| CSetQueueLength (model : string) (length : Z)
| CIncBusy
| CDecBusy.

Definition mexec (r : Registry) (c : mcall) : Registry :=
  match c with
  | CIncRequests m s => IncRequests m s r
  | CAddTokens m t n => AddTokens m t n r
  | CSetQueueLength m n => SetQueueLength m n r
  | CIncBusy => IncWorkerBusy r
  | CDecBusy => DecWorkerBusy r
  end.

Definition metrics (h : list mcall) : Registry := fold_left mexec h NewRegistry.

(** What the calls of a history add up to. *)
Definition requestsIn (model status : string) (h : list mcall) : Z :=
  countb (λ c, match c with
               | CIncRequests m s => bool_decide (m = model) && bool_decide (s = status)
               | _ => false end) h.

Fixpoint tokensIn (model tokenType : string) (h : list mcall) : Z :=
  match h with
  | [] => 0
  | CAddTokens m t n :: h =>
      (if bool_decide (m = model) && bool_decide (t = tokenType) then Z.max 0 n else 0) +
      tokensIn model tokenType h
  | _ :: h => tokensIn model tokenType h
  end.

Definition busyIn (h : list mcall) : Z :=
  countb (λ c, match c with CIncBusy => true | _ => false end) h -
  countb (λ c, match c with CDecBusy => true | _ => false end) h.

(** ** Labels *)

(** Two quoted fields determine both when the second has no quote. *)
Lemma label_inj (mid : string) m m' s s' :
  free_of quote mid = true → free_of quote s = true → free_of quote s' = true →
  "model=" +:+ quoted m +:+ mid +:+ quoted s = "model=" +:+ quoted m' +:+ mid +:+ quoted s' →
  m = m' ∧ s = s'.
Proof.
  intros Hmid Hs Hs' E%(inj (String.app "model=")).
  assert (∀ x y, quoted x +:+ mid +:+ quoted y =
    String quote ((x +:+ String quote mid) +:+ String quote (y +:+ String quote ""))) as Hq.
  { intros x y. unfold quoted.
    change (String quote (x +:+ String quote "") +:+ ?z) with (String quote ((x +:+ String quote "") +:+ z)).
    by rewrite !str_app_assoc. }
  rewrite !Hq in E. injection E as E.
  assert (∀ x y, (x +:+ String quote mid) +:+ String quote (y +:+ String quote "") =
    ((x +:+ String quote mid) +:+ String quote y) +:+ String quote "") as Hr
    by (intros; by rewrite !str_app_assoc).
  rewrite !Hr in E. apply (last_field_inj quote) in E as [E _]; [|done..].
  apply (last_field_inj quote) in E as [E ->]; [|done..].
  by apply (last_field_inj quote) in E as [-> _].
Qed.

(** The second field of a label comes from the program and has no quote. *)
Definition call_ok (c : mcall) : bool :=
  match c with
  | CIncRequests _ s => free_of quote s
  | CAddTokens _ t n => free_of quote t
  | _ => true
  end.

Lemma addCounter_other label label' n m :
  label ≠ label' → addCounter label n m !! label' = m !! label'.
Proof. intros Hne. unfold addCounter. by rewrite lookup_insert_ne. Qed.

Lemma wrapu64_add_l x y : wrapu64 (wrapu64 x + y) = wrapu64 (x + y).
Proof. apply Zplus_mod_idemp_l. Qed.

Lemma wrapu64_add_r x y : wrapu64 (x + wrapu64 y) = wrapu64 (x + y).
Proof. apply Zplus_mod_idemp_r. Qed.

Lemma requests_step h r model status v :
  Forall (λ c, call_ok c = true) h → free_of quote status = true →
  wrapu64 (default 0 (requestsTotal r !! requestLabel model status)) = wrapu64 v →
  wrapu64 (default 0 (requestsTotal (fold_left mexec h r) !! requestLabel model status)) =
  wrapu64 (v + requestsIn model status h).
Proof.
  intros Hh Hs. unfold requestsIn. revert r v. induction Hh as [|c h Hc _ IH]; intros r v Hv; simpl.
  { by rewrite Z.add_0_r. }
  rewrite Z.add_assoc. apply IH. destruct c as [m s|m t n|m n| |]; simpl; rewrite ?Z.add_0_r; try done.
  - destruct (decide (requestLabel m s = requestLabel model status)) as [E|Hne].
    + apply label_inj in E as [-> ->]; [|done..]. rewrite !bool_decide_true by done. simpl.
      unfold addCounter. rewrite lookup_insert_eq. simpl.
      rewrite <-(wrapu64_add_l v), <-Hv, wrapu64_add_l.
      unfold wrapu64. by rewrite Zmod_mod.
    + rewrite addCounter_other by done.
      destruct (bool_decide (m = model)) eqn:E1, (bool_decide (s = status)) eqn:E2; simpl;
        rewrite ?Z.add_0_r; try done. bools. by subst.
  - unfold AddTokens. by destruct (n <=? 0).
Qed.

Lemma tokens_step h r model tt v :
  Forall (λ c, call_ok c = true) h → free_of quote tt = true →
  wrapu64 (default 0 (tokensTotal r !! tokenLabel model tt)) = wrapu64 v →
  wrapu64 (default 0 (tokensTotal (fold_left mexec h r) !! tokenLabel model tt)) =
  wrapu64 (v + tokensIn model tt h).
Proof.
  intros Hh Hs. revert r v. induction Hh as [|c h Hc _ IH]; intros r v Hv; simpl.
  { by rewrite Z.add_0_r. }
  destruct c as [m s|m t n|m n| |]; simpl; try (apply IH; done).
  rewrite Z.add_assoc. apply IH. unfold AddTokens. destruct (Z.leb_spec n 0) as [Hn|Hn].
  { rewrite Hv. f_equal. destruct (_ && _); lia. }
  simpl. destruct (decide (tokenLabel m t = tokenLabel model tt)) as [E|Hne].
  - apply label_inj in E as [-> ->]; [|done..]. rewrite !bool_decide_true by done. simpl.
    unfold addCounter. rewrite lookup_insert_eq. simpl. rewrite Z.max_r by lia.
    rewrite <-(wrapu64_add_l v), <-Hv, wrapu64_add_l, wrapu64_add_r.
    unfold wrapu64. by rewrite Zmod_mod.
  - rewrite addCounter_other by done. rewrite Hv.
    destruct (bool_decide (m = model)) eqn:E1, (bool_decide (t = tt)) eqn:E2; simpl;
      rewrite ?Z.add_0_r; try done. bools. by subst.
Qed.

Lemma busy_step h r v :
  workerBusyCount r = wrap64 v → workerBusyCount (fold_left mexec h r) = wrap64 (v + busyIn h).
Proof.
  unfold busyIn. revert r v. induction h as [|c h IH]; intros r v Hv; simpl.
  { rewrite Hv. f_equal. lia. }
  destruct c as [m s|m t n|m n| |]; simpl; rewrite ?Z.add_0_l.
  - by apply IH.
  - apply IH. unfold AddTokens. by destruct (n <=? 0).
  - by apply IH.
  - rewrite (IH _ (v + 1)); [f_equal; lia|]. simpl. by rewrite Hv, wrap64_add_l.
  - rewrite (IH _ (v + -1)); [f_equal; lia|]. simpl. rewrite Hv.
    change (wrap64 v - 1) with (wrap64 v + -1). by rewrite wrap64_add_l.
Qed.

(** ** Properties *)

(** The registry counts exactly: after any history of calls, the request
    counter of a model and status is the number of [IncRequests] calls for that
    pair, the token counter is the sum of the positive counts added for that
    model and type (both modulo 2^64), and the busy gauge is the number of
    [IncWorkerBusy] minus [DecWorkerBusy] calls.  Labels of different models
    never share a counter, whatever characters a client puts in a model name,
    because the second field of the label never has a quote. *)
Theorem metrics_exact (h : list mcall) (model second : string) :
  Forall (λ c, call_ok c = true) h → free_of quote second = true →
  wrapu64 (default 0 (requestsTotal (metrics h) !! requestLabel model second)) =
    wrapu64 (requestsIn model second h) ∧
  wrapu64 (default 0 (tokensTotal (metrics h) !! tokenLabel model second)) =
    wrapu64 (tokensIn model second h) ∧
  workerBusyCount (metrics h) = wrap64 (busyIn h).
Proof.
  intros Hh Hs. unfold metrics. split_and!.
  - by rewrite (requests_step h NewRegistry model second 0).
  - by rewrite (tokens_step h NewRegistry model second 0).
  - by rewrite (busy_step h NewRegistry 0).
Qed.

(** ** Witness *)

Definition demo_calls : list mcall :=
  [CIncRequests "gpt" "success"; CIncBusy; CAddTokens "gpt" "prompt" 7; CIncRequests "gpt" "error";
   CAddTokens "gpt" "prompt" 5; CIncRequests "gpt" "success"; CDecBusy].

Lemma metrics_exact_witness :
  wrapu64 (default 0 (requestsTotal (metrics demo_calls) !! requestLabel "gpt" "success")) = 2 ∧
  wrapu64 (default 0 (tokensTotal (metrics demo_calls) !! tokenLabel "gpt" "prompt")) = 12.
Proof.
  destruct (metrics_exact demo_calls "gpt" "success") as (H1 & _);
    [by repeat constructor|done|].
  destruct (metrics_exact demo_calls "gpt" "prompt") as (_ & H2 & _);
    [by repeat constructor|done|].
  rewrite H1, H2. vm_compute. done.
Defined.

End Metrics.
