(* ===== verification/Middleware.v ===== *)
(** * api/middleware.go and api/context.go: the request pipeline

    A handler takes a request, a writer and the state of the program behind it.
    The middlewares wrap a handler; [openAIMW] and [adminMW] are the stacks that
    [NewServer] builds ([src/internal/api/server.go]).  The access log line is
    not modelled, the [statusRecorder] it is taken from is. *)
From S2P Require Import Prelude GoStd GoFloat GoJson Domain GoHttp Auth.
From Stdlib Require Import Ascii.

Module Api.

Record ProxyContext := {
  pc_RequestID : string;
  pc_SessionID : string;
  pc_APIKey : APIKey;
  pc_StartTime : Z;
}.

(** The request, with the values its context carries ([api/context.go]);
    [h_QueryToken] is [r.URL.Query().Get("token")]. *)
Record HttpReq := {
  h_Method : string;
  h_Path : string;
  h_Header : Header;
  h_QueryToken : string;
  h_Body : result error string;
  h_RemoteAddr : string;
  h_requestID : option string;
  h_sessionID : option string;
  h_proxyCtx : option ProxyContext;
}.

Definition withRequestID (id : string) (r : HttpReq) : HttpReq :=
  {| h_Method := h_Method r; h_Path := h_Path r; h_Header := h_Header r;
     h_QueryToken := h_QueryToken r; h_Body := h_Body r; h_RemoteAddr := h_RemoteAddr r;
     h_requestID := Some id; h_sessionID := h_sessionID r; h_proxyCtx := h_proxyCtx r |}.
Definition withSessionID (id : string) (r : HttpReq) : HttpReq :=
  {| h_Method := h_Method r; h_Path := h_Path r; h_Header := h_Header r;
     h_QueryToken := h_QueryToken r; h_Body := h_Body r; h_RemoteAddr := h_RemoteAddr r;
     h_requestID := h_requestID r; h_sessionID := Some id; h_proxyCtx := h_proxyCtx r |}.
Definition withProxyCtx (pc : ProxyContext) (r : HttpReq) : HttpReq :=
  {| h_Method := h_Method r; h_Path := h_Path r; h_Header := h_Header r;
     h_QueryToken := h_QueryToken r; h_Body := h_Body r; h_RemoteAddr := h_RemoteAddr r;
     h_requestID := h_requestID r; h_sessionID := h_sessionID r; h_proxyCtx := Some pc |}.

Definition requestIDFrom (r : HttpReq) : string := default "" (h_requestID r).
Definition sessionIDFrom (r : HttpReq) : string := default "" (h_sessionID r).

Definition Handler (W St : Type) : Type := HttpReq → W → St → W * St.

(** ** statusRecorder *)

Record statusRecorder (W : Type) := mkSR { sr_w : W; sr_status : Z }.
Arguments mkSR {W} sr_w sr_status.
Arguments sr_w {W} s.
Arguments sr_status {W} s.

#[global] Instance sr_Writer {W} `{Writer W} : Writer (statusRecorder W) := {|
  wHeader s := wHeader (sr_w s);
  wSetHeader h s := mkSR (wSetHeader h (sr_w s)) (sr_status s);
  wWriteHeader c s := mkSR (wWriteHeader c (sr_w s)) c;
  wWrite b s := let '(w, e) := wWrite b (sr_w s) in (mkSR w (sr_status s), e);
|}.

(** ** Errors *)

(** [strings.ToLower(http.StatusText(status))] for the codes in use. *)
Definition statusType (status : Z) : string :=
  if status =? 400 then "bad request" else if status =? 401 then "unauthorized"
  else if status =? 403 then "forbidden" else if status =? 404 then "not found"
  else if status =? 405 then "method not allowed" else if status =? 500 then "internal server error"
  else if status =? 503 then "service unavailable" else if status =? 504 then "gateway timeout"
  else "".

Definition q (s : string) : string := String "034"%char (s +:+ String "034"%char "").

(** [json.Encoder] sorts the keys and ends with a newline. *)
Definition errorBody (status : Z) (msg : string) : string :=
  "{" +:+ q "error" +:+ ":{" +:+ q "code" +:+ ":" +:+ FormatInt status +:+ "," +:+
  q "message" +:+ ":" +:+ jsonString msg +:+ "," +:+ q "type" +:+ ":" +:+ q (statusType status) +:+ "}}" +:+ nl.

Section api.
Context {W : Type} `{Writer W} {St : Type}.

Definition writeJSON (w : W) (status : Z) (body : string) : W :=
  (wWrite body (wWriteHeader status
    (wSetHeader (hdrSet "Content-Type" "application/json" (wHeader w)) w))).1.

Definition writeError (w : W) (status : Z) (msg : string) : W :=
  writeJSON w status (errorBody status msg).

(** ** The middlewares *)

Definition corsMiddleware (origins : list string) (next : Handler W St) : Handler W St :=
  λ r w s,
    let allowAll := bool_decide (origins = ["*"]) in
    let origin := hdrGet (h_Header r) "Origin" in
    let w :=
      if negb (bool_decide (origin = "")) && (allowAll || bool_decide (origin ∈ origins)) then
        wSetHeader (hdrSet "Access-Control-Max-Age" "86400"
          (hdrSet "Access-Control-Allow-Headers" "Content-Type,Authorization,X-Session-Id"
            (hdrSet "Access-Control-Allow-Methods" "GET,POST,PUT,DELETE,OPTIONS"
              (hdrSet "Access-Control-Allow-Origin" origin (wHeader w))))) w
      else w in
    if bool_decide (h_Method r = "OPTIONS") then (wWriteHeader 204 w, s) else next r w s.

(** [fresh] is the result of [auth.GenerateID()]. *)
Definition traceMiddleware (fresh : string) (next : Handler W St) : Handler W St :=
  λ r w s,
    let rid := hdrGet (h_Header r) "X-Request-Id" in
    let rid := if bool_decide (rid = "") then fresh else rid in
    let sid := hdrGet (h_Header r) "X-Session-Id" in
    let w := wSetHeader (hdrSet "X-Request-Id" rid (wHeader w)) w in
    next (withSessionID sid (withRequestID rid r)) w s.

Definition accessLogMiddleware (next : Handler (statusRecorder W) St) : Handler W St :=
  λ r w s, let '(rec, s) := next r (mkSR w 200) s in (sr_w rec, s).

Definition authMiddleware (store : string → result error (option APIKey)) (now : Z)
    (next : Handler W St) : Handler W St :=
  λ r w s,
    match Auth.ExtractToken (h_Header r) with
    | None => (writeError w 401 "missing or invalid Authorization header", s)
    | Some token =>
        match Auth.Authenticate store now token with
        | Err Auth.ErrExpired => (writeError w 401 "api key expired", s)
        | Err Auth.ErrUnauthorized => (writeError w 401 "unauthorized", s)
        | Ok key =>
            next (withProxyCtx {| pc_RequestID := requestIDFrom r; pc_SessionID := sessionIDFrom r;
                                  pc_APIKey := key; pc_StartTime := now |} r) w s
        end
    end.

Definition adminAuthMiddleware (adminToken : string) (next : Handler W St) : Handler W St :=
  λ r w s,
    if bool_decide (adminToken = "")
    then (writeError w 403 "admin access disabled: no admin_token configured", s)
    else
      let token := match Auth.ExtractToken (h_Header r) with
                   | Some token => Some token
                   | None => if bool_decide (h_QueryToken r = "") then None else Some (h_QueryToken r)
                   end in
      match token with
      | Some token =>
          if bool_decide (token = adminToken) then next r w s
          else (writeError w 401 "unauthorized", s)
      | None => (writeError w 401 "unauthorized", s)
      end.

(** [chain(h, m1, ..., mn)]: from the last middleware to the first. *)
Definition chain (h : Handler W St) (middlewares : list (Handler W St → Handler W St)) : Handler W St :=
  fold_left (λ h m, m h) (reverse middlewares) h.

End api.

(** ** The two stacks of [NewServer] *)

Definition openAIMW {W} `{Writer W} {St} (origins : list string) (fresh : string)
    (store : string → result error (option APIKey)) (now : Z)
    (next : Handler (statusRecorder W) St) : Handler W St :=
  corsMiddleware origins (traceMiddleware fresh
    (accessLogMiddleware (authMiddleware store now next))).

Definition adminMW {W} `{Writer W} {St} (origins : list string) (fresh : string)
    (adminToken : string) (next : Handler (statusRecorder W) St) : Handler W St :=
  corsMiddleware origins (traceMiddleware fresh
    (accessLogMiddleware (adminAuthMiddleware adminToken next))).

(** ** Lemmas *)

(** An error response reaches a client nothing has been sent to. *)
Lemma writeError_sent (w : ResponseWriter) st msg :
  rw_sent w = None →
  ∃ h, rw_sent (sr_w (writeError (mkSR w 200) st msg)) = Some (st, h) ∧
       h !! "Content-Type" = Some ["application/json"].
Proof.
  intros Hs. unfold writeError, writeJSON. simpl.
  set (w1 := rwWriteHeader st _). set (h := hdrSet "Content-Type" _ _) in *.
  assert (rw_sent w1 = Some (st, h)) as Hw1.
  { unfold w1, rwWriteHeader. simpl. by rewrite Hs. }
  pose proof (proj2 (proj2 (sent_stable (st, h))) (errorBody st msg) w1 Hw1) as Hw2. simpl in Hw2.
  destruct (rwWrite (errorBody st msg) w1) as [w2 e]. simpl. exists h. split; [done|].
  unfold h, hdrSet. apply lookup_insert_eq.
Qed.

(** The first middleware of a chain is the outermost. *)
Lemma chain_cons {W St} `{Writer W} (h : Handler W St) m ms : chain h (m :: ms) = m (chain h ms).
Proof. unfold chain. by rewrite reverse_cons, fold_left_app. Qed.

(** ** Properties *)

(** A valid credential: a bearer token whose key the store has, enabled and not
    expired. *)
Definition authorised (store : string → result error (option APIKey)) (now : Z) (r : HttpReq)
    (key : APIKey) : Prop :=
  ∃ token, Auth.ExtractToken (h_Header r) = Some token ∧ store token = Ok (Some key) ∧
    key_Enabled key = true ∧ ∀ exp, key_ExpiresAt key = Some exp → now ≤ exp.

(** Nothing behind the OpenAI endpoints runs without a valid key: whatever
    the handler does, a request either carries a bearer token of a stored,
    enabled, unexpired key, and then the handler runs with that key in its
    context, or the state of the program is unchanged and the client receives
    401 (204 for a CORS preflight). *)
Lemma openai_protected {St} (origins : list string) (fresh : string)
    (store : string → result error (option APIKey)) (now : Z)
    (next : Handler (statusRecorder ResponseWriter) St) (r : HttpReq) (w : ResponseWriter) (s : St) :
  rw_sent w = None →
  let '(w', s') := openAIMW origins fresh store now next r w s in
  (s' = s ∧ ∃ code h, rw_sent w' = Some (code, h) ∧
     code = if bool_decide (h_Method r = "OPTIONS") then 204 else 401) ∨
  (h_Method r ≠ "OPTIONS" ∧
   ∃ key pc r1 w1 rec, authorised store now r key ∧ pc_APIKey pc = key ∧
     h_proxyCtx r1 = Some pc ∧ h_Header r1 = h_Header r ∧ h_Body r1 = h_Body r ∧
     next r1 (mkSR w1 200) s = (rec, s') ∧ w' = sr_w rec).
Proof.
  intros Hs. unfold openAIMW, corsMiddleware.
  set (w1 := if _ && _ then _ else w). assert (rw_sent w1 = None) as Hs1
    by (unfold w1; by destruct (_ && _)).
  case_bool_decide as Hopt.
  { left. split; [done|]. unfold wWriteHeader, rw_Writer, rwWriteHeader. rewrite Hs1. by eexists _, _. }
  unfold traceMiddleware, accessLogMiddleware, authMiddleware. simpl.
  set (w2 := mkRW _ _ _ _). assert (rw_sent w2 = None) as Hs2 by done.
  destruct (Auth.ExtractToken (h_Header r)) as [token|] eqn:Ht.
  2: { left. split; [done|]. destruct (writeError_sent w2 401
         "missing or invalid Authorization header" Hs2) as (h & Hw & _). by exists 401, h. }
  destruct (Auth.Authenticate store now token) as [key|[]] eqn:Ha.
  - match goal with |- context [next ?r1 ?x s] => set (rq := r1) end.
    destruct (next rq _ s) as [rec s'] eqn:Hn. right. split; [done|].
    exists key. eexists _, rq, w2, rec.
    split; [|split; [|split; [reflexivity|done]]]; [|reflexivity].
    exists token. split; [done|]. by apply Auth.Authenticate_Ok.
  - left. split; [done|]. destruct (writeError_sent w2 401 "unauthorized" Hs2) as (h & Hw & _).
    by exists 401, h.
  - left. split; [done|]. destruct (writeError_sent w2 401 "api key expired" Hs2) as (h & Hw & _).
    by exists 401, h.
Qed.

(** Nothing behind the admin endpoints runs unless an admin token is
    configured and the request carries exactly that token, in the bearer header
    or in the query: otherwise the state is unchanged and the client receives
    403 (no token configured) or 401 (204 for a CORS preflight). *)
Lemma admin_protected {St} (origins : list string) (fresh adminToken : string)
    (next : Handler (statusRecorder ResponseWriter) St) (r : HttpReq) (w : ResponseWriter) (s : St) :
  rw_sent w = None →
  let '(w', s') := adminMW origins fresh adminToken next r w s in
  (s' = s ∧ ∃ code h, rw_sent w' = Some (code, h) ∧
     code = if bool_decide (h_Method r = "OPTIONS") then 204
            else if bool_decide (adminToken = "") then 403 else 401) ∨
  (adminToken ≠ "" ∧ h_Method r ≠ "OPTIONS" ∧
   (Auth.ExtractToken (h_Header r) = Some adminToken ∨
    (Auth.ExtractToken (h_Header r) = None ∧ h_QueryToken r = adminToken)) ∧
   ∃ r1 w1 rec, h_Header r1 = h_Header r ∧ next r1 (mkSR w1 200) s = (rec, s') ∧ w' = sr_w rec).
Proof.
  intros Hs. unfold adminMW, corsMiddleware.
  set (w1 := if _ && _ then _ else w). assert (rw_sent w1 = None) as Hs1
    by (unfold w1; by destruct (_ && _)).
  case_bool_decide as Hopt.
  { left. split; [done|]. unfold wWriteHeader, rw_Writer, rwWriteHeader. rewrite Hs1. by eexists _, _. }
  unfold traceMiddleware, accessLogMiddleware, adminAuthMiddleware. simpl.
  set (w2 := mkRW _ _ _ _). assert (rw_sent w2 = None) as Hs2 by done.
  destruct (writeError_sent w2 401 "unauthorized" Hs2) as (h401 & Hw401 & _).
  case_bool_decide as Hadm.
  { left. split; [done|]. destruct (writeError_sent w2 403
      "admin access disabled: no admin_token configured" Hs2) as (h & Hw & _). by exists 403, h. }
  match goal with |- context [next ?r1 ?x s] => set (rq := r1); set (x0 := x) end.
  destruct (next rq x0 s) as [rec s'] eqn:Hn.
  assert (∃ r1 w1 rec', h_Header r1 = h_Header r ∧ next r1 (mkSR w1 200) s = (rec', s') ∧
    sr_w rec = sr_w rec') as Hrun by (by exists rq, w2, rec).
  destruct (Auth.ExtractToken (h_Header r)) as [token|] eqn:Ht.
  - case_bool_decide as Htok; [subst; right; by auto 6|left; split; [done|]; by exists 401, h401].
  - case_bool_decide as Hq; [left; split; [done|]; by exists 401, h401|].
    case_bool_decide as Htok; [subst; right; by auto 7|left; split; [done|]; by exists 401, h401].
Qed.

(** ** Concrete requests *)

Definition demo_key : APIKey :=
  {| key_ID := "k1"; key_Key := "pk-1"; key_Name := "demo"; key_Enabled := true; key_TPM := 0;
     key_RPM := 0; key_AllowModels := []; key_CreatedAt := 0; key_ExpiresAt := Some 100 |}.

Definition demo_store (token : string) : result error (option APIKey) :=
  Ok (if bool_decide (token = "pk-1") then Some demo_key else None).

Definition demo_req (auth : string) : HttpReq :=
  {| h_Method := "POST"; h_Path := "/v1/chat/completions"; h_Header := hdrSet "Authorization" auth ∅;
     h_QueryToken := ""; h_Body := Ok "{}"; h_RemoteAddr := "10.0.0.1:5"; h_requestID := None;
     h_sessionID := None; h_proxyCtx := None |}.

(** A handler that counts its calls. *)
Definition count_handler {W} : Handler W Z := λ _ w n, (w, n + 1).

End Api.
