(* ===== verification/OpenAI.v ===== *)
(** * api/openai.go: the OpenAI-compatible endpoints

    [forward] validates a request and enqueues it ([submit]), waits, and then
    accounts for the result or the timeout ([complete]).  The state behind the
    handlers is the request queue, the metrics registry, the two log sinks and
    the token counts handed to the limiter in the background; the worker pool
    that serves the queue is [Dispatch.v] and [WorkerPool.v].  [Unmarshal]
    decodes the request body into a map ([None]: JSON [null]), [parseUsage] the
    usage of a response body. *)
From S2P Require Import Prelude GoStd GoFloat GoJson GoHeap Domain GoHttp Auth RequestQueue.
From S2P Require Import Router Metrics Middleware.
Import Queue.

Module OpenAI.

Record State := mkState {
  o_queue : RequestQueue;
  o_metrics : Metrics.Registry;
  o_logs : list RequestLog;
  o_details : list DetailLog;
  o_tokenCalls : list (string * string * Z);
}.

(** [config.Queue.DefaultPriority] and [config.Worker.MaxWaitTimeSec]. *)
Record Config := { c_DefaultPriority : Z; c_MaxWaitTimeSec : Z }.

Section openai.
Context (Unmarshal : string → result error (option (gmap string json))).
Context (parseUsage : string → option (Z * Z * Z)).
Context {W : Type} `{Writer W}.
Context (cfg : Config).

Definition maxWaitSec : Z := if c_MaxWaitTimeSec cfg <=? 0 then 1800 else c_MaxWaitTimeSec cfg.

Definition priorityOf (body : option (gmap string json)) : Z :=
  match body ≫= λ m, m !! "priority" with
  | Some (JNum p) => to_int p
  | _ => c_DefaultPriority cfg
  end.

(** [pending]; [handle] names the writer, the result channel and the context. *)
Definition mkPending (pc : Api.ProxyContext) (priority : Z) (modelAlias : string)
    (et : EndpointType) (now : Z) (bodyBytes : string) (r : Api.HttpReq) (handle : nat)
    : PendingRequest :=
  {| req_ID := Api.pc_RequestID pc; req_SessionID := Api.pc_SessionID pc;
     req_RequestID := Api.pc_RequestID pc; req_Priority := priority;
     req_APIKeyID := key_ID (Api.pc_APIKey pc); req_ModelAlias := modelAlias;
     req_EndpointType := et; req_Timestamp := now; req_BodyBytes := bodyBytes;
     req_Headers := Api.h_Header r; req_Method := Api.h_Method r; req_Path := Api.h_Path r;
     req_RemoteAddr := Api.h_RemoteAddr r; req_ResponseWriter := handle; req_ResultChan := handle;
     req_Context := handle; req_QueueWaitMs := 0; req_ExecutionMs := 0; req_RatelimitRetries := 0 |}.

Definition set_queue (qu : RequestQueue) (m : Metrics.Registry) (s : State) : State :=
  mkState qu m (o_logs s) (o_details s) (o_tokenCalls s).

(** [forward] up to the wait: the pending request, if one was enqueued. *)
Definition submit (pc : Api.ProxyContext) (et : EndpointType) (now : Z) (handle : nat)
    (r : Api.HttpReq) (w : W) (s : State) : W * State * option PendingRequest :=
  match Api.h_Body r with
  | Err _ => (Api.writeError w 400 "cannot read request body", s, None)
  | Ok bodyBytes =>
    match Unmarshal bodyBytes with
    | Err _ => (Api.writeError w 400 "invalid JSON body", s, None)
    | Ok reqBody =>
      let modelAlias := as_string (reqBody ≫= λ m, m !! "model") in
      if bool_decide (modelAlias = "")
      then (Api.writeError w 400 "missing 'model' field", s, None)
      else if negb (Auth.CheckModelAllowed (Api.pc_APIKey pc) modelAlias)
      then (Api.writeError w 403 "model not allowed for this key", s, None)
      else
        let pending := mkPending pc (priorityOf reqBody) modelAlias et now bodyBytes r handle in
        let '(qu, (position, length)) := Enqueue (o_queue s) pending in
        if position =? -1
        then (Api.writeError w 503 "queue is full",
              set_queue qu (Metrics.IncRequests modelAlias "queue_full" (o_metrics s)) s, None)
        else (w, set_queue qu (Metrics.SetQueueLength modelAlias length (o_metrics s)) s, Some pending)
    end
  end.

(** What ends the wait; [DurationMs] is [time.Since(pc.StartTime)]. *)
Inductive wakeup :=
| GotResult (result : ExecutionResult) (DurationMs : Z)
| CtxDone (deadline : bool).

(** Total, prompt and completion tokens of a result. *)
Definition tokensOf (result : ExecutionResult) : Z * Z * Z :=
  let own := (ex_TotalTokens result, ex_PromptTokens result, ex_CompletionTokens result) in
  if (ex_TotalTokens result <=? 0) && (0 <? Z.of_nat (String.length (ex_Body result))) then
    match parseUsage (ex_Body result) with
    | Some (prompt, completion, total) => if 0 <? total then (total, prompt, completion) else own
    | None => own
    end
  else own.

Definition complete (pc : Api.ProxyContext) (isStream : bool) (pending : PendingRequest)
    (wake : wakeup) (w : W) (s : State) : W * State :=
  let modelAlias := req_ModelAlias pending in
  match wake with
  | GotResult result ms =>
      let statusStr := if bool_decide (ex_Error result = "") then "success" else "error" in
      let m := Metrics.IncRequests modelAlias statusStr (o_metrics s) in
      let '(totalTokens, promptTokens, completionTokens) := tokensOf result in
      let '(m, calls) :=
        if 0 <? totalTokens then
          (Metrics.AddTokens modelAlias "completion" completionTokens
             (Metrics.AddTokens modelAlias "prompt" promptTokens m),
           o_tokenCalls s ++ [(key_ID (Api.pc_APIKey pc), modelAlias, totalTokens)])
        else (m, o_tokenCalls s) in
      let log :=
        {| log_ID := Api.pc_RequestID pc; log_SessionID := Api.pc_SessionID pc;
           log_Timestamp := Api.pc_StartTime pc; log_APIKeyID := key_ID (Api.pc_APIKey pc);
           log_ModelAlias := modelAlias; log_NodeID := ex_FinalNodeID result; log_ActualModel := "";
           log_PromptTokens := promptTokens; log_CompletionTokens := completionTokens;
           log_TotalTokens := totalTokens; log_DurationMs := ms;
           log_StatusCode := ex_StatusCode result; log_Stream := isStream;
           log_ErrorMsg := ex_Error result; log_HasDetail := true |} in
      let detail :=
        {| dl_TraceID := Api.pc_RequestID pc; dl_SessionID := Api.pc_SessionID pc;
           dl_Timestamp := Api.pc_StartTime pc; dl_RequestBody := req_BodyBytes pending;
           dl_ResponseBody := ex_Body result |} in
      (w, mkState (o_queue s) m (o_logs s ++ [log]) (o_details s ++ [detail]) calls)
  | CtxDone deadline =>
      if deadline then
        (Api.writeError w 504 "request timeout after waiting in queue",
         set_queue (o_queue s) (Metrics.IncRequests modelAlias "timeout" (o_metrics s)) s)
      else (w, set_queue (o_queue s) (Metrics.IncRequests modelAlias "cancelled" (o_metrics s)) s)
  end.

(** The method check of the three POST handlers. *)
Definition postOnly (next : W → State → W * State * option PendingRequest) (r : Api.HttpReq)
    (w : W) (s : State) : W * State * option PendingRequest :=
  if bool_decide (Api.h_Method r ≠ "POST")
  then (Api.writeError w 405 "method not allowed", s, None) else next w s.

Definition chatCompletions pc now handle r w s :=
  postOnly (submit pc EndpointChat now handle r) r w s.
Definition responses pc now handle r w s :=
  postOnly (submit pc EndpointResponses now handle r) r w s.
Definition embeddings pc now handle r w s :=
  postOnly (submit pc EndpointEmbedding now handle r) r w s.

End openai.

(** The aliases [/v1/models] lists, in the order it finds them. *)
Fixpoint addAliases (aliases : list string) (seen : list string) : list string :=
  match aliases with
  | [] => seen
  | alias :: aliases =>
      addAliases aliases (if bool_decide (alias ∈ seen) then seen else seen ++ [alias])
  end.

Definition listModels (ord : Routing.NodeMap → list ModelNode) (r : Routing.Router) : list string :=
  fold_left (λ seen n, addAliases (node_Aliases n) seen) (Routing.ListEnabled ord r) [].

(** ** Lemmas *)

Lemma addAliases_spec aliases seen :
  NoDup seen → NoDup (addAliases aliases seen) ∧
  ∀ a, a ∈ addAliases aliases seen ↔ a ∈ seen ∨ a ∈ aliases.
Proof.
  revert seen. induction aliases as [|x aliases IH]; intros seen Hnd; simpl.
  { split; [done|]. set_solver. }
  case_bool_decide as Hx.
  - destruct (IH seen Hnd) as [H1 H2]. split; [done|]. intros a. rewrite H2. set_solver.
  - destruct (IH (seen ++ [x])) as [H1 H2].
    { apply NoDup_app. split_and!; [done|set_solver|apply NoDup_singleton]. }
    split; [done|]. intros a. rewrite H2. set_solver.
Qed.

Lemma listModels_loop nodes seen :
  NoDup seen →
  let out := fold_left (λ seen n, addAliases (node_Aliases n) seen) nodes seen in
  NoDup out ∧ ∀ a, a ∈ out ↔ a ∈ seen ∨ ∃ n, n ∈ nodes ∧ a ∈ node_Aliases n.
Proof.
  revert seen. induction nodes as [|n nodes IH]; intros seen Hnd; simpl.
  { split; [done|]. intros a. split; [auto|]. intros [?|(? & ?%elem_of_nil & _)]; done. }
  destruct (addAliases_spec (node_Aliases n) seen Hnd) as [H1 H2].
  destruct (IH _ H1) as [H3 H4]. split; [done|]. intros a. rewrite H4, H2.
  setoid_rewrite elem_of_cons. naive_solver.
Qed.

(** ** Properties *)

(** The body of a request is a JSON object that names the model [a]. *)
Definition namesModel (Unmarshal : string → result error (option (gmap string json))) (r : Api.HttpReq)
    (body : string) (m : gmap string json) (a : string) : Prop :=
  Api.h_Body r = Ok body ∧ Unmarshal body = Ok (Some m) ∧ m !! "model" = Some (JStr a) ∧ a ≠ "".

(** A key without a list may use every model. *)
Definition mayUse (key : APIKey) (a : string) : Prop := key_AllowModels key = [] ∨ a ∈ key_AllowModels key.

Definition hasRoom (qu : RequestQueue) : Prop := q_closed qu = false ∧ (q_max qu ≤ 0 ∨ Length qu < q_max qu).

(** C14. Admission to the queue: a request is enqueued exactly when its body is
    a readable JSON object with a non-empty string model, the key allows that
    model and the queue is open and has room; then the queue gains exactly that
    request, with the identity of the authenticated key, the priority the body
    asks for (or the default), and the client's method, path, headers and body,
    and nothing is written to the client.  Otherwise the queue is unchanged and
    the client is sent 400 when no model is named, 403 when the named model is
    not allowed, and 503, which is counted, when only the room is missing. *)
Theorem submit_spec (Unmarshal : string → result error (option (gmap string json))) (cfg : Config)
    (pc : Api.ProxyContext) (et : EndpointType) (now : Z) (handle : nat) (r : Api.HttpReq)
    (w : ResponseWriter) (s : State) :
  rw_sent w = None →
  let '(w', s', p) := submit Unmarshal cfg pc et now handle r w s in
  match p with
  | Some pending =>
      ∃ body m, namesModel Unmarshal r body m (req_ModelAlias pending) ∧
        mayUse (Api.pc_APIKey pc) (req_ModelAlias pending) ∧ hasRoom (o_queue s) ∧
        req_APIKeyID pending = key_ID (Api.pc_APIKey pc) ∧ req_ID pending = Api.pc_RequestID pc ∧
        req_SessionID pending = Api.pc_SessionID pc ∧ req_EndpointType pending = et ∧ req_Timestamp pending = now ∧
        req_BodyBytes pending = body ∧ req_Headers pending = Api.h_Header r ∧
        req_Method pending = Api.h_Method r ∧ req_Path pending = Api.h_Path r ∧
        (∀ n, m !! "priority" = Some (JNum n) → req_Priority pending = to_int n) ∧
        ((∀ n, m !! "priority" ≠ Some (JNum n)) → req_Priority pending = c_DefaultPriority cfg) ∧
        q_heap (o_queue s') ≡ₚ pending :: q_heap (o_queue s) ∧ w' = w
  | None =>
      o_queue s' = o_queue s ∧
      ∃ code h, rw_sent w' = Some (code, h) ∧
        (code = 400 ∧ s' = s ∧ (∀ body m a, ¬ namesModel Unmarshal r body m a) ∨
         code = 403 ∧ s' = s ∧
           (∃ body m a, namesModel Unmarshal r body m a ∧ ¬ mayUse (Api.pc_APIKey pc) a) ∨
         code = 503 ∧
           (∃ body m a, namesModel Unmarshal r body m a ∧ mayUse (Api.pc_APIKey pc) a ∧ ¬ hasRoom (o_queue s) ∧
              o_metrics s' = Metrics.IncRequests a "queue_full" (o_metrics s)))
  end.
Proof.
  intros Hs. assert (∀ code msg, ∃ h, rw_sent (Api.writeError w code msg) = Some (code, h)) as Herr.
  { intros code msg. destruct (Api.writeError_sent w code msg Hs) as (h & Hw & _).
    exists h. rewrite <-Hw. unfold Api.writeError, Api.writeJSON. simpl.
    by destruct (rwWrite _ _). }
  unfold submit. destruct (Api.h_Body r) as [body|e] eqn:Hb.
  2: { split; [done|]. destruct (Herr 400 "cannot read request body") as [h Hh].
       exists 400, h. split; [exact Hh|]. left. split_and!; [done..|]. intros ? ? ? (E & _). congruence. }
  destruct (Unmarshal body) as [m|e] eqn:Hu.
  2: { split; [done|]. destruct (Herr 400 "invalid JSON body") as [h Hh].
       exists 400, h. split; [exact Hh|]. left. split_and!; [done..|]. intros ? ? ? (E & E' & _). congruence. }
  set (a := as_string _). case_bool_decide as Ha.
  { split; [done|]. destruct (Herr 400 "missing 'model' field") as [h Hh].
    exists 400, h. split; [exact Hh|]. left. split_and!; [done..|].
    intros body' m' a' (E1 & E2 & E3 & Hne). rewrite Hb in E1. injection E1 as <-. rewrite Hu in E2. injection E2 as ->.
    unfold a in Ha. simpl in Ha. by rewrite E3 in Ha. }
  assert (∃ mm, m = Some mm ∧ mm !! "model" = Some (JStr a)) as (mm & -> & Hm).
  { unfold a in *. destruct m as [mm|]; [|done]. simpl in *. exists mm. split; [done|].
    destruct (mm !! "model") as [[]|]; done. }
  assert (namesModel Unmarshal r body mm a) as Hn by done.
  destruct (Auth.CheckModelAllowed (Api.pc_APIKey pc) a) eqn:Hc; simpl.
  2: { split; [done|]. destruct (Herr 403 "model not allowed for this key") as [h Hh].
       exists 403, h. split; [exact Hh|]. right. left. split_and!; [done..|]. exists body, mm, a. split; [done|].
       intros Hal. apply Auth.CheckModelAllowed_iff in Hal. congruence. }
  apply Auth.CheckModelAllowed_iff in Hc.
  destruct (Enqueue (o_queue s) _) as [qu [pos len]] eqn:He.
  pose proof (Enqueue_spec (o_queue s) (mkPending pc (priorityOf cfg (Some mm)) a et now body r handle)) as Hq.
  rewrite He in Hq. destruct Hq as (_ & _ & Hq). unfold hasRoom.
  destruct (q_closed (o_queue s) || _) eqn:Hfull.
  - destruct Hq as (-> & -> & _). simpl. split; [done|].
    destruct (Herr 503 "queue is full") as [h Hh]. exists 503, h. split; [exact Hh|].
    right. right. split; [done|]. exists body, mm, a. split_and!; [done..| |done].
    apply orb_true_iff in Hfull as [->|Hf]; [by intros [? _]|]. bools. intros [_ [?|?]]; lia.
  - destruct Hq as (Hp & _ & ->). rewrite (proj2 (Z.eqb_neq _ _)) by lia. bools.
    exists body, mm. split_and!; try done.
    + destruct (Z.ltb_spec 0 (q_max (o_queue s))); [|by left]. right. simpl in *. bools. lia.
    + intros n Hpr. simpl. unfold priorityOf. simpl. by rewrite Hpr.
    + intros Hpr. simpl. unfold priorityOf. simpl. destruct (mm !! "priority") as [[]|]; try done. by destruct (Hpr f).
Qed.

(** The total, prompt and completion tokens a result stands for: its own when it
    has some, else the usage of its body when that has some. *)
Inductive tokensFrom (parseUsage : string → option (Z * Z * Z)) (res : ExecutionResult) : Z → Z → Z → Prop :=
| from_result :
    0 < ex_TotalTokens res →
    tokensFrom parseUsage res (ex_TotalTokens res) (ex_PromptTokens res) (ex_CompletionTokens res)
| from_body p c t :
    ex_TotalTokens res ≤ 0 → ex_Body res ≠ "" → parseUsage (ex_Body res) = Some (p, c, t) → 0 < t →
    tokensFrom parseUsage res t p c
| from_nothing :
    ex_TotalTokens res ≤ 0 →
    (∀ p c t, ex_Body res ≠ "" → parseUsage (ex_Body res) = Some (p, c, t) → t ≤ 0) →
    tokensFrom parseUsage res (ex_TotalTokens res) (ex_PromptTokens res) (ex_CompletionTokens res).

Lemma tokensOf_from parseUsage res :
  let '(total, p, c) := tokensOf parseUsage res in tokensFrom parseUsage res total p c.
Proof.
  unfold tokensOf. destruct (Z.leb_spec (ex_TotalTokens res) 0) as [Hle|Hgt]; [|by apply from_result]. simpl.
  destruct (Z.ltb_spec 0 (Z.of_nat (String.length (ex_Body res)))) as [Hb|Hb].
  - assert (ex_Body res ≠ "") as Hne by (intros E; rewrite E in Hb; simpl in Hb; lia).
    destruct (parseUsage (ex_Body res)) as [[[p c] t]|] eqn:E.
    + destruct (Z.ltb_spec 0 t); [by apply from_body|]. apply from_nothing; [done|]. intros p' c' t' _ E'.
      rewrite E in E'. by simplify_eq.
    + apply from_nothing; [done|]. congruence.
  - apply from_nothing; [done|]. intros ? ? ? Hne. destruct (ex_Body res); [done|]. simpl in Hb. lia.
Qed.

(** C15. Accounting of a request that was enqueued.  A result: one request is
    counted under ["success"] or ["error"], the tokens of the result or of its
    body's usage are counted by type and charged to the key and the model in
    the rate limiter exactly when there are any, exactly one log entry and one
    detail entry are written, whose fields are those given here, and nothing is
    written to the client.  A deadline: one request is counted under ["timeout"]
    and the client is sent 504.  A client that is gone: one request is counted
    under ["cancelled"].  In the last two cases nothing is logged or charged. *)
Theorem complete_spec (parseUsage : string → option (Z * Z * Z)) (pc : Api.ProxyContext)
    (isStream : bool) (pending : PendingRequest) (wake : wakeup) (w : ResponseWriter) (s : State) :
  let alias := req_ModelAlias pending in
  let key := key_ID (Api.pc_APIKey pc) in
  let '(w', s') := complete parseUsage pc isStream pending wake w s in
  o_queue s' = o_queue s ∧
  match wake with
  | GotResult res ms =>
      ∃ total p c, tokensFrom parseUsage res total p c ∧ w' = w ∧
      o_logs s' = o_logs s ++
        [{| log_ID := Api.pc_RequestID pc; log_SessionID := Api.pc_SessionID pc; log_Timestamp := Api.pc_StartTime pc;
            log_APIKeyID := key; log_ModelAlias := alias; log_NodeID := ex_FinalNodeID res; log_ActualModel := "";
            log_PromptTokens := p; log_CompletionTokens := c; log_TotalTokens := total; log_DurationMs := ms;
            log_StatusCode := ex_StatusCode res; log_Stream := isStream; log_ErrorMsg := ex_Error res;
            log_HasDetail := true |}] ∧
      o_details s' = o_details s ++
        [{| dl_TraceID := Api.pc_RequestID pc; dl_SessionID := Api.pc_SessionID pc; dl_Timestamp := Api.pc_StartTime pc;
            dl_RequestBody := req_BodyBytes pending; dl_ResponseBody := ex_Body res |}] ∧
      o_tokenCalls s' = o_tokenCalls s ++ (if decide (0 < total) then [(key, alias, total)] else []) ∧
      o_metrics s' = fold_left Metrics.mexec
        (Metrics.CIncRequests alias (if decide (ex_Error res = "") then "success" else "error") ::
         (if decide (0 < total)
          then [Metrics.CAddTokens alias "prompt" p; Metrics.CAddTokens alias "completion" c] else []))
        (o_metrics s)
  | CtxDone deadline =>
      o_logs s' = o_logs s ∧ o_details s' = o_details s ∧ o_tokenCalls s' = o_tokenCalls s ∧
      o_metrics s' = Metrics.mexec (o_metrics s) (Metrics.CIncRequests alias (if deadline then "timeout" else "cancelled")) ∧
      (deadline = false → w' = w) ∧
      (deadline = true → rw_sent w = None → ∃ h, rw_sent w' = Some (504, h))
  end.
Proof.
  intros alias key. destruct wake as [res ms|deadline]; unfold complete.
  - pose proof (tokensOf_from parseUsage res) as Hf. destruct (tokensOf parseUsage res) as [[total p] c].
    rewrite (bool_decide_decide (ex_Error res = "")).
    destruct (Z.ltb_spec 0 total); simpl; (split; [done|]); exists total, p, c;
      destruct (decide (0 < total)); try lia; rewrite ?app_nil_r; split_and!; try done;
      by destruct (decide (ex_Error res = "")).
  - destruct deadline; simpl; split_and!; try done. intros _ Hs.
    destruct (Api.writeError_sent w 504 "request timeout after waiting in queue" Hs) as (h & Hw & _).
    exists h. rewrite <-Hw. unfold Api.writeError, Api.writeJSON. simpl. by destruct (rwWrite _ _).
Qed.

(** [/v1/models] lists every alias of an enabled node, each once, and
    nothing else, whatever the order of the map iteration. *)
Theorem list_models_spec (ord : Routing.NodeMap → list ModelNode) (r : Routing.Router) :
  Routing.map_order ord →
  NoDup (listModels ord r) ∧
  ∀ a, a ∈ listModels ord r ↔
    ∃ id n, Routing.r_nodes r !! id = Some n ∧ node_Enabled n = true ∧ a ∈ node_Aliases n.
Proof.
  intros Hord. destruct (listModels_loop (Routing.ListEnabled ord r) []) as [H1 H2]; [constructor|].
  split; [done|]. intros a. unfold listModels. rewrite H2. unfold Routing.ListEnabled.
  setoid_rewrite list_elem_of_filter. setoid_rewrite (Hord (Routing.r_nodes r)).
  setoid_rewrite list_elem_of_fmap. split.
  - intros [?%elem_of_nil|(n & [He ([id n'] & -> & Hin)] & Ha)]; [done|].
    apply elem_of_map_to_list in Hin. eauto.
  - intros (id & n & Hin & He & Ha). right. exists n. split_and!; [done| |done].
    exists (id, n). split; [done|]. by apply elem_of_map_to_list.
Qed.

(** ** Witnesses *)

Definition demo_ctx : Api.ProxyContext :=
  {| Api.pc_RequestID := "r1"; Api.pc_SessionID := "s1"; Api.pc_APIKey := Api.demo_key;
     Api.pc_StartTime := 5 |}.

Definition demo_parse (body : string) : result error (option (gmap string json)) :=
  Ok (Some {["model" := JStr "gpt"]}).

Definition demo_state : State := mkState (NewRequestQueue 10) Metrics.NewRegistry [] [] [].

Lemma submit_spec_witness :
  ∃ pending, (submit demo_parse {| c_DefaultPriority := 0; c_MaxWaitTimeSec := 0 |} demo_ctx
     EndpointChat 7 1 (Api.demo_req "Bearer pk-1") newRW demo_state).2 = Some pending ∧
    req_ModelAlias pending = "gpt" ∧ req_APIKeyID pending = "k1".
Proof.
  pose proof (submit_spec demo_parse {| c_DefaultPriority := 0; c_MaxWaitTimeSec := 0 |} demo_ctx
     EndpointChat 7 1 (Api.demo_req "Bearer pk-1") newRW demo_state eq_refl) as Hs.
  destruct (submit _ _ _ _ _ _ _ _ _) as [[w' s'] [p|]] eqn:E; [|by vm_compute in E].
  destruct Hs as (body & m & (_ & Hu & Hm & _) & _ & _ & Hk & _). exists p. split_and!; [done| |done].
  unfold demo_parse in Hu. injection Hu as <-. rewrite lookup_singleton_eq in Hm.
  by injection Hm as <-.
Defined.

Lemma list_models_spec_witness :
  NoDup (listModels Routing.list_order (Routing.rhistory Routing.demo_calls Routing.New)) ∧
  "x" ∈ listModels Routing.list_order (Routing.rhistory Routing.demo_calls Routing.New).
Proof.
  destruct (list_models_spec Routing.list_order (Routing.rhistory Routing.demo_calls Routing.New)
    Routing.list_order_ok) as [H1 H2].
  split; [exact H1|]. apply H2.
  exists "d", (Routing.demo_node "d" ["gpt"; "x"] EndpointChat true).
  split_and!; [vm_compute; reflexivity|done|simpl; set_solver].
Defined.

End OpenAI.
