(* ===== verification/AsyncLog.v ===== *)
(** * logging/logger.go: the asynchronous log pipeline

    A tier of the logger is a buffered channel, a background worker with a
    batch, and a table of the SQLite logger ([storage/sqlite/logger.go]) whose
    inserts ignore a row with a known key.  The two tiers differ in the entry
    type and in the batch size ([requestTier], [detailTier]).  The step function
    interleaves, receive by receive and transaction by transaction, the handlers'
    sends, the worker, any number of [Flush] calls, and [Close]; whether a
    transaction commits is a choice of the environment.  The buffer has room for
    at least one entry.  Ghost lists record what became of each entry. *)
From S2P Require Import Prelude GoStd GoFloat GoJson Domain.

Module AsyncLog.

Section tier.
Context {A : Type} (key : A → string).
(** The batch size that triggers an early flush: 256 and 64. *)
Context (batchMax : nat).

(** ** The table *)

(** [INSERT OR IGNORE]. *)
Definition insertIgnore (db : list A) (x : A) : list A :=
  if bool_decide (key x ∈ key <$> db) then db else db ++ [x].

(** [BulkInsert...]: one transaction, all rows or none. *)
Definition BulkInsert (commits : bool) (logs : list A) (db : list A) : list A * bool :=
  if bool_decide (length logs = 0%nat) then (db, true)
  else if commits then (fold_left insertIgnore logs db, true) else (db, false).

(** The table and the history: entries offered, committed, refused by a full
    channel, in a transaction that failed. *)
Record Books := mkBooks {
  bk_db : list A;
  bk_offered : list A;
  bk_committed : list A;
  bk_dropped : list A;
  bk_failed : list A;
}.

(** A call of [BulkInsert...], with the bookkeeping. *)
Definition transact (commits : bool) (logs : list A) (b : Books) : Books :=
  let '(db, ok) := BulkInsert commits logs (bk_db b) in
  mkBooks db (bk_offered b) (if ok then bk_committed b ++ logs else bk_committed b) (bk_dropped b)
    (if ok then bk_failed b else bk_failed b ++ logs).

(** ** The pipeline *)

(** Where the worker is: in its [select], in [flush] (called from the
    [select]), in the drain loop after [stopCh], in the last [flush], gone. *)
Inductive phase := Selecting | Flushing | Draining | LastFlush | Exited.

(** A call of [Flush]: the entries it has taken, and whether its drain loop is
    over. *)
Record flushCall := mkFlush { f_logs : list A; f_drained : bool }.

Record Tier := mkTier {
  t_ch : list A;
  t_cap : nat;
  t_stop : bool;
  t_phase : phase;
  t_batch : list A;
  t_flushes : list flushCall;
  t_books : Books;
}.

Definition set_ch (ch : list A) (t : Tier) : Tier :=
  mkTier ch (t_cap t) (t_stop t) (t_phase t) (t_batch t) (t_flushes t) (t_books t).
Definition set_worker (p : phase) (batch : list A) (t : Tier) : Tier :=
  mkTier (t_ch t) (t_cap t) (t_stop t) p batch (t_flushes t) (t_books t).
Definition set_flushes (fs : list flushCall) (t : Tier) : Tier :=
  mkTier (t_ch t) (t_cap t) (t_stop t) (t_phase t) (t_batch t) fs (t_books t).
Definition set_books (b : Books) (t : Tier) : Tier :=
  mkTier (t_ch t) (t_cap t) (t_stop t) (t_phase t) (t_batch t) (t_flushes t) b.

Definition New (bufferSize : nat) : Tier :=
  mkTier [] bufferSize false Selecting [] [] (mkBooks [] [] [] [] []).

(** [AsyncLog], [AsyncLogDetail]: a non-blocking send. *)
Definition Log (x : A) (t : Tier) : Tier :=
  let b := t_books t in
  if bool_decide (length (t_ch t) < t_cap t)%nat
  then set_books (mkBooks (bk_db b) (bk_offered b ++ [x]) (bk_committed b) (bk_dropped b) (bk_failed b))
         (set_ch (t_ch t ++ [x]) t)
  else set_books (mkBooks (bk_db b) (bk_offered b ++ [x]) (bk_committed b) (bk_dropped b ++ [x])
                    (bk_failed b)) t.

(** The worker's [select] chooses the channel. *)
Definition workerReceive (t : Tier) : option Tier :=
  match t_phase t, t_ch t with
  | Selecting, x :: ch =>
      let batch := t_batch t ++ [x] in
      Some (set_worker (if bool_decide (batchMax ≤ length batch)%nat then Flushing else Selecting)
              batch (set_ch ch t))
  | _, _ => None
  end.

(** It chooses the ticker. *)
Definition workerTick (t : Tier) : option Tier :=
  match t_phase t with Selecting => Some (set_worker Flushing (t_batch t) t) | _ => None end.

(** It chooses [stopCh]. *)
Definition workerStop (t : Tier) : option Tier :=
  match t_phase t, t_stop t with
  | Selecting, true => Some (set_worker Draining (t_batch t) t)
  | _, _ => None
  end.

(** A round of the drain loop. *)
Definition workerDrain (t : Tier) : option Tier :=
  match t_phase t, t_ch t with
  | Draining, x :: ch => Some (set_worker Draining (t_batch t ++ [x]) (set_ch ch t))
  | Draining, [] => Some (set_worker LastFlush (t_batch t) t)
  | _, _ => None
  end.

(** The worker's [flush], from the [select] or before the return. *)
Definition flushBatch (commits : bool) (t : Tier) : option Tier :=
  let flushed p :=
    if bool_decide (length (t_batch t) = 0%nat) then set_worker p (t_batch t) t
    else set_worker p [] (set_books (transact commits (t_batch t) (t_books t)) t) in
  match t_phase t with
  | Flushing => Some (flushed Selecting)
  | LastFlush => Some (flushed Exited)
  | _ => None
  end.

(** [Flush]: the call, a round of its drain loop, and its transaction. *)
Definition flushStart (t : Tier) : Tier := set_flushes (t_flushes t ++ [mkFlush [] false]) t.

Definition flushTake (j : nat) (t : Tier) : option Tier :=
  match t_flushes t !! j, t_ch t with
  | Some (mkFlush logs false), x :: ch =>
      Some (set_flushes (<[j := mkFlush (logs ++ [x]) false]> (t_flushes t)) (set_ch ch t))
  | Some (mkFlush logs false), [] =>
      Some (set_flushes (<[j := mkFlush logs true]> (t_flushes t)) t)
  | _, _ => None
  end.

Definition flushCommit (commits : bool) (j : nat) (t : Tier) : option Tier :=
  match t_flushes t !! j with
  | Some (mkFlush logs true) =>
      let t := set_flushes (delete j (t_flushes t)) t in
      Some (if bool_decide (length logs = 0%nat) then t
            else set_books (transact commits logs (t_books t)) t)
  | _ => None
  end.

(** [Close]: [close(l.stopCh)], once; then it waits for the worker's exit. *)
Definition Close (t : Tier) : Tier :=
  mkTier (t_ch t) (t_cap t) true (t_phase t) (t_batch t) (t_flushes t) (t_books t).

Inductive lcall :=
| CLog (x : A)
| CReceive
| CTick
| CStop
| CDrain
| CBatch (commits : bool)
| CFlush
| CTake (j : nat)
| CCommit (commits : bool) (j : nat)
| CClose.

Definition lexec (c : lcall) (t : Tier) : option Tier :=
  match c with
  | CLog x => Some (Log x t)
  | CReceive => workerReceive t
  | CTick => workerTick t
  | CStop => workerStop t
  | CDrain => workerDrain t
  | CBatch commits => flushBatch commits t
  | CFlush => Some (flushStart t)
  | CTake j => flushTake j t
  | CCommit commits j => flushCommit commits j t
  | CClose => Some (Close t)
  end.

Definition lstep (t t' : Tier) : Prop := ∃ c, lexec c t = Some t'.

Fixpoint runCalls (cs : list lcall) (t : Tier) : option Tier :=
  match cs with
  | [] => Some t
  | c :: cs => t' ← lexec c t; runCalls cs t'
  end.

(** ** The invariant *)

(** Entries on their way, and entries whose fate is settled. *)
Definition pending (t : Tier) : list A := t_ch t ++ t_batch t ++ (t_flushes t ≫= f_logs).
Definition settled (b : Books) : list A := bk_committed b ++ bk_dropped b ++ bk_failed b.

Definition batch_ok (t : Tier) : Prop :=
  match t_phase t with
  | Selecting => (length (t_batch t) < batchMax)%nat
  | Flushing => (length (t_batch t) ≤ batchMax)%nat
  | Draining | LastFlush => t_stop t = true
  | Exited => t_stop t = true ∧ t_batch t = []
  end.

Record books_ok (b : Books) : Prop := {
  bo_unique : NoDup (key <$> bk_db b);
  bo_keys : ∀ k, k ∈ key <$> bk_db b ↔ k ∈ key <$> bk_committed b;
  bo_rows : ∀ x, x ∈ bk_db b → x ∈ bk_committed b;
}.

Record tier_ok (cap : nat) (t : Tier) : Prop := {
  lo_cap : t_cap t = cap ∧ (length (t_ch t) ≤ cap)%nat;
  lo_batch : batch_ok t;
  lo_conserved : bk_offered (t_books t) ≡ₚ pending t ++ settled (t_books t);
  lo_books : books_ok (t_books t);
}.

Lemma insertAll_spec logs db :
  NoDup (key <$> db) →
  let db' := fold_left insertIgnore logs db in
  NoDup (key <$> db') ∧ (∀ k, k ∈ key <$> db' ↔ k ∈ key <$> db ∨ k ∈ key <$> logs) ∧
  (∀ x, x ∈ db' → x ∈ db ∨ x ∈ logs).
Proof.
  revert db. induction logs as [|x logs IH]; intros db Hnd; simpl; [set_solver|].
  assert (NoDup (key <$> insertIgnore db x) ∧
          (∀ k, k ∈ key <$> insertIgnore db x ↔ k ∈ key <$> db ∨ k = key x) ∧
          (∀ y, y ∈ insertIgnore db x → y ∈ db ∨ y = x)) as (H1 & H2 & H3).
  { unfold insertIgnore. case_bool_decide as Hx; [set_solver|]. rewrite fmap_app. split_and!.
    - apply NoDup_app. split_and!; [done|set_solver|apply NoDup_singleton].
    - intros k. rewrite elem_of_app. simpl. set_solver.
    - intros y. rewrite elem_of_app. set_solver. }
  destruct (IH _ H1) as (H4 & H5 & H6). split_and!; [done| |].
  - intros k. rewrite H5, H2. set_solver.
  - intros y Hy. destruct (H6 y Hy) as [Hy'|?]; [|set_solver]. destruct (H3 y Hy'); set_solver.
Qed.

(** A transaction settles its entries. *)
Lemma transact_ok commits logs b :
  books_ok b →
  books_ok (transact commits logs b) ∧ bk_offered (transact commits logs b) = bk_offered b ∧
  settled (transact commits logs b) ≡ₚ logs ++ settled b.
Proof.
  intros [Hu Hk Hr]. unfold transact, BulkInsert, settled. case_bool_decide as Hl.
  { apply nil_length_inv in Hl as ->. simpl. rewrite app_nil_r. by destruct b. }
  destruct (insertAll_spec logs _ Hu) as (H1 & H2 & H3).
  destruct commits; simpl; split_and!; try done; try solve_Permutation.
  split; simpl; [done| |].
  - intros k. rewrite H2, Hk, fmap_app. set_solver.
  - intros x Hx. apply H3 in Hx. set_solver.
Qed.

(** A step that settles [logs] of the entries on their way, possibly none. *)
Lemma settle_ok cap commits logs t t' :
  tier_ok cap t → t_cap t' = t_cap t → (length (t_ch t') ≤ length (t_ch t))%nat →
  batch_ok t' → pending t ≡ₚ logs ++ pending t' →
  t_books t' = transact commits logs (t_books t) → tier_ok cap t'.
Proof.
  intros [[Hcap Hch] _ Hcon Hb] Hc Hl Hbatch Hp E.
  destruct (transact_ok commits logs _ Hb) as (Hb' & Ho & Hs).
  split; [split; [congruence|lia]|done| |by rewrite E].
  rewrite E, Ho, Hs, Hcon, Hp. solve_Permutation.
Qed.

Lemma transact_nil commits b : transact commits [] b = b.
Proof. destruct b. unfold transact. simpl. by rewrite app_nil_r. Qed.

Lemma move_ok cap t t' :
  tier_ok cap t → t_cap t' = t_cap t → (length (t_ch t') ≤ length (t_ch t))%nat →
  batch_ok t' → pending t ≡ₚ pending t' → t_books t' = t_books t → tier_ok cap t'.
Proof.
  intros Hok Hc Hl Hb Hp E. apply (settle_ok cap true [] t); try done.
  by rewrite transact_nil.
Qed.

Lemma log_ok cap x t : tier_ok cap t → tier_ok cap (Log x t).
Proof.
  intros [[Hcap Hch] Hb Hcon [Hu Hk Hr]]. unfold Log, pending, settled in *.
  case_bool_decide; (split; simpl; [split; [done|rewrite ?length_app; simpl; lia]|done| |by split]);
    unfold pending, settled; simpl; rewrite Hcon; solve_Permutation.
Qed.

Lemma worker_ok cap t t' c :
  (0 < batchMax)%nat → tier_ok cap t →
  c ∈ [CReceive; CTick; CStop; CDrain] → lexec c t = Some t' → tier_ok cap t'.
Proof.
  intros H0 Hok Hc HE. pose proof (lo_batch _ _ Hok) as Hb.
  set_unfold in Hc. destruct_or!; subst c; simpl in HE;
    unfold workerReceive, workerTick, workerStop, workerDrain in HE; unfold batch_ok in Hb;
    destruct (t_phase t) eqn:Ep; try done.
  - destruct (t_ch t) as [|x ch] eqn:Ech; simplify_eq.
    eapply move_ok; [done|done|rewrite Ech; simpl; lia| |
      unfold pending; simpl; rewrite Ech; solve_Permutation|done].
    unfold batch_ok. simpl. rewrite length_app in *. simpl in *. case_bool_decide; lia.
  - simplify_eq. eapply move_ok; try done. unfold batch_ok. simpl. lia.
  - destruct (t_stop t) eqn:Es; simplify_eq. by eapply move_ok.
  - destruct (t_ch t) as [|x ch] eqn:Ech; simplify_eq.
    + by eapply move_ok.
    + eapply move_ok; [done|done|rewrite Ech; simpl; lia|done|
        unfold pending; simpl; rewrite Ech; solve_Permutation|done].
Qed.

Lemma flushBatch_ok cap commits t t' :
  (0 < batchMax)%nat → tier_ok cap t → flushBatch commits t = Some t' → tier_ok cap t'.
Proof.
  intros H0 Hok HE. pose proof (lo_batch _ _ Hok) as Hb. unfold flushBatch in HE.
  unfold batch_ok in Hb. destruct (t_phase t) eqn:Ep; try done; simplify_eq;
    (case_bool_decide as Hl;
       [apply nil_length_inv in Hl; eapply move_ok; try done; unfold batch_ok; by rewrite Hl
       |eapply (settle_ok cap commits (t_batch t)); try done; unfold pending; simpl; solve_Permutation]).
Qed.

Lemma flush_ok cap t t' c :
  tier_ok cap t → (c = CFlush ∨ (∃ j, c = CTake j) ∨ ∃ commits j, c = CCommit commits j) →
  lexec c t = Some t' → tier_ok cap t'.
Proof.
  intros Hok [->|[[j ->]|(commits & j & ->)]] HE; simpl in HE; pose proof (lo_batch _ _ Hok) as Hb.
  - simplify_eq. eapply move_ok; try done. unfold pending. simpl. by rewrite bind_app, app_nil_r.
  - unfold flushTake in HE. destruct (t_flushes t !! j) as [[logs []]|] eqn:Hj; try done.
    pose proof (λ y, bind_insert f_logs _ j _ y Hj) as Hp. simpl in Hp.
    destruct (t_ch t) as [|x ch] eqn:Ech; simplify_eq.
    + eapply move_ok; try done. unfold pending. simpl.
      specialize (Hp (mkFlush logs true)). simpl in Hp. by apply Permutation_app_inv_l in Hp as ->.
    + eapply move_ok; [done|done|rewrite Ech; simpl; lia|done| |done].
      unfold pending. simpl. rewrite Ech. specialize (Hp (mkFlush (logs ++ [x]) false)). simpl in Hp.
      rewrite <-(assoc (++)) in Hp. apply Permutation_app_inv_l in Hp. rewrite Hp. solve_Permutation.
  - unfold flushCommit in HE. destruct (t_flushes t !! j) as [[logs []]|] eqn:Hj; try done.
    simplify_eq. assert (pending t ≡ₚ logs ++ pending (set_flushes (delete j (t_flushes t)) t)) as Hp.
    { unfold pending. simpl. rewrite (delete_Permutation _ _ _ Hj) at 1. simpl. solve_Permutation. }
    case_bool_decide as Hl.
    + apply nil_length_inv in Hl as ->. by eapply move_ok.
    + by eapply (settle_ok cap commits logs).
Qed.

Lemma lstep_ok cap t t' : (0 < batchMax)%nat → tier_ok cap t → lstep t t' → tier_ok cap t'.
Proof.
  intros H0 Hok [c HC]. destruct c.
  - simpl in HC. simplify_eq. by apply log_ok.
  - eapply worker_ok; [done|done| |done]. set_solver.
  - eapply worker_ok; [done|done| |done]. set_solver.
  - eapply worker_ok; [done|done| |done]. set_solver.
  - eapply worker_ok; [done|done| |done]. set_solver.
  - by eapply flushBatch_ok.
  - eapply flush_ok; [done| |exact HC]. by left.
  - eapply flush_ok; [done| |exact HC]. eauto.
  - eapply flush_ok; [done| |exact HC]. eauto 6.
  - simpl in HC. simplify_eq. destruct Hok as [Hc Hb Hcon Hbk]. split; try done.
    unfold batch_ok in *. simpl. destruct (t_phase t); naive_solver.
Qed.

Lemma NewTier_ok cap : (0 < batchMax)%nat → tier_ok cap (New cap).
Proof. intros H0. split; [split; [done|simpl; lia]|done|done|]. split; simpl; [constructor|done|done]. Qed.

Lemma runCalls_rtc cs t t' : runCalls cs t = Some t' → rtc lstep t t'.
Proof.
  revert t. induction cs as [|c cs IH]; intros t HR; simpl in HR; [by simplify_eq|].
  destruct (lexec c t) as [t1|] eqn:Hc; [|done]. simpl in HR.
  eapply rtc_l; [by exists c|]. by apply IH.
Qed.

(** ** The end of the worker *)

(** The steps of the worker, its transactions ending as [commits] says. *)
Definition worker_call (commits : bool) (c : lcall) : Prop :=
  c ∈ [CReceive; CTick; CStop; CDrain; CBatch commits].

(** From the drain loop, the worker empties the channel and returns. *)
Lemma drain_exits commits t :
  t_phase t = Draining →
  ∃ cs t', Forall (worker_call commits) cs ∧ runCalls cs t = Some t' ∧ t_phase t' = Exited ∧
    t_ch t' = [] ∧ bk_dropped (t_books t') = bk_dropped (t_books t).
Proof.
  remember (t_ch t) as ch eqn:Ech. revert t Ech. induction ch as [|x ch IH]; intros t Ech Ep.
  - exists [CDrain; CBatch commits]. simpl. unfold workerDrain. rewrite Ep, <-Ech. simpl.
    eexists. split_and!; [|done|..].
    + unfold worker_call. repeat constructor.
    + by case_bool_decide.
    + by case_bool_decide.
    + case_bool_decide; [done|]. simpl. unfold transact. by destruct (BulkInsert _ _ _).
  - destruct (IH (set_worker Draining (t_batch t ++ [x]) (set_ch ch t))) as (cs & t' & Hcs & Hr & Hx & Hc & Hd);
      [done|done|].
    exists (CDrain :: cs), t'. split_and!; [|simpl|done|done|done].
    + constructor; [unfold worker_call; set_solver|done].
    + unfold workerDrain. by rewrite Ep, <-Ech.
Qed.

Lemma close_exits commits t :
  t_stop t = true → t_phase t ∈ [Selecting; Flushing; Draining] →
  ∃ cs t', Forall (worker_call commits) cs ∧ runCalls cs t = Some t' ∧ t_phase t' = Exited ∧
    t_ch t' = [] ∧ bk_dropped (t_books t') = bk_dropped (t_books t).
Proof.
  intros Hs Hp.
  assert (∀ t, t_stop t = true → t_phase t = Selecting →
    ∃ cs t', Forall (worker_call commits) cs ∧ runCalls cs t = Some t' ∧ t_phase t' = Exited ∧
      t_ch t' = [] ∧ bk_dropped (t_books t') = bk_dropped (t_books t)) as Hsel.
  { clear t Hs Hp. intros t Hs Hp.
    destruct (drain_exits commits (set_worker Draining (t_batch t) t)) as (cs & t' & Hcs & Hr & Hrest);
      [done|].
    exists (CStop :: cs), t'. split_and!; [|simpl|apply Hrest..].
    - constructor; [unfold worker_call; set_solver|done].
    - unfold workerStop. by rewrite Hp, Hs. }
  rewrite !elem_of_cons in Hp.
  destruct Hp as [Hp|[Hp|[Hp|[]%not_elem_of_nil]]]; [by apply Hsel| |by apply drain_exits].
  destruct (flushBatch commits t) as [t1|] eqn:Hf; [|unfold flushBatch in Hf; by rewrite Hp in Hf].
  assert (t_stop t1 = true ∧ t_phase t1 = Selecting ∧
    bk_dropped (t_books t1) = bk_dropped (t_books t)) as (Hs1 & Hp1 & Hd1).
  { unfold flushBatch in Hf. rewrite Hp in Hf. simplify_eq. case_bool_decide; [done|]. simpl.
    split_and!; [done..|]. unfold transact. by destruct (BulkInsert _ _ _). }
  destruct (Hsel t1 Hs1 Hp1) as (cs & t' & Hcs & Hr & Hx & Hc & Hd).
  exists (CBatch commits :: cs), t'. split_and!; [|simpl; by rewrite Hf|done|done|congruence].
  constructor; [unfold worker_call; set_solver|done].
Qed.

(** ** Properties *)

(** C40. The pipeline keeps account of every entry: in every interleaving of
    handlers, worker, [Flush] calls and [Close], each entry offered is in the
    channel, in the batch, in a [Flush] call's hands, committed, dropped because
    the channel was full, or in a transaction that failed; nothing is
    duplicated, the channel stays within its capacity and the batch of the
    running worker within its flush size; the table holds one row per key,
    exactly the keys committed, each with an entry that was offered (later
    entries with the same key are ignored); and once [Close] has been called a
    worker that is not yet in its last flush can always, whatever its
    transactions do, run to its exit, which leaves channel and batch empty and
    drops nothing. *)
Theorem log_conserved (cap : nat) (t : Tier) :
  (0 < batchMax)%nat → rtc lstep (New cap) t →
  bk_offered (t_books t) ≡ₚ pending t ++ settled (t_books t) ∧
  (length (t_ch t) ≤ cap)%nat ∧
  (t_phase t ∈ [Selecting; Flushing] → (length (t_batch t) ≤ batchMax)%nat) ∧
  NoDup (key <$> bk_db (t_books t)) ∧
  (∀ k, k ∈ key <$> bk_db (t_books t) ↔ k ∈ key <$> bk_committed (t_books t)) ∧
  (∀ x, x ∈ bk_db (t_books t) → x ∈ bk_offered (t_books t)) ∧
  (t_stop t = true → t_phase t ∈ [Selecting; Flushing; Draining] → ∀ commits,
     ∃ cs t', Forall (worker_call commits) cs ∧ runCalls cs t = Some t' ∧ t_phase t' = Exited ∧
       t_ch t' = [] ∧ t_batch t' = [] ∧ bk_dropped (t_books t') = bk_dropped (t_books t)).
Proof.
  intros H0 Hr. pose proof Hr as Hrt. apply (rtc_invariant lstep (tier_ok cap)) in Hr;
    [|intros; by eapply lstep_ok|by apply NewTier_ok].
  destruct Hr as [[Hcap Hch] Hb Hcon [Hu Hk Hrows]]. split_and!; try done.
  - unfold batch_ok in Hb. destruct (t_phase t); [lia|lia|set_solver..].
  - intros x Hx. rewrite Hcon. unfold settled. specialize (Hrows x Hx). set_solver.
  - intros Hs Hp commits. destruct (close_exits commits t Hs Hp) as (cs & t' & Hcs & Hr & Hx & Hc & Hd).
    exists cs, t'. split_and!; try done.
    assert (tier_ok cap t') as Hok'.
    { apply (rtc_invariant lstep (tier_ok cap) (New cap)); [intros; by eapply lstep_ok| |];
        [by apply NewTier_ok|]. etrans; [exact Hrt|by eapply runCalls_rtc]. }
    pose proof (lo_batch _ _ Hok') as Hb'. unfold batch_ok in Hb'. rewrite Hx in Hb'. apply Hb'.
Qed.

End tier.

(** The two tiers. *)
Definition requestBatch : nat := 256.
Definition detailBatch : nat := 64.
Definition requestTier : lcall → Tier → option Tier := lexec log_ID requestBatch.
Definition detailTier : lcall → Tier → option Tier := lexec dl_TraceID detailBatch.

(** ** Concrete runs *)

Definition demo_entry (id body : string) : DetailLog :=
  {| dl_TraceID := id; dl_SessionID := ""; dl_Timestamp := 0; dl_RequestBody := body;
     dl_ResponseBody := "" |}.

(** [Flush] does not commit what the worker holds in its batch: after an
    entry has been received by the worker, [Flush] returns with nothing stored.
    A second request that reuses a request ID leaves no row of its own.  And an
    entry offered while the worker is in its last flush stays in the channel
    for good. *)
Theorem flush_misses_batch :
  option_map (λ t, (bk_db (t_books t), t_batch t, t_flushes t))
    (runCalls dl_TraceID detailBatch
       [CLog (demo_entry "a" "1"); CReceive; CFlush; CTake 0; CCommit true 0] (New 8)) =
  Some ([], [demo_entry "a" "1"], []) ∧
  option_map (λ t, bk_db (t_books t))
    (runCalls dl_TraceID detailBatch
       [CLog (demo_entry "a" "1"); CLog (demo_entry "a" "2"); CFlush; CTake 0; CTake 0; CTake 0;
        CCommit true 0] (New 8)) =
  Some [demo_entry "a" "1"] ∧
  option_map (λ t, (t_phase t, t_ch t))
    (runCalls dl_TraceID detailBatch
       [CClose; CStop; CDrain; CLog (demo_entry "a" "1"); CBatch true] (New 8)) =
  Some (Exited, [demo_entry "a" "1"]).
Proof. split_and!; vm_compute; reflexivity. Qed.

Definition demo_calls : list (lcall (A := DetailLog)) :=
  [CLog (demo_entry "a" "1"); CReceive; CFlush; CLog (demo_entry "b" "2"); CTake 0;
   CLog (demo_entry "c" "3"); CClose; CTick].

Lemma log_conserved_witness :
  ∃ t, runCalls dl_TraceID detailBatch demo_calls (New 8) = Some t ∧
    (t_phase t, length (pending t)) = (Flushing, 3%nat) ∧
    bk_offered (t_books t) ≡ₚ pending t ++ settled (t_books t).
Proof.
  destruct (runCalls dl_TraceID detailBatch demo_calls (New 8)) as [t|] eqn:E;
    [|by vm_compute in E].
  exists t. split_and!; [done| |].
  - vm_compute in E. by injection E as <-.
  - apply (log_conserved dl_TraceID detailBatch 8); [unfold detailBatch; lia|].
    by apply runCalls_rtc in E.
Defined.

End AsyncLog.
