(* ===== verification/LogStore.v ===== *)
(** * storage/sqlite/logger.go: writing and querying the logs

    A table is the list of its rows, in insertion order; instants are text
    columns.  The statements are translated from their SQL: [WHERE] keeps the
    rows on which every condition holds, [LIMIT] and [OFFSET] cut, a negative
    limit is none and a negative offset is zero, [SUM] of integers fails when it
    overflows.  What SQL leaves to the engine is an argument: the order that
    [ORDER BY] gives to rows with equal keys ([newest], [ranked]), [LIKE], and
    [strftime].  A statement finds the table as it is when it runs, or fails:
    [stmt i] is what the [i]-th statement of a call gets.  The texts and the
    arguments that the code sends are modelled as well ([buildLogFilter] and the
    [...Text] functions). *)
From S2P Require Import Prelude GoStd GoFloat GoTime Domain AsyncLog.
From Stdlib Require Import Ascii.

Module LogStore.

(** ** Rows *)

Record logRow := {
  lr_id : string;
  lr_session_id : string;
  lr_timestamp : string;
  lr_api_key_id : string;
  lr_model_alias : string;
  lr_node_id : string;
  lr_actual_model : string;
  lr_prompt_tokens : Z;
  lr_completion_tokens : Z;
  lr_total_tokens : Z;
  lr_duration_ms : Z;
  lr_status_code : Z;
  lr_stream : Z;
  lr_error_msg : string;
  lr_has_detail : Z;
}.

Record detailRow := {
  dr_trace_id : string;
  dr_session_id : string;
  dr_timestamp : string;
  dr_request_body : string;
  dr_response_body : string;
}.

Definition boolToInt (b : bool) : Z := if b then 1 else 0.

(** The values bound by the insert statements. *)
Definition logArgs (log : RequestLog) : logRow :=
  {| lr_id := log_ID log; lr_session_id := log_SessionID log;
     lr_timestamp := FormatTime (log_Timestamp log); lr_api_key_id := log_APIKeyID log;
     lr_model_alias := log_ModelAlias log; lr_node_id := log_NodeID log;
     lr_actual_model := log_ActualModel log; lr_prompt_tokens := log_PromptTokens log;
     lr_completion_tokens := log_CompletionTokens log; lr_total_tokens := log_TotalTokens log;
     lr_duration_ms := log_DurationMs log; lr_status_code := log_StatusCode log;
     lr_stream := boolToInt (log_Stream log); lr_error_msg := log_ErrorMsg log;
     lr_has_detail := boolToInt (log_HasDetail log) |}.

Definition detailArgs (d : DetailLog) : detailRow :=
  {| dr_trace_id := dl_TraceID d; dr_session_id := dl_SessionID d;
     dr_timestamp := FormatTime (dl_Timestamp d); dr_request_body := dl_RequestBody d;
     dr_response_body := dl_ResponseBody d |}.

(** ** Inserts *)

Section insert.
Context {R : Type} (id : R → string).

(** [INSERT OR IGNORE] into a table with primary key [id]. *)
Definition insertOrIgnore (db : list R) (r : R) : list R :=
  if bool_decide (id r ∈ id <$> db) then db else db ++ [r].

(** A transaction that inserts all rows, or fails and leaves the table. *)
Definition bulkInsert (fails : option error) (rs : list R) (db : list R) : list R * option error :=
  if bool_decide (length rs = 0%nat) then (db, None)
  else match fails with
       | Some e => (db, Some e)
       | None => (fold_left insertOrIgnore rs db, None)
       end.
End insert.

Definition InsertRequestLog (fails : option error) (log : RequestLog) (db : list logRow)
    : list logRow * option error :=
  match fails with Some e => (db, Some e) | None => (insertOrIgnore lr_id db (logArgs log), None) end.

Definition InsertDetailLog (fails : option error) (d : DetailLog) (db : list detailRow)
    : list detailRow * option error :=
  match fails with Some e => (db, Some e) | None => (insertOrIgnore dr_trace_id db (detailArgs d), None) end.

Definition BulkInsertRequestLogs (fails : option error) (logs : list RequestLog) (db : list logRow)
    : list logRow * option error := bulkInsert lr_id fails (logArgs <$> logs) db.

Definition BulkInsertDetailLogs (fails : option error) (ds : list DetailLog) (db : list detailRow)
    : list detailRow * option error := bulkInsert dr_trace_id fails (detailArgs <$> ds) db.

(** ** Filters *)

Inductive arg := ArgText (s : string) | ArgInt (z : Z).

Inductive cond :=
| CApiKey (v : string)
| CModel (v : string)
| CNode (v : string)
| CSession (v : string)
| CStatus (v : Z)
| CErrors
| CKeyword (kw : string)
| CStart (ts : string)
| CEnd (ts : string).

Definition condText (c : cond) : string :=
  match c with
  | CApiKey _ => "api_key_id=?"
  | CModel _ => "model_alias=?"
  | CNode _ => "node_id=?"
  | CSession _ => "session_id=?"
  | CStatus _ => "status_code=?"
  | CErrors => "(status_code >= 400 OR error_msg != '')"
  | CKeyword _ => "(error_msg LIKE ? OR id LIKE ?)"
  | CStart _ => "timestamp >= ?"
  | CEnd _ => "timestamp <= ?"
  end.

Definition condArgs (c : cond) : list arg :=
  match c with
  | CApiKey v | CModel v | CNode v | CSession v => [ArgText v]
  | CStatus v => [ArgInt v]
  | CErrors => []
  | CKeyword kw => [ArgText kw; ArgText kw]
  | CStart ts | CEnd ts => [ArgText ts]
  end.

(** The conditions in the order in which the code appends them. *)
Definition conditions (f : LogFilter) : list cond :=
  (if bool_decide (lf_APIKeyID f ≠ "") then [CApiKey (lf_APIKeyID f)] else []) ++
  (if bool_decide (lf_ModelAlias f ≠ "") then [CModel (lf_ModelAlias f)] else []) ++
  (if bool_decide (lf_NodeID f ≠ "") then [CNode (lf_NodeID f)] else []) ++
  (if bool_decide (lf_SessionID f ≠ "") then [CSession (lf_SessionID f)] else []) ++
  (if 0 <? lf_StatusCode f then [CStatus (lf_StatusCode f)] else []) ++
  (if lf_ErrorOnly f then [CErrors] else []) ++
  (if bool_decide (lf_Keyword f ≠ "") then [CKeyword ("%" +:+ lf_Keyword f +:+ "%")] else []) ++
  (match lf_StartTime f with Some t => [CStart (FormatTime t)] | None => [] end) ++
  (match lf_EndTime f with Some t => [CEnd (FormatTime t)] | None => [] end).

Definition buildLogFilter (f : LogFilter) : string * list arg :=
  let conds := conditions f in
  let args := conds ≫= condArgs in
  if bool_decide (length conds = 0%nat) then ("", args)
  else (" WHERE " +:+ Join (condText <$> conds) " AND ", args).

(** [LIMIT] and [OFFSET] of [QueryLogs], in 64-bit arithmetic. *)
Definition pageBounds (f : LogFilter) : Z * Z :=
  let page := if lf_Page f <? 1 then 1 else lf_Page f in
  let pageSize := if lf_PageSize f <? 1 then 20 else lf_PageSize f in
  (pageSize, wrap64 (wrap64 (page - 1) * pageSize)).

(** ** The statements sent *)

Definition logColumns : string :=
  "SELECT id,session_id,timestamp,api_key_id,model_alias,node_id,actual_model," +:+
  "prompt_tokens,completion_tokens,total_tokens,duration_ms,status_code,stream,error_msg,has_detail " +:+
  "FROM request_logs".

Definition countText (f : LogFilter) : string :=
  "SELECT COUNT(*) FROM request_logs" +:+ (buildLogFilter f).1.

Definition queryText (f : LogFilter) : string :=
  let '(limit, offset) := pageBounds f in
  logColumns +:+ (buildLogFilter f).1 +:+ " ORDER BY timestamp DESC LIMIT " +:+ FormatInt limit +:+
  " OFFSET " +:+ FormatInt offset.

Definition exportText (f : LogFilter) : string :=
  logColumns +:+ (buildLogFilter f).1 +:+ " ORDER BY timestamp DESC LIMIT 100000".

(** The column [StatsTop] groups by. *)
Inductive topColumn := ByModel | ByKey | ByNode.
Definition topColumnOf (groupBy : string) : topColumn :=
  if bool_decide (groupBy = "api_key_id") then ByKey
  else if bool_decide (groupBy = "node_id") then ByNode else ByModel.
Definition topColumnText (c : topColumn) : string :=
  match c with ByModel => "model_alias" | ByKey => "api_key_id" | ByNode => "node_id" end.
Definition topColumnValue (c : topColumn) (r : logRow) : string :=
  match c with ByModel => lr_model_alias r | ByKey => lr_api_key_id r | ByNode => lr_node_id r end.

Definition topLimit (limit : Z) : Z := if (limit <=? 0) || (100 <? limit) then 10 else limit.

(** The format of the bucket: days, otherwise hours. *)
Definition bucketFormat (granularity : string) : string :=
  if bool_decide (granularity = "day") then "%Y-%m-%dT00:00:00Z" else "%Y-%m-%dT%H:00:00Z".

Definition statsText (f : LogFilter) : string :=
  "
		SELECT
			COUNT(*),
			COALESCE(SUM(prompt_tokens), 0),
			COALESCE(SUM(completion_tokens), 0),
			COALESCE(SUM(total_tokens), 0)
		FROM request_logs" +:+ (buildLogFilter f).1.

Definition seriesText (f : LogFilter) (granularity : string) : string :=
  "
		SELECT
			strftime('" +:+ bucketFormat granularity +:+ "', timestamp) as bucket,
			COUNT(*),
			COALESCE(SUM(prompt_tokens), 0),
			COALESCE(SUM(completion_tokens), 0),
			COALESCE(SUM(total_tokens), 0)
		FROM request_logs
		" +:+ (buildLogFilter f).1 +:+ "
		GROUP BY bucket
		ORDER BY bucket ASC
	".

Definition topText (f : LogFilter) (groupBy : string) (limit : Z) : string :=
  "
		SELECT
			" +:+ topColumnText (topColumnOf groupBy) +:+ " as name,
			COUNT(*),
			COALESCE(SUM(total_tokens), 0) as tokens,
			COALESCE(SUM(prompt_tokens), 0),
			COALESCE(SUM(completion_tokens), 0),
			COALESCE(AVG(duration_ms), 0),
			CASE WHEN COUNT(*) > 0 THEN COALESCE(SUM(total_tokens), 0) / COUNT(*) ELSE 0 END
		FROM request_logs
		" +:+ (buildLogFilter f).1 +:+ "
		GROUP BY name
		ORDER BY tokens DESC
		LIMIT " +:+ FormatInt (topLimit limit) +:+ "
	".

(** ** Queries *)

Definition limitOffset {A} (limit offset : Z) (l : list A) : list A :=
  let l := drop (Z.to_nat offset) l in
  if limit <? 0 then l else take (Z.to_nat limit) l.

(** [SUM] over integers: an overflow on the way is an error. *)
Fixpoint sqlSum (acc : Z) (l : list Z) : option Z :=
  match l with
  | [] => Some acc
  | x :: l => if bool_decide (in_int64 (acc + x)) then sqlSum (acc + x) l else None
  end.

(** Reading a [REAL] into an [int64]: [database/sql] prints it with
    [FormatFloat(f, 'g', -1, 64)], which has a point or an exponent unless the
    value is whole and below a million, and parses the text as an integer. *)
Definition scanReal (f : float64) : option Z :=
  let z := to_int f in
  if SpecFloat.SFeqb (of_int z) f && (-1000000 <? z) && (z <? 1000000) then Some z else None.

(** [COUNT] and the three [SUM]s of a group of rows. *)
Definition sums (rs : list logRow) : option LogStats :=
  p ← sqlSum 0 (lr_prompt_tokens <$> rs);
  c ← sqlSum 0 (lr_completion_tokens <$> rs);
  t ← sqlSum 0 (lr_total_tokens <$> rs);
  Some {| ls_TotalRequests := Z.of_nat (length rs); ls_PromptTokens := p;
          ls_CompletionTokens := c; ls_TotalTokens := t |}.

(** [GROUP BY key ... ORDER BY key ASC]. *)
Definition bucketLe (b b' : option string) : Prop :=
  match b, b' with
  | None, _ => True
  | Some _, None => False
  | Some s, Some s' => notBefore s' s
  end.
#[global] Instance bucketLe_dec : RelDecision bucketLe.
Proof. intros [s|] [s'|]; simpl; apply _. Defined.

Definition groupsOf {K} `{EqDecision K} (key : logRow → K) (rs : list logRow) : list (K * list logRow) :=
  (λ k, (k, filter (λ r, key r = k) rs)) <$> remove_dups (key <$> rs).

Definition groupLe (g g' : option string * list logRow) : Prop := bucketLe g.1 g'.1.
#[global] Instance groupLe_dec : RelDecision groupLe.
Proof. intros g g'. unfold groupLe. apply _. Defined.

(** Every sum of every group fits. *)
Definition noOverflow {K} (groups : list (K * list logRow)) : bool :=
  forallb (λ g, match sums g.2 with Some _ => true | None => false end) groups.

(** The [for rows.Next()] loop: the first failing row ends it. *)
Fixpoint scanAll {A B} (scan : A → result error B) (rows : list A) : result error (list B) :=
  match rows with
  | [] => Ok []
  | r :: rows =>
      match scan r with
      | Err e => Err e
      | Ok x => match scanAll scan rows with Err e => Err e | Ok xs => Ok (x :: xs) end
      end
  end.

(** ** Groups and sums *)

Lemma group_join {K} `{EqDecision K} (key : logRow → K) (ks : list K) (rs : list logRow) :
  NoDup ks → (∀ r, r ∈ rs → key r ∈ ks) →
  mjoin ((λ k, filter (λ r, key r = k) rs) <$> ks) ≡ₚ rs.
Proof.
  intros Hnd. revert rs. induction Hnd as [|k ks Hk Hnd IH]; intros rs Hin.
  { destruct rs as [|r rs]; [done|]. specialize (Hin r). set_solver. }
  cbn [fmap list_fmap mjoin list_join].
  etrans; [|apply (filter_app_complement (λ r, key r = k))]. apply Permutation_app_head.
  rewrite <-(IH (filter (λ r, key r ≠ k) rs)).
  - apply reflexive_eq. f_equal. apply list_fmap_ext. intros i k' Hk'.
    rewrite list_filter_filter. apply list_filter_iff. intros r. split; [|naive_solver].
    intros ->. split; [done|]. intros ->. apply Hk. by eapply list_elem_of_lookup_2.
  - intros r Hr. apply list_elem_of_filter in Hr as [Hne Hr]. specialize (Hin r Hr). set_solver.
Qed.

Lemma groupsOf_join {K} `{EqDecision K} (key : logRow → K) rs :
  mjoin ((groupsOf key rs).*2) ≡ₚ rs.
Proof.
  unfold groupsOf. rewrite <-list_fmap_compose. apply (group_join key).
  - apply NoDup_remove_dups.
  - intros r Hr. apply elem_of_remove_dups. set_solver.
Qed.

Lemma sqlSum_ok acc l v : sqlSum acc l = Some v → v = acc + foldr Z.add 0 l.
Proof.
  revert acc. induction l as [|x l IH]; intros acc Hs; simpl in Hs; [simplify_eq/=; lia|].
  case_bool_decide; [|done]. apply IH in Hs. simpl. lia.
Qed.

Lemma sums_total rs s :
  sums rs = Some s →
  s = {| ls_TotalRequests := Z.of_nat (length rs); ls_PromptTokens := sumZ lr_prompt_tokens rs;
         ls_CompletionTokens := sumZ lr_completion_tokens rs;
         ls_TotalTokens := sumZ lr_total_tokens rs |}.
Proof.
  unfold sums. intros Hs. destruct (sqlSum 0 (lr_prompt_tokens <$> rs)) as [p|] eqn:E1; [|done].
  destruct (sqlSum 0 (lr_completion_tokens <$> rs)) as [c|] eqn:E2; [|done].
  destruct (sqlSum 0 (lr_total_tokens <$> rs)) as [t|] eqn:E3; [|done]. simplify_eq/=.
  apply sqlSum_ok in E1, E2, E3. unfold sumZ. f_equal; lia.
Qed.

Lemma scanAll_spec {X Y} (scan : X → result error Y) rows ys :
  scanAll scan rows = Ok ys → Forall2 (λ r y, scan r = Ok y) rows ys.
Proof.
  revert ys. induction rows as [|r rows IH]; intros ys Hs; simpl in Hs; [simplify_eq; constructor|].
  destruct (scan r) as [y|] eqn:Er; [|done]. destruct (scanAll scan rows) as [ys'|]; [|done].
  simplify_eq. constructor; auto.
Qed.

Lemma groupsOf_keys {K} `{EqDecision K} (key : logRow → K) rs :
  (groupsOf key rs).*1 = remove_dups (key <$> rs).
Proof. unfold groupsOf. induction (remove_dups _) as [|k ks IH]; [done|]. simpl. by f_equal. Qed.

Section queries.
Context (slow : string → option Z) (LIKE : string → string → bool).
(** [strftime(format, timestamp)]: [None] is [NULL]. *)
Context (strftime : string → string → option string).
(** [ORDER BY timestamp DESC]; [ORDER BY tokens DESC] on the groups. *)
Context (newest : list logRow → list logRow).
Context (ranked : list (string * list logRow) → list (string * list logRow)).
(** The errors the driver reports for an overflow and for a failed [Scan]. *)
Context (overflow scanError : error).

Definition condHolds (r : logRow) (c : cond) : bool :=
  match c with
  | CApiKey v => bool_decide (lr_api_key_id r = v)
  | CModel v => bool_decide (lr_model_alias r = v)
  | CNode v => bool_decide (lr_node_id r = v)
  | CSession v => bool_decide (lr_session_id r = v)
  | CStatus v => lr_status_code r =? v
  | CErrors => (400 <=? lr_status_code r) || bool_decide (lr_error_msg r ≠ "")
  | CKeyword kw => LIKE kw (lr_error_msg r) || LIKE kw (lr_id r)
  | CStart ts => negb (String.ltb (lr_timestamp r) ts)
  | CEnd ts => negb (String.ltb ts (lr_timestamp r))
  end.

Definition matching (f : LogFilter) (db : list logRow) : list logRow :=
  filter (λ r, forallb (condHolds r) (conditions f) = true) db.

Definition scanRequestLog (r : logRow) : RequestLog :=
  {| log_ID := lr_id r; log_SessionID := lr_session_id r;
     log_Timestamp := ParseOrZero slow (lr_timestamp r); log_APIKeyID := lr_api_key_id r;
     log_ModelAlias := lr_model_alias r; log_NodeID := lr_node_id r;
     log_ActualModel := lr_actual_model r; log_PromptTokens := lr_prompt_tokens r;
     log_CompletionTokens := lr_completion_tokens r; log_TotalTokens := lr_total_tokens r;
     log_DurationMs := lr_duration_ms r; log_StatusCode := lr_status_code r;
     log_Stream := negb (lr_stream r =? 0); log_ErrorMsg := lr_error_msg r;
     log_HasDetail := negb (lr_has_detail r =? 0) |}.

Definition QueryLogs (stmt : nat → result error (list logRow)) (f : LogFilter)
    : result error (list RequestLog * Z) :=
  match stmt 0%nat with
  | Err e => Err e
  | Ok db =>
      let total := Z.of_nat (length (matching f db)) in
      let '(limit, offset) := pageBounds f in
      match stmt 1%nat with
      | Err e => Err e
      | Ok db => Ok (scanRequestLog <$> limitOffset limit offset (newest (matching f db)), total)
      end
  end.

Definition ExportLogs (stmt : result error (list logRow)) (f : LogFilter)
    : result error (list RequestLog) :=
  match stmt with
  | Err e => Err e
  | Ok db => Ok (scanRequestLog <$> limitOffset 100000 0 (newest (matching f db)))
  end.

Definition GetDetail (stmt : result error (list detailRow)) (traceID : string)
    : result error (option DetailLog) :=
  match stmt with
  | Err e => Err e
  | Ok db =>
      Ok (r ← head (filter (λ r, dr_trace_id r = traceID) db);
          Some {| dl_TraceID := dr_trace_id r; dl_SessionID := dr_session_id r;
                  dl_Timestamp := ParseOrZero slow (dr_timestamp r);
                  dl_RequestBody := dr_request_body r; dl_ResponseBody := dr_response_body r |})
  end.

Definition Stats (stmt : result error (list logRow)) (f : LogFilter) : result error LogStats :=
  match stmt with
  | Err e => Err e
  | Ok db => match sums (matching f db) with Some s => Ok s | None => Err overflow end
  end.

Definition seriesPoint (g : option string * list logRow) : result error TimeSeriesPoint :=
  match g.1 with
  | None => Err scanError
  | Some bucket =>
      Ok {| tp_Timestamp := ParseOrZero slow bucket; tp_Requests := Z.of_nat (length g.2);
            tp_PromptTokens := sumZ lr_prompt_tokens g.2;
            tp_CompletionTokens := sumZ lr_completion_tokens g.2;
            tp_TotalTokens := sumZ lr_total_tokens g.2 |}
  end.

Definition StatsTimeSeries (stmt : result error (list logRow)) (f : LogFilter) (granularity : string)
    : result error (list TimeSeriesPoint) :=
  match stmt with
  | Err e => Err e
  | Ok db =>
      let bucket r := strftime (bucketFormat granularity) (lr_timestamp r) in
      let groups := groupsOf bucket (matching f db) in
      if noOverflow groups then scanAll seriesPoint (merge_sort groupLe groups) else Err overflow
  end.

(** [AVG] is a [REAL], [SUM / COUNT] an integer division. *)
Definition topEntity (g : string * list logRow) : result error TopEntity :=
  let n := Z.of_nat (length g.2) in
  match scanReal (fdiv (of_int (sumZ lr_duration_ms g.2)) (of_int n)) with
  | None => Err scanError
  | Some avg =>
      Ok {| te_Name := g.1; te_Requests := n; te_TotalTokens := sumZ lr_total_tokens g.2;
            te_PromptTokens := sumZ lr_prompt_tokens g.2;
            te_CompletionTokens := sumZ lr_completion_tokens g.2;
            te_AvgDurationMs := avg; te_AvgTokens := Z.quot (sumZ lr_total_tokens g.2) n |}
  end.

Definition StatsTop (stmt : result error (list logRow)) (f : LogFilter) (groupBy : string) (limit : Z)
    : result error (list TopEntity) :=
  match stmt with
  | Err e => Err e
  | Ok db =>
      let groups := groupsOf (topColumnValue (topColumnOf groupBy)) (matching f db) in
      if noOverflow groups
      then scanAll topEntity (limitOffset (topLimit limit) 0 (ranked groups)) else Err overflow
  end.

(** ** Round trips *)

Lemma boolToInt_back b : negb (boolToInt b =? 0) = b.
Proof. by destruct b. Qed.

Lemma scan_logArgs log : rfcRange (log_Timestamp log) → scanRequestLog (logArgs log) = log.
Proof.
  intros Ht. unfold scanRequestLog. simpl. rewrite !boolToInt_back, ParseOrZero_FormatTime by done.
  by destruct log.
Qed.

Lemma scan_logArgs_list logs :
  Forall (λ log, rfcRange (log_Timestamp log)) logs → scanRequestLog <$> (logArgs <$> logs) = logs.
Proof.
  intros Hl. rewrite <-list_fmap_compose. induction Hl as [|log logs Ht Hl IH]; [done|].
  cbn [fmap list_fmap]. rewrite IH. f_equal. by apply scan_logArgs.
Qed.

(** Inserting rows keeps the first entry of each ID, like the abstract table of
    the logging pipeline. *)
Lemma insert_fmap {A R} (args : A → R) (id : R → string) (tbl : list A) (xs : list A) :
  fold_left (insertOrIgnore id) (args <$> xs) (args <$> tbl) =
  args <$> fold_left (AsyncLog.insertIgnore (id ∘ args)) xs tbl.
Proof.
  revert tbl. induction xs as [|x xs IH]; intros tbl; [done|]. simpl. rewrite <-IH. f_equal.
  unfold insertOrIgnore, AsyncLog.insertIgnore. rewrite <-list_fmap_compose.
  change (id (args x)) with ((id ∘ args) x). case_bool_decide; [done|]. by rewrite fmap_app.
Qed.

Lemma insertAll_elem {A} (key : A → string) tbl xs :
  ∀ x, x ∈ fold_left (AsyncLog.insertIgnore key) xs tbl → x ∈ tbl ∨ x ∈ xs.
Proof.
  revert tbl. induction xs as [|y xs IH]; intros tbl x Hx; simpl in Hx; [by left|].
  apply IH in Hx. unfold AsyncLog.insertIgnore in Hx. case_bool_decide; set_solver.
Qed.

(** What a lookup by ID finds is the first entry offered under it. *)
Lemma insertIgnore_first {A} (key : A → string) (k : string) db x xs :
  head (filter (λ y, key y = k) (AsyncLog.insertIgnore key db x ++ xs)) =
  head (filter (λ y, key y = k) (db ++ x :: xs)).
Proof.
  unfold AsyncLog.insertIgnore. case_bool_decide as Hx; [|by rewrite <-(assoc (++))].
  rewrite !filter_app, filter_cons. case_decide as Hk; [|done]. subst k.
  apply list_elem_of_fmap in Hx as (y & E & Hy).
  assert (y ∈ filter (λ y, key y = key x) db) as Hf by (apply list_elem_of_filter; auto).
  by destruct (filter _ db); [set_solver|].
Qed.

Lemma insertAll_first {A} (key : A → string) (k : string) db xs :
  head (filter (λ y, key y = k) (fold_left (AsyncLog.insertIgnore key) xs db)) =
  head (filter (λ y, key y = k) (db ++ xs)).
Proof.
  revert db. induction xs as [|x xs IH]; intros db; simpl; [by rewrite app_nil_r|].
  by rewrite IH, insertIgnore_first.
Qed.

Lemma bulkInsert_fmap {A R} (args : A → R) (id : R → string) (tbl xs : list A) :
  bulkInsert id None (args <$> xs) (args <$> tbl) =
  (args <$> fold_left (AsyncLog.insertIgnore (id ∘ args)) xs tbl, None).
Proof.
  unfold bulkInsert. case_bool_decide as Hl; [|by rewrite insert_fmap].
  apply nil_length_inv, fmap_nil_inv in Hl as ->. done.
Qed.

(** C19. Logs survive the database: entries written in a transaction (their
    timestamps in the years 0 to 9999) and read back are the entries written,
    every field and the timestamp to the nanosecond, the first one for each ID;
    looking a detail record up by its trace ID gives the first one offered
    under it, or none. *)
Theorem log_roundtrip (tbl logs : list RequestLog) (dtbl ds : list DetailLog) :
  Forall (λ log, rfcRange (log_Timestamp log)) (tbl ++ logs) →
  Forall (λ d, rfcRange (dl_Timestamp d)) (dtbl ++ ds) →
  (∃ rows, BulkInsertRequestLogs None logs (logArgs <$> tbl) = (rows, None) ∧
     scanRequestLog <$> rows = fold_left (AsyncLog.insertIgnore log_ID) logs tbl) ∧
  (∃ rows, BulkInsertDetailLogs None ds (detailArgs <$> dtbl) = (rows, None) ∧
     ∀ traceID, GetDetail (Ok rows) traceID = Ok (head (filter (λ d, dl_TraceID d = traceID) (dtbl ++ ds)))).
Proof.
  intros Hl Hd. unfold BulkInsertRequestLogs, BulkInsertDetailLogs.
  rewrite !bulkInsert_fmap. split; (eexists; split; [done|]).
  - apply scan_logArgs_list, Forall_forall. intros x Hx%insertAll_elem.
    rewrite Forall_forall in Hl. apply Hl. set_solver.
  - intros traceID. unfold GetDetail. f_equal.
    rewrite <-(insertAll_first dl_TraceID). change (dr_trace_id ∘ detailArgs) with dl_TraceID.
    set (tb := fold_left _ ds dtbl).
    assert (Forall (λ d, rfcRange (dl_Timestamp d)) tb) as Htb.
    { apply Forall_forall. intros x Hx%insertAll_elem. rewrite Forall_forall in Hd. apply Hd. set_solver. }
    clearbody tb. induction Htb as [|d tb Ht Htb IH]; [done|]. cbn [fmap list_fmap].
    rewrite !filter_cons. change (dr_trace_id (detailArgs d)) with (dl_TraceID d).
    case_decide; [|done]. simpl. rewrite ParseOrZero_FormatTime by done. by destruct d.
Qed.

(** ** Pages *)

Definition atPage (p : Z) (f : LogFilter) : LogFilter :=
  {| lf_APIKeyID := lf_APIKeyID f; lf_ModelAlias := lf_ModelAlias f; lf_NodeID := lf_NodeID f;
     lf_SessionID := lf_SessionID f; lf_StatusCode := lf_StatusCode f; lf_ErrorOnly := lf_ErrorOnly f;
     lf_Keyword := lf_Keyword f; lf_StartTime := lf_StartTime f; lf_EndTime := lf_EndTime f;
     lf_Page := p; lf_PageSize := lf_PageSize f |}.

(** ** What a filter selects *)

(** An entry has the fields a filter asks for. *)
Definition fieldsMatch (f : LogFilter) (log : RequestLog) : Prop :=
  (lf_APIKeyID f ≠ "" → log_APIKeyID log = lf_APIKeyID f) ∧
  (lf_ModelAlias f ≠ "" → log_ModelAlias log = lf_ModelAlias f) ∧
  (lf_NodeID f ≠ "" → log_NodeID log = lf_NodeID f) ∧
  (lf_SessionID f ≠ "" → log_SessionID log = lf_SessionID f) ∧
  (0 < lf_StatusCode f → log_StatusCode log = lf_StatusCode f) ∧
  (lf_ErrorOnly f = true → 400 ≤ log_StatusCode log ∨ log_ErrorMsg log ≠ "") ∧
  (lf_Keyword f ≠ "" → let pat := "%" +:+ lf_Keyword f +:+ "%" in
     LIKE pat (log_ErrorMsg log) = true ∨ LIKE pat (log_ID log) = true).

Definition since (f : LogFilter) (log : RequestLog) : bool :=
  match lf_StartTime f with
  | Some t => negb (String.ltb (FormatTime (log_Timestamp log)) (FormatTime t)) | None => true end.
Definition until (f : LogFilter) (log : RequestLog) : bool :=
  match lf_EndTime f with
  | Some t => negb (String.ltb (FormatTime t) (FormatTime (log_Timestamp log))) | None => true end.

(** The entries a filter asks for; times are compared by their texts, which
    differs from comparing the times within a second only. *)
Definition selected (f : LogFilter) (log : RequestLog) : Prop :=
  fieldsMatch f log ∧ since f log = true ∧ until f log = true.

#[global] Instance fieldsMatch_dec f log : Decision (fieldsMatch f log).
Proof. unfold fieldsMatch. cbv zeta. apply _. Defined.
#[global] Instance selected_dec f log : Decision (selected f log).
Proof. unfold selected. apply _. Defined.

(** The conditions sent select these entries. *)
Lemma conditions_select f log :
  forallb (condHolds (logArgs log)) (conditions f) = true ↔ selected f log.
Proof.
  unfold selected, conditions, fieldsMatch, since, until. rewrite !forallb_app, !andb_true_iff.
  assert (∀ (P : Prop) `{Decision P} c, forallb (condHolds (logArgs log)) (if bool_decide P then [c] else []) = true
    ↔ (P → condHolds (logArgs log) c = true)) as Hif.
  { intros P ? c. case_bool_decide; simpl; rewrite ?andb_true_r; naive_solver. }
  rewrite !Hif. simpl. rewrite !bool_decide_eq_true.
  assert (forallb (condHolds (logArgs log)) (if 0 <? lf_StatusCode f then [CStatus (lf_StatusCode f)] else []) = true
    ↔ (0 < lf_StatusCode f → log_StatusCode log = lf_StatusCode f)) as ->.
  { destruct (Z.ltb_spec 0 (lf_StatusCode f)); simpl; rewrite ?andb_true_r, ?Z.eqb_eq; [naive_solver|].
    split; [lia|done]. }
  assert (forallb (condHolds (logArgs log)) (if lf_ErrorOnly f then [CErrors] else []) = true
    ↔ (lf_ErrorOnly f = true → 400 ≤ log_StatusCode log ∨ log_ErrorMsg log ≠ "")) as ->.
  { destruct (lf_ErrorOnly f); simpl; [|naive_solver].
    rewrite andb_true_r, orb_true_iff, Z.leb_le, bool_decide_eq_true. naive_solver. }
  rewrite !orb_true_iff.
  destruct (lf_StartTime f), (lf_EndTime f); simpl; rewrite ?andb_true_r;
    (split; [intros (?&?&?&?&?&?&?&?&?)|intros ((?&?&?&?&?&?&?)&?&?)]; split_and!; assumption).
Qed.

(** Times to the second: a selected entry lies within the window, and an entry
    with the requested fields whose second lies strictly inside it is selected
    (times in the years 0 to 9999). *)
Lemma selected_window f log :
  rfcRange (log_Timestamp log) → (∀ t, lf_StartTime f = Some t ∨ lf_EndTime f = Some t → rfcRange t) →
  (selected f log →
     (∀ t, lf_StartTime f = Some t → Unix t ≤ Unix (log_Timestamp log)) ∧
     (∀ t, lf_EndTime f = Some t → Unix (log_Timestamp log) ≤ Unix t)) ∧
  (fieldsMatch f log → (∀ t, lf_StartTime f = Some t → Unix t < Unix (log_Timestamp log)) →
     (∀ t, lf_EndTime f = Some t → Unix (log_Timestamp log) < Unix t) → selected f log).
Proof.
  intros Hr Ht. unfold selected, since, until. split.
  - intros (Hf & Hs & He). split; intros t E; rewrite E in *; bools; apply FormatTime_ltb_false; eauto.
  - intros Hf Hs He. split_and!; [done|..].
    + destruct (lf_StartTime f) as [t|]; [|done]. apply negb_true_iff.
      unfold String.ltb. rewrite String.compare_antisym, FormatTime_lt; auto.
    + destruct (lf_EndTime f) as [t|]; [|done]. apply negb_true_iff.
      unfold String.ltb. rewrite String.compare_antisym, FormatTime_lt; auto.
Qed.

(** At the edges the comparison of texts decides: an entry half a second after a
    window that starts on a whole second is left out. *)
Theorem filter_edge (f : LogFilter) (log : RequestLog) :
  lf_StartTime f = Some 0 → log_Timestamp log = 500 * Millisecond → ¬ selected f log.
Proof. intros Hs Hts (_ & H & _). unfold since in H. rewrite Hs, Hts in H. by vm_compute in H. Qed.

Lemma matching_fmap f tbl : matching f (logArgs <$> tbl) = logArgs <$> filter (selected f) tbl.
Proof.
  unfold matching. induction tbl as [|log tbl IH]; [done|]. cbn [fmap list_fmap].
  rewrite !filter_cons, IH. pose proof (conditions_select f log). repeat case_decide; tauto.
Qed.

Lemma pageBounds_first f p :
  (pageBounds (atPage p f)).1 = (pageBounds (atPage 1 f)).1 ∧ (pageBounds (atPage 1 f)).2 = 0.
Proof. done. Qed.

Lemma QueryLogs_page f db i :
  1 ≤ lf_PageSize f → (Z.of_nat i + 1) * lf_PageSize f < 2 ^ 63 →
  QueryLogs (λ _, Ok db) (atPage (Z.of_nat i + 1) f) =
  Ok (scanRequestLog <$> take (Z.to_nat (lf_PageSize f))
        (drop (i * Z.to_nat (lf_PageSize f)) (newest (matching f db))),
      Z.of_nat (length (matching f db))).
Proof.
  intros Hn Hlt. unfold QueryLogs, pageBounds. simpl.
  rewrite !(proj2 (Z.ltb_ge _ 1)) by lia.
  rewrite Z.add_simpl_r, (wrap64_id (Z.of_nat i)) by (unfold in_int64; nia).
  rewrite wrap64_id by (unfold in_int64; nia).
  unfold limitOffset. rewrite (proj2 (Z.ltb_ge _ 0)) by lia.
  replace (Z.to_nat (Z.of_nat i * lf_PageSize f)) with (i * Z.to_nat (lf_PageSize f))%nat by nia.
  done.
Qed.

(** The law of [ORDER BY timestamp DESC]. *)
Definition newest_law : Prop :=
  ∀ l, newest l ≡ₚ l ∧
       StronglySorted (λ r r', notBefore (lr_timestamp r) (lr_timestamp r')) (newest l).

Lemma sorted_logs (rows : list logRow) (tbl : list RequestLog) :
  Forall (λ log, rfcRange (log_Timestamp log)) tbl → rows ≡ₚ logArgs <$> tbl →
  StronglySorted (λ r r', notBefore (lr_timestamp r) (lr_timestamp r')) rows →
  scanRequestLog <$> rows ≡ₚ tbl ∧
  StronglySorted (λ a b, Unix (log_Timestamp b) ≤ Unix (log_Timestamp a)) (scanRequestLog <$> rows).
Proof.
  intros Ht Hp Hs. split; [by rewrite Hp, scan_logArgs_list|].
  assert (∀ r, r ∈ rows → ∃ log, r = logArgs log ∧ rfcRange (log_Timestamp log)) as Hin.
  { intros r Hr. rewrite Hp in Hr. apply list_elem_of_fmap in Hr as (log & -> & Hlog).
    rewrite Forall_forall in Ht. eauto. }
  clear Ht Hp. induction Hs as [|r rows Hs IH Hr]; [constructor|]. cbn [fmap list_fmap].
  constructor; [apply IH; intros; apply Hin; set_solver|].
  destruct (Hin r) as (log & -> & Hlog); [set_solver|].
  apply Forall_fmap. rewrite Forall_forall in Hr |- *. intros r' Hr'.
  destruct (Hin r') as (log' & -> & Hlog'); [set_solver|]. specialize (Hr _ Hr').
  unfold compose. rewrite !scan_logArgs by done. exact (FormatTime_ltb_false _ _ Hlog Hlog' Hr).
Qed.


(** ** The texts *)

Fixpoint placeholders (s : string) : nat :=
  match s with
  | "" => 0
  | String c s => (if Ascii.eqb c "?" then 1 else 0) + placeholders s
  end%nat.

Lemma placeholders_app s s' : placeholders (s +:+ s') = (placeholders s + placeholders s')%nat.
Proof.
  induction s as [|c s IH]; [done|]. rewrite append_cons. cbn [placeholders]. rewrite IH. lia.
Qed.

Lemma placeholders_conds conds :
  placeholders (Join (condText <$> conds) " AND ") = length (conds ≫= condArgs).
Proof.
  induction conds as [|c conds IH]; [done|].
  assert (placeholders (condText c) = length (condArgs c)) as Hc by by destruct c.
  destruct conds as [|c' conds].
  - simpl. by rewrite Hc, app_nil_r.
  - rewrite bind_cons, length_app, <-IH. cbn [fmap list_fmap Join].
    rewrite !placeholders_app, Hc. reflexivity.
Qed.

Lemma placeholders_free s : free_of "?" s = true → placeholders s = 0%nat.
Proof.
  induction s as [|c s IH]; [done|]. cbn [free_of placeholders]. intros [Hc Hs]%andb_true_iff.
  apply negb_true_iff in Hc. by rewrite Hc, IH.
Qed.

Lemma placeholders_int z : placeholders (FormatInt z) = 0%nat.
Proof. apply placeholders_free. by apply FormatInt_free. Qed.

Lemma topLimit_idem limit : topLimit (topLimit limit) = topLimit limit.
Proof.
  unfold topLimit. destruct (Z.leb_spec limit 0), (Z.ltb_spec 100 limit); simpl; try done.
  by rewrite (proj2 (Z.leb_gt limit 0)), (proj2 (Z.ltb_ge 100 limit)) by lia.
Qed.

(** Which conditions a filter asks for, without their values. *)
Definition shape (f : LogFilter) : list bool :=
  [bool_decide (lf_APIKeyID f ≠ ""); bool_decide (lf_ModelAlias f ≠ "");
   bool_decide (lf_NodeID f ≠ ""); bool_decide (lf_SessionID f ≠ ""); 0 <? lf_StatusCode f;
   lf_ErrorOnly f; bool_decide (lf_Keyword f ≠ "");
   match lf_StartTime f with Some _ => true | None => false end;
   match lf_EndTime f with Some _ => true | None => false end].

Lemma shape_conds f f' : shape f = shape f' → condText <$> conditions f = condText <$> conditions f'.
Proof.
  unfold shape, conditions. intros E.
  injection E as E1 E2 E3 E4 E5 E6 E7 E8 E9. rewrite E1, E2, E3, E4, E5, E6, E7.
  rewrite !fmap_app. 
  do 7 (apply (f_equal2 app); [by match goal with |- context [if ?b then _ else _] => destruct b end|]).
  apply (f_equal2 app).
  - by destruct (lf_StartTime f), (lf_StartTime f').
  - by destruct (lf_EndTime f), (lf_EndTime f').
Qed.

(** C21. No text of a request reaches the SQL of the log queries.  Listing,
    counting, export, totals, time series and ranking each have exactly one
    placeholder per bound argument of the filter, and two filters that set the
    same fields give the same text whatever the values.  What is printed into
    the text instead is the page's two numbers, one of two bucket formats, one of
    three columns, and a limit between 1 and 100. *)
Theorem sql_text_closed (f : LogFilter) (groupBy granularity : string) (limit : Z) :
  let args := (buildLogFilter f).2 in
  Forall (λ text, placeholders text = length args)
    [countText f; queryText f; exportText f; statsText f; seriesText f granularity; topText f groupBy limit] ∧
  (∀ f', shape f = shape f' →
     countText f = countText f' ∧ exportText f = exportText f' ∧ statsText f = statsText f' ∧
     seriesText f granularity = seriesText f' granularity ∧ topText f groupBy limit = topText f' groupBy limit ∧
     (pageBounds f = pageBounds f' → queryText f = queryText f')) ∧
  seriesText f granularity ∈ [seriesText f "day"; seriesText f "hour"] ∧
  ∃ column n, column ∈ ["model_alias"; "api_key_id"; "node_id"] ∧ 1 ≤ n ≤ 100 ∧
    topText f groupBy limit = topText f column n.
Proof.
  intros args. assert (∀ f', shape f = shape f' → (buildLogFilter f).1 = (buildLogFilter f').1) as Hshape.
  { intros f' E. apply shape_conds in E. unfold buildLogFilter. rewrite E.
    apply (f_equal length) in E. rewrite !length_fmap in E. rewrite E. by case_bool_decide. }
  assert (placeholders (buildLogFilter f).1 = length args) as Hw.
  { unfold args, buildLogFilter. case_bool_decide as Hl; cbn [fst snd].
    - apply nil_length_inv in Hl. by rewrite Hl.
    - by rewrite placeholders_app, placeholders_conds. }
  split_and!.
  - unfold countText, queryText, exportText, statsText, seriesText, topText. destruct (pageBounds f) as [lim off].
    repeat (apply Forall_cons; split); [..|done]; rewrite !placeholders_app, ?placeholders_int, Hw; try (simpl; lia).
    + unfold bucketFormat. case_bool_decide; simpl; lia.
    + destruct (topColumnOf groupBy); simpl; lia.
  - intros f' E. unfold countText, exportText, queryText, statsText, seriesText, topText. rewrite (Hshape f' E).
    split_and!; try done. intros ->. by destruct (pageBounds f').
  - unfold seriesText, bucketFormat. case_bool_decide; simpl; set_solver.
  - exists (topColumnText (topColumnOf groupBy)), (topLimit limit). split_and!.
    + unfold topColumnOf. repeat case_bool_decide; set_solver.
    + unfold topLimit. destruct (Z.leb_spec limit 0), (Z.ltb_spec 100 limit); simpl; lia.
    + unfold topLimit. destruct (Z.leb_spec limit 0), (Z.ltb_spec 100 limit); simpl; lia.
    + unfold topText. rewrite topLimit_idem. by destruct (topColumnOf groupBy).
Qed.

(** ** Statistics *)

(** The points of a series carry the sums of their groups. *)
Lemma series_sum (val : TimeSeriesPoint → Z) col gs pts :
  (∀ g p, seriesPoint g = Ok p → val p = sumZ col g.2) →
  Forall2 (λ g p, seriesPoint g = Ok p) gs pts → sumZ val pts = sumZ col (mjoin gs.*2).
Proof.
  intros Hv Hf. rewrite sumZ_join. unfold sumZ.
  induction Hf as [|g p gs pts Hg Hf IH]; [done|]. cbn [fmap list_fmap foldr].
  rewrite (Hv _ _ Hg). f_equal. exact IH.
Qed.

Definition sum_points (pts : list TimeSeriesPoint) : LogStats :=
  {| ls_TotalRequests := sumZ tp_Requests pts; ls_PromptTokens := sumZ tp_PromptTokens pts;
     ls_CompletionTokens := sumZ tp_CompletionTokens pts; ls_TotalTokens := sumZ tp_TotalTokens pts |}.

(** The law of [ORDER BY tokens DESC]. *)
Definition ranked_law : Prop :=
  ∀ l, ranked l ≡ₚ l ∧
       StronglySorted (λ g g', sumZ lr_total_tokens g'.2 ≤ sumZ lr_total_tokens g.2) (ranked l).

Lemma topEntity_spec g t :
  topEntity g = Ok t →
  te_Name t = g.1 ∧ te_Requests t = Z.of_nat (length g.2) ∧
  te_TotalTokens t = sumZ lr_total_tokens g.2 ∧ te_PromptTokens t = sumZ lr_prompt_tokens g.2 ∧
  te_CompletionTokens t = sumZ lr_completion_tokens g.2.
Proof. unfold topEntity. destruct (scanReal _); [|done]. by intros [= <-]. Qed.

Lemma seriesPoint_spec g p :
  seriesPoint g = Ok p →
  tp_Requests p = sumZ (λ _, 1) g.2 ∧ tp_PromptTokens p = sumZ lr_prompt_tokens g.2 ∧
  tp_CompletionTokens p = sumZ lr_completion_tokens g.2 ∧ tp_TotalTokens p = sumZ lr_total_tokens g.2.
Proof. unfold seriesPoint. rewrite sumZ_ones. destruct (g.1); [|done]. by intros [= <-]. Qed.

Lemma series_totals db f granularity pts s :
  StatsTimeSeries (Ok db) f granularity = Ok pts → Stats (Ok db) f = Ok s → s = sum_points pts.
Proof.
  intros Hp Hs. unfold StatsTimeSeries in Hp. unfold Stats in Hs.
  destruct (noOverflow _); [|done]. apply scanAll_spec in Hp.
  destruct (sums (matching f db)) as [s'|] eqn:Es; [|done]. injection Hs as <-.
  apply sums_total in Es as ->. unfold sum_points. rewrite <-sumZ_ones.
  set (key := λ r, strftime (bucketFormat granularity) (lr_timestamp r)) in Hp.
  pose proof (groupsOf_join key (matching f db)) as Hg.
  pose proof (merge_sort_Permutation groupLe (groupsOf key (matching f db))) as Hm.
  set (gs := merge_sort _ _) in Hp, Hm. rewrite <-Hm in Hg.
  f_equal; symmetry; (etrans; [eapply (series_sum _ _ gs); [|done]; intros; by apply seriesPoint_spec|]);
    by rewrite Hg.
Qed.

Lemma top_groups db f groupBy g :
  ranked_law →
  g ∈ ranked (groupsOf (topColumnValue (topColumnOf groupBy)) (matching f db)) →
  g.2 = filter (λ r, topColumnValue (topColumnOf groupBy) r = g.1) (matching f db) ∧ g.2 ≠ [].
Proof.
  intros Hrank Hg. rewrite (proj1 (Hrank _)) in Hg.
  apply list_elem_of_fmap in Hg as (k & -> & Hk). simpl. split; [done|].
  apply elem_of_remove_dups, list_elem_of_fmap in Hk as (r & Er & Hr). intros Hnil.
  assert (r ∈ filter (λ r, topColumnValue (topColumnOf groupBy) r = k) (matching f db)) as Hf
    by (apply list_elem_of_filter; auto).
  rewrite Hnil in Hf. set_solver.
Qed.

(** C22. The statistics agree with each other and with the logs: the buckets of a
    time series, by hour or by day and whatever the engine's [strftime] does,
    add up to the summary of the same filter; the ranking lists at most 100
    distinct names, by falling token counts, each with the number of matching
    entries under that name and their token sums. *)
Theorem stats_agree (db : list logRow) (f : LogFilter) (granularity groupBy : string) (limit : Z) :
  ranked_law →
  (∀ pts s, StatsTimeSeries (Ok db) f granularity = Ok pts → Stats (Ok db) f = Ok s →
     s = sum_points pts) ∧
  (∀ tops, StatsTop (Ok db) f groupBy limit = Ok tops →
     Z.of_nat (length tops) ≤ 100 ∧ NoDup (te_Name <$> tops) ∧
     StronglySorted (λ t t', te_TotalTokens t' ≤ te_TotalTokens t) tops ∧
     ∀ t, t ∈ tops →
       let rs := filter (λ r, topColumnValue (topColumnOf groupBy) r = te_Name t) (matching f db) in
       rs ≠ [] ∧ te_Requests t = Z.of_nat (length rs) ∧ te_TotalTokens t = sumZ lr_total_tokens rs ∧
       te_PromptTokens t = sumZ lr_prompt_tokens rs ∧
       te_CompletionTokens t = sumZ lr_completion_tokens rs).
Proof.
  intros Hrank. split; [intros pts s; by apply series_totals|].
  intros tops Ht. unfold StatsTop in Ht. destruct (noOverflow _); [|done]. apply scanAll_spec in Ht.
  assert (1 ≤ topLimit limit ≤ 100) as Hlim.
  { unfold topLimit. destruct (Z.leb_spec limit 0), (Z.ltb_spec 100 limit); simpl; lia. }
  unfold limitOffset in Ht. rewrite (proj2 (Z.ltb_ge _ 0)) in Ht by lia.
  change (Z.to_nat 0) with 0%nat in Ht. rewrite drop_0 in Ht.
  pose proof (Hrank (groupsOf (topColumnValue (topColumnOf groupBy)) (matching f db))) as [Hp Hs].
  split_and!.
  - apply Forall2_length in Ht. rewrite <-Ht, length_take. lia.
  - apply (Forall2_fmap_eq _ fst te_Name) in Ht; [|intros ?? E; symmetry; apply topEntity_spec, E].
    rewrite <-Ht. eapply sublist_NoDup; [|apply fmap_sublist, sublist_take].
    rewrite Hp, groupsOf_keys. apply NoDup_remove_dups.
  - eapply StronglySorted_Forall2; [|exact Ht|by apply StronglySorted_take].
    intros x x' y y' Hle (_ & _ & E & _)%topEntity_spec (_ & _ & E' & _)%topEntity_spec.
    rewrite E, E'. exact Hle.
  - intros t Hin. destruct (Forall2_elem_r _ _ _ _ Ht Hin) as (g & Hg & Hgt).
    apply elem_of_take in Hg as (i & Hg & _). apply list_elem_of_lookup_2 in Hg.
    destruct (top_groups db f groupBy g Hrank Hg) as [E Hne].
    apply topEntity_spec in Hgt as (-> & -> & -> & -> & ->). by rewrite <-E.
Qed.

End queries.

(** ** Concrete orders and tables *)

Definition demo_newest : list logRow → list logRow := merge_sort (descending lr_timestamp).

Lemma demo_newest_law : newest_law demo_newest.
Proof. intros l. apply (merge_sort_sorts (descending lr_timestamp)). Qed.

Definition moreTokens (g g' : string * list logRow) : Prop :=
  sumZ lr_total_tokens g'.2 ≤ sumZ lr_total_tokens g.2.
#[global] Instance moreTokens_dec : RelDecision moreTokens.
Proof. intros g g'. unfold moreTokens. apply _. Defined.
#[global] Instance moreTokens_trans : Transitive moreTokens.
Proof. intros g g' g''. unfold moreTokens. lia. Qed.
#[global] Instance moreTokens_total : Total moreTokens.
Proof. intros g g'. unfold moreTokens. lia. Qed.

Definition demo_ranked : list (string * list logRow) → list (string * list logRow) :=
  merge_sort moreTokens.

Lemma demo_ranked_law : ranked_law demo_ranked.
Proof. intros l. apply (merge_sort_sorts moreTokens). Qed.

Definition demo_log (id model : string) (ts tokens ms : Z) : RequestLog :=
  {| log_ID := id; log_SessionID := ""; log_Timestamp := ts; log_APIKeyID := "k"; log_ModelAlias := model;
     log_NodeID := "n"; log_ActualModel := ""; log_PromptTokens := 1; log_CompletionTokens := tokens - 1;
     log_TotalTokens := tokens; log_DurationMs := ms; log_StatusCode := 200; log_Stream := false;
     log_ErrorMsg := ""; log_HasDetail := true |}.

Definition demo_logs : list RequestLog :=
  [demo_log "a" "m1" (1000 * Second) 10 100; demo_log "b" "m2" (5000 * Second + 5) 30 200;
   demo_log "c" "m1" (3000 * Second) 5 101].

Definition demo_filter : LogFilter :=
  {| lf_APIKeyID := "k"; lf_ModelAlias := ""; lf_NodeID := ""; lf_SessionID := ""; lf_StatusCode := 0;
     lf_ErrorOnly := false; lf_Keyword := ""; lf_StartTime := None; lf_EndTime := None; lf_Page := 1;
     lf_PageSize := 2 |}.

(** The hour of a timestamp text, as [strftime] computes it. *)
Definition demo_hour (fmt ts : string) : option string := Some (strtake 13 ts +:+ ":00:00Z").

Definition noSlow (s : string) : option Z := None.
Definition demo_error (msg : string) : error := mkError OtherError msg.

(** The ranking fails on ordinary data: the average duration is a [REAL]
    that is read into an [int64], which succeeds only for whole values below a
    million.  Two entries of 100 and 101 ms under one model make the whole
    ranking an error; so does one entry of 1000000 ms, while the summary of the
    same entries is fine. *)
Theorem stats_top_fails :
  let top := StatsTop (λ _ _, true) demo_ranked (demo_error "overflow") (demo_error "scan") in
  let summary := Stats (λ _ _, true) (demo_error "overflow") in
  let slowLog := [demo_log "a" "m1" 0 10 1000000] in
  top (Ok (logArgs <$> demo_logs)) demo_filter "model_alias" 10 = Err (demo_error "scan") ∧
  top (Ok (logArgs <$> slowLog)) demo_filter "model_alias" 10 = Err (demo_error "scan") ∧
  (∃ s, summary (Ok (logArgs <$> demo_logs)) demo_filter = Ok s ∧ ls_TotalTokens s = 45) ∧
  (∃ tops, top (Ok (logArgs <$> take 2 demo_logs)) demo_filter "model_alias" 10 = Ok tops ∧
     te_Name <$> tops = ["m2"; "m1"]).
Proof. vm_compute. split_and!; [done|done|by eexists|by eexists]. Qed.

(** ** Witnesses *)

Lemma demo_range : Forall (λ log, rfcRange (log_Timestamp log)) demo_logs.
Proof. repeat constructor; vm_compute; discriminate. Qed.

Lemma log_roundtrip_witness :
  ∃ rows, BulkInsertRequestLogs None demo_logs (logArgs <$> []) = (rows, None) ∧
    scanRequestLog noSlow <$> rows = fold_left (AsyncLog.insertIgnore log_ID) demo_logs [].
Proof. apply (log_roundtrip noSlow [] demo_logs [] []); [exact demo_range|constructor]. Defined.


(** The edge of a window, and an entry inside it. *)
Lemma filter_edge_demo :
  let f := {| lf_APIKeyID := "k"; lf_ModelAlias := ""; lf_NodeID := ""; lf_SessionID := "";
              lf_StatusCode := 0; lf_ErrorOnly := false; lf_Keyword := ""; lf_StartTime := Some 0;
              lf_EndTime := None; lf_Page := 1; lf_PageSize := 2 |} in
  ¬ selected (λ _ _, true) f (demo_log "a" "m1" (500 * Millisecond) 10 100) ∧
  selected (λ _ _, true) f (demo_log "a" "m1" (2 * Second) 10 100).
Proof.
  intros f. split; [by apply filter_edge|]. apply conditions_select. by vm_compute.
Qed.

Lemma stats_agree_witness :
  ∃ pts s, StatsTimeSeries noSlow (λ _ _, true) demo_hour (demo_error "overflow") (demo_error "scan")
             (Ok (logArgs <$> demo_logs)) demo_filter "hour" = Ok pts ∧ length pts = 2%nat ∧
    Stats (λ _ _, true) (demo_error "overflow") (Ok (logArgs <$> demo_logs)) demo_filter = Ok s ∧
    s = sum_points pts.
Proof.
  eexists _, _. split; [vm_compute; reflexivity|]. split; [vm_compute; reflexivity|].
  split; [vm_compute; reflexivity|].
  apply (stats_agree noSlow (λ _ _, true) demo_hour demo_ranked (demo_error "overflow")
    (demo_error "scan") (logArgs <$> demo_logs) demo_filter "hour" "" 0 demo_ranked_law);
    vm_compute; reflexivity.
Defined.

End LogStore.
