(* ===== verification/LogPipeline.v ===== *)
(** * storage.Logger: from the handlers to the queries

    The interface [storage.Logger] of [src/internal/storage/interfaces.go] and
    its implementation [AsyncLogger] of [src/internal/logging/logger.go], whose
    writes go through the tiers of [AsyncLog] and whose queries go straight to
    the tables of [LogStore].  The tables are those of a database that was empty
    when the logger was made and from which the cleaner has removed nothing;
    [fails i] is the error of the [i]-th statement of a query. *)
From S2P Require Import Prelude GoStd GoFloat GoTime Domain AsyncLog LogStore.

Module Pipeline.
Import AsyncLog LogStore.

(** The methods of [storage.Logger] that handlers and the management API call. *)
Class Logger (L : Type) := {
  lgAsyncLog : RequestLog → L → L;
  lgAsyncLogDetail : DetailLog → L → L;
  lgQueryLogs : LogFilter → L → result error (list RequestLog * Z);
  lgExportLogs : LogFilter → L → result error (list RequestLog);
  lgGetDetail : string → L → result error (option DetailLog);
  lgStats : LogFilter → L → result error LogStats;
  lgStatsTimeSeries : LogFilter → string → L → result error (list TimeSeriesPoint);
  lgStatsTop : LogFilter → string → Z → L → result error (list TopEntity);
}.

Record AsyncLogger := mkLogger {
  al_requests : Tier (A := RequestLog);
  al_details : Tier (A := DetailLog);
}.

(** [New]: both channels have the same capacity. *)
Definition NewLogger (bufferSize : nat) : AsyncLogger := mkLogger (New bufferSize) (New bufferSize).

(** The rows of the tables. *)
Definition logTable (l : AsyncLogger) : list logRow := logArgs <$> bk_db (t_books (al_requests l)).
Definition detailTable (l : AsyncLogger) : list detailRow := detailArgs <$> bk_db (t_books (al_details l)).

Section logger.
Context (slow : string → option Z) (LIKE : string → string → bool).
Context (strftime : string → string → option string).
Context (newest : list logRow → list logRow).
Context (ranked : list (string * list logRow) → list (string * list logRow)).
Context (overflow scanError : error).
Context (fails : nat → option error).

(** What the [i]-th statement of a query finds. *)
Definition found {A} (i : nat) (rows : A) : result error A :=
  match fails i with Some e => Err e | None => Ok rows end.

#[local] Instance async_logger : Logger AsyncLogger := {|
  lgAsyncLog x l := mkLogger (Log x (al_requests l)) (al_details l);
  lgAsyncLogDetail d l := mkLogger (al_requests l) (Log d (al_details l));
  lgQueryLogs f l := QueryLogs slow LIKE newest (λ i, found i (logTable l)) f;
  lgExportLogs f l := ExportLogs slow LIKE newest (found 0 (logTable l)) f;
  lgGetDetail traceID l := GetDetail slow (found 0 (detailTable l)) traceID;
  lgStats f l := Stats LIKE overflow (found 0 (logTable l)) f;
  lgStatsTimeSeries f g l := StatsTimeSeries slow LIKE strftime overflow scanError (found 0 (logTable l)) f g;
  lgStatsTop f g n l := StatsTop LIKE ranked overflow scanError (found 0 (logTable l)) f g n;
|}.

(** ** What the queries see *)

(** A step of a handler, of one of the workers, or of a call of [Flush] or
    [Close]. *)
Definition logStep (l l' : AsyncLogger) : Prop :=
  (∃ c t, requestTier c (al_requests l) = Some t ∧ l' = mkLogger t (al_details l)) ∨
  (∃ c t, detailTier c (al_details l) = Some t ∧ l' = mkLogger (al_requests l) t).

Definition bothOk (cap : nat) (l : AsyncLogger) : Prop :=
  tier_ok log_ID requestBatch cap (al_requests l) ∧ tier_ok dl_TraceID detailBatch cap (al_details l).

Lemma logStep_ok cap l l' : bothOk cap l → logStep l l' → bothOk cap l'.
Proof.
  intros [Hr Hd] [(c & t & Hc & ->)|(c & t & Hc & ->)]; split; try done; simpl;
    (eapply lstep_ok; [|done|by exists c]; unfold requestBatch, detailBatch; lia).
Qed.

Lemma reached_ok cap l : rtc logStep (NewLogger cap) l → bothOk cap l.
Proof.
  apply (rtc_invariant logStep (bothOk cap)); [apply logStep_ok|].
  split; apply NewTier_ok; unfold requestBatch, detailBatch; lia.
Qed.

Lemma filter_unique {A} (key : A → string) db x :
  NoDup (key <$> db) → x ∈ db → filter (λ y, key y = key x) db = [x].
Proof.
  induction db as [|y db IH]; [by intros _ ?%elem_of_nil|]. simpl. intros [Hy Hn]%NoDup_cons [->|Hx]%elem_of_cons.
  - rewrite filter_cons_True by done. f_equal. apply filter_nothing, Forall_forall. intros z Hz E. apply Hy.
    rewrite <-E. by apply list_elem_of_fmap_2.
  - rewrite filter_cons_False; [by apply IH|]. intros E. apply Hy. rewrite E. by apply list_elem_of_fmap_2.
Qed.

(** The rows of a table, and an entry that is alone under its key. *)
Lemma row_of_committed {A} (key : A → string) (b : Books (A := A)) x :
  books_ok key b → x ∈ bk_committed b → (∀ y, y ∈ bk_committed b → key y = key x → y = x) → x ∈ bk_db b.
Proof.
  intros [_ Hk Hr] Hx Hone. assert (key x ∈ key <$> bk_db b) as Hin by (apply Hk; by apply list_elem_of_fmap_2).
  apply list_elem_of_fmap in Hin as (y & E & Hy). by rewrite <-(Hone y (Hr y Hy) (eq_sym E)).
Qed.

Lemma rows_offered {A} key batchMax cap (t : Tier (A := A)) x :
  tier_ok key batchMax cap t → x ∈ bk_db (t_books t) → x ∈ bk_offered (t_books t).
Proof.
  intros Hok Hx. rewrite (lo_conserved _ _ _ _ Hok). unfold settled.
  pose proof (bo_rows _ _ (lo_books _ _ _ _ Hok) x Hx). set_solver.
Qed.

(** The export of a table of scanned entries. *)
Lemma export_rows f db :
  newest_law newest → Forall (λ log, rfcRange (log_Timestamp log)) db →
  let rows := filter (selected LIKE f) db in
  Z.of_nat (length rows) ≤ 100000 →
  ∃ logs, ExportLogs slow LIKE newest (Ok (logArgs <$> db)) f = Ok logs ∧ logs ≡ₚ rows.
Proof.
  intros Hnew Hr rows Hlen. destruct (Hnew (matching LIKE f (logArgs <$> db))) as [Hp _].
  eexists. split; [reflexivity|]. unfold limitOffset. rewrite drop_0, (proj2 (Z.ltb_ge 100000 0)) by lia.
  rewrite matching_fmap in Hp |- *. fold rows in Hp |- *. rewrite take_ge by (rewrite Hp, length_fmap; lia).
  rewrite Hp, scan_logArgs_list; [done|]. by apply Forall_filter_keep.
Qed.

Lemma scan_detail d :
  rfcRange (dl_Timestamp d) →
  {| dl_TraceID := dr_trace_id (detailArgs d); dl_SessionID := dr_session_id (detailArgs d);
     dl_Timestamp := ParseOrZero slow (dr_timestamp (detailArgs d));
     dl_RequestBody := dr_request_body (detailArgs d); dl_ResponseBody := dr_response_body (detailArgs d) |} = d.
Proof. intros Hd. simpl. rewrite ParseOrZero_FormatTime by done. by destruct d. Qed.

Lemma filter_rows {A R} (args : A → R) (key : A → string) (id : R → string) k (db : list A) :
  (∀ x, id (args x) = key x) → filter (λ r, id r = k) (args <$> db) = args <$> filter (λ x, key x = k) db.
Proof.
  intros Hk. induction db as [|x db IH]; [done|]. cbn [fmap list_fmap]. rewrite !filter_cons, Hk.
  case_decide; [|done]. cbn [fmap list_fmap]. by f_equal.
Qed.

(** C27. What is logged can be queried: start with empty tables and let handlers,
    workers and flushes interleave in any way (no cleaner runs).  When at most
    100000 stored entries have what a filter asks for (the fields, and times
    within the window as [since] and [until] compare them), the export holds
    exactly these; every one was offered by a handler, and a request entry in a
    committed transaction that has what is asked for, if no other has its ID, is
    among them.  A detail entry is found under its trace ID. *)
Theorem logged_is_queryable (cap : nat) (l : AsyncLogger) (f : LogFilter) :
  newest_law newest → fails 0%nat = None → rtc logStep (NewLogger cap) l →
  Forall (λ x, rfcRange (log_Timestamp x)) (bk_offered (t_books (al_requests l))) →
  Forall (λ d, rfcRange (dl_Timestamp d)) (bk_offered (t_books (al_details l))) →
  let rows := filter (selected LIKE f) (bk_db (t_books (al_requests l))) in
  Z.of_nat (length rows) ≤ 100000 →
  ∃ logs, lgExportLogs f l = Ok logs ∧ logs ≡ₚ rows ∧
    (∀ x, x ∈ logs → x ∈ bk_offered (t_books (al_requests l)) ∧ fieldsMatch LIKE f x ∧
       since f x = true ∧ until f x = true) ∧
    (∀ x, x ∈ bk_committed (t_books (al_requests l)) → selected LIKE f x →
       (∀ y, y ∈ bk_committed (t_books (al_requests l)) → log_ID y = log_ID x → y = x) → x ∈ logs) ∧
    (∀ d, d ∈ bk_committed (t_books (al_details l)) →
       (∀ e, e ∈ bk_committed (t_books (al_details l)) → dl_TraceID e = dl_TraceID d → e = d) →
       lgGetDetail (dl_TraceID d) l = Ok (Some d)).
Proof.
  intros Hnew Hf Hr Hx Hd rows Hlen. destruct (reached_ok cap l Hr) as [Hreq Hdet].
  rewrite Forall_forall in Hx. rewrite Forall_forall in Hd. simpl. unfold found. rewrite Hf.
  destruct (export_rows f (bk_db (t_books (al_requests l))) Hnew) as (logs & E & Hp); [|done|].
  { apply Forall_forall. intros x Hin. apply Hx. by eapply rows_offered. }
  exists logs. split_and!; [exact E|exact Hp| | |].
  - intros x. rewrite Hp. intros [Hsel Hin]%list_elem_of_filter. split; [by eapply rows_offered|exact Hsel].
  - intros x Hc Hm Hone. rewrite Hp. apply list_elem_of_filter. split; [done|].
    eapply row_of_committed; [apply Hreq|done|done].
  - intros d Hc Hone. assert (d ∈ bk_db (t_books (al_details l))) as Hin
      by (eapply row_of_committed; [apply Hdet|done|done]).
    unfold detailTable, GetDetail. rewrite (filter_rows detailArgs dl_TraceID dr_trace_id) by done.
    rewrite (filter_unique dl_TraceID _ d) by (done || apply Hdet). cbn [fmap list_fmap head mbind option_bind].
    rewrite scan_detail; [done|]. apply Hd. by eapply rows_offered.
Qed.

End logger.

(** ** The whole [Flush] *)

Section flush.
Context {A : Type} (key : A → string) (batchMax : nat).
Implicit Types t : Tier (A := A).

(** [Flush] on a tier when no other goroutine runs in between: what is in the
    channel goes into one transaction. *)
Definition flushTier (commits : bool) t : Tier (A := A) :=
  if bool_decide (length (t_ch t) = 0%nat) then t
  else set_books (transact key commits (t_ch t) (t_books t)) (set_ch [] t).

Definition flushCalls (commits : bool) (n : nat) : list (lcall (A := A)) :=
  CFlush :: replicate (S n) (CTake 0) ++ [CCommit commits 0].

Lemma takes_run commits logs t :
  t_flushes t = [mkFlush logs false] →
  runCalls key batchMax (replicate (S (length (t_ch t))) (CTake 0) ++ [CCommit commits 0]) t
  = Some (let t' := set_flushes [] (set_ch [] t) in
          if bool_decide (length (logs ++ t_ch t) = 0%nat) then t'
          else set_books (transact key commits (logs ++ t_ch t) (t_books t)) t').
Proof.
  remember (t_ch t) as ch eqn:Ech. revert logs t Ech. induction ch as [|x ch IH]; intros logs t Ech Hf.
  - simpl. unfold flushTake. rewrite Hf, <-Ech. simpl. unfold flushCommit. simpl. rewrite app_nil_r.
    case_bool_decide; destruct t; simpl in *; by subst.
  - change (replicate (S (length (x :: ch))) (CTake 0) ++ [CCommit commits 0])
      with (CTake (A := A) 0 :: (replicate (S (length ch)) (CTake 0) ++ [CCommit commits 0])).
    cbn [runCalls lexec]. unfold flushTake. rewrite Hf, <-Ech. cbn [lookup list_lookup mbind option_bind].
    rewrite (IH (logs ++ [x])); [|done|done]. cbn [set_ch set_flushes t_ch t_flushes t_books]. by rewrite <-app_assoc.
Qed.

(** The steps of a call of [Flush], one after the other, are its result. *)
Lemma flush_runs commits t :
  t_flushes t = [] → runCalls key batchMax (flushCalls commits (length (t_ch t))) t = Some (flushTier commits t).
Proof.
  intros Hf. unfold flushCalls. cbn [runCalls lexec mbind option_bind].
  pose proof (takes_run commits [] (flushStart t)) as Ht. simpl in Ht. rewrite Hf in Ht. specialize (Ht eq_refl).
  change (t_ch (flushStart t)) with (t_ch t) in Ht. simpl. simpl in Ht. rewrite Ht. unfold flushTier. f_equal.
  destruct t as [ch cp st ph ba fl bk]. simpl in *. subst fl. case_bool_decide as E; [|done].
  by apply nil_length_inv in E as ->.
Qed.
End flush.

Definition Flush (commitsRequests commitsDetails : bool) (l : AsyncLogger) : AsyncLogger :=
  mkLogger (flushTier log_ID commitsRequests (al_requests l)) (flushTier dl_TraceID commitsDetails (al_details l)).

(** ** A concrete run *)

Lemma request_calls cs l t :
  runCalls log_ID requestBatch cs (al_requests l) = Some t → rtc logStep l (mkLogger t (al_details l)).
Proof.
  revert l. induction cs as [|c cs IH]; intros l; simpl; [intros [= <-]; by destruct l|].
  intros (t1 & Hc & Hr)%bind_Some. eapply rtc_l; [left; by exists c, t1|]. by apply (IH (mkLogger t1 (al_details l))).
Qed.

Definition demo_tier : Tier (A := RequestLog) :=
  default (New 8) (runCalls log_ID requestBatch ((CLog <$> demo_logs) ++ flushCalls true 3) (New 8)).

Definition demo_logger : AsyncLogger := mkLogger demo_tier (New 8).

Lemma logged_is_queryable_witness :
  ∃ logs, ExportLogs noSlow (λ _ _, false) demo_newest (Ok (logTable demo_logger)) demo_filter = Ok logs ∧
    bk_committed (t_books demo_tier) = demo_logs ∧
    ∀ x, x ∈ logs → x ∈ bk_offered (t_books (al_requests demo_logger)).
Proof.
  destruct (logged_is_queryable noSlow (λ _ _, false) (λ _ _, None) demo_newest id (demo_error "") (demo_error "") (λ _, None)
    8 demo_logger demo_filter) as (logs & E & _ & Hin & _).
  - apply demo_newest_law.
  - done.
  - apply (request_calls ((CLog <$> demo_logs) ++ flushCalls true 3) (NewLogger 8)). by vm_compute.
  - apply demo_range.
  - constructor.
  - vm_compute. by intros.
  - exists logs. split_and!; [exact E|by vm_compute|intros x Hx; exact (proj1 (Hin x Hx))].
Defined.

End Pipeline.
