(* ===== verification/Retention.v ===== *)
(** * Log retention: the pruning statements and the cleaner

    [PruneRequestLogs], [PruneDetailLogs], the size estimates and the pruning by
    size of [storage/sqlite/logger.go], and the [RetentionCleaner] of
    [logging/retention.go].  Both tables are pruned by the same statements, which
    are written once for a table with columns [id] and [ts].  The rows that
    [ORDER BY timestamp] puts first among equals are the engine's choice
    ([newest], [oldest]), and so is [LENGTH].  [fails i] is the error of the
    [i]-th statement, if it fails; no row is inserted while a pruning call
    runs. *)
From S2P Require Import Prelude GoStd GoFloat GoTime GoJson Domain AsyncLog LogStore.
Import LogStore.

Module Retention.

Section table.
Context {R : Type} (id ts : R → string) (bytes : R → Z).
(** [ORDER BY timestamp DESC] and [ASC]. *)
Context (newest oldest : list R → list R).

(** [DELETE ... WHERE id IN (ids)]. *)
Definition deleteIDs (ids : list string) (db : list R) : list R := filter (λ r, id r ∉ ids) db.

(** [time.Now().UTC().AddDate(0, 0, -maxDays).Format(time.RFC3339Nano)]. *)
Definition cutoff (now maxDays : Z) : string := FormatTime (now - maxDays * daySeconds * Second).

Definition deleteBefore (c : string) (db : list R) : list R := filter (λ r, notBefore (ts r) c) db.

(** [LIMIT -1 OFFSET maxRows]. *)
Definition beyond (maxRows : Z) (db : list R) : list string := id <$> limitOffset (-1) maxRows (newest db).

Definition prune (fails : nat → option error) (now maxRows maxDays : Z) (db : list R)
    : list R * option error :=
  let '(db, e) :=
    if 0 <? maxDays then
      match fails 0%nat with
      | Some e => (db, Some e)
      | None => (deleteBefore (cutoff now maxDays) db, None)
      end
    else (db, None) in
  match e with
  | Some e => (db, Some e)
  | None =>
      if 0 <? maxRows then
        match fails 1%nat with
        | Some e => (db, Some e)
        | None => (deleteIDs (beyond maxRows db) db, None)
        end
      else (db, None)
  end.

(** [COALESCE(SUM(...), 0)] of the sizes of the rows. *)
Definition tableSize (db : list R) : option Z := sqlSum 0 (bytes <$> db).

Definition wrapErr (pre : string) (e : error) : error := mkError (err_Kind e) (pre +:+ err_Msg e).

(** The loop of the pruning by size: [i] statements have run; [None] when the
    fuel runs out. *)
Fixpoint sizeLoop (fails : nat → option error) (overflow : error) (what : string) (batch : nat)
    (maxBytes : Z) (fuel i : nat) (db : list R) : option (list R * option error) :=
  match fuel with
  | O => None
  | S fuel =>
      match fails i, tableSize db with
      | Some e, _ => Some (db, Some (wrapErr "size check: " e))
      | None, None => Some (db, Some (wrapErr "size check: " overflow))
      | None, Some size =>
          if size <=? maxBytes then Some (db, None)
          else
            match fails (S i) with
            | Some e => Some (db, Some (wrapErr what e))
            | None =>
                sizeLoop fails overflow what batch maxBytes fuel (2 + i)
                  (deleteIDs (id <$> limitOffset (Z.of_nat batch) 0 (oldest db)) db)
            end
      end
  end.

Definition pruneBySize (fails : nat → option error) (overflow : error) (what : string) (batch : nat)
    (maxBytes : Z) (db : list R) : option (list R * option error) :=
  if maxBytes <=? 0 then Some (db, None)
  else sizeLoop fails overflow what batch maxBytes (S (length db)) 0 db.

(** ** One tier of a cleaning cycle *)

Definition mb : Z := 1024 * 1024.

(** The part of [clean] for one table: the rows left, and whether it counts as
    pruned.  The two size checks around the loop are logged only; a failed check
    before it reads as size 0 and skips the loop. *)
Definition cleanTier (fails : nat → nat → option error) (overflow : error) (what : string)
    (batch : nat) (now maxRows maxDays maxSizeMB : Z) (db : list R)
    : option (list R * bool) :=
  let '(db, e) := prune (fails 0%nat) now maxRows maxDays db in
  let pruned := match e with Some _ => false | None => (0 <? maxRows) || (0 <? maxDays) end in
  if 0 <? maxSizeMB then
    let maxBytes := wrap64 (maxSizeMB * mb) in
    let before := match fails 1%nat 0%nat, tableSize db with None, Some size => size | _, _ => 0 end in
    if maxBytes <? before then
      match pruneBySize (fails 2%nat) overflow what batch maxBytes db with
      | None => None
      | Some (db, Some _) => Some (db, pruned)
      | Some (db, None) => Some (db, true)
      end
    else Some (db, pruned)
  else Some (db, pruned).

(** ** What the statements delete *)

(** The rows kept come from the table and none of them is older than a row that
    is gone. *)
Definition keepsNewest (db kept : list R) : Prop :=
  ∃ gone, db ≡ₚ kept ++ gone ∧ ∀ k g, k ∈ kept → g ∈ gone → notBefore (ts k) (ts g).

Lemma keepsNewest_refl db : keepsNewest db db.
Proof. exists []. split; [by rewrite app_nil_r|set_solver]. Qed.

Lemma keepsNewest_trans db db1 db2 : keepsNewest db db1 → keepsNewest db1 db2 → keepsNewest db db2.
Proof.
  intros (g1 & Hp1 & H1) (g2 & Hp2 & H2). exists (g2 ++ g1). split; [by rewrite Hp1, Hp2, (assoc (++))|].
  intros k g Hk [Hg|Hg]%elem_of_app; [by apply H2|]. apply H1; [|done]. rewrite Hp2. set_solver.
Qed.

Lemma keepsNewest_NoDup db kept : NoDup (id <$> db) → keepsNewest db kept → NoDup (id <$> kept).
Proof. intros Hnd (g & Hp & _). rewrite Hp, fmap_app in Hnd. by apply NoDup_app in Hnd as [? _]. Qed.

(** Deleting the IDs of a part of the table leaves the other part. *)
Lemma deleteIDs_part db l1 l2 :
  NoDup (id <$> db) → db ≡ₚ l1 ++ l2 → deleteIDs (id <$> l2) db ≡ₚ l1.
Proof.
  intros Hnd Hp. rewrite Hp, fmap_app in Hnd. apply NoDup_app in Hnd as (_ & Hd & _).
  unfold deleteIDs. rewrite Hp, filter_app.
  rewrite (filter_nothing _ l2), (filter_everything _ l1); [by rewrite app_nil_r|..];
    apply Forall_forall; set_solver.
Qed.

Lemma deleteIDs_shrinks ids db r : r ∈ db → id r ∈ ids → (length (deleteIDs ids db) < length db)%nat.
Proof. intros Hr Hid. apply (length_filter_lt _ _ r); [done|]. auto. Qed.

Lemma deleteBefore_keeps c db :
  keepsNewest db (deleteBefore c db) ∧ Forall (λ r, notBefore (ts r) c) (deleteBefore c db).
Proof.
  unfold deleteBefore. split; [|apply Forall_forall; by intros r [? _]%list_elem_of_filter].
  exists (filter (λ r, ¬ notBefore (ts r) c) db).
  split; [symmetry; apply filter_app_complement|].
  intros k g [Hk _]%list_elem_of_filter [Hg _]%list_elem_of_filter.
  destruct (total notBefore (ts g) c) as [?|Hc]; [done|]. by transitivity c.
Qed.

(** The laws of the two orders. *)
Definition orders_law : Prop :=
  (∀ l, newest l ≡ₚ l ∧ StronglySorted (λ r r', notBefore (ts r) (ts r')) (newest l)) ∧
  (∀ l, oldest l ≡ₚ l ∧ StronglySorted (λ r r', notBefore (ts r') (ts r)) (oldest l)).

Lemma deleteBeyond_keeps maxRows db :
  orders_law → NoDup (id <$> db) → 0 < maxRows →
  keepsNewest db (deleteIDs (beyond maxRows db) db) ∧
  Z.of_nat (length (deleteIDs (beyond maxRows db) db)) ≤ maxRows.
Proof.
  intros [Hn _] Hnd Hm. destruct (Hn db) as [Hp Hs].
  assert (db ≡ₚ take (Z.to_nat maxRows) (newest db) ++ drop (Z.to_nat maxRows) (newest db)) as Hsplit
    by (by rewrite take_drop).
  assert (deleteIDs (beyond maxRows db) db ≡ₚ take (Z.to_nat maxRows) (newest db)) as Hd
    by (by apply deleteIDs_part).
  split; [|rewrite Hd, length_take; lia].
  exists (drop (Z.to_nat maxRows) (newest db)). split; [by rewrite Hd|].
  rewrite <-(take_drop (Z.to_nat maxRows) (newest db)) in Hs.
  intros k g Hk Hg. rewrite Hd in Hk. by apply (StronglySorted_app_1_elem_of _ _ _ _ _ Hs).
Qed.

Lemma deleteOldest_keeps batch db :
  orders_law → NoDup (id <$> db) →
  keepsNewest db (deleteIDs (id <$> limitOffset (Z.of_nat batch) 0 (oldest db)) db).
Proof.
  intros [_ Ho] Hnd. destruct (Ho db) as [Hp Hs]. unfold limitOffset.
  rewrite (proj2 (Z.ltb_ge _ 0)), Nat2Z.id by lia. change (Z.to_nat 0) with 0%nat. rewrite drop_0.
  assert (deleteIDs (id <$> take batch (oldest db)) db ≡ₚ drop batch (oldest db)) as Hd.
  { apply deleteIDs_part; [done|]. by rewrite Permutation_app_comm, take_drop. }
  exists (take batch (oldest db)). split; [by rewrite Hd, Permutation_app_comm, take_drop|].
  rewrite <-(take_drop batch (oldest db)) in Hs.
  intros k g Hk Hg. rewrite Hd in Hk. by apply (StronglySorted_app_1_elem_of _ _ _ _ _ Hs).
Qed.

(** A pruning call that does not fail. *)
Lemma prune_keeps now maxRows maxDays db :
  orders_law → NoDup (id <$> db) →
  let '(db', e) := prune (λ _, None) now maxRows maxDays db in
  e = None ∧ keepsNewest db db' ∧ (0 < maxRows → Z.of_nat (length db') ≤ maxRows) ∧
  (0 < maxDays → Forall (λ r, notBefore (ts r) (cutoff now maxDays)) db').
Proof.
  intros Ho Hnd. unfold prune.
  set (db1 := if 0 <? maxDays then deleteBefore (cutoff now maxDays) db else db).
  assert ((if 0 <? maxDays then (deleteBefore (cutoff now maxDays) db, None) else (db, None)) =
    (db1, @None error)) as -> by (unfold db1; by destruct (0 <? maxDays)).
  assert (keepsNewest db db1 ∧ (0 < maxDays → Forall (λ r, notBefore (ts r) (cutoff now maxDays)) db1))
    as [Hk1 Hd1].
  { unfold db1. destruct (Z.ltb_spec 0 maxDays); [|split; [apply keepsNewest_refl|lia]].
    by split; [|intros _]; apply deleteBefore_keeps. }
  destruct (Z.ltb_spec 0 maxRows) as [Hm|Hm]; [|split_and!; [done|done|lia|done]].
  destruct (deleteBeyond_keeps maxRows db1 Ho (keepsNewest_NoDup _ _ Hnd Hk1) Hm) as [Hk2 Hl].
  split_and!; [done|by eapply keepsNewest_trans|done|]. intros Hdays.
  destruct Hk2 as (g & Hp & _). specialize (Hd1 Hdays). rewrite Hp in Hd1. by apply Forall_app in Hd1 as [? _].
Qed.

(** ** The loop ends *)

Lemma tableSize_nil : tableSize [] = Some 0.
Proof. done. Qed.

Lemma sqlSum_mono acc acc' (l l' : list R) :
  l' `sublist_of` l → 0 ≤ acc' ≤ acc → Forall (λ r, 0 ≤ bytes r) l →
  is_Some (sqlSum acc (bytes <$> l)) → is_Some (sqlSum acc' (bytes <$> l')).
Proof.
  intros Hsub. revert acc acc'. induction Hsub as [|r l' l Hsub IH|r l' l Hsub IH]; intros acc acc' Ha Hpos Hs;
    [done|..]; apply Forall_cons in Hpos as [Hr Hpos]; cbn [fmap list_fmap sqlSum] in *;
    case_bool_decide as Hi; try (by destruct Hs); unfold in_int64 in *.
  - rewrite bool_decide_true by lia. eapply IH; [|done|exact Hs]. lia.
  - eapply IH; [|done|exact Hs]. lia.
Qed.

Lemma sqlSum_exact acc (l : list R) :
  0 ≤ acc → Forall (λ r, 0 ≤ bytes r) l →
  is_Some (sqlSum acc (bytes <$> l)) ↔ l = [] ∨ acc + sumZ bytes l < 2 ^ 63.
Proof.
  intros Ha Hpos. revert acc Ha. induction Hpos as [|r l Hr Hpos IH]; intros acc Ha.
  { split; [by left|by eexists]. }
  cbn [fmap list_fmap sqlSum]. rewrite sumZ_cons. pose proof (sumZ_nonneg _ _ Hpos) as Hl.
  case_bool_decide as Hi; unfold in_int64 in Hi.
  - fold (bytes <$> l). rewrite IH by lia. split; [intros [->|?]; right; unfold sumZ in *; simpl in *; lia|].
    intros [?|?]; [done|]. right. lia.
  - split; [by intros [? ?]|]. intros [?|?]; [done|]. lia.
Qed.

Lemma tableSize_part db l1 l2 :
  db ≡ₚ l1 ++ l2 → Forall (λ r, 0 ≤ bytes r) db → is_Some (tableSize db) → is_Some (tableSize l1).
Proof.
  intros Hp Hpos Hs. unfold tableSize in *. apply sqlSum_exact in Hs; [|done..].
  rewrite Hp in Hpos. apply Forall_app in Hpos as [H1 H2]. apply sqlSum_exact; [done..|].
  destruct Hs as [->|Hs]; [apply Permutation_nil_l in Hp; left; by destruct l1|].
  right. rewrite Hp, sumZ_app in Hs. pose proof (sumZ_nonneg _ _ H2). lia.
Qed.

Lemma tableSize_filter ids db size :
  Forall (λ r, 0 ≤ bytes r) db → tableSize db = Some size → is_Some (tableSize (deleteIDs ids db)).
Proof.
  intros Hpos Hs. eapply (sqlSum_mono 0 0 db); [|lia|done|by eexists].
  apply sublist_filter.
Qed.

Lemma oldest_elem batch db :
  orders_law → db ≠ [] → (0 < batch)%nat →
  ∃ r, r ∈ db ∧ id r ∈ id <$> limitOffset (Z.of_nat batch) 0 (oldest db).
Proof.
  intros [_ Ho] Hne Hb. destruct (Ho db) as [Hp _].
  destruct (oldest db) as [|r l] eqn:E; [by apply Permutation_nil_l in Hp|].
  exists r. split; [rewrite <-Hp; set_solver|]. unfold limitOffset.
  rewrite (proj2 (Z.ltb_ge _ 0)), Nat2Z.id by lia. simpl. destruct batch; [lia|]. simpl. set_solver.
Qed.

Lemma sizeLoop_ends fails overflow what batch maxBytes fuel i db :
  orders_law → 0 < maxBytes → (0 < batch)%nat → (length db < fuel)%nat →
  is_Some (sizeLoop fails overflow what batch maxBytes fuel i db).
Proof.
  intros Ho Hmax Hb. revert i db. induction fuel as [|fuel IH]; intros i db Hl; [lia|]. simpl.
  destruct (fails i); [done|]. destruct (tableSize db) as [size|] eqn:Es; [|done].
  destruct (Z.leb_spec size maxBytes) as [|Hlt]; [done|].
  change (S i) with (1 + i)%nat. destruct (fails (1 + i)%nat); [done|]. apply IH.
  assert (db ≠ []) as Hne by (intros ->; rewrite tableSize_nil in Es; simplify_eq; lia).
  destruct (oldest_elem batch db Ho Hne Hb) as (r & Hr & Hid).
  pose proof (deleteIDs_shrinks _ db r Hr Hid). lia.
Qed.

Lemma sizeLoop_spec overflow what batch maxBytes fuel i db db' e :
  orders_law → NoDup (id <$> db) → is_Some (tableSize db) → Forall (λ r, 0 ≤ bytes r) db →
  sizeLoop (λ _, None) overflow what batch maxBytes fuel i db = Some (db', e) →
  e = None ∧ keepsNewest db db' ∧ ∃ size, tableSize db' = Some size ∧ size ≤ maxBytes.
Proof.
  intros Ho. revert i db. induction fuel as [|fuel IH]; intros i db Hnd [size Hs] Hpos HE; [done|].
  simpl in HE. rewrite Hs in HE. destruct (Z.leb_spec size maxBytes) as [Hle|Hlt].
  { simplify_eq. split_and!; [done|apply keepsNewest_refl|eauto]. }
  pose proof (deleteOldest_keeps batch db Ho Hnd) as Hk.
  apply IH in HE; [|by eapply keepsNewest_NoDup| |].
  - destruct HE as (-> & Hk' & Hsz). split_and!; [done|by eapply keepsNewest_trans|done].
  - by eapply tableSize_filter.
  - by apply Forall_filter_keep.
Qed.

(** The limits of a tier hold for the rows kept, in terms of time: a row that is
    gone is not from a later second than a row that is kept. *)
Definition tier_cleaned (now maxRows maxDays maxSizeMB : Z) (db kept : list R) : Prop :=
  (∃ gone, db ≡ₚ kept ++ gone ∧
     ∀ k g t u, k ∈ kept → g ∈ gone → ts k = FormatTime t → ts g = FormatTime u →
       rfcRange t → rfcRange u → Unix u ≤ Unix t) ∧
  (0 < maxRows → Z.of_nat (length kept) ≤ maxRows) ∧
  (0 < maxDays → ∀ r t, r ∈ kept → ts r = FormatTime t → rfcRange t →
     rfcRange (now - maxDays * daySeconds * Second) →
     Unix (now - maxDays * daySeconds * Second) ≤ Unix t) ∧
  (0 < maxSizeMB * mb < 2 ^ 63 → ∃ size, tableSize kept = Some size ∧ size ≤ maxSizeMB * mb).

Lemma cleanTier_spec overflow what batch now maxRows maxDays maxSizeMB db :
  orders_law → (0 < batch)%nat → NoDup (id <$> db) → is_Some (tableSize db) →
  Forall (λ r, 0 ≤ bytes r) db →
  ∃ db' pruned,
    cleanTier (λ _ _, None) overflow what batch now maxRows maxDays maxSizeMB db = Some (db', pruned) ∧
    tier_cleaned now maxRows maxDays maxSizeMB db db'.
Proof.
  intros Ho Hb Hnd Hsz Hpos. unfold cleanTier.
  pose proof (prune_keeps now maxRows maxDays db Ho Hnd) as Hpr.
  destruct (prune _ now maxRows maxDays db) as [db1 e]. destruct Hpr as (-> & Hk1 & Hrows & Hdays).
  assert (∀ db', keepsNewest db1 db' →
    (0 < maxSizeMB * mb < 2 ^ 63 → ∃ size, tableSize db' = Some size ∧ size ≤ maxSizeMB * mb) →
    tier_cleaned now maxRows maxDays maxSizeMB db db') as Hfin.
  { intros db' Hk Hsize. destruct (keepsNewest_trans _ _ _ Hk1 Hk) as (gone & Hp & Hnew).
    destruct Hk as (g1 & Hp1 & _). split_and!; [|intros Hm|intros Hm r t Hr E Ht Hc|done].
    - exists gone. split; [done|]. intros k g t u Hkin Hgin Ek Eg Ht Hu.
      apply FormatTime_ltb_false; [done..|]. rewrite <-Ek, <-Eg. by apply Hnew.
    - specialize (Hrows Hm). rewrite Hp1, length_app in Hrows. lia.
    - specialize (Hdays Hm). rewrite Hp1 in Hdays. apply Forall_app in Hdays as [Hd _].
      rewrite Forall_forall in Hd. specialize (Hd r Hr). apply FormatTime_ltb_false; [done..|].
      by rewrite <-E. }
  assert (keepsNewest db1 db1) as Hrefl by apply keepsNewest_refl.
  destruct (Z.ltb_spec 0 maxSizeMB) as [Hm|Hm];
    [|eexists _, _; split; [done|apply Hfin; [done|unfold mb; lia]]].
  destruct Hk1 as (g1 & Hp1 & _).
  assert (is_Some (tableSize db1) ∧ Forall (λ r, 0 ≤ bytes r) db1) as [[size Hs1] Hpos1].
  { rewrite Hp1 in Hpos. apply Forall_app in Hpos as [? ?]. split; [|done].
    apply (tableSize_part db db1 g1); [done| |done]. rewrite Hp1. by apply Forall_app. }
  rewrite Hs1. destruct (Z.ltb_spec (wrap64 (maxSizeMB * mb)) size) as [Hover|Hunder].
  - unfold pruneBySize. destruct (Z.leb_spec (wrap64 (maxSizeMB * mb)) 0) as [Hz|Hz].
    { eexists _, _. split; [done|]. apply Hfin; [done|]. intros Hr.
      rewrite wrap64_id in Hz by (unfold in_int64; lia). lia. }
    destruct (sizeLoop_ends (λ _, None) overflow what batch (wrap64 (maxSizeMB * mb)) (S (length db1)) 0 db1
      Ho Hz Hb ltac:(lia)) as [[db' e'] HE]. rewrite HE.
    apply sizeLoop_spec in HE as (-> & Hk & Hsize); [|done| |by eexists|done].
    + eexists _, _. split; [done|]. apply Hfin; [done|]. intros Hr.
      rewrite wrap64_id in Hsize by (unfold in_int64; lia). done.
    + rewrite Hp1, fmap_app in Hnd. by apply NoDup_app in Hnd as [? _].
  - eexists _, _. split; [done|]. apply Hfin; [done|]. intros Hr.
    rewrite wrap64_id in Hunder by (unfold in_int64; lia). eauto.
Qed.

Lemma cleanTier_ends fails overflow what batch now maxRows maxDays maxSizeMB db :
  orders_law → (0 < batch)%nat →
  is_Some (cleanTier fails overflow what batch now maxRows maxDays maxSizeMB db).
Proof.
  intros Ho Hb. unfold cleanTier. destruct (prune _ _ _ _ _) as [db1 e].
  destruct (0 <? maxSizeMB); [|done]. destruct (_ <? _); [|done]. unfold pruneBySize.
  destruct (Z.leb_spec (wrap64 (maxSizeMB * mb)) 0) as [Hz|Hz]; [done|].
  destruct (sizeLoop_ends (fails 2%nat) overflow what batch (wrap64 (maxSizeMB * mb)) (S (length db1)) 0 db1
    Ho Hz Hb ltac:(lia)) as [[db' [e'|]] ->]; done.
Qed.

End table.

(** ** The two tables *)

Section cleaner.
Context (LENGTH : string → Z).
Context (newestLogs oldestLogs : list logRow → list logRow).
Context (newestDetails oldestDetails : list detailRow → list detailRow).
Context (overflow : error).

(** The estimated size of a row. *)
Definition logBytes (r : logRow) : Z :=
  LENGTH (lr_id r) + LENGTH (lr_session_id r) + LENGTH (lr_timestamp r) + LENGTH (lr_api_key_id r) +
  LENGTH (lr_model_alias r) + LENGTH (lr_node_id r) + LENGTH (lr_actual_model r) +
  LENGTH (lr_error_msg r) + 64.

Definition detailBytes (r : detailRow) : Z :=
  LENGTH (dr_trace_id r) + LENGTH (dr_session_id r) + LENGTH (dr_timestamp r) +
  LENGTH (dr_request_body r) + LENGTH (dr_response_body r).

Definition RequestLogsSizeBytes (db : list logRow) : option Z := tableSize logBytes db.
Definition DetailLogsSizeBytes (db : list detailRow) : option Z := tableSize detailBytes db.

Definition PruneRequestLogs := prune lr_id lr_timestamp newestLogs.
Definition PruneDetailLogs := prune dr_trace_id dr_timestamp newestDetails.

Definition PruneRequestLogsBySize (fails : nat → option error) :=
  pruneBySize lr_id logBytes oldestLogs fails overflow "prune by size: " 500.
Definition PruneDetailLogsBySize (fails : nat → option error) :=
  pruneBySize dr_trace_id detailBytes oldestDetails fails overflow "prune detail by size: " 100.

(** ** The cleaner *)

Record RetentionCleaner := {
  rc_basicMaxRows : Z;
  rc_basicMaxDays : Z;
  rc_basicMaxSizeMB : Z;
  rc_detailMaxRows : Z;
  rc_detailMaxDays : Z;
  rc_detailMaxSizeMB : Z;
  rc_interval : Z;
}.

(** A cycle: the tables left and whether [PRAGMA incremental_vacuum] runs; the
    statements of the first tier are [fails 0], those of the second [fails 1],
    [now] the instants at which the two cutoffs are computed. *)
Definition clean (r : RetentionCleaner) (fails : nat → nat → nat → option error) (now : Z * Z)
    (db : list logRow * list detailRow) : option (list logRow * list detailRow * bool) :=
  ' (logs, pruned) ← cleanTier lr_id lr_timestamp logBytes newestLogs oldestLogs (fails 0%nat) overflow
    "prune by size: " 500 now.1 (rc_basicMaxRows r) (rc_basicMaxDays r) (rc_basicMaxSizeMB r) db.1;
  ' (details, pruned') ← cleanTier dr_trace_id dr_timestamp detailBytes newestDetails oldestDetails
    (fails 1%nat) overflow "prune detail by size: " 100 now.2 (rc_detailMaxRows r) (rc_detailMaxDays r)
    (rc_detailMaxSizeMB r) db.2;
  Some (logs, details, pruned || pruned').

(** C23. A retention cycle ends and enforces its limits: whatever statements
    fail, the loops that prune by size stop; and when none fails, each table is
    left with at most its configured rows, with no entry from a second before
    the cutoff, with an estimated size within its limit, and an entry that was
    removed is never from a later second than one that was kept. *)
Theorem retention_enforced (r : RetentionCleaner) (now : Z * Z)
    (logs : list logRow) (details : list detailRow) :
  (∀ s, 0 ≤ LENGTH s) →
  orders_law lr_timestamp newestLogs oldestLogs →
  orders_law dr_timestamp newestDetails oldestDetails →
  NoDup (lr_id <$> logs) → NoDup (dr_trace_id <$> details) →
  is_Some (RequestLogsSizeBytes logs) → is_Some (DetailLogsSizeBytes details) →
  (∀ fails, is_Some (clean r fails now (logs, details))) ∧
  ∃ logs' details' pruned, clean r (λ _ _ _, None) now (logs, details) = Some (logs', details', pruned) ∧
    tier_cleaned lr_timestamp logBytes now.1 (rc_basicMaxRows r) (rc_basicMaxDays r)
      (rc_basicMaxSizeMB r) logs logs' ∧
    tier_cleaned dr_timestamp detailBytes now.2 (rc_detailMaxRows r) (rc_detailMaxDays r)
      (rc_detailMaxSizeMB r) details details'.
Proof.
  intros HL Hol Hod Hnl Hnd Hsl Hsd. split.
  - intros fails. unfold clean. cbn [fst snd].
    destruct (cleanTier_ends lr_id lr_timestamp logBytes newestLogs oldestLogs (fails 0%nat) overflow
      "prune by size: " 500 now.1 (rc_basicMaxRows r) (rc_basicMaxDays r) (rc_basicMaxSizeMB r) logs Hol
      ltac:(lia)) as [[l p] ->].
    destruct (cleanTier_ends dr_trace_id dr_timestamp detailBytes newestDetails oldestDetails (fails 1%nat)
      overflow "prune detail by size: " 100 now.2 (rc_detailMaxRows r) (rc_detailMaxDays r)
      (rc_detailMaxSizeMB r) details Hod ltac:(lia)) as [[l' p'] ->]. done.
  - destruct (cleanTier_spec lr_id lr_timestamp logBytes newestLogs oldestLogs overflow "prune by size: " 500
      now.1 (rc_basicMaxRows r) (rc_basicMaxDays r) (rc_basicMaxSizeMB r) logs Hol ltac:(lia) Hnl Hsl)
      as (logs' & p & E & Hc).
    { apply Forall_forall. intros x _. unfold logBytes.
      pose proof (HL (lr_id x)). pose proof (HL (lr_session_id x)). pose proof (HL (lr_timestamp x)).
      pose proof (HL (lr_api_key_id x)). pose proof (HL (lr_model_alias x)). pose proof (HL (lr_node_id x)).
      pose proof (HL (lr_actual_model x)). pose proof (HL (lr_error_msg x)). lia. }
    destruct (cleanTier_spec dr_trace_id dr_timestamp detailBytes newestDetails oldestDetails overflow
      "prune detail by size: " 100 now.2 (rc_detailMaxRows r) (rc_detailMaxDays r) (rc_detailMaxSizeMB r)
      details Hod ltac:(lia) Hnd Hsd) as (details' & p' & E' & Hc').
    { apply Forall_forall. intros x _. unfold detailBytes.
      pose proof (HL (dr_trace_id x)). pose proof (HL (dr_session_id x)). pose proof (HL (dr_timestamp x)).
      pose proof (HL (dr_request_body x)). pose proof (HL (dr_response_body x)). lia. }
    unfold clean. cbn [fst snd]. rewrite E. cbn [mbind option_bind]. rewrite E'. by eexists _, _, _.
Qed.

End cleaner.

(** ** Witness *)

Section by_time.
Context {R : Type} (ts : R → string).
Definition laterBy (r r' : R) : Prop := notBefore (ts r) (ts r').
Definition earlierBy (r r' : R) : Prop := notBefore (ts r') (ts r).
#[global] Instance laterBy_dec : RelDecision laterBy.
Proof. intros r r'. unfold laterBy. apply _. Defined.
#[global] Instance earlierBy_dec : RelDecision earlierBy.
Proof. intros r r'. unfold earlierBy. apply _. Defined.
#[local] Instance laterBy_trans : Transitive laterBy.
Proof. intros r r' r''. unfold laterBy. apply transitivity. Qed.
#[local] Instance earlierBy_trans : Transitive earlierBy.
Proof. intros r r' r''. unfold earlierBy. intros. by transitivity (ts r'). Qed.
#[local] Instance laterBy_total : Total laterBy.
Proof. intros r r'. unfold laterBy. apply (total notBefore). Qed.
#[local] Instance earlierBy_total : Total earlierBy.
Proof. intros r r'. unfold earlierBy. apply (total notBefore). Qed.

Lemma sorted_orders : orders_law ts (merge_sort laterBy) (merge_sort earlierBy).
Proof.
  split; intros l; (split; [apply merge_sort_Permutation|]).
  - apply (StronglySorted_merge_sort laterBy).
  - apply (StronglySorted_merge_sort earlierBy).
Qed.
End by_time.

Definition demo_cleaner : RetentionCleaner :=
  {| rc_basicMaxRows := 2; rc_basicMaxDays := 30; rc_basicMaxSizeMB := 9; rc_detailMaxRows := 0;
     rc_detailMaxDays := 0; rc_detailMaxSizeMB := 0; rc_interval := 0 |}.

(** One million characters per text: two rows do not fit in nine megabytes, and
    the batch of 500 that is deleted next empties the table. *)
Definition demo_LENGTH (s : string) : Z := 1000000.

Definition demo_clean (fails : nat → nat → nat → option error) :=
  clean demo_LENGTH (merge_sort (laterBy lr_timestamp)) (merge_sort (earlierBy lr_timestamp))
    (merge_sort (laterBy dr_timestamp)) (merge_sort (earlierBy dr_timestamp)) (demo_error "overflow")
    demo_cleaner fails (86400 * Second, 86400 * Second) (logArgs <$> demo_logs, []).

Lemma retention_enforced_witness :
  (∀ fails, is_Some (demo_clean fails)) ∧ demo_clean (λ _ _ _, None) = Some ([], [], true).
Proof.
  split; [|vm_compute; reflexivity].
  apply (retention_enforced demo_LENGTH _ _ _ _ (demo_error "overflow") demo_cleaner
    (86400 * Second, 86400 * Second) (logArgs <$> demo_logs) []).
  - intros s. unfold demo_LENGTH. lia.
  - apply sorted_orders.
  - apply sorted_orders.
  - vm_compute. repeat constructor; set_solver.
  - constructor.
  - vm_compute. by eexists.
  - vm_compute. by eexists.
Defined.

End Retention.
