(* ===== verification/Store.v ===== *)
(** * storage/sqlite/storage.go: nodes and API keys

    The two tables are lists of rows; an upsert replaces the row with the same
    primary key or appends one, and the [UNIQUE] column of the key table makes
    it fail when another key has the value.  Instants, lists and maps are stored
    as text: the JSON encoders and decoders are arguments ([encList], [decList],
    [encMap], [decMap]; a decoder leaves the zero value when it fails), and so
    are the order that [ORDER BY] gives to equal names and the error of a
    violated constraint.  [fails] is the error of the statement when the driver
    fails; an error of [Scan], which the code returns in the same way, is the
    error of the statement that reads the row.  The last part relates the tables
    to the abstract store: one finite map of nodes and one of keys. *)
From S2P Require Import Prelude GoStd GoFloat GoTime GoJson Domain.
From Stdlib Require Import Ascii.

Module Store.

(** ** Tables with a primary key *)

Section table.
Context {R : Type} (id : R → string).

(** [INSERT ... ON CONFLICT(id) DO UPDATE SET]: [update old new] is the row
    after the assignments. *)
Definition upsert (update : R → R → R) (r : R) (db : list R) : list R :=
  if bool_decide (id r ∈ id <$> db)
  then (λ x, if bool_decide (id x = id r) then update x r else x) <$> db
  else db ++ [r].

(** [SELECT ... WHERE id=?] and [DELETE ... WHERE id=?]. *)
Definition selectID (k : string) (db : list R) : option R := head (filter (λ r, id r = k) db).
Definition deleteID (k : string) (db : list R) : list R := filter (λ r, id r ≠ k) db.

(** What a table says: the finite map from identifiers to scanned rows. *)
Definition view {A} (scan : R → A) (db : list R) : gmap string A :=
  list_to_map ((λ r, (id r, scan r)) <$> db).

Lemma selectID_cons k r db :
  selectID k (r :: db) = if bool_decide (id r = k) then Some r else selectID k db.
Proof. unfold selectID. rewrite filter_cons. repeat case_decide; case_bool_decide; naive_solver. Qed.

Lemma selectID_Some k r db : selectID k db = Some r → r ∈ db ∧ id r = k.
Proof.
  unfold selectID. intros H%head_Some_elem_of. apply list_elem_of_filter in H. naive_solver.
Qed.

Lemma selectID_None k db : selectID k db = None ↔ k ∉ id <$> db.
Proof.
  induction db as [|r db IH]; [split; [set_solver|done]|]. rewrite selectID_cons. csimpl.
  rewrite not_elem_of_cons, <-IH. case_bool_decide; naive_solver.
Qed.

Lemma selectID_elem r db : NoDup (id <$> db) → r ∈ db → selectID (id r) db = Some r.
Proof.
  intros Hn Hr. destruct (selectID (id r) db) as [r'|] eqn:Hs.
  - apply selectID_Some in Hs as [Hr' Hid]. f_equal.
    apply list_elem_of_lookup in Hr as [i Hi]. apply list_elem_of_lookup in Hr' as [j Hj].
    assert (i = j) as ->; [|congruence].
    eapply NoDup_lookup; [exact Hn| |]; rewrite list_lookup_fmap; [by rewrite Hi|].
    by rewrite Hj, <-Hid.
  - apply selectID_None in Hs. destruct Hs. apply list_elem_of_fmap. eauto.
Qed.

Lemma lookup_view {A} (scan : R → A) db k : view scan db !! k = scan <$> selectID k db.
Proof.
  unfold view. induction db as [|r db IH]; [done|]. rewrite selectID_cons. csimpl.
  case_bool_decide as Hk; [by rewrite Hk, lookup_insert_eq|by rewrite lookup_insert_ne].
Qed.

Lemma view_values {A} (scan : R → A) db :
  NoDup (id <$> db) → scan <$> db ≡ₚ (map_to_list (view scan db)).*2.
Proof.
  intros Hn. unfold view. rewrite map_to_list_to_map; rewrite <-list_fmap_compose; done.
Qed.

Lemma NoDup_deleteID k db : NoDup (id <$> db) → NoDup (id <$> deleteID k db).
Proof.
  intros Hn. eapply sublist_NoDup; [exact Hn|]. apply fmap_sublist, sublist_filter.
Qed.

Lemma view_deleteID {A} (scan : R → A) k db : view scan (deleteID k db) = delete k (view scan db).
Proof.
  apply map_eq. intros i. rewrite lookup_delete, !lookup_view. unfold deleteID.
  induction db as [|r db IH]; [by case_decide|]. rewrite filter_cons, (selectID_cons i r db).
  repeat case_decide; rewrite ?selectID_cons; repeat case_bool_decide; naive_solver.
Qed.

Section upserted.
Context (update : R → R → R).
Hypothesis update_id : ∀ x r, id (update x r) = id x.

Lemma ids_upsert r db :
  id <$> upsert update r db = if bool_decide (id r ∈ id <$> db) then id <$> db else (id <$> db) ++ [id r].
Proof.
  unfold upsert. case_bool_decide; [|by rewrite fmap_app].
  rewrite <-list_fmap_compose. apply list_fmap_ext. intros ? x _. simpl. case_bool_decide; auto.
Qed.

Lemma NoDup_upsert r db : NoDup (id <$> db) → NoDup (id <$> upsert update r db).
Proof.
  intros Hn. rewrite ids_upsert. case_bool_decide; [done|].
  apply NoDup_app. repeat split; [done|set_solver|apply NoDup_singleton].
Qed.

Lemma selectID_upsert r db k :
  selectID k (upsert update r db) =
  if bool_decide (id r = k) then Some (match selectID k db with Some x => update x r | None => r end)
  else selectID k db.
Proof.
  unfold upsert. case_bool_decide as Hin.
  - assert (Hnn : id r = k → selectID k db ≠ None) by (intros <-; rewrite selectID_None; tauto).
    clear Hin. induction db as [|x db IH]; [by case_bool_decide; [destruct Hnn|]|].
    csimpl. rewrite !selectID_cons in *. destruct (decide (id x = id r)) as [Hx|Hx];
      [rewrite (bool_decide_eq_true_2 _ Hx), update_id|rewrite (bool_decide_eq_false_2 _ Hx)];
      repeat case_bool_decide; naive_solver congruence.
  - apply selectID_None in Hin. induction db as [|x db IH].
    + simpl. rewrite selectID_cons. by case_bool_decide.
    + rewrite selectID_cons in Hin. simpl. rewrite !selectID_cons.
      repeat case_bool_decide; naive_solver congruence.
Qed.

Lemma view_upsert {A} (scan : R → A) r db :
  view scan (upsert update r db) =
  <[id r := scan (match selectID (id r) db with Some x => update x r | None => r end)]> (view scan db).
Proof.
  apply map_eq. intros k. rewrite lookup_insert, !lookup_view, selectID_upsert.
  case_bool_decide; case_decide; by simplify_eq.
Qed.
End upserted.
End table.

Record nodeRow := {
  nr_id : string; nr_name : string; nr_aliases : string; nr_base_url : string; nr_api_key : string;
  nr_model_name : string; nr_endpoint_type : string; nr_tpm : Z; nr_rpm : Z; nr_override : string;
  nr_timeout_sec : Z; nr_enabled : Z; nr_created_at : string; nr_updated_at : string;
}.

Record keyRow := {
  kr_id : string; kr_key_value : string; kr_name : string; kr_enabled : Z; kr_tpm : Z; kr_rpm : Z;
  kr_allow_models : string; kr_created_at : string; kr_expires_at : option string;
}.

Definition boolToInt (b : bool) : Z := if b then 1 else 0.

Section store.
Context (slow : string → option Z).
Context (encList : list string → string) (decList : string → list string).
Context (encMap : gmap string json → string) (decMap : string → gmap string json).
(** [ORDER BY name ASC] and [ORDER BY created_at DESC]. *)
Context (byName : list nodeRow → list nodeRow) (byCreated : list keyRow → list keyRow).
Context (constraintError : error).

(** ** Nodes *)

(** [UpsertNode] sets the timestamps of the node it is given. *)
Definition stampNode (now : Z) (n : ModelNode) : ModelNode :=
  {| node_ID := node_ID n; node_Name := node_Name n; node_Aliases := node_Aliases n;
     node_BaseURL := node_BaseURL n; node_APIKey := node_APIKey n; node_ModelName := node_ModelName n;
     node_EndpointType := node_EndpointType n; node_TPM := node_TPM n; node_RPM := node_RPM n;
     node_Override := node_Override n; node_TimeoutSec := node_TimeoutSec n;
     node_Enabled := node_Enabled n;
     node_CreatedAt := if IsZero (node_CreatedAt n) then now else node_CreatedAt n;
     node_UpdatedAt := now |}.

Definition nodeArgs (n : ModelNode) : nodeRow :=
  {| nr_id := node_ID n; nr_name := node_Name n; nr_aliases := encList (node_Aliases n);
     nr_base_url := node_BaseURL n; nr_api_key := node_APIKey n; nr_model_name := node_ModelName n;
     nr_endpoint_type := node_EndpointType n; nr_tpm := node_TPM n; nr_rpm := node_RPM n;
     nr_override := encMap (node_Override n); nr_timeout_sec := node_TimeoutSec n;
     nr_enabled := boolToInt (node_Enabled n); nr_created_at := FormatTime (node_CreatedAt n);
     nr_updated_at := FormatTime (node_UpdatedAt n) |}.

(** The [DO UPDATE SET] of the node table leaves [created_at] alone. *)
Definition updateNode (old new : nodeRow) : nodeRow :=
  {| nr_id := nr_id old; nr_name := nr_name new; nr_aliases := nr_aliases new;
     nr_base_url := nr_base_url new; nr_api_key := nr_api_key new; nr_model_name := nr_model_name new;
     nr_endpoint_type := nr_endpoint_type new; nr_tpm := nr_tpm new; nr_rpm := nr_rpm new;
     nr_override := nr_override new; nr_timeout_sec := nr_timeout_sec new; nr_enabled := nr_enabled new;
     nr_created_at := nr_created_at old; nr_updated_at := nr_updated_at new |}.

(** The table, the node as the caller sees it afterwards, and the error. *)
Definition UpsertNode (fails : option error) (now : Z) (n : ModelNode) (db : list nodeRow)
    : list nodeRow * ModelNode * option error :=
  let n := stampNode now n in
  match fails with
  | Some e => (db, n, Some e)
  | None => (upsert nr_id updateNode (nodeArgs n) db, n, None)
  end.

(** The row as scanned; the error that [Scan] can return is that of the statement. *)
Definition scanNode (r : nodeRow) : ModelNode :=
  {| node_ID := nr_id r; node_Name := nr_name r; node_Aliases := decList (nr_aliases r);
     node_BaseURL := nr_base_url r; node_APIKey := nr_api_key r; node_ModelName := nr_model_name r;
     node_EndpointType := nr_endpoint_type r; node_TPM := nr_tpm r; node_RPM := nr_rpm r;
     node_Override := decMap (nr_override r); node_TimeoutSec := nr_timeout_sec r;
     node_Enabled := negb (nr_enabled r =? 0); node_CreatedAt := ParseOrZero slow (nr_created_at r);
     node_UpdatedAt := ParseOrZero slow (nr_updated_at r) |}.

Definition GetNode (stmt : result error (list nodeRow)) (id : string) : result error (option ModelNode) :=
  match stmt with Err e => Err e | Ok db => Ok (scanNode <$> selectID nr_id id db) end.

Definition ListNodes (stmt : result error (list nodeRow)) : result error (list ModelNode) :=
  match stmt with Err e => Err e | Ok db => Ok (scanNode <$> byName db) end.

Definition DeleteNode (fails : option error) (id : string) (db : list nodeRow)
    : list nodeRow * option error :=
  match fails with Some e => (db, Some e) | None => (deleteID nr_id id db, None) end.

(** ** API keys *)

Definition stampKey (now : Z) (k : APIKey) : APIKey :=
  {| key_ID := key_ID k; key_Key := key_Key k; key_Name := key_Name k; key_Enabled := key_Enabled k;
     key_TPM := key_TPM k; key_RPM := key_RPM k; key_AllowModels := key_AllowModels k;
     key_CreatedAt := if IsZero (key_CreatedAt k) then now else key_CreatedAt k;
     key_ExpiresAt := key_ExpiresAt k |}.

Definition keyArgs (k : APIKey) : keyRow :=
  {| kr_id := key_ID k; kr_key_value := key_Key k; kr_name := key_Name k;
     kr_enabled := boolToInt (key_Enabled k); kr_tpm := key_TPM k; kr_rpm := key_RPM k;
     kr_allow_models := encList (key_AllowModels k); kr_created_at := FormatTime (key_CreatedAt k);
     kr_expires_at := FormatTime <$> key_ExpiresAt k |}.

Definition updateKey (old new : keyRow) : keyRow :=
  {| kr_id := kr_id old; kr_key_value := kr_key_value new; kr_name := kr_name new;
     kr_enabled := kr_enabled new; kr_tpm := kr_tpm new; kr_rpm := kr_rpm new;
     kr_allow_models := kr_allow_models new; kr_created_at := kr_created_at old;
     kr_expires_at := kr_expires_at new |}.

(** Another key has the value: the [UNIQUE] constraint, which the [ON CONFLICT]
    clause of the primary key does not cover. *)
Definition valueTaken (k : APIKey) (db : list keyRow) : bool :=
  existsb (λ r, bool_decide (kr_key_value r = key_Key k) && bool_decide (kr_id r ≠ key_ID k)) db.

Definition UpsertAPIKey (fails : option error) (now : Z) (k : APIKey) (db : list keyRow)
    : list keyRow * APIKey * option error :=
  let k := stampKey now k in
  match fails with
  | Some e => (db, k, Some e)
  | None =>
      if valueTaken k db then (db, k, Some constraintError)
      else (upsert kr_id updateKey (keyArgs k) db, k, None)
  end.

Definition scanAPIKey (r : keyRow) : APIKey :=
  {| key_ID := kr_id r; key_Key := kr_key_value r; key_Name := kr_name r;
     key_Enabled := negb (kr_enabled r =? 0); key_TPM := kr_tpm r; key_RPM := kr_rpm r;
     key_AllowModels := decList (kr_allow_models r); key_CreatedAt := ParseOrZero slow (kr_created_at r);
     key_ExpiresAt := match kr_expires_at r with
                      | Some s => if bool_decide (s = "") then None else Some (ParseOrZero slow s)
                      | None => None
                      end |}.

Definition GetAPIKey (stmt : result error (list keyRow)) (id : string) : result error (option APIKey) :=
  match stmt with Err e => Err e | Ok db => Ok (scanAPIKey <$> selectID kr_id id db) end.

Definition GetAPIKeyByValue (stmt : result error (list keyRow)) (keyValue : string)
    : result error (option APIKey) :=
  match stmt with Err e => Err e | Ok db => Ok (scanAPIKey <$> selectID kr_key_value keyValue db) end.

Definition ListAPIKeys (stmt : result error (list keyRow)) : result error (list APIKey) :=
  match stmt with Err e => Err e | Ok db => Ok (scanAPIKey <$> byCreated db) end.

Definition DeleteAPIKey (fails : option error) (id : string) (db : list keyRow)
    : list keyRow * option error :=
  match fails with Some e => (db, Some e) | None => (deleteID kr_id id db, None) end.

(** ** The abstract store *)

Definition nodeView : list nodeRow → gmap string ModelNode := view nr_id scanNode.
Definition keyView : list keyRow → gmap string APIKey := view kr_id scanAPIKey.

Definition nodeCreated (t : Z) (n : ModelNode) : ModelNode :=
  {| node_ID := node_ID n; node_Name := node_Name n; node_Aliases := node_Aliases n;
     node_BaseURL := node_BaseURL n; node_APIKey := node_APIKey n; node_ModelName := node_ModelName n;
     node_EndpointType := node_EndpointType n; node_TPM := node_TPM n; node_RPM := node_RPM n;
     node_Override := node_Override n; node_TimeoutSec := node_TimeoutSec n;
     node_Enabled := node_Enabled n; node_CreatedAt := t; node_UpdatedAt := node_UpdatedAt n |}.

Definition keyCreated (t : Z) (k : APIKey) : APIKey :=
  {| key_ID := key_ID k; key_Key := key_Key k; key_Name := key_Name k; key_Enabled := key_Enabled k;
     key_TPM := key_TPM k; key_RPM := key_RPM k; key_AllowModels := key_AllowModels k;
     key_CreatedAt := t; key_ExpiresAt := key_ExpiresAt k |}.

(** Writes, in the order in which the database runs them. *)
Inductive storeOp :=
| OpUpsertNode (fails : option error) (now : Z) (n : ModelNode)
| OpDeleteNode (fails : option error) (id : string)
| OpUpsertKey (fails : option error) (now : Z) (k : APIKey)
| OpDeleteKey (fails : option error) (id : string).

Definition database : Type := list nodeRow * list keyRow.

Definition storeStep (db : database) (op : storeOp) : database :=
  match op with
  | OpUpsertNode fails now n => ((UpsertNode fails now n db.1).1.1, db.2)
  | OpDeleteNode fails id => ((DeleteNode fails id db.1).1, db.2)
  | OpUpsertKey fails now k => (db.1, (UpsertAPIKey fails now k db.2).1.1)
  | OpDeleteKey fails id => (db.1, (DeleteAPIKey fails id db.2).1)
  end.

Abbreviation abstract := (gmap string ModelNode * gmap string APIKey)%type.

(** Another key holds the value. *)
Definition heldElsewhere (k : APIKey) (m : gmap string APIKey) : Prop :=
  map_Exists (λ id k', key_Key k' = key_Key k ∧ id ≠ key_ID k) m.

#[local] Instance heldElsewhere_dec k m : Decision (heldElsewhere k m).
Proof. unfold heldElsewhere. apply _. Defined.

(** A write that fails changes nothing; an upsert keeps the creation time of
    what it replaces. *)
Definition storeSpec (m : abstract) (op : storeOp) : abstract :=
  match op with
  | OpUpsertNode None now n =>
      let n := stampNode now n in
      (<[node_ID n := nodeCreated (default (node_CreatedAt n) (node_CreatedAt <$> m.1 !! node_ID n)) n]> m.1,
       m.2)
  | OpDeleteNode None id => (delete id m.1, m.2)
  | OpUpsertKey None now k =>
      let k := stampKey now k in
      if decide (heldElsewhere k m.2) then m
      else (m.1, <[key_ID k := keyCreated (default (key_CreatedAt k) (key_CreatedAt <$> m.2 !! key_ID k)) k]> m.2)
  | OpDeleteKey None id => (m.1, delete id m.2)
  | _ => m
  end.

(** What can be stored and read back. *)
Definition storableNode (now : Z) (n : ModelNode) : Prop :=
  rfcRange (node_CreatedAt (stampNode now n)) ∧ rfcRange now ∧
  decList (encList (node_Aliases n)) = node_Aliases n ∧ decMap (encMap (node_Override n)) = node_Override n.
Definition storableKey (now : Z) (k : APIKey) : Prop :=
  rfcRange (key_CreatedAt (stampKey now k)) ∧ from_option rfcRange True (key_ExpiresAt k) ∧
  decList (encList (key_AllowModels k)) = key_AllowModels k.
Definition storable (op : storeOp) : Prop :=
  match op with
  | OpUpsertNode _ now n => storableNode now n
  | OpUpsertKey _ now k => storableKey now k
  | _ => True
  end.

(** The constraints of the schema. *)
Definition tablesOk (db : database) : Prop :=
  NoDup (nr_id <$> db.1) ∧ NoDup (kr_id <$> db.2) ∧ NoDup (kr_key_value <$> db.2).
Definition absOf (db : database) : abstract := (nodeView db.1, keyView db.2).

Lemma boolToInt_true b : negb (boolToInt b =? 0) = b.
Proof. by destruct b. Qed.

Lemma scanNode_nodeArgs now n :
  storableNode now n → scanNode (nodeArgs (stampNode now n)) = stampNode now n.
Proof.
  intros (Hc & Hn & Ha & Ho). unfold scanNode. simpl in *.
  by rewrite Ha, Ho, boolToInt_true, !ParseOrZero_FormatTime.
Qed.

Lemma scanNode_updateNode now n r :
  storableNode now n → nr_id r = node_ID n →
  scanNode (updateNode r (nodeArgs (stampNode now n))) =
  nodeCreated (node_CreatedAt (scanNode r)) (stampNode now n).
Proof.
  intros (Hc & Hn & Ha & Ho) Hid. unfold scanNode. simpl in *.
  by rewrite Hid, Ha, Ho, boolToInt_true, !ParseOrZero_FormatTime.
Qed.

Lemma expiry_FormatTime e :
  from_option rfcRange True e →
  match FormatTime <$> e with
  | Some s => if bool_decide (s = "") then None else Some (ParseOrZero slow s)
  | None => None
  end = e.
Proof.
  destruct e as [t|]; [|done]. simpl. intros Ht. rewrite ParseOrZero_FormatTime by done.
  case_bool_decide as He; [|done]. pose proof (parseRFC3339_FormatTime t Ht) as Hp.
  by rewrite He in Hp.
Qed.

Lemma scanAPIKey_keyArgs now k :
  storableKey now k → scanAPIKey (keyArgs (stampKey now k)) = stampKey now k.
Proof.
  intros (Hc & He & Ha). unfold scanAPIKey. simpl in *.
  by rewrite Ha, boolToInt_true, ParseOrZero_FormatTime, (expiry_FormatTime _ He).
Qed.

Lemma scanAPIKey_updateKey now k r :
  storableKey now k → kr_id r = key_ID k →
  scanAPIKey (updateKey r (keyArgs (stampKey now k))) =
  keyCreated (key_CreatedAt (scanAPIKey r)) (stampKey now k).
Proof.
  intros (Hc & He & Ha) Hid. unfold scanAPIKey. simpl in *.
  by rewrite Hid, Ha, boolToInt_true, (expiry_FormatTime _ He).
Qed.

Lemma view_UpsertNode now n db :
  storableNode now n →
  nodeView (UpsertNode None now n db).1.1 =
  <[node_ID n := nodeCreated (default (node_CreatedAt (stampNode now n))
                                (node_CreatedAt <$> nodeView db !! node_ID n)) (stampNode now n)]>
    (nodeView db).
Proof.
  intros Hs. unfold nodeView. simpl. rewrite view_upsert, lookup_view by done. f_equal. simpl.
  destruct (selectID nr_id (node_ID n) db) as [r|] eqn:Hr; simpl.
  - apply selectID_Some in Hr as [_ Hid]. by apply scanNode_updateNode.
  - by apply scanNode_nodeArgs.
Qed.

Lemma valueTaken_iff now k db :
  NoDup (kr_id <$> db) →
  valueTaken (stampKey now k) db = true ↔ heldElsewhere (stampKey now k) (keyView db).
Proof.
  intros Hn. unfold valueTaken, heldElsewhere, map_Exists. rewrite existsb_exists. split.
  - intros (r & Hr%list_elem_of_In & Hb). bools. exists (kr_id r), (scanAPIKey r).
    unfold keyView. rewrite lookup_view, selectID_elem by done. done.
  - intros (id & k' & Hl & Hk & Hid). unfold keyView in Hl. rewrite lookup_view in Hl.
    apply fmap_Some in Hl as (r & [Hr <-]%selectID_Some & ->).
    exists r. rewrite <-list_elem_of_In. split; [done|]. by rewrite !bool_decide_eq_true_2.
Qed.

Lemma view_UpsertAPIKey now k db :
  storableKey now k → valueTaken (stampKey now k) db = false →
  keyView (UpsertAPIKey None now k db).1.1 =
  <[key_ID k := keyCreated (default (key_CreatedAt (stampKey now k))
                              (key_CreatedAt <$> keyView db !! key_ID k)) (stampKey now k)]>
    (keyView db).
Proof.
  intros Hs Hv. unfold keyView, UpsertAPIKey. rewrite Hv. simpl.
  rewrite view_upsert, lookup_view by done. f_equal. simpl.
  destruct (selectID kr_id (key_ID k) db) as [r|] eqn:Hr; simpl.
  - apply selectID_Some in Hr as [_ Hid]. by apply scanAPIKey_updateKey.
  - by apply scanAPIKey_keyArgs.
Qed.

(** The key values stay distinct: nobody else has the new one. *)
Lemma NoDup_values_upsert k db :
  NoDup (kr_id <$> db) → NoDup (kr_key_value <$> db) → valueTaken k db = false →
  NoDup (kr_key_value <$> upsert kr_id updateKey (keyArgs k) db).
Proof.
  intros Hid Hv Ht.
  assert (Hoth : ∀ r, r ∈ db → kr_id r ≠ key_ID k → kr_key_value r ≠ key_Key k).
  { intros r Hr Hne Heq. assert (valueTaken k db = true); [|congruence].
    apply existsb_exists. exists r. rewrite <-list_elem_of_In, !bool_decide_eq_true_2; done. }
  clear Ht. unfold upsert. simpl. case_bool_decide as Hin.
  - clear Hin. induction db as [|x db IH]; [done|]. csimpl in *.
    apply NoDup_cons in Hid as [Hx Hid]. apply NoDup_cons in Hv as [Hxv Hv].
    apply NoDup_cons. split; [|apply IH; set_solver]. rewrite <-list_fmap_compose.
    intros (y & Hxy & Hy)%list_elem_of_fmap. simpl in Hxy.
    assert (kr_id x ≠ kr_id y) by (intros He; apply Hx; rewrite He; by apply list_elem_of_fmap_2).
    assert (kr_key_value x ≠ kr_key_value y)
      by (intros He; apply Hxv; rewrite He; by apply list_elem_of_fmap_2).
    pose proof (Hoth x ltac:(set_solver)). pose proof (Hoth y ltac:(set_solver)).
    repeat case_bool_decide; simpl in *; naive_solver congruence.
  - rewrite fmap_app. apply NoDup_app. split_and!; [done| |apply NoDup_singleton].
    intros v (r & -> & Hr)%list_elem_of_fmap Hv'%list_elem_of_singleton. simpl in Hv'.
    apply (Hoth r); [done| |done]. intros He. apply Hin. rewrite <-He. by apply list_elem_of_fmap_2.
Qed.

Lemma storeStep_ok db op : tablesOk db → tablesOk (storeStep db op).
Proof.
  intros (Hn & Hk & Hv). destruct op as [[e|] now n|[e|] id|[e|] now k|[e|] id]; simpl; try done.
  - split_and!; simpl; [by apply NoDup_upsert|done|done].
  - split_and!; simpl; [by apply NoDup_deleteID|done|done].
  - unfold UpsertAPIKey. destruct (valueTaken _ _) eqn:Ht; [done|].
    split_and!; simpl; [done|by apply NoDup_upsert|by apply NoDup_values_upsert].
  - split_and!; simpl; [done|by apply NoDup_deleteID|].
    eapply sublist_NoDup; [exact Hv|]. apply fmap_sublist, sublist_filter.
Qed.

Lemma storeStep_refines db op :
  tablesOk db → storable op → absOf (storeStep db op) = storeSpec (absOf db) op.
Proof.
  intros (_ & Hk & _) Hs. unfold absOf.
  destruct op as [[e|] now n|[e|] id|[e|] now k|[e|] id]; simpl in *; try done.
  - f_equal. by apply view_UpsertNode.
  - f_equal. apply view_deleteID.
  - pose proof (valueTaken_iff now k db.2 Hk) as Hiff.
    destruct (valueTaken (stampKey now k) db.2) eqn:Ht.
    + by rewrite decide_True by tauto.
    + rewrite decide_False by (rewrite <-Hiff; done). f_equal.
      pose proof (view_UpsertAPIKey now k db.2 Hs Ht) as Hv. unfold UpsertAPIKey in Hv. simpl in Hv.
      by rewrite Ht in Hv.
  - f_equal. apply view_deleteID.
Qed.

Lemma run_refines ops db :
  tablesOk db → Forall storable ops →
  tablesOk (foldl storeStep db ops) ∧ absOf (foldl storeStep db ops) = foldl storeSpec (absOf db) ops.
Proof.
  intros Hdb Hs. revert db Hdb. induction Hs as [|op ops Hop _ IH]; intros db Hdb; [done|]. simpl.
  rewrite <-storeStep_refines by done. by apply IH, storeStep_ok.
Qed.

(** The key with a given value is the one key of the view that has it. *)
Lemma GetAPIKeyByValue_iff db v k :
  NoDup (kr_id <$> db) → NoDup (kr_key_value <$> db) →
  GetAPIKeyByValue (Ok db) v = Ok (Some k) ↔
  ∃ id, keyView db !! id = Some k ∧ key_Key k = v.
Proof.
  intros Hid Hv. unfold GetAPIKeyByValue, keyView. split.
  - intros [= (r & [Hr Hkv]%selectID_Some & ->)%fmap_Some].
    exists (kr_id r). by rewrite lookup_view, selectID_elem.
  - intros (id & Hl & Hk). rewrite lookup_view in Hl.
    apply fmap_Some in Hl as (r & [Hr _]%selectID_Some & ->). simpl in Hk. subst v.
    by rewrite (selectID_elem kr_key_value r).
Qed.

Lemma UpsertAPIKey_error now k db :
  NoDup (kr_id <$> db) →
  (UpsertAPIKey None now k db).2 =
  if decide (heldElsewhere (stampKey now k) (keyView db)) then Some constraintError else None.
Proof.
  intros Hn. pose proof (valueTaken_iff now k db Hn) as Hiff. unfold UpsertAPIKey. simpl.
  destruct (valueTaken _ _); [by rewrite decide_True by tauto|].
  rewrite decide_False; [done|]. by rewrite <-Hiff.
Qed.

(** [ORDER BY] permutes the rows and sorts them by the column. *)
Hypothesis byName_sorts :
  ∀ db, byName db ≡ₚ db ∧ StronglySorted (ascending nr_name) (byName db).
Hypothesis byCreated_sorts :
  ∀ db, byCreated db ≡ₚ db ∧ StronglySorted (descending kr_created_at) (byCreated db).

Lemma ListNodes_view db :
  NoDup (nr_id <$> db) →
  ∃ l, ListNodes (Ok db) = Ok l ∧ l ≡ₚ (map_to_list (nodeView db)).*2 ∧
       StronglySorted (ascending node_Name) l.
Proof.
  intros Hn. destruct (byName_sorts db) as [Hp Hs]. exists (scanNode <$> byName db).
  split_and!; [done| |].
  - rewrite Hp. by apply view_values.
  - eapply (StronglySorted_Forall2 _ _ (λ r n, n = scanNode r)); [|by apply Forall2_fmap_r, Forall_Forall2_diag, Forall_true|exact Hs].
    by intros r r' n n' H -> ->.
Qed.

Lemma ListAPIKeys_view db :
  NoDup (kr_id <$> db) → ∃ l, ListAPIKeys (Ok db) = Ok l ∧ l ≡ₚ (map_to_list (keyView db)).*2.
Proof.
  intros Hn. exists (scanAPIKey <$> byCreated db). split; [done|].
  rewrite (proj1 (byCreated_sorts db)). by apply view_values.
Qed.

(** C11. The storage implements a pair of finite maps.  After every sequence of
    upserts and deletions, some of which fail, the tables hold exactly what the
    maps hold: an upsert replaces the entry and keeps its creation time, a
    failed write and a key whose value another key holds change nothing (the
    latter is an error), a deletion removes the entry.  The reads answer from
    the maps: by identifier, by key value (no two keys share one) and as lists,
    nodes in the order of their names. *)
Theorem store_refines db ops :
  tablesOk db → Forall storable ops →
  let db' := foldl storeStep db ops in
  let m := foldl storeSpec (absOf db) ops in
  tablesOk db' ∧ absOf db' = m ∧
  (∀ id, GetNode (Ok db'.1) id = Ok (m.1 !! id)) ∧ (∀ id, GetAPIKey (Ok db'.2) id = Ok (m.2 !! id)) ∧
  (∀ v k, GetAPIKeyByValue (Ok db'.2) v = Ok (Some k) ↔ ∃ id, m.2 !! id = Some k ∧ key_Key k = v) ∧
  (∃ l, ListNodes (Ok db'.1) = Ok l ∧ l ≡ₚ (map_to_list m.1).*2 ∧
        StronglySorted (ascending node_Name) l) ∧
  (∃ l, ListAPIKeys (Ok db'.2) = Ok l ∧ l ≡ₚ (map_to_list m.2).*2) ∧
  (∀ now k, (UpsertAPIKey None now k db'.2).2 =
            if decide (heldElsewhere (stampKey now k) m.2) then Some constraintError else None).
Proof.
  intros Hdb Hops. destruct (run_refines ops db Hdb Hops) as [Hok <-]. simpl.
  pose proof Hok as (Hn & Hk & Hv). split_and!; [done|done|..].
  - intros id. unfold nodeView. by rewrite lookup_view.
  - intros id. unfold keyView. by rewrite lookup_view.
  - intros v k. by apply GetAPIKeyByValue_iff.
  - by apply ListNodes_view.
  - by apply ListAPIKeys_view.
  - intros now k. by apply UpsertAPIKey_error.
Qed.

End store.

(** ** A concrete store *)

Definition demo_enc (l : list string) : string := String.concat "," l.
Definition demo_dec (s : string) : list string := Split s ","%char.

Definition demo_node (id name : string) : ModelNode :=
  {| node_ID := id; node_Name := name; node_Aliases := ["gpt"; "gpt-4"]; node_BaseURL := "http://a";
     node_APIKey := "s"; node_ModelName := "m"; node_EndpointType := EndpointAll; node_TPM := 100;
     node_RPM := 10; node_Override := ∅; node_TimeoutSec := 60; node_Enabled := true;
     node_CreatedAt := zeroTime; node_UpdatedAt := zeroTime |}.

Definition demo_apikey (id value : string) : APIKey :=
  {| key_ID := id; key_Key := value; key_Name := "dev"; key_Enabled := true; key_TPM := 0; key_RPM := 5;
     key_AllowModels := ["gpt"]; key_CreatedAt := zeroTime; key_ExpiresAt := Some (9 * Second) |}.

Definition demo_ops : list storeOp :=
  [OpUpsertNode None (5 * Second) (demo_node "b" "two"); OpUpsertNode None (6 * Second) (demo_node "a" "one");
   OpUpsertKey None (6 * Second) (demo_apikey "k1" "pk-1"); OpUpsertKey None (7 * Second) (demo_apikey "k2" "pk-1");
   OpUpsertNode None (8 * Second) (demo_node "b" "zwei"); OpDeleteNode None "c";
   OpUpsertKey (Some (mkError OtherError "disk full")) (8 * Second) (demo_apikey "k3" "pk-3")].

Lemma store_refines_witness :
  let step := storeStep demo_enc (λ _, "{}") (mkError OtherError "UNIQUE constraint failed") in
  let db := foldl step ([], []) demo_ops in
  GetAPIKeyByValue (λ _, None) demo_dec (Ok db.2) "pk-1" = Ok (Some (stampKey (6 * Second) (demo_apikey "k1" "pk-1"))) ∧
  GetNode (λ _, None) demo_dec (λ _, ∅) (Ok db.1) "b"
    = Ok (Some (nodeCreated (5 * Second) (stampNode (8 * Second) (demo_node "b" "zwei")))) ∧
  GetAPIKey (λ _, None) demo_dec (Ok db.2) "k2" = Ok None.
Proof.
  pose proof (store_refines (λ _, None) demo_enc demo_dec (λ _, "{}") (λ _, ∅)
    (merge_sort (ascending nr_name)) (merge_sort (descending kr_created_at))
    (mkError OtherError "UNIQUE constraint failed") (merge_sort_sorts _) (merge_sort_sorts _)
    ([], []) demo_ops) as H.
  destruct H as (_ & _ & Hn & Hk & Hv & _).
  - by repeat split; try apply NoDup_nil_2.
  - repeat constructor; vm_compute; congruence.
  - split_and!; [apply Hv; exists "k1"; by vm_compute|by rewrite Hn; vm_compute|by rewrite Hk; vm_compute].
Defined.
End Store.
