(* ===== verification/Schema.v ===== *)
(** * storage/sqlite/storage.go: opening and migrating the database

    [Open] and [migrate] of [src/internal/storage/sqlite/storage.go].  A database
    is its tables, each with its columns and rows, and the names of its indexes.
    The statements are those of the code, with the meaning SQL gives them:
    [IF NOT EXISTS] does nothing when the name is taken, whatever the table looks
    like; an index needs its table and column; [ADD COLUMN] fails on a column
    that exists and gives existing rows the default.  [fails i] is the error of
    the driver at the [i]-th statement. *)
From S2P Require Import Prelude GoStd GoJson Domain.

Module Schema.

Inductive sqlValue := Null | Text (s : string) | Integer (z : Z).

Inductive constraint := PrimaryKey | NotNull | Unique | NotNullUnique | Nullable.

Record column := mkColumn { c_name : string; c_type : string; c_constraint : constraint; c_default : option sqlValue }.

Abbreviation row := (gmap string sqlValue).

Record table := mkTable { tb_columns : list column; tb_rows : list row }.

Record database := mkDB { db_tables : gmap string table; db_indexes : gset string }.

Inductive statement :=
| CreateTable (name : string) (cols : list column)
| CreateIndex (name tbl col : string)
| AddColumn (tbl : string) (col : column).

Definition names (t : table) : list string := c_name <$> tb_columns t.

Definition sqlError (msg : string) : error := mkError OtherError msg.

(** The value of a new column in the rows that are there. *)
Definition fill (c : column) (r : row) : row := <[c_name c := default Null (c_default c)]> r.

Definition exec (s : statement) (db : database) : result error database :=
  match s with
  | CreateTable name cols =>
      match db_tables db !! name with
      | Some _ => Ok db
      | None => Ok (mkDB (<[name := mkTable cols []]> (db_tables db)) (db_indexes db))
      end
  | CreateIndex name tbl col =>
      if decide (name ∈ db_indexes db) then Ok db
      else match db_tables db !! tbl with
           | None => Err (sqlError ("no such table: " +:+ tbl))
           | Some t => if decide (col ∈ names t) then Ok (mkDB (db_tables db) ({[name]} ∪ db_indexes db))
                       else Err (sqlError ("no such column: " +:+ col))
           end
  | AddColumn tbl col =>
      match db_tables db !! tbl with
      | None => Err (sqlError ("no such table: " +:+ tbl))
      | Some t => if decide (c_name col ∈ names t) then Err (sqlError ("duplicate column name: " +:+ c_name col))
                  else Ok (mkDB (<[tbl := mkTable (tb_columns t ++ [col]) (fill col <$> tb_rows t)]> (db_tables db))
                             (db_indexes db))
      end
  end.

(** ** The statements of [migrate] *)

Definition key (n : string) : column := mkColumn n "TEXT" PrimaryKey None.
Definition text (n : string) : column := mkColumn n "TEXT" NotNull None.
Definition textDefault (n d : string) : column := mkColumn n "TEXT" NotNull (Some (Text d)).
Definition intDefault (n : string) (d : Z) : column := mkColumn n "INTEGER" NotNull (Some (Integer d)).
Definition nullable (n : string) : column := mkColumn n "TEXT" Nullable None.

Definition model_nodes : list column :=
  [key "id"; textDefault "name" ""; textDefault "aliases" "[]"; text "base_url"; textDefault "api_key" "";
   textDefault "model_name" ""; textDefault "endpoint_type" "all"; intDefault "tpm" 0; intDefault "rpm" 0;
   textDefault "override" "{}"; intDefault "timeout_sec" 120; intDefault "enabled" 1; text "created_at";
   text "updated_at"].

Definition api_keys : list column :=
  [key "id"; mkColumn "key_value" "TEXT" NotNullUnique None; textDefault "name" ""; intDefault "enabled" 1;
   nullable "rate_limit"; textDefault "allow_models" "[]"; text "created_at"; nullable "expires_at"].

Definition request_logs : list column :=
  [key "id"; textDefault "session_id" ""; text "timestamp"; textDefault "api_key_id" ""; textDefault "model_alias" "";
   textDefault "node_id" ""; textDefault "actual_model" ""; intDefault "prompt_tokens" 0;
   intDefault "completion_tokens" 0; intDefault "total_tokens" 0; intDefault "duration_ms" 0;
   intDefault "status_code" 0; intDefault "stream" 0; textDefault "error_msg" ""; intDefault "has_detail" 0].

Definition detail_logs : list column :=
  [key "trace_id"; textDefault "session_id" ""; text "timestamp"; textDefault "request_body" "";
   textDefault "response_body" ""].

Definition stmts : list statement :=
  [CreateTable "model_nodes" model_nodes;
   CreateTable "api_keys" api_keys;
   CreateTable "request_logs" request_logs;
   CreateIndex "idx_rl_timestamp" "request_logs" "timestamp";
   CreateIndex "idx_rl_api_key_id" "request_logs" "api_key_id";
   CreateIndex "idx_rl_model_alias" "request_logs" "model_alias";
   CreateIndex "idx_rl_session_id" "request_logs" "session_id";
   CreateIndex "idx_rl_node_id" "request_logs" "node_id";
   CreateTable "detail_logs" detail_logs;
   CreateIndex "idx_dl_session_id" "detail_logs" "session_id";
   CreateIndex "idx_dl_timestamp" "detail_logs" "timestamp"].

(** The columns added when upgrading; their errors are dropped. *)
Definition alters : list statement :=
  [AddColumn "model_nodes" (nullable "rate_limit");
   AddColumn "model_nodes" (intDefault "tpm" 0);
   AddColumn "model_nodes" (intDefault "rpm" 0);
   AddColumn "api_keys" (intDefault "tpm" 0);
   AddColumn "api_keys" (intDefault "rpm" 0)].

Section migrate.
Context (fails : nat → option error).

(** [db.Exec] at position [i]. *)
Definition dbExec (i : nat) (s : statement) (db : database) : result error database :=
  match fails i with Some e => Err e | None => exec s db end.

Fixpoint createAll (i : nat) (ss : list statement) (db : database) : database * option error :=
  match ss with
  | [] => (db, None)
  | s :: ss =>
      match dbExec i s db with
      | Err e => (db, Some (mkError (err_Kind e) ("migrate: " +:+ err_Msg e)))
      | Ok db => createAll (S i) ss db
      end
  end.

Fixpoint alterAll (i : nat) (ss : list statement) (db : database) : database :=
  match ss with
  | [] => db
  | s :: ss => alterAll (S i) ss (match dbExec i s db with Ok db' => db' | Err _ => db end)
  end.

Definition migrate (db : database) : database * option error :=
  match createAll 0 stmts db with
  | (db, Some e) => (db, Some e)
  | (db, None) => (alterAll (length stmts) alters db, None)
  end.

Definition dsn (path : string) : string :=
  "file:" +:+ path +:+ "?_journal_mode=WAL&_busy_timeout=5000&_foreign_keys=on".

(** What [Open] leaves: the file's content, and whether a handle is open. *)
Definition Open (openErr : option error) (db : database) : database * result error bool :=
  match openErr with
  | Some e => (db, Err e)
  | None =>
      match migrate db with
      | (db, Some e) => (db, Err e)
      | (db, None) => (db, Ok true)
      end
  end.
End migrate.

(** ** What the statements of the program need *)

Definition required : list (string * list string) :=
  [("model_nodes", ["id"; "name"; "aliases"; "base_url"; "api_key"; "model_name"; "endpoint_type"; "tpm"; "rpm";
                    "override"; "timeout_sec"; "enabled"; "created_at"; "updated_at"]);
   ("api_keys", ["id"; "key_value"; "name"; "enabled"; "tpm"; "rpm"; "allow_models"; "created_at"; "expires_at"]);
   ("request_logs", c_name <$> request_logs);
   ("detail_logs", c_name <$> detail_logs)].

(** The columns that no version of [migrate] adds later. *)
Definition base (tbl : string) (cols : list string) : list string :=
  if decide (tbl = "model_nodes" ∨ tbl = "api_keys") then filter (λ c, c ≠ "tpm" ∧ c ≠ "rpm") cols else cols.

(** A database of this program, of any version: the tables it has, have at least
    the base columns, and a row has no value outside its columns. *)
Definition hasBase (db : database) : Prop :=
  Forall (λ p, ∀ t, db_tables db !! p.1 = Some t → base p.1 p.2 ⊆ names t) required.
Definition rowsOk (db : database) : Prop :=
  map_Forall (λ _ t, Forall (λ r : row, dom r ⊆ list_to_set (C := gset string) (names t)) (tb_rows t)) (db_tables db).

(** ** Databases that grow *)

Record extends (db db' : database) : Prop := {
  ex_tables tbl t : db_tables db !! tbl = Some t →
    ∃ t', db_tables db' !! tbl = Some t' ∧ names t ⊆ names t' ∧ Forall2 (⊆) (tb_rows t) (tb_rows t');
  ex_indexes : db_indexes db ⊆ db_indexes db';
}.

#[global] Instance extends_preorder : PreOrder extends.
Proof.
  split.
  - intros db. split; [|done]. intros tbl t Ht. exists t. split_and!; [done..|]. reflexivity.
  - intros db1 db2 db3 [H1 I1] [H2 I2]. split; [|by etrans]. intros tbl t Ht.
    destruct (H1 tbl t Ht) as (t2 & Ht2 & Hn2 & Hr2), (H2 tbl t2 Ht2) as (t3 & Ht3 & Hn3 & Hr3).
    exists t3. split_and!; [done|by etrans|]. by etrans.
Qed.

(** What a statement is there for. *)
Definition satisfied (s : statement) (db : database) : Prop :=
  match s with
  | CreateTable name _ => is_Some (db_tables db !! name)
  | CreateIndex name _ _ => name ∈ db_indexes db
  | AddColumn tbl c => ∃ t, db_tables db !! tbl = Some t ∧ c_name c ∈ names t
  end.

Lemma satisfied_mono s db db' : extends db db' → satisfied s db → satisfied s db'.
Proof.
  intros [Ht Hi]. destruct s; simpl.
  - intros [t E]. destruct (Ht _ _ E) as (t' & -> & _). by eexists.
  - set_solver.
  - intros (t & E & Hc). destruct (Ht _ _ E) as (t' & -> & Hn & _). eauto.
Qed.

Lemma exec_extends s db db' :
  rowsOk db → exec s db = Ok db' → extends db db' ∧ rowsOk db' ∧ satisfied s db'.
Proof.
  intros Hrows. destruct s as [name cols|name tbl col|tbl col]; simpl.
  - destruct (db_tables db !! name) as [t|] eqn:E; intros [= <-]; [by split_and!; [|done|eexists]|].
    split_and!.
    + split; [|done]. intros tbl t Ht. exists t. simpl. rewrite lookup_insert_ne by congruence.
      split_and!; [done..|]. reflexivity.
    + by apply map_Forall_insert_2.
    + simpl. rewrite lookup_insert_eq. by eexists.
  - case_decide; [intros [= <-]; by split_and!|]. destruct (db_tables db !! tbl) as [t|] eqn:E; [|done].
    case_decide; [|done]. intros [= <-]. split_and!; [|done|simpl; set_solver]. split; [|simpl; set_solver].
    intros tbl' t' Ht. exists t'. split_and!; [done..|]. reflexivity.
  - destruct (db_tables db !! tbl) as [t|] eqn:E; [|done]. case_decide as Hnew; [done|]. intros [= <-].
    pose proof (Hrows tbl t E) as Ht. simpl in Ht. split_and!.
    + split; [|done]. intros tbl' t' Ht'. simpl. rewrite lookup_insert. case_decide as Hn.
      * subst tbl'. simplify_eq. eexists. split_and!; [done|unfold names; simpl; rewrite fmap_app; set_solver|].
        simpl. apply Forall2_fmap_r, Forall2_same_length_lookup_2; [done|]. intros i x y Hx Hy. simplify_eq.
        apply insert_subseteq. apply not_elem_of_dom. rewrite Forall_lookup in Ht. specialize (Ht i x Hx).
        intros Hin%Ht. by apply elem_of_list_to_set in Hin.
      * exists t'. split_and!; [done..|]. reflexivity.
    + apply map_Forall_insert_2; [|done]. simpl. apply Forall_fmap. eapply Forall_impl; [exact Ht|].
      intros r Hr. unfold compose, fill, names. simpl. rewrite dom_insert, fmap_app, list_to_set_app. simpl.
      unfold names in Hr. set_solver.
    + simpl. rewrite lookup_insert_eq. eexists. split; [done|]. unfold names. simpl. rewrite fmap_app. set_solver.
Qed.

Lemma exec_again s db : satisfied s db → match exec s db with Ok db' => db' = db | Err _ => ∃ t c, s = AddColumn t c end.
Proof.
  destruct s as [name cols|name tbl col|tbl col]; simpl.
  - by intros [t ->].
  - intros Hin. by rewrite decide_True.
  - intros (t & -> & Hc). rewrite decide_True by done. eauto.
Qed.

(** ** The migration without driver errors *)

Definition noFails : nat → option error := λ _, None.

(** A create statement that can run where the tables of [seen] exist. *)
Definition canRun (seen : list string) (s : statement) : Prop :=
  match s with
  | CreateTable name cols => Forall (λ p, p.1 = name → base p.1 p.2 ⊆ c_name <$> cols) required
  | CreateIndex _ tbl col => tbl ∈ seen ∧ Exists (λ p, p.1 = tbl ∧ col ∈ base p.1 p.2) required
  | AddColumn _ _ => False
  end.

Fixpoint wellOrdered (seen : list string) (ss : list statement) : Prop :=
  match ss with
  | [] => True
  | s :: ss => canRun seen s ∧ wellOrdered (match s with CreateTable n _ => n :: seen | _ => seen end) ss
  end.

Lemma hasBase_extends db db' :
  extends db db' → (∀ tbl, is_Some (db_tables db' !! tbl) → is_Some (db_tables db !! tbl)) → hasBase db → hasBase db'.
Proof.
  intros [Ht _] Hback Hb. eapply Forall_impl; [exact Hb|]. intros [tbl cols] Hp t' Ht'. simpl in *.
  destruct (Hback tbl ltac:(by eexists)) as [t E]. destruct (Ht tbl t E) as (t2 & Ht2 & Hn & _). simplify_eq.
  etrans; [by apply Hp|done].
Qed.

Lemma create_runs seen s db :
  hasBase db → Forall (λ n, is_Some (db_tables db !! n)) seen → canRun seen s →
  ∃ db', exec s db = Ok db' ∧ hasBase db'.
Proof.
  intros Hb Hs Hc. destruct s as [name cols|name tbl col|]; [| |done]; simpl in *.
  - destruct (db_tables db !! name) as [t|] eqn:E; [by eexists|]. eexists. split; [done|]. unfold hasBase in *.
    rewrite Forall_forall in Hb, Hc |- *. intros p Hp t. simpl. rewrite lookup_insert. case_decide as Hn; [|by apply Hb].
    intros [= <-]. by apply (Hc p Hp).
  - destruct Hc as [Hin Hex]. case_decide; [by eexists|]. rewrite Forall_forall in Hs. destruct (Hs tbl Hin) as [t E].
    rewrite E. apply Exists_exists in Hex as (p & Hp & <- & Hcol). unfold hasBase in Hb. rewrite Forall_forall in Hb.
    specialize (Hb p Hp t E col Hcol) as Hcol'. rewrite decide_True by done. eexists. split; [done|].
    by apply Forall_forall.
Qed.

Lemma createAll_ok seen ss i db :
  wellOrdered seen ss → hasBase db → rowsOk db → Forall (λ n, is_Some (db_tables db !! n)) seen →
  ∃ db', createAll noFails i ss db = (db', None) ∧ hasBase db' ∧ rowsOk db' ∧ extends db db' ∧
    Forall (λ s, satisfied s db') ss.
Proof.
  revert seen i db. induction ss as [|s ss IH]; intros seen i db Hw Hb Hr Hs; [by exists db|].
  destruct Hw as [Hc Hw]. destruct (create_runs seen s db Hb Hs Hc) as (db1 & E & Hb1).
  destruct (exec_extends s db db1 Hr E) as (Hx1 & Hr1 & Hsat).
  destruct (IH _ (S i) db1 Hw Hb1 Hr1) as (db' & E' & Hb' & Hr' & Hx' & Hsats).
  { assert (Forall (λ n, is_Some (db_tables db1 !! n)) seen) as Hs1.
    { eapply Forall_impl; [exact Hs|]. intros n [t Ht]. destruct (ex_tables _ _ Hx1 n t Ht) as (t' & -> & _). by eexists. }
    destruct s; [constructor|..]; done. }
  exists db'. simpl. unfold dbExec, noFails at 1. rewrite E. split_and!; [done..|by etrans|].
  constructor; [by eapply satisfied_mono|done].
Qed.

Definition isAlter (s : statement) : Prop := match s with AddColumn _ _ => True | _ => False end.
Definition alterTable (s : statement) : string := match s with AddColumn t _ => t | _ => "" end.

Lemma alter_runs s i db :
  isAlter s → is_Some (db_tables db !! alterTable s) → rowsOk db →
  let db' := match dbExec noFails i s db with Ok db' => db' | Err _ => db end in
  extends db db' ∧ rowsOk db' ∧ satisfied s db' ∧
  (∀ tbl, is_Some (db_tables db' !! tbl) → is_Some (db_tables db !! tbl)).
Proof.
  destruct s as [| |tbl c]; [done..|]. intros _ [t E] Hr. unfold dbExec, noFails. simpl in E.
  destruct (exec (AddColumn tbl c) db) as [db1|e] eqn:Ex.
  - destruct (exec_extends _ _ _ Hr Ex) as (Hx & Hr1 & Hs). split_and!; [done..|]. simpl in Ex. rewrite E in Ex.
    case_decide; [done|]. simplify_eq. simpl. intros tbl'. rewrite lookup_insert. case_decide; [subst; eauto|done].
  - split_and!; [done..| |done]. simpl in Ex |- *. rewrite E in Ex. case_decide; [eauto|done].
Qed.

Lemma alterAll_ok ss i db :
  Forall isAlter ss → Forall (λ s, is_Some (db_tables db !! alterTable s)) ss → rowsOk db → hasBase db →
  let db' := alterAll noFails i ss db in
  extends db db' ∧ rowsOk db' ∧ hasBase db' ∧ Forall (λ s, satisfied s db') ss.
Proof.
  revert i db. induction ss as [|s ss IH]; intros i db Ha Ht Hr Hb; [done|].
  apply Forall_cons in Ha as [Ha Has], Ht as [Ht Hts]. destruct (alter_runs s i db Ha Ht Hr) as (Hx & Hr1 & Hs & Hback).
  cbn [alterAll]. set (db1 := match _ with Ok _ => _ | Err _ => _ end) in *.
  destruct (IH (S i) db1 Has) as (Hx' & Hr' & Hb' & Hss); [|done|by eapply hasBase_extends|].
  { eapply Forall_impl; [exact Hts|]. intros s' [t Et]. destruct (ex_tables _ _ Hx _ t Et) as (t' & -> & _). by eexists. }
  split_and!; [by etrans|done|done|]. constructor; [by eapply satisfied_mono|done].
Qed.

Lemma createAll_again ss i db :
  Forall (λ s, satisfied s db ∧ ¬ isAlter s) ss → createAll noFails i ss db = (db, None).
Proof.
  intros Hs. revert i. induction Hs as [|s ss [Hsat Hc] Hss IH]; intros i; [done|]. simpl. unfold dbExec, noFails at 1.
  pose proof (exec_again s db Hsat) as He. destruct (exec s db) as [db'|e]; [subst; apply IH|].
  by destruct He as (t & c & ->), Hc.
Qed.

Lemma alterAll_again ss i db : Forall (λ s, satisfied s db) ss → alterAll noFails i ss db = db.
Proof.
  intros Hs. revert i. induction Hs as [|s ss Hsat Hss IH]; intros i; [done|]. simpl. unfold dbExec, noFails at 1.
  pose proof (exec_again s db Hsat) as He. destruct (exec s db) as [db'|e]; [subst; apply IH|apply IH].
Qed.

Lemma stmts_ordered : wellOrdered [] stmts.
Proof. repeat split; apply (bool_decide_unpack _); by vm_compute. Qed.

(** A table with the base columns, [tpm] and [rpm]. *)
Lemma limits_complete db tbl cols t :
  db_tables db !! tbl = Some t → base tbl cols ⊆ names t → tbl = "model_nodes" ∨ tbl = "api_keys" →
  satisfied (AddColumn tbl (intDefault "tpm" 0)) db → satisfied (AddColumn tbl (intDefault "rpm" 0)) db →
  cols ⊆ names t.
Proof.
  intros E Hb Htbl (t1 & E1 & H1) (t2 & E2 & H2) c Hc. rewrite E in E1, E2. simplify_eq.
  unfold base in Hb. rewrite decide_True in Hb by done.
  destruct (decide (c = "tpm")) as [->|]; [done|]. destruct (decide (c = "rpm")) as [->|]; [done|].
  apply Hb. by apply list_elem_of_filter.
Qed.

Lemma required_present db :
  hasBase db → Forall (λ s, satisfied s db) stmts → Forall (λ s, satisfied s db) alters →
  Forall (λ p, ∃ t, db_tables db !! p.1 = Some t ∧ p.2 ⊆ names t) required.
Proof.
  intros Hb Hs Ha. pose proof (λ i s, Forall_lookup_1 _ stmts i s Hs) as Hcreated.
  pose proof (λ i s, Forall_lookup_1 _ alters i s Ha) as Hadded.
  pose proof (λ i p, Forall_lookup_1 _ required i p Hb) as Hbase.
  destruct (Hcreated 0%nat _ eq_refl) as [t0 E0], (Hcreated 1%nat _ eq_refl) as [t1 E1],
    (Hcreated 2%nat _ eq_refl) as [t2 E2], (Hcreated 8%nat _ eq_refl) as [t3 E3].
  apply Forall_cons. split; [exists t0; split; [exact E0|]|].
  { eapply limits_complete; [exact E0|exact (Hbase 0%nat _ eq_refl t0 E0)|by left|
      exact (Hadded 1%nat _ eq_refl)|exact (Hadded 2%nat _ eq_refl)]. }
  apply Forall_cons. split; [exists t1; split; [exact E1|]|].
  { eapply limits_complete; [exact E1|exact (Hbase 1%nat _ eq_refl t1 E1)|by right|
      exact (Hadded 3%nat _ eq_refl)|exact (Hadded 4%nat _ eq_refl)]. }
  apply Forall_cons. split; [exists t2; split; [exact E2|exact (Hbase 2%nat _ eq_refl t2 E2)]|].
  apply Forall_cons. split; [exists t3; split; [exact E3|exact (Hbase 3%nat _ eq_refl t3 E3)]|done].
Qed.

(** C31. The migration brings every database of the program up to date: from an
    empty file or a database of an older version it succeeds, every table
    has every column that the program's statements name, no row is lost or
    changed (new columns hold their default), and migrating again changes
    nothing. *)
Theorem migrate_upgrades (db : database) :
  hasBase db → rowsOk db →
  ∃ db', migrate noFails db = (db', None) ∧ extends db db' ∧
    Forall (λ p, ∃ t, db_tables db' !! p.1 = Some t ∧ p.2 ⊆ names t) required ∧
    migrate noFails db' = (db', None).
Proof.
  intros Hb Hr. destruct (createAll_ok [] stmts 0 db stmts_ordered Hb Hr) as (db1 & E1 & Hb1 & Hr1 & Hx1 & Hs1); [done|].
  assert (Forall isAlter alters) as Ha by (by repeat constructor).
  pose proof (λ i s, Forall_lookup_1 _ stmts i s Hs1) as Hcreated.
  assert (Forall (λ s, is_Some (db_tables db1 !! alterTable s)) alters) as Ht.
  { pose proof (Hcreated 0%nat _ eq_refl). pose proof (Hcreated 1%nat _ eq_refl). by repeat constructor. }
  destruct (alterAll_ok alters (length stmts) db1 Ha Ht Hr1 Hb1) as (Hx2 & Hr2 & Hb2 & Hs2).
  unfold migrate. rewrite E1. set (db2 := alterAll _ _ _ _) in *. exists db2.
  assert (Forall (λ s, satisfied s db2) stmts) as Hs3.
  { eapply Forall_impl; [exact Hs1|]. intros s. by apply satisfied_mono. }
  split_and!; [done|by etrans| |].
  - by apply required_present.
  - rewrite createAll_again; [by rewrite alterAll_again|]. apply Forall_and. split; [done|].
    repeat constructor; by intros [].
Qed.

(** A database from before keys had limits of their own. *)
Definition demo_row : row := {["id" := Text "k1"; "key_value" := Text "pk-1"]}.
Definition demo_old : database := mkDB {["api_keys" := mkTable api_keys [demo_row]]} ∅.

Lemma migrate_upgrades_witness :
  ∃ db', migrate noFails demo_old = (db', None) ∧ extends demo_old db' ∧
    (t ← db_tables db' !! "api_keys"; head (tb_rows t)) = Some (<["rpm" := Integer 0]> (<["tpm" := Integer 0]> demo_row)).
Proof.
  destruct (migrate_upgrades demo_old) as (db' & Hm & Hx & _).
  - repeat (apply Forall_cons; split); [..|done]; intros t Ht; simpl in Ht.
    + by rewrite lookup_singleton_ne in Ht.
    + rewrite lookup_singleton_eq in Ht. injection Ht as <-. apply (bool_decide_unpack _). by vm_compute.
    + by rewrite lookup_singleton_ne in Ht.
    + by rewrite lookup_singleton_ne in Ht.
  - apply map_Forall_singleton. simpl. apply Forall_singleton. apply (bool_decide_unpack _). by vm_compute.
  - exists db'. split_and!; [done|done|]. replace db' with (migrate noFails demo_old).1 by (by rewrite Hm).
    clear. vm_compute. reflexivity.
Defined.

End Schema.
