(* ===== verification/Config.v ===== *)
(** * package config

    [src/internal/config/config.go].  The environment is a function from names to
    values, where an unset variable reads as the empty string.  The file system
    and the TOML decoder are arguments: [Stat], [filepath.Join] ([Join]) and
    [toml.DecodeFile] ([DecodeFile]), which fills a configuration with what a
    file sets.  A [nil] slice and an empty one are the same list here. *)
From S2P Require Import Prelude GoStd GoFloat GoTime GoJson Domain.
From Stdlib Require Import Ascii.

Module Configuration.

Record Config := { cf_AppConfig : AppConfig; cf_DBPath : string }.

Definition DefaultConfigDir : string := "data".

Definition noRedis : RedisConfig := {| rd_Addr := ""; rd_Password := ""; rd_DB := 0 |}.

Definition defaults : Config :=
  {| cf_DBPath := "proxyllm.db";
     cf_AppConfig :=
       {| ac_Server := {| sv_Addr := ":8080"; sv_CORSOrigins := ["*"]; sv_AdminToken := "";
                          sv_MaxMemoryMB := 1024 |};
          ac_RateLimit := {| rl_TPM := 0; rl_RPM := 0; rl_MaxRetries := 2 |};
          ac_Logging := {| lg_BasicMaxRows := 0; lg_BasicMaxDays := 30; lg_BasicMaxSizeMB := 8192;
                           lg_DetailMaxRows := 0; lg_DetailMaxDays := 7; lg_DetailMaxSizeMB := 2048;
                           lg_BufferSize := 4096; lg_FlushIntervalMs := 500 |};
          ac_Cache := {| cc_Type := "memory"; cc_Redis := noRedis |};
          ac_MQ := {| mq_Type := "memory"; mq_Redis := noRedis; mq_RabbitMQ := {| rq_URL := "" |} |};
          ac_Queue := {| qc_DefaultPriority := 0; qc_MaxQueueSize := 10000 |};
          ac_Worker := {| wk_PoolSize := 10; wk_MaxRetryAttempts := 3; wk_RetryDelayMs := 100;
                          wk_MaxWaitTimeSec := 1800 |};
          ac_Providers := ∅; ac_APIKeys := ∅ |} |}.

Section config.
(** [os.Getenv]. *)
Context (Getenv : string → string).

Definition envInt (key : string) : option Z :=
  let v := Getenv key in
  if bool_decide (v = "") then None
  else match Atoi v with
       | (i, None) => Some i
       | (_, Some _) => None
       end.

(** [if v := os.Getenv(key); v != "" { field = v }] and the same for [envInt]. *)
Definition setStr (key field : string) : string :=
  if bool_decide (Getenv key = "") then field else Getenv key.
Definition setInt (key : string) (field : Z) : Z :=
  match envInt key with Some v => v | None => field end.

Definition envServer (s : ServerConfig) : ServerConfig :=
  {| sv_Addr := setStr "PROXYLLM_SERVER_ADDR" (sv_Addr s);
     sv_CORSOrigins := if bool_decide (Getenv "PROXYLLM_SERVER_CORS_ORIGINS" = "") then sv_CORSOrigins s
                       else Split (Getenv "PROXYLLM_SERVER_CORS_ORIGINS") ","%char;
     sv_AdminToken := setStr "PROXYLLM_SERVER_ADMIN_TOKEN" (sv_AdminToken s);
     sv_MaxMemoryMB := setInt "PROXYLLM_MAX_MEMORY_MB" (sv_MaxMemoryMB s) |}.

Definition envRateLimit (r : RateLimitConfig) : RateLimitConfig :=
  {| rl_TPM := setInt "PROXYLLM_RL_TPM" (rl_TPM r); rl_RPM := setInt "PROXYLLM_RL_RPM" (rl_RPM r);
     rl_MaxRetries := setInt "PROXYLLM_RL_MAX_RETRIES" (rl_MaxRetries r) |}.

Definition envLogging (l : LoggingConfig) : LoggingConfig :=
  {| lg_BasicMaxRows := setInt "PROXYLLM_LOG_BASIC_MAX_ROWS" (lg_BasicMaxRows l);
     lg_BasicMaxDays := setInt "PROXYLLM_LOG_BASIC_MAX_DAYS" (lg_BasicMaxDays l);
     lg_BasicMaxSizeMB := setInt "PROXYLLM_LOG_BASIC_MAX_SIZE_MB" (lg_BasicMaxSizeMB l);
     lg_DetailMaxRows := setInt "PROXYLLM_LOG_DETAIL_MAX_ROWS" (lg_DetailMaxRows l);
     lg_DetailMaxDays := setInt "PROXYLLM_LOG_DETAIL_MAX_DAYS" (lg_DetailMaxDays l);
     lg_DetailMaxSizeMB := setInt "PROXYLLM_LOG_DETAIL_MAX_SIZE_MB" (lg_DetailMaxSizeMB l);
     lg_BufferSize := setInt "PROXYLLM_LOG_BUFFER_SIZE" (lg_BufferSize l);
     lg_FlushIntervalMs := setInt "PROXYLLM_LOG_FLUSH_INTERVAL_MS" (lg_FlushIntervalMs l) |}.

Definition envCache (c : CacheConfig) : CacheConfig :=
  {| cc_Type := setStr "PROXYLLM_CACHE_TYPE" (cc_Type c);
     cc_Redis := {| rd_Addr := setStr "PROXYLLM_CACHE_REDIS_ADDR" (rd_Addr (cc_Redis c));
                    rd_Password := setStr "PROXYLLM_CACHE_REDIS_PASSWORD" (rd_Password (cc_Redis c));
                    rd_DB := setInt "PROXYLLM_CACHE_REDIS_DB" (rd_DB (cc_Redis c)) |} |}.

Definition envMQ (m : MQConfig) : MQConfig :=
  {| mq_Type := setStr "PROXYLLM_MQ_TYPE" (mq_Type m);
     mq_Redis := {| rd_Addr := setStr "PROXYLLM_MQ_REDIS_ADDR" (rd_Addr (mq_Redis m));
                    rd_Password := setStr "PROXYLLM_MQ_REDIS_PASSWORD" (rd_Password (mq_Redis m));
                    rd_DB := setInt "PROXYLLM_MQ_REDIS_DB" (rd_DB (mq_Redis m)) |};
     mq_RabbitMQ := {| rq_URL := setStr "PROXYLLM_MQ_RABBITMQ_URL" (rq_URL (mq_RabbitMQ m)) |} |}.

Definition applyEnv (cfg : Config) : Config :=
  let a := cf_AppConfig cfg in
  {| cf_DBPath := setStr "PROXYLLM_DB_PATH" (cf_DBPath cfg);
     cf_AppConfig :=
       {| ac_Server := envServer (ac_Server a); ac_RateLimit := envRateLimit (ac_RateLimit a);
          ac_Logging := envLogging (ac_Logging a); ac_Cache := envCache (ac_Cache a);
          ac_MQ := envMQ (ac_MQ a); ac_Queue := ac_Queue a; ac_Worker := ac_Worker a;
          ac_Providers := ac_Providers a; ac_APIKeys := ac_APIKeys a |} |}.

(** The body of the loop over [cfg.Providers], and of the loop over [cfg.APIKeys]. *)
Definition populateNode (id : string) (n : ModelNode) : ModelNode :=
  {| node_ID := id; node_Name := node_Name n; node_Aliases := node_Aliases n;
     node_BaseURL := node_BaseURL n; node_APIKey := node_APIKey n; node_ModelName := node_ModelName n;
     node_EndpointType := if bool_decide (node_EndpointType n = "") then EndpointAll else node_EndpointType n;
     node_TPM := node_TPM n; node_RPM := node_RPM n; node_Override := node_Override n;
     node_TimeoutSec := node_TimeoutSec n; node_Enabled := node_Enabled n;
     node_CreatedAt := node_CreatedAt n; node_UpdatedAt := node_UpdatedAt n |}.

Definition populateKey (id : string) (k : APIKey) : APIKey :=
  {| key_ID := id; key_Key := key_Key k; key_Name := key_Name k; key_Enabled := key_Enabled k;
     key_TPM := key_TPM k; key_RPM := key_RPM k; key_AllowModels := key_AllowModels k;
     key_CreatedAt := key_CreatedAt k; key_ExpiresAt := key_ExpiresAt k |}.

Definition populate (cfg : Config) : Config :=
  let a := cf_AppConfig cfg in
  {| cf_DBPath := cf_DBPath cfg;
     cf_AppConfig :=
       {| ac_Server := ac_Server a; ac_RateLimit := ac_RateLimit a; ac_Logging := ac_Logging a;
          ac_Cache := ac_Cache a; ac_MQ := ac_MQ a; ac_Queue := ac_Queue a; ac_Worker := ac_Worker a;
          ac_Providers := map_imap (λ id n, Some (populateNode id n)) (ac_Providers a);
          ac_APIKeys := map_imap (λ id k, Some (populateKey id k)) (ac_APIKeys a) |} |}.

Context (Stat : string → option error) (Join : string → string → string).
Context (DecodeFile : string → Config → result error Config).

(** [if _, err := os.Stat(path); err == nil { toml.DecodeFile(path, cfg) ... }]. *)
Definition loadFile (path : string) (cfg : Config) : result error Config :=
  match Stat path with
  | Some _ => Ok cfg
  | None => DecodeFile path cfg
  end.

Definition placeDB (dir : string) (cfg : Config) : Config :=
  if bool_decide (cf_DBPath cfg = "proxyllm.db")
  then {| cf_AppConfig := cf_AppConfig cfg; cf_DBPath := Join dir "proxyllm.db" |}
  else cfg.

Definition Load (dir : string) : result error Config :=
  (cfg <-? loadFile (Join dir "config.toml") defaults ;;
   cfg <-? loadFile (Join dir "providers.toml") cfg ;;
   cfg <-? loadFile (Join dir "api_keys.toml") cfg ;;
   Ok (populate (applyEnv (placeDB dir cfg))))%go.

(** ** Precedence *)

(** Reading files one after the other into a configuration: a path that cannot be
    examined is skipped, the first file that does not decode ends it. *)
Inductive reads : list string → Config → result error Config → Prop :=
| reads_none cfg : reads [] cfg (Ok cfg)
| reads_missing path paths cfg r e :
    Stat path = Some e → reads paths cfg r → reads (path :: paths) cfg r
| reads_file path paths cfg cfg' r :
    Stat path = None → DecodeFile path cfg = Ok cfg' → reads paths cfg' r → reads (path :: paths) cfg r
| reads_error path paths cfg e :
    Stat path = None → DecodeFile path cfg = Err e → reads (path :: paths) cfg (Err e).

Definition configFiles (dir : string) : list string :=
  [Join dir "config.toml"; Join dir "providers.toml"; Join dir "api_keys.toml"].

Lemma reads_fun paths cfg r r' : reads paths cfg r → reads paths cfg r' → r = r'.
Proof.
  intros H. revert r'. induction H; intros r' H'; inversion H'; subst; try congruence; apply IHreads; congruence.
Qed.

(** What no file changes. *)
Lemma reads_keep {A} (get : Config → A) paths cfg file :
  (∀ path c c', DecodeFile path c = Ok c' → get c' = get c) → reads paths cfg (Ok file) → get file = get cfg.
Proof.
  intros Hg H. remember (Ok file) as r eqn:E. induction H; simplify_eq; auto.
  rewrite IHreads by done. eauto.
Qed.

Lemma Load_reads dir :
  ∃ r, reads (configFiles dir) defaults r ∧
    Load dir = match r with Ok c => Ok (populate (applyEnv (placeDB dir c))) | Err e => Err e end.
Proof.
  assert (∀ path paths cfg (k : Config → result error Config),
    (∀ c, ∃ r, reads paths c r ∧ k c = match r with Ok c => Ok (populate (applyEnv (placeDB dir c))) | Err e => Err e end) →
    ∃ r, reads (path :: paths) cfg r ∧
      match loadFile path cfg with Ok x => k x | Err e => Err e end =
      match r with Ok c => Ok (populate (applyEnv (placeDB dir c))) | Err e => Err e end) as Hone.
  { intros path paths cfg k Hk. unfold loadFile. destruct (Stat path) as [e|] eqn:Es.
    - destruct (Hk cfg) as (r & Hr & E). exists r. split; [by eapply reads_missing|done].
    - destruct (DecodeFile path cfg) as [c|e] eqn:Ed.
      + destruct (Hk c) as (r & Hr & E). exists r. split; [by eapply reads_file|done].
      + exists (Err e). split; [by apply reads_error|done]. }
  unfold Load, configFiles. do 3 (apply Hone; intros ?). eexists. split; [apply reads_none|done].
Qed.

(** The variables that hold a number, each with the default and the setting. *)
Definition intSettings : list (string * Z * (Config → Z)) :=
  let a := cf_AppConfig in
  [("PROXYLLM_MAX_MEMORY_MB", 1024, λ c, sv_MaxMemoryMB (ac_Server (a c)));
   ("PROXYLLM_RL_TPM", 0, λ c, rl_TPM (ac_RateLimit (a c)));
   ("PROXYLLM_RL_RPM", 0, λ c, rl_RPM (ac_RateLimit (a c)));
   ("PROXYLLM_RL_MAX_RETRIES", 2, λ c, rl_MaxRetries (ac_RateLimit (a c)));
   ("PROXYLLM_LOG_BASIC_MAX_ROWS", 0, λ c, lg_BasicMaxRows (ac_Logging (a c)));
   ("PROXYLLM_LOG_BASIC_MAX_DAYS", 30, λ c, lg_BasicMaxDays (ac_Logging (a c)));
   ("PROXYLLM_LOG_BASIC_MAX_SIZE_MB", 8192, λ c, lg_BasicMaxSizeMB (ac_Logging (a c)));
   ("PROXYLLM_LOG_DETAIL_MAX_ROWS", 0, λ c, lg_DetailMaxRows (ac_Logging (a c)));
   ("PROXYLLM_LOG_DETAIL_MAX_DAYS", 7, λ c, lg_DetailMaxDays (ac_Logging (a c)));
   ("PROXYLLM_LOG_DETAIL_MAX_SIZE_MB", 2048, λ c, lg_DetailMaxSizeMB (ac_Logging (a c)));
   ("PROXYLLM_LOG_BUFFER_SIZE", 4096, λ c, lg_BufferSize (ac_Logging (a c)));
   ("PROXYLLM_LOG_FLUSH_INTERVAL_MS", 500, λ c, lg_FlushIntervalMs (ac_Logging (a c)));
   ("PROXYLLM_CACHE_REDIS_DB", 0, λ c, rd_DB (cc_Redis (ac_Cache (a c))));
   ("PROXYLLM_MQ_REDIS_DB", 0, λ c, rd_DB (mq_Redis (ac_MQ (a c))))].

(** The variables that hold a text. *)
Definition strSettings : list (string * string * (Config → string)) :=
  let a := cf_AppConfig in
  [("PROXYLLM_SERVER_ADDR", ":8080", λ c, sv_Addr (ac_Server (a c)));
   ("PROXYLLM_SERVER_ADMIN_TOKEN", "", λ c, sv_AdminToken (ac_Server (a c)));
   ("PROXYLLM_CACHE_TYPE", "memory", λ c, cc_Type (ac_Cache (a c)));
   ("PROXYLLM_CACHE_REDIS_ADDR", "", λ c, rd_Addr (cc_Redis (ac_Cache (a c))));
   ("PROXYLLM_CACHE_REDIS_PASSWORD", "", λ c, rd_Password (cc_Redis (ac_Cache (a c))));
   ("PROXYLLM_MQ_TYPE", "memory", λ c, mq_Type (ac_MQ (a c)));
   ("PROXYLLM_MQ_REDIS_ADDR", "", λ c, rd_Addr (mq_Redis (ac_MQ (a c))));
   ("PROXYLLM_MQ_REDIS_PASSWORD", "", λ c, rd_Password (mq_Redis (ac_MQ (a c))));
   ("PROXYLLM_MQ_RABBITMQ_URL", "", λ c, rq_URL (mq_RabbitMQ (ac_MQ (a c))))].

Lemma intSettings_set dir c key dflt get :
  (key, dflt, get) ∈ intSettings → get defaults = dflt ∧ get (populate (applyEnv (placeDB dir c))) = setInt key (get c).
Proof.
  unfold intSettings, placeDB. rewrite !elem_of_cons, elem_of_nil.
  intros H; destruct_or! H; simplify_eq; (split; [done|]); by case_bool_decide.
Qed.

Lemma strSettings_set dir c key dflt get :
  (key, dflt, get) ∈ strSettings → get defaults = dflt ∧ get (populate (applyEnv (placeDB dir c))) = setStr key (get c).
Proof.
  unfold strSettings, placeDB. rewrite !elem_of_cons, elem_of_nil.
  intros H; destruct_or! H; simplify_eq; (split; [done|]); by case_bool_decide.
Qed.

Lemma setInt_valid key field v : in_int64 v → Getenv key = FormatInt v → setInt key field = v.
Proof.
  intros Hv Hk. pose proof (ParseInt_FormatInt v Hv) as Hp.
  unfold setInt, envInt, Atoi. rewrite Hk. case_bool_decide as He; [by rewrite He in Hp|].
  by rewrite Hp.
Qed.

Lemma setInt_invalid key field :
  Getenv key = "" ∨ is_Some (Atoi (Getenv key)).2 → setInt key field = field.
Proof.
  unfold setInt, envInt. intros H. case_bool_decide as He; [done|].
  destruct H as [?|[e Hs]]; [done|]. destruct (Atoi (Getenv key)) as [i []]; done.
Qed.


End config.

(** *** A concrete environment *)

Definition demo_env (key : string) : string :=
  if bool_decide (key = "PROXYLLM_RL_RPM") then "60"
  else if bool_decide (key = "PROXYLLM_RL_TPM") then "lots"
  else if bool_decide (key = "PROXYLLM_SERVER_ADDR") then ":9000" else "".

(** One file, [config.toml], that sets the limits and leaves the rest. *)
Definition demo_decode (path : string) (c : Config) : result error Config :=
  let a := cf_AppConfig c in
  Ok {| cf_DBPath := cf_DBPath c;
        cf_AppConfig :=
          {| ac_Server := ac_Server a; ac_RateLimit := {| rl_TPM := 500; rl_RPM := 5; rl_MaxRetries := 1 |};
             ac_Logging := ac_Logging a; ac_Cache := ac_Cache a; ac_MQ := ac_MQ a; ac_Queue := ac_Queue a;
             ac_Worker := ac_Worker a; ac_Providers := ac_Providers a; ac_APIKeys := ac_APIKeys a |} |}.

Definition demo_stat (path : string) : option error :=
  if bool_decide (path = "data/config.toml") then None else Some (mkError OtherError "no such file").

(** The variable wins over the file ([RPM]), the file over the default where the
    variable does not parse ([TPM]), and the default stands where neither says
    anything ([FlushIntervalMs]); the database moves into the directory. *)
Example demo_load :
  match Load demo_env demo_stat (λ d f, d +:+ "/" +:+ f) demo_decode "data" with
  | Ok c =>
      let a := cf_AppConfig c in
      (rl_RPM (ac_RateLimit a), rl_TPM (ac_RateLimit a), lg_FlushIntervalMs (ac_Logging a), cf_DBPath c)
      = (60, 500, 500, "data/proxyllm.db")
  | Err _ => False
  end.
Proof. by vm_compute. Qed.

End Configuration.
