(* ===== verification/Startup.v ===== *)
(** * cmd/proxyllm/main.go: start-up and the limits it hands out

    What [main] does between loading the configuration and serving: the data
    directory, the memory limit, the choice of the cache, the synchronisation of
    the database with the configured providers and keys, the router's first
    table, the limits per model and the cached limits per key.  [os.Exit(1)] is
    the error of a step.  The order in which a map is iterated is a list of its
    entries; the clock at a write ([clock], by identifier) and the errors of
    statements are arguments. *)
From S2P Require Import Prelude GoStd GoFloat GoTime GoJson Domain Store Config Router Auth.
From Stdlib Require Import Ascii.
Import Store Configuration Routing.

Module Startup.

(** [defaultDir] and [flag.String("data", defaultDir, ...)]; [isDir] tells that
    [os.Stat] finds a directory. *)
Definition dataDir (Getenv : string → string) (isDir : string → bool) (flag : option string) : string :=
  let defaultDir :=
    if bool_decide (Getenv "PROXYLLM_DATA_DIR" = "")
    then (if isDir "/app/data" then "/app/data" else DefaultConfigDir)
    else Getenv "PROXYLLM_DATA_DIR" in
  default defaultDir flag.

(** The argument of [debug.SetMemoryLimit], when it is called. *)
Definition memoryLimit (cfg : Config) : option Z :=
  let mb := sv_MaxMemoryMB (ac_Server (cf_AppConfig cfg)) in
  if mb >? 0 then Some (wrap64 (mb * 1024 * 1024)) else None.

Inductive cacheChoice := MemoryCache | RedisCache (addr password : string) (db : Z).

(** [ping] is the error of [rc.Ping]. *)
Definition chooseCache (cfg : CacheConfig) (ping : option error) : cacheChoice :=
  if bool_decide (cc_Type cfg = "redis") then
    match ping with
    | Some _ => MemoryCache
    | None => RedisCache (rd_Addr (cc_Redis cfg)) (rd_Password (cc_Redis cfg)) (rd_DB (cc_Redis cfg))
    end
  else MemoryCache.

(** ** The database and the configuration *)

(** [n.ID = id] and [k.ID = id]. *)
Definition withNodeID (id : string) (n : ModelNode) : ModelNode :=
  {| node_ID := id; node_Name := node_Name n; node_Aliases := node_Aliases n;
     node_BaseURL := node_BaseURL n; node_APIKey := node_APIKey n; node_ModelName := node_ModelName n;
     node_EndpointType := node_EndpointType n; node_TPM := node_TPM n; node_RPM := node_RPM n;
     node_Override := node_Override n; node_TimeoutSec := node_TimeoutSec n;
     node_Enabled := node_Enabled n; node_CreatedAt := node_CreatedAt n; node_UpdatedAt := node_UpdatedAt n |}.

Definition withKeyID (id : string) (k : APIKey) : APIKey :=
  {| key_ID := id; key_Key := key_Key k; key_Name := key_Name k; key_Enabled := key_Enabled k;
     key_TPM := key_TPM k; key_RPM := key_RPM k; key_AllowModels := key_AllowModels k;
     key_CreatedAt := key_CreatedAt k; key_ExpiresAt := key_ExpiresAt k |}.

(** ** Shared lemmas *)

(** Deleting what is not to be kept. *)
Lemma view_deletions {R X A} (id : R → string) (scan : R → A) (f : X → string) (keep : string → Prop)
    `{∀ i, Decision (keep i)} (l : list X) (db : list R) i :
  view id scan (foldl (λ db x, if decide (keep (f x)) then db else deleteID id (f x) db) db l) !! i =
  if decide (i ∈ f <$> l ∧ ¬ keep i) then None else view id scan db !! i.
Proof.
  revert db. induction l as [|x l IH]; intros db; cbn [foldl].
  - rewrite decide_False; [done|]. intros [[]%elem_of_nil _].
  - rewrite IH, fmap_cons.
    destruct (decide (i ∈ f x :: (f <$> l) ∧ ¬ keep i)) as [Hr|Hr]; rewrite elem_of_cons in Hr;
      (destruct (decide (i ∈ f <$> l ∧ ¬ keep i)) as [Hi|Hi]; [tauto|]);
      (destruct (decide (keep (f x))) as [Hk|Hk]; [|rewrite view_deleteID, lookup_delete]).
    + destruct Hr as [[->|] ?]; tauto.
    + rewrite decide_True; [done|]. destruct Hr as [[->|] ?]; tauto.
    + done.
    + rewrite decide_False; [done|]. intros <-. tauto.
Qed.

Lemma sublist_deletions {R X} (id : R → string) (f : X → string) (keep : string → Prop)
    `{∀ i, Decision (keep i)} (l : list X) (db : list R) :
  foldl (λ db x, if decide (keep (f x)) then db else deleteID id (f x) db) db l `sublist_of` db.
Proof.
  revert db. induction l as [|x l IH]; intros db; simpl; [done|].
  case_decide; [apply IH|]. etrans; [apply IH|apply sublist_filter].
Qed.

(** The table that [Sync] builds from nodes with distinct identifiers. *)
Lemma synced_lookup (l : list ModelNode) (m : NodeMap) i n :
  NoDup (node_ID <$> l) → (∀ x, x ∈ l → m !! node_ID x = None) →
  fold_left (λ (m : NodeMap) n, <[node_ID n := n]> m) l m !! i = Some n ↔
  m !! i = Some n ∨ (n ∈ l ∧ node_ID n = i).
Proof.
  revert m. induction l as [|x l IH]; intros m Hn Hm; csimpl in *; [set_solver|].
  apply NoDup_cons in Hn as [Hx Hn]. rewrite IH; [|done|].
  - rewrite lookup_insert_Some, elem_of_cons.
    pose proof (Hm x ltac:(set_solver)). naive_solver congruence.
  - intros y Hy. rewrite lookup_insert_ne; [apply Hm; set_solver|].
    intros He. apply Hx. rewrite He. by apply list_elem_of_fmap_2.
Qed.

(** ** Limits per model *)

Definition limitAliases (tpm rpm : Z) (aliases : list string) (m : gmap string RateLimitConfig)
    : gmap string RateLimitConfig :=
  foldl (λ m alias, match m !! alias with
                    | Some _ => m
                    | None => <[alias := {| rl_TPM := tpm; rl_RPM := rpm; rl_MaxRetries := 0 |}]> m
                    end) m aliases.

Definition modelLimits (dbNodes : list ModelNode) : gmap string RateLimitConfig :=
  foldl (λ m node, if (node_TPM node <=? 0) && (node_RPM node <=? 0) then m
                   else limitAliases (node_TPM node) (node_RPM node) (node_Aliases node) m) ∅ dbNodes.

Lemma limitAliases_lookup tpm rpm aliases m alias :
  limitAliases tpm rpm aliases m !! alias =
  match m !! alias with
  | Some c => Some c
  | None => if decide (alias ∈ aliases) then Some {| rl_TPM := tpm; rl_RPM := rpm; rl_MaxRetries := 0 |}
            else None
  end.
Proof.
  unfold limitAliases. revert m. induction aliases as [|a aliases IH]; intros m; cbn [foldl].
  - rewrite decide_False by apply not_elem_of_nil. by destruct (m !! alias).
  - rewrite IH. destruct (m !! a) as [c|] eqn:Ha.
    + destruct (m !! alias) eqn:Hal; [done|]. apply decide_ext. rewrite elem_of_cons. naive_solver.
    + destruct (decide (a = alias)) as [->|Hne].
      * by rewrite lookup_insert_eq, Ha, decide_True by (by left).
      * rewrite lookup_insert_ne by done. destruct (m !! alias); [done|]. apply decide_ext.
        rewrite elem_of_cons. naive_solver.
Qed.

Definition limits (alias : string) (n : ModelNode) : Prop :=
  alias ∈ node_Aliases n ∧ (0 < node_TPM n ∨ 0 < node_RPM n).
#[global] Instance limits_dec alias n : Decision (limits alias n).
Proof. unfold limits. apply _. Defined.

Lemma modelLimits_first nodes alias :
  modelLimits nodes !! alias =
  (λ n, {| rl_TPM := node_TPM n; rl_RPM := node_RPM n; rl_MaxRetries := 0 |})
    <$> head (filter (limits alias) nodes).
Proof.
  unfold modelLimits.
  assert (∀ m, foldl (λ m node, if (node_TPM node <=? 0) && (node_RPM node <=? 0) then m
                   else limitAliases (node_TPM node) (node_RPM node) (node_Aliases node) m) m nodes !! alias =
     match m !! alias with
     | Some c => Some c
     | None => (λ n, {| rl_TPM := node_TPM n; rl_RPM := node_RPM n; rl_MaxRetries := 0 |})
                 <$> head (filter (limits alias) nodes)
     end) as ->; [|by rewrite lookup_empty].
  induction nodes as [|n nodes IH]; intros m; simpl; [by destruct (m !! alias)|].
  rewrite IH, filter_cons. destruct ((node_TPM n <=? 0) && (node_RPM n <=? 0)) eqn:Hz.
  - bools. rewrite (decide_False (P := limits alias n)); [done|]. intros [_ ?]. lia.
  - rewrite limitAliases_lookup. destruct (m !! alias); [done|].
    apply andb_false_iff in Hz. rewrite !Z.leb_gt in Hz.
    destruct (decide (alias ∈ node_Aliases n)) as [Ha|Ha].
    + rewrite (decide_True (P := limits alias n)); [done|]. split; [done|lia].
    + rewrite (decide_False (P := limits alias n)); [done|]. by intros [? _].
Qed.

(** ** Synchronisation *)

Section startup.
Context (slow : string → option Z).
Context (encList : list string → string) (decList : string → list string).
Context (encMap : gmap string json → string) (decMap : string → gmap string json).
Context (byName : list nodeRow → list nodeRow) (byCreated : list keyRow → list keyRow).
Context (constraintError : error).
Context (clock : string → Z).

(** The errors of the statements of one start, by the identifier they are about. *)
Record faults := {
  ft_upsertNode : string → option error;
  ft_listNodes : option error;
  ft_deleteNode : string → option error;
  ft_upsertKey : string → option error;
  ft_listKeys : option error;
  ft_deleteKey : string → option error;
  ft_loadNodes : option error;
}.

Definition noFaults : faults :=
  {| ft_upsertNode := λ _, None; ft_listNodes := None; ft_deleteNode := λ _, None;
     ft_upsertKey := λ _, None; ft_listKeys := None; ft_deleteKey := λ _, None; ft_loadNodes := None |}.

Context (ft : faults).

Definition statement {A} (fails : option error) (db : A) : result error A :=
  match fails with Some e => Err e | None => Ok db end.

Fixpoint upsertProviders (provs : list (string * ModelNode)) (db : list nodeRow)
    : list nodeRow * option error :=
  match provs with
  | [] => (db, None)
  | (id, n) :: provs =>
      match UpsertNode encList encMap (ft_upsertNode ft id) (clock id) (withNodeID id n) db with
      | (db, _, Some e) => (db, Some e)
      | (db, _, None) => upsertProviders provs db
      end
  end.

Definition removeStaleNodes (Providers : gmap string ModelNode) (db : list nodeRow) : list nodeRow :=
  match ListNodes slow decList decMap byName (statement (ft_listNodes ft) db) with
  | Err _ => db
  | Ok existing =>
      foldl (λ db n, if decide (is_Some (Providers !! node_ID n)) then db
                     else (DeleteNode (ft_deleteNode ft (node_ID n)) (node_ID n) db).1) db existing
  end.

Fixpoint upsertKeys (keys : list (string * APIKey)) (db : list keyRow) : list keyRow * option error :=
  match keys with
  | [] => (db, None)
  | (id, k) :: keys =>
      let k := withKeyID id k in
      if bool_decide (key_Key k = "") then upsertKeys keys db
      else match UpsertAPIKey encList constraintError (ft_upsertKey ft id) (clock id) k db with
           | (db, _, Some e) => (db, Some e)
           | (db, _, None) => upsertKeys keys db
           end
  end.

Definition removeStaleKeys (APIKeys : gmap string APIKey) (db : list keyRow) : list keyRow :=
  match ListAPIKeys slow decList byCreated (statement (ft_listKeys ft) db) with
  | Err _ => db
  | Ok existing =>
      foldl (λ db k, if decide (is_Some (APIKeys !! key_ID k)) then db
                     else (DeleteAPIKey (ft_deleteKey ft (key_ID k)) (key_ID k) db).1) db existing
  end.

(** ** The start *)

(** From the upserts of the providers to the limits: the database afterwards,
    and the router with the limits, or the error that ends the process.  [provs]
    and [keys] are the entries in the order of iteration, [ord] the order of
    the router. *)
Definition start (cfg : AppConfig) (provs : list (string * ModelNode)) (keys : list (string * APIKey))
    (ord : NodeMap → list ModelNode) (db : database)
    : database * result error (Router * gmap string RateLimitConfig) :=
  match upsertProviders provs db.1 with
  | (nodes, Some e) => ((nodes, db.2), Err e)
  | (nodes, None) =>
      let nodes := removeStaleNodes (ac_Providers cfg) nodes in
      match upsertKeys keys db.2 with
      | (ks, Some e) => ((nodes, ks), Err e)
      | (ks, None) =>
          let ks := removeStaleKeys (ac_APIKeys cfg) ks in
          match ListNodes slow decList decMap byName (statement (ft_loadNodes ft) nodes) with
          | Err e => ((nodes, ks), Err e)
          | Ok dbNodes => ((nodes, ks), Ok (Sync ord dbNodes New, modelLimits dbNodes))
          end
      end
  end.

End startup.

(** ** The database after a start without faults *)

Section synchronised.
Context (slow : string → option Z).
Context (encList : list string → string) (decList : string → list string).
Context (encMap : gmap string json → string) (decMap : string → gmap string json).
Context (byName : list nodeRow → list nodeRow) (byCreated : list keyRow → list keyRow).
Context (constraintError : error).
Context (clock : string → Z).
Hypothesis byName_sorts : ∀ db, byName db ≡ₚ db ∧ StronglySorted (ascending nr_name) (byName db).
Hypothesis byCreated_sorts :
  ∀ db, byCreated db ≡ₚ db ∧ StronglySorted (descending kr_created_at) (byCreated db).

Abbreviation nview := (nodeView slow decList decMap).
Abbreviation kview := (keyView slow decList).

(** What a configured provider or key becomes: it is stored as configured, under
    the identifier it is configured with; its creation time is that of the entry
    it replaces and, when there is none, the configured one or the time of the
    write. *)
Definition storedNode (old : option ModelNode) (id : string) (n : ModelNode) : ModelNode :=
  {| node_ID := id; node_Name := node_Name n; node_Aliases := node_Aliases n;
     node_BaseURL := node_BaseURL n; node_APIKey := node_APIKey n; node_ModelName := node_ModelName n;
     node_EndpointType := node_EndpointType n; node_TPM := node_TPM n; node_RPM := node_RPM n;
     node_Override := node_Override n; node_TimeoutSec := node_TimeoutSec n; node_Enabled := node_Enabled n;
     node_CreatedAt := default (if IsZero (node_CreatedAt n) then clock id else node_CreatedAt n)
                         (node_CreatedAt <$> old);
     node_UpdatedAt := clock id |}.
Definition storedKey (old : option APIKey) (id : string) (k : APIKey) : APIKey :=
  {| key_ID := id; key_Key := key_Key k; key_Name := key_Name k; key_Enabled := key_Enabled k;
     key_TPM := key_TPM k; key_RPM := key_RPM k; key_AllowModels := key_AllowModels k;
     key_CreatedAt := default (if IsZero (key_CreatedAt k) then clock id else key_CreatedAt k)
                        (key_CreatedAt <$> old);
     key_ExpiresAt := key_ExpiresAt k |}.

Definition storableNodes (provs : list (string * ModelNode)) : Prop :=
  Forall (λ p, storableNode encList decList encMap decMap (clock p.1) (withNodeID p.1 p.2)) provs.
Definition storableKeys (keys : list (string * APIKey)) : Prop :=
  Forall (λ p, storableKey encList decList (clock p.1) (withKeyID p.1 p.2)) keys.

Lemma upsertProviders_ok provs db :
  NoDup provs.*1 → NoDup (nr_id <$> db) → storableNodes provs →
  ∃ db', upsertProviders encList encMap clock noFaults provs db = (db', None) ∧ NoDup (nr_id <$> db') ∧
    ∀ id, nview db' !! id =
      match (list_to_map provs : gmap string ModelNode) !! id with
      | Some n => Some (storedNode (nview db !! id) id n)
      | None => nview db !! id
      end.
Proof.
  intros Hn Hdb Hs. revert db Hdb. induction Hs as [|[i n] provs Hi _ IH]; intros db Hdb; [by exists db|].
  apply NoDup_cons in Hn as [Hni Hn]. simpl in Hi, Hni.
  pose proof (view_UpsertNode slow encList decList encMap decMap (clock i) (withNodeID i n) db Hi) as Hv.
  destruct (IH Hn (UpsertNode encList encMap None (clock i) (withNodeID i n) db).1.1) as (db' & E & Hn' & Hl).
  { by apply NoDup_upsert. }
  exists db'. split_and!; [done..|]. intros id. rewrite Hl, Hv. cbn [list_to_map].
  rewrite lookup_insert. simpl. destruct (decide (i = id)) as [<-|Hne].
  - rewrite lookup_insert_eq. by rewrite (not_elem_of_list_to_map_1 provs i Hni).
  - by rewrite !lookup_insert_ne.
Qed.

(** No two configured keys, and no configured key and another row, share a value. *)
Definition noClash (keys : list (string * APIKey)) (m : gmap string APIKey) : Prop :=
  (∀ id id' k k', (id, k) ∈ keys → (id', k') ∈ keys → key_Key k = key_Key k' → key_Key k ≠ "" → id = id') ∧
  (∀ id id' k k', (id, k) ∈ keys → m !! id' = Some k' → key_Key k = key_Key k' → key_Key k ≠ "" → id = id').

Lemma noClash_tail i k keys m :
  noClash ((i, k) :: keys) m → noClash keys m.
Proof. intros [H1 H2]. split; intros; [eapply H1|eapply H2]; eauto; by right. Qed.

Lemma noClash_upsert i k keys m k' :
  noClash ((i, k) :: keys) m → key_Key k' = key_Key k → noClash keys (<[i := k']> m).
Proof.
  intros [H1 H2] Hk. split; intros; [eapply H1; eauto; by right|].
  match goal with H : <[_ := _]> _ !! _ = Some _ |- _ => apply lookup_insert_Some in H as [[<- <-]|[_ ?]] end.
  - eapply H1; [by right|by left|congruence|done].
  - eapply H2; eauto; by right.
Qed.

Lemma noClash_head i k keys m :
  noClash ((i, k) :: keys) m → key_Key k ≠ "" → ¬ heldElsewhere (stampKey (clock i) (withKeyID i k)) m.
Proof.
  intros [_ H2] Hk (id & k' & Hl & He & Hne). apply Hne. symmetry.
  apply (H2 i id k k'); [by left|done|done|done].
Qed.

Lemma upsertKeys_ok keys db :
  NoDup keys.*1 → NoDup (kr_id <$> db) → NoDup (kr_key_value <$> db) → storableKeys keys →
  noClash keys (kview db) →
  ∃ db', upsertKeys encList constraintError clock noFaults keys db = (db', None) ∧
    NoDup (kr_id <$> db') ∧ NoDup (kr_key_value <$> db') ∧
    ∀ id, kview db' !! id =
      match (list_to_map keys : gmap string APIKey) !! id with
      | Some k => if bool_decide (key_Key k = "") then kview db !! id
                  else Some (storedKey (kview db !! id) id k)
      | None => kview db !! id
      end.
Proof.
  intros Hn Hdb Hdv Hs. revert db Hdb Hdv.
  induction Hs as [|[i k] keys Hi _ IH]; intros db Hdb Hdv Hc; [by exists db|].
  apply NoDup_cons in Hn as [Hni Hn]. simpl in Hi, Hni. cbn [upsertKeys].
  assert (∀ id, (list_to_map ((i, k) :: keys) : gmap string APIKey) !! id =
                if decide (i = id) then Some k else (list_to_map keys : gmap string APIKey) !! id) as Hm
    by (intros id; cbn [list_to_map]; apply lookup_insert).
  pose proof (not_elem_of_list_to_map_1 (M := gmap string) keys i Hni) as Hnone.
  change (key_Key (withKeyID i k)) with (key_Key k). destruct (decide (key_Key k = "")) as [He|He].
  - rewrite bool_decide_eq_true_2 by done.
    destruct (IH Hn db Hdb Hdv (noClash_tail _ _ _ _ Hc)) as (db' & E & H1 & H2 & Hl).
    exists db'. split_and!; [done..|]. intros id. rewrite Hl, Hm.
    destruct (decide (i = id)) as [<-|]; [|done]. by rewrite Hnone, bool_decide_eq_true_2.
  - rewrite bool_decide_eq_false_2 by done.
    pose proof (noClash_head _ _ _ _ Hc He) as Hfree.
    rewrite <-(valueTaken_iff slow decList) in Hfree by done. apply not_true_is_false in Hfree.
    pose proof (view_UpsertAPIKey slow encList decList constraintError (clock i) (withKeyID i k) db Hi Hfree) as Hv.
    unfold UpsertAPIKey in Hv |- *. simpl in Hv. cbn [ft_upsertKey noFaults].
    rewrite Hfree in Hv |- *. simpl in Hv.
    destruct (IH Hn (upsert kr_id updateKey (keyArgs encList (stampKey (clock i) (withKeyID i k))) db))
      as (db' & E & H1 & H2 & Hl).
    { by apply NoDup_upsert. }
    { by apply NoDup_values_upsert. }
    { rewrite Hv. by eapply noClash_upsert. }
    exists db'. split_and!; [done..|]. intros id. rewrite Hl, Hm, Hv, lookup_insert.
    destruct (decide (i = id)) as [<-|]; [|done]. by rewrite Hnone, bool_decide_eq_false_2.
Qed.

Lemma removeStaleNodes_ok (Providers : gmap string ModelNode) db :
  NoDup (nr_id <$> db) →
  let db' := removeStaleNodes slow decList decMap byName noFaults Providers db in
  NoDup (nr_id <$> db') ∧
  ∀ id, nview db' !! id = if decide (is_Some (Providers !! id)) then nview db !! id else None.
Proof.
  intros Hn db'. pose proof (proj1 (byName_sorts db)) as Hp.
  set (l := scanNode slow decList decMap <$> byName db).
  assert (db' = foldl (λ db n, if decide (is_Some (Providers !! node_ID n)) then db
                               else deleteID nr_id (node_ID n) db) db l) as -> by done. split.
  - eapply sublist_NoDup; [exact Hn|]. apply fmap_sublist.
    exact (sublist_deletions nr_id node_ID (λ i, is_Some (Providers !! i)) l db).
  - intros id. unfold nodeView.
    etrans; [exact (view_deletions nr_id (scanNode slow decList decMap) node_ID
                      (λ i, is_Some (Providers !! i)) l db id)|]. cbv beta.
    destruct (decide (is_Some (Providers !! id))) as [Hi|Hi]; [by rewrite decide_False by tauto|].
    destruct (decide _) as [_|Hnot]; [done|]. rewrite lookup_view.
    assert (selectID nr_id id db = None) as ->; [|done]. apply selectID_None. intros Hin. apply Hnot.
    split; [|done]. unfold l. rewrite <-list_fmap_compose. by rewrite Hp.
Qed.

Lemma removeStaleKeys_ok (APIKeys : gmap string APIKey) db :
  NoDup (kr_id <$> db) → NoDup (kr_key_value <$> db) →
  let db' := removeStaleKeys slow decList byCreated noFaults APIKeys db in
  NoDup (kr_id <$> db') ∧ NoDup (kr_key_value <$> db') ∧
  ∀ id, kview db' !! id = if decide (is_Some (APIKeys !! id)) then kview db !! id else None.
Proof.
  intros Hn Hv db'. pose proof (proj1 (byCreated_sorts db)) as Hp.
  set (l := scanAPIKey slow decList <$> byCreated db).
  assert (db' = foldl (λ db k, if decide (is_Some (APIKeys !! key_ID k)) then db
                               else deleteID kr_id (key_ID k) db) db l) as -> by done.
  pose proof (sublist_deletions kr_id key_ID (λ i, is_Some (APIKeys !! i)) l db) as Hsub. split_and!.
  - eapply sublist_NoDup; [exact Hn|]. by apply fmap_sublist.
  - eapply sublist_NoDup; [exact Hv|]. by apply fmap_sublist.
  - intros id. unfold keyView.
    etrans; [exact (view_deletions kr_id (scanAPIKey slow decList) key_ID
                      (λ i, is_Some (APIKeys !! i)) l db id)|]. cbv beta.
    destruct (decide (is_Some (APIKeys !! id))) as [Hi|Hi]; [by rewrite decide_False by tauto|].
    destruct (decide _) as [_|Hnot]; [done|]. rewrite lookup_view.
    assert (selectID kr_id id db = None) as ->; [|done]. apply selectID_None. intros Hin. apply Hnot.
    split; [|done]. unfold l. rewrite <-list_fmap_compose. by rewrite Hp.
Qed.

(** The router's table is the view of the node table. *)
Lemma Sync_view ord db l :
  NoDup (nr_id <$> db) → l ≡ₚ scanNode slow decList decMap <$> db →
  r_nodes (Sync ord l New) = nview db.
Proof.
  intros Hn Hl. apply map_eq. intros i. apply option_eq. intros n. simpl.
  assert (NoDup (node_ID <$> l)).
  { rewrite Hl, <-list_fmap_compose. done. }
  rewrite synced_lookup; [|done|by intros; apply lookup_empty].
  unfold nodeView. rewrite lookup_empty, lookup_view, fmap_Some, Hl, list_elem_of_fmap. split.
  - intros [|[(r & -> & Hr) <-]]; [done|]. exists r. simpl. by rewrite selectID_elem.
  - intros (r & [Hr <-]%selectID_Some & ->). right. eauto.
Qed.

(** The maps the configuration asks for. *)
Definition wantedNode (cfg : AppConfig) (m : gmap string ModelNode) (id : string) : option ModelNode :=
  storedNode (m !! id) id <$> ac_Providers cfg !! id.
Definition wantedKey (cfg : AppConfig) (m : gmap string APIKey) (id : string) : option APIKey :=
  k ← ac_APIKeys cfg !! id;
  if bool_decide (key_Key k = "") then m !! id else Some (storedKey (m !! id) id k).

Abbreviation cleanStart :=
  (start slow encList decList encMap decMap byName byCreated constraintError clock noFaults).

Lemma start_synchronises cfg provs keys ord db :
  tablesOk db → provs ≡ₚ map_to_list (ac_Providers cfg) → keys ≡ₚ map_to_list (ac_APIKeys cfg) →
  storableNodes provs → storableKeys keys → noClash keys (kview db.2) →
  ∃ db' l, cleanStart cfg provs keys ord db = (db', Ok (Sync ord l New, modelLimits l)) ∧
    tablesOk db' ∧ (∀ id, nview db'.1 !! id = wantedNode cfg (nview db.1) id) ∧
    (∀ id, kview db'.2 !! id = wantedKey cfg (kview db.2) id) ∧
    l ≡ₚ scanNode slow decList decMap <$> db'.1 ∧ StronglySorted (ascending node_Name) l.
Proof.
  intros (Hn & Hk & Hv) Hp Hq Hsn Hsk Hc.
  assert (NoDup provs.*1) as Hnp by (rewrite Hp; apply NoDup_fst_map_to_list).
  assert (NoDup keys.*1) as Hnk by (rewrite Hq; apply NoDup_fst_map_to_list).
  destruct (upsertProviders_ok provs db.1 Hnp Hn Hsn) as (n1 & En & Hn1 & Hln).
  destruct (removeStaleNodes_ok (ac_Providers cfg) n1 Hn1) as [Hn2 Hln2].
  destruct (upsertKeys_ok keys db.2 Hnk Hk Hv Hsk Hc) as (k1 & Ek & Hk1 & Hv1 & Hlk).
  destruct (removeStaleKeys_ok (ac_APIKeys cfg) k1 Hk1 Hv1) as (Hk2 & Hv2 & Hlk2).
  set (n2 := removeStaleNodes _ _ _ _ _ _ _) in *. set (k2 := removeStaleKeys _ _ _ _ _ _) in *.
  assert (list_to_map provs = ac_Providers cfg) as Hmp.
  { rewrite <-(list_to_map_to_list (ac_Providers cfg)). by apply list_to_map_proper. }
  assert (list_to_map keys = ac_APIKeys cfg) as Hmk.
  { rewrite <-(list_to_map_to_list (ac_APIKeys cfg)). by apply list_to_map_proper. }
  exists (n2, k2), (scanNode slow decList decMap <$> byName n2). split_and!.
  - unfold start. rewrite En, Ek. done.
  - done.
  - intros id. simpl. rewrite Hln2, Hln, Hmp. unfold wantedNode.
    destruct (ac_Providers cfg !! id);
      [by rewrite decide_True by eauto|by rewrite decide_False by (by intros [? ?])].
  - intros id. simpl. rewrite Hlk2, Hlk, Hmk. unfold wantedKey.
    destruct (ac_APIKeys cfg !! id);
      [by rewrite decide_True by eauto|by rewrite decide_False by (by intros [? ?])].
  - simpl. by rewrite (proj1 (byName_sorts n2)).
  - eapply (StronglySorted_Forall2 _ _ (λ r n, n = scanNode slow decList decMap r));
      [|by apply Forall2_fmap_r, Forall_Forall2_diag, Forall_true|apply (byName_sorts n2)].
    by intros r r' n n' H -> ->.
Qed.

(** What a start needs: the schema's constraints, listings of the configured
    maps, values that can be stored, no key value in two places. *)
Definition canStart (cfg : AppConfig) (provs : list (string * ModelNode)) (keys : list (string * APIKey))
    (db : database) : Prop :=
  tablesOk db ∧ provs ≡ₚ map_to_list (ac_Providers cfg) ∧ keys ≡ₚ map_to_list (ac_APIKeys cfg) ∧
  storableNodes provs ∧ storableKeys keys ∧ noClash keys (kview db.2).

(** C12. A start makes the database and the router mirror the configuration,
    provided that no statement fails, that the configured values can be stored,
    and that no key value is in two places, neither twice in the configuration
    nor in the table under another identifier.  Then the process starts, in
    whatever order the maps are iterated; the node table holds exactly the
    configured providers (with the creation time of the row each replaces), the
    router resolves an alias to exactly the configured, enabled providers that
    carry it, and an alias has the limits of the first node by name that carries
    it and has limits.  The key table holds exactly the configured keys that
    have a value, and, unchanged, the rows it had under the identifiers of keys
    that are configured without one. *)
Theorem start_mirrors_config cfg provs keys ord db :
  canStart cfg provs keys db → map_order ord →
  ∃ db' r lims, cleanStart cfg provs keys ord db = (db', Ok (r, lims)) ∧ tablesOk db' ∧
    (∀ id, nview db'.1 !! id = wantedNode cfg (nview db.1) id) ∧
    (∀ id, kview db'.2 !! id = wantedKey cfg (kview db.2) id) ∧
    (∀ alias et n, n ∈ Resolve alias et r ↔
       wantedNode cfg (nview db.1) (node_ID n) = Some n ∧ serves alias et n) ∧
    ∃ l, l ≡ₚ (map_to_list (nview db'.1)).*2 ∧ StronglySorted (ascending node_Name) l ∧
      ∀ alias, lims !! alias =
        (λ n, {| rl_TPM := node_TPM n; rl_RPM := node_RPM n; rl_MaxRetries := 0 |})
          <$> head (filter (limits alias) l).
Proof.
  intros (Hdb & Hp & Hq & Hsn & Hsk & Hc) Hord.
  destruct (start_synchronises cfg provs keys ord db) as (db' & l & E & Hok & Hn & Hk & Hl & Hs); [done..|].
  pose proof Hok as (Hn' & _ & _). exists db', (Sync ord l New), (modelLimits l).
  split_and!; [done..| |].
  - intros alias et n. rewrite elem_of_Resolve by (apply rebuild_ok, sync_ids, map_Forall_empty; done).
    by rewrite (Sync_view ord db'.1 l Hn' Hl), Hn.
  - exists l. split_and!; [|done|apply modelLimits_first]. rewrite Hl. by apply view_values.
Qed.

(** C13. Who may call after a start, under the same conditions: a token
    authenticates exactly when it is the value of an enabled key that has not
    expired, where the keys are the configured ones, as configured, but for a
    key configured without a value: there the key is the one that the database
    held under its identifier, and its old value goes on working.  A key that
    the database held under any other identifier no longer works. *)
Theorem start_accepts_configured cfg provs keys ord db :
  canStart cfg provs keys db →
  ∃ db' s, cleanStart cfg provs keys ord db = (db', Ok s) ∧
    ∀ now token k,
      Auth.Authenticate (GetAPIKeyByValue slow decList (Ok db'.2)) now token = Ok k ↔
      (∃ id c, ac_APIKeys cfg !! id = Some c ∧
         (if decide (key_Key c = "") then kview db.2 !! id = Some k else k = storedKey (kview db.2 !! id) id c)) ∧
      key_Key k = token ∧ key_Enabled k = true ∧ (∀ exp, key_ExpiresAt k = Some exp → now ≤ exp).
Proof.
  intros (Hdb & Hp & Hq & Hsn & Hsk & Hc).
  destruct (start_synchronises cfg provs keys ord db) as (db' & l & E & Hok & Hn & Hk & Hl & Hs); [done..|].
  destruct Hok as (_ & Hki & Hkv). exists db', (Sync ord l New, modelLimits l). split; [done|].
  intros now token k. rewrite Auth.Authenticate_Ok.
  rewrite (GetAPIKeyByValue_iff slow decList db'.2 token) by done. setoid_rewrite Hk.
  assert (∀ id, wantedKey cfg (kview db.2) id = Some k ↔ ∃ c, ac_APIKeys cfg !! id = Some c ∧
    (if decide (key_Key c = "") then kview db.2 !! id = Some k else k = storedKey (kview db.2 !! id) id c)) as Hw.
  { intros id. unfold wantedKey. rewrite bind_Some. apply exist_proper. intros c.
    destruct (decide (key_Key c = "")); [by rewrite bool_decide_eq_true_2|].
    rewrite bool_decide_eq_false_2 by done. naive_solver. }
  setoid_rewrite Hw. naive_solver.
Qed.

(** Until the stale rows are removed they keep their values. *)
Lemma upsertKeys_clash keys db id k id' k' :
  NoDup keys.*1 → NoDup (kr_id <$> db) → storableKeys keys → (id, k) ∈ keys → key_Key k ≠ "" →
  id' ∉ keys.*1 → kview db !! id' = Some k' → key_Key k' = key_Key k →
  ∃ db', upsertKeys encList constraintError clock noFaults keys db = (db', Some constraintError).
Proof.
  intros Hn Hdb Hs Hin Hk Hid Hl He. revert db Hdb Hl Hin.
  induction Hs as [|[i c] keys Hi _ IH]; intros db Hdb Hl Hin; [by apply elem_of_nil in Hin|].
  apply NoDup_cons in Hn as [Hni Hn]. apply not_elem_of_cons in Hid as [Hne Hid]. simpl in Hi, Hni, Hne.
  specialize (IH Hn Hid). cbn [upsertKeys]. change (key_Key (withKeyID i c)) with (key_Key c).
  apply elem_of_cons in Hin as [[= -> ->]|Hin].
  - rewrite bool_decide_eq_false_2 by done. unfold UpsertAPIKey. cbn [ft_upsertKey noFaults].
    rewrite (proj2 (valueTaken_iff slow decList (clock i) (withKeyID i c) db Hdb)); [by eexists|].
    by exists id', k'.
  - case_bool_decide; [by apply IH|]. unfold UpsertAPIKey. cbn [ft_upsertKey noFaults].
    destruct (valueTaken _ db) eqn:Ht; [by eexists|]. apply IH; [by apply NoDup_upsert| |done].
    pose proof (view_UpsertAPIKey slow encList decList constraintError (clock i) (withKeyID i c) db Hi Ht) as Hv.
    unfold UpsertAPIKey in Hv. simpl in Hv. rewrite Ht in Hv. simpl in Hv. rewrite Hv.
    by rewrite lookup_insert_ne.
Qed.

(** C37. Giving a key a new identifier prevents the start: the rows that are no
    longer configured are removed only after the configured keys have been
    written, so a configured key whose value the table holds under an
    identifier that is gone from the configuration violates the constraint,
    and the process exits, on every start. *)
Theorem renamed_key_blocks_start cfg provs keys ord db id k id' k' :
  tablesOk db → provs ≡ₚ map_to_list (ac_Providers cfg) → keys ≡ₚ map_to_list (ac_APIKeys cfg) →
  storableNodes provs → storableKeys keys →
  ac_APIKeys cfg !! id = Some k → key_Key k ≠ "" → ac_APIKeys cfg !! id' = None →
  kview db.2 !! id' = Some k' → key_Key k' = key_Key k →
  (cleanStart cfg provs keys ord db).2 = Err constraintError.
Proof.
  intros (Hn & Hki & _) Hp Hq Hsn Hsk Hl Hk Hl' Hv He.
  destruct (upsertProviders_ok provs db.1) as (n1 & En & _);
    [rewrite Hp; apply NoDup_fst_map_to_list|done..|].
  destruct (upsertKeys_clash keys db.2 id k id' k') as (k1 & Ek); try done.
  - rewrite Hq. apply NoDup_fst_map_to_list.
  - rewrite Hq. by apply elem_of_map_to_list.
  - rewrite Hq. intros ([i c] & -> & Hc%elem_of_map_to_list)%list_elem_of_fmap. simpl in Hl'. congruence.
  - unfold start. by rewrite En, Ek.
Qed.

End synchronised.

(** ** The cached limits per key *)

(** [keyCache]: the limits and [expiresAt] by key identifier. *)
Abbreviation keyCache := (gmap string (option RateLimitConfig * Z)).

Definition keyLimitTTL : Z := 30 * Second.

Definition limitOf (k : result error (option APIKey)) : option RateLimitConfig :=
  match k with
  | Ok (Some k) =>
      if (key_TPM k >? 0) || (key_RPM k >? 0)
      then Some {| rl_TPM := key_TPM k; rl_RPM := key_RPM k; rl_MaxRetries := 0 |}
      else None
  | _ => None
  end.

(** [keyLimits] runs on many goroutines over one [sync.Map]: the look-up, which
    answers from the cache while the entry is fresh, *)
Definition cachedLimit (now : Z) (keyID : string) (cache : keyCache) : option (option RateLimitConfig) :=
  match cache !! keyID with
  | Some (cfg, expiresAt) => if Before now expiresAt then Some cfg else None
  | None => None
  end.

(** and, when it does not, the store's answer, which is cached at [now]. *)
Definition loadLimit (now : Z) (GetAPIKey : result error (option APIKey)) (keyID : string) (cache : keyCache)
    : keyCache * option RateLimitConfig :=
  let result := limitOf GetAPIKey in (<[keyID := (result, now + keyLimitTTL)]> cache, result).

(** The calls in progress have missed the cache; [kl_reads] records the store's
    answers when they are cached, [kl_answers] what the calls returned. *)
Record limitState := {
  kl_cache : keyCache;
  kl_loading : gmap nat string;
  kl_reads : list (string * Z * result error (option APIKey));
  kl_answers : list (string * Z * option RateLimitConfig);
}.

Inductive limitEvent :=
| LookUp (g : nat) (now : Z) (keyID : string)
| Loaded (g : nat) (now : Z) (answer : result error (option APIKey)).

Definition limitStep (s : limitState) (e : limitEvent) : limitState :=
  match e with
  | LookUp g now keyID =>
      match cachedLimit now keyID (kl_cache s) with
      | Some cfg => {| kl_cache := kl_cache s; kl_loading := kl_loading s; kl_reads := kl_reads s;
                       kl_answers := kl_answers s ++ [(keyID, now, cfg)] |}
      | None => {| kl_cache := kl_cache s; kl_loading := <[g := keyID]> (kl_loading s);
                   kl_reads := kl_reads s; kl_answers := kl_answers s |}
      end
  | Loaded g now answer =>
      match kl_loading s !! g with
      | None => s
      | Some keyID =>
          let '(cache, cfg) := loadLimit now answer keyID (kl_cache s) in
          {| kl_cache := cache; kl_loading := delete g (kl_loading s);
             kl_reads := kl_reads s ++ [(keyID, now, answer)];
             kl_answers := kl_answers s ++ [(keyID, now, cfg)] |}
      end
  end.

Definition noLimits : limitState := {| kl_cache := ∅; kl_loading := ∅; kl_reads := []; kl_answers := [] |}.

(** A value is backed by a read of the store that is younger than the TTL. *)
Definition backed (s : limitState) (keyID : string) (before : Z) (cfg : option RateLimitConfig) : Prop :=
  ∃ t answer, (keyID, t, answer) ∈ kl_reads s ∧ limitOf answer = cfg ∧ before < t + keyLimitTTL.

Definition limitsOk (s : limitState) : Prop :=
  (∀ id cfg exp, kl_cache s !! id = Some (cfg, exp) →
     ∃ t answer, (id, t, answer) ∈ kl_reads s ∧ limitOf answer = cfg ∧ exp = t + keyLimitTTL) ∧
  (∀ id now cfg, (id, now, cfg) ∈ kl_answers s → backed s id now cfg).

Lemma limitStep_ok s e : limitsOk s → limitsOk (limitStep s e).
Proof.
  intros [Hc Ha]. destruct e as [g now id|g now answer]; simpl.
  - destruct (cachedLimit now id (kl_cache s)) as [cfg|] eqn:Hl; [|done]. split; [done|]. simpl.
    intros id' now' cfg' [Hin|[= -> -> ->]%list_elem_of_singleton]%elem_of_app; [by apply Ha|].
    unfold cachedLimit in Hl. destruct (kl_cache s !! id) as [[c exp]|] eqn:E; [|done].
    unfold Before in Hl. destruct (now <? exp) eqn:Hb; [|done]. simplify_eq. bools.
    destruct (Hc _ _ _ E) as (t & answer & Hin & <- & ->). by exists t, answer.
  - destruct (kl_loading s !! g) as [id|]; [|done]. split; simpl.
    + intros id' cfg exp. rewrite lookup_insert_Some. intros [[<- [= <- <-]]|[_ Hl]].
      * exists now, answer. set_solver.
      * destruct (Hc _ _ _ Hl) as (t & a & Hin & ? & ?). exists t, a. set_solver.
    + intros id' now' cfg' [Hin|[= -> -> ->]%list_elem_of_singleton]%elem_of_app.
      * destruct (Ha _ _ _ Hin) as (t & a & Hr & ? & ?). exists t, a. set_solver.
      * exists now, answer. assert (0 < keyLimitTTL) by done. split_and!; [set_solver|done|lia].
Qed.

(** C35. A key's limits are at most thirty seconds old: whatever calls run at the
    same time, every answer of [keyLimits] is the limit of an answer the store
    gave for that key, cached less than the TTL before.  A failed read is such
    an answer, and its limit is none. *)
Theorem key_limits_fresh events id now cfg :
  let s := foldl limitStep noLimits events in
  (id, now, cfg) ∈ kl_answers s →
  ∃ t answer, (id, t, answer) ∈ kl_reads s ∧ limitOf answer = cfg ∧ now < t + 30 * Second.
Proof.
  intros s. cut (limitsOk s); [intros [_ H]; apply H|]. unfold s.
  assert (limitsOk noLimits) as H by (split; set_solver). clear s. revert H.
  generalize noLimits. induction events as [|e events IH]; intros s H; [done|]. simpl.
  by apply IH, limitStep_ok.
Qed.

(** ** Witnesses *)

Definition demo_limit_events : list limitEvent :=
  [LookUp 0 0 "k"; LookUp 1 (1 * Second) "k"; Loaded 0 (2 * Second) (Ok (Some (demo_apikey "k" "v")));
   Loaded 1 (3 * Second) (Err (mkError OtherError "database is locked")); LookUp 2 (32 * Second) "k"].

(** The answer at 32 s comes from the failed read: no limit. *)
Lemma key_limits_fresh_witness :
  ("k", 32 * Second, None) ∈ kl_answers (foldl limitStep noLimits demo_limit_events) ∧
  ∃ t answer, ("k", t, answer) ∈ kl_reads (foldl limitStep noLimits demo_limit_events) ∧
    limitOf answer = None ∧ 32 * Second < t + 30 * Second.
Proof.
  assert (("k", 32 * Second, None) ∈ kl_answers (foldl limitStep noLimits demo_limit_events)) as H
    by (apply list_elem_of_lookup; exists 2%nat; by vm_compute).
  split; [exact H|]. exact (key_limits_fresh demo_limit_events "k" (32 * Second) None H).
Defined.

Definition demo_cfg (keys : gmap string APIKey) : AppConfig :=
  let a := cf_AppConfig defaults in
  {| ac_Server := ac_Server a; ac_RateLimit := ac_RateLimit a; ac_Logging := ac_Logging a;
     ac_Cache := ac_Cache a; ac_MQ := ac_MQ a; ac_Queue := ac_Queue a; ac_Worker := ac_Worker a;
     ac_Providers := {["a" := Store.demo_node "" "one"]}; ac_APIKeys := keys |}.

Definition demo_db : database :=
  ([nodeArgs demo_enc (λ _, "{}") (stampNode 0 (Store.demo_node "old" "gone"))],
   [keyArgs demo_enc (stampKey 0 (demo_apikey "k" "pk-0"))]).

Definition demo_start :=
  start (λ _, None) demo_enc demo_dec (λ _, "{}") (λ _, ∅) (merge_sort (ascending nr_name))
    (merge_sort (descending kr_created_at)) (mkError OtherError "UNIQUE constraint failed")
    (λ _, 5 * Second) noFaults.

Lemma demo_tables : tablesOk demo_db.
Proof. by repeat split; apply NoDup_singleton. Qed.

Lemma demo_storable_nodes : storableNodes demo_enc demo_dec (λ _, "{}") (λ _, ∅) (λ _, 5 * Second) [("a", Store.demo_node "" "one")].
Proof. repeat constructor; vm_compute; congruence. Qed.

Lemma demo_storable_keys id v : storableKeys demo_enc demo_dec (λ _, 5 * Second) [(id, demo_apikey "" v)].
Proof. repeat constructor; vm_compute; congruence. Qed.

(** The key keeps its identifier and gets a new value. *)
Lemma demo_canStart :
  canStart (λ _, None) demo_enc demo_dec (λ _, "{}") (λ _, ∅) (λ _, 5 * Second)
    (demo_cfg {["k" := demo_apikey "" "pk-1"]}) [("a", Store.demo_node "" "one")] [("k", demo_apikey "" "pk-1")] demo_db.
Proof.
  split; [apply demo_tables|]. cbn [demo_cfg ac_Providers ac_APIKeys]. rewrite !map_to_list_singleton.
  split; [done|]. split; [done|]. split; [apply demo_storable_nodes|].
  split; [apply demo_storable_keys|]. split.
  - intros id id' c c' [= -> ->]%list_elem_of_singleton [= -> ->]%list_elem_of_singleton. done.
  - intros id id' c c' [= -> ->]%list_elem_of_singleton Hl Hv _.
    assert (keyView (λ _, None) demo_dec demo_db.2 = {["k" := stampKey 0 (demo_apikey "k" "pk-0")]}) as E
      by (by vm_compute).
    rewrite E in Hl. apply lookup_singleton_Some in Hl as [<- <-]. done.
Qed.

Lemma start_mirrors_config_witness :
  ∃ db' r lims, demo_start (demo_cfg {["k" := demo_apikey "" "pk-1"]}) [("a", Store.demo_node "" "one")]
                  [("k", demo_apikey "" "pk-1")] list_order demo_db = (db', Ok (r, lims)) ∧
    nodeView (λ _, None) demo_dec (λ _, ∅) db'.1 !! "old" = None.
Proof.
  destruct (start_mirrors_config (λ _, None) demo_enc demo_dec (λ _, "{}") (λ _, ∅)
    (merge_sort (ascending nr_name)) (merge_sort (descending kr_created_at))
    (mkError OtherError "UNIQUE constraint failed") (λ _, 5 * Second) (merge_sort_sorts _) (merge_sort_sorts _)
    _ _ _ list_order demo_db demo_canStart list_order_ok) as (db' & r & lims & E & _ & Hn & _).
  exists db', r, lims. split; [exact E|]. by rewrite Hn.
Defined.

(** [pk-1] has replaced [pk-0]. *)
Lemma start_accepts_configured_witness :
  ∃ db' s, demo_start (demo_cfg {["k" := demo_apikey "" "pk-1"]}) [("a", Store.demo_node "" "one")]
             [("k", demo_apikey "" "pk-1")] list_order demo_db = (db', Ok s) ∧
    (∃ k, Auth.Authenticate (GetAPIKeyByValue (λ _, None) demo_dec (Ok db'.2)) (7 * Second) "pk-1" = Ok k) ∧
    ¬ ∃ k, Auth.Authenticate (GetAPIKeyByValue (λ _, None) demo_dec (Ok db'.2)) (7 * Second) "pk-0" = Ok k.
Proof.
  destruct (start_accepts_configured (λ _, None) demo_enc demo_dec (λ _, "{}") (λ _, ∅)
    (merge_sort (ascending nr_name)) (merge_sort (descending kr_created_at))
    (mkError OtherError "UNIQUE constraint failed") (λ _, 5 * Second) (merge_sort_sorts _) (merge_sort_sorts _)
    _ _ _ list_order demo_db demo_canStart) as (db' & s & E & Hiff).
  exists db', s. split; [exact E|]. split.
  - eexists. apply Hiff. split; [exists "k", (demo_apikey "" "pk-1"); by split|]. split_and!; [done..|]. by intros exp [= <-].
  - intros (k & ((id & c & Hc & Hk) & Ht & _)%Hiff).
    cbn [demo_cfg ac_APIKeys] in Hc. apply lookup_singleton_Some in Hc as [<- <-]. by rewrite Hk in Ht.
Defined.

(** The value [pk-0] moves from the identifier [k] to [renamed]. *)
Lemma renamed_key_blocks_start_witness :
  (demo_start (demo_cfg {["renamed" := demo_apikey "" "pk-0"]}) [("a", Store.demo_node "" "one")]
     [("renamed", demo_apikey "" "pk-0")] list_order demo_db).2
  = Err (mkError OtherError "UNIQUE constraint failed").
Proof.
  apply (renamed_key_blocks_start (λ _, None) demo_enc demo_dec (λ _, "{}") (λ _, ∅)
    (merge_sort (ascending nr_name)) (merge_sort (descending kr_created_at))
    (mkError OtherError "UNIQUE constraint failed") (λ _, 5 * Second) (demo_cfg {["renamed" := demo_apikey "" "pk-0"]})
    _ _ list_order demo_db "renamed" (demo_apikey "" "pk-0") "k" (stampKey 0 (demo_apikey "k" "pk-0")));
    [apply demo_tables| | |apply demo_storable_nodes|apply demo_storable_keys|by vm_compute..];
    cbn [demo_cfg ac_Providers ac_APIKeys]; by rewrite map_to_list_singleton.
Defined.

End Startup.
