(* ===== verification/Shutdown.v ===== *)
(** * From construction to shutdown

    [main] of [src/cmd/proxyllm/main.go] around the start-up of [Startup]: the
    construction of the components from the configuration, and the shutdown
    sequence, with [Shutdown] of [src/internal/api/server.go] and [Stop] and
    [run] of [src/internal/logging/retention.go].

    The process is the worker pool of [Dispatch], the two tiers of [AsyncLog],
    the handlers in flight, the retention cleaner and [main]; an action is a step
    of one of them.  When [main] returns, the process is over and nothing runs any
    more.  That the grace period of 30 seconds ends is an error of
    [http.Server.Shutdown], chosen by the environment; without an error it has
    waited for every handler and accepts no new one. *)
From S2P Require Import Prelude GoStd GoFloat GoTime GoJson GoHeap Domain GoHttp RequestQueue Cache RateLimit.
From S2P Require Import Override Stream Proxy ChainLogger Router WorkerPool Dispatch AsyncLog LogStore Retention.

Module Shutdown.
Import AsyncLog.

(** ** Construction *)

(** [time.Duration(n) * unit] wraps around. *)
Definition duration (n unit : Z) : Z := wrap64 (n * unit).

Definition cleanerOf (cfg : LoggingConfig) : Retention.RetentionCleaner :=
  {| Retention.rc_basicMaxRows := lg_BasicMaxRows cfg; Retention.rc_basicMaxDays := lg_BasicMaxDays cfg;
     Retention.rc_basicMaxSizeMB := lg_BasicMaxSizeMB cfg; Retention.rc_detailMaxRows := lg_DetailMaxRows cfg;
     Retention.rc_detailMaxDays := lg_DetailMaxDays cfg; Retention.rc_detailMaxSizeMB := lg_DetailMaxSizeMB cfg;
     Retention.rc_interval := 3600 * Second |}.

Definition workerConfigOf (cfg : Domain.WorkerConfig) : Pool.WorkerConfig :=
  {| Pool.wc_WorkerCount := wk_PoolSize cfg; Pool.wc_MaxRetryAttempts := wk_MaxRetryAttempts cfg;
     Pool.wc_RetryDelayMs := wk_RetryDelayMs cfg; Pool.wc_MaxWaitTime := duration (wk_MaxWaitTimeSec cfg) Second |}.

(** The goroutine of the cleaner: in [clean], in its [select], gone. *)
Inductive cleanerAt := Cleaning | CleanerWaiting | CleanerGone.

(** Where [main] is: waiting for a signal, in [http.Server.Shutdown], draining a
    tier and inserting what it drained, between the two closes of [Stop], waiting
    for the pool, for the cleaner, for the workers of the logger, returned. *)
Inductive stage :=
| Serving
| ClosingHTTP
| FlushingRequests
| FlushingDetails
| ClosingQueue
| StoppingPool
| StoppingCleaner
| ClosingLogger
| Over.

#[global] Instance stage_eq_dec : EqDecision stage.
Proof. solve_decision. Defined.

Record Process := mkProcess {
  pr_stage : stage;
  pr_handlers : nat;
  pr_pool : Dispatch.Sys;
  pr_monitorGone : bool;
  pr_requests : Tier (A := RequestLog);
  pr_details : Tier (A := DetailLog);
  pr_cleaner : cleanerAt;
  pr_cleanerStop : bool;
  pr_cacheClosed : bool;
  pr_dbClosed : bool;
  pr_graceful : bool;                (* srv.Shutdown has returned nil *)
}.

(** [logging.New] makes channels of [BufferSize] and its workers make tickers;
    [None] is the panic of a negative size or of an interval that is not
    positive.  [workerPool.Start] adds the number of workers and one to its wait
    group and starts that many goroutines. *)
Definition construct (cfg : AppConfig) : option Process :=
  let lg := ac_Logging cfg in
  let flushInterval := duration (lg_FlushIntervalMs lg) Millisecond in
  if (lg_BufferSize lg <? 0) || (flushInterval <=? 0) then None
  else
    let wc := workerConfigOf (ac_Worker cfg) in
    let buffer := Z.to_nat (lg_BufferSize lg) in
    Some {| pr_stage := Serving; pr_handlers := 0;
            pr_pool := Dispatch.Start (Pool.wc_WorkerCount wc) (qc_MaxQueueSize (ac_Queue cfg));
            pr_monitorGone := false; pr_requests := New buffer; pr_details := New buffer;
            pr_cleaner := Cleaning; pr_cleanerStop := false; pr_cacheClosed := false; pr_dbClosed := false;
            pr_graceful := false |}.

(** ** Steps *)

Definition setStage (s : stage) (p : Process) : Process :=
  mkProcess s (pr_handlers p) (pr_pool p) (pr_monitorGone p) (pr_requests p) (pr_details p) (pr_cleaner p)
    (pr_cleanerStop p) (pr_cacheClosed p) (pr_dbClosed p) (pr_graceful p).
Definition setHandlers (n : nat) (p : Process) : Process :=
  mkProcess (pr_stage p) n (pr_pool p) (pr_monitorGone p) (pr_requests p) (pr_details p) (pr_cleaner p)
    (pr_cleanerStop p) (pr_cacheClosed p) (pr_dbClosed p) (pr_graceful p).
Definition setPool (s : Dispatch.Sys) (gone : bool) (p : Process) : Process :=
  mkProcess (pr_stage p) (pr_handlers p) s gone (pr_requests p) (pr_details p) (pr_cleaner p)
    (pr_cleanerStop p) (pr_cacheClosed p) (pr_dbClosed p) (pr_graceful p).
Definition setTiers (r : Tier (A := RequestLog)) (d : Tier (A := DetailLog)) (p : Process) : Process :=
  mkProcess (pr_stage p) (pr_handlers p) (pr_pool p) (pr_monitorGone p) r d (pr_cleaner p)
    (pr_cleanerStop p) (pr_cacheClosed p) (pr_dbClosed p) (pr_graceful p).
Definition setCleaner (c : cleanerAt) (stop : bool) (p : Process) : Process :=
  mkProcess (pr_stage p) (pr_handlers p) (pr_pool p) (pr_monitorGone p) (pr_requests p) (pr_details p) c
    stop (pr_cacheClosed p) (pr_dbClosed p) (pr_graceful p).
Definition setClosed (cache db graceful : bool) (p : Process) : Process :=
  mkProcess (pr_stage p) (pr_handlers p) (pr_pool p) (pr_monitorGone p) (pr_requests p) (pr_details p) (pr_cleaner p)
    (pr_cleanerStop p) cache db graceful.

(** What a step of [main] needs from outside: nothing, the result of
    [http.Server.Shutdown], a round of a drain loop, the end of a transaction. *)
Inductive mainStep :=
| Signal
| HTTPReturns (err : option error)
| Drain
| Insert (commits : bool)
| Proceed.

Inductive action :=
| Arrive                                              (* a handler starts *)
| HandlerLogs (x : RequestLog) (d : option DetailLog) (* AsyncLog, AsyncLogDetail *)
| Leave                                               (* a handler returns *)
| PoolStep (a : Dispatch.action)
| MonitorLeaves
| RequestWorker (c : lcall (A := RequestLog))
| DetailWorker (c : lcall (A := DetailLog))
| CleanerFinishes                                     (* r.clean() returns *)
| CleanerTicks
| CleanerLeaves
| Main (m : mainStep).

(** The steps of a tier's own goroutine. *)
Definition ofWorker {A} (c : lcall (A := A)) : bool :=
  match c with CReceive | CTick | CStop | CDrain | CBatch _ => true | _ => false end.

(** [workerPool.Stop()] closes the pool's [stopCh], then its queue, then waits. *)
Definition stopPool (p : Process) : option Process :=
  pool ← Dispatch.act Dispatch.CloseStop (pr_pool p);
  Some (setStage ClosingQueue (setPool pool (pr_monitorGone p) p)).

Definition workerGone (x : Dispatch.worker) : bool := match x with Dispatch.Exited => true | _ => false end.
Definition tierGone {A} (t : Tier (A := A)) : bool := match t_phase t with Exited => true | _ => false end.
Definition cleanerGone (c : cleanerAt) : bool := match c with CleanerGone => true | _ => false end.

(** The next step of [main]; [None] while it has to wait. *)
Definition mainNext (m : mainStep) (p : Process) : option Process :=
  match pr_stage p, m with
  | Serving, Signal => Some (setStage ClosingHTTP p)
  | ClosingHTTP, HTTPReturns (Some _) => stopPool p
  | ClosingHTTP, HTTPReturns None =>
      if bool_decide (pr_handlers p = O)
      then Some (setStage FlushingRequests
                   (setTiers (flushStart (pr_requests p)) (pr_details p)
                      (setClosed (pr_cacheClosed p) (pr_dbClosed p) true p)))
      else None
  | FlushingRequests, Drain => r ← flushTake 0 (pr_requests p); Some (setTiers r (pr_details p) p)
  | FlushingRequests, Insert commits =>
      r ← flushCommit log_ID commits 0 (pr_requests p);
      Some (setStage FlushingDetails (setTiers r (flushStart (pr_details p)) p))
  | FlushingDetails, Drain => d ← flushTake 0 (pr_details p); Some (setTiers (pr_requests p) d p)
  | FlushingDetails, Insert commits =>
      d ← flushCommit dl_TraceID commits 0 (pr_details p); stopPool (setTiers (pr_requests p) d p)
  | ClosingQueue, Proceed =>
      pool ← Dispatch.act Dispatch.CloseQueue (pr_pool p);
      Some (setStage StoppingPool (setPool pool (pr_monitorGone p) p))
  | StoppingPool, Proceed =>
      if forallb workerGone (Dispatch.s_workers (pr_pool p)) && pr_monitorGone p
      then Some (setStage StoppingCleaner (setCleaner (pr_cleaner p) true p)) else None
  | StoppingCleaner, Proceed =>
      if cleanerGone (pr_cleaner p)
      then Some (setStage ClosingLogger
                   (setTiers (Close (pr_requests p)) (Close (pr_details p))
                      (setClosed true (pr_dbClosed p) (pr_graceful p) p)))
      else None
  | ClosingLogger, Proceed =>
      if tierGone (pr_requests p) && tierGone (pr_details p)
      then Some (setStage Over (setClosed (pr_cacheClosed p) true (pr_graceful p) p)) else None
  | _, _ => None
  end.

(** The steps of [Stop] are those of [main]. *)
Definition isStop (a : Dispatch.action) : bool :=
  match a with Dispatch.CloseStop | Dispatch.CloseQueue => true | _ => false end.

Definition act (a : action) (p : Process) : option Process :=
  match pr_stage p with
  | Over => None
  | _ =>
      match a with
      | Arrive => match pr_stage p with Serving => Some (setHandlers (S (pr_handlers p)) p) | _ => None end
      | HandlerLogs x d =>
          if bool_decide (pr_handlers p = O) then None
          else Some (setTiers (Log x (pr_requests p))
                       (match d with Some d => Log d (pr_details p) | None => pr_details p end) p)
      | Leave => match pr_handlers p with O => None | S n => Some (setHandlers n p) end
      | PoolStep a =>
          if isStop a then None
          else pool ← Dispatch.act a (pr_pool p); Some (setPool pool (pr_monitorGone p) p)
      | MonitorLeaves => if Dispatch.s_stopCh (pr_pool p) then Some (setPool (pr_pool p) true p) else None
      | RequestWorker c =>
          if ofWorker c then r ← requestTier c (pr_requests p); Some (setTiers r (pr_details p) p) else None
      | DetailWorker c =>
          if ofWorker c then d ← detailTier c (pr_details p); Some (setTiers (pr_requests p) d p) else None
      | CleanerFinishes =>
          match pr_cleaner p with Cleaning => Some (setCleaner CleanerWaiting (pr_cleanerStop p) p) | _ => None end
      | CleanerTicks =>
          match pr_cleaner p with CleanerWaiting => Some (setCleaner Cleaning (pr_cleanerStop p) p) | _ => None end
      | CleanerLeaves =>
          match pr_cleaner p, pr_cleanerStop p with
          | CleanerWaiting, true => Some (setCleaner CleanerGone true p)
          | _, _ => None
          end
      | Main m => mainNext m p
      end
  end.

Definition step (p p' : Process) : Prop := ∃ a, act a p = Some p'.

(** ** The tiers along the shutdown *)

Section tier.
Context {A : Type} (key : A → string) (batchMax cap : nat).
Implicit Types t : Tier (A := A).

(** A worker that has drained the channel finds nothing new in it. *)
Definition quiet t : Prop := t_phase t ∈ [LastFlush; Exited] → t_ch t = [].

(** [flushing]: a call of [Flush] is in progress; [stop]: [Close] has been called;
    [calm]: nobody logs any more. *)
Record tierAt (flushing stop calm : bool) t : Prop := {
  ta_ok : tier_ok key batchMax cap t;
  ta_flushes : if flushing then ∃ f, t_flushes t = [f] else t_flushes t = [];
  ta_stop : t_stop t = stop;
  ta_quiet : calm = true → quiet t;
}.

Context (batch_pos : (0 < batchMax)%nat).

Lemma tier_step c t t' : tier_ok key batchMax cap t → lexec key batchMax c t = Some t' → tier_ok key batchMax cap t'.
Proof. intros Ht Hc. eapply lstep_ok; [exact batch_pos|done|by exists c]. Qed.

Lemma tierAt_log flushing stop x t : tierAt flushing stop false t → tierAt flushing stop false (Log x t).
Proof.
  intros [Hok Hf Hs _]. split; [by apply (tier_step (CLog x) t)| | |done];
    unfold Log; by case_bool_decide.
Qed.

Lemma tierAt_worker flushing stop calm c t t' :
  ofWorker c = true → lexec key batchMax c t = Some t' → tierAt flushing stop calm t → tierAt flushing stop calm t'.
Proof.
  intros Hc He [Hok Hf Hs Hq]. assert (t_flushes t' = t_flushes t ∧ t_stop t' = t_stop t ∧ (quiet t → quiet t'))
    as (Hf' & Hs' & Hq').
  { unfold quiet. destruct c; try done; simpl in He;
      unfold workerReceive, workerTick, workerStop, workerDrain, flushBatch in He;
      destruct (t_phase t) eqn:Ep; try done; repeat case_match; simplify_eq/=; split_and!; try done;
      intros Hcal Hin; try done; try (by set_solver); apply Hcal; set_solver. }
  split; [by eapply tier_step|by rewrite Hf'|congruence|auto].
Qed.

Lemma tierAt_flushStart stop calm t : tierAt false stop calm t → tierAt true stop calm (flushStart t).
Proof.
  intros [Hok Hf Hs Hq]. split; [by apply (tier_step CFlush t)| |done|done].
  simpl. rewrite Hf. by exists (mkFlush [] false).
Qed.

Lemma tierAt_take stop calm t t' : flushTake 0 t = Some t' → tierAt true stop calm t → tierAt true stop calm t'.
Proof.
  intros He [Hok [f Hf] Hs Hq]. pose proof (tier_step (CTake 0) t t' Hok He) as Hok'. unfold flushTake in He.
  rewrite Hf in He. simpl in He. destruct f as [logs []]; [done|]. destruct (t_ch t) as [|x ch] eqn:Ech; simplify_eq;
    (split; [done|by eexists|done|]); intros Hc Hin; [done|]. specialize (Hq Hc Hin). congruence.
Qed.

Lemma tierAt_commit stop calm commits t t' :
  flushCommit key commits 0 t = Some t' → tierAt true stop calm t → tierAt false stop calm t'.
Proof.
  intros He [Hok [f Hf] Hs Hq]. pose proof (tier_step (CCommit commits 0) t t' Hok He) as Hok'.
  unfold flushCommit in He. rewrite Hf in He. simpl in He. destruct f as [logs []]; [|done].
  simplify_eq. by case_bool_decide.
Qed.

Lemma tierAt_close flushing stop calm t : tierAt flushing stop calm t → tierAt flushing true calm (Close t).
Proof. intros [Hok Hf Hs Hq]. split; [by apply (tier_step CClose t)|done|done|done]. Qed.

(** Before [Close] the worker is not draining. *)
Lemma tierAt_calm flushing calm t : tierAt flushing false calm t → tierAt flushing false true t.
Proof.
  intros [Hok Hf Hs Hq]. split; [done..|]. intros _ Hin. pose proof (lo_batch _ _ _ _ Hok) as Hb.
  unfold batch_ok in Hb. rewrite Hs in Hb. destruct (t_phase t); try (by set_solver); naive_solver.
Qed.

(** The end: the worker has returned and nobody logs. *)
Lemma tierAt_settled stop t :
  tierAt false stop true t → tierGone t = true →
  pending t = [] ∧ bk_offered (t_books t) ≡ₚ bk_committed (t_books t) ++ bk_dropped (t_books t) ++ bk_failed (t_books t).
Proof.
  intros [Hok Hf Hs Hq] Hg. pose proof (lo_batch _ _ _ _ Hok) as Hb. unfold tierGone in Hg. unfold batch_ok in Hb.
  destruct (t_phase t) eqn:Ep; try done. destruct Hb as [_ Hb].
  assert (pending t = []) as Hp.
  { unfold pending. rewrite Hb, Hf, (Hq eq_refl); [done|]. rewrite Ep. set_solver. }
  split; [done|]. rewrite (lo_conserved _ _ _ _ Hok), Hp. done.
Qed.
End tier.

(** ** The process *)

Definition late (s : stage) : bool := match s with ClosingLogger | Over => true | _ => false end.
Definition flushingR (s : stage) : bool := match s with FlushingRequests => true | _ => false end.
Definition flushingD (s : stage) : bool := match s with FlushingDetails => true | _ => false end.
Definition open (s : stage) : bool := match s with Serving | ClosingHTTP => true | _ => false end.

Definition requestsAt (cap : nat) := tierAt log_ID requestBatch cap.
Definition detailsAt (cap : nat) := tierAt dl_TraceID detailBatch cap.

(** Everything has been waited for. *)
Definition allGone (p : Process) : Prop :=
  forallb workerGone (Dispatch.s_workers (pr_pool p)) = true ∧ pr_monitorGone p = true ∧ pr_cleaner p = CleanerGone.

Definition reached (p : Process) : Prop :=
  match pr_stage p with
  | StoppingCleaner => forallb workerGone (Dispatch.s_workers (pr_pool p)) = true ∧ pr_monitorGone p = true
  | ClosingLogger => allGone p
  | Over => allGone p ∧ tierGone (pr_requests p) = true ∧ tierGone (pr_details p) = true
  | _ => True
  end.

Record procOk (cap : nat) (p : Process) : Prop := {
  po_requests : requestsAt cap (flushingR (pr_stage p)) (late (pr_stage p)) (pr_graceful p) (pr_requests p);
  po_details : detailsAt cap (flushingD (pr_stage p)) (late (pr_stage p)) (pr_graceful p) (pr_details p);
  po_graceful : pr_graceful p = true → pr_handlers p = O ∧ open (pr_stage p) = false;
  po_reached : reached p;
}.

(** A worker of the pool that has returned does nothing more. *)
Lemma workers_stay_gone a s s' :
  forallb workerGone (Dispatch.s_workers s) = true → Dispatch.act a s = Some s' →
  forallb workerGone (Dispatch.s_workers s') = true.
Proof.
  intros Hg. assert (∀ i x, Dispatch.s_workers s !! i = Some x → x = Dispatch.Exited) as Hx.
  { intros i x Hi. assert (In x (Dispatch.s_workers s)) as Hin by (by apply list_elem_of_In, list_elem_of_lookup_2 with i).
    rewrite forallb_forall in Hg. specialize (Hg x Hin). by destruct x. }
  destruct a as [req|i|i|i al|i|i sd|j|j|c| | |]; simpl;
    try (destruct (Dispatch.s_workers s !! i) as [x|] eqn:Hi; [rewrite (Hx i x Hi)|]; done).
  - destruct (Queue.Enqueue _ _) as [q [pos ?]]. destruct (pos =? -1); by intros [= <-].
  - destruct (Dispatch.s_delayed s !! j) as [[r []]|]; try done. destruct (Dispatch.ctxErr _ _); by intros [= <-].
  - destruct (Dispatch.s_delayed s !! j) as [[r []]|]; try done.
    destruct (Queue.Enqueue _ _) as [q [pos ?]]. destruct (pos =? -1); by intros [= <-].
  - by intros [= <-].
  - by intros [= <-].
  - destruct (Dispatch.s_stopCh s); [done|]. by intros [= <-].
  - destruct (Dispatch.s_stopCh s); [|done]. by intros [= <-].
Qed.

Lemma procOk_tiers cap p r d :
  procOk cap p → pr_stage p ≠ Over → requestsAt cap (flushingR (pr_stage p)) (late (pr_stage p)) (pr_graceful p) r →
  detailsAt cap (flushingD (pr_stage p)) (late (pr_stage p)) (pr_graceful p) d → procOk cap (setTiers r d p).
Proof.
  intros [Hr Hd Hg Hre] Hs Hr' Hd'. split; [done..|]. unfold reached, allGone in *. simpl. by destruct (pr_stage p).
Qed.

Lemma procOk_pool cap p pool gone :
  procOk cap p → (forallb workerGone (Dispatch.s_workers (pr_pool p)) = true → forallb workerGone (Dispatch.s_workers pool) = true) →
  (pr_monitorGone p = true → gone = true) → procOk cap (setPool pool gone p).
Proof.
  intros [Hr Hd Hg Hre] Hw Hm. split; [done..|]. unfold reached, allGone in *. simpl. destruct (pr_stage p); naive_solver.
Qed.

Lemma procOk_stopPool cap p p' :
  requestsAt cap false false (pr_graceful p) (pr_requests p) → detailsAt cap false false (pr_graceful p) (pr_details p) →
  (pr_graceful p = true → pr_handlers p = O) → stopPool p = Some p' → procOk cap p'.
Proof.
  intros Hr Hd Hg He. apply bind_Some in He as (pool & _ & [= <-]). split; simpl; [done|done|by auto|done].
Qed.

Lemma batches_pos : (0 < requestBatch)%nat ∧ (0 < detailBatch)%nat.
Proof. unfold requestBatch, detailBatch. lia. Qed.

Lemma mainNext_ok cap m p p' : procOk cap p → mainNext m p = Some p' → procOk cap p'.
Proof.
  destruct batches_pos as [HbR HbD]. intros [Hr Hd Hg Hre]. unfold mainNext, reached in *.
  destruct (pr_stage p) eqn:Es, m as [|[e|]| |commits|]; try done; simpl in *.
  - intros [= <-]. by split.
  - apply procOk_stopPool; [done|done|naive_solver].
  - case_bool_decide as Hh; [|done]. intros [= <-]. split; simpl; [|by eapply tierAt_calm|done|done].
    apply tierAt_flushStart; [done|]. by eapply tierAt_calm.
  - intros (r & Hr' & [= <-])%bind_Some. apply procOk_tiers; rewrite ?Es; [split|..]; rewrite ?Es; try done.
    all: try (unfold reached; by rewrite Es). by eapply tierAt_take.
  - intros (r & Hr' & [= <-])%bind_Some. split; simpl; [by eapply tierAt_commit|by apply tierAt_flushStart|done|done].
  - intros (d & Hd' & [= <-])%bind_Some. apply procOk_tiers; rewrite ?Es; [split|..]; rewrite ?Es; try done.
    all: try (unfold reached; by rewrite Es). by eapply tierAt_take.
  - intros (d & Hd' & Hp)%bind_Some. eapply procOk_stopPool; [..|exact Hp]; simpl; [done|by eapply tierAt_commit|naive_solver].
  - intros (pool & _ & [= <-])%bind_Some. by split.
  - destruct (_ && _) eqn:E; [|done]. bools. intros [= <-]. by split.
  - destruct (cleanerGone (pr_cleaner p)) eqn:E; [|done]. intros [= <-].
    split; simpl; [by eapply tierAt_close|by eapply tierAt_close|done|].
    destruct (pr_cleaner p) eqn:Ec; try done. destruct Hre as [Hw Hm]. by split_and!.
  - destruct (_ && _) eqn:E; [|done]. bools. intros [= <-]. by split.
Qed.

Lemma process_act_ok cap a p p' : procOk cap p → act a p = Some p' → procOk cap p'.
Proof.
  destruct batches_pos as [HbR HbD]. intros Hp. unfold act.
  destruct (decide (pr_stage p = Over)) as [->|Hs]; [done|].
  assert (∀ x : option Process, match pr_stage p with Over => None | _ => x end = x) as -> by (by destruct (pr_stage p)).
  pose proof Hp as [Hr Hd Hg Hre]. destruct a as [|x d| |a| |c|c| | | |m].
  - destruct (pr_stage p) eqn:Es; try done. intros [= <-].
    split; simpl; rewrite ?Es; [done|done|intros E; by destruct (Hg E)|]. unfold reached. simpl. by rewrite Es.
  - case_bool_decide as Hh; [done|]. intros [= <-]. destruct (pr_graceful p) eqn:Eg; [naive_solver|].
    apply procOk_tiers; [done|done| |]; rewrite Eg; [by apply tierAt_log|]. destruct d; [by apply tierAt_log|done].
  - destruct (pr_handlers p) eqn:Eh; [done|]. intros [= <-]. split; simpl; [done|done|naive_solver|done].
  - destruct (isStop a); [done|]. intros (pool & Ha & [= <-])%bind_Some. apply procOk_pool; [done| |done].
    intros. by eapply workers_stay_gone.
  - destruct (Dispatch.s_stopCh _); [|done]. intros [= <-]. by apply procOk_pool.
  - destruct (ofWorker c) eqn:Ec; [|done]. intros (r & Hr' & [= <-])%bind_Some. apply procOk_tiers; [done|done| |done].
    by eapply tierAt_worker.
  - destruct (ofWorker c) eqn:Ec; [|done]. intros (d & Hd' & [= <-])%bind_Some. apply procOk_tiers; [done..|].
    by eapply tierAt_worker.
  - destruct (pr_cleaner p) eqn:Ec; try done. intros [= <-]. split; [done..|]. unfold reached, allGone in *. simpl.
    rewrite Ec in Hre. destruct (pr_stage p); naive_solver.
  - destruct (pr_cleaner p) eqn:Ec; try done. intros [= <-]. split; [done..|]. unfold reached, allGone in *. simpl.
    rewrite Ec in Hre. destruct (pr_stage p); naive_solver.
  - destruct (pr_cleaner p) eqn:Ec; try done. destruct (pr_cleanerStop p); [|done]. intros [= <-].
    split; [done..|]. unfold reached, allGone in *. simpl. rewrite Ec in Hre. destruct (pr_stage p); naive_solver.
  - by apply mainNext_ok.
Qed.

Lemma construct_ok cfg p : construct cfg = Some p → procOk (Z.to_nat (lg_BufferSize (ac_Logging cfg))) p.
Proof.
  destruct batches_pos as [HbR HbD]. unfold construct. destruct (_ || _); [done|]. intros [= <-].
  split; simpl; [..|done|done]; (split; [by apply NewTier_ok|done|done|done]).
Qed.

(** C26. A graceful shutdown loses no log entry: when [main] returns after a
    [http.Server.Shutdown] that waited for the handlers, every entry ever offered
    to either tier has been committed, was refused by a full channel or was in a
    transaction that failed; none is left in a channel, a batch or a [Flush]
    call, the workers of the pool, its monitor and the cleaner have returned, and
    the database was closed after all of them. *)
Theorem shutdown_settles_logs (cfg : AppConfig) (p0 p : Process) :
  construct cfg = Some p0 → rtc step p0 p → pr_stage p = Over → pr_graceful p = true →
  allGone p ∧ pr_handlers p = O ∧ pending (pr_requests p) = [] ∧ pending (pr_details p) = [] ∧
  bk_offered (t_books (pr_requests p)) ≡ₚ settled (t_books (pr_requests p)) ∧
  bk_offered (t_books (pr_details p)) ≡ₚ settled (t_books (pr_details p)).
Proof.
  destruct batches_pos as [batch1 batch2]. intros Hc Hr Hs Hg. set (cap := Z.to_nat (lg_BufferSize (ac_Logging cfg))).
  assert (procOk cap p) as [Hreq Hdet Hgr Hre].
  { apply (rtc_invariant step (procOk cap) p0); [|by apply construct_ok|done]. intros x y Hx [a Ha]. by eapply process_act_ok. }
  unfold reached in Hre. rewrite Hs in *. rewrite Hg in *. destruct Hre as (Hall & Hr1 & Hd1).
  destruct (tierAt_settled _ _ _ batch1 _ _ Hreq Hr1) as [Hp1 Hb1], (tierAt_settled _ _ _ batch2 _ _ Hdet Hd1) as [Hp2 Hb2].
  split_and!; [done|by apply Hgr|done..].
Qed.

(** ** Concrete runs *)

Fixpoint runs (acts : list action) (p : Process) : option Process :=
  match acts with
  | [] => Some p
  | a :: acts => p ← act a p; runs acts p
  end.

Lemma process_runs_rtc acts p p' : runs acts p = Some p' → rtc step p p'.
Proof.
  revert p. induction acts as [|a acts IH]; intros p; simpl; [by intros [= ->]|].
  intros (p1 & Ha & Hr)%bind_Some. eapply rtc_l; [by exists a|by apply IH].
Qed.

Definition demo_redis : RedisConfig := {| rd_Addr := ""; rd_Password := ""; rd_DB := 0 |}.

Definition demo_cfg : AppConfig :=
  {| ac_Server := {| sv_Addr := ":8080"; sv_CORSOrigins := []; sv_AdminToken := ""; sv_MaxMemoryMB := 0 |};
     ac_RateLimit := {| rl_TPM := 0; rl_RPM := 0; rl_MaxRetries := 0 |};
     ac_Logging := {| lg_BasicMaxRows := 0; lg_BasicMaxDays := 0; lg_BasicMaxSizeMB := 0; lg_DetailMaxRows := 0;
                      lg_DetailMaxDays := 0; lg_DetailMaxSizeMB := 0; lg_BufferSize := 8; lg_FlushIntervalMs := 500 |};
     ac_Cache := {| cc_Type := "memory"; cc_Redis := demo_redis |};
     ac_MQ := {| mq_Type := "memory"; mq_Redis := demo_redis; mq_RabbitMQ := {| rq_URL := "" |} |};
     ac_Queue := {| qc_DefaultPriority := 0; qc_MaxQueueSize := 10 |};
     ac_Worker := {| wk_PoolSize := 1; wk_MaxRetryAttempts := 3; wk_RetryDelayMs := 0; wk_MaxWaitTimeSec := 60 |};
     ac_Providers := ∅; ac_APIKeys := ∅ |}.

Definition demo_log (id : string) : RequestLog :=
  {| log_ID := id; log_SessionID := ""; log_Timestamp := 0; log_APIKeyID := ""; log_ModelAlias := ""; log_NodeID := "";
     log_ActualModel := ""; log_PromptTokens := 0; log_CompletionTokens := 0; log_TotalTokens := 0;
     log_DurationMs := 0; log_StatusCode := 200; log_Stream := false; log_ErrorMsg := ""; log_HasDetail := false |}.

(** The pool and the cleaner return, then the logger's workers drain. *)
Definition waits : list action :=
  [PoolStep (Dispatch.Check 0); MonitorLeaves; Main Proceed; Main Proceed; CleanerFinishes; CleanerLeaves; Main Proceed;
   RequestWorker CStop; RequestWorker CDrain].
Definition drained : list action :=
  [RequestWorker (CBatch true); DetailWorker CStop; DetailWorker CDrain; DetailWorker (CBatch true); Main Proceed].

(** One entry is in the worker's batch when [Flush] runs, the other in the
    channel. *)
Definition demo_graceful : list action :=
  [Arrive; HandlerLogs (demo_log "a") None; RequestWorker CReceive; HandlerLogs (demo_log "b") (Some (demo_entry "b" "x"));
   Leave; Main Signal; Main (HTTPReturns None); Main Drain; Main Drain; Main (Insert true); Main Drain; Main Drain;
   Main (Insert true)] ++ waits ++ drained.

Definition demo_process : Process := default (mkProcess Over 0 (Dispatch.Start 0 0) false (New 0) (New 0) Cleaning false
  false false false) (construct demo_cfg).

Lemma shutdown_settles_logs_witness :
  ∃ p, runs demo_graceful demo_process = Some p ∧ bk_committed (t_books (pr_requests p)) = [demo_log "b"; demo_log "a"] ∧
    pending (pr_requests p) = [].
Proof.
  destruct (runs demo_graceful demo_process) as [p|] eqn:E; [|by vm_compute in E]. exists p. split; [done|].
  destruct (shutdown_settles_logs demo_cfg demo_process p) as (_ & _ & Hp & _);
    [by vm_compute|by eapply process_runs_rtc|vm_compute in E; by injection E as <-..|].
  split; [vm_compute in E; by injection E as <-|exact Hp].
Defined.

(** A handler that outlives the grace period can log after the last drain: its
    entry is in the channel when the process ends. *)
Lemma timeout_can_lose :
  ∃ p, runs ([Arrive; Main Signal; Main (HTTPReturns (Some (mkError DeadlineExceeded "context deadline exceeded")))]
             ++ waits ++ [HandlerLogs (demo_log "a") None] ++ drained) demo_process = Some p ∧
    pr_stage p = Over ∧ t_ch (pr_requests p) = [demo_log "a"].
Proof. eexists. split; [by vm_compute|done]. Qed.

End Shutdown.
