(* ===== verification/Server.v ===== *)
(** * api/server.go: routes, stacks and the health check

    [http.ServeMux] of Go 1.24, for the patterns the server registers (no host,
    method or wildcard): the path is cleaned, a pattern that ends in a slash
    matches the tree below it, the longest match wins, and a request is sent
    elsewhere when its path is not clean or lacks the final slash of a pattern.
    [esc] is [r.URL.EscapedPath()], [unescape] decodes one of its segments.

    The handlers behind the two stacks are arguments: the routes and what stands
    in front of each are what this file is about.  The state is the limiter's
    cache, which the health check writes to, and the rest of the program's. *)
From S2P Require Import Prelude GoStd GoFloat GoJson Domain GoHttp Cache RateLimit MemoryCache Auth Middleware.
From Stdlib Require Import Ascii.
Import Api.

Module Server.

(** ** Paths *)

Definition slash : ascii := "/"%char.

(** The segments of a path after its first slash; a final slash gives a last
    segment that is empty. *)
Definition segments (path : string) : list string := tail (Split path slash).

(** [path.Clean] of a rooted path: the segments that remain. *)
Fixpoint cleanSegments (acc segs : list string) : list string :=
  match segs with
  | [] => reverse acc
  | s :: segs =>
      if bool_decide (s = "") || bool_decide (s = ".") then cleanSegments acc segs
      else if bool_decide (s = "..") then cleanSegments (tail acc) segs
      else cleanSegments (s :: acc) segs
  end.

Definition rooted (p : string) : string := if HasPrefix p "/" then p else "/" +:+ p.

Definition hasFinalSlash (p : string) : bool := bool_decide (last (Split p slash) = Some "").

Definition joinSegments (segs : list string) : string := "/" +:+ String.concat "/" segs.

(** [cleanPath]. *)
Definition cleanPath (p : string) : string :=
  if bool_decide (p = "") then "/"
  else
    let np := joinSegments (cleanSegments [] (segments (rooted p))) in
    if hasFinalSlash (rooted p) && negb (bool_decide (np = "/")) then np +:+ "/" else np.

(** ** The routes *)

Inductive route :=
| ChatCompletions | Embeddings | Responses | ListModels
| Stats | StatsTimeSeries | StatsTop | Nodes | NodeByID | Keys | Logs | LogExport | LogDetail
| MetricsPage | Health | UI | Root.

#[global] Instance route_eq_dec : EqDecision route.
Proof. solve_decision. Defined.

(** [OpenAIHandler.RegisterRoutes]. *)
Definition openAIRoutes : list (string * route) :=
  [("/v1/chat/completions", ChatCompletions); ("/v1/completions", ChatCompletions);
   ("/v1/embeddings", Embeddings); ("/v1/responses", Responses); ("/v1/models", ListModels)].

(** [AdminHandler.RegisterRoutes]. *)
Definition adminRoutes : list (string * route) :=
  [("/admin/stats", Stats); ("/admin/stats/timeseries", StatsTimeSeries); ("/admin/stats/top", StatsTop);
   ("/admin/nodes", Nodes); ("/admin/nodes/", NodeByID); ("/admin/keys", Keys); ("/admin/logs", Logs);
   ("/admin/logs/export", LogExport); ("/admin/logs/", LogDetail)].

Definition serverRoutes : list (string * route) :=
  openAIRoutes ++ adminRoutes ++ [("/metrics", MetricsPage); ("/health", Health); ("/ui/", UI); ("/", Root)].

(** A pattern: its segments, and whether it stands for a tree. *)
Definition pattern (p : string) : list string * bool :=
  let segs := segments p in
  if bool_decide (last segs = Some "") then (removelast segs, true) else (segs, false).

Definition matchesPattern (pat : list string * bool) (path : list string) : bool :=
  if pat.2 then bool_decide (pat.1 = take (length pat.1) path) && (length pat.1 <? length path)%nat
  else bool_decide (pat.1 = path).

(** The match with the most segments. *)
Definition better (best : option (list string * bool * route)) (r : string * route) (path : list string)
    : option (list string * bool * route) :=
  let pat := pattern r.1 in
  if matchesPattern pat path then
    match best with
    | Some (pat', rt) => if (length pat'.1 <? length pat.1)%nat then Some (pat, r.2) else Some (pat', rt)
    | None => Some (pat, r.2)
    end
  else best.

Definition matchTree (path : list string) : option (list string * bool * route) :=
  foldl (λ best r, better best r path) None serverRoutes.

(** [exactMatch]: the pattern is not a tree, or it is the path itself. *)
Definition exactMatch (m : option (list string * bool * route)) (path : list string) : bool :=
  match m with
  | None => false
  | Some (segs, tree, _) => negb tree || (bool_decide (length path = S (length segs)) && bool_decide (last path = Some ""))
  end.

Inductive dispatched := ToRoute (rt : route) | Moved (path : string) | NoRoute.

Section mux.
Context (unescape : string → string).

(** [findHandler]; [upath] is [r.URL.Path]. *)
Definition findHandler (method upath esc : string) : dispatched :=
  let path := if bool_decide (method = "CONNECT") then esc else cleanPath esc in
  let segs := unescape <$> segments path in
  let n := matchTree segs in
  if negb (exactMatch n segs) && negb (hasFinalSlash path)
     && exactMatch (matchTree (segs ++ [""])) (segs ++ [""])
  then Moved (cleanPath upath +:+ "/")
  else if negb (bool_decide (path = esc)) then Moved path
  else match n with Some (_, rt) => ToRoute rt | None => NoRoute end.
End mux.

(** ** Handlers *)

(** What [NewServer] is given: the CORS origins, the admin token and the store. *)
Record deps := {
  d_CORSOrigins : list string;
  d_Token : string;
  d_GetAPIKeyByValue : string → result error (option APIKey);
  d_ListNodes : result error (list ModelNode);
}.

Section handlers.
Context {W : Type} `{Writer W} {C : Type} `{Cache C} {St : Type}.

(** [http.Redirect] to a clean local URL. *)
Definition Redirect (w : W) (r : HttpReq) (url : string) (code : Z) (text : string) : W :=
  let h := wHeader w in
  let hadCT := bool_decide (is_Some (h !! "Content-Type")) in
  let get := bool_decide (h_Method r = "GET") in
  let h := hdrSet "Location" url h in
  let h := if negb hadCT && (get || bool_decide (h_Method r = "HEAD"))
           then hdrSet "Content-Type" "text/html; charset=utf-8" h else h in
  let w := wWriteHeader code (wSetHeader h w) in
  if negb hadCT && get
  then (wWrite ("<a href=" +:+ q url +:+ ">" +:+ text +:+ "</a>." +:+ nl +:+ nl) w).1 else w.

(** [http.NotFound], which is [http.Error] with 404. *)
Definition NotFound (w : W) : W :=
  let h := hdrSet "X-Content-Type-Options" "nosniff" (hdrSet "Content-Type" "text/plain; charset=utf-8" (wHeader w)) in
  (wWrite ("404 page not found" +:+ nl) (wWriteHeader 404 (wSetHeader (delete "Content-Length" h) w))).1.

Definition checkText (e : option error) : string :=
  match e with None => "ok" | Some e => "failed: " +:+ err_Msg e end.

(** The handler of [/health]; the arguments are the errors of [ListNodes] and
    [Limiter.Check]. *)
Definition health (db cache : option error) (w : W) : W :=
  let ok := bool_decide (db = None ∧ cache = None) in
  writeJSON w (if ok then 200 else 503)
    ("{" +:+ q "checks" +:+ ":{" +:+ q "cache" +:+ ":" +:+ jsonString (checkText cache) +:+ "," +:+
     q "db" +:+ ":" +:+ jsonString (checkText db) +:+ "}," +:+
     q "status" +:+ ":" +:+ q (if ok then "ok" else "error") +:+ "}" +:+ nl).

(** The handler of [/]. *)
Definition root (r : HttpReq) (w : W) : W :=
  if bool_decide (h_Path r = "/") then Redirect w r "/ui/" 302 "Found" else NotFound w.

(** The handlers behind the stacks, and the file server of the embedded assets. *)
Context (handlers : route → Handler (statusRecorder W) (C * St)) (ui : HttpReq → W → W).
(** [clk i] is the instant of the [i]-th operation on the cache. *)
Context (d : deps) (fresh : string) (now : Z) (clk : nat → Z).

Definition dbError : option error :=
  match d_ListNodes d with Err e => Some e | Ok _ => None end.

(** The handler registered for a route. *)
Definition routeHandler (rt : route) : Handler W (C * St) :=
  match rt with
  | ChatCompletions | Embeddings | Responses | ListModels =>
      openAIMW (d_CORSOrigins d) fresh (d_GetAPIKeyByValue d) now (handlers rt)
  | Stats | StatsTimeSeries | StatsTop | Nodes | NodeByID | Keys | Logs | LogExport | LogDetail
  | MetricsPage => adminMW (d_CORSOrigins d) fresh (d_Token d) (handlers rt)
  | Health => λ _ w '(cache, s),
      let '(err, cache) := run clk 0 (Limit.Check ()) cache in (health dbError err w, (cache, s))
  | UI => λ r w s, (ui r w, s)
  | Root => λ r w s, (root r w, s)
  end.

(** [mux.ServeHTTP]; [urlString] is the text of the URL with a path and the
    request's query. *)
Definition ServeHTTP (unescape urlString : string → string) (esc : string) : Handler W (C * St) :=
  λ r w s,
    if bool_decide (esc = "*") then (wWriteHeader 400 (wSetHeader (hdrSet "Connection" "close" (wHeader w)) w), s)
    else
      match findHandler unescape (h_Method r) (h_Path r) esc with
      | ToRoute rt => routeHandler rt r w s
      | Moved path => (Redirect w r (urlString path) 301 "Moved Permanently", s)
      | NoRoute => (NotFound w, s)
      end.
End handlers.

(** ** Who may reach what *)

Inductive access := Public | APIKeyed | AdminOnly.

#[global] Instance access_eq_dec : EqDecision access.
Proof. solve_decision. Defined.

Definition accessOf (rt : route) : access :=
  match rt with
  | ChatCompletions | Embeddings | Responses | ListModels => APIKeyed
  | Health | UI | Root => Public
  | _ => AdminOnly
  end.

Definition credential (d : deps) (now : Z) (rt : route) (r : HttpReq) : Prop :=
  match accessOf rt with
  | Public => True
  | APIKeyed => ∃ key, authorised (d_GetAPIKeyByValue d) now r key
  | AdminOnly => d_Token d ≠ "" ∧
                 (Auth.ExtractToken (h_Header r) = Some (d_Token d) ∨
                  (Auth.ExtractToken (h_Header r) = None ∧ h_QueryToken r = d_Token d))
  end.

Lemma matchTree_registered path pat rt :
  matchTree path = Some (pat, rt) →
  ∃ p, (p, rt) ∈ serverRoutes ∧ pat = pattern p ∧ matchesPattern pat path = true.
Proof.
  unfold matchTree. assert (∀ rs best,
    (∀ pat rt, best = Some (pat, rt) → ∃ p, (p, rt) ∈ serverRoutes ∧ pat = pattern p ∧ matchesPattern pat path = true) →
    Forall (λ x, x ∈ serverRoutes) rs →
    ∀ pat rt, foldl (λ best r, better best r path) best rs = Some (pat, rt) →
      ∃ p, (p, rt) ∈ serverRoutes ∧ pat = pattern p ∧ matchesPattern pat path = true) as H.
  { induction rs as [|[p rt'] rs IH]; intros best Hb Hrs pat' rt''; simpl; [apply Hb|].
    apply Forall_cons in Hrs as [Hin Hrs]. apply IH; [|done]. clear pat' rt''.
    intros pat' rt''. unfold better. simpl.
    destruct (matchesPattern (pattern p) path) eqn:Hm; [|apply Hb].
    destruct best as [[pat2 rt2]|]; [destruct (_ <? _)%nat|]; intros [= <- <-]; eauto. }
  apply H; [done|]. by apply Forall_forall.
Qed.

(** The public handlers answer for their own paths only. *)
Lemma public_paths path pat rt :
  matchTree path = Some (pat, rt) → accessOf rt = Public →
  rt = Root ∨ (rt = Health ∧ path = ["health"]) ∨ (rt = UI ∧ head path = Some "ui").
Proof.
  intros (p & Hin & -> & Hm)%matchTree_registered Hp.
  unfold serverRoutes, openAIRoutes, adminRoutes in Hin. simpl in Hin.
  rewrite !elem_of_cons, elem_of_nil in Hin. destruct_or! Hin; simplify_eq; try done.
  - right. left. split; [done|]. change (bool_decide (["health"] = path) = true) in Hm. by bools.
  - right. right. split; [done|].
    change (bool_decide (["ui"] = take 1 path) && (1 <? length path)%nat = true) in Hm. bools.
    destruct path; by simplify_eq/=.
  - by left.
Qed.

Lemma findHandler_route unescape method upath esc rt :
  findHandler unescape method upath esc = ToRoute rt →
  ∃ pat, matchTree (unescape <$> segments esc) = Some (pat, rt).
Proof.
  unfold findHandler. set (path := if bool_decide _ then _ else _).
  destruct (_ && _); [done|]. destruct (bool_decide (path = esc)) eqn:E; [|done]. bools. rewrite E.
  simpl. destruct (matchTree _) as [[pat rt']|]; [|done]. intros [= ->]. eauto.
Qed.

(** The health check writes the probe key and nothing else. *)
Lemma Check_writes {C} `{Cache C} clk (c : C) :
  (run clk 0 (Limit.Check ()) c).2 = (cSet (clk 0%nat) "health:probe" "1" (10 * Second) c).1.
Proof. simpl. destruct (cSet _ _ _ _ _) as [c' [e|]]; [done|]. simpl. by destruct (cGet _ _ c'). Qed.

(** C10. The server as a whole: whatever the handlers do and whatever path is
    asked for, the state of the program changes only behind a route whose
    credential the request carries (a stored, enabled, unexpired key for the
    OpenAI routes, the configured admin token for the admin routes and the
    metrics), with one exception: [/health] writes its probe key to the
    limiter's cache for anybody.  Without the credential the client receives 401
    or 403 (204 for a preflight).  The public handlers answer for [/health] and
    [/ui/] only, and every other path that is not registered is redirected or
    not found. *)
Theorem server_protected {C St} `{Cache C} (handlers : route → Handler (statusRecorder ResponseWriter) (C * St))
    (ui : HttpReq → ResponseWriter → ResponseWriter) (d : deps) (fresh : string) (now : Z) (clk : nat → Z)
    (unescape urlString : string → string) (esc : string) (r : HttpReq) (w : ResponseWriter) (s : C * St) :
  rw_sent w = None →
  let found := findHandler unescape (h_Method r) (h_Path r) esc in
  let '(w', s') := ServeHTTP handlers ui d fresh now clk unescape urlString esc r w s in
  (s' ≠ s →
     (∃ rt, found = ToRoute rt ∧ accessOf rt ≠ Public ∧ credential d now rt r ∧ h_Method r ≠ "OPTIONS") ∨
     (found = ToRoute Health ∧ s'.2 = s.2 ∧ s'.1 = (cSet (clk 0%nat) "health:probe" "1" (10 * Second) s.1).1)) ∧
  (∀ rt, esc ≠ "*" → found = ToRoute rt → ¬ credential d now rt r →
     ∃ code h, rw_sent w' = Some (code, h) ∧
       code = if bool_decide (h_Method r = "OPTIONS") then 204
              else if bool_decide (accessOf rt = AdminOnly ∧ d_Token d = "") then 403 else 401) ∧
  (∀ rt, found = ToRoute rt → accessOf rt = Public →
     rt = Root ∨ (rt = Health ∧ unescape <$> segments esc = ["health"]) ∨
     (rt = UI ∧ head (unescape <$> segments esc) = Some "ui")).
Proof.
  intros Hw found. assert (∀ rt, found = ToRoute rt → accessOf rt = Public →
     rt = Root ∨ (rt = Health ∧ unescape <$> segments esc = ["health"]) ∨
     (rt = UI ∧ head (unescape <$> segments esc) = Some "ui")) as Hpub.
  { intros rt (pat & Hm)%findHandler_route. by eapply public_paths. }
  unfold ServeHTTP. case_bool_decide as Hstar; [by split_and!; [|intros; done|]|]. fold found.
  destruct found as [rt|path|] eqn:Hf; [|by split_and!..].
  destruct (accessOf rt) eqn:Ha.
  - destruct (routeHandler handlers ui d fresh now clk rt r w s) as [w' s'] eqn:Er. split_and!; [| |done].
    + intros Hs. right. destruct rt; try done; cbn [routeHandler] in Er; [|by simplify_eq..]. destruct s as [c s].
      pose proof (Check_writes clk c) as Hc. destruct (run clk 0 _ c) as [err c'].
      injection Er as <- <-. split_and!; [done|done|exact Hc].
    + intros rt' _ [= <-] []. unfold credential. by rewrite Ha.
  - assert (routeHandler handlers ui d fresh now clk rt = openAIMW (d_CORSOrigins d) fresh (d_GetAPIKeyByValue d) now (handlers rt))
      as -> by (by destruct rt).
    pose proof (openai_protected (d_CORSOrigins d) fresh (d_GetAPIKeyByValue d) now (handlers rt) r w s Hw) as Hp.
    destruct (openAIMW _ _ _ _ _ _ _ _) as [w' s'].
    destruct Hp as [[-> (code & h & E & ->)]|(Ho & key & pc & r1 & w1 & rec & Hk & _)].
    + split_and!; [done| |done]. intros rt' _ [= <-] _. rewrite Ha. by exists (if bool_decide (h_Method r = "OPTIONS") then 204 else 401), h.
    + split_and!; [|intros rt' _ [= <-] []|done]; [intros _; left; exists rt; rewrite Ha|];
        unfold credential; rewrite Ha; eauto.
  - assert (routeHandler handlers ui d fresh now clk rt = adminMW (d_CORSOrigins d) fresh (d_Token d) (handlers rt))
      as -> by (by destruct rt).
    pose proof (admin_protected (d_CORSOrigins d) fresh (d_Token d) (handlers rt) r w s Hw) as Hp.
    destruct (adminMW _ _ _ _ _ _ _) as [w' s'].
    destruct Hp as [[-> (code & h & E & ->)]|(Ht & Ho & Hk & _)].
    + split_and!; [done| |done]. intros rt' _ [= <-] _. rewrite Ha.
      eexists _, h. split; [exact E|]. case_bool_decide; [done|]. repeat case_bool_decide; naive_solver.
    + split_and!; [|intros rt' _ [= <-] []|done]; [intros _; left; exists rt; rewrite Ha|];
        unfold credential; rewrite Ha; eauto.
Qed.

(** The health check reports 200 exactly when both checks pass. *)
Lemma health_status db cache (w : ResponseWriter) :
  rw_sent w = None →
  ∃ h, rw_sent (health db cache w) = Some (if bool_decide (db = None ∧ cache = None) then 200 else 503, h).
Proof.
  intros Hw. unfold health, writeJSON. simpl. set (code := if bool_decide _ then 200 else 503).
  set (w1 := rwWriteHeader code _).
  assert (rw_sent w1 = Some (code, hdrSet "Content-Type" "application/json" (rw_header w))) as E
    by (unfold w1, rwWriteHeader; simpl; by rewrite Hw).
  eexists. apply (proj2 (proj2 (sent_stable _)) _ _ E).
Qed.

(** ** Concrete requests *)

Definition demo_deps : deps :=
  {| d_CORSOrigins := ["*"]; d_Token := "secret"; d_GetAPIKeyByValue := demo_store; d_ListNodes := Ok [] |}.

(** Where requests go: the longest pattern wins, a path that is not clean or
    lacks its slash is redirected, an escaped slash does not separate. *)
Example demo_routes :
  let to := findHandler (λ s, s) "GET" in
  (λ p, to p p) <$> ["/admin/logs"; "/admin/logs/export"; "/admin/logs/abc"; "/admin/logs/a/b"; "/admin/keys/";
                     "/ui"; "/ui/app.js"; "/"; "/admin%2Fkeys"; "/x/../admin/keys"; "//health"]
  = [ToRoute Logs; ToRoute LogExport; ToRoute LogDetail; ToRoute LogDetail; ToRoute Root;
     Moved "/ui/"; ToRoute UI; ToRoute Root; ToRoute Root; Moved "/admin/keys"; Moved "/health"].
Proof. by vm_compute. Qed.

Definition demo_cache : Mem.MemoryCache := Mem.mkCache ∅ false.

(** A handler that counts its calls. *)
Definition demo_handlers (rt : route) : Handler (statusRecorder ResponseWriter) (Mem.MemoryCache * Z) :=
  λ r w s, let '(w, n) := count_handler r w s.2 in (w, (s.1, n)).

Lemma server_protected_witness :
  let serve token esc :=
    ServeHTTP demo_handlers (λ _ w, w) demo_deps "id" 50 (λ _, 50) (λ s, s) (λ s, s) esc (demo_req token) newRW (demo_cache, 0) in
  (serve "Bearer secret" "/admin/keys").2.2 = 1 ∧ (serve "Bearer pk-1" "/v1/models").2.2 = 1 ∧
  (∃ h, rw_sent (serve "Bearer pk-1" "/admin/keys").1 = Some (401, h)) ∧
  is_Some (Mem.entries (serve "" "/health").2.1 !! "health:probe") ∧ (serve "" "/health").2.2 = 0.
Proof.
  intros serve. split; [by vm_compute|]. split; [by vm_compute|]. split; [|by vm_compute; split; [eexists|]].
  pose proof (server_protected demo_handlers (λ _ w, w) demo_deps "id" 50 (λ _, 50) (λ s, s) (λ s, s) "/admin/keys"
    (demo_req "Bearer pk-1") newRW (demo_cache, 0) eq_refl) as Hp. cbv zeta in Hp.
  fold (serve "Bearer pk-1" "/admin/keys") in Hp.
  destruct (serve "Bearer pk-1" "/admin/keys") as [w' s'].
  destruct Hp as (_ & Hp & _). destruct (Hp Keys) as (code & h & E & ->); [done|by vm_compute| |by exists h].
  intros [_ [H|[H _]]]; by vm_compute in H.
Defined.
End Server.
