(* ===== verification/RedisCache.v ===== *)
(** * package redis: the shared cache

    [src/internal/storage/redis/cache.go].  The server and the client library are
    the argument [RedisServer]: the commands at an instant of the server, in
    milliseconds, and what their documentation says of them in terms of what a
    key holds ([view]).  A script runs as one step at one instant.  The
    operations are those of a server that can be reached; the errors left are
    those of the commands. *)
From S2P Require Import Prelude GoStd GoFloat GoJson Domain Cache MemoryCache.

Module Redis.

(** What a key holds: the value and the millisecond after which it is gone. *)
Abbreviation held := (option (string * option Z)).

(** An expiry that has passed. *)
Definition aged (n : Z) (h : held) : held :=
  match h with
  | Some (v, Some w) => if n <=? w then Some (v, Some w) else None
  | h => h
  end.

(** The number a key counts from, and its expiry. *)
Definition counts (h : held) (z : Z) (x : option Z) : Prop :=
  match h with
  | None => z = 0 ∧ x = None
  | Some (v, x') => v = FormatInt z ∧ x = x' ∧ in_int64 z
  end.

Class RedisServer (S : Type) := {
  GET : Z → string → S → option string;
  SET : Z → string → string → Z → S → S;
  DEL : Z → string → S → S;
  INCRBY : Z → string → Z → S → S * result error Z;
  TTL : Z → string → S → Z;
  PEXPIRE : Z → string → Z → S → S;
}.

(** The documented behaviour of the commands. *)
Class RedisLaws (S : Type) `{RedisServer S} := {
  view : Z → string → S → held;
  (** Only the passing of time takes a key away. *)
  view_aged n n' k s : n ≤ n' → view n' k s = aged n' (view n k s);
  GET_view n k s : GET n k s = fst <$> view n k s;
  (** A positive time to live, a whole number of milliseconds, is an expiry;
      zero is none. *)
  SET_view n k v ttl s k' :
    0 ≤ ttl → ttl mod Millisecond = 0 →
    view n k' (SET n k v ttl s) =
      if decide (k = k') then Some (v, if ttl =? 0 then None else Some (n + ttl / Millisecond))
      else view n k' s;
  DEL_view n k s k' : view n k' (DEL n k s) = if decide (k = k') then None else view n k' s;
  (** A missing key counts from 0 and gets no expiry; an existing one keeps
      its own. *)
  INCRBY_view n k d s z x :
    counts (view n k s) z x → in_int64 (z + d) →
    (INCRBY n k d s).2 = Ok (z + d) ∧
    ∀ k', view n k' (INCRBY n k d s).1 =
      if decide (k = k') then Some (FormatInt (z + d), x) else view n k' s;
  (** -2 for a missing key, -1 for a key without expiry. *)
  TTL_view n k s v x :
    view n k s = Some (v, x) → TTL n k s = -1 ↔ x = None;
  PEXPIRE_view n k ms s v x k' :
    0 < ms → view n k s = Some (v, x) →
    view n k' (PEXPIRE n k ms s) = if decide (k = k') then Some (v, Some (n + ms)) else view n k' s;
}.

Section cache.
Context {S : Type} `{RedisServer S}.

(** The script [incrLua]. *)
Definition incrLua (n : Z) (key : string) (delta ttlMs : Z) (s : S) : S * result error Z :=
  match INCRBY n key delta s with
  | (s, Err e) => (s, Err e)
  | (s, Ok val) =>
      let ttl := TTL n key s in
      ((if ttl =? -1 then PEXPIRE n key ttlMs s else s), Ok val)
  end.

(** The millisecond of an instant. *)
Definition ms (t : Z) : Z := t / Millisecond.

Definition Get (t : Z) (key : string) (s : S) : option string := GET (ms t) key s.
Definition Set_ (t : Z) (key value : string) (ttl : Z) (s : S) : S * option error :=
  (SET (ms t) key value ttl s, None).
Definition Delete (t : Z) (key : string) (s : S) : S * option error := (DEL (ms t) key s, None).
Definition IncrBy (t : Z) (key : string) (delta ttl : Z) (s : S) : S * result error Z :=
  let ttlMs := Milliseconds ttl in incrLua (ms t) key delta ttlMs s.

#[global] Instance redis_Cache : Cache S :=
  {| cGet := Get; cSet := Set_; cDelete := Delete; cIncrBy := IncrBy |}.

(** The calls of a history, as in [Mem.mexec]; the server expires keys itself. *)
Definition rexec (t : Z) (o : Mem.mcall) (s : S) : S * option Mem.mresult :=
  match o with
  | Mem.MGet k => (s, Some (Mem.RGet (cGet t k s)))
  | Mem.MSet k v ttl => ((cSet t k v ttl s).1, Some Mem.RUnit)
  | Mem.MDelete k => ((cDelete t k s).1, Some Mem.RUnit)
  | Mem.MIncrBy k d ttl => let '(s, r) := cIncrBy t k d ttl s in (s, Some (Mem.RIncr r))
  | Mem.MTick => (s, None)
  end.

Fixpoint rtrace (h : list (Z * Mem.mcall)) (s : S) : list Mem.mresult :=
  match h with
  | [] => []
  | (t, o) :: h => let '(s, r) := rexec t o s in option_list r ++ rtrace h s
  end.
End cache.

Section laws.
Context {S : Type} `{RedisLaws S}.

(** An entry of the memory cache and what a Redis key holds. *)
Definition sameHeld (e : option Mem.cacheEntry) (h : held) : Prop :=
  match e, h with
  | None, None => True
  | Some e, Some (v, x) =>
      Mem.value e = v ∧
      match x with
      | None => Mem.expireAt e = zeroTime
      | Some w => 0 ≤ w ∧ Mem.expireAt e = w * Millisecond
      end
  | _, _ => False
  end.

Definition sameAt (n : Z) (c : Mem.MemoryCache) (s : S) : Prop :=
  ∀ k, sameHeld (Mem.live_entry (n * Millisecond) k c) (view n k s).

Lemma ms_whole n : ms (n * Millisecond) = n.
Proof. unfold ms. by apply Z.div_mul. Qed.

Lemma expired_aged e v x n :
  sameHeld (Some e) (Some (v, x)) →
  sameHeld (if Mem.expired e (n * Millisecond) then None else Some e) (aged n (Some (v, x))).
Proof.
  intros [Hv Hx]. unfold Mem.expired, After, IsZero. simpl. destruct x as [w|].
  - destruct Hx as [Hw Hx]. rewrite Hx, (proj2 (Z.eqb_neq _ _)) by (unfold zeroTime, Second, Millisecond; lia). simpl.
    destruct (Z.leb_spec n w); destruct (Z.ltb_spec (w * Millisecond) (n * Millisecond)); simpl;
      unfold Millisecond in *; try lia; done.
  - rewrite Hx, Z.eqb_refl. done.
Qed.

Lemma sameAt_later n n' c s : n ≤ n' → sameAt n c s → sameAt n' c s.
Proof.
  intros Hn Hc k. specialize (Hc k). rewrite (view_aged n n' k s Hn).
  assert (Mem.live_entry (n' * Millisecond) k c =
    (e ← Mem.live_entry (n * Millisecond) k c; if Mem.expired e (n' * Millisecond) then None else Some e)) as ->.
  { unfold Mem.live_entry. destruct (Mem.entries c !! k) as [e|]; [|done].
    destruct (Mem.expired e (n * Millisecond)) eqn:E; [|done].
    rewrite (Mem.expired_mono e (n * Millisecond) (n' * Millisecond)); [done|unfold Millisecond; lia|done]. }
  destruct (Mem.live_entry _ k c) as [e|], (view n k s) as [[v x]|]; try done.
  by apply expired_aged.
Qed.

(** The calls on which the two caches agree: expiries of whole milliseconds, and
    increments of numbers that have an expiry and do not overflow. *)
Definition fits (t : Z) (o : Mem.mcall) (c : Mem.MemoryCache) : Prop :=
  match o with
  | Mem.MSet k v ttl => 0 ≤ ttl ∧ ttl mod Millisecond = 0
  | Mem.MIncrBy k d ttl =>
      0 < ttl ∧ ttl mod Millisecond = 0 ∧ in_int64 d ∧
      match Mem.live_entry t k c with
      | None => True
      | Some e => Mem.expireAt e ≠ zeroTime ∧
                  ∃ z, Mem.value e = FormatInt z ∧ in_int64 z ∧ in_int64 (z + d)
      end
  | _ => True
  end.

Fixpoint fitsAll (h : list (Z * Mem.mcall)) (c : Mem.MemoryCache) : Prop :=
  match h with
  | [] => True
  | (t, o) :: h => fits t o c ∧ fitsAll h (Mem.mexec t o c).1
  end.

Lemma whole_ttl ttl : 0 < ttl → ttl mod Millisecond = 0 →
  Milliseconds ttl = ttl / Millisecond ∧ 0 < ttl / Millisecond ∧ ttl = ttl / Millisecond * Millisecond.
Proof.
  intros Hp Hm. unfold Milliseconds. rewrite Z.quot_div_nonneg by (unfold Millisecond; lia).
  pose proof (Z.div_mod ttl Millisecond ltac:(done)). unfold Millisecond in *. lia.
Qed.

Lemma sameHeld_fresh v n ttl :
  0 ≤ n → 0 < ttl → ttl mod Millisecond = 0 →
  sameHeld (Some (Mem.mkEntry v (if 0 <? ttl then n * Millisecond + ttl else zeroTime)))
    (Some (v, Some (n + ttl / Millisecond))).
Proof.
  intros Hn Hp Hm. destruct (whole_ttl ttl Hp Hm) as (_ & Hq & He).
  rewrite (proj2 (Z.ltb_lt _ _)) by done. simpl. split; [done|]. split; [lia|].
  rewrite He at 1. lia.
Qed.

(** A fresh entry is live when it is made. *)
Lemma sameHeld_live e h t :
  sameHeld (Some e) h → (∀ v w, h = Some (v, Some w) → t ≤ w * Millisecond) →
  sameHeld (if Mem.expired e t then None else Some e) h.
Proof.
  intros Hs Hw. destruct h as [[v x]|]; [|done]. destruct Hs as [Hv Hx].
  unfold Mem.expired, After, IsZero. destruct x as [w|].
  - specialize (Hw v w eq_refl). destruct Hx as [Hw0 Hx]. rewrite Hx.
    rewrite (proj2 (Z.ltb_ge _ _)) by lia. by rewrite andb_false_r.
  - rewrite Hx, Z.eqb_refl. done.
Qed.

(** The script on a key the caches agree on. *)
Lemma incrLua_view n k d ttl s z x :
  0 < ttl → ttl mod Millisecond = 0 → counts (view n k s) z x → in_int64 (z + d) →
  ∃ s', incrLua n k d (Milliseconds ttl) s = (s', Ok (z + d)) ∧
    ∀ k', view n k' s' =
      if decide (k = k')
      then Some (FormatInt (z + d), Some (default (n + ttl / Millisecond) x)) else view n k' s.
Proof.
  intros Hp Hm Hc Hr. destruct (whole_ttl ttl Hp Hm) as (Hms & Hq & _).
  destruct (INCRBY_view n k d s z x Hc Hr) as [Hres Hv].
  unfold incrLua. destruct (INCRBY n k d s) as [s1 r]. simpl in *. subst r. eexists. split; [done|].
  pose proof (Hv k) as Hk. rewrite decide_True in Hk by done. pose proof (TTL_view n k s1 _ _ Hk) as Ht.
  intros k'. destruct (Z.eqb_spec (TTL n k s1) (-1)) as [E|E].
  - apply Ht in E as ->. simpl. assert (0 < Milliseconds ttl) as Hpos by lia.
    rewrite (PEXPIRE_view n k _ s1 _ _ k' Hpos Hk), Hv, Hms.
    by case_decide.
  - destruct x as [w|]; [apply Hv|]. by destruct E; apply Ht.
Qed.

Lemma rexec_same n o c s :
  0 ≤ n → sameAt n c s → fits (n * Millisecond) o c →
  sameAt n (Mem.mexec (n * Millisecond) o c).1 (rexec (n * Millisecond) o s).1 ∧
  (Mem.mexec (n * Millisecond) o c).2 = (rexec (n * Millisecond) o s).2.
Proof.
  intros Hn Hc Hf. destruct o as [k|k v ttl|k|k d ttl|]; simpl in *.
  - split; [done|]. unfold Get. rewrite ms_whole, GET_view, Mem.Get_live.
    specialize (Hc k). destruct (Mem.live_entry _ k c), (view n k s) as [[v x]|]; try done.
    destruct Hc as [<- _]. done.
  - split; [|done]. destruct Hf as [Hp0 Hm]. intros k'. unfold Set_. simpl. rewrite ms_whole, SET_view by done.
    rewrite Mem.live_entry_insert. case_decide; [|apply Hc]. apply sameHeld_live.
    + destruct (Z.eqb_spec ttl 0) as [->|]; [done|]. apply sameHeld_fresh; [done|lia|done].
    + intros v' w. destruct (Z.eqb_spec ttl 0) as [|]; [done|]. intros [= <- <-].
      destruct (whole_ttl ttl) as (_ & ? & _); [lia|done|]. unfold Millisecond in *. lia.
  - split; [|done]. intros k'. unfold Delete, Mem.Delete. simpl. rewrite ms_whole, DEL_view, Mem.live_entry_delete.
    case_decide; [done|apply Hc].
  - destruct Hf as (Hp0 & Hm & Hd & Hl). unfold IncrBy. rewrite ms_whole, Mem.IncrBy_live.
    pose proof (Hc k) as Hk. destruct (whole_ttl ttl Hp0 Hm) as (_ & Hq & He).
    destruct (Mem.live_entry (n * Millisecond) k c) as [e|] eqn:El, (view n k s) as [[v x]|] eqn:Ev; try done.
    + destruct Hl as [Hz (z & Hv & Hiz & Hizd)]. destruct Hk as [Hkv Hkx].
      destruct x as [w|]; [|done]. destruct Hkx as [Hw Hx].
      destruct (incrLua_view n k d ttl s z (Some w)) as (s' & -> & Hv'); [done|done| |done|].
      { rewrite Ev. simpl. by rewrite <-Hkv. }
      simpl. rewrite Hv, ParseInt_FormatInt, wrap64_id by done. simpl. split; [|done].
      intros k'. rewrite Hv', Mem.live_entry_insert. case_decide; [|apply Hc].
      apply sameHeld_live; [done|]. intros v' w' [= <- <-].
      unfold Mem.live_entry in El. destruct (Mem.entries c !! k) as [e'|]; [|done].
      destruct (Mem.expired e' (n * Millisecond)) eqn:Ex; [done|]. simplify_eq.
      unfold Mem.expired, After, IsZero in Ex. rewrite Hx in Ex, Hz.
      rewrite (proj2 (Z.eqb_neq _ _) Hz) in Ex. simpl in Ex. bools. lia.
    + destruct (incrLua_view n k d ttl s 0 None) as (s' & -> & Hv'); [done|done|by rewrite Ev|done|].
      simpl. split; [|done]. intros k'. rewrite Hv', Mem.live_entry_insert. case_decide; [|apply Hc].
      simpl. apply sameHeld_live; [by apply sameHeld_fresh|]. intros v' w' [= <- <-]. unfold Millisecond in *. lia.
  - split; [|done]. intros k. rewrite (Mem.cleanup_same _ c); [apply Hc|lia].
Qed.

(** Histories in milliseconds. *)
Definition atMs (h : list (Z * Mem.mcall)) : list (Z * Mem.mcall) :=
  (λ no, (no.1 * Millisecond, no.2)) <$> h.

Lemma traces_same n h c s :
  0 ≤ n → sameAt n c s → Mem.nondecreasing n h → fitsAll (atMs h) c →
  Mem.mtrace (atMs h) c = rtrace (atMs h) s.
Proof.
  revert n c s. induction h as [|[m o] h IH]; intros n c s Hn Hc Hh Hf; [done|].
  destruct Hh as [Hm Hh]. destruct Hf as [Hf1 Hf2]. simpl in Hf1, Hf2.
  destruct (rexec_same m o c s) as [Hc' Hr]; [lia|by eapply sameAt_later|done|]. simpl.
  destruct (Mem.mexec _ o c) as [c' r], (rexec _ o s) as [s' r']. simpl in *. subst r'. f_equal.
  apply (IH m); [lia|done..].
Qed.

(** C25. Redis is a drop-in replacement: from an empty server and an empty memory
    cache, every history of calls at millisecond instants gets the same answers
    from both, whatever the cleanup goroutine does, as long as the expiries are
    whole milliseconds and the increments are of numbers that have an expiry
    and do not overflow (which the counters of the rate limiter are). *)
Theorem redis_drop_in (h : list (Z * Mem.mcall)) (s : S) :
  (∀ k, view 0 k s = None) → Mem.nondecreasing 0 h → fitsAll (atMs h) Mem.NewMemoryCache →
  rtrace (atMs h) s = Mem.mtrace (atMs h) Mem.NewMemoryCache.
Proof.
  intros Hs Hh Hf. symmetry. apply (traces_same 0); [done| |done|done].
  intros k. by rewrite Hs.
Qed.

End laws.

(** ** A server that keeps its keys in a map *)

Abbreviation keyspace := (gmap string (string * option Z)).

Definition kvView (n : Z) (k : string) (s : keyspace) : held := aged n (s !! k).

Definition kvIncr (n : Z) (k : string) (d : Z) (s : keyspace) : keyspace * result error Z :=
  let '(v, x) := default ("0", None) (kvView n k s) in
  let z := (ParseInt v).1 in
  if bool_decide (FormatInt z = v) && bool_decide (in_int64 (z + d))
  then (<[k := (FormatInt (z + d), x)]> s, Ok (z + d))
  else (s, Err (mkError OtherError "ERR value is not an integer or out of range")).

#[local] Instance kv_server : RedisServer keyspace := {|
  GET n k s := fst <$> kvView n k s;
  SET n k v ttl s := <[k := (v, if ttl =? 0 then None else Some (n + ttl / Millisecond))]> s;
  DEL n k s := delete k s;
  INCRBY := kvIncr;
  TTL n k s := match kvView n k s with
               | None => -2
               | Some (_, None) => -1
               | Some (_, Some w) => (w - n + 500) / 1000
               end;
  PEXPIRE n k ms s := match kvView n k s with
                      | None => s
                      | Some (v, _) => <[k := (v, Some (n + ms))]> s
                      end;
|}.

Lemma aged_aged n n' h : n ≤ n' → aged n' (aged n h) = aged n' h.
Proof.
  intros Hn. destruct h as [[v [w|]]|]; simpl; [|done..].
  destruct (Z.leb_spec n w); simpl; [done|]. by rewrite (proj2 (Z.leb_gt n' w)) by lia.
Qed.

Lemma aged_live n h v w : aged n h = Some (v, Some w) → n ≤ w.
Proof. destruct h as [[v' [w'|]]|]; simpl; [|done..]. destruct (Z.leb_spec n w'); intros; by simplify_eq. Qed.

Lemma kvView_insert n k e s k' :
  (∀ w, e.2 = Some w → n ≤ w) →
  kvView n k' (<[k := e]> s) = if decide (k = k') then Some e else kvView n k' s.
Proof.
  intros He. unfold kvView. rewrite lookup_insert. case_decide; [|done].
  destruct e as [v [w|]]; [|done]. simpl. by rewrite (proj2 (Z.leb_le n w) (He w eq_refl)).
Qed.

#[local] Program Instance kv_laws : RedisLaws keyspace := {| view := kvView |}.
Next Obligation. intros n n' k s Hn. symmetry. by apply aged_aged. Qed.
Next Obligation. done. Qed.
Next Obligation.
  intros n k v ttl s k' Hp Hm. simpl. rewrite kvView_insert; [done|]. simpl. intros w.
  destruct (ttl =? 0); intros [= <-]. pose proof (Z.div_pos ttl Millisecond Hp ltac:(done)). lia.
Qed.
Next Obligation. intros n k s k'. simpl. unfold kvView. rewrite lookup_delete. by case_decide. Qed.
Next Obligation.
  intros n k d s z x Hc Hr. simpl. unfold kvIncr.
  assert (default ("0", None) (kvView n k s) = (FormatInt z, x) ∧ in_int64 z) as [-> Hz].
  { destruct (kvView n k s) as [[v x']|]; simpl in *; [by destruct Hc as (-> & -> & ?)|].
    by destruct Hc as [-> ->]. }
  rewrite ParseInt_FormatInt by done. simpl. rewrite !bool_decide_eq_true_2 by done. simpl.
  split; [done|]. intros k'. apply kvView_insert. simpl. intros w ->.
  destruct (kvView n k s) as [[v x']|] eqn:E; simpl in Hc; [|by destruct Hc].
  destruct Hc as (_ & <- & _). by eapply aged_live.
Qed.
Next Obligation.
  intros n k s v x Hv. simpl. rewrite Hv. destruct x as [w|]; [|done]. split; [|done].
  apply aged_live in Hv. intros E. exfalso. assert (0 ≤ (w - n + 500) / 1000) by (apply Z.div_pos; lia). lia.
Qed.
Next Obligation.
  intros n k m s v x k' Hm Hv. simpl. rewrite Hv. apply kvView_insert. simpl. intros w [= <-]. lia.
Qed.

Definition demo_calls : list (Z * Mem.mcall) :=
  [(0, Mem.MIncrBy "rl" 1 (61 * Second)); (10, Mem.MIncrBy "rl" 1 (61 * Second)); (20, Mem.MSet "k" "v" 0);
   (61000, Mem.MGet "rl"); (61001, Mem.MTick); (61001, Mem.MGet "rl"); (61002, Mem.MIncrBy "rl" (-1) (61 * Second))].

Lemma demo_new t k d c : Mem.live_entry t k c = None → in_int64 d → fits t (Mem.MIncrBy k d (61 * Second)) c.
Proof. intros Hl Hd. unfold fits. by rewrite Hl. Qed.

Lemma demo_old t k d c z x :
  Mem.live_entry t k c = Some (Mem.mkEntry (FormatInt z) x) → x ≠ zeroTime → in_int64 z → in_int64 d →
  in_int64 (z + d) → fits t (Mem.MIncrBy k d (61 * Second)) c.
Proof. intros Hl Hx Hz Hd Hr. unfold fits. rewrite Hl. split_and!; [done..|by exists z]. Qed.

Lemma redis_drop_in_witness :
  rtrace (atMs demo_calls) (∅ : keyspace) = Mem.mtrace (atMs demo_calls) Mem.NewMemoryCache ∧
  rtrace (atMs demo_calls) (∅ : keyspace)
    = [Mem.RIncr (Ok 1); Mem.RIncr (Ok 2); Mem.RUnit; Mem.RGet (Some "2"); Mem.RGet None; Mem.RIncr (Ok (-1))].
Proof.
  split; [|by vm_compute]. apply (redis_drop_in demo_calls ∅); [done|simpl; lia|].
  split; [by apply demo_new|]. split; [by eapply (demo_old _ _ _ _ 1 (61 * Second))|].
  split; [done|]. split; [done|]. split; [done|]. split; [done|]. split; [by apply demo_new|done].
Defined.
End Redis.
