(* ===== verification/RedisQueue.v ===== *)
(** * package redis: the work queue

    [src/internal/storage/redis/queue.go].  The server is the argument
    [ListServer]: the two list commands, with what their documentation says of
    them in terms of the items of a list ([items]).  The client library may send
    a command again when a reply does not come, so an action says how often the
    server ran the command and what the caller was told; both are the
    environment's choice.

    Publishers, consumers and [Close] run on goroutines of their own; an action
    is what one of them does between two points where another may run.  A
    message is its key and its payload.  The fields [rq_pushed] to [rq_lost]
    record the past and are read by no action. *)
From S2P Require Import Prelude GoStd.

Module RQ.

Class ListServer (L : Type) := {
  RPUSH : string → string → L → L;
  LPOP : string → L → option (string * L);
}.

(** A push appends to the list of its key; a pop takes the first item, and
    there is none to take exactly when the list is empty. *)
Class ListLaws (L : Type) `{ListServer L} := {
  items : string → L → list string;
  RPUSH_items k v l k' : items k' (RPUSH k v l) = if decide (k = k') then items k l ++ [v] else items k' l;
  LPOP_none k l : LPOP k l = None → items k l = [];
  LPOP_some k l v l' k' :
    LPOP k l = Some (v, l') → items k' l = if decide (k = k') then v :: items k l' else items k' l';
}.

Abbreviation message := (string * string)%type.

Definition queueKey (topic : string) : string := "queue:" +:+ topic.

(** Where the goroutine of [consume] is: before its first [select], in [BLPop],
    in the back-off of two seconds, in the handler, pushing a payload back, or
    gone. *)
Inductive position :=
| Checking
| Popping
| BackingOff
| Handling (payload : string)
| Requeueing (payload : string)
| Returned.

#[global] Instance position_eq_dec : EqDecision position.
Proof. solve_decision. Defined.

Record consumer := mkConsumer { cs_topic : string; cs_ctxDone : bool; cs_at : position }.

Definition atPos (p : position) (c : consumer) : consumer := mkConsumer (cs_topic c) (cs_ctxDone c) p.

(** What [BLPop] returned: [goredis.Nil], an error, or the item. *)
Inductive popReply := PopNil | PopErr | PopItem.

Section queue.
Context {L : Type} `{ListServer L}.

Record RedisQueue := {
  rq_server : L;
  rq_stopCh : bool;
  rq_clientClosed : bool;
  rq_consumers : list consumer;
  rq_pushed : list message;
  rq_popped : list message;
  rq_handled : list message;
  rq_returned : list message;
  rq_lost : list message;
}.

Definition NewQueue (server : L) : RedisQueue :=
  {| rq_server := server; rq_stopCh := false; rq_clientClosed := false; rq_consumers := []; rq_pushed := [];
     rq_popped := []; rq_handled := []; rq_returned := []; rq_lost := [] |}.

(** A command that the server ran [n] times. *)
Definition pushN (n : nat) (k v : string) (l : L) : L := Nat.iter n (RPUSH k v) l.

Fixpoint popN (n : nat) (k : string) (l : L) : list string * L :=
  match n with
  | O => ([], l)
  | S n => match LPOP k l with
           | None => ([], l)
           | Some (v, l) => let '(vs, l) := popN n k l in (v :: vs, l)
           end
  end.

Definition setConsumers (cs : list consumer) (q : RedisQueue) : RedisQueue :=
  {| rq_server := rq_server q; rq_stopCh := rq_stopCh q; rq_clientClosed := rq_clientClosed q; rq_consumers := cs;
     rq_pushed := rq_pushed q; rq_popped := rq_popped q; rq_handled := rq_handled q;
     rq_returned := rq_returned q; rq_lost := rq_lost q |}.

Definition push (n : nat) (k v : string) (q : RedisQueue) : RedisQueue :=
  {| rq_server := pushN n k v (rq_server q); rq_stopCh := rq_stopCh q; rq_clientClosed := rq_clientClosed q;
     rq_consumers := rq_consumers q; rq_pushed := rq_pushed q ++ replicate n (k, v); rq_popped := rq_popped q;
     rq_handled := rq_handled q; rq_returned := rq_returned q; rq_lost := rq_lost q |}.

(** [vs] left the list of [k]; [lost] of them were in replies that never came. *)
Definition pop (k : string) (vs lost : list string) (server : L) (q : RedisQueue) : RedisQueue :=
  {| rq_server := server; rq_stopCh := rq_stopCh q; rq_clientClosed := rq_clientClosed q;
     rq_consumers := rq_consumers q; rq_pushed := rq_pushed q; rq_popped := rq_popped q ++ (pair k <$> vs);
     rq_handled := rq_handled q; rq_returned := rq_returned q; rq_lost := rq_lost q ++ (pair k <$> lost) |}.

(** How the message of a consumer ended. *)
Definition settle (handled returned lost : list message) (q : RedisQueue) : RedisQueue :=
  {| rq_server := rq_server q; rq_stopCh := rq_stopCh q; rq_clientClosed := rq_clientClosed q;
     rq_consumers := rq_consumers q; rq_pushed := rq_pushed q; rq_popped := rq_popped q;
     rq_handled := rq_handled q ++ handled; rq_returned := rq_returned q ++ returned;
     rq_lost := rq_lost q ++ lost |}.

Definition stopping (stopCh clientClosed : bool) (q : RedisQueue) : RedisQueue :=
  {| rq_server := rq_server q; rq_stopCh := stopCh; rq_clientClosed := clientClosed;
     rq_consumers := rq_consumers q; rq_pushed := rq_pushed q; rq_popped := rq_popped q;
     rq_handled := rq_handled q; rq_returned := rq_returned q; rq_lost := rq_lost q |}.

(** The messages a goroutine holds outside the server. *)
Definition held (c : consumer) : list message :=
  match cs_at c with
  | Handling p | Requeueing p => [(queueKey (cs_topic c), p)]
  | _ => []
  end.

Inductive action :=
| Publish (topic payload : string) (runs : nat) (failed : bool)
| Subscribe (topic : string)
| Cancel (i : nat)                                   (* ctx is done *)
| Check (i : nat)                                    (* the first select *)
| BLPop (i : nat) (lost : nat) (reply : popReply)
| Wake (i : nat) (timer : bool)                      (* the select of the back-off *)
| HandlerReturns (i : nat) (failed : bool)
| Requeue (i : nat) (runs : nat)
| Close                                              (* close(q.stopCh), once *)
| CloseReturns                                       (* q.wg.Wait(), q.client.Close() *)
| Crash.                                             (* the process dies and starts again *)

(** One round of [consume], cut at its blocking points: where the consumer is
    next. *)
Definition consume (i : nat) (a : action) (c : consumer) (q : RedisQueue) : option RedisQueue :=
  let key := queueKey (cs_topic c) in
  let goto p q := Some (setConsumers (<[i := atPos p c]> (rq_consumers q)) q) in
  match a, cs_at c with
  | Check _, Checking => if rq_stopCh q || cs_ctxDone c then goto Returned q else goto Popping q
  | BLPop _ lost reply, Popping =>
      let '(gone, server) := popN lost key (rq_server q) in
      match reply with
      | PopNil => goto Checking (pop key gone gone server q)
      | PopErr => goto (if cs_ctxDone c then Returned else BackingOff) (pop key gone gone server q)
      | PopItem =>
          '(payload, server) ← LPOP key server;
          goto (Handling payload) (pop key (gone ++ [payload]) gone server q)
      end
  | Wake _ timer, BackingOff =>
      if timer then goto Checking q else if rq_stopCh q then goto Returned q else None
  | HandlerReturns _ failed, Handling payload =>
      if failed then goto (Requeueing payload) q else goto Checking (settle [(key, payload)] [] [] q)
  | Requeue _ runs, Requeueing payload =>
      goto Checking
        (match runs with
         | O => settle [] [] [(key, payload)] q
         | S _ => settle [] [(key, payload)] [] (push runs key payload q)
         end)
  | _, _ => None
  end.

(** One action; [None] when it cannot happen.  A closed client runs no command;
    a command that did not run is reported as failed. *)
Definition act (a : action) (q : RedisQueue) : option RedisQueue :=
  match a with
  | Publish topic payload runs failed =>
      if (0 <? runs)%nat && rq_clientClosed q then None
      else if failed || (0 <? runs)%nat then Some (push runs (queueKey topic) payload q) else None
  | Subscribe topic => Some (setConsumers (rq_consumers q ++ [mkConsumer topic false Checking]) q)
  | Cancel i =>
      c ← rq_consumers q !! i;
      Some (setConsumers (<[i := mkConsumer (cs_topic c) true (cs_at c)]> (rq_consumers q)) q)
  | Check i | BLPop i _ _ | Wake i _ | HandlerReturns i _ | Requeue i _ =>
      c ← rq_consumers q !! i; consume i a c q
  | Close => Some (stopping true (rq_clientClosed q) q)
  | CloseReturns =>
      if rq_stopCh q && forallb (λ c, match cs_at c with Returned => true | _ => false end) (rq_consumers q)
      then Some (stopping true true q) else None
  | Crash => Some (stopping false false (setConsumers [] (settle [] [] (rq_consumers q ≫= held) q)))
  end.

Fixpoint runs (acts : list action) (q : RedisQueue) : option RedisQueue :=
  match acts with
  | [] => Some q
  | a :: acts => q ← act a q; runs acts q
  end.

End queue.
Arguments RedisQueue L : clear implicits.

(** The payloads of a key, in order. *)
Definition sel (k : string) (ms : list message) : list string := (filter (λ m, m.1 = k) ms).*2.

Lemma sel_app k ms ms' : sel k (ms ++ ms') = sel k ms ++ sel k ms'.
Proof. unfold sel. by rewrite filter_app, fmap_app. Qed.

Lemma sel_pairs k k' vs : sel k' (pair k <$> vs) = if decide (k = k') then vs else [].
Proof.
  unfold sel. case_decide as E.
  - rewrite filter_everything; [|by apply Forall_fmap, Forall_true]. rewrite <-list_fmap_compose. apply list_fmap_id.
  - by rewrite filter_nothing; [|apply Forall_fmap, Forall_true].
Qed.

Lemma sel_elem k v ms : v ∈ sel k ms → (k, v) ∈ ms.
Proof. unfold sel. intros ([k' v'] & -> & [E Hm]%list_elem_of_filter)%list_elem_of_fmap. simpl in *. by subst. Qed.

Lemma replicate_pair (k v : string) n : replicate n (k, v) = pair k <$> replicate n v.
Proof. by rewrite fmap_replicate. Qed.

(** ** Where the messages are *)

Section laws.
Context {L : Type} `{ListLaws L}.
Implicit Types q : RedisQueue L.

Lemma pushN_items n k v l k' :
  items k' (pushN n k v l) = if decide (k = k') then items k l ++ replicate n v else items k' l.
Proof.
  induction n as [|n IH]; simpl; [case_decide; [|done]; subst; by rewrite app_nil_r|].
  rewrite RPUSH_items. fold (pushN n k v l). case_decide as E; [|done]. subst.
  by rewrite IH, <-app_assoc, <-replicate_cons_app.
Qed.

Lemma popN_items n k l vs l' k' :
  popN n k l = (vs, l') → items k' l = if decide (k = k') then vs ++ items k l' else items k' l'.
Proof.
  revert l vs. induction n as [|n IH]; intros l vs; simpl; [intros [= <- <-]; case_decide; by subst|].
  destruct (LPOP k l) as [[v l1]|] eqn:E; [|intros [= <- <-]; case_decide; by subst].
  destruct (popN n k l1) as [vs' l2] eqn:E'. intros [= <- <-].
  rewrite (LPOP_some k l v l1 k' E). specialize (IH l1 vs' E'). case_decide; [|done]. subst. by rewrite IH.
Qed.

Definition onHand q : list message := rq_consumers q ≫= held.

(** A message that was pushed is lost, was handled, is held by a consumer, or
    is in the list of its key. *)
Definition placed q (m : message) : Prop :=
  m ∈ rq_lost q ∨ m ∈ rq_handled q ∨ m ∈ onHand q ∨ m.2 ∈ items m.1 (rq_server q).

Record conserved q : Prop := {
  cv_fifo k : sel k (rq_pushed q) = sel k (rq_popped q) ++ items k (rq_server q);
  cv_popped : rq_popped q ≡ₚ rq_handled q ++ rq_returned q ++ onHand q ++ rq_lost q;
  cv_placed m : m ∈ rq_pushed q → placed q m;
}.

(** A consumer that moves exchanges what it holds. *)
Lemma onHand_move q i c c' :
  rq_consumers q !! i = Some c →
  held c ++ onHand (setConsumers (<[i := c']> (rq_consumers q)) q) ≡ₚ held c' ++ onHand q.
Proof. apply bind_insert. Qed.

(** A consumer moves, and messages move with it: out of its hands or the
    server into its hands, the handled, the returned or the lost. *)
Lemma conserved_move q q' i c c' taken :
  conserved q → rq_consumers q !! i = Some c → rq_consumers q' = <[i := c']> (rq_consumers q) →
  rq_popped q' = rq_popped q ++ taken →
  (∀ k, sel k (rq_pushed q') = sel k (rq_pushed q) ∧ items k (rq_server q) = sel k taken ++ items k (rq_server q') ∨
        taken = [] ∧ ∃ ms, sel k (rq_pushed q') = sel k (rq_pushed q) ++ ms ∧
                           items k (rq_server q') = items k (rq_server q) ++ ms) →
  (∃ h r l, rq_handled q' = rq_handled q ++ h ∧ rq_returned q' = rq_returned q ++ r ∧ rq_lost q' = rq_lost q ++ l ∧
     held c ++ taken ≡ₚ h ++ r ++ l ++ held c' ∧ ∀ m, m ∈ r → m.2 ∈ items m.1 (rq_server q')) →
  (∀ m, m ∈ rq_pushed q' → m ∈ rq_pushed q ∨ m.2 ∈ items m.1 (rq_server q')) →
  conserved q'.
Proof.
  intros [Hf Hp Hm] Hi Hcs Hpop Hserver (h & r & l & Hh & Hr & Hl & Hx & Hback) Hnew.
  pose proof (bind_insert held _ _ c c' Hi) as Hhand. rewrite <-Hcs in Hhand.
  split.
  - intros k. rewrite Hpop, sel_app. destruct (Hserver k) as [[-> Hs]|(-> & ms & -> & ->)].
    + by rewrite Hf, Hs, app_assoc.
    + rewrite Hf. change (sel k []) with (@nil string). by rewrite app_nil_r, app_assoc.
  - rewrite Hpop, Hp, Hh, Hr, Hl. unfold onHand.
    apply (Permutation_app_inv_l (held c)). trans (rq_handled q ++ rq_returned q ++ rq_lost q ++ (rq_consumers q ≫= held) ++ (held c ++ taken)); [solve_Permutation|].
    rewrite Hx. trans (rq_handled q ++ h ++ rq_returned q ++ r ++ rq_lost q ++ l ++ (held c' ++ (rq_consumers q ≫= held))); [solve_Permutation|].
    rewrite <-Hhand. solve_Permutation.
  - assert (∀ m, m ∈ held c ++ taken → placed q' m) as Hmoved.
    { intros m. rewrite Hx, !elem_of_app. unfold placed. rewrite Hl, Hh, !elem_of_app.
      intros [?|[?|[?|Hin]]]; [tauto|by right; right; right; apply Hback|tauto|].
      right; right; left. apply list_elem_of_bind. exists c'. split; [done|]. rewrite Hcs.
      apply list_elem_of_lookup_2 with i. apply list_lookup_insert_eq. by eapply lookup_lt_Some. }
    intros m Hm'. destruct (Hnew m Hm') as [Hold|]; [|unfold placed; tauto].
    destruct (Hm m Hold) as [Hin|[Hin|[Hin|Hin]]].
    + left. rewrite Hl, elem_of_app. tauto.
    + right; left. rewrite Hh, elem_of_app. tauto.
    + assert (m ∈ held c' ++ onHand q) as Hin' by (apply elem_of_app; tauto). unfold onHand in Hin'.
      rewrite <-Hhand in Hin'. apply elem_of_app in Hin' as [Hc|?]; [|unfold placed, onHand; tauto].
      apply Hmoved, elem_of_app. tauto.
    + destruct (Hserver m.1) as [[_ Hs]|(-> & ms & _ & Hs)].
      * rewrite Hs in Hin. apply elem_of_app in Hin as [Hin|?]; [|unfold placed; tauto].
        apply Hmoved, elem_of_app. right. destruct m. by apply sel_elem.
      * right; right; right. rewrite Hs. apply elem_of_app. tauto.
Qed.

(** What a consumer takes from the server. *)
Lemma conserved_pop q i c c' vs gone server :
  let key := queueKey (cs_topic c) in
  conserved q → rq_consumers q !! i = Some c → held c = [] → vs = gone ++ (held c').*2 →
  (∀ m, m ∈ held c' → m.1 = key) →
  (∀ k, items k (rq_server q) = if decide (key = k) then vs ++ items k server else items k server) →
  conserved (setConsumers (<[i := c']> (rq_consumers q)) (pop key vs gone server q)).
Proof.
  intros key Hc Hi Hfree Hvs Hkey Hs. eapply (conserved_move q _ i c c'); [done..| | |simpl; by left].
  - simpl. intros k. left. split; [done|]. rewrite Hs, sel_pairs. by case_decide.
  - exists [], [], (pair key <$> gone). simpl. rewrite !app_nil_r, Hfree. split_and!; [done..| |by intros m ?%elem_of_nil].
    simpl. rewrite Hvs, fmap_app. apply Permutation_app_head.
    assert (pair key <$> (held c').*2 = held c') as ->; [|done].
    unfold held in Hkey |- *. destruct (cs_at c'); simpl in *; try done;
      by rewrite <-(Hkey _ (proj2 (list_elem_of_singleton _ _) eq_refl)).
Qed.

Lemma conserved_stays q i c p :
  conserved q → rq_consumers q !! i = Some c → held (atPos p c) = held c →
  conserved (setConsumers (<[i := atPos p c]> (rq_consumers q)) q).
Proof.
  intros Hc Hi Hh. eapply (conserved_move q _ i c (atPos p c) []); [done..| | | |simpl; by left].
  - simpl. by rewrite app_nil_r.
  - intros k. simpl. by left.
  - exists [], [], []. simpl. rewrite !app_nil_r, Hh. split_and!; [done..|]. by intros m ?%elem_of_nil.
Qed.

(** The handler succeeded, or the payload could not be pushed back. *)
Lemma conserved_settle q i c h l :
  conserved q → rq_consumers q !! i = Some c → held c ≡ₚ h ++ l →
  conserved (setConsumers (<[i := atPos Checking c]> (rq_consumers q)) (settle h [] l q)).
Proof.
  intros Hc Hi Hh. eapply (conserved_move q _ i c (atPos Checking c) []); [done..| | | |simpl; by left].
  - simpl. by rewrite app_nil_r.
  - intros k. simpl. by left.
  - exists h, [], l. simpl. rewrite !app_nil_r. split_and!; [done..|]. by intros m ?%elem_of_nil.
Qed.

Lemma conserved_requeue q i c n payload :
  let key := queueKey (cs_topic c) in
  conserved q → rq_consumers q !! i = Some c → held c = [(key, payload)] →
  conserved (setConsumers (<[i := atPos Checking c]> (rq_consumers q))
    (settle [] [(key, payload)] [] (push (S n) key payload q))).
Proof.
  intros key Hc Hi Hh.
  assert (payload ∈ items key (pushN (S n) key payload (rq_server q))) as Hback.
  { rewrite pushN_items, decide_True by done. set_solver. }
  eapply (conserved_move q _ i c (atPos Checking c) []); [done..| | | |].
  - simpl. by rewrite app_nil_r.
  - intros k. right. split; [done|]. cbn [setConsumers settle push rq_pushed rq_server].
    exists (sel k (replicate (S n) (key, payload))).
    split; [apply sel_app|]. rewrite pushN_items, replicate_pair, sel_pairs. case_decide as E; [by subst k|].
    by rewrite app_nil_r.
  - exists [], [(key, payload)], []. cbn [setConsumers settle push rq_handled rq_returned rq_lost rq_server].
    rewrite !app_nil_r, Hh. split_and!; [done..|]. by intros m ->%list_elem_of_singleton.
  - cbn [setConsumers settle push rq_pushed rq_server]. intros m [?|Hm]%elem_of_app; [by left|].
    apply elem_of_replicate in Hm as [-> _]. by right.
Qed.

Lemma consume_conserved a i c q q' :
  conserved q → rq_consumers q !! i = Some c → consume i a c q = Some q' → conserved q'.
Proof.
  intros Hc Hi. unfold consume.
  assert (∀ n gone l, popN n (queueKey (cs_topic c)) (rq_server q) = (gone, l) →
    ∀ k, items k (rq_server q) = if decide (queueKey (cs_topic c) = k) then gone ++ items k l else items k l) as Hpop.
  { intros n gone l E k. rewrite (popN_items _ _ _ _ _ k E). case_decide; by subst. }
  destruct a as [| | | |j lost reply|j timer|j failed|j n| | |]; destruct (cs_at c) as [| | |p|p|] eqn:Hat; try done.
  - destruct (rq_stopCh q || cs_ctxDone c); intros [= <-]; apply conserved_stays; try done; unfold held; by rewrite Hat.
  - assert (held c = []) as Hh by (unfold held; by rewrite Hat).
    destruct (popN lost _ (rq_server q)) as [gone l] eqn:E. specialize (Hpop _ _ _ E). destruct reply.
    + intros [= <-]. apply conserved_pop; [done..|by rewrite app_nil_r|by intros m ?%elem_of_nil|done].
    + intros [= <-]. apply conserved_pop; [done..| | |done]; destruct (cs_ctxDone c); first [by rewrite app_nil_r|by intros m ?%elem_of_nil].
    + destruct (LPOP _ l) as [[payload l']|] eqn:El; [|done]. simpl. intros [= <-].
      apply conserved_pop; [done..|by intros m ->%list_elem_of_singleton|].
      intros k. rewrite Hpop, (LPOP_some _ _ _ _ k El). case_decide; [|done]. subst k. by rewrite <-app_assoc.
  - destruct timer; [|destruct (rq_stopCh q); [|done]]; intros [= <-]; apply conserved_stays; try done; unfold held; by rewrite Hat.
  - destruct failed; intros [= <-].
    + apply conserved_stays; [done..|]. unfold held. by rewrite Hat.
    + apply conserved_settle; [done..|]. unfold held. by rewrite Hat.
  - intros [= <-]. assert (held c = [(queueKey (cs_topic c), p)]) as Hh by (unfold held; by rewrite Hat).
    destruct n as [|n]; [apply (conserved_settle q i c [] [_])|apply (conserved_requeue q i c n p)]; try done. by rewrite Hh.
Qed.

Lemma onHand_subscribe q c : held c = [] → (rq_consumers q ++ [c]) ≫= held = onHand q.
Proof. intros Hc. rewrite bind_app. simpl. by rewrite Hc, !app_nil_r. Qed.

Lemma conserved_push q n k v : conserved q → conserved (push n k v q).
Proof.
  intros [Hf Hp Hm]. split; [|done|].
  - intros k'. simpl. rewrite sel_app, Hf, pushN_items, replicate_pair, sel_pairs. case_decide; subst.
    + by rewrite app_assoc.
    + by rewrite app_nil_r.
  - simpl. intros m [Hin|Hin]%elem_of_app; unfold placed; simpl; rewrite pushN_items.
    + destruct (Hm m Hin) as [?|[?|[?|?]]]; [tauto..|]. right; right; right. case_decide; subst; set_solver.
    + apply elem_of_replicate in Hin as [-> Hn]. right; right; right. simpl. rewrite decide_True by done.
      apply elem_of_app. right. by apply elem_of_replicate.
Qed.

(** The consumers are replaced by others; what they held is lost. *)
Lemma conserved_consumers q q' cs lost :
  conserved q → rq_consumers q' = cs → (cs ≫= held) ++ lost ≡ₚ onHand q →
  rq_server q' = rq_server q → rq_pushed q' = rq_pushed q → rq_popped q' = rq_popped q →
  rq_handled q' = rq_handled q → rq_returned q' = rq_returned q → rq_lost q' = rq_lost q ++ lost → conserved q'.
Proof.
  intros [Hf Hp Hm] Hcs Hh Hs Hpu Hpo Hha Hr Hl. split.
  - intros k. by rewrite Hpu, Hpo, Hs.
  - unfold onHand. rewrite Hpo, Hp, Hha, Hr, Hl, Hcs, <-Hh. solve_Permutation.
  - intros m. unfold placed, onHand. rewrite Hpu, Hl, Hha, Hs, Hcs. intros Hin.
    destruct (Hm m Hin) as [?|[?|[Ho|?]]]; [set_solver|tauto| |tauto]. rewrite <-Hh in Ho. set_solver.
Qed.

Lemma act_conserved a q q' : conserved q → act a q = Some q' → conserved q'.
Proof.
  intros Hc. destruct a; cbn [act]; try (intros (c & Hi & Ha)%bind_Some; by eapply consume_conserved).
  - destruct (_ && _); [done|]. destruct (_ || _); [|done]. intros [= <-]. by apply conserved_push.
  - intros [= <-]. eapply (conserved_consumers q _ _ []); try done; simpl; [|by rewrite app_nil_r].
    by rewrite onHand_subscribe, app_nil_r.
  - intros (c & Hi & [= <-])%bind_Some. eapply (conserved_consumers q _ _ []); try done; simpl; [|by rewrite app_nil_r].
    rewrite app_nil_r. apply (Permutation_app_inv_l (held c)). rewrite bind_insert by done. done.
  - intros [= <-]. eapply (conserved_consumers q _ _ []); try done; simpl; by rewrite app_nil_r.
  - destruct (_ && _); [|done]. intros [= <-]. eapply (conserved_consumers q _ _ []); try done; simpl; by rewrite app_nil_r.
  - intros [= <-]. apply (conserved_consumers q _ [] (onHand q)); try done; simpl; by rewrite app_nil_r.
Qed.

(** An action during which no reply is lost, no payload fails to go back and
    the process does not die. *)
Definition faultless (a : action) : bool :=
  match a with
  | BLPop _ lost _ => bool_decide (lost = O)
  | Requeue _ n => (0 <? n)%nat
  | Crash => false
  | _ => true
  end.

Lemma faultless_lost a q q' : faultless a = true → act a q = Some q' → rq_lost q' = rq_lost q.
Proof.
  intros Hf. destruct a as [| |i|i|i lost reply|i timer|i failed|i n| | |]; simpl in *;
    try (intros (c & Hi & Ha)%bind_Some; revert Ha; destruct (cs_at c); try done);
    repeat case_match; intros; simplify_eq/=; rewrite ?app_nil_r; try done;
    repeat match goal with
    | H : bool_decide _ = true |- _ => apply bool_decide_eq_true in H
    | H : ?m ≫= _ = Some _ |- _ => apply bind_Some in H as ([? ?] & ? & ?)
    end; simplify_eq/=; by rewrite ?app_nil_r.
Qed.

Lemma runs_conserved acts q q' : conserved q → runs acts q = Some q' → conserved q'.
Proof.
  revert q. induction acts as [|a acts IH]; intros q Hc; simpl; [by intros [= <-]|].
  intros (q1 & Ha & Hr)%bind_Some. eapply IH; [by eapply act_conserved|done].
Qed.

Lemma runs_lost acts q q' : forallb faultless acts = true → runs acts q = Some q' → rq_lost q' = rq_lost q.
Proof.
  revert q. induction acts as [|a acts IH]; intros q; simpl; [by intros _ [= <-]|].
  intros [Hf Hfs]%andb_true_iff (q1 & Ha & Hr)%bind_Some. rewrite (IH q1) by done. by eapply faultless_lost.
Qed.

Lemma NewQueue_conserved l : (∀ k, items k l = []) → conserved (NewQueue l).
Proof. intros Hl. split; [by intros k; rewrite Hl|done|by intros m ?%elem_of_nil]. Qed.

(** C28. The lists are queues and nothing disappears unseen: whatever publishers,
    consumers, [Close], lost replies and crashes do, from an empty server, the
    payloads popped from a list and those still in it are the payloads pushed, in
    order; every payload popped was handled, went back, is held by a consumer or
    is lost; and a payload is lost only by an action that lost a reply, failed
    to push it back or ended the process.  Without such an action every payload
    ever published has been handled, is being handled or is in its list. *)
Theorem redis_queue_conserved (l : L) (acts : list action) (q : RedisQueue L) :
  (∀ k, items k l = []) → runs acts (NewQueue l) = Some q →
  (∀ k, sel k (rq_pushed q) = sel k (rq_popped q) ++ items k (rq_server q)) ∧
  rq_popped q ≡ₚ rq_handled q ++ rq_returned q ++ onHand q ++ rq_lost q ∧
  (forallb faultless acts = true →
   ∀ k v, v ∈ sel k (rq_pushed q) → (k, v) ∈ rq_handled q ∨ (k, v) ∈ onHand q ∨ v ∈ items k (rq_server q)).
Proof.
  intros Hl Hr. destruct (runs_conserved _ _ _ (NewQueue_conserved l Hl) Hr) as [Hf Hp Hm].
  split_and!; [done..|]. intros Hfs k v Hv%sel_elem.
  destruct (Hm _ Hv) as [Hin|[?|[?|?]]]; [|tauto..].
  rewrite (runs_lost _ _ _ Hfs Hr) in Hin. by apply elem_of_nil in Hin.
Qed.

(** The documentation promises delivery at least once; a process that dies
    while a handler runs has already popped the payload. *)
Lemma crash_loses q i c payload :
  rq_consumers q !! i = Some c → cs_at c = Handling payload →
  ∃ q', act Crash q = Some q' ∧ rq_server q' = rq_server q ∧ onHand q' = [] ∧
    (queueKey (cs_topic c), payload) ∈ rq_lost q'.
Proof.
  intros Hi Hat. eexists. split; [done|]. split_and!; [done..|]. simpl. apply elem_of_app. right.
  apply list_elem_of_bind. exists c. split; [unfold held; rewrite Hat; set_solver|]. by eapply list_elem_of_lookup_2.
Qed.

End laws.

(** ** Close *)

Section close.
Context {L : Type} `{ListServer L}.
Implicit Types q : RedisQueue L.

(** The steps of the goroutines that [Close] waits for. *)
Definition ofConsumer (a : action) : bool :=
  match a with Check _ | BLPop _ _ _ | Wake _ _ | HandlerReturns _ _ | Requeue _ _ => true | _ => false end.

(** The steps a consumer has left once [stopCh] is closed. *)
Definition left_ (c : consumer) : Z :=
  match cs_at c with
  | Returned => 0
  | Checking => 1
  | BackingOff | Requeueing _ => 2
  | Handling _ => 3
  | Popping => 4
  end.

Lemma left_nonneg c : 0 ≤ left_ c.
Proof. unfold left_. by destruct (cs_at c). Qed.

Lemma left_max c : left_ c ≤ 4.
Proof. unfold left_. by destruct (cs_at c). Qed.

Lemma consumer_moves a q q' :
  rq_stopCh q = true → ofConsumer a = true → act a q = Some q' →
  rq_stopCh q' = true ∧ sumZ left_ (rq_consumers q') < sumZ left_ (rq_consumers q).
Proof.
  intros Hs Ha. destruct a; try done; cbn [act]; intros (c & Hi & Hc)%bind_Some; revert Hc; unfold consume, left_;
    destruct (cs_at c) eqn:Hat; try done; repeat case_match; intros; simplify_eq/=;
    repeat match goal with
    | H : ?m ≫= _ = Some _ |- _ => apply bind_Some in H as ([? ?] & ? & ?)
    end; simplify_eq/=; (split; [done|]); rewrite (sumZ_insert _ _ _ c) by done; rewrite Hat; simpl; try lia;
    rewrite Hs in *; simplify_eq/=.
Qed.

Lemma consumer_progress q c i :
  rq_stopCh q = true → rq_consumers q !! i = Some c → cs_at c ≠ Returned →
  ∃ a, ofConsumer a = true ∧ is_Some (act a q).
Proof.
  intros Hs Hi Hc. destruct (cs_at c) as [| | |p|p|] eqn:Hat; [| | | | |done].
  - exists (Check i). split; [done|]. simpl. rewrite Hi. simpl. rewrite Hat, Hs. by eexists.
  - exists (BLPop i 0 PopNil). split; [done|]. simpl. rewrite Hi. simpl. rewrite Hat. by eexists.
  - exists (Wake i true). split; [done|]. simpl. rewrite Hi. simpl. rewrite Hat. by eexists.
  - exists (HandlerReturns i true). split; [done|]. simpl. rewrite Hi. simpl. rewrite Hat. by eexists.
  - exists (Requeue i 1). split; [done|]. simpl. rewrite Hi. simpl. rewrite Hat. by eexists.
Qed.

Lemma consumers_leave q acts q' :
  rq_stopCh q = true → forallb ofConsumer acts = true → runs acts q = Some q' →
  rq_stopCh q' = true ∧ Z.of_nat (length acts) ≤ sumZ left_ (rq_consumers q) - sumZ left_ (rq_consumers q').
Proof.
  revert q. induction acts as [|a acts IH]; intros q Hs; simpl; [by intros _ [= <-]; split; [|lia]|].
  intros [Ha Has]%andb_true_iff (q1 & Hq & Hr)%bind_Some.
  destruct (consumer_moves a q q1 Hs Ha Hq) as [Hs1 Hlt]. destruct (IH q1 Hs1 Has Hr) as [Hs' Hle].
  split; [done|lia].
Qed.

(** C34. [Close] ends: once [stopCh] is closed the consumers take at most four
    steps each, whatever the server answers and the handlers return, and as long
    as they have not all returned one of them can go on; then [Close] returns. *)
Theorem redis_close_ends q (acts : list action) q' :
  rq_stopCh q = true → forallb ofConsumer acts = true → runs acts q = Some q' →
  Z.of_nat (length acts) ≤ 4 * Z.of_nat (length (rq_consumers q)) ∧
  (is_Some (act CloseReturns q') ∨ ∃ a, ofConsumer a = true ∧ is_Some (act a q')).
Proof.
  intros Hs Ha Hr. destruct (consumers_leave q acts q' Hs Ha Hr) as [Hs' Hle]. split.
  - pose proof (sumZ_bounded left_ 4 (rq_consumers q) left_max).
    pose proof (sumZ_nonneg left_ (rq_consumers q') ltac:(apply Forall_true, left_nonneg)). lia.
  - destruct (decide (Forall (λ c, cs_at c = Returned) (rq_consumers q'))) as [Hall|Hsome].
    + left. simpl. rewrite Hs'. rewrite (proj2 (forallb_forall _ _)); [by eexists|].
      intros c Hc%list_elem_of_In. rewrite Forall_forall in Hall. by rewrite (Hall c Hc).
    + right. apply not_Forall_Exists, Exists_exists in Hsome as (c & [i Hi]%list_elem_of_lookup & Hc); [|apply _].
      by eapply consumer_progress.
Qed.

End close.

(** ** A server that keeps its lists in one sequence *)

Abbreviation lists := (list message).

Fixpoint takeFirst (k : string) (l : lists) : option (string * lists) :=
  match l with
  | [] => None
  | (k', v) :: l =>
      if decide (k' = k) then Some (v, l)
      else '(w, l) ← takeFirst k l; Some (w, (k', v) :: l)
  end.

Lemma sel_cons k k' v l : sel k ((k', v) :: l) = if decide (k' = k) then v :: sel k l else sel k l.
Proof. unfold sel. rewrite filter_cons. simpl. by case_decide. Qed.

#[local] Instance seq_server : ListServer lists := {| RPUSH k v l := l ++ [(k, v)]; LPOP := takeFirst |}.

#[local] Program Instance seq_laws : ListLaws lists := {| items := sel |}.
Next Obligation.
  intros k v l k'. simpl. rewrite sel_app, sel_cons. case_decide; [by subst|]. by rewrite app_nil_r.
Qed.
Next Obligation.
  intros k l. simpl. induction l as [|[k' v] l IH]; [done|]. simpl. rewrite sel_cons. case_decide; [done|].
  destruct (takeFirst k l) as [[w l']|]; [done|]. auto.
Qed.
Next Obligation.
  intros k l v l' k'. simpl. revert l'. induction l as [|[k1 v1] l IH]; intros l'; [done|]. simpl.
  destruct (decide (k1 = k)) as [->|]; [intros [= -> ->]; rewrite sel_cons; case_decide; by subst|].
  destruct (takeFirst k l) as [[w l1]|]; [|done]. intros [= -> <-]. rewrite !sel_cons, (IH l1) by done.
  repeat case_decide; by subst.
Qed.

(** Two payloads; the first is handled at its second attempt, behind the other. *)
Definition demo_acts : list action :=
  [Publish "logs" "a" 1 false; Publish "logs" "b" 1 false; Subscribe "logs"; Check 0; BLPop 0 0 PopItem;
   HandlerReturns 0 true; Requeue 0 1; Check 0; BLPop 0 0 PopItem; HandlerReturns 0 false; Check 0;
   BLPop 0 0 PopItem].

Definition demo_queue : RedisQueue lists := default (NewQueue []) (runs demo_acts (NewQueue [])).

Lemma redis_queue_conserved_witness :
  rq_handled demo_queue = [("queue:logs", "b")] ∧ rq_returned demo_queue = [("queue:logs", "a")] ∧
  rq_popped demo_queue ≡ₚ rq_handled demo_queue ++ rq_returned demo_queue ++ onHand demo_queue ++ rq_lost demo_queue ∧
  ((("queue:logs", "a") : message) ∈ rq_handled demo_queue ∨ (("queue:logs", "a") : message) ∈ onHand demo_queue ∨
   "a" ∈ items "queue:logs" (rq_server demo_queue)).
Proof.
  destruct (redis_queue_conserved ([] : lists) demo_acts demo_queue) as (_ & Hp & Hm); [done|by vm_compute|].
  split_and!; [by vm_compute..|done|]. apply Hm; [done|]. vm_compute. left.
Defined.

Lemma redis_close_ends_witness :
  let q := stopping true false demo_queue in
  (∃ q', runs [HandlerReturns 0 true; Requeue 0 1; Check 0] q = Some q' ∧ is_Some (act CloseReturns q')) ∧
  (∀ acts q', forallb ofConsumer acts = true → runs acts q = Some q' → Z.of_nat (length acts) ≤ 4).
Proof.
  split; [eexists; split; [by vm_compute|by vm_compute; eexists]|].
  intros acts q' Ha Hr. apply (redis_close_ends (stopping true false demo_queue) acts q' eq_refl Ha Hr).
Defined.

End RQ.
