(* ===== verification/RabbitMQ.v ===== *)
(** * package rabbitmq: the event queue

    [src/internal/storage/rabbitmq/queue.go].  The broker and the client library
    are the environment: what each of their calls returns, when a connection is
    lost, what is delivered and how the end of a connection is notified are
    arguments of the actions.  Of the library only this is used: a notice of
    closing comes for a connection that is closed, and [Close] closes it.

    The watchdog, the consumers and the callers run on goroutines of their own;
    an action is what one of them does between two points where another may run.
    A connection is its number in the order of dialling; [connect] opens one
    channel on it.  The watchdog is alone in calling it, so its calls of the
    library are one action: in between, the connection being set up is known to
    nobody else.  [mq_links], [sb_delivered] and [sb_settled] record what the
    library and the broker know and are read by no action of the program. *)
From S2P Require Import Prelude GoStd GoJson Domain Auth.
From Stdlib Require Import Ascii.

Module Rabbit.

Definition exchange : string := "proxyllm.events".

(** [Ack(false)], or [Nack(false, true)], which gives the message back. *)
Inductive verdict := Ack | NackRequeue.

(** Where a consumer is: registered by [Subscribe] but not started, before its
    first [select], about to start consuming, asleep, waiting for a delivery, in
    the handler, or gone. *)
Inductive position :=
| Registered
| Checking
| Starting
| Sleeping (d : Z)
| Draining
| Handling (body : string)
| Returned.

Record subscription := {
  sb_topic : string;
  sb_queue : string;
  sb_ctxDone : bool;
  sb_at : position;
  sb_delivered : list string;
  sb_settled : list (string * bool * verdict);   (* body, handler failed, verdict *)
}.

(** The watchdog: before it registers for the notice of closing, waiting for it,
    backing off, about to dial, binding the queues of the subscriptions left,
    or gone. *)
Inductive watchdogAt :=
| Registering
| Watching (conn : option nat)
| BackingOff (backoff : Z)
| Dialling (backoff : Z)
| Rebinding (subs : list nat)
| WatchdogGone.

(** [q.ch] is the channel of the connection [mq_ch]. *)
Record RabbitMQQueue := {
  mq_conn : option nat;
  mq_ch : option nat;
  mq_subs : list subscription;
  mq_stopCh : bool;
  mq_watchdog : watchdogAt;
  mq_links : list bool;        (* whether the connection is open *)
}.

Definition withLinks (links : list bool) (q : RabbitMQQueue) : RabbitMQQueue :=
  {| mq_conn := mq_conn q; mq_ch := mq_ch q; mq_subs := mq_subs q; mq_stopCh := mq_stopCh q;
     mq_watchdog := mq_watchdog q; mq_links := links |}.
Definition withConn (c : nat) (q : RabbitMQQueue) : RabbitMQQueue :=
  {| mq_conn := Some c; mq_ch := Some c; mq_subs := mq_subs q; mq_stopCh := mq_stopCh q;
     mq_watchdog := mq_watchdog q; mq_links := mq_links q |}.
Definition withSubs (subs : list subscription) (q : RabbitMQQueue) : RabbitMQQueue :=
  {| mq_conn := mq_conn q; mq_ch := mq_ch q; mq_subs := subs; mq_stopCh := mq_stopCh q;
     mq_watchdog := mq_watchdog q; mq_links := mq_links q |}.
Definition withWatchdog (w : watchdogAt) (q : RabbitMQQueue) : RabbitMQQueue :=
  {| mq_conn := mq_conn q; mq_ch := mq_ch q; mq_subs := mq_subs q; mq_stopCh := mq_stopCh q;
     mq_watchdog := w; mq_links := mq_links q |}.
Definition stopped (q : RabbitMQQueue) : RabbitMQQueue :=
  {| mq_conn := mq_conn q; mq_ch := mq_ch q; mq_subs := mq_subs q; mq_stopCh := true;
     mq_watchdog := mq_watchdog q; mq_links := mq_links q |}.

(** ** Connecting *)

(** What the four calls of [connect] return: the error of one stops it. *)
Inductive connected :=
| DialFails (e : error)
| ChannelFails (e : error)
| DeclareFails (e : error)
| QosFails (e : error)
| Connects.

Definition wrapError (prefix : string) (e : error) : error :=
  mkError (err_Kind e) (prefix +:+ ": " +:+ err_Msg e).

(** [amqp.Dial] opens a connection; [conn.Close] closes it. *)
Definition dial (q : RabbitMQQueue) : nat * RabbitMQQueue :=
  (length (mq_links q), withLinks (mq_links q ++ [true]) q).
Definition closeConn (c : nat) (q : RabbitMQQueue) : RabbitMQQueue := withLinks (<[c := false]> (mq_links q)) q.

Definition connect (o : connected) (q : RabbitMQQueue) : RabbitMQQueue * option error :=
  match o with
  | DialFails e => (q, Some e)
  | _ =>
      let '(conn, q) := dial q in
      match o with
      | ChannelFails e => (closeConn conn q, Some e)
      | DeclareFails e => (closeConn conn q, Some (wrapError "declare exchange" e))
      | QosFails e => (closeConn conn q, Some (wrapError "set qos" e))
      | _ => (withConn conn q, None)
      end
  end.

Definition empty : RabbitMQQueue :=
  {| mq_conn := None; mq_ch := None; mq_subs := []; mq_stopCh := false; mq_watchdog := WatchdogGone; mq_links := [] |}.

(** On success the watchdog is started. *)
Definition New (o : connected) : result error RabbitMQQueue :=
  match connect o empty with
  | (_, Some e) => Err (wrapError "rabbitmq: initial connect" e)
  | (q, None) => Ok (withWatchdog Registering q)
  end.

(** ** Queues *)

(** The four bytes that [rand.Read] left in the buffer. *)
Abbreviation bytes4 := (Z * Z * Z * Z)%type.

Definition shortID (b : bytes4) : string :=
  let '(b0, b1, b2, b3) := b in Auth.hexEncode [b0; b1; b2; b3].

Definition queueName (topic : string) (b : bytes4) : string :=
  "proxyllm." +:+ topic +:+ "." +:+ shortID b.

(** The two calls of [bindQueue]. *)
Inductive bound := QueueDeclareFails (e : error) | QueueBindFails (e : error) | Binds.

(** [None] is a nil channel, on which the call panics. *)
Definition bindQueue (topic : string) (b : bytes4) (o : bound) (q : RabbitMQQueue) : option (result error string) :=
  _ ← mq_ch q;
  Some (match o with
        | QueueDeclareFails e | QueueBindFails e => Err e
        | Binds => Ok (queueName topic b)
        end).

(** What [Publish] returns, given what [PublishWithContext] does. *)
Definition Publish (published : option error) (q : RabbitMQQueue) : option error :=
  match mq_ch q with
  | None => Some (mkError OtherError "rabbitmq: not connected")
  | Some _ => published
  end.

Definition Subscribe (topic : string) (b : bytes4) (o : bound) (q : RabbitMQQueue)
    : option (RabbitMQQueue * option error) :=
  r ← bindQueue topic b o q;
  Some (match r with
        | Err e => (q, Some (wrapError "rabbitmq: subscribe bind" e))
        | Ok queueName =>
            (withSubs (mq_subs q ++ [{| sb_topic := topic; sb_queue := queueName; sb_ctxDone := false;
                                        sb_at := Registered; sb_delivered := []; sb_settled := [] |}]) q, None)
        end).

(** ** The goroutines *)

Inductive action :=
| Subscribes (topic : string) (b : bytes4) (o : bound)
| Cancel (i : nat)                                    (* ctx is done *)
| Begin (i : nat)                                     (* q.wg.Add(1) and the go statement *)
| Check (i : nat)                                     (* the outer select *)
| Start (i : nat) (started : bool)                    (* ch.Consume *)
| Awake (i : nat)                                     (* time.Sleep returns *)
| Deliver (i : nat) (body : string)                   (* msg, true := <-deliveries *)
| DeliveriesEnd (i : nat)                             (* _, false := <-deliveries *)
| Leave (i : nat)                                     (* stopCh or ctx in the inner select *)
| HandlerReturns (i : nat) (failed : bool)
| Register                                            (* conn.NotifyClose *)
| Notice (sent : bool)                                (* amqpErr, sent := <-closeCh *)
| WatchdogStops
| Timer                                               (* time.After(backoff) *)
| Dial (o : connected)                                (* q.connect() *)
| Rebind (b : bytes4) (o : bound)
| Lose (c : nat)                                      (* the broker or the network ends a connection *)
| Close
| CloseReturns.

Definition isOpen (c : nat) (q : RabbitMQQueue) : bool := default false (mq_links q !! c).

Definition goto (p : position) (sb : subscription) : subscription :=
  {| sb_topic := sb_topic sb; sb_queue := sb_queue sb; sb_ctxDone := sb_ctxDone sb; sb_at := p;
     sb_delivered := sb_delivered sb; sb_settled := sb_settled sb |}.
Definition cancelled (sb : subscription) : subscription :=
  {| sb_topic := sb_topic sb; sb_queue := sb_queue sb; sb_ctxDone := true; sb_at := sb_at sb;
     sb_delivered := sb_delivered sb; sb_settled := sb_settled sb |}.
Definition withQueue (name : string) (sb : subscription) : subscription :=
  {| sb_topic := sb_topic sb; sb_queue := name; sb_ctxDone := sb_ctxDone sb; sb_at := sb_at sb;
     sb_delivered := sb_delivered sb; sb_settled := sb_settled sb |}.
Definition received (body : string) (sb : subscription) : subscription :=
  {| sb_topic := sb_topic sb; sb_queue := sb_queue sb; sb_ctxDone := sb_ctxDone sb; sb_at := Handling body;
     sb_delivered := sb_delivered sb ++ [body]; sb_settled := sb_settled sb |}.
Definition settled (body : string) (failed : bool) (v : verdict) (sb : subscription) : subscription :=
  {| sb_topic := sb_topic sb; sb_queue := sb_queue sb; sb_ctxDone := sb_ctxDone sb; sb_at := Draining;
     sb_delivered := sb_delivered sb; sb_settled := sb_settled sb ++ [(body, failed, v)] |}.

(** One step of [consume]. *)
Definition consume (a : action) (q : RabbitMQQueue) (sb : subscription) : option subscription :=
  match a, sb_at sb with
  | Begin _, Registered => Some (goto Checking sb)
  | Check _, Checking => Some (goto (if mq_stopCh q || sb_ctxDone sb then Returned else Starting) sb)
  | Start _ started, Starting =>
      match mq_ch q with
      | None => Some (goto (Sleeping (500 * Millisecond)) sb)
      | Some _ => Some (goto (if started then Draining else Sleeping (2 * Second)) sb)
      end
  | Awake _, Sleeping _ => Some (goto Checking sb)
  | Deliver _ body, Draining => Some (received body sb)
  | DeliveriesEnd _, Draining => Some (goto (Sleeping Second) sb)
  | Leave _, Draining => if mq_stopCh q || sb_ctxDone sb then Some (goto Returned sb) else None
  | HandlerReturns _ failed, Handling body =>
      Some (settled body failed (if failed then NackRequeue else Ack) sb)
  | _, _ => None
  end.

(** The back-off after a failed attempt. *)
Definition nextBackoff (backoff : Z) : Z :=
  if backoff <? 30 * Second then wrap64 (backoff * 2) else backoff.

(** One step of [watchdog]. *)
Definition watchdog (a : action) (q : RabbitMQQueue) : option RabbitMQQueue :=
  match a, mq_watchdog q with
  | Register, Registering => Some (withWatchdog (Watching (mq_conn q)) q)
  | Notice sent, Watching (Some conn) =>
      if isOpen conn q then None
      else Some (withWatchdog (if sent then BackingOff Second else WatchdogGone) q)
  | WatchdogStops, (Watching _ | BackingOff _) => if mq_stopCh q then Some (withWatchdog WatchdogGone q) else None
  | Timer, BackingOff backoff => Some (withWatchdog (Dialling backoff) q)
  | Dial o, Dialling backoff =>
      match connect o q with
      | (q, Some _) => Some (withWatchdog (BackingOff (nextBackoff backoff)) q)
      | (q, None) => Some (withWatchdog (Rebinding (seq 0 (length (mq_subs q)))) q)
      end
  | Rebind b o, Rebinding subs =>
      match subs with
      | [] => Some (withWatchdog Registering q)
      | i :: subs =>
          sb ← mq_subs q !! i;
          r ← bindQueue (sb_topic sb) b o q;
          Some (withWatchdog (Rebinding subs)
                  (match r with
                   | Err _ => q
                   | Ok name => withSubs (<[i := withQueue name sb]> (mq_subs q)) q
                   end))
      end
  | _, _ => None
  end.

(** [q.wg] does not count a consumer that was not started. *)
Definition isReturned (sb : subscription) : bool :=
  match sb_at sb with Registered | Returned => true | _ => false end.
Definition isGone (w : watchdogAt) : bool := match w with WatchdogGone => true | _ => false end.

(** [q.wg.Wait()] returns when the goroutines are gone; then the connection is
    closed unless it is already. *)
Definition closeReturns (q : RabbitMQQueue) : option RabbitMQQueue :=
  if mq_stopCh q && isGone (mq_watchdog q) && forallb isReturned (mq_subs q)
  then Some (match mq_conn q with
             | Some conn => if isOpen conn q then closeConn conn q else q
             | None => q
             end)
  else None.

Definition act (a : action) (q : RabbitMQQueue) : option RabbitMQQueue :=
  match a with
  | Subscribes topic b o => '(q, _) ← Subscribe topic b o q; Some q
  | Cancel i => sb ← mq_subs q !! i; Some (withSubs (<[i := cancelled sb]> (mq_subs q)) q)
  | Begin i | Check i | Start i _ | Awake i | Deliver i _ | DeliveriesEnd i | Leave i | HandlerReturns i _ =>
      sb ← mq_subs q !! i; sb' ← consume a q sb; Some (withSubs (<[i := sb']> (mq_subs q)) q)
  | Register | Notice _ | WatchdogStops | Timer | Dial _ | Rebind _ _ => watchdog a q
  | Lose c => Some (closeConn c q)
  | Close => Some (stopped q)
  | CloseReturns => closeReturns q
  end.

Definition step (q q' : RabbitMQQueue) : Prop := ∃ a, act a q = Some q'.

(** ** Connections *)

(** A connection that is open is the current one. *)
Definition onlyCurrent (q : RabbitMQQueue) : Prop := ∀ c, isOpen c q = true → mq_conn q = Some c.
Definition noneOpen (q : RabbitMQQueue) : Prop := ∀ c, isOpen c q = false.

(** One second, doubled at most five times. *)
Definition backoffs : list Z := (λ k, 2 ^ Z.of_nat k * Second) <$> seq 0 6.

Definition watchdogOk (q : RabbitMQQueue) : Prop :=
  match mq_watchdog q with
  | Watching conn => conn = mq_conn q
  | BackingOff b | Dialling b => noneOpen q ∧ b ∈ backoffs
  | Rebinding subs => Forall (λ i, (i < length (mq_subs q))%nat) subs
  | _ => True
  end.

Record connOk (q : RabbitMQQueue) : Prop := {
  co_ch : mq_ch q = mq_conn q;
  co_set : is_Some (mq_conn q);
  co_open : onlyCurrent q;
  co_watchdog : watchdogOk q;
}.

Lemma isOpen_close c c' q : isOpen c' (closeConn c q) = isOpen c' q && negb (bool_decide (c' = c)).
Proof.
  unfold isOpen, closeConn. simpl. destruct (decide (c' = c)) as [->|Hne].
  - rewrite bool_decide_eq_true_2 by done. rewrite andb_false_r.
    destruct (mq_links q !! c) eqn:E; [by rewrite list_lookup_insert_eq by by eapply lookup_lt_Some|].
    rewrite (list_insert_ge _ _ _ (proj1 (lookup_ge_None _ _) E)). by rewrite E.
  - rewrite bool_decide_eq_false_2 by done. by rewrite list_lookup_insert_ne, andb_true_r by done.
Qed.

Lemma isOpen_dial c q : isOpen c (dial q).2 = isOpen c q || bool_decide (c = length (mq_links q)).
Proof.
  unfold isOpen, dial. simpl. destruct (decide (c < length (mq_links q))%nat) as [Hlt|Hge].
  - rewrite lookup_app_l, bool_decide_eq_false_2 by lia. by rewrite orb_false_r.
  - rewrite lookup_app_r by lia. rewrite (lookup_ge_None_2 (mq_links q)) by lia. simpl. case_bool_decide as E.
    + by rewrite E, Nat.sub_diag.
    + destruct (c - length (mq_links q))%nat eqn:?; [lia|done].
Qed.

Lemma dial_fresh q : isOpen (length (mq_links q)) q = false.
Proof. unfold isOpen. by rewrite lookup_ge_None_2. Qed.

(** An attempt that fails leaves the connections as they were; one that succeeds
    adds the new one. *)
Lemma connect_open o q :
  match connect o q with
  | (q', Some _) => (∀ c, isOpen c q' = isOpen c q) ∧ mq_conn q' = mq_conn q ∧ mq_ch q' = mq_ch q ∧ mq_subs q' = mq_subs q
  | (q', None) => ∃ c, mq_conn q' = Some c ∧ mq_ch q' = Some c ∧ mq_subs q' = mq_subs q ∧
                       ∀ c', isOpen c' q' = isOpen c' q || bool_decide (c' = c)
  end.
Proof.
  assert (∀ c, isOpen c (closeConn (length (mq_links q)) (dial q).2) = isOpen c q) as Hclose.
  { intros c. rewrite isOpen_close, isOpen_dial. case_bool_decide as E; simpl; [subst; by rewrite dial_fresh|].
    by rewrite orb_false_r, andb_true_r. }
  destruct o; simpl; try done. exists (length (mq_links q)). split_and!; [done..|]. intros c'. apply isOpen_dial.
Qed.

Lemma nextBackoff_bound b : b ∈ backoffs → nextBackoff b ∈ backoffs.
Proof.
  unfold backoffs. simpl. rewrite !elem_of_cons. intros Hb.
  repeat destruct Hb as [->|Hb]; [vm_compute; tauto..|by apply elem_of_nil in Hb].
Qed.

(** The steps that touch neither the connections nor the watchdog. *)
Lemma connOk_subs subs q :
  connOk q → (length (mq_subs q) ≤ length subs)%nat → connOk (withSubs subs q).
Proof.
  intros [Hch Hs Ho Hw] Hl. split; [done..|]. unfold watchdogOk in *. simpl. destruct (mq_watchdog q); try done.
  eapply Forall_impl; [exact Hw|]. simpl. lia.
Qed.

Lemma connOk_close c q : connOk q → connOk (closeConn c q).
Proof.
  intros [Hch Hs Ho Hw]. split; [done..| |].
  - intros c' Hc'. rewrite isOpen_close in Hc'. bools. by apply Ho.
  - unfold watchdogOk in *. simpl. destruct (mq_watchdog q); try done;
      (split; [|apply Hw]; intros c'; rewrite isOpen_close; by rewrite (proj1 Hw c')).
Qed.

Lemma connOk_goto w q : connOk q → watchdogOk (withWatchdog w q) → connOk (withWatchdog w q).
Proof. by intros [Hch Hs Ho Hw]. Qed.

Lemma watchdog_connOk a q q' : connOk q → watchdog a q = Some q' → connOk q'.
Proof.
  intros Hq. pose proof Hq as [Hch [conn Hc] Ho Hw]. unfold watchdogOk in Hw.
  destruct a as [| | | | | | | | | | |sent| | |o|b o| | |]; simpl; destruct (mq_watchdog q) as [|oc|bo|bo|subs|] eqn:E; try done.
  - intros [= <-]. by apply connOk_goto.
  - subst oc. rewrite Hc. destruct (isOpen conn q) eqn:Eo; [done|]. intros [= <-]. apply connOk_goto; [done|].
    destruct sent; [|done]. split; [|vm_compute; by left]. intros c. apply not_true_is_false. intros Hop.
    assert (isOpen c q = true) as Hop' by exact Hop. pose proof (Ho c Hop'). congruence.
  - destruct (mq_stopCh q); [|done]. intros [= <-]. by apply connOk_goto.
  - destruct (mq_stopCh q); [|done]. intros [= <-]. by apply connOk_goto.
  - intros [= <-]. by apply connOk_goto.
  - destruct Hw as [Hn Hb]. pose proof (connect_open o q) as Hcon. destruct (connect o q) as [q1 [e|]].
    + destruct Hcon as (Hop & Hc1 & Hch1 & _). intros [= <-].
      split; simpl; [congruence|by rewrite Hc1, Hc| |].
      * intros c Hc'. cbn. rewrite Hc1. apply Ho. by rewrite <-Hop.
      * split; [|by apply nextBackoff_bound]. intros c. rewrite <-(Hn c). apply Hop.
    + destruct Hcon as (c & Hc1 & Hch1 & Hs1 & Hop). intros [= <-].
      split; simpl; [by rewrite Hch1, Hc1|by rewrite Hc1| |].
      * intros c' Hc'. cbn. rewrite Hc1. assert (isOpen c' q1 = true) as Hc2 by exact Hc'. rewrite Hop, (Hn c') in Hc2.
        simpl in Hc2. bools. by subst.
      * unfold watchdogOk. simpl. apply Forall_forall. intros i Hi%elem_of_seq. lia.
  - destruct subs as [|i subs]; [intros [= <-]; by apply connOk_goto|].
    apply Forall_cons in Hw as [Hi Hsubs]. intros (sb & Hsb & (r & Hr & [= <-])%bind_Some)%bind_Some.
    apply connOk_goto; [destruct r; [|done]; apply connOk_subs; [done|by rewrite length_insert]|].
    unfold watchdogOk. simpl. destruct r; simpl; by rewrite ?length_insert.
Qed.

Lemma act_connOk a q q' : connOk q → act a q = Some q' → connOk q'.
Proof.
  intros Hq. destruct a; cbn [act]; try apply watchdog_connOk; try done;
    try (intros (sb & Hi & (sb' & Hc & [= <-])%bind_Some)%bind_Some; apply connOk_subs; [done|by rewrite length_insert]).
  - intros ([q1 e] & Hs & [= <-])%bind_Some. unfold Subscribe in Hs. apply bind_Some in Hs as (r & Hr & [= Hs]).
    destruct r; simplify_eq; [|done]. apply connOk_subs; [done|]. rewrite length_app. lia.
  - intros (sb & Hi & [= <-])%bind_Some. apply connOk_subs; [done|by rewrite length_insert].
  - intros [= <-]. by apply connOk_close.
  - intros [= <-]. by destruct Hq.
  - unfold closeReturns. destruct (_ && _); [|done]. intros [= <-].
    destruct (mq_conn q); [|done]. destruct (isOpen _ q); [by apply connOk_close|done].
Qed.

Lemma New_connOk o q : New o = Ok q → connOk q.
Proof.
  unfold New. pose proof (connect_open o empty) as Hc. destruct (connect o empty) as [q1 [e|]]; [done|].
  destruct Hc as (c & Hc & Hch & _ & Ho). intros [= <-].
  split; simpl; [by rewrite Hch, Hc|by rewrite Hc| |done]. intros c' Hc'. cbn. rewrite Hc.
  assert (isOpen c' q1 = true) as Hc2 by exact Hc'. rewrite Ho in Hc2. unfold isOpen at 1 in Hc2. simpl in Hc2.
  bools. by subst.
Qed.

(** C29. No connection leaks: in every state the goroutines can reach, the channel
    is set and is that of the current connection, every other connection ever
    dialled is closed, also those given up half-way through [connect], and when
    [Close] returns none is open.  The attempts to reconnect are one second
    apart, doubled after every failure up to 32 seconds. *)
Theorem rabbit_no_leak (o : connected) (q0 q : RabbitMQQueue) :
  New o = Ok q0 → rtc step q0 q →
  is_Some (mq_ch q) ∧ mq_ch q = mq_conn q ∧ onlyCurrent q ∧
  (∀ q', act CloseReturns q = Some q' → noneOpen q') ∧
  (∀ b, mq_watchdog q = BackingOff b → Second ≤ b ≤ 32 * Second).
Proof.
  intros Hn Hr. assert (connOk q) as [Hch Hs Ho Hw].
  { apply (rtc_invariant step connOk q0); [|by eapply New_connOk|done]. intros a b Ha [x Hx]. by eapply act_connOk. }
  split_and!; [by rewrite Hch|done|done| |].
  - intros q'. simpl. unfold closeReturns. destruct (_ && _); [|done]. destruct Hs as [c Hc]. rewrite Hc.
    assert (∀ c', isOpen c' q = true → c' = c) as Hc' by (intros c' ?%Ho; congruence).
    intros [= <-] c'. destruct (isOpen c q) eqn:E; [rewrite isOpen_close|]; destruct (isOpen c' q) eqn:E'; try done.
    + by rewrite (Hc' c' E'), bool_decide_eq_true_2.
    + by rewrite (Hc' c' E'), E in E'.
  - intros b Hb. unfold watchdogOk in Hw. rewrite Hb in Hw. destruct Hw as [_ Hb'].
    apply (list_elem_of_fmap_1 _ _ _) in Hb' as (k & -> & Hk%elem_of_seq).
    assert (k ∈ seq 0 6) as Hk' by (apply elem_of_seq; lia). unfold Second, Millisecond.
    pose proof (Z.pow_le_mono_r 2 0 (Z.of_nat k)). pose proof (Z.pow_le_mono_r 2 (Z.of_nat k) 5).
    change (2 ^ 0) with 1 in *. change (2 ^ 5) with 32 in *. lia.
Qed.

(** ** Deliveries *)

Definition current (sb : subscription) : list string :=
  match sb_at sb with Handling body => [body] | _ => [] end.

Record subOk (sb : subscription) : Prop := {
  so_queue : ∃ b, sb_queue sb = queueName (sb_topic sb) b;
  so_once : sb_delivered sb = ((λ x, x.1.1) <$> sb_settled sb) ++ current sb;
  so_verdict : Forall (λ x, x.2 = if x.1.2 : bool then NackRequeue else Ack) (sb_settled sb);
}.

Definition sameSub (sb sb' : subscription) : Prop :=
  sb_topic sb' = sb_topic sb ∧ sb_delivered sb' = sb_delivered sb ∧ sb_settled sb' = sb_settled sb ∧
  current sb' = current sb.

Lemma subOk_same sb sb' : subOk sb → sameSub sb sb' → (∃ b, sb_queue sb' = queueName (sb_topic sb) b) → subOk sb'.
Proof.
  intros [Hq Ho Hv] (Ht & Hd & Hs & Hc) Hq'. split; [by rewrite Ht|by rewrite Hd, Hs, Hc|by rewrite Hs].
Qed.

Lemma consume_subOk a q sb sb' : subOk sb → consume a q sb = Some sb' → subOk sb'.
Proof.
  intros Hok. unfold consume. destruct a as [| | | |i st|i|i body|i|i|i failed| | | | | | | | |];
    destruct (sb_at sb) as [| | |d| |body'|] eqn:E; try done;
    repeat match goal with
    | |- context [match mq_ch q with _ => _ end] => destruct (mq_ch q)
    | |- context [mq_stopCh q || sb_ctxDone sb] => destruct (mq_stopCh q || sb_ctxDone sb)
    end; try done; intros [= <-];
    try (apply (subOk_same sb); [done| |apply Hok]; split_and!; try done; unfold current; simpl; rewrite E; by repeat case_match).
  - destruct Hok as [Hq Ho Hv]. split; [done| |done]. simpl. unfold current in *. rewrite E, app_nil_r in Ho. simpl.
    by rewrite Ho.
  - destruct Hok as [Hq Ho Hv]. split; [done| |]; simpl.
    + unfold current in *. rewrite E in Ho. rewrite Ho, app_nil_r. symmetry. exact (fmap_app _ _ _).
    + apply Forall_app. split; [done|]. by apply Forall_singleton.
Qed.

Definition subsOk (q : RabbitMQQueue) : Prop := Forall subOk (mq_subs q).

Lemma act_subsOk a q q' : subsOk q → act a q = Some q' → subsOk q'.
Proof.
  intros Hq. unfold subsOk in *. destruct a as [topic b o|i| | | | | | | | | |sent| | |o|b o|c| |]; cbn [act watchdog];
    try (intros (sb & Hi & (sb' & Hc & [= <-])%bind_Some)%bind_Some; simpl; apply Forall_insert; [done|];
         eapply consume_subOk; [by eapply Forall_lookup_1|done]).
  - intros ([q1 e] & (r & Hr & [= Hs])%bind_Some & [= <-])%bind_Some.
    apply bind_Some in Hr as (ch & Hch & [= <-]). destruct o; simplify_eq; try done. simpl.
    apply Forall_app. split; [done|]. apply Forall_singleton. split; [by exists b|done|done].
  - intros (sb & Hi & [= <-])%bind_Some. simpl. apply Forall_insert; [done|].
    eapply subOk_same; [by eapply Forall_lookup_1|done|]. by eapply (Forall_lookup_1 _ _ _ _ Hq Hi).
  - destruct (mq_watchdog q); try done. by intros [= <-].
  - destruct (mq_watchdog q) as [|[c|]| | | |]; try done. destruct (isOpen c q); [done|]. by intros [= <-].
  - destruct (mq_watchdog q); try done; (destruct (mq_stopCh q); [|done]); by intros [= <-].
  - destruct (mq_watchdog q); try done. by intros [= <-].
  - destruct (mq_watchdog q); try done. pose proof (connect_open o q) as Hc. destruct (connect o q) as [q1 [e|]].
    + destruct Hc as (_ & _ & _ & Hs). intros [= <-]. simpl. by rewrite Hs.
    + destruct Hc as (c & _ & _ & Hs & _). intros [= <-]. simpl. by rewrite Hs.
  - destruct (mq_watchdog q) as [| | | |[|i subs]|]; try done; [by intros [= <-]|].
    intros (sb & Hi & (r & Hr & [= <-])%bind_Some)%bind_Some.
    apply bind_Some in Hr as (ch & Hch & [= <-]). destruct o; try done. simpl. apply Forall_insert; [done|].
    eapply subOk_same; [by eapply Forall_lookup_1|done|]. by exists b.
  - by intros [= <-].
  - by intros [= <-].
  - unfold closeReturns. destruct (_ && _); [|done]. intros [= <-].
    destruct (mq_conn q) as [c|]; [|done]. by destruct (isOpen c q).
Qed.

Lemma charAt_no_dot i : Auth.charAt Auth.hexChars i ≠ "."%char.
Proof.
  unfold Auth.charAt. destruct (Z.to_nat i) as [|n]; [done|].
  do 15 (destruct n as [|n]; [done|]). by destruct n.
Qed.

Lemma hexEncode_free b : free_of "." (Auth.hexEncode b) = true.
Proof.
  induction b as [|x b IH]; [done|]. cbn [Auth.hexEncode free_of].
  pose proof (charAt_no_dot (x / 16)). pose proof (charAt_no_dot (x mod 16)).
  rewrite !(proj2 (Ascii.eqb_neq _ _)) by done. done.
Qed.

(** Queues of different topics have different names. *)
Lemma queueName_topic t t' b b' : queueName t b = queueName t' b' → t = t'.
Proof.
  unfold queueName. destruct b as [[[b0 b1] b2] b3], b' as [[[b0' b1'] b2'] b3']. intros E.
  apply (inj (String.append "proxyllm.")) in E. by apply last_field_inj in E as [-> _]; [|apply hexEncode_free..].
Qed.

(** Every delivery is settled once, in order, after its handler has returned:
    acknowledged when the handler succeeded and given back to the broker when it
    failed; the last delivery may still be in its handler.  Subscriptions to
    different topics never share a queue, also after reconnecting. *)
Theorem rabbit_settles (o : connected) (q0 q : RabbitMQQueue) (i : nat) (sb : subscription) :
  New o = Ok q0 → rtc step q0 q → mq_subs q !! i = Some sb →
  sb_delivered sb = ((λ x, x.1.1) <$> sb_settled sb) ++ current sb ∧
  Forall (λ x, x.2 = if x.1.2 : bool then NackRequeue else Ack) (sb_settled sb) ∧
  ∀ j sb', mq_subs q !! j = Some sb' → sb_queue sb = sb_queue sb' → sb_topic sb = sb_topic sb'.
Proof.
  intros Hn Hr Hi. assert (subsOk q) as Hq.
  { apply (rtc_invariant step subsOk q0); [| |done].
    - intros a b Ha [x Hx]. by eapply act_subsOk.
    - revert Hn. unfold New. pose proof (connect_open o empty) as Hc. destruct (connect o empty) as [q1 [e|]]; [done|].
      destruct Hc as (_ & _ & _ & Hs & _). intros [= <-]. unfold subsOk. simpl. rewrite Hs. constructor. }
  destruct (Forall_lookup_1 _ _ _ _ Hq Hi) as [[b Hb] Ho Hv]. split_and!; [done..|].
  intros j sb' Hj E. destruct (Forall_lookup_1 _ _ _ _ Hq Hj) as [[b' Hb'] _ _].
  rewrite Hb, Hb' in E. by eapply queueName_topic.
Qed.

(** A notice without an error ends the watchdog, also when nobody called
    [Close]: from then on nothing reconnects. *)
Lemma watchdog_gives_up q conn :
  mq_watchdog q = Watching (Some conn) → isOpen conn q = false →
  ∃ q1, act (Notice false) q = Some q1 ∧
    ∀ q', rtc step q1 q' → mq_watchdog q' = WatchdogGone ∧ mq_conn q' = mq_conn q.
Proof.
  intros Hw Ho. exists (withWatchdog WatchdogGone q). split; [simpl; by rewrite Hw, Ho|].
  intros q'. apply (rtc_invariant step (λ q', mq_watchdog q' = WatchdogGone ∧ mq_conn q' = mq_conn q)); [|done].
  intros q1 q2 [Hg Hc] [a Ha].
  destruct a; cbn [act watchdog] in Ha; rewrite ?Hg in Ha; try done;
    try (apply bind_Some in Ha as (sb & Hi & (sb' & Hsb & [= <-])%bind_Some); done); unfold closeReturns in Ha;
    repeat case_match; simplify_eq; try done.
  - apply bind_Some in Ha as ([q3 e] & (r & Hr & [= Hs])%bind_Some & [= <-]). destruct r; by simplify_eq.
  - apply bind_Some in Ha as (sb & Hi & [= <-]). done.
  - simpl. split; congruence.
  - split; congruence.
  - split; congruence.
Qed.

(** ** A concrete run *)

Fixpoint runs (acts : list action) (q : RabbitMQQueue) : option RabbitMQQueue :=
  match acts with
  | [] => Some q
  | a :: acts => q ← act a q; runs acts q
  end.

Lemma rabbit_runs_rtc acts q q' : runs acts q = Some q' → rtc step q q'.
Proof.
  revert q. induction acts as [|a acts IH]; intros q; simpl; [by intros [= ->]|].
  intros (q1 & Ha & Hr)%bind_Some. eapply rtc_l; [by exists a|by apply IH].
Qed.

Definition refused : error := mkError OtherError "connection refused".

(** A message is handled at the second attempt; the connection is lost, one
    attempt to reconnect stops half-way, the next succeeds. *)
Definition demo_acts : list action :=
  [Register; Subscribes "logs" (1, 2, 3, 255) Binds; Begin 0; Check 0; Start 0 true; Deliver 0 "a"; HandlerReturns 0 true;
   Deliver 0 "a"; HandlerReturns 0 false; Lose 0; DeliveriesEnd 0; Notice true; Timer; Dial (QosFails refused);
   Timer; Dial Connects; Rebind (0, 0, 0, 1) Binds; Rebind (0, 0, 0, 0) Binds; Awake 0; Check 0; Start 0 true].

Definition demo_start : RabbitMQQueue := match New Connects with Ok q => q | Err _ => empty end.
Definition demo_queue : RabbitMQQueue := default empty (runs demo_acts demo_start).

Lemma demo_reached : rtc step demo_start demo_queue.
Proof. apply (rabbit_runs_rtc demo_acts). by vm_compute. Qed.

Lemma rabbit_no_leak_witness :
  mq_links demo_queue = [false; false; true] ∧ mq_conn demo_queue = Some 2%nat ∧ onlyCurrent demo_queue.
Proof.
  split_and!; [by vm_compute..|]. apply (rabbit_no_leak Connects demo_start demo_queue eq_refl demo_reached).
Defined.

Lemma rabbit_settles_witness :
  ∃ sb, mq_subs demo_queue !! 0%nat = Some sb ∧ sb_queue sb = "proxyllm.logs.00000001" ∧
    sb_settled sb = [("a", true, NackRequeue); ("a", false, Ack)] ∧
    sb_delivered sb = ((λ x, x.1.1) <$> sb_settled sb) ++ current sb.
Proof.
  destruct (mq_subs demo_queue !! 0%nat) as [sb|] eqn:Hs; [|by vm_compute in Hs].
  destruct (rabbit_settles Connects demo_start demo_queue 0 sb eq_refl demo_reached Hs) as (Hd & _).
  exists sb. vm_compute in Hs. injection Hs as <-. by split_and!.
Defined.

End Rabbit.
