(* ===== verification/MessageQueue.v ===== *)
(** * package memory: the message queue

    [src/internal/storage/memory/queue.go].  Publishers, subscribers, the
    dispatcher of each topic and [Close] run on goroutines of their own; an
    action is what one of them does between two points where another may run: a
    critical section, an operation on a channel, the return of a handler.  A
    send on a closed channel panics, which ends the process.

    [Subscribe] registers a channel in its critical section and starts the
    goroutine after it; [Close] closes the channels in its critical section and
    then waits for the goroutines that were started.

    A message is its payload.  The fields [tp_accepted], [tp_done], [sb_handled],
    [sb_missed] and [sb_from] record the past and are read by no action. *)
From S2P Require Import Prelude GoStd.

Module MQ.

(** The goroutine of a topic: in its [select], with a message before it takes
    the lock, sending the message to the subscribers left, or gone. *)
Inductive dispatcher := Waiting | Received (msg : string) | Sending (msg : string) (subs : list nat) | Gone.

Record topicState := {
  tp_ch : list string;
  tp_disp : dispatcher;
  tp_fanout : list nat;
  tp_accepted : list string;
  tp_done : list string;
}.

(** The goroutine of a subscription: not started yet, in its [select], in the
    handler, returned. *)
Inductive position := Unstarted | Selecting | Handling (msg : string) | Returned.

(** A subscription: its channel and its goroutine.  [sb_missed] has the messages
    its channel did not take, each with the number of messages in the channel at
    that moment. *)
Record subscriber := {
  sb_topic : string;
  sb_ch : list string;
  sb_at : position;
  sb_handled : list string;
  sb_missed : list (string * nat);
  sb_from : nat;
}.

(** [mq_publishing]: the calls of [Publish] that have released the lock and not
    yet sent.  [mq_waiting]: the call of [Close] in [q.wg.Wait()]. *)
Record MemoryQueue := {
  mq_bufferSize : nat;
  mq_topics : gmap string topicState;
  mq_subs : list subscriber;
  mq_closed : bool;
  mq_publishing : gmap nat (string * string);
  mq_waiting : bool;
  mq_panic : bool;
}.

Definition NewMemoryQueue (bufferSize : Z) : MemoryQueue :=
  {| mq_bufferSize := if bufferSize <=? 0 then 4096 else Z.to_nat bufferSize; mq_topics := ∅; mq_subs := [];
     mq_closed := false; mq_publishing := ∅; mq_waiting := false; mq_panic := false |}.

Definition newTopic : topicState :=
  {| tp_ch := []; tp_disp := Waiting; tp_fanout := []; tp_accepted := []; tp_done := [] |}.

Definition setTopic (topic : string) (tc : topicState) (q : MemoryQueue) : MemoryQueue :=
  {| mq_bufferSize := mq_bufferSize q; mq_topics := <[topic := tc]> (mq_topics q); mq_subs := mq_subs q;
     mq_closed := mq_closed q; mq_publishing := mq_publishing q; mq_waiting := mq_waiting q; mq_panic := mq_panic q |}.
Definition setSubs (subs : list subscriber) (q : MemoryQueue) : MemoryQueue :=
  {| mq_bufferSize := mq_bufferSize q; mq_topics := mq_topics q; mq_subs := subs;
     mq_closed := mq_closed q; mq_publishing := mq_publishing q; mq_waiting := mq_waiting q; mq_panic := mq_panic q |}.
Definition setPublishing (p : gmap nat (string * string)) (q : MemoryQueue) : MemoryQueue :=
  {| mq_bufferSize := mq_bufferSize q; mq_topics := mq_topics q; mq_subs := mq_subs q;
     mq_closed := mq_closed q; mq_publishing := p; mq_waiting := mq_waiting q; mq_panic := mq_panic q |}.
Definition panicked (q : MemoryQueue) : MemoryQueue :=
  {| mq_bufferSize := mq_bufferSize q; mq_topics := mq_topics q; mq_subs := mq_subs q;
     mq_closed := mq_closed q; mq_publishing := mq_publishing q; mq_waiting := mq_waiting q; mq_panic := true |}.

(** The critical section of [Close]: every channel is closed with the queue. *)
Definition closing (q : MemoryQueue) : MemoryQueue :=
  {| mq_bufferSize := mq_bufferSize q; mq_topics := mq_topics q; mq_subs := mq_subs q; mq_closed := true;
     mq_publishing := mq_publishing q; mq_waiting := true; mq_panic := mq_panic q |}.
Definition doneWaiting (q : MemoryQueue) : MemoryQueue :=
  {| mq_bufferSize := mq_bufferSize q; mq_topics := mq_topics q; mq_subs := mq_subs q; mq_closed := mq_closed q;
     mq_publishing := mq_publishing q; mq_waiting := false; mq_panic := mq_panic q |}.

Definition withDisp (d : dispatcher) (done : list string) (tc : topicState) : topicState :=
  {| tp_ch := tp_ch tc; tp_disp := d; tp_fanout := tp_fanout tc; tp_accepted := tp_accepted tc; tp_done := done |}.
Definition withCh (ch : list string) (d : dispatcher) (accepted : list string) (tc : topicState) : topicState :=
  {| tp_ch := ch; tp_disp := d; tp_fanout := tp_fanout tc; tp_accepted := accepted; tp_done := tp_done tc |}.

Definition ensureTopic (topic : string) (q : MemoryQueue) : MemoryQueue * topicState :=
  match mq_topics q !! topic with
  | Some tc => (q, tc)
  | None => (setTopic topic newTopic q, newTopic)
  end.

(** The messages a dispatcher has taken up, including the one it is sending. *)
Definition taken (tc : topicState) : nat :=
  match tp_disp tc with Sending _ _ => S (length (tp_done tc)) | _ => length (tp_done tc) end.

Inductive action :=
| Publish (g : nat) (topic payload : string)   (* the critical section of Publish *)
| Send (g : nat)                                (* its send *)
| Subscribe (topic : string)                    (* the critical section of Subscribe *)
| Begin (i : nat)                               (* q.wg.Add(1) and the go statement *)
| Receive (topic : string)                      (* msg, ok := <-src *)
| CopySubs (topic : string)                     (* the critical section of dispatch *)
| FanOut (topic : string)                       (* the send to the next subscriber *)
| Stop (topic : string)                         (* ctx.Done(), or src closed and empty *)
| Take (i : nat)                                (* msg, ok := <-subCh *)
| Handled (i : nat)                             (* handler returns *)
| Leave (i : nat)                               (* subCh closed and empty, or ctx.Done() *)
| Close                                         (* the critical section of Close *)
| CloseReturns.                                 (* q.wg.Wait() returns *)

(** The subscriber after the dispatcher's non-blocking send. *)
Definition offer (size : nat) (msg : string) (sb : subscriber) : subscriber :=
  let room := (length (sb_ch sb) <? size)%nat in
  {| sb_topic := sb_topic sb; sb_ch := if room then sb_ch sb ++ [msg] else sb_ch sb; sb_at := sb_at sb;
     sb_handled := sb_handled sb;
     sb_missed := if room then sb_missed sb else sb_missed sb ++ [(msg, length (sb_ch sb))]; sb_from := sb_from sb |}.

Definition goto (p : position) (ch : list string) (handled : list string) (sb : subscriber) : subscriber :=
  {| sb_topic := sb_topic sb; sb_ch := ch; sb_at := p; sb_handled := handled;
     sb_missed := sb_missed sb; sb_from := sb_from sb |}.

(** The counter of [q.wg] is zero: no dispatcher and no goroutine that was
    started is left. *)
Definition dispatcherGone (tc : topicState) : bool := match tp_disp tc with Gone => true | _ => false end.
Definition subscriberGone (sb : subscriber) : bool :=
  match sb_at sb with Unstarted | Returned => true | Selecting | Handling _ => false end.
Definition allGone (q : MemoryQueue) : bool :=
  forallb (λ x, dispatcherGone x.2) (map_to_list (mq_topics q)) && forallb subscriberGone (mq_subs q).

(** One action; [None] when it cannot happen.  A refused [Publish] or
    [Subscribe] returns an error and changes nothing. *)
Definition act (a : action) (q : MemoryQueue) : option MemoryQueue :=
  if mq_panic q then None else
  match a with
  | Publish g topic payload =>
      if mq_closed q then Some q
      else let '(q, _) := ensureTopic topic q in
           Some (setPublishing (<[g := (topic, payload)]> (mq_publishing q)) q)
  | Send g =>
      '(topic, payload) ← mq_publishing q !! g;
      tc ← mq_topics q !! topic;
      let q := setPublishing (delete g (mq_publishing q)) q in
      if mq_closed q then Some (panicked q)
      else if (length (tp_ch tc) <? mq_bufferSize q)%nat
      then Some (setTopic topic (withCh (tp_ch tc ++ [payload]) (tp_disp tc) (tp_accepted tc ++ [payload]) tc) q)
      else Some q
  | Subscribe topic =>
      if mq_closed q then Some q
      else
        let '(q, tc) := ensureTopic topic q in
        let sb := {| sb_topic := topic; sb_ch := []; sb_at := Unstarted; sb_handled := [];
                     sb_missed := []; sb_from := taken tc |} in
        let tc := {| tp_ch := tp_ch tc; tp_disp := tp_disp tc; tp_fanout := tp_fanout tc ++ [length (mq_subs q)];
                     tp_accepted := tp_accepted tc; tp_done := tp_done tc |} in
        Some (setTopic topic tc (setSubs (mq_subs q ++ [sb]) q))
  | Receive topic =>
      tc ← mq_topics q !! topic;
      match tp_disp tc, tp_ch tc with
      | Waiting, msg :: ch => Some (setTopic topic (withCh ch (Received msg) (tp_accepted tc) tc) q)
      | _, _ => None
      end
  | CopySubs topic =>
      tc ← mq_topics q !! topic;
      match tp_disp tc with
      | Received msg => Some (setTopic topic (withDisp (Sending msg (tp_fanout tc)) (tp_done tc) tc) q)
      | _ => None
      end
  | FanOut topic =>
      tc ← mq_topics q !! topic;
      match tp_disp tc with
      | Sending msg [] => Some (setTopic topic (withDisp Waiting (tp_done tc ++ [msg]) tc) q)
      | Sending msg (i :: subs) =>
          if mq_closed q then Some (panicked q)
          else Some (setTopic topic (withDisp (Sending msg subs) (tp_done tc) tc)
                       (setSubs (alter (offer (mq_bufferSize q) msg) i (mq_subs q)) q))
      | _ => None
      end
  | Stop topic =>
      tc ← mq_topics q !! topic;
      match tp_disp tc with
      | Waiting => if mq_closed q then Some (setTopic topic (withDisp Gone (tp_done tc) tc) q) else None
      | _ => None
      end
  | Begin i =>
      sb ← mq_subs q !! i;
      match sb_at sb with
      | Unstarted => Some (setSubs (<[i := goto Selecting (sb_ch sb) (sb_handled sb) sb]> (mq_subs q)) q)
      | _ => None
      end
  | Take i =>
      sb ← mq_subs q !! i;
      match sb_at sb, sb_ch sb with
      | Selecting, msg :: ch => Some (setSubs (<[i := goto (Handling msg) ch (sb_handled sb) sb]> (mq_subs q)) q)
      | _, _ => None
      end
  | Handled i =>
      sb ← mq_subs q !! i;
      match sb_at sb with
      | Handling msg => Some (setSubs (<[i := goto Selecting (sb_ch sb) (sb_handled sb ++ [msg]) sb]> (mq_subs q)) q)
      | _ => None
      end
  | Leave i =>
      sb ← mq_subs q !! i;
      match sb_at sb with
      | Selecting => Some (setSubs (<[i := goto Returned (sb_ch sb) (sb_handled sb) sb]> (mq_subs q)) q)
      | _ => None
      end
  | Close => Some (if mq_closed q then q else closing q)
  | CloseReturns => if mq_closed q && mq_waiting q && allGone q then Some (doneWaiting q) else None
  end.

Definition step (q q' : MemoryQueue) : Prop := ∃ a, act a q = Some q'.

(** ** What a subscriber gets *)

(** What a handler is working on. *)
Definition inHand (sb : subscriber) : list string := match sb_at sb with Handling msg => [msg] | _ => [] end.

(** The messages that reached the channel of a subscriber, oldest first. *)
Definition hist (sb : subscriber) : list string := sb_handled sb ++ inHand sb ++ sb_ch sb.

Definition current (tc : topicState) : list string :=
  match tp_disp tc with Received msg | Sending msg _ => [msg] | _ => [] end.

(** The messages the dispatcher is through with, as far as [i] is concerned. *)
Definition offered (tc : topicState) (i : nat) : list string :=
  match tp_disp tc with
  | Sending msg rest => if decide (i ∈ rest) then tp_done tc else tp_done tc ++ [msg]
  | _ => tp_done tc
  end.

(** Of the messages dispatched since the subscription, those that reached its
    channel keep their order and the others found it full, which takes as many
    messages before them as the channel holds. *)
Definition subOk (size : nat) (tc : topicState) (i : nat) (sb : subscriber) : Prop :=
  let since := drop (sb_from sb) (offered tc i) in
  (sb_from sb ≤ length (offered tc i))%nat ∧ hist sb `sublist_of` since ∧
  hist sb ++ (sb_missed sb).*1 ≡ₚ since ∧ Forall (λ m, size ≤ m.2)%nat (sb_missed sb) ∧
  (sb_missed sb = [] ∨ size ≤ length (hist sb))%nat ∧ (sb_missed sb = [] → hist sb = since).

Definition sendingOk (tc : topicState) : Prop :=
  match tp_disp tc with Sending _ rest => NoDup rest ∧ rest ⊆ tp_fanout tc | _ => True end.

Definition topicOk (size : nat) (subs : list subscriber) (t : string) (tc : topicState) : Prop :=
  tp_accepted tc = tp_done tc ++ current tc ++ tp_ch tc ∧ NoDup (tp_fanout tc) ∧ sendingOk tc ∧
  ∀ i, i ∈ tp_fanout tc → ∃ sb, subs !! i = Some sb ∧ sb_topic sb = t ∧ subOk size tc i sb.

Definition mqOk (q : MemoryQueue) : Prop :=
  map_Forall (topicOk (mq_bufferSize q) (mq_subs q)) (mq_topics q) ∧
  ∀ i sb, mq_subs q !! i = Some sb → ∃ tc, mq_topics q !! sb_topic sb = Some tc ∧ i ∈ tp_fanout tc.

(** A topic may change its channel and dispatcher as long as no subscriber has
    to have more. *)
Lemma topicOk_change size subs t tc tc' :
  topicOk size subs t tc → tp_fanout tc' = tp_fanout tc →
  tp_accepted tc' = tp_done tc' ++ current tc' ++ tp_ch tc' → sendingOk tc' →
  (∀ i, i ∈ tp_fanout tc → offered tc' i = offered tc i) → topicOk size subs t tc'.
Proof.
  intros (_ & Hn & _ & Hs) Hf Ha Hd Ho. unfold topicOk. rewrite Hf. split_and!; [done..|].
  intros i Hi. destruct (Hs i Hi) as (sb & Hl & Ht & Hsub). exists sb. split_and!; [done..|].
  unfold subOk. by rewrite Ho.
Qed.

Lemma mqOk_setTopic q t tc tc' :
  mqOk q → mq_topics q !! t = Some tc → tp_fanout tc' = tp_fanout tc → topicOk (mq_bufferSize q) (mq_subs q) t tc' →
  mqOk (setTopic t tc' q).
Proof.
  intros [Ht Hs] Hl Hf Hok. split; simpl.
  - by apply map_Forall_insert_2.
  - intros i sb Hi. destruct (Hs i sb Hi) as (tc0 & Hl0 & Hi0). destruct (decide (t = sb_topic sb)) as [->|Hne].
    + exists tc'. rewrite lookup_insert_eq. split; [done|]. rewrite Hf. congruence.
    + exists tc0. by rewrite lookup_insert_ne.
Qed.

(** A subscriber may do what does not change what it got. *)
Lemma mqOk_setSub q i sb sb' :
  mqOk q → mq_subs q !! i = Some sb → sb_topic sb' = sb_topic sb → hist sb' = hist sb →
  sb_from sb' = sb_from sb → sb_missed sb' = sb_missed sb → mqOk (setSubs (<[i := sb']> (mq_subs q)) q).
Proof.
  intros [Ht Hs] Hi Htop Hh Hfr Hmi. split; simpl.
  - intros t tc Hl. destruct (Ht t tc Hl) as (Ha & Hn & Hd & Hsub). split_and!; [done..|].
    intros j Hj. destruct (Hsub j Hj) as (sbj & Hlj & Htj & Hok).
    destruct (decide (i = j)) as [->|Hne].
    + exists sb'. rewrite list_lookup_insert_eq by (by eapply lookup_lt_Some). simplify_eq.
      split_and!; [done|by rewrite Htop|]. unfold subOk. rewrite Hh, Hfr, Hmi. done.
    + exists sbj. by rewrite list_lookup_insert_ne.
  - intros j sbj Hj. apply list_lookup_insert_Some in Hj as [(<- & <- & _)|[_ Hj]]; [|by apply Hs].
    rewrite Htop. by apply Hs.
Qed.

Lemma ensureTopic_ok t q :
  mqOk q → mqOk (ensureTopic t q).1 ∧ mq_topics (ensureTopic t q).1 !! t = Some (ensureTopic t q).2 ∧
  mq_subs (ensureTopic t q).1 = mq_subs q.
Proof.
  intros [Ht Hs]. unfold ensureTopic. destruct (mq_topics q !! t) as [tc|] eqn:E; [done|]. simpl.
  rewrite lookup_insert_eq. split_and!; [|done..]. split; simpl.
  - apply map_Forall_insert_2; [|done]. split_and!; [done|apply NoDup_nil_2|done|]. by intros i ?%elem_of_nil.
  - intros i sb Hi. destruct (Hs i sb Hi) as (tc & Hl & Hin). exists tc.
    rewrite lookup_insert_ne by congruence. done.
Qed.

Lemma mqOk_publishing q p : mqOk q → mqOk (setPublishing p q).
Proof. done. Qed.

Definition addSub (tc : topicState) (i : nat) : topicState :=
  {| tp_ch := tp_ch tc; tp_disp := tp_disp tc; tp_fanout := tp_fanout tc ++ [i];
     tp_accepted := tp_accepted tc; tp_done := tp_done tc |}.

Definition newSub (topic : string) (from : nat) : subscriber :=
  {| sb_topic := topic; sb_ch := []; sb_at := Unstarted; sb_handled := []; sb_missed := [];
     sb_from := from |}.

(** A new subscriber is not among those the dispatcher is sending to. *)
Lemma taken_offered tc i : sendingOk tc → i ∉ tp_fanout tc → taken tc = length (offered tc i).
Proof.
  unfold sendingOk, taken, offered. destruct (tp_disp tc) as [|m|m rest|]; [done..| |done].
  intros [_ Hsub] Hi. rewrite decide_False by set_solver. rewrite length_app. simpl. lia.
Qed.

Lemma subscribe_ok q topic tc :
  mqOk q → mq_topics q !! topic = Some tc →
  let i := length (mq_subs q) in
  mqOk (setTopic topic (addSub tc i) (setSubs (mq_subs q ++ [newSub topic (taken tc)]) q)).
Proof.
  intros [Ht Hs] Hl i.
  assert (∀ t tc', mq_topics q !! t = Some tc' → i ∉ tp_fanout tc') as Hfresh.
  { intros t tc' Hl' Hin. destruct (Ht t tc' Hl') as (_ & _ & _ & Hsub).
    destruct (Hsub i Hin) as (sb & Hi & _). apply lookup_lt_Some in Hi. unfold i in Hi. lia. }
  assert (∀ t tc', topicOk (mq_bufferSize q) (mq_subs q) t tc' → topicOk (mq_bufferSize q) (mq_subs q ++ [newSub topic (taken tc)]) t tc') as Hmore.
  { intros t tc' (Ha & Hn & Hd & Hsub). split_and!; [done..|]. intros j Hj.
    destruct (Hsub j Hj) as (sb & Hj' & ?). exists sb. by rewrite (lookup_app_l_Some _ _ _ _ Hj'). }
  split; simpl.
  - apply map_Forall_insert_2; [|intros t tc' Hl'; apply Hmore; by apply Ht].
    destruct (Hmore topic tc (Ht _ _ Hl)) as (Ha & Hn & Hd & Hsub). split_and!; [done| | |].
    + simpl. apply NoDup_app. split_and!; [done| |apply NoDup_singleton].
      intros j Hj Hji%list_elem_of_singleton. subst j. by eapply Hfresh.
    + unfold sendingOk in *. simpl. destruct (tp_disp tc); [done..| |done]. set_solver.
    + simpl. intros j [Hj|Hj%list_elem_of_singleton]%elem_of_app; [by apply Hsub|]. subst j.
      exists (newSub topic (taken tc)). split_and!; [by rewrite list_lookup_middle|done|].
      unfold subOk. simpl. change (offered (addSub tc i) i) with (offered tc i).
      rewrite (taken_offered tc i Hd (Hfresh _ _ Hl)), drop_all. split_and!; [done..|by left|done].
  - intros j sb [Hj|[Hj Hsb]]%lookup_app_Some.
    + destruct (Hs j sb Hj) as (tc' & Hl' & Hin). destruct (decide (topic = sb_topic sb)) as [->|Hne].
      * exists (addSub tc i). rewrite lookup_insert_eq. split; [done|]. simpl. set_solver.
      * exists tc'. by rewrite lookup_insert_ne.
    + apply list_lookup_singleton_Some in Hsb as [Hz <-]. simpl. exists (addSub tc i).
      rewrite lookup_insert_eq. split; [done|]. simpl. assert (j = i) as -> by lia. set_solver.
Qed.

(** The send to one subscriber. *)
Lemma offer_ok size msg rest tc i sb :
  tp_disp tc = Sending msg (i :: rest) → i ∉ rest → subOk size tc i sb →
  subOk size (withDisp (Sending msg rest) (tp_done tc) tc) i (offer size msg sb).
Proof.
  intros Hd Hi. unfold subOk, offered. rewrite Hd. simpl. rewrite decide_True by set_solver.
  rewrite decide_False by done. intros (Hf & Hsub & Hperm & Hfull & Hmany & Heq).
  rewrite length_app, drop_app_le by done. unfold offer. destruct (Nat.ltb_spec (length (sb_ch sb)) size) as [Hlt|Hge].
  - assert (∀ x, hist {| sb_topic := sb_topic sb; sb_ch := sb_ch sb ++ [msg]; sb_at := sb_at sb; sb_handled := sb_handled sb;
      sb_missed := x; sb_from := sb_from sb |} = hist sb ++ [msg]) as Hh by (by intros x; unfold hist, inHand; simpl; rewrite !app_assoc).
    rewrite Hh. simpl. split_and!; [lia|by apply sublist_app| |done| |by intros ->%Heq].
    + rewrite <-Hperm. solve_Permutation.
    + rewrite length_app. destruct Hmany; [by left|right; lia].
  - change (hist {| sb_topic := _ |}) with (hist sb). simpl. rewrite fmap_app. simpl.
    split_and!; [lia|by apply sublist_inserts_r|by rewrite app_assoc, Hperm|by apply Forall_app; auto| |].
    + right. unfold hist. rewrite !length_app. lia.
    + by destruct (sb_missed sb).
Qed.

Lemma fanout_ok q topic tc msg i rest :
  mqOk q → mq_topics q !! topic = Some tc → tp_disp tc = Sending msg (i :: rest) →
  mqOk (setTopic topic (withDisp (Sending msg rest) (tp_done tc) tc)
          (setSubs (alter (offer (mq_bufferSize q) msg) i (mq_subs q)) q)).
Proof.
  intros [Ht Hs] Hl Hd. pose proof (Ht _ _ Hl) as (Ha & Hn & Hso & Hsub).
  pose proof Ha as Hcur. unfold current in Hcur.
  unfold sendingOk in Hso. rewrite Hd in Hso. destruct Hso as [[Hir Hnr]%NoDup_cons Hin].
  destruct (Hsub i) as (sb & Hi & Htop & Hok); [set_solver|].
  split; simpl.
  - intros t tc'. rewrite lookup_insert_Some. intros [[<- <-]|[Hne Hl']].
    + split_and!; [by rewrite Hd in Hcur|done|by split; [done|set_solver]|].
      intros j Hj. simpl in Hj. destruct (decide (i = j)) as [<-|Hij].
      * exists (offer (mq_bufferSize q) msg sb). rewrite list_lookup_alter, decide_True, Hi by done.
        split_and!; [done|done|by apply offer_ok].
      * destruct (Hsub j Hj) as (sbj & Hlj & Htj & Hokj). exists sbj.
        rewrite list_lookup_alter, decide_False by done. split_and!; [done..|].
        unfold subOk, offered in *. rewrite Hd in Hokj. simpl.
        rewrite (decide_ext (j ∈ i :: rest) (j ∈ rest)) in Hokj; [done|]. rewrite elem_of_cons. naive_solver.
    + destruct (Ht t tc' Hl') as (Ha' & Hn' & Hd' & Hsub'). split_and!; [done..|]. intros j Hj.
      destruct (Hsub' j Hj) as (sbj & Hlj & Htj & Hokj). exists sbj.
      assert (i ≠ j) by (intros <-; congruence). rewrite list_lookup_alter, decide_False by done. done.
  - intros j sbj Hj. assert (∃ sb0, mq_subs q !! j = Some sb0 ∧ sb_topic sb0 = sb_topic sbj) as (sb0 & Hj0 & Htj).
    { rewrite list_lookup_alter in Hj. case_decide; [subst|eauto]. apply fmap_Some in Hj as (x & Hx & ->). by exists x. }
    destruct (Hs j sb0 Hj0) as (tc' & Hl' & Hin'). rewrite <-Htj.
    destruct (decide (topic = sb_topic sb0)) as [->|Hne].
    + eexists. rewrite lookup_insert_eq. split; [done|]. simpl. congruence.
    + exists tc'. by rewrite lookup_insert_ne.
Qed.

Lemma ensureTopic_size t q : mq_bufferSize (ensureTopic t q).1 = mq_bufferSize q.
Proof. unfold ensureTopic. by destruct (mq_topics q !! t). Qed.

Lemma act_size a q q' : act a q = Some q' → mq_bufferSize q' = mq_bufferSize q.
Proof.
  unfold act. destruct (mq_panic q); [done|]. destruct a as [g t m|g|t|i|t|t|t|t|i|i|i| |]; intros Ha;
    try (apply bind_Some in Ha as ([? ?] & _ & Ha)); try (apply bind_Some in Ha as (? & _ & Ha));
    try (pose proof (ensureTopic_size t q); destruct (ensureTopic t q)); repeat case_match; by simplify_eq/=.
Qed.

(** The actions of a topic's goroutine and of [Publish]. *)
Lemma topic_step_ok q topic tc tc' :
  mqOk q → mq_topics q !! topic = Some tc → tp_fanout tc' = tp_fanout tc →
  tp_accepted tc' = tp_done tc' ++ current tc' ++ tp_ch tc' → sendingOk tc' →
  (∀ i, i ∈ tp_fanout tc → offered tc' i = offered tc i) → mqOk (setTopic topic tc' q).
Proof.
  intros Hq Hl Hf Ha Hs Ho. eapply mqOk_setTopic; [done..|].
  eapply topicOk_change; [|done..]. by apply Hq.
Qed.

(** The steps of a subscriber's goroutine. *)
Lemma goto_ok q i sb p ch handled :
  mqOk q → mq_subs q !! i = Some sb → hist (goto p ch handled sb) = hist sb →
  mqOk (setSubs (<[i := goto p ch handled sb]> (mq_subs q)) q).
Proof. intros Hq Hi Hh. by eapply mqOk_setSub. Qed.

Lemma act_ok a q q' : act a q = Some q' → mqOk q → mqOk q'.
Proof.
  unfold act. destruct (mq_panic q); [done|].
  destruct a as [g t m|g|t|i|t|t|t|t|i|i|i| |]; intros Ha Hq.
  - destruct (mq_closed q); [by simplify_eq|]. pose proof (ensureTopic_ok t q Hq) as (Hq' & _).
    destruct (ensureTopic t q). by simplify_eq.
  - destruct (mq_publishing q !! g) as [[t m]|]; [|done]. simpl in Ha.
    destruct (mq_topics q !! t) as [tc|] eqn:Hl; [|done]. simpl in Ha.
    destruct (mq_closed q); [by simplify_eq|]. destruct (_ <? _)%nat; simplify_eq; [|done].
    eapply topic_step_ok; [done|exact Hl|done| |by apply Hq in Hl as (_ & _ & ? & _)|done].
    apply Hq in Hl as (Hacc & _). simpl. rewrite Hacc. unfold current. simpl. by rewrite <-!app_assoc.
  - destruct (mq_closed q); [by simplify_eq|]. pose proof (ensureTopic_ok t q Hq) as (Hq' & Hl & _).
    destruct (ensureTopic t q) as [q1 tc]. simplify_eq. by apply subscribe_ok.
  - apply bind_Some in Ha as (sb & Hi & Ha). destruct (sb_at sb) eqn:Hat; simplify_eq. apply goto_ok; [done..|].
    unfold hist, inHand. simpl. rewrite Hat. simpl. done.
  - destruct (mq_topics q !! t) as [tc|] eqn:Hl; [|done]. simpl in Ha.
    destruct (tp_disp tc) eqn:Hd, (tp_ch tc) as [|m ch] eqn:Hch; simplify_eq.
    eapply topic_step_ok; [done|exact Hl|done| |done|by intros; unfold offered; rewrite Hd].
    apply Hq in Hl as (Hacc & _). unfold current in *. rewrite Hd, Hch in Hacc. done.
  - destruct (mq_topics q !! t) as [tc|] eqn:Hl; [|done]. simpl in Ha.
    destruct (tp_disp tc) eqn:Hd; simplify_eq. pose proof Hl as (Hacc & Hn & _)%Hq.
    eapply topic_step_ok; [done|exact Hl|done| |done|].
    + unfold current in *. by rewrite Hd in Hacc.
    + intros i Hi. unfold offered. rewrite Hd. cbn [withDisp tp_disp tp_done]. by rewrite decide_True.
  - destruct (mq_topics q !! t) as [tc|] eqn:Hl; [|done]. simpl in Ha.
    destruct (tp_disp tc) as [|m|m [|i rest]|] eqn:Hd; simplify_eq.
    + eapply topic_step_ok; [done|exact Hl|done| |done|].
      * apply Hq in Hl as (Hacc & _). unfold current in *. rewrite Hd in Hacc. simpl. by rewrite <-app_assoc.
      * intros i Hi. unfold offered. rewrite Hd. cbn [withDisp tp_disp tp_done].
        rewrite decide_False; [done|]. apply not_elem_of_nil.
    + destruct (mq_closed q); simplify_eq; [done|]. by apply fanout_ok.
  - destruct (mq_topics q !! t) as [tc|] eqn:Hl; [|done]. simpl in Ha.
    destruct (tp_disp tc) eqn:Hd; simplify_eq. destruct (mq_closed q); simplify_eq.
    eapply topic_step_ok; [done|exact Hl|done| |done|by intros; unfold offered; rewrite Hd].
    apply Hq in Hl as (Hacc & _). unfold current in *. by rewrite Hd in Hacc.
  - apply bind_Some in Ha as (sb & Hi & Ha). destruct (sb_at sb) eqn:Hat, (sb_ch sb) eqn:Hch; simplify_eq. apply goto_ok; [done..|].
    unfold hist, inHand. simpl. by rewrite Hat, Hch.
  - apply bind_Some in Ha as (sb & Hi & Ha). destruct (sb_at sb) eqn:Hat; simplify_eq. apply goto_ok; [done..|].
    unfold hist, inHand. simpl. rewrite Hat. simpl. by rewrite <-app_assoc.
  - apply bind_Some in Ha as (sb & Hi & Ha). destruct (sb_at sb) eqn:Hat; simplify_eq. apply goto_ok; [done..|].
    unfold hist, inHand. simpl. rewrite Hat. simpl. done.
  - destruct (mq_closed q); by simplify_eq.
  - destruct (_ && _); by simplify_eq.
Qed.

(** C36. Delivery: in every reachable state and for every subscription, what its
    handler has been called with and what waits for it, in that order, is a
    subsequence of what [Publish] accepted for the topic (so nothing twice and
    nothing out of order).  Of the messages the dispatcher has offered since the
    subscription it lacks exactly those in [sb_missed], and each of them found at
    least [bufferSize] messages in its channel; so none of the first [bufferSize]
    is missed.  Messages that are still with the dispatcher when the queue is
    closed are not offered. *)
Theorem mq_delivery bufferSize q i sb :
  rtc step (NewMemoryQueue bufferSize) q → mq_subs q !! i = Some sb →
  let size := if bufferSize <=? 0 then 4096%nat else Z.to_nat bufferSize in
  let got := sb_handled sb ++ inHand sb ++ sb_ch sb in
  ∃ tc, mq_topics q !! sb_topic sb = Some tc ∧ offered tc i `prefix_of` tp_accepted tc ∧
    let since := drop (sb_from sb) (offered tc i) in
    got `sublist_of` since ∧ since `sublist_of` drop (sb_from sb) (tp_accepted tc) ∧
    got ++ (sb_missed sb).*1 ≡ₚ since ∧ Forall (λ m, size ≤ m.2)%nat (sb_missed sb) ∧
    ((length since ≤ size)%nat → got = since).
Proof.
  intros Hr Hi size got. assert (mqOk q ∧ mq_bufferSize q = size) as [[Ht Hs] Hsize].
  { apply (rtc_invariant step (λ q, mqOk q ∧ mq_bufferSize q = size) (NewMemoryQueue bufferSize));
      [|split; [split; [apply map_Forall_empty|done]|done]|exact Hr].
    intros a b [Ha Hz] [c Hc]. split; [by eapply act_ok|]. rewrite <-Hz. by eapply act_size. }
  destruct (Hs i sb Hi) as (tc & Hl & Hin). destruct (Ht _ _ Hl) as (Hacc & _ & _ & Hsub).
  destruct (Hsub i Hin) as (sb' & Hi' & _ & Hfrom & Hh & Hperm & Hfull & Hmany & Heq). rewrite Hsize in *. simplify_eq.
  assert (offered tc i `prefix_of` tp_accepted tc) as Hpre.
  { rewrite Hacc. unfold offered, current. destruct (tp_disp tc); try by apply prefix_app_r.
    case_decide; [by apply prefix_app_r|]. rewrite app_assoc. by apply prefix_app_r. }
  exists tc. do 2 (split; [done|]). intros since. split_and!; [done| |done|done|].
  - unfold since. destruct Hpre as [r Hr']. rewrite Hr', drop_app_le by done. by apply sublist_inserts_r.
  - intros Hle. apply Heq. destruct Hmany as [?|Hmany]; [done|].
    apply Permutation_length in Hperm. rewrite length_app, length_fmap in Hperm.
    unfold since in Hle. destruct (sb_missed sb); [done|]. simpl in Hperm. lia.
Qed.

(** C38. [Close] can crash the process: a [Publish] that has released the lock
    when [Close] takes it sends on a closed channel, and so does a dispatcher
    that has copied the list of subscribers. *)
Theorem close_panics q g topic payload tc msg i subs :
  mq_panic q = false → mq_closed q = false →
  (∃ q1 q2 q3, act (Publish g topic payload) q = Some q1 ∧ act Close q1 = Some q2 ∧
     act (Send g) q2 = Some q3 ∧ mq_panic q3 = true) ∧
  (mq_topics q !! topic = Some tc → tp_disp tc = Sending msg (i :: subs) →
   ∃ q1 q2, act Close q = Some q1 ∧ act (FanOut topic) q1 = Some q2 ∧ mq_panic q2 = true).
Proof.
  intros Hp Hc. split.
  - assert (∃ q1 tc1, act (Publish g topic payload) q = Some q1 ∧ mq_panic q1 = false ∧ mq_closed q1 = false ∧
      mq_publishing q1 !! g = Some (topic, payload) ∧ mq_topics q1 !! topic = Some tc1)
      as (q1 & tc1 & E & Hp1 & Hc1 & Hg & Ht).
    { unfold act, ensureTopic. rewrite Hp, Hc. destruct (mq_topics q !! topic) as [tc1|] eqn:Ht;
        eexists _, _; (split; [done|]); simpl; split_and!; try done; apply lookup_insert_eq. }
    exists q1, (closing q1), (panicked (setPublishing (delete g (mq_publishing q1)) (closing q1))).
    split; [done|]. unfold act. rewrite Hp1, Hc1. split; [done|]. simpl. by rewrite Hp1, Hg; simpl; rewrite Ht.
  - intros Ht Hd. exists (closing q), (panicked (closing q)). unfold act. rewrite Hp, Hc. split; [done|].
    simpl. by rewrite Hp, Ht; simpl; rewrite Hd.
Qed.

(** ** A concrete run *)

Fixpoint runs (acts : list action) (q : MemoryQueue) : option MemoryQueue :=
  match acts with
  | [] => Some q
  | a :: acts => q ← act a q; runs acts q
  end.

Lemma runs_rtc acts q q' : runs acts q = Some q' → rtc step q q'.
Proof.
  revert q. induction acts as [|a acts IH]; intros q; simpl; [by intros [= ->]|].
  intros (q1 & Ha & Hr)%bind_Some. eapply rtc_l; [by exists a|by apply IH].
Qed.

(** A buffer of one: the second message finds the subscriber's channel full. *)
Definition demo_acts : list action :=
  [Subscribe "t"; Begin 0; Publish 0 "t" "a"; Send 0; Receive "t"; CopySubs "t"; FanOut "t"; FanOut "t";
   Publish 0 "t" "b"; Send 0; Receive "t"; CopySubs "t"; FanOut "t"; Take 0; FanOut "t"; Handled 0;
   Publish 1 "t" "c"; Send 1; Receive "t"; CopySubs "t"].

Definition demo_queue : MemoryQueue := default (NewMemoryQueue 1) (runs demo_acts (NewMemoryQueue 1)).

Lemma mq_delivery_witness :
  ∃ sb tc, mq_subs demo_queue !! 0%nat = Some sb ∧ sb_handled sb = ["a"] ∧ sb_missed sb = [("b", 1%nat)] ∧
    mq_topics demo_queue !! "t" = Some tc ∧ tp_accepted tc = ["a"; "b"; "c"] ∧
    (sb_handled sb ++ inHand sb ++ sb_ch sb) ++ (sb_missed sb).*1 ≡ₚ drop (sb_from sb) (offered tc 0) ∧
    Forall (λ m, 1 ≤ m.2)%nat (sb_missed sb).
Proof.
  assert (rtc step (NewMemoryQueue 1) demo_queue) as Hr by (by apply (runs_rtc demo_acts); vm_compute).
  destruct (mq_subs demo_queue !! 0%nat) as [sb|] eqn:Hs; [|by vm_compute in Hs].
  destruct (mq_delivery 1 demo_queue 0 sb Hr Hs) as (tc & Ht & _ & _ & _ & Hp & Hf & _).
  assert (sb_topic sb = "t") as Htop by (vm_compute in Hs; by injection Hs as <-).
  exists sb, tc. rewrite Htop in Ht.
  split_and!; [done|vm_compute in Hs; by injection Hs as <-|vm_compute in Hs; by injection Hs as <-|done| |done|exact Hf].
  vm_compute in Ht. by injection Ht as <-.
Defined.

Lemma close_panics_witness :
  ∃ q1 q2, act Close demo_queue = Some q1 ∧ act (FanOut "t") q1 = Some q2 ∧ mq_panic q2 = true.
Proof.
  destruct (mq_topics demo_queue !! "t") as [tc|] eqn:Ht; [|by vm_compute in Ht].
  apply (close_panics demo_queue 0 "t" "x" tc "c" 0 []); [by vm_compute|by vm_compute|done|].
  vm_compute in Ht. by injection Ht as <-.
Defined.
End MQ.
