(* ===== verification/Queues.v ===== *)
(** * storage.Queue: the interface of the message queues

    [src/internal/storage/interfaces.go].  [StorageQueue] is what the three
    implementations show of themselves: the handlers that run, the steps of the
    process, and the return of the call of [Close] that closed the queue.
    [DrainingQueue] is the promise of the interface, that all handlers in flight
    are drained before [Close] returns; what a caller may conclude is proved
    from it, and the in-memory, Redis and RabbitMQ queues keep it. *)
From S2P Require Import Prelude GoStd GoJson Domain Auth MessageQueue RedisQueue RabbitMQ.

Module Queues.

Class StorageQueue (Q : Type) := {
  running : Q → list string;          (* the payloads handlers are working on *)
  inner : Q → Q → Prop;               (* a step of the process *)
  closeReturns : Q → Q → Prop;        (* the call of Close that closed the queue returns *)
  noneStarting : Q → Prop;            (* no call of Subscribe is about to start a goroutine that is not waited for *)
}.

Class DrainingQueue (Q : Type) `{StorageQueue Q} := {
  drained : Q → Prop;
  drained_idle q : drained q → running q = [];
  drained_inner q q' : drained q → inner q q' → drained q';
  close_drains q q' : noneStarting q → closeReturns q q' → drained q';
}.

(** What a caller may conclude from the promise. *)
Lemma drained_forever {Q} `{DrainingQueue Q} (q q1 q2 : Q) :
  noneStarting q → closeReturns q q1 → rtc inner q1 q2 → running q2 = [].
Proof.
  intros Hn Hc Hr. apply drained_idle. apply (rtc_invariant inner drained q1); [apply drained_inner| |done].
  by eapply close_drains.
Qed.

(** ** Redis *)

Section redis.
Context {L : Type} `{RQ.ListServer L}.

Definition redisRunning (q : RQ.RedisQueue L) : list string :=
  RQ.rq_consumers q ≫= λ c, match RQ.cs_at c with RQ.Handling p => [p] | _ => [] end.

(** A consumer that starts now finds [stopCh] closed before it pops. *)
Definition redisDone (c : RQ.consumer) : Prop := RQ.cs_at c = RQ.Checking ∨ RQ.cs_at c = RQ.Returned.
Definition redisDrained (q : RQ.RedisQueue L) : Prop := RQ.rq_stopCh q = true ∧ Forall redisDone (RQ.rq_consumers q).

#[export] Instance redis_queue : StorageQueue (RQ.RedisQueue L) := {|
  running := redisRunning;
  inner q q' := ∃ a, RQ.act a q = Some q' ∧ a ≠ RQ.Crash;
  closeReturns q q' := RQ.act RQ.CloseReturns q = Some q';
  noneStarting _ := True;
|}.

Lemma redis_consume_done i a c (q q' : RQ.RedisQueue L) :
  redisDrained q → redisDone c → RQ.consume i a c q = Some q' → redisDrained q'.
Proof.
  intros [Hs Hd] Hc Ha. unfold RQ.consume in Ha.
  destruct Hc as [E|E]; rewrite E, ?Hs in Ha; destruct a; simplify_eq/=.
  split; [done|]. simpl. apply Forall_insert; [done|]. by right.
Qed.

Lemma redis_drained_act a q q' : redisDrained q → RQ.act a q = Some q' → a ≠ RQ.Crash → redisDrained q'.
Proof.
  intros [Hs Hd] Ha Hc.
  assert (∀ i c, RQ.rq_consumers q !! i = Some c → redisDone c) as Hat.
  { intros i c Hi. by apply (Forall_lookup_1 _ _ _ _ Hd Hi). }
  destruct a; cbn [RQ.act] in Ha;
    try (apply bind_Some in Ha as (c & Hi & Hx); exact (redis_consume_done _ _ _ _ _ (conj Hs Hd) (Hat _ _ Hi) Hx)).
  - repeat case_match; by simplify_eq.
  - simplify_eq. split; [done|]. simpl. apply Forall_app. split; [done|]. apply Forall_singleton. by left.
  - apply bind_Some in Ha as (c & Hi & [= <-]). split; [done|]. simpl. apply Forall_insert; [done|]. exact (Hat _ _ Hi).
  - by simplify_eq.
  - repeat case_match; by simplify_eq.
  - done.
Qed.

#[export] Program Instance redis_draining : DrainingQueue (RQ.RedisQueue L) := {| drained := redisDrained |}.
Next Obligation.
  intros q [_ Hd]. simpl. unfold redisRunning. induction Hd as [|c cs Hc Hd IH]; [done|].
  simpl. by destruct Hc as [-> | ->].
Qed.
Next Obligation. intros q q' Hd (a & Ha & Hs). by eapply redis_drained_act. Qed.
Next Obligation.
  intros q q' _. simpl. destruct (_ && _) eqn:E; [|done]. intros [= <-]. apply andb_true_iff in E as [_ E].
  split; [done|]. apply Forall_forall. intros c Hc%list_elem_of_In. simpl in Hc. rewrite forallb_forall in E.
  specialize (E c Hc). right. by destruct (RQ.cs_at c).
Qed.
End redis.

(** ** RabbitMQ *)

Definition rabbitRunning (q : Rabbit.RabbitMQQueue) : list string := Rabbit.mq_subs q ≫= Rabbit.current.
(** A consumer that starts now finds [stopCh] closed before it consumes. *)
Definition rabbitDone (sb : Rabbit.subscription) : Prop :=
  Rabbit.sb_at sb = Rabbit.Registered ∨ Rabbit.sb_at sb = Rabbit.Checking ∨ Rabbit.sb_at sb = Rabbit.Returned.
Definition rabbitDrained (q : Rabbit.RabbitMQQueue) : Prop :=
  Rabbit.mq_stopCh q = true ∧ Forall rabbitDone (Rabbit.mq_subs q).

#[export] Instance rabbit_queue : StorageQueue Rabbit.RabbitMQQueue := {|
  running := rabbitRunning;
  inner q q' := ∃ a, Rabbit.act a q = Some q';
  closeReturns q q' := Rabbit.act Rabbit.CloseReturns q = Some q';
  noneStarting _ := True;
|}.

Lemma rabbit_consume_done a q sb sb' :
  Rabbit.mq_stopCh q = true → rabbitDone sb → Rabbit.consume a q sb = Some sb' → rabbitDone sb'.
Proof.
  intros Hs Hd. unfold Rabbit.consume. rewrite Hs. unfold rabbitDone.
  destruct Hd as [E|[E|E]]; rewrite E; destruct a; try done; intros [= <-]; simpl; auto.
Qed.

Lemma rabbit_connect_stop o q : Rabbit.mq_stopCh (Rabbit.connect o q).1 = Rabbit.mq_stopCh q.
Proof. by destruct o. Qed.

Lemma rabbit_drained_act a q q' : rabbitDrained q → Rabbit.act a q = Some q' → rabbitDrained q'.
Proof.
  intros [Hs Hd] Ha. unfold rabbitDrained in *.
  assert (∀ i sb, Rabbit.mq_subs q !! i = Some sb → rabbitDone sb) as Hat.
  { intros i sb Hi. by apply (Forall_lookup_1 _ _ _ _ Hd Hi). }
  destruct a as [topic b o|i| | | | | | | | | |sent| | |o|b o|c| |]; cbn [Rabbit.act Rabbit.watchdog] in Ha;
    try (apply bind_Some in Ha as (sb & Hi & (sb' & Hc & [= <-])%bind_Some); split; [done|]; apply Forall_insert; [done|];
         exact (rabbit_consume_done _ _ _ _ Hs (Hat _ _ Hi) Hc)).
  - apply bind_Some in Ha as ([q1 e] & (r & Hr & [= Hx])%bind_Some & [= <-]). destruct r; simplify_eq; [|done]. simpl.
    split; [done|]. apply Forall_app. split; [done|]. apply Forall_singleton. by left.
  - apply bind_Some in Ha as (sb & Hi & [= <-]). simpl. split; [done|]. apply Forall_insert; [done|]. exact (Hat _ _ Hi).
  - repeat case_match; by simplify_eq.
  - repeat case_match; by simplify_eq.
  - repeat case_match; by simplify_eq.
  - repeat case_match; by simplify_eq.
  - destruct (Rabbit.mq_watchdog q); try done. pose proof (Rabbit.connect_open o q) as Hc.
    pose proof (rabbit_connect_stop o q) as Hst.
    destruct (Rabbit.connect o q) as [q1 [e|]]; simplify_eq; simpl in *; rewrite Hst; split; [done| |done|].
    + by destruct Hc as (_ & _ & _ & ->).
    + by destruct Hc as (c & _ & _ & -> & _).
  - destruct (Rabbit.mq_watchdog q) as [| | | |[|i subs]|]; try done; [by simplify_eq|].
    apply bind_Some in Ha as (sb & Hi & (r & Hr & [= <-])%bind_Some). destruct r; [|done]. simpl.
    split; [done|]. apply Forall_insert; [done|]. exact (Hat _ _ Hi).
  - by simplify_eq.
  - by simplify_eq.
  - unfold Rabbit.closeReturns in Ha. repeat case_match; by simplify_eq.
Qed.

#[export] Program Instance rabbit_draining : DrainingQueue Rabbit.RabbitMQQueue := {| drained := rabbitDrained |}.
Next Obligation.
  intros q [_ Hd]. simpl. unfold rabbitRunning, Rabbit.current in *. induction Hd as [|c cs Hc Hd IH]; [done|].
  simpl. destruct Hc as [E|[E|E]]; by rewrite E.
Qed.
Next Obligation. intros q q' Hd (a & Ha). by eapply rabbit_drained_act. Qed.
Next Obligation.
  intros q q' _. simpl. unfold Rabbit.closeReturns. destruct (_ && _) eqn:E; [|done]. intros [= <-].
  apply andb_true_iff in E as [[Hs _]%andb_true_iff E]. split; [by repeat case_match|].
  apply Forall_forall. intros sb Hsb%list_elem_of_In. rewrite forallb_forall in E.
  assert (In sb (Rabbit.mq_subs q)) as Hin by (revert Hsb; by repeat case_match). specialize (E sb Hin).
  unfold Rabbit.isReturned in E. unfold rabbitDone. destruct (Rabbit.sb_at sb); naive_solver.
Qed.

(** ** In memory *)

Definition memoryRunning (q : MQ.MemoryQueue) : list string := MQ.mq_subs q ≫= MQ.inHand.
Definition memoryDrained (q : MQ.MemoryQueue) : Prop :=
  MQ.mq_closed q = true ∧ Forall (λ sb, MQ.sb_at sb = MQ.Returned) (MQ.mq_subs q).
(** No call of [Subscribe] is between its critical section and [q.wg.Add(1)]. *)
Definition allStarted (q : MQ.MemoryQueue) : Prop := Forall (λ sb, MQ.sb_at sb ≠ MQ.Unstarted) (MQ.mq_subs q).

#[export] Instance memory_queue : StorageQueue MQ.MemoryQueue := {|
  running := memoryRunning;
  inner q q' := ∃ a, MQ.act a q = Some q';
  closeReturns q q' := MQ.act MQ.CloseReturns q = Some q';
  noneStarting := allStarted;
|}.

Lemma ensureTopic_subs t q : MQ.mq_subs (MQ.ensureTopic t q).1 = MQ.mq_subs q.
Proof. unfold MQ.ensureTopic. by destruct (MQ.mq_topics q !! t). Qed.

Lemma memory_drained_act a q q' : memoryDrained q → MQ.act a q = Some q' → memoryDrained q'.
Proof.
  intros [Hc Hd] Ha. unfold memoryDrained in *.
  assert (∀ i sb, MQ.mq_subs q !! i = Some sb → MQ.sb_at sb = MQ.Returned) as Hat.
  { intros i sb Hi. by apply (Forall_lookup_1 _ _ _ _ Hd Hi). }
  unfold MQ.act in Ha. rewrite Hc in Ha. destruct (MQ.mq_panic q); [done|].
  destruct a as [g t p|g|t|i|t|t|t|t|i|i|i| |]; simplify_eq; try done;
    try (apply bind_Some in Ha as (sb & Hi & Ha); by rewrite (Hat _ _ Hi) in Ha).
  - apply bind_Some in Ha as ([topic payload] & _ & (tc & _ & Ha)%bind_Some).
    simpl in Ha. rewrite Hc in Ha. by simplify_eq.
  - apply bind_Some in Ha as (tc & _ & Ha). repeat case_match; by simplify_eq.
  - apply bind_Some in Ha as (tc & _ & Ha). repeat case_match; by simplify_eq.
  - apply bind_Some in Ha as (tc & _ & Ha). repeat case_match; by simplify_eq.
  - apply bind_Some in Ha as (tc & _ & Ha). repeat case_match; by simplify_eq.
  - repeat case_match; by simplify_eq.
Qed.

#[export] Program Instance memory_draining : DrainingQueue MQ.MemoryQueue := {| drained := memoryDrained |}.
Next Obligation.
  intros q [_ Hd]. simpl. unfold memoryRunning, MQ.inHand. induction Hd as [|c cs Hc Hd IH]; [done|].
  simpl. by rewrite Hc.
Qed.
Next Obligation. intros q q' Hd (a & Ha). by eapply memory_drained_act. Qed.
Next Obligation.
  intros q q' Hn. simpl. unfold MQ.act. destruct (MQ.mq_panic q); [done|].
  destruct (_ && _) eqn:E; [|done]. intros [= <-]. apply andb_true_iff in E as [[Hc _]%andb_true_iff [_ Hg]%andb_true_iff].
  split; [done|]. simpl. apply Forall_forall. intros sb Hsb.
  pose proof (proj1 (Forall_forall _ _) Hn sb Hsb) as Hst. simpl in Hst. rewrite forallb_forall in Hg.
  specialize (Hg sb (proj1 (list_elem_of_In _ _) Hsb)). unfold MQ.subscriberGone in Hg.
  by destruct (MQ.sb_at sb).
Qed.

(** ** The three queues *)

(** C30. [Close] is final: when the call that closed a queue has returned, no
    handler of it is running, and none is started by whatever publishers, new
    subscribers, brokers and timers do.  For the queue in memory this needs that
    no call of [Subscribe] had registered its channel and not yet started its
    goroutine ([late_handler] is what happens otherwise); for Redis the process
    goes on, a restart makes a new queue. *)
Theorem close_is_final {L} `{RQ.ListServer L} :
  (∀ q q1 q2 : RQ.RedisQueue L,
     RQ.act RQ.CloseReturns q = Some q1 → rtc inner q1 q2 → redisRunning q2 = []) ∧
  (∀ q q1 q2 : Rabbit.RabbitMQQueue,
     Rabbit.act Rabbit.CloseReturns q = Some q1 → rtc Rabbit.step q1 q2 → rabbitRunning q2 = []) ∧
  (∀ q q1 q2 : MQ.MemoryQueue, allStarted q →
     MQ.act MQ.CloseReturns q = Some q1 → rtc MQ.step q1 q2 → memoryRunning q2 = []).
Proof.
  split_and!; intros q q1 q2.
  - exact (drained_forever q q1 q2 I).
  - exact (drained_forever q q1 q2 I).
  - exact (drained_forever q q1 q2).
Qed.

(** ** Concrete runs *)

Definition demo_stopped : RQ.RedisQueue (list (string * string)) := RQ.stopping true false RQ.demo_queue.

(** In memory: a subscriber with a message, closed and waited for. *)
Definition demo_memory : list MQ.action :=
  [MQ.Subscribe "t"; MQ.Begin 0; MQ.Publish 0 "t" "a"; MQ.Send 0; MQ.Close; MQ.Stop "t"; MQ.Leave 0; MQ.CloseReturns].

(** Redis: a consumer whose handler fails after [Close] was called. *)
Lemma close_is_final_witness :
  (∃ q1 q2, @RQ.runs _ RQ.seq_server [RQ.HandlerReturns 0 true; RQ.Requeue 0 1; RQ.Check 0; RQ.CloseReturns] demo_stopped = Some q1 ∧
    @RQ.act _ RQ.seq_server (RQ.Publish "logs" "late" 0 true) q1 = Some q2 ∧
    RQ.rq_pushed q2 = RQ.rq_pushed q1 ∧ redisRunning q2 = []) ∧
  ∃ q1, MQ.runs demo_memory (MQ.NewMemoryQueue 1) = Some q1 ∧ ∀ q2, rtc MQ.step q1 q2 → memoryRunning q2 = [].
Proof.
  split; [|destruct (MQ.runs (take 7 demo_memory) (MQ.NewMemoryQueue 1)) as [q|] eqn:E; [|by vm_compute in E];
    destruct (MQ.act MQ.CloseReturns q) as [q1|] eqn:E1; [|vm_compute in E; by injection E as <-];
    exists q1; split; [vm_compute in E; injection E as <-; vm_compute in E1 |- *; exact E1|];
    intros q2; apply (proj2 (proj2 (@close_is_final _ RQ.seq_server)) q q1 q2); [|exact E1];
    vm_compute in E; injection E as <-; by repeat constructor].
  destruct (@RQ.runs _ RQ.seq_server [RQ.HandlerReturns 0 true; RQ.Requeue 0 1; RQ.Check 0] demo_stopped) as [q0|] eqn:E0;
    [|by vm_compute in E0].
  destruct (@RQ.act _ RQ.seq_server RQ.CloseReturns q0) as [q1|] eqn:E1; [|vm_compute in E0; by injection E0 as <-].
  destruct (@RQ.act _ RQ.seq_server (RQ.Publish "logs" "late" 0 true) q1) as [q2|] eqn:E2;
    [|vm_compute in E0; injection E0 as <-; vm_compute in E1; injection E1 as <-; by vm_compute in E2].
  exists q1, q2. split_and!; [|done| |].
  - vm_compute in E0. injection E0 as <-. vm_compute in E1 |- *. done.
  - vm_compute in E0. injection E0 as <-. vm_compute in E1. injection E1 as <-. vm_compute in E2. by injection E2 as <-.
  - apply (proj1 (@close_is_final _ RQ.seq_server) q0 q1 q2 E1).
    apply rtc_once. by exists (RQ.Publish "logs" "late" 0 true).
Defined.

(** In memory, a subscriber that has registered its channel and not started its
    goroutine when [Close] is called is not waited for: its handler runs on a
    message of its channel after [Close] has returned. *)
Lemma late_handler :
  ∃ q1 q2, MQ.runs [MQ.Subscribe "t"; MQ.Publish 0 "t" "a"; MQ.Send 0; MQ.Receive "t"; MQ.CopySubs "t"; MQ.FanOut "t";
                    MQ.FanOut "t"; MQ.Close; MQ.Stop "t"; MQ.CloseReturns] (MQ.NewMemoryQueue 1) = Some q1 ∧
    MQ.runs [MQ.Begin 0; MQ.Take 0] q1 = Some q2 ∧ memoryRunning q2 = ["a"].
Proof. eexists _, _. split; [by vm_compute|]. split; by vm_compute. Qed.

(** A call of [Close] on a closed queue in memory returns at once, also while a
    handler runs and the first call waits for it. *)
Lemma second_close_early :
  ∃ q, MQ.runs [MQ.Subscribe "t"; MQ.Begin 0; MQ.Publish 0 "t" "a"; MQ.Send 0; MQ.Receive "t"; MQ.CopySubs "t"; MQ.FanOut "t";
                MQ.FanOut "t"; MQ.Take 0; MQ.Close] (MQ.NewMemoryQueue 1) = Some q ∧
    MQ.act MQ.Close q = Some q ∧ MQ.act MQ.CloseReturns q = None ∧ memoryRunning q = ["a"].
Proof. eexists. split; [by vm_compute|]. split_and!; by vm_compute. Qed.

End Queues.
