(* ===== verification/Admin.v ===== *)
(** * api/admin.go: the read-only management API

    The handlers read the store and the log queries, which are arguments, and
    write a view of what they find; [encode] is [json.Encoder] on such a view,
    [encodeLog] on one entry of an export ([None] when it or the write fails).
    [query] is [r.URL.Query().Get], [parseTime] is [time.Parse(time.RFC3339, _)].
    The queries themselves are those of [LogStore]. *)
From S2P Require Import Prelude GoStd GoFloat GoTime GoJson Domain GoHttp AsyncLog LogStore Middleware.

Module Admin.

Definition intQuery (s : string) (def : Z) : Z :=
  if bool_decide (s = "") then def
  else match Atoi s with
       | (v, None) => if v <? 1 then def else v
       | (_, Some _) => def
       end.

Section admin.
Context (parseTime : string → option Z).

Definition timeQuery (v : string) : option Z := if bool_decide (v = "") then None else parseTime v.

Definition parseLogFilter (query : string → string) : LogFilter :=
  {| lf_APIKeyID := query "api_key_id"; lf_ModelAlias := query "model";
     lf_NodeID := query "node_id"; lf_SessionID := query "session_id";
     lf_StatusCode := intQuery (query "status_code") 0;
     lf_ErrorOnly := bool_decide (query "error_only" = "true") || bool_decide (query "error_only" = "1");
     lf_Keyword := query "keyword";
     lf_StartTime := timeQuery (query "start"); lf_EndTime := timeQuery (query "end");
     lf_Page := intQuery (query "page") 1; lf_PageSize := intQuery (query "page_size") 20 |}.

(** [k[len(k)-4:]]. *)
Definition last4 (k : string) : string := strdrop (String.length k - 4) k.

Definition maskKey (k : string) : string :=
  if 7 <? Z.of_nat (String.length k) then strtake 3 k +:+ "***" +:+ last4 k else "****".

Definition withKey (k : string) (key : APIKey) : APIKey :=
  {| key_ID := key_ID key; key_Key := k; key_Name := key_Name key; key_Enabled := key_Enabled key;
     key_TPM := key_TPM key; key_RPM := key_RPM key; key_AllowModels := key_AllowModels key;
     key_CreatedAt := key_CreatedAt key; key_ExpiresAt := key_ExpiresAt key |}.

(** ** The handlers *)

(** What a response shows. *)
Inductive view :=
| VNodes (nodes : list ModelNode)
| VNode (node : ModelNode)
| VKeys (keys : list APIKey)
| VLogs (total page : Z) (data : list RequestLog)
| VDetail (d : DetailLog)
| VStats (s : LogStats) (activeNodes totalNodes activeKeys totalKeys : Z)
| VSeries (series : list TimeSeriesPoint)
| VTop (top : list TopEntity).

Context (encode : view → string) (encodeLog : RequestLog → option string).
Context {W : Type} `{Writer W}.

Definition reply (w : W) (r : result error view) : W :=
  match r with
  | Ok v => Api.writeJSON w 200 (encode v)
  | Err e => Api.writeError w 500 (err_Msg e)
  end.

Definition getOnly (method : string) (w : W) (k : W) : W :=
  if bool_decide (method = "GET") then k else Api.writeError w 405 "method not allowed".

Definition nodes (ListNodes : result error (list ModelNode)) (method : string) (w : W) : W :=
  getOnly method w (reply w (match ListNodes with Ok ns => Ok (VNodes ns) | Err e => Err e end)).

Definition nodeByID (GetNode : string → result error (option ModelNode)) (method path : string)
    (w : W) : W :=
  getOnly method w
    (let id := TrimPrefix path "/admin/nodes/" in
     if bool_decide (id = "") then Api.writeError w 400 "missing node id"
     else match GetNode id with
          | Err e => Api.writeError w 500 (err_Msg e)
          | Ok None => Api.writeError w 404 "node not found"
          | Ok (Some n) => Api.writeJSON w 200 (encode (VNode n))
          end).

Definition keys (ListAPIKeys : result error (list APIKey)) (method : string) (w : W) : W :=
  getOnly method w
    (reply w (match ListAPIKeys with
              | Ok ks => Ok (VKeys ((λ k, withKey (maskKey (key_Key k)) k) <$> ks))
              | Err e => Err e
              end)).

Definition logs (QueryLogs : LogFilter → result error (list RequestLog * Z)) (method : string)
    (query : string → string) (w : W) : W :=
  getOnly method w
    (let filter := parseLogFilter query in
     reply w (match QueryLogs filter with
              | Ok (data, total) => Ok (VLogs total (lf_Page filter) data)
              | Err e => Err e
              end)).

Definition logDetail (GetDetail : string → result error (option DetailLog)) (method path : string)
    (w : W) : W :=
  getOnly method w
    (let traceID := TrimPrefix path "/admin/logs/" in
     if bool_decide (traceID = "") then Api.writeError w 400 "missing trace id"
     else match GetDetail traceID with
          | Err e => Api.writeError w 500 (err_Msg e)
          | Ok None => Api.writeError w 404 "detail not found"
          | Ok (Some d) => Api.writeJSON w 200 (encode (VDetail d))
          end).

(** The loop of the export: it returns at the first failure. *)
Fixpoint exportLoop (logs : list RequestLog) (w : W) : W :=
  match logs with
  | [] => w
  | log :: logs =>
      match encodeLog log with
      | None => w
      | Some line =>
          match wWrite line w with
          | (w, Some _) => w
          | (w, None) => exportLoop logs w
          end
      end
  end.

Definition logExport (ExportLogs : LogFilter → result error (list RequestLog)) (method : string)
    (query : string → string) (w : W) : W :=
  getOnly method w
    (match ExportLogs (parseLogFilter query) with
     | Err e => Api.writeError w 500 (err_Msg e)
     | Ok logs =>
         let h := hdrSet "Content-Type" "application/x-jsonlines" (wHeader w) in
         let h := hdrSet "Content-Disposition" "attachment; filename=logs_export.jsonl" h in
         exportLoop logs (wSetHeader h w)
     end).

Definition statsTimeSeries (StatsTimeSeries : LogFilter → string → result error (list TimeSeriesPoint))
    (method : string) (query : string → string) (w : W) : W :=
  getOnly method w
    (let granularity := if bool_decide (query "granularity" = "") then "day" else query "granularity" in
     reply w (match StatsTimeSeries (parseLogFilter query) granularity with
              | Ok series => Ok (VSeries series) | Err e => Err e end)).

Definition statsTop (StatsTop : LogFilter → string → Z → result error (list TopEntity))
    (method : string) (query : string → string) (w : W) : W :=
  getOnly method w
    (let groupBy := if bool_decide (query "group_by" = "") then "model_alias" else query "group_by" in
     let limit := intQuery (query "limit") 10 in
     reply w (match StatsTop (parseLogFilter query) groupBy limit with
              | Ok top => Ok (VTop top) | Err e => Err e end)).

(** The start of the day (UTC) of an instant. *)
Definition startOfDay (now : Z) : Z := now - now mod (86400 * Second).

Definition stats (now : Z) (Stats : LogFilter → result error LogStats)
    (ListNodes : result error (list ModelNode)) (ListAPIKeys : result error (list APIKey))
    (method : string) (query : string → string) (w : W) : W :=
  getOnly method w
    (let f := parseLogFilter query in
     let f := match lf_StartTime f with
              | Some _ => f
              | None =>
                  {| lf_APIKeyID := lf_APIKeyID f; lf_ModelAlias := lf_ModelAlias f;
                     lf_NodeID := lf_NodeID f; lf_SessionID := lf_SessionID f;
                     lf_StatusCode := lf_StatusCode f; lf_ErrorOnly := lf_ErrorOnly f;
                     lf_Keyword := lf_Keyword f; lf_StartTime := Some (startOfDay now);
                     lf_EndTime := lf_EndTime f; lf_Page := lf_Page f; lf_PageSize := lf_PageSize f |}
              end in
     reply w (match Stats f with
              | Err e => Err e
              | Ok s =>
                  let ns := match ListNodes with Ok ns => ns | Err _ => [] end in
                  let ks := match ListAPIKeys with Ok ks => ks | Err _ => [] end in
                  Ok (VStats s (countb node_Enabled ns) (Z.of_nat (length ns))
                        (countb key_Enabled ks) (Z.of_nat (length ks)))
              end)).

(** ** Properties *)

Lemma intQuery_spec s def : 1 ≤ def → 1 ≤ intQuery s def ≤ Z.max def (2 ^ 63 - 1).
Proof.
  intros Hd. unfold intQuery. case_bool_decide; [lia|].
  destruct (Atoi s) as [v [e|]] eqn:E; [lia|]. destruct (Z.ltb_spec v 1); [lia|].
  pose proof (ParseInt_range s) as Hr. unfold Atoi in E.
  rewrite E in Hr. unfold in_int64 in Hr. simpl in Hr. lia.
Qed.

(** Same visible part: both long, same first three and last four characters, or
    both short. *)
Definition same_visible (k k' : string) : Prop :=
  (7 < Z.of_nat (String.length k) ∧ 7 < Z.of_nat (String.length k') ∧
   strtake 3 k = strtake 3 k' ∧ last4 k = last4 k') ∨
  (Z.of_nat (String.length k) ≤ 7 ∧ Z.of_nat (String.length k') ≤ 7).

Lemma maskKey_hides k k' : same_visible k k' → maskKey k = maskKey k'.
Proof.
  unfold maskKey. intros [(H1 & H2 & -> & ->)|[H1 H2]].
  - by rewrite !(proj2 (Z.ltb_lt 7 _)) by done.
  - by rewrite !(proj2 (Z.ltb_ge 7 _)) by done.
Qed.

(** The key listing keeps secrets: two stores whose keys agree on
    everything but the characters between the third and the last four of each
    key (or the whole of a key of at most seven characters) give the same
    response. *)
Theorem keys_masked (ks ks' : list APIKey) (method : string) (w : W) :
  Forall2 (λ k k', withKey "" k = withKey "" k' ∧ same_visible (key_Key k) (key_Key k')) ks ks' →
  keys (Ok ks) method w = keys (Ok ks') method w.
Proof.
  intros Hf. unfold keys, getOnly. case_bool_decide; [|done]. simpl. do 3 f_equal.
  induction Hf as [|k k' ks ks' [Hk Hv] _ IH]; [done|]. simpl. f_equal; [|done].
  rewrite (maskKey_hides _ _ Hv). unfold withKey in *. by simplify_eq/=; congruence.
Qed.

End admin.

(** Whatever the query says, the page and the page size of a parsed filter are
    at least 1 and fit in 64 bits, and so does the limit of the listing. *)
Lemma page_bounds (parseTime : string → option Z) (query : string → string) :
  let f := parseLogFilter parseTime query in
  1 ≤ lf_Page f < 2 ^ 63 ∧ (LogStore.pageBounds f).1 = lf_PageSize f ∧ 1 ≤ lf_PageSize f < 2 ^ 63.
Proof.
  unfold LogStore.pageBounds. simpl.
  pose proof (intQuery_spec (query "page") 1 ltac:(lia)) as Hp.
  pose proof (intQuery_spec (query "page_size") 20 ltac:(lia)) as Hs.
  rewrite (Z.max_r 1 (2 ^ 63 - 1)) in Hp by lia. rewrite (Z.max_r 20 (2 ^ 63 - 1)) in Hs by lia.
  rewrite !(proj2 (Z.ltb_ge _ 1)) by lia. lia.
Qed.

(** ** Witness *)

Definition demo_key (k : string) : APIKey :=
  {| key_ID := "1"; key_Key := k; key_Name := "n"; key_Enabled := true; key_TPM := 0; key_RPM := 0;
     key_AllowModels := []; key_CreatedAt := 0; key_ExpiresAt := None |}.

Lemma keys_masked_witness :
  maskKey "pk-SECRET1234" = "pk-***1234" ∧
  keys (λ _, "") (Ok [demo_key "pk-SECRET1234"]) "GET" newRW =
  keys (λ _, "") (Ok [demo_key "pk-hidden1234"]) "GET" newRW.
Proof.
  split; [vm_compute; reflexivity|]. apply (keys_masked (λ _, "")).
  constructor; [|constructor]. split; [reflexivity|]. left. simpl. split_and!; try lia; reflexivity.
Defined.

End Admin.
